(* ===== verification/_CoqProject ===== *)
-Q . S2P
Prelude.v
Text.v
Names.v
Numbers.v
Frame.v
Pool.v
PoolSys.v
PoolLive.v
Claims.v
Dispatch.v
Nbd.v
NbdWire.v
Cpio.v
Shell.v
Wire.v
AgentState.v
AgentOs.v
AgentOps.v
AgentStream.v
Qmp.v
QmpEvents.v
QmpIo.v
AgentClient.v
AgentLink.v
VmOpts.v
Vm.v
DiskPorts.v
Profile.v
Bridge.v
BridgeNet.v
BridgePlan.v
Barrier.v
Lab.v
LabTree.v
LabSnap.v
LabRestore.v
Fixture.v
FixtureCache.v
CliArgs.v
Cli.v
CliReport.v
Events.v
TestFramework.v
TestFilter.v
Runner.v
QemuArgs.v
QemuLaunch.v
QemuBackend.v
VmAgent.v
VmAgentLink.v
Lua.v
LuaStream.v
LuaReader.v
LuaJson.v
LuaArgs.v
Coverage.v
