(* ===== verification/Prelude.v ===== *)
(** * Provium: a verification development

    Provium boots virtual machines for tests: a host runner schedules test
    files against a shared budget of memory and processors, boots guests,
    gives them disks it can break on purpose, injects files into their initial
    file system, and drives them through an agent that runs inside the guest.
    This library models the parts that carry that logic and proves what they
    promise each other.

    ** Files and the code they model

    - [Prelude]: results, machine-width integers, bytes and their big- and
      little-endian encodings, [copy_from_slice], sums over finite maps,
      invariants of step relations. Shared by every file.
    - [Frame]: the length-prefixed codec of [provium-protocol/src/frame.rs].
      A byte stream is a script of chunks and faults, so a theorem about every
      script covers short reads, timeouts and closed connections.
    - [Pool], [PoolSys], [PoolLive], [Claims]: the resource pool of
      [provium-host/src/scheduler/pool.rs]. [Pool] has its critical sections
      one by one, [PoolSys] every interleaving of them by any number of
      threads (parked threads, pending wake-ups, live reservations), [PoolLive]
      the schedules in which an owner is one thread, [Claims] the accounts and
      one-shot claims.
    - [Nbd], [NbdWire]: the mediated disk of [provium-host/src/nbd.rs]. [Nbd]
      has the image, the overlay of unflushed sectors, the power cut and the
      fault policy, against a specification of a volatile write cache;
      [NbdWire] the negotiation and the transmission loop on a byte stream.
    - [Cpio]: the injected boot files of [provium-host/src/vmm/files_cpio.rs]
      (validation, newc archive, gzip wrapper), with reference readers.
    - [Shell]: the printed command line of [provium-host/src/console.rs], with
      the POSIX word splitting it must survive.
    - [Wire]: the host/agent messages of [provium-protocol/src/wire].
    - [AgentState], [AgentOs], [AgentOps]: the guest agent
      ([provium-agent/src/state.rs], [ops], [connection.rs]). [AgentState] has
      the handle tables under any interleaving of handlers; [AgentOs] is the
      interface to the guest's system and to workers' control channels (class
      [Os], its laws [RelayLaws] and [TimeLaws]); [AgentOps] every short
      operation and their dispatch, proved for any implementation of it.
    - [Qmp], [QmpEvents], [QmpIo]: the QEMU monitor client of
      [provium-qmp/src]. [Qmp] has the calls, the reader and the shutdown as
      steps of one relation, [QmpEvents] the event log, its marks and the
      waits, [QmpIo] bounded line I/O and the opening negotiation.
    - [VmOpts], [Vm]: one virtual machine as its handle sees it,
      [provium-host/src/vm.rs] with the types of [vmm/mod.rs]. [VmOpts] has
      what a boot launches and reserves; [Vm] the state machine, its guarded
      operations, boot and restore section by section under every interleaving
      of the threads that share the handle, and the reset.
    - [AgentStream]: the agent's streaming operations ([ops/stream.rs],
      [io.rs], [error.rs]): each loop is a labelled machine, a label one system
      call with what it returned or a change made from outside.
    - [AgentClient], [AgentLink]: the host's client of the agent
      ([provium-host/src/agent_client], [connector.rs]); [AgentLink] puts it
      against [AgentOps] and [AgentStream] through the codec of [Frame].
    - [DiskPorts]: the ports of runtime disks, [vmm/disk_hotplug.rs], against a
      monitor whose removals finish late or never.
    - [Dispatch]: one run of the test files, [scheduler/dispatch.rs] with the
      outcomes of [lua/runner.rs], and the identifiers of [cid.rs].
    - [Text], [Names], [Numbers]: UTF-8 (checked and lossy), white space and
      searching; walks in name order and paths; integers, floats and durations
      as the standard library reads and prints them.
    - [Profile]: [profile.rs] and [build.rs]: discovery, checking, expansion
      and building of the configurations a boot is made from.
    - [Bridge], [BridgeNet], [BridgePlan]: bridges ([bridge.rs],
      [bridge_realize.rs]): the recorded network, the host commands that
      realise it (class [Host]), and the plan printed for them.
    - [Barrier], [Lab], [LabTree], [LabSnap], [LabRestore]: labs ([lab.rs]):
      [Barrier] the named rendezvous; [Lab] the tree of machines, bridges and
      sub-labs in one shared world of handles, its batch operations and joint
      boots, over [Vm], [Bridge], [Claims] and [Profile]; [LabTree] its walks
      and flat names; [LabSnap] and [LabRestore] the snapshot of a whole lab
      and the way back.
    - [Fixture], [FixtureCache]: [fixture.rs] and the fixture protocol of
      [lua/lab_ud.rs]: the references of a source, the cache key, eviction,
      and the processes that ask for one fixture at once.
    - [CliArgs], [Cli], [CliReport]: the command line ([bin/provium.rs] with
      [scheduler/psi.rs] and [scheduler/preflight.rs]): the parsers of its
      arguments and the size of the pool, the files found, run again and
      watched, and what is printed and returned.
    - [Events], [Coverage]: the event stream of a run
      ([provium-protocol/src/events.rs], [scheduler/events.rs]), its log under
      a file lock and the socket that fans it out, and the report
      [provium-coverage] makes of the log.
    - [TestFramework], [TestFilter], [Runner]: one test file
      ([lua/test_framework.rs], [lua/runner.rs]): the calls of a test on its
      context, the meta data, filters and timeouts, and the run of the file
      with its events and the restore between tests.
    - [QemuArgs], [QemuLaunch], [QemuBackend]: the backend ([vmm/qemu.rs],
      [vmm/agent_overlay.rs]): the command lines, a launch with everything it
      leaves on the host however it ends, the operations on a running machine,
      and all the machines of a host in every interleaving.
    - [VmAgent], [VmAgentLink]: the operations of a machine handle on its guest
      ([vm.rs]), with the registry of what is open, over a class of agents
      whose laws [VmAgentLink] proves of the handlers of [AgentOps].
    - [Lua], [LuaStream], [LuaReader], [LuaJson], [LuaArgs]: the bindings
      ([lua/result_ud.rs], [console_stream_ud.rs], [capture_ud.rs],
      [json_ud.rs], [vm_ud.rs]): values of Lua and what durations and signals
      are read from; the three kinds of streams over any source of bytes
      (class [Source], with a schedule of arrivals as its instance) and the
      contract they share (class [Reader]); JSON both ways; and the arguments
      of the machine methods.

    ** How the code is rendered

    A function that changes an object takes and returns its state; [Result]
    is [result] with [Ok] and [Err]; integers are [Z] kept at their width by
    explicit [wrap], [sat_add] and [checked_add]; a [HashMap] or [BTreeMap] is
    a [gmap], walked in key order where the code depends on it. Loops that are
    not structural take fuel: [NbdWire.serve_terminates] shows that one turn
    per input byte is enough there, [AgentOps.capped_wait_returns] one per
    20 ms of the cap, [LuaReader.tail_search_ends] one per piece that still
    arrives; the other fuelled loops (the archive and gzip readers)
    are reference readers whose theorems hold for every sufficient fuel, and
    [Text.strip] removes at least a byte per unit, so the length is enough.
    Critical sections are single steps, and concurrency is a step relation
    over them; a run of [FixtureCache] has at most eleven steps for each process
    ([FixtureCache.run_length]).

    ** What is proved

    - Pool: conservation and bookkeeping in every interleaving; the deadlock
      verdict is exact, final (nothing parked is ever served once it holds)
      and always noticed by a thread that can act on it; claims are never
      exceeded, are one-shot, and a claimed boot never waits.
    - Frames: what is written is read back whatever the chunking and the
      timeouts; every outcome of a read is accounted for; the buffer is bounded.
    - Disk: on a host that never fails, and below the size at which it flushes
      by itself, it refines a write cache; on any host an acknowledged write is
      kept as long as no later write or flush is refused, through a power cut
      when forced; faults fail exactly what they name and never desynchronise
      the connection.
    - Boot files: the segment reads back as the files given, parents first, for
      files the format can hold, none of them named as its end marker.
    - Agent: handles never collide or come back; every operation is answered
      with its own result variant; handlers are sequences of the verified
      table steps; a capped wait returns.
    - Monitor: a call gets its own reply or an error of its own, never another
      call's; a
      shutdown leaves no caller waiting; one call writes at a time; an event
      wait returns the first event past its mark and never a stale one; the
      negotiation survives any chunking.
    - Virtual machine: every interleaving follows the state machine; machines
      and reservations are owned exactly once and none outlives a shutdown;
      what a boot launches and is charged; when a panic and an unfinished
      reset window are possible, exactly.
    - Agent connections: short operations and streams agree at both ends; a
      stream carries the file's bytes in order, whatever changes meanwhile, and
      the whole output of a process, if no write to the connection fails.
    - Runtime disks: a port is never given twice while the guest may hold it.
    - Dispatch: every file is reported once, a deadline discounts the time
      spent parked, one failure stops a fail-fast run and nothing else does; the
      exit code is that of the files and of the coverage tool.
    - Profiles: what is loaded is what is written and what is found, and can
      boot; the order in which a directory is listed does not matter.
    - Bridges: once [nft] works, each call that cuts makes the rules cut exactly
      the recorded partitions; realising again changes nothing; the plan is the
      commands.
    - Labs: a barrier's rounds are exact; flat names lead back to their
      machines; joint boots are charged the sum of the solo ones; a snapshot
      of a bridge comes back. A lab restore brings every machine back and then
      fails, because it resumes machines that are not paused.
    - Fixtures: equal keys mean equal inputs, whatever was edited; how often a
      fixture is built, by how many at once and after what, is accounted for,
      and one process at a time builds as long as no lock file is unlinked;
      eviction is least recently used.
    - Command line: sizes and timeouts are read exactly or refused; the report
      counts what the run says.
    - Events: a log written by any processes in any order is counted exactly.
    - Test files: every test has one outcome and its events agree with it; a
      test that failed or skipped cannot pass, whatever it caught (a panic of
      the host can be caught too); a restore between tests never restores.
    - QEMU: a launch ends, and what it leaves is known; machines share no
      identifier unless the cleanup a handle runs twice took a directory away;
      the option strings, read as QEMU reads them, attach the disks asked for
      when their ids are plain.
    - Machine handle: what it believes open is open in the agent; a process is
      collected once.
    - Lua streams: whatever is asked and however the bytes were cut, they are
      handed out once and in order by all three kinds alike.
    - Lua JSON: a value decoded and encoded again is itself up to the announced
      losses; the order in which a table is walked does not show.
    - Lua arguments: a boot writes no file but at its image directory joined
      with its disk ids; the arguments of
      a raw system call fit the wire.

    ** What is not modelled

    Libraries: msgpack (an abstract encoder and decoder with their round trip),
    the text of JSON (values arrive parsed), TOML, SHA-256 and the flags of the
    command line; [mlua], whose conversions are the class [FromLua] and whose
    calls arrive as values. The operating system (the [Os] interface of the
    agent, [Host] and [Tree] of the host, the answers a launch is given), QEMU
    itself, and threads that only move bytes between a pipe and a buffer. Of
    the program itself: the bindings that only hand their arguments on
    (bridges, disks, files, cards, most of the labs'), the interactive console
    ([console.rs] beyond the command it prints, [repl.rs]), the accept loops of
    the disk server and of the agent with its start-up, the agent run on the
    host for tests ([vmm/local_agent.rs]), and the fixed texts of
    [verbosity.rs], [perf.rs] and [lsp_meta.rs]. What is left of these is
    system calls and calls of the parts above. Texts of error messages are kept
    where the code builds them from data, and dropped where they are fixed.
*)
From Stdlib Require Export ZArith Lia Sorted.
From Stdlib Require Export Init.Byte.
From Stdlib Require Import Strings.Byte.
From stdpp Require Export prelude strings gmap.

Open Scope Z_scope.

(** ** Results *)

Inductive result (A E : Type) : Type :=
| Ok (a : A)
| Err (e : E).
Arguments Ok {A E} a.
Arguments Err {A E} e.

Declare Scope provium_scope.
Delimit Scope provium_scope with prov.

Notation "'let?' x := e 'in' k" :=
  (match e with Ok x => k | Err err => Err err end)
  (at level 10, x name, e at level 100, k at level 200)
  : provium_scope.
Open Scope provium_scope.

Definition is_ok {A E} (r : result A E) : bool :=
  match r with Ok _ => true | Err _ => false end.

(** ** Machine-width integers *)

Definition u8_max : Z := 255.
Definition u16_max : Z := 65535.
Definition u32_max : Z := 4294967295.
Definition u64_max : Z := 18446744073709551615.

Definition in_width (max x : Z) : Prop := 0 <= x <= max.

Definition sat_add (max a b : Z) : Z := Z.min max (a + b).
Definition sat_sub (a b : Z) : Z := Z.max 0 (a - b).
Definition wrap (max x : Z) : Z := x mod (max + 1).
Definition checked_add (max a b : Z) : option Z :=
  if a + b <=? max then Some (a + b) else None.

Create HintDb width.

Lemma sat_add_exact max a b : a + b <= max -> sat_add max a b = a + b.
Proof. unfold sat_add; lia. Qed.

Lemma sat_sub_exact a b : b <= a -> sat_sub a b = a - b.
Proof. unfold sat_sub; lia. Qed.

Lemma sat_add_width max a b :
  0 <= max -> 0 <= a -> 0 <= b -> in_width max (sat_add max a b).
Proof. unfold sat_add, in_width; lia. Qed.

Lemma sat_sub_width max a b :
  in_width max a -> 0 <= b -> in_width max (sat_sub a b).
Proof. unfold sat_sub, in_width; lia. Qed.

Lemma wrap_small max x : in_width max x -> wrap max x = x.
Proof. unfold wrap, in_width; intros; apply Z.mod_small; lia. Qed.

Lemma wrap_width max x : 0 <= max -> in_width max (wrap max x).
Proof.
  unfold wrap, in_width; intros.
  pose proof (Z.mod_pos_bound x (max + 1)); lia.
Qed.

#[export] Hint Resolve sat_add_width sat_sub_width wrap_width : width.

(** ** Bytes *)

Abbreviation byte := Byte.byte.
Abbreviation bytes := (list Byte.byte).

#[export] Instance byte_eq_dec : EqDecision byte := Byte.byte_eq_dec.

Definition byte_to_Z (b : byte) : Z := Z.of_N (Byte.to_N b).

Definition byte_of_Z (z : Z) : byte :=
  match Byte.of_N (Z.to_N (z mod 256)) with
  | Some b => b
  | None => x00
  end.

Lemma byte_to_Z_range b : 0 <= byte_to_Z b < 256.
Proof.
  unfold byte_to_Z. pose proof (Byte.to_N_bounded b). lia.
Qed.

Lemma byte_to_of_Z z : byte_to_Z (byte_of_Z z) = z mod 256.
Proof.
  unfold byte_of_Z, byte_to_Z.
  pose proof (Z.mod_pos_bound z 256 ltac:(lia)) as Hb.
  destruct (Byte.of_N (Z.to_N (z mod 256))) as [b|] eqn:E.
  - apply Byte.to_of_N in E. rewrite E. lia.
  - apply Byte.of_N_None_iff in E. lia.
Qed.

Lemma byte_of_to_Z b : byte_of_Z (byte_to_Z b) = b.
Proof.
  unfold byte_of_Z. pose proof (byte_to_Z_range b) as Hb.
  rewrite Z.mod_small by lia. unfold byte_to_Z.
  rewrite N2Z.id, Byte.of_to_N. reflexivity.
Qed.

Lemma byte_to_Z_inj a b : byte_to_Z a = byte_to_Z b -> a = b.
Proof. intros H. rewrite <- (byte_of_to_Z a), <- (byte_of_to_Z b). congruence. Qed.

Lemma byte_of_Z_mod z : byte_of_Z (z mod 256) = byte_of_Z z.
Proof. unfold byte_of_Z. by rewrite Z.mod_mod by lia. Qed.

Abbreviation str s := (String.list_byte_of_string s%string) (only parsing).

(** ** Big- and little-endian encodings *)

Fixpoint le_bytes (n : nat) (z : Z) : bytes :=
  match n with
  | O => []
  | S n' => byte_of_Z z :: le_bytes n' (z / 256)
  end.

Fixpoint of_le_bytes (bs : bytes) : Z :=
  match bs with
  | [] => 0
  | b :: bs' => byte_to_Z b + 256 * of_le_bytes bs'
  end.

Definition be_bytes (n : nat) (z : Z) : bytes := rev (le_bytes n z).
Definition of_be_bytes (bs : bytes) : Z := of_le_bytes (rev bs).

Lemma length_le_bytes n z : length (le_bytes n z) = n.
Proof. revert z; induction n; simpl; intros; [done|]; by rewrite IHn. Qed.

Lemma length_be_bytes n z : length (be_bytes n z) = n.
Proof. unfold be_bytes. by rewrite length_rev, length_le_bytes. Qed.

Lemma of_le_bytes_le n z :
  of_le_bytes (le_bytes n z) = z mod 256 ^ Z.of_nat n.
Proof.
  revert z; induction n as [|n IH]; intros z; cbn [le_bytes of_le_bytes].
  - by rewrite Z.pow_0_r, Z.mod_1_r.
  - rewrite IH, byte_to_of_Z, Nat2Z.inj_succ, Z.pow_succ_r by lia.
    rewrite Z.rem_mul_r by (try apply Z.pow_nonzero; lia). lia.
Qed.

Lemma of_le_bytes_bound bs :
  0 <= of_le_bytes bs < 256 ^ Z.of_nat (length bs).
Proof.
  induction bs as [|b bs IH]; cbn [of_le_bytes length]; [lia|].
  pose proof (byte_to_Z_range b).
  rewrite Nat2Z.inj_succ, Z.pow_succ_r by lia. nia.
Qed.

Lemma le_bytes_of_le bs : le_bytes (length bs) (of_le_bytes bs) = bs.
Proof.
  induction bs as [|b bs IH]; cbn [of_le_bytes length le_bytes]; [done|].
  pose proof (byte_to_Z_range b).
  replace ((byte_to_Z b + 256 * of_le_bytes bs) / 256) with (of_le_bytes bs)
    by (rewrite Z.add_comm, Z.mul_comm, Z.div_add_l, Z.div_small; lia).
  rewrite IH. f_equal.
  rewrite <- byte_of_Z_mod, (Z.mul_comm 256), Z.mod_add by lia.
  by rewrite byte_of_Z_mod, byte_of_to_Z.
Qed.

Lemma of_be_bytes_be n z :
  of_be_bytes (be_bytes n z) = z mod 256 ^ Z.of_nat n.
Proof. unfold of_be_bytes, be_bytes. by rewrite rev_involutive, of_le_bytes_le. Qed.

Lemma of_be_bytes_be_small n z :
  0 <= z < 256 ^ Z.of_nat n -> of_be_bytes (be_bytes n z) = z.
Proof. intros. by rewrite of_be_bytes_be, Z.mod_small. Qed.

Lemma of_le_bytes_le_small n z :
  0 <= z < 256 ^ Z.of_nat n -> of_le_bytes (le_bytes n z) = z.
Proof. intros. by rewrite of_le_bytes_le, Z.mod_small. Qed.

Lemma of_be_bytes_bound bs :
  0 <= of_be_bytes bs < 256 ^ Z.of_nat (length bs).
Proof. unfold of_be_bytes. rewrite <- length_rev. apply of_le_bytes_bound. Qed.

Lemma be_bytes_of_be n bs :
  length bs = n -> be_bytes n (of_be_bytes bs) = bs.
Proof.
  intros <-. unfold be_bytes, of_be_bytes.
  rewrite <- length_rev, le_bytes_of_le. apply rev_involutive.
Qed.

(** ** Lists *)

Definition zlen {A} (l : list A) : Z := Z.of_nat (length l).

Lemma zlen_nonneg {A} (l : list A) : 0 <= zlen l.
Proof. unfold zlen; lia. Qed.

Lemma zlen_app {A} (l k : list A) : zlen (l ++ k) = zlen l + zlen k.
Proof. unfold zlen. rewrite length_app. lia. Qed.

Lemma zlen_cons {A} (x : A) l : zlen (x :: l) = 1 + zlen l.
Proof. unfold zlen. simpl. lia. Qed.

Lemma zlen_nil {A} : zlen (@nil A) = 0.
Proof. done. Qed.

Lemma zlen_zero {A} (l : list A) : zlen l = 0 -> l = [].
Proof. unfold zlen. destruct l; simpl; [done|lia]. Qed.

(** [copy_from_slice]: overwrite [length src] elements of [dst] from index [i]. *)
Definition splice {A} (dst : list A) (i : nat) (src : list A) : list A :=
  take i dst ++ src ++ drop (i + length src) dst.

Lemma length_splice {A} (dst : list A) i src :
  (i + length src <= length dst)%nat -> length (splice dst i src) = length dst.
Proof.
  intros. unfold splice. rewrite !length_app, length_take, length_drop. lia.
Qed.

Lemma take_splice {A} (dst : list A) i src :
  (i + length src <= length dst)%nat ->
  take (i + length src) (splice dst i src) = take i dst ++ src.
Proof.
  intros. unfold splice. rewrite app_assoc.
  rewrite take_app_length'; [done|].
  rewrite length_app, length_take. lia.
Qed.

Lemma lookup_splice {A} (dst : list A) i src j :
  (i + length src <= length dst)%nat ->
  splice dst i src !! j =
    if decide ((i <= j < i + length src)%nat) then src !! (j - i)%nat else dst !! j.
Proof.
  intros. unfold splice. case_decide as Hd.
  - rewrite lookup_app_r; rewrite length_take; [|lia].
    rewrite lookup_app_l by lia. f_equal; lia.
  - destruct (decide (j < i)%nat).
    + rewrite lookup_app_l by (rewrite length_take; lia).
      by rewrite lookup_take_lt.
    + rewrite lookup_app_r; rewrite length_take; [|lia].
      rewrite lookup_app_r by lia. rewrite lookup_drop. f_equal; lia.
Qed.

(** Case analysis on every boolean comparison of a hypothesis or the goal. *)
Ltac cases_bool :=
  repeat match goal with
  | H : context [?a <=? ?b] |- _ => destruct (Z.leb_spec a b)
  | H : context [?a <? ?b] |- _ => destruct (Z.ltb_spec a b)
  | H : context [?a =? ?b] |- _ => destruct (Z.eqb_spec a b)
  | |- context [?a <=? ?b] => destruct (Z.leb_spec a b)
  | |- context [?a <? ?b] => destruct (Z.ltb_spec a b)
  | |- context [?a =? ?b] => destruct (Z.eqb_spec a b)
  end.

(** ** Sums over finite maps *)

Definition msum {K A} `{Countable K} (f : A -> Z) (m : gmap K A) : Z :=
  map_fold (fun _ x acc => f x + acc) 0 m.

Section msum.
Context {K A : Type} `{Countable K}.
Implicit Types (f g : A -> Z) (m : gmap K A).

Lemma msum_empty f : msum f (∅ : gmap K A) = 0.
Proof. apply map_fold_empty. Qed.

Lemma msum_insert_new f m k x :
  m !! k = None -> msum f (<[k := x]> m) = f x + msum f m.
Proof.
  intros. unfold msum. rewrite map_fold_insert_L; auto. intros; lia.
Qed.

Lemma msum_delete f m k x :
  m !! k = Some x -> msum f m = f x + msum f (delete k m).
Proof.
  intros. unfold msum. rewrite (map_fold_delete_L _ _ k x m); auto. intros; lia.
Qed.

Lemma msum_delete_total f m k :
  msum f (delete k m) = msum f m - from_option f 0 (m !! k).
Proof.
  destruct (m !! k) as [x|] eqn:E; simpl.
  - rewrite (msum_delete f m k x E). lia.
  - rewrite delete_id by done. lia.
Qed.

Lemma msum_insert f m k x :
  msum f (<[k := x]> m) = msum f m - from_option f 0 (m !! k) + f x.
Proof.
  rewrite <- insert_delete_eq, msum_insert_new by apply lookup_delete_eq.
  rewrite msum_delete_total. lia.
Qed.

Lemma msum_nonneg f m :
  (forall k x, m !! k = Some x -> 0 <= f x) -> 0 <= msum f m.
Proof.
  revert m. apply (map_ind (fun m => (forall k x, m !! k = Some x -> 0 <= f x) -> 0 <= msum f m)).
  - intros _. by rewrite msum_empty.
  - intros k x m Hk IH Hall. rewrite msum_insert_new by done.
    pose proof (Hall k x ltac:(apply lookup_insert_eq)).
    assert (0 <= msum f m); [|lia]. apply IH. intros k' x' Hk'.
    apply (Hall k'). rewrite lookup_insert_ne; congruence.
Qed.

Lemma msum_ge f m k x :
  (forall k x, m !! k = Some x -> 0 <= f x) -> m !! k = Some x -> f x <= msum f m.
Proof.
  intros Hall Hk. rewrite (msum_delete f m k x Hk).
  assert (0 <= msum f (delete k m)); [|lia]. apply msum_nonneg.
  intros k' x' Hk'. apply lookup_delete_Some in Hk' as [_ Hk']. eauto.
Qed.

Lemma msum_zero_inv f m k x :
  (forall k x, m !! k = Some x -> 0 <= f x) -> msum f m = 0 ->
  m !! k = Some x -> f x = 0.
Proof.
  intros Hall Hz Hk. pose proof (msum_ge f m k x Hall Hk).
  pose proof (Hall k x Hk). lia.
Qed.

Lemma msum_ext f g m :
  (forall k x, m !! k = Some x -> f x = g x) -> msum f m = msum g m.
Proof.
  revert m. apply (map_ind (fun m => (forall k x, m !! k = Some x -> f x = g x) ->
    msum f m = msum g m)).
  - intros _. by rewrite !msum_empty.
  - intros k x m Hk IH Hall. rewrite !msum_insert_new by done.
    rewrite (Hall k x) by apply lookup_insert_eq. f_equal. apply IH.
    intros k' x' Hk'. apply (Hall k'). rewrite lookup_insert_ne; congruence.
Qed.

Lemma msum_zero f m :
  (forall k x, m !! k = Some x -> f x = 0) -> msum f m = 0.
Proof.
  intros. rewrite (msum_ext f (fun _ => 0) m) by done.
  induction m as [|k x m Hk IH] using map_ind; [apply msum_empty|].
  rewrite msum_insert_new, IH; auto. intros k' x' Hk'.
  apply (H0 k'). rewrite lookup_insert_ne; congruence.
Qed.

Lemma msum_plus f g m : msum (fun x => f x + g x) m = msum f m + msum g m.
Proof.
  induction m as [|k x m Hk IH] using map_ind; [by rewrite !msum_empty|].
  rewrite !msum_insert_new, IH by done. lia.
Qed.

Lemma msum_pos_inv f m :
  (forall k x, m !! k = Some x -> 0 <= f x) ->
  0 < msum f m -> exists k x, m !! k = Some x /\ 0 < f x.
Proof.
  induction m as [|k x m Hk IH] using map_ind; intros Hall Hpos.
  - rewrite msum_empty in Hpos. lia.
  - rewrite msum_insert_new in Hpos by done.
    destruct (Z.le_gt_cases (f x) 0) as [Hle|Hgt].
    + destruct IH as (k' & x' & Hk' & Hx').
      * intros k' x' Hk'. apply (Hall k'). rewrite lookup_insert_ne; congruence.
      * lia.
      * exists k', x'. split; [|done]. rewrite lookup_insert_ne; congruence.
    + exists k, x. split; [apply lookup_insert_eq|lia].
Qed.

Lemma msum_mono f g m :
  (forall k x, m !! k = Some x -> f x <= g x) -> msum f m <= msum g m.
Proof.
  intros Hall. enough (0 <= msum (fun x => g x - f x) m) as Hd.
  - rewrite (msum_ext g (fun x => f x + (g x - f x))) by (intros; lia).
    rewrite msum_plus. lia.
  - apply msum_nonneg. intros k x Hk. pose proof (Hall k x Hk). lia.
Qed.
End msum.

(** Sums over lists, and the sum over a map as one. *)
Definition lsum {A} (f : A -> Z) (l : list A) : Z := foldr (fun x acc => f x + acc) 0 l.

Lemma msum_values {K A} `{Countable K} (f : A -> Z) (m : gmap K A) :
  msum f m = lsum f (map_to_list m).*2.
Proof.
  unfold msum, lsum. rewrite map_fold_foldr.
  induction (map_to_list m) as [|[k x] l IH]; simpl; [done|]. by rewrite IH.
Qed.

Lemma elem_of_map_values {K A} `{Countable K} (m : gmap K A) x :
  x ∈ (map_to_list m).*2 <-> exists k, m !! k = Some x.
Proof.
  rewrite list_elem_of_fmap. split.
  - intros ([k y] & -> & Hk). exists k. by apply elem_of_map_to_list.
  - intros [k Hk]. exists (k, x). split; [done|]. by apply elem_of_map_to_list.
Qed.

Lemma lsum_nonneg {A} (f : A -> Z) l : (forall x, x ∈ l -> 0 <= f x) -> 0 <= lsum f l.
Proof.
  induction l as [|x l IH]; intros Hall; simpl; [lia|].
  pose proof (Hall x ltac:(by left)). pose proof (IH ltac:(intros; apply Hall; by right)). lia.
Qed.

Lemma sorted_filter {A} (R : relation A) (P : A -> Prop) `{!forall x, Decision (P x)} l :
  StronglySorted R l -> StronglySorted R (filter P l).
Proof.
  induction 1 as [|x l Hs IH Hall]; [constructor|]. rewrite filter_cons. destruct (decide _); [|done].
  constructor; [done|]. rewrite Forall_forall in *. intros y [_ Hy]%list_elem_of_filter. by apply Hall.
Qed.

(** ** Invariants of a step relation *)

Lemma rtc_invariant {A} (P : A -> Prop) (R : A -> A -> Prop) x y :
  (forall a b, P a -> R a b -> P b) -> P x -> rtc R x y -> P y.
Proof. intros Hstep Hx Hr. induction Hr as [|a b d Hab _ IH]; eauto. Qed.

(** ** Runs of a labelled machine *)

Section runs.
Context {S L : Type} (step : L -> S -> option S).

(** The machine takes the labels one after another; [None] when one of them
    is not enabled where it comes. *)
Fixpoint run_labels (ls : list L) (s : S) : option S :=
  match ls with
  | [] => Some s
  | l :: ls' => s' ← step l s; run_labels ls' s'
  end.

Lemma run_labels_app ls1 ls2 s :
  run_labels (ls1 ++ ls2) s = s' ← run_labels ls1 s; run_labels ls2 s'.
Proof.
  revert s. induction ls1 as [|l ls1 IH]; intros s; [done|]. simpl.
  destruct (step l s) as [s1|]; simpl; [apply IH|done].
Qed.

Lemma run_labels_invariant (ok : L -> Prop) (P : S -> Prop) ls s s' :
  (forall l s1 s2, ok l -> P s1 -> step l s1 = Some s2 -> P s2) ->
  Forall ok ls -> P s -> run_labels ls s = Some s' -> P s'.
Proof.
  intros Hstep Hok. revert s. induction Hok as [|l ls Hl Hok IH]; simpl; intros s HP Hrun.
  - by simplify_eq.
  - destruct (step l s) as [s1|] eqn:E; [|done]. eauto.
Qed.
End runs.
