(* ===== verification/Text.v ===== *)
(** Text as bytes: UTF-8 (checked and lossy), white space, searching, words. *)
From S2P Require Import Prelude.

Open Scope list_scope.
Open Scope Z_scope.

(** * UTF-8 and white space *)

Definition in_range (lo hi : Z) (b : byte) : bool := (lo <=? byte_to_Z b) && (byte_to_Z b <=? hi).
Definition continuation (b : byte) : bool := in_range 128 191 b.

(** [String::from_utf8] accepts these bytes. *)
Fixpoint utf8_valid (bs : bytes) : bool :=
  match bs with
  | [] => true
  | a :: r1 =>
      if in_range 0 127 a then utf8_valid r1
      else
        match r1 with
        | [] => false
        | b :: r2 =>
            if in_range 194 223 a then continuation b && utf8_valid r2
            else
              match r2 with
              | [] => false
              | c :: r3 =>
                  if in_range 224 239 a then
                    in_range (if byte_to_Z a =? 224 then 160 else 128) (if byte_to_Z a =? 237 then 159 else 191) b
                    && continuation c && utf8_valid r3
                  else
                    match r3 with
                    | [] => false
                    | d :: r4 =>
                        in_range 240 244 a
                        && in_range (if byte_to_Z a =? 240 then 144 else 128) (if byte_to_Z a =? 244 then 143 else 191) b
                        && continuation c && continuation d && utf8_valid r4
                    end
              end
        end
  end.

(** [str::trim]: the encodings of the white space characters. *)
Definition white_space : list (list Z) :=
  [[9]; [10]; [11]; [12]; [13]; [32]; [194; 133]; [194; 160]; [225; 154; 128];
   [226; 128; 168]; [226; 128; 169]; [226; 128; 175]; [226; 129; 159]; [227; 128; 128]]
  ++ ((fun k => [226; 128; k]) <$> [128; 129; 130; 131; 132; 133; 134; 135; 136; 137; 138]).

Definition starts_with (w : list Z) (bs : bytes) : bool :=
  bool_decide (byte_to_Z <$> take (length w) bs = w).

(** Strip white space from the front, the encodings given as they are read. *)
Fixpoint strip (ws : list (list Z)) (fuel : nat) (bs : bytes) : bytes :=
  match fuel with
  | O => bs
  | S fuel =>
      match find (fun w => starts_with w bs) ws with
      | Some w => strip ws fuel (drop (length w) bs)
      | None => bs
      end
  end.

Definition trim (bs : bytes) : bytes :=
  let front := strip white_space (length bs) bs in
  reverse (strip (reverse <$> white_space) (length front) (reverse front)).

Definition text (bs : bytes) : string := String.string_of_list_byte bs.
Definition bytes_of (s : string) : bytes := String.list_byte_of_string s.

Lemma bytes_of_app s t : bytes_of (s +:+ t)%string = bytes_of s ++ bytes_of t.
Proof. induction s as [|c s IH]; [done|]. exact (f_equal (cons (Ascii.byte_of_ascii c)) IH). Qed.
Lemma text_app a b : text (a ++ b) = (text a +:+ text b)%string.
Proof. induction a as [|c a IH]; [done|]. exact (f_equal (String (Ascii.ascii_of_byte c)) IH). Qed.
Lemma text_bytes_of s : text (bytes_of s) = s.
Proof. apply String.string_of_list_byte_of_string. Qed.

Definition trim_start (bs : bytes) : bytes := strip white_space (length bs) bs.

(** [u8::is_ascii_alphanumeric]. *)
Definition alphanumeric (b : byte) : bool := in_range 48 57 b || in_range 65 90 b || in_range 97 122 b.

#[export] Instance byte_countable : Countable byte.
Proof.
  refine (inj_countable' Byte.to_N (fun n => match Byte.of_N n with Some b => b | None => x00 end) _).
  intros b. by rewrite Byte.of_to_N.
Defined.

(** * Searching *)

Fixpoint strip_prefix (p s : bytes) : option bytes :=
  match p, s with
  | [], _ => Some s
  | a :: p, b :: s => if decide (a = b) then strip_prefix p s else None
  | _ :: _, [] => None
  end.

Definition prefixed (p s : bytes) : bool := if strip_prefix p s is Some _ then true else false.

(** [str::find]: where [p] first occurs. *)
Fixpoint find_bytes (p s : bytes) : option nat :=
  if prefixed p s then Some O
  else match s with [] => None | _ :: s => S <$> find_bytes p s end.

Lemma strip_prefix_spec p s rest : strip_prefix p s = Some rest <-> s = p ++ rest.
Proof.
  revert s. induction p as [|a p IH]; intros [|b s]; simpl.
  - split; [by intros [= <-]|by intros ->].
  - split; [by intros [= <-]|by intros ->].
  - done.
  - destruct (decide (a = b)) as [->|Hne]; [rewrite IH; split; [by intros ->|by intros [= ->]]|].
    split; [done|]. intros [= -> _]. done.
Qed.

Lemma prefixed_spec p s : prefixed p s = true <-> exists rest, s = p ++ rest.
Proof.
  unfold prefixed. destruct (strip_prefix p s) as [rest|] eqn:E.
  - split; [|done]. intros _. exists rest. by apply strip_prefix_spec.
  - split; [done|]. intros [rest Hs%strip_prefix_spec]. congruence.
Qed.

Lemma find_bytes_Some p s i :
  find_bytes p s = Some i -> prefixed p (drop i s) = true /\ (i <= length s)%nat /\ forall j, (j < i)%nat -> prefixed p (drop j s) = false.
Proof.
  revert i. induction s as [|b s IH]; intros i; cbn [find_bytes].
  - destruct (prefixed p []) eqn:E; [|done]. intros [= <-]. split_and!; [done|simpl; lia|intros; lia].
  - destruct (prefixed p (b :: s)) eqn:E; [intros [= <-]; split_and!; [done|simpl; lia|intros; lia]|].
    destruct (find_bytes p s) as [k|]; [|done]. intros [= <-]. destruct (IH k eq_refl) as (H1 & H2 & H3).
    split_and!; [done|simpl; lia|]. intros [|j] Hj; [done|]. apply H3. lia.
Qed.

Lemma find_bytes_None p s j : find_bytes p s = None -> prefixed p (drop j s) = false.
Proof.
  revert j. induction s as [|b s IH]; intros j; cbn [find_bytes].
  - destruct (prefixed p []) eqn:E; [done|]. intros _. by rewrite drop_nil.
  - destruct (prefixed p (b :: s)) eqn:E; [done|]. destruct (find_bytes p s) as [k|] eqn:Ef; [done|].
    intros _. destruct j as [|j]; [done|]. by apply IH.
Qed.

(** * Words *)

Definition flush (cur : bytes) : list bytes := match cur with [] => [] | _ => [cur] end.

(** [str::split_whitespace]; each turn consumes at least one byte. *)
Fixpoint split_words (fuel : nat) (cur s : bytes) : list bytes :=
  match fuel, s with
  | S fuel, b :: rest =>
      match find (fun w => starts_with w s) white_space with
      | Some w => flush cur ++ split_words fuel [] (drop (length w) s)
      | None => split_words fuel (cur ++ [b]) rest
      end
  | _, _ => flush cur
  end.

Definition split_whitespace (s : bytes) : list bytes := split_words (length s) [] s.

(** [str::replace]: occurrences from the left that do not overlap. *)
Fixpoint replace_from (fuel : nat) (pat new s : bytes) : bytes :=
  match fuel with
  | O => s
  | S fuel =>
      match strip_prefix pat s with
      | Some rest => new ++ replace_from fuel pat new rest
      | None => match s with [] => [] | b :: s => b :: replace_from fuel pat new s end
      end
  end.

Definition replace (pat new s : bytes) : bytes := replace_from (length s) pat new s.

(** No white space starts anywhere in the word. *)
Definition solid (w : bytes) : Prop :=
  w <> [] /\ forall i, (i < length w)%nat -> find (fun e => starts_with e (drop i w)) white_space = None.

Lemma starts_with_app e s t : starts_with e s = true -> starts_with e (s ++ t) = true.
Proof.
  unfold starts_with. rewrite !bool_decide_eq_true. intros He.
  assert (length e <= length s)%nat.
  { apply (f_equal length) in He. rewrite length_fmap, length_take in He. lia. }
  by rewrite take_app_le.
Qed.

Lemma find_None {A} (f : A -> bool) l : find f l = None <-> forall x, x ∈ l -> f x = false.
Proof.
  induction l as [|y l IH]; simpl; [split; [by intros _ ? ?%elem_of_nil|done]|].
  destruct (f y) eqn:E.
  - split; [done|]. intros H. specialize (H y (list_elem_of_here _ _)). congruence.
  - rewrite IH. split.
    + intros H x [->|Hx]%elem_of_cons; auto.
    + intros H x Hx. apply H. by right.
Qed.

Lemma white_space_shape e : e ∈ white_space -> e <> [] /\ (length e = 1%nat \/ 32 ∉ e).
Proof.
  assert (Hall : Forall (fun e => e <> [] /\ (length e = 1%nat \/ 32 ∉ e)) white_space).
  { refine (bool_decide_unpack _ _). vm_compute. exact I. }
  rewrite Forall_forall in Hall. apply Hall.
Qed.

(** What stops a word short of white space does not let it start later. *)
Lemma solid_before_space t rest :
  t <> [] -> find (fun e => starts_with e t) white_space = None ->
  find (fun e => starts_with e (t ++ " "%byte :: rest)) white_space = None.
Proof.
  intros Ht Hf. rewrite find_None in Hf. apply find_None. intros e He. specialize (Hf e He).
  destruct (white_space_shape e He) as [Hne Hshape].
  destruct (decide (length e <= length t)%nat) as [Hle|Hgt].
  - unfold starts_with in *. by rewrite take_app_le.
  - unfold starts_with. apply bool_decide_eq_false. intros Heq. destruct Hshape as [H1|H32].
    + destruct t; simpl in *; [done|lia].
    + apply H32. rewrite <- Heq. apply list_elem_of_fmap. exists " "%byte. split; [done|].
      rewrite take_app_ge by lia. apply elem_of_app. right.
      destruct (length e - length t)%nat eqn:E; [lia|]. simpl. left.
Qed.

Lemma split_words_cur n cur w rest :
  (length w + length rest + 1 <= n)%nat ->
  (forall i, (i < length w)%nat -> find (fun e => starts_with e (drop i w)) white_space = None) ->
  split_words n cur (w ++ " "%byte :: rest) = flush (cur ++ w) ++ split_words (n - length w - 1) [] rest.
Proof.
  revert n cur. induction w as [|b w IH]; intros n cur Hn Hw.
  - destruct n as [|n]; [simpl in Hn; lia|]. rewrite app_nil_r. simpl app. cbn [split_words].
    assert (find (fun e => starts_with e (" "%byte :: rest)) white_space = Some [32]) as ->.
    { assert (Hs : forall c e, c <> 32 -> starts_with (c :: e) (" "%byte :: rest) = false).
      { intros c e Hc. apply bool_decide_eq_false. intros [= ? _]. by apply Hc. }
      assert (H32 : starts_with [32] (" "%byte :: rest) = true) by (by apply bool_decide_eq_true).
      unfold white_space. cbn [app find fmap list_fmap]. rewrite H32, !Hs by done. done. }
    simpl. by rewrite Nat.sub_0_r.
  - destruct n as [|n]; [simpl in Hn; lia|]. cbn [app split_words].
    assert (find (fun e => starts_with e (b :: w ++ " "%byte :: rest)) white_space = None) as ->.
    { apply (solid_before_space (b :: w)); [done|]. apply (Hw O). simpl. lia. }
    rewrite IH; [|simpl in Hn; lia|].
    + by rewrite <- app_assoc.
    + intros i Hi. apply (Hw (S i)). simpl. lia.
Qed.

Lemma split_words_last n cur w :
  (length w <= n)%nat ->
  (forall i, (i < length w)%nat -> find (fun e => starts_with e (drop i w)) white_space = None) ->
  split_words n cur w = flush (cur ++ w).
Proof.
  revert n cur. induction w as [|b w IH]; intros n cur Hn Hw.
  - rewrite app_nil_r. by destruct n.
  - destruct n as [|n]; [simpl in Hn; lia|]. cbn [split_words].
    pose proof (Hw O ltac:(simpl; lia)) as H0. rewrite drop_0 in H0. rewrite H0, IH; [by rewrite <- app_assoc|simpl in Hn; lia|].
    intros i Hi. apply (Hw (S i)). simpl. lia.
Qed.

(** The bytes of [cur] were each followed by what is left. *)
Lemma split_words_solid n cur s :
  (length s <= n)%nat ->
  (forall i, (i < length cur)%nat -> find (fun e => starts_with e (drop i cur ++ s)) white_space = None) ->
  Forall solid (split_words n cur s).
Proof.
  assert (Hflush : forall cur s, (forall i, (i < length cur)%nat -> find (fun e => starts_with e (drop i cur ++ s)) white_space = None) ->
    Forall solid (flush cur)).
  { intros [|b c] t Hc; [constructor|]. constructor; [|constructor]. split; [done|]. intros i Hi.
    specialize (Hc i Hi). rewrite find_None in Hc. apply find_None. intros e He.
    destruct (starts_with e (drop i (b :: c))) eqn:E; [|done]. apply (starts_with_app _ _ t) in E. by rewrite Hc in E. }
  revert cur s. induction n as [|n IH]; intros cur s Hn Hc; [by apply (Hflush _ s)|].
  destruct s as [|b s]; [by apply (Hflush _ [])|]. cbn [split_words].
  destruct (find _ white_space) as [w|] eqn:E.
  - apply Forall_app. split; [by apply (Hflush _ (b :: s))|].
    apply List.find_some in E as [Hw%list_elem_of_In _].
    apply IH; [|simpl; lia]. rewrite length_drop. destruct (white_space_shape w) as [Hne _]; [done|].
    destruct w; [done|simpl in *; lia].
  - apply IH; [simpl in Hn; lia|]. intros i Hi. rewrite length_app in Hi. simpl in Hi.
    destruct (decide (i = length cur)) as [->|]; [by rewrite drop_app_length|].
    rewrite drop_app_le by lia. rewrite <- app_assoc. apply Hc. lia.
Qed.

Lemma split_words_some n cur s : cur <> [] -> split_words n cur s <> [].
Proof.
  revert cur s. induction n as [|n IH]; intros cur s Hc; [by destruct cur|].
  destruct s as [|b s]; [by destruct cur|]. cbn [split_words].
  destruct (find _ _); [by destruct cur|]. apply IH. by destruct cur.
Qed.

Lemma words_of_trim s : trim s <> [] -> split_whitespace s <> [].
Proof.
  intros Ht. assert (Hf : strip white_space (length s) s <> []).
  { intros E. apply Ht. unfold trim. by rewrite E. }
  clear Ht. unfold split_whitespace.
  assert (Hgen : forall n, (length s <= n)%nat -> strip white_space n s <> [] -> split_words n [] s <> []); [|by apply Hgen].
  intros n. clear Hf. revert s. induction n as [|n IH]; intros s Hn Hf; [destruct s; [done|simpl in Hn; lia]|].
  destruct s as [|b s]; [done|]. cbn [strip] in Hf. cbn [split_words].
  destruct (find _ white_space) as [w|] eqn:E; [|by apply split_words_some].
  apply IH; [|done]. apply List.find_some in E as [Hw%list_elem_of_In _].
  destruct (white_space_shape w Hw) as [Hne _]. rewrite length_drop. destruct w; [done|simpl in *; lia].
Qed.

(** The words of a text that was put together from words. *)
Fixpoint spaced (ws : list bytes) : bytes :=
  match ws with
  | [] => []
  | [w] => w
  | w :: ws' => w ++ [" "%byte] ++ spaced ws'
  end.

Lemma split_spaced ws : Forall solid ws -> split_whitespace (spaced ws) = ws.
Proof.
  unfold split_whitespace. intros Hws.
  assert (Hgen : forall n, (length (spaced ws) <= n)%nat -> split_words n [] (spaced ws) = ws).
  2: by apply Hgen.
  induction Hws as [|w ws [Hne Hw] Hws IH]; intros n Hn; [by destruct n|].
  destruct ws as [|w' ws].
  - cbn [spaced] in *. rewrite split_words_last by done. by destruct w.
  - change (spaced (w :: w' :: ws)) with (w ++ [" "%byte] ++ spaced (w' :: ws)) in *.
    rewrite !length_app in Hn. change (length [" "%byte]) with 1%nat in Hn. cbn [app].
    rewrite split_words_cur by (done || lia). rewrite IH by lia. by destruct w.
Qed.

Lemma split_whitespace_solid s : Forall solid (split_whitespace s).
Proof. apply split_words_solid; [done|]. simpl. lia. Qed.

(** A text that strips to nothing from the back is white space up front. *)
Lemma strip_back n t : t <> [] -> strip (reverse <$> white_space) n (reverse t) = [] ->
  exists e, e ∈ white_space /\ starts_with e t = true.
Proof.
  revert t. induction n as [|n IH]; intros t Ht Hs; cbn [strip] in Hs.
  { apply (f_equal reverse) in Hs. by rewrite reverse_involutive in Hs. }
  destruct (find _ _) as [r|] eqn:E.
  2:{ apply (f_equal reverse) in Hs. by rewrite reverse_involutive in Hs. }
  apply List.find_some in E as [Hr Hst]. apply list_elem_of_In, list_elem_of_fmap in Hr as (e & -> & He).
  unfold starts_with in Hst. apply bool_decide_eq_true in Hst. rewrite length_reverse in *.
  set (k := length e) in *.
  assert (Hk : (k <= length t)%nat).
  { apply (f_equal length) in Hst. rewrite length_fmap, length_take, !length_reverse in Hst. unfold k in *. lia. }
  rewrite take_reverse in Hst. rewrite fmap_reverse in Hst. apply (inj reverse) in Hst.
  rewrite drop_reverse in Hs.
  destruct (decide (take (length t - k) t = [])) as [Hnil|Hne].
  - exists e. split; [done|]. unfold starts_with. apply bool_decide_eq_true. fold k.
    assert (length t - k = 0)%nat as E0.
    { apply (f_equal length) in Hnil. rewrite length_take in Hnil. simpl in Hnil. lia. }
    rewrite E0, drop_0 in Hst. rewrite take_ge by lia. done.
  - destruct (IH _ Hne Hs) as (e' & He' & Hst'). exists e'. split; [done|].
    rewrite <- (take_drop (length t - k) t). by apply starts_with_app.
Qed.

Lemma strip_front n s : (length s <= n)%nat -> forall e, e ∈ white_space -> starts_with e (strip white_space n s) = false \/ strip white_space n s = [].
Proof.
  revert s. induction n as [|n IH]; intros s Hn e He; cbn [strip]; [right; destruct s; [done|simpl in Hn; lia]|].
  destruct (find _ _) as [w|] eqn:E.
  - apply IH; [|done]. apply List.find_some in E as [Hw Hst].
    apply list_elem_of_In, white_space_shape in Hw as [Hw _]. rewrite length_drop.
    destruct w; [done|]. destruct s; simpl in *; lia.
  - rewrite find_None in E. left. by apply E.
Qed.

Lemma words_none n s : strip white_space n s = [] -> (length s <= n)%nat -> split_words n [] s = [].
Proof.
  revert s. induction n as [|n IH]; intros s Hs Hn; [done|]. cbn [strip] in Hs.
  destruct s as [|b s]; [done|]. cbn [split_words].
  destruct (find _ _) as [w|] eqn:E; [|done]. simpl. apply IH; [done|].
  apply List.find_some in E as [Hw _]. apply list_elem_of_In, white_space_shape in Hw as [Hw _].
  rewrite length_drop. destruct w; [done|simpl in *; lia].
Qed.

Lemma trim_words s : trim s <> [] <-> split_whitespace s <> [].
Proof.
  split; [apply words_of_trim|]. intros Hw Ht. apply Hw. unfold split_whitespace. apply words_none; [|done].
  unfold trim in Ht. apply (f_equal reverse) in Ht. rewrite reverse_involutive in Ht.
  destruct (decide (strip white_space (length s) s = [])) as [|Hne]; [done|].
  destruct (strip_back _ _ Hne Ht) as (e & He & Hst).
  destruct (strip_front (length s) s (le_n _) e He); congruence.
Qed.

(** * What is no text *)

(** The ranges the bytes after a first byte must be in; [None] for a byte that
    starts nothing. *)
Definition followers (a : byte) : option (list (Z * Z)) :=
  let rest := (128, 191) in
  if in_range 0 127 a then Some []
  else if in_range 194 223 a then Some [rest]
  else if in_range 224 239 a then
    Some [(if byte_to_Z a =? 224 then 160 else 128, if byte_to_Z a =? 237 then 159 else 191); rest]
  else if in_range 240 244 a then
    Some [(if byte_to_Z a =? 240 then 144 else 128, if byte_to_Z a =? 244 then 143 else 191); rest; rest]
  else None.

(** How many of them are there. *)
Fixpoint in_ranges (rs : list (Z * Z)) (s : bytes) : nat :=
  match rs, s with
  | (lo, hi) :: rs, b :: s => if in_range lo hi b then S (in_ranges rs s) else O
  | _, _ => O
  end.

Definition replacement : bytes := [xef; xbf; xbd].

Fixpoint lossy (fuel : nat) (s : bytes) : bytes :=
  match fuel, s with
  | S fuel, a :: s =>
      match followers a with
      | None => replacement ++ lossy fuel s
      | Some rs =>
          let n := in_ranges rs s in
          (if (n =? length rs)%nat then a :: take n s else replacement) ++ lossy fuel (drop n s)
      end
  | _, _ => []
  end.

(** [String::from_utf8_lossy]. *)
Definition from_utf8_lossy (s : bytes) : bytes := lossy (length s) s.

Lemma lossy_valid n s : (length s <= n)%nat -> utf8_valid s = true -> lossy n s = s.
Proof.
  revert s. induction n as [|n IH]; intros [|a s] Hn; try done; [simpl in Hn; lia|]. cbn [utf8_valid lossy length] in *. unfold followers, continuation.
  destruct (in_range 0 127 a); [intros H; simpl; rewrite drop_0; f_equal; apply IH; [lia|done]|].
  destruct s as [|b s]; [done|]. cbn [length] in Hn. destruct (in_range 194 223 a).
  { intros [Hb H]%andb_true_iff. simpl. rewrite Hb. simpl. rewrite ?take_0, ?drop_0. simpl. do 2 f_equal. apply IH; [lia|done]. }
  destruct s as [|c s]; [done|]. cbn [length] in Hn. destruct (in_range 224 239 a).
  { intros [[Hb Hc]%andb_true_iff H]%andb_true_iff. cbn [in_ranges]. rewrite Hb, Hc. simpl. rewrite ?take_0, ?drop_0. simpl.
    do 3 f_equal. apply IH; [lia|done]. }
  destruct s as [|d s]; [done|]. cbn [length] in Hn.
  intros [[[[Ha Hb]%andb_true_iff Hc]%andb_true_iff Hd]%andb_true_iff H]%andb_true_iff. rewrite Ha. cbn [in_ranges]. rewrite Hb, Hc, Hd. simpl.
  rewrite ?take_0, ?drop_0. simpl. do 4 f_equal. apply IH; [lia|done].
Qed.

(** Text is left as it is. *)
Lemma lossy_text s : utf8_valid s = true -> from_utf8_lossy s = s.
Proof. by apply lossy_valid. Qed.
