(* ===== verification/Names.v ===== *)
(** Ordered walks: the order in which a [BTreeMap] or a [BTreeSet] of names is
    visited, and file paths as text. *)
From Stdlib Require Import Ascii.
From stdpp Require Import sorting.
From S2P Require Import Prelude.

Open Scope string_scope.
Open Scope list_scope.
Open Scope Z_scope.

(** * Ordered walks *)

(** The order in which a [BTreeSet] is walked. *)
Definition pair_le (p q : string * string) : Prop :=
  p.1 = q.1 /\ String.le p.2 q.2 \/ p.1 <> q.1 /\ String.le p.1 q.1.
#[export] Instance pair_le_dec p q : Decision (pair_le p q).
Proof. unfold pair_le. apply _. Defined.

Definition in_order (s : gset string) : list string := merge_sort String.le (elements s).
Definition pairs_in_order (s : gset (string * string)) : list (string * string) := merge_sort pair_le (elements s).

(** A [BTreeMap] is walked by its keys. *)
Definition key_le {A} (p q : string * A) : Prop := String.le p.1 q.1.
#[export] Instance key_le_dec {A} (p q : string * A) : Decision (key_le p q).
Proof. unfold key_le. apply _. Defined.
#[export] Instance key_le_total {A} : Total (key_le (A:=A)).
Proof. intros p q. unfold key_le. apply (total String.le). Qed.
#[export] Instance key_le_trans {A} : Transitive (key_le (A:=A)).
Proof. intros p q r. unfold key_le. apply transitivity. Qed.

Definition map_walk {A} (m : gmap string A) : list (string * A) := merge_sort key_le (map_to_list m).
Definition keys {A} (m : gmap string A) : list string := (map_walk m).*1.
Definition values {A} (m : gmap string A) : list A := (map_walk m).*2.

#[export] Instance pair_le_total : Total pair_le.
Proof.
  intros p q. unfold pair_le. destruct (decide (p.1 = q.1)) as [He|Hne].
  - destruct (total String.le p.2 q.2); [left|right]; left; split; congruence || done.
  - destruct (total String.le p.1 q.1); [left|right]; right; split; congruence || done.
Qed.

#[export] Instance pair_le_trans : Transitive pair_le.
Proof.
  intros p q r. unfold pair_le. intros [[H1 H2]|[H1 H2]] [[H3 H4]|[H3 H4]].
  - left. split; [congruence|by transitivity q.2].
  - right. split; congruence.
  - right. split; congruence.
  - right. destruct (decide (p.1 = r.1)) as [He|]; [|split; [done|by transitivity q.1]].
    destruct H1. apply (anti_symm String.le); congruence.
Qed.

#[export] Instance pair_le_antisymm : AntiSymm (=) pair_le.
Proof.
  intros [p1 p2] [q1 q2]. unfold pair_le. simpl. intros [[H1 H2]|[H1 H2]] [[H3 H4]|[H3 H4]]; try congruence.
  - subst. f_equal. by apply (anti_symm String.le).
  - destruct H1. by apply (anti_symm String.le).
Qed.

Lemma elem_of_in_order x s : x ∈ in_order s <-> x ∈ s.
Proof. unfold in_order. rewrite merge_sort_Permutation. apply elem_of_elements. Qed.
Lemma elem_of_pairs_in_order x s : x ∈ pairs_in_order s <-> x ∈ s.
Proof. unfold pairs_in_order. rewrite merge_sort_Permutation. apply elem_of_elements. Qed.

Lemma in_order_spec (s : gset string) : NoDup (in_order s) /\ list_to_set (in_order s) = s.
Proof.
  assert (Hp : in_order s ≡ₚ elements s) by apply merge_sort_Permutation. split.
  - rewrite Hp. apply NoDup_elements.
  - apply set_eq. intros x. rewrite elem_of_list_to_set, Hp. apply elem_of_elements.
Qed.

Lemma map_walk_Permutation {A} (m : gmap string A) : map_walk m ≡ₚ map_to_list m.
Proof. apply merge_sort_Permutation. Qed.

Lemma elem_of_map_walk {A} (m : gmap string A) k x : (k, x) ∈ map_walk m <-> m !! k = Some x.
Proof. rewrite map_walk_Permutation. apply elem_of_map_to_list. Qed.

Lemma NoDup_keys {A} (m : gmap string A) : NoDup (keys m).
Proof. unfold keys. rewrite map_walk_Permutation. apply NoDup_fst_map_to_list. Qed.

Lemma elem_of_keys {A} (m : gmap string A) k : k ∈ keys m <-> is_Some (m !! k).
Proof.
  unfold keys. rewrite list_elem_of_fmap. split.
  - intros ([k' x] & -> & Hw%elem_of_map_walk). by eexists.
  - intros [x Hx]. exists (k, x). by rewrite elem_of_map_walk.
Qed.

Lemma keys_sorted {A} (m : gmap string A) : StronglySorted String.le (keys m).
Proof.
  assert (Hs : StronglySorted key_le (map_walk m)) by (apply StronglySorted_merge_sort; apply _).
  unfold keys. induction Hs as [|x l Hl IH Hx]; [constructor|]. simpl. constructor; [done|].
  apply Forall_fmap. done.
Qed.

(** Two sorted arrangements of one collection are the same list. *)
Lemma sorted_unique {A} (R : relation A) `{!Transitive R, !AntiSymm (=) R} l k :
  StronglySorted R l -> StronglySorted R k -> l ≡ₚ k -> l = k.
Proof. intros. by apply (StronglySorted_unique R). Qed.

Lemma merge_sort_unique {A} (R : relation A) `{!forall x y, Decision (R x y), !Transitive R, !AntiSymm (=) R, !Total R} l k :
  l ≡ₚ k -> merge_sort R l = merge_sort R k.
Proof.
  intros Hp. apply (sorted_unique R).
  - apply StronglySorted_merge_sort; apply _.
  - apply StronglySorted_merge_sort; apply _.
  - by rewrite !merge_sort_Permutation.
Qed.

(** * Paths *)

(** A path of Unix is absolute if it starts with a slash. *)
Definition is_absolute (p : string) : bool :=
  match p with String c _ => (c =? "/")%char | EmptyString => false end.

Fixpoint ends_with_slash (p : string) : bool :=
  match p with
  | EmptyString => false
  | String c EmptyString => (c =? "/")%char
  | String _ p => ends_with_slash p
  end.

(** [Path::join]. *)
Definition path_join (base p : string) : string :=
  if is_absolute p then p
  else if decide (base = "") then p
  else if ends_with_slash base then base +:+ p else base +:+ "/" +:+ p.

(** [str::starts_with]. *)
Definition begins_with (pre s : string) : bool := String.prefix pre s.
