(* ===== verification/Numbers.v ===== *)
(** Numbers in text as Rust's standard library reads them: [str::parse] for
    unsigned integers and for [f64], the conversions between the two, and
    durations. *)
From Stdlib Require Import SpecFloat.
From stdpp Require Import pretty.
From S2P Require Import Prelude Text.

Open Scope list_scope.
Open Scope Z_scope.

(** * Unsigned integers *)

Definition digit (radix : Z) (b : byte) : option Z :=
  let v := if in_range 48 57 b then byte_to_Z b - 48
           else if in_range 97 122 b then byte_to_Z b - 87
           else if in_range 65 90 b then byte_to_Z b - 55 else radix in
  if v <? radix then Some v else None.

(** One digit more, with [checked_mul] and [checked_add]. *)
Definition push_digit (max radix acc : Z) (b : byte) : option Z :=
  d ← digit radix b;
  if acc * radix <=? max then checked_add max (acc * radix) d else None.

Fixpoint push_digits (max radix acc : Z) (ds : bytes) : option Z :=
  match ds with
  | [] => Some acc
  | b :: ds => acc ← push_digit max radix acc b; push_digits max radix acc ds
  end.

Definition PLUS : byte := "+"%byte.
Definition MINUS : byte := "-"%byte.

(** [uN::from_str_radix]: one [+] is allowed in front; there must be digits. *)
Definition from_str_radix (max radix : Z) (s : bytes) : option Z :=
  match s with
  | [] => None
  | b :: ds =>
      if decide (b = PLUS) then match ds with [] => None | _ => push_digits max radix 0 ds end
      else push_digits max radix 0 s
  end.

Definition parse_u64 (s : bytes) : option Z := from_str_radix u64_max 10 s.

(** What the digits say, without a width. *)
Fixpoint value_from (radix acc : Z) (ds : bytes) : option Z :=
  match ds with
  | [] => Some acc
  | b :: ds => d ← digit radix b; value_from radix (acc * radix + d) ds
  end.

Definition unsigned (s : bytes) : bytes :=
  match s with b :: ds => if decide (b = PLUS) then ds else s | [] => [] end.

(** The number a text stands for. *)
Definition numeral (radix : Z) (s : bytes) : option Z :=
  match unsigned s with [] => None | ds => value_from radix 0 ds end.

Lemma digit_range radix b d : digit radix b = Some d -> 0 <= radix -> 0 <= d < radix.
Proof.
  unfold digit, in_range. intros Hd Hr. repeat case_match; simplify_eq;
    repeat match goal with
    | H : _ && _ = true |- _ => apply andb_true_iff in H as [? ?]
    | H : (_ <=? _) = true |- _ => apply Z.leb_le in H
    | H : (_ <? _) = true |- _ => apply Z.ltb_lt in H
    end; lia.
Qed.

Lemma value_from_ge radix acc ds n : 2 <= radix -> 0 <= acc -> value_from radix acc ds = Some n -> acc <= n.
Proof.
  intros Hr. revert acc. induction ds as [|b ds IH]; intros acc Hacc; simpl; [by intros [= ->]|].
  destruct (digit radix b) as [d|] eqn:Hd; simpl; [|done]. apply digit_range in Hd; [|lia].
  intros Hn%IH; nia.
Qed.

Lemma push_digits_spec max radix acc ds : 2 <= radix -> 0 <= acc <= max ->
  push_digits max radix acc ds = n ← value_from radix acc ds; if n <=? max then Some n else None.
Proof.
  intros Hr. revert acc. induction ds as [|b ds IH]; intros acc Hacc; simpl.
  - by rewrite (proj2 (Z.leb_le _ _)) by lia.
  - unfold push_digit. destruct (digit radix b) as [d|] eqn:Hd; simpl; [|done].
    apply digit_range in Hd; [|lia]. unfold checked_add.
    assert (Hbig : max < acc * radix + d -> (n ← value_from radix (acc * radix + d) ds; if n <=? max then Some n else None) = None).
    { intros Hlt. destruct (value_from _ _ _) as [n|] eqn:E; [|done]. simpl.
      apply value_from_ge in E; [|lia|nia]. by rewrite (proj2 (Z.leb_gt _ _)) by lia. }
    destruct (Z.leb_spec (acc * radix) max); simpl; [|rewrite Hbig by lia; done].
    destruct (Z.leb_spec (acc * radix + d) max); simpl; [apply IH; nia|by rewrite Hbig by lia].
Qed.

(** Overflow is caught exactly: a text is read as the number it stands for, and
    refused when that number does not fit. *)
Lemma from_str_radix_spec max radix s : 2 <= radix -> 0 <= max ->
  from_str_radix max radix s = n ← numeral radix s; if n <=? max then Some n else None.
Proof.
  intros Hr Hm. unfold from_str_radix, numeral, unsigned. destruct s as [|b ds]; [done|].
  destruct (decide (b = PLUS)); [destruct ds as [|c ds]; [done|]|]; by rewrite push_digits_spec by lia.
Qed.

Lemma parse_u64_width s n : parse_u64 s = Some n -> in_width u64_max n.
Proof.
  unfold parse_u64. rewrite from_str_radix_spec by (unfold u64_max; lia). unfold numeral.
  destruct (unsigned s) as [|b ds]; [done|]. destruct (value_from 10 0 (b :: ds)) as [m|] eqn:E; [|done]. simpl.
  apply value_from_ge in E; [|lia..]. destruct (Z.leb_spec m u64_max); [|done]. intros [= <-]. split; lia.
Qed.

(** * Printing and reading back *)

Lemma value_from_app radix acc a b :
  value_from radix acc (a ++ b) = m ← value_from radix acc a; value_from radix m b.
Proof.
  revert acc. induction a as [|x a IH]; intros acc; simpl; [done|]. destruct (digit radix x); simpl; [apply IH|done].
Qed.

Lemma digit_pretty x : (x < 10)%N -> digit 10 (Ascii.byte_of_ascii (pretty_N_char x)) = Some (Z.of_N x).
Proof.
  intros Hx. destruct (decide (x = 0)%N) as [->|]; [done|]. do 9 (destruct (decide (x = N.succ (N.pred x)))%N as [E|]; [|lia]; clear E).
  assert (Hcase : x ∈ [0; 1; 2; 3; 4; 5; 6; 7; 8; 9]%N) by (rewrite !elem_of_cons; lia).
  rewrite !elem_of_cons, elem_of_nil in Hcase. by destruct_or?; subst.
Qed.

Lemma pretty_N_go_value x s :
  (0 < x)%N -> exists ds, bytes_of (pretty_N_go x s) = ds ++ bytes_of s /\ ds <> [] /\ value_from 10 0 ds = Some (Z.of_N x).
Proof.
  revert s. induction (N.lt_wf_0 x) as [x _ IH]; intros s Hx. rewrite pretty_N_go_step by lia.
  assert (Hmod : (x `mod` 10 < 10)%N) by (apply N.mod_lt; lia).
  destruct (decide (x / 10 = 0)%N) as [H0|H0].
  - rewrite H0, pretty_N_go_0. exists [Ascii.byte_of_ascii (pretty_N_char (x `mod` 10))].
    split_and!; [done|done|]. simpl. rewrite digit_pretty by done. simpl. f_equal.
    pose proof (N.div_mod x 10 ltac:(lia)). lia.
  - destruct (IH (x / 10)%N) with (s := String (pretty_N_char (x `mod` 10)) s) as (ds & Hds & Hne & Hv);
      [apply N.div_lt; lia|by apply N.neq_0_lt_0|].
    exists (ds ++ [Ascii.byte_of_ascii (pretty_N_char (x `mod` 10))]). split_and!.
    + rewrite Hds, <- (assoc_L (++)). done.
    + by destruct ds.
    + rewrite value_from_app, Hv. simpl. rewrite digit_pretty by done. simpl. f_equal.
      pose proof (N.div_mod x 10 ltac:(lia)). lia.
Qed.

Lemma pretty_value n : 0 <= n -> exists ds, bytes_of (pretty n) = ds /\ ds <> [] /\ value_from 10 0 ds = Some n.
Proof.
  intros Hn. destruct (decide (n = 0)) as [->|Hne]; [by eexists|].
  destruct n as [|p|p]; [done| |lia].
  destruct (pretty_N_go_value (N.pos p) "" ltac:(lia)) as (ds & Hds & Hne' & Hv).
  exists ds. split_and!; [|done|by rewrite Hv]. rewrite <- (right_id_L [] (++) ds). exact Hds.
Qed.

(** A printed number is read back. *)
Lemma parse_pretty n : in_width u64_max n -> parse_u64 (bytes_of (pretty n)) = Some n.
Proof.
  intros [H0 Hmax]. destruct (pretty_value n H0) as (ds & -> & Hne & Hv). unfold parse_u64.
  rewrite from_str_radix_spec by (unfold u64_max; lia). unfold numeral, unsigned.
  destruct ds as [|b ds]; [done|]. destruct (decide (b = PLUS)) as [->|]; [done|].
  rewrite Hv. simpl. by rewrite (proj2 (Z.leb_le _ _)).
Qed.

(** * [f64] *)

Definition f64_of_Z (n : Z) : spec_float := binary_normalize 53 1024 n 0 false.

(** [num / den] rounded once, to the nearest even. *)
Definition f64_of_ratio (neg : bool) (num den : Z) : spec_float :=
  if num =? 0 then S754_zero neg
  else let '(m, e, l) := SFdiv_core_binary 53 1024 num 0 den 0 in binary_round_aux 53 1024 neg m e l.

Definition f64_mul : spec_float -> spec_float -> spec_float := SFmul 53 1024.
Definition f64_div : spec_float -> spec_float -> spec_float := SFdiv 53 1024.
Definition f64_lt : spec_float -> spec_float -> bool := SFltb.

(** The integer part, towards zero or up; [None] for what is not finite. *)
Definition truncated (x : spec_float) : option Z :=
  match x with
  | S754_zero _ => Some 0
  | S754_finite s m e =>
      let v := if 0 <=? e then Z.pos m * 2 ^ e else Z.pos m / 2 ^ (- e) in Some (if s then - v else v)
  | _ => None
  end.
Definition rounded_up (x : spec_float) : option Z :=
  match x with
  | S754_zero _ => Some 0
  | S754_finite s m e =>
      let v := if s then - Z.pos m else Z.pos m in
      Some (if 0 <=? e then v * 2 ^ e else - ((- v) / 2 ^ (- e)))
  | _ => None
  end.

(** [as u64] on a float whose integer part is known: it saturates, and NaN is 0. *)
Definition as_unsigned (max : Z) (x : spec_float) (part : option Z) : Z :=
  match part with
  | Some n => Z.max 0 (Z.min max n)
  | None => match x with S754_infinity false => max | _ => 0 end
  end.

Definition f64_as_u64 (x : spec_float) : Z := as_unsigned u64_max x (truncated x).
Definition f64_ceil_as_u64 (x : spec_float) : Z := as_unsigned u64_max x (rounded_up x).

Lemma as_unsigned_width max x part : 0 <= max -> in_width max (as_unsigned max x part).
Proof. intros Hm. unfold as_unsigned, in_width. repeat case_match; lia. Qed.

(** * [f64] printed with two decimals *)

(** The nearest whole number to [num / den], a half to the even one. *)
Definition nearest_even (num den : Z) : Z :=
  let q := num / den in
  let r := num mod den in
  if (2 * r <? den) || ((2 * r =? den) && Z.even q) then q else q + 1.

Definition hundredths (m e : Z) : Z := if 0 <=? e then m * 100 * 2 ^ e else nearest_even (m * 100) (2 ^ (- e)).

Definition show_hundredths (h : Z) : string :=
  (pretty (h / 100) +:+ "." +:+ pretty (h mod 100 / 10) +:+ pretty (h mod 10))%string.

(** [format!("{x:.2}")]. *)
Definition fixed2 (x : spec_float) : string :=
  match x with
  | S754_zero s => if s then "-0.00" else "0.00"
  | S754_infinity s => if s then "-inf" else "inf"
  | S754_nan => "NaN"
  | S754_finite s m e => ((if s then "-" else "") +:+ show_hundredths (hundredths (Z.pos m) e))%string
  end.

(** * [f64] from text *)

Fixpoint take_digits (s : bytes) : bytes * bytes :=
  match s with
  | b :: rest => match digit 10 b with Some _ => let (ds, r) := take_digits rest in (b :: ds, r) | None => ([], s) end
  | [] => ([], [])
  end.

Definition lower (b : byte) : byte := if in_range 65 90 b then byte_of_Z (byte_to_Z b + 32) else b.

(** A sign in front, if there is one. *)
Definition take_sign (s : bytes) : bool * bytes :=
  match s with
  | b :: rest => if decide (b = MINUS) then (true, rest) else if decide (b = PLUS) then (false, rest) else (false, s)
  | [] => (false, [])
  end.

(** What follows the digits: nothing, or an exponent with digits of its own. *)
Definition parse_exponent (s : bytes) : option Z :=
  match s with
  | [] => Some 0
  | b :: rest =>
      if decide (lower b = "e"%byte) then
        let (neg, rest) := take_sign rest in
        let (ds, rest) := take_digits rest in
        match ds, rest with
        | _ :: _, [] => n ← value_from 10 0 ds; Some (if neg : bool then - n else n)
        | _, _ => None
        end
      else None
  end.

Definition scaled (neg : bool) (m e : Z) : spec_float :=
  if 0 <=? e then f64_of_ratio neg (m * 10 ^ e) 1 else f64_of_ratio neg m (10 ^ (- e)).

Definition parse_number (neg : bool) (s : bytes) : option spec_float :=
  let (whole, rest) := take_digits s in
  let (frac, rest) :=
    match rest with b :: r => if decide (b = "."%byte) then take_digits r else ([], rest) | [] => ([], []) end in
  match whole ++ frac with
  | [] => None
  | ds => e ← parse_exponent rest; m ← value_from 10 0 ds; Some (scaled neg m (e - zlen frac))
  end.

Definition parse_f64 (s : bytes) : option spec_float :=
  let (neg, rest) := take_sign s in
  let word := lower <$> rest in
  if decide (word = bytes_of "nan") then Some S754_nan
  else if decide (word = bytes_of "inf" \/ word = bytes_of "infinity") then Some (S754_infinity neg)
  else parse_number neg rest.

Example parse_half : parse_f64 (bytes_of "0.5") = Some (S754_finite false 4503599627370496 (-53)).
Proof. vm_compute. reflexivity. Qed.
Example parse_tenth : parse_f64 (bytes_of ".1") = Some (S754_finite false 7205759403792794 (-56)).
Proof. vm_compute. reflexivity. Qed.
Example parse_large : parse_f64 (bytes_of "-1.5e3") = Some (S754_finite true 6597069766656000 (-42)).
Proof. vm_compute. reflexivity. Qed.
Example parse_words : parse_f64 (bytes_of "+Infinity") = Some (S754_infinity false) /\ parse_f64 (bytes_of "1.e") = None /\
  parse_f64 (bytes_of ".") = None /\ parse_f64 (bytes_of "5.") <> None.
Proof. vm_compute. done. Qed.

Example fixed2_rounds : fixed2 (f64_of_ratio false 1 8) = "0.12"%string /\ fixed2 (f64_of_ratio false 3 8) = "0.38"%string /\
  fixed2 (f64_of_ratio false 1 3) = "0.33"%string /\ fixed2 (f64_of_Z 1023) = "1023.00"%string /\ fixed2 (f64_of_ratio false 99999 10000) = "10.00"%string.
Proof. vm_compute. done. Qed.

(** * Durations *)

(** [Duration::from_secs_f64], in nanoseconds; the errors are its panics. *)
Definition is_negative : string := "cannot convert float seconds to Duration: value is negative".
Definition too_big_or_nan : string := "cannot convert float seconds to Duration: value is either too big or NaN".

Definition from_secs_f64 (x : spec_float) : result Z string :=
  match x with
  | S754_zero _ => Ok 0
  | S754_finite true _ _ | S754_infinity true => Err is_negative
  | S754_finite false m e =>
      let ns := if 0 <=? e then Z.pos m * 2 ^ e * 1000000000 else nearest_even (Z.pos m * 1000000000) (2 ^ (- e)) in
      if ns / 1000000000 <=? u64_max then Ok ns else Err too_big_or_nan
  | S754_infinity false | S754_nan => Err too_big_or_nan
  end.

Lemma nearest_even_nonneg a b : 0 <= a -> 0 < b -> 0 <= nearest_even a b.
Proof. intros Ha Hb. unfold nearest_even. pose proof (Z.div_pos a b Ha Hb). destruct (_ || _); lia. Qed.

Definition duration_ok (ns : Z) : Prop := 0 <= ns <= u64_max * 1000000000 + 999999999.

Lemma from_secs_width x ns : from_secs_f64 x = Ok ns -> duration_ok ns.
Proof.
  unfold from_secs_f64, duration_ok. destruct x as [| [] | |[] m e]; try done; [intros [= <-]; unfold u64_max; lia|].
  cbv zeta. set (k := if 0 <=? e then _ else _).
  assert (Hk : 0 <= k).
  { unfold k. destruct (Z.leb_spec 0 e); [|apply nearest_even_nonneg; [lia|apply Z.pow_pos_nonneg; lia]].
    apply Z.mul_nonneg_nonneg; [|lia]. apply Z.mul_nonneg_nonneg; [lia|]. apply Z.pow_nonneg. lia. }
  destruct (Z.leb_spec (k / 1000000000) u64_max); [|done]. intros [= <-].
  pose proof (Z.mul_div_le k 1000000000 ltac:(lia)). pose proof (Z.mod_pos_bound k 1000000000 ltac:(lia)).
  pose proof (Z.div_mod k 1000000000 ltac:(lia)). lia.
Qed.

(** ** [{:?}] of a duration *)

(** The digits of [n / 10^k] after the point, without the zeros at the end. *)
Fixpoint fraction (k : nat) (n : Z) : string :=
  match k with
  | O => ""
  | S k => if n =? 0 then "" else pretty (n / 10 ^ Z.of_nat k) +:+ fraction k (n mod 10 ^ Z.of_nat k)
  end.

Definition fmt_decimal (whole : Z) (k : nat) (n : Z) (suffix : string) : string :=
  pretty whole +:+ (if n =? 0 then "" else "." +:+ fraction k n) +:+ suffix.

Definition debug_duration (ns : Z) : string :=
  let secs := ns / 1000000000 in
  let nanos := ns mod 1000000000 in
  if 0 <? secs then fmt_decimal secs 9 nanos "s"
  else if 1000000 <=? nanos then fmt_decimal (nanos / 1000000) 6 (nanos mod 1000000) "ms"
  else if 1000 <=? nanos then fmt_decimal (nanos / 1000) 3 (nanos mod 1000) "µs"
  else fmt_decimal nanos 1 0 "ns".

Example durations_shown : (debug_duration <$> [30000000000; 1500000000; 250000000; 1050; 0]) = ["30s"; "1.5s"; "250ms"; "1.05µs"; "0ns"].
Proof. vm_compute. reflexivity. Qed.

