(* ===== verification/Frame.v ===== *)
(** The length-prefixed frame codec of [src/provium-protocol/src/frame.rs]. *)
From S2P Require Import Prelude.

(** * The byte stream under the codec *)

(** The kinds of [std::io::ErrorKind] the sources tell apart. *)
Inductive io_kind :=
| Interrupted | WouldBlock | TimedOut | UnexpectedEofKind | InvalidData
| InvalidInput | OtherIo.

#[export] Instance io_kind_eq_dec : EqDecision io_kind.
Proof. solve_decision. Defined.

(** A [Read] implementation, as the finite list of what its next calls do:
    hand over some bytes, or fail. The empty list is a closed peer. *)
Inductive rd_event :=
| Chunk (bs : bytes)
| Fault (k : io_kind).

Abbreviation reader := (list rd_event).

(** One [Read::read] call with a buffer of [len] bytes. *)
Definition reader_read (r : reader) (len : nat) : reader * result bytes io_kind :=
  match r with
  | [] => ([], Ok [])
  | Fault k :: r' => (r', Err k)
  | Chunk bs :: r' =>
      if (length bs <=? len)%nat then (r', Ok bs)
      else (Chunk (drop len bs) :: r', Ok (take len bs))
  end.

(** The bytes a reader still has to deliver. *)
Fixpoint stream (r : reader) : bytes :=
  match r with
  | [] => []
  | Chunk bs :: r' => bs ++ stream r'
  | Fault _ :: r' => stream r'
  end.

(** [Ok(0)] is the end of the stream only, as [Read] documents. *)
Definition live_event (e : rd_event) : Prop := e <> Chunk [].
Definition live (r : reader) : Prop := Forall live_event r.

(** A [Write] implementation that accepts [room] more bytes (any number when
    [None]) and then fails. *)
Record writer := Writer { out : bytes; room : option nat }.

Definition write_all (w : writer) (buf : bytes) : writer * result unit io_kind :=
  match room w with
  | None => (Writer (out w ++ buf) None, Ok ())
  | Some n =>
      if (length buf <=? n)%nat
      then (Writer (out w ++ buf) (Some (n - length buf)%nat), Ok ())
      else (Writer (out w ++ take n buf) (Some O), Err OtherIo)
  end.

(** * [read_full] *)

(** Read until the buffer is full or the reader returns no bytes. Recursion
    follows the reader's events; [read_full_eq] is the loop of the source. *)
Fixpoint read_full (r : reader) (buf : bytes) (total : nat) {struct r}
  : reader * bytes * nat * result unit io_kind :=
  if (total <? length buf)%nat then
    match r with
    | [] => ([], buf, total, Ok ())
    | Fault Interrupted :: r' => read_full r' buf total
    | Fault k :: r' => (r', buf, total, Err k)
    | Chunk bs :: r' =>
        if (length bs <=? length buf - total)%nat then
          match bs with
          | [] => (r', buf, total, Ok ())
          | _ => read_full r' (splice buf total bs) (total + length bs)
          end
        else
          let n := (length buf - total)%nat in
          (Chunk (drop n bs) :: r', splice buf total (take n bs),
           (total + n)%nat, Ok ())
    end
  else (r, buf, total, Ok ()).

(** * [FrameReader] *)

Definition HEADER_LEN : nat := 4.
Definition DEFAULT_MAX_FRAME_BYTES : Z := 128 * 1024 * 1024.

Inductive frame_error :=
| Io (k : io_kind)
| Eof
| UnexpectedEof (bytes_read expected : Z)
| FrameTooLarge (len max : Z)
| Decode
| Encode.

Record frame_reader := FrameReader {
  max_body_bytes : Z;
  header : bytes;
  header_read : nat;
  body : bytes;
  body_read : nat;
}.

Definition frame_reader_new (max : Z) : frame_reader :=
  FrameReader max (replicate HEADER_LEN x00) 0 [] 0.

(** [Vec::resize(n, 0)]. *)
Definition vec_resize (b : bytes) (n : nat) : bytes :=
  take n b ++ replicate (n - length b) x00.

Section Codec.
(** [rmp_serde], the messagepack codec: outside this repository. *)
Context {T : Type}.
Variable encode : T -> option bytes.
Variable decode : bytes -> option T.

Definition frame_reader_read (st : frame_reader) (r : reader)
  : frame_reader * reader * result T frame_error :=
  let '(r1, h, hr, res) := read_full r (header st) (header_read st) in
  let st1 := FrameReader (max_body_bytes st) h hr (body st) (body_read st) in
  match res with
  | Err k => (st1, r1, Err (Io k))
  | Ok _ =>
      if (hr =? 0)%nat then (st1, r1, Err Eof)
      else if (hr <? HEADER_LEN)%nat then
        (st1, r1, Err (UnexpectedEof (Z.of_nat hr) (Z.of_nat HEADER_LEN)))
      else
        let body_len := of_be_bytes h in
        if max_body_bytes st <? body_len then
          (st1, r1, Err (FrameTooLarge body_len (max_body_bytes st)))
        else
          let b0 := vec_resize (body st) (Z.to_nat body_len) in
          let '(r2, b, br, res2) := read_full r1 b0 (body_read st) in
          let st2 := FrameReader (max_body_bytes st) h hr b br in
          match res2 with
          | Err k => (st2, r2, Err (Io k))
          | Ok _ =>
              if Z.of_nat br <? body_len then
                (st2, r2, Err (UnexpectedEof (Z.of_nat br) body_len))
              else
                match decode b with
                | None => (st2, r2, Err Decode)
                | Some m => (FrameReader (max_body_bytes st) h 0 [] 0, r2, Ok m)
                end
          end
  end.

(** The one-shot helper. *)
Definition read_frame (r : reader) (max : Z) : reader * result T frame_error :=
  let '(_, r', res) := frame_reader_read (frame_reader_new max) r in (r', res).

Definition write_frame (w : writer) (message : T) (max : Z)
  : writer * result unit frame_error :=
  match encode message with
  | None => (w, Err Encode)
  | Some payload =>
      let buf := replicate HEADER_LEN x00 ++ payload in
      let body_len := zlen buf - Z.of_nat HEADER_LEN in
      let max' := Z.min max u32_max in
      if max' <? body_len then (w, Err (FrameTooLarge body_len max'))
      else
        let buf' := splice buf 0 (be_bytes 4 (wrap u32_max body_len)) in
        match write_all w buf' with
        | (w', Ok _) => (w', Ok ())
        | (w', Err k) => (w', Err (Io k))
        end
  end.

(** What a frame is on the wire. *)
Definition frame_of (payload : bytes) : bytes :=
  be_bytes 4 (zlen payload) ++ payload.

(** Read every frame of a connection, calling [read] again after a timeout
    as the documentation of [FrameReader] asks. *)
Fixpoint read_all (fuel : nat) (st : frame_reader) (r : reader)
  : list T * option frame_error :=
  match fuel with
  | O => ([], None)
  | S fuel' =>
      match frame_reader_read st r with
      | (st', r', Ok m) =>
          let '(ms, e) := read_all fuel' st' r' in (m :: ms, e)
      | (st', r', Err (Io (WouldBlock | TimedOut))) => read_all fuel' st' r'
      | (_, _, Err e) => ([], Some e)
      end
  end.

End Codec.

(** * Lemmas *)

Lemma read_full_eq r buf total :
  (total <= length buf)%nat ->
  read_full r buf total =
    if (total <? length buf)%nat then
      match reader_read r (length buf - total) with
      | (r', Ok []) => (r', buf, total, Ok ())
      | (r', Ok bs) => read_full r' (splice buf total bs) (total + length bs)
      | (r', Err Interrupted) => read_full r' buf total
      | (r', Err k) => (r', buf, total, Err k)
      end
    else (r, buf, total, Ok ()).
Proof.
  intros Hle. destruct r as [|[bs|k] r]; cbn [read_full reader_read].
  - by destruct (total <? length buf)%nat.
  - destruct (Nat.ltb_spec total (length buf)) as [Hlt|]; [|done].
    destruct (Nat.leb_spec (length bs) (length buf - total)) as [|Hgt]; [done|].
    destruct (take (length buf - total) bs) as [|b0 bs0] eqn:Et.
    { apply (f_equal length) in Et. rewrite length_take in Et. simpl in Et. lia. }
    rewrite <- Et. clear Et.
    assert (Hl : length (take (length buf - total) bs) = (length buf - total)%nat)
      by (rewrite length_take; lia).
    cbn [read_full]. rewrite length_splice by (rewrite Hl; lia). rewrite Hl.
    destruct (Nat.ltb_spec (total + (length buf - total)) (length buf)); [lia|done].
  - destruct (total <? length buf)%nat; [|done]. by destruct k.
Qed.

Ltac live_inv :=
  match goal with
  | H : live (_ :: _) |- _ => inversion H; subst; clear H
  end.

(** What one [read_full] call does: no byte is lost, invented or reordered,
    and a stop before the buffer is full is the end of the stream. *)
Definition read_full_post (r : reader) (buf : bytes) (total : nat)
    (r' : reader) (buf' : bytes) (total' : nat) (res : result unit io_kind) : Prop :=
  length buf' = length buf /\
  (total <= total' <= length buf)%nat /\
  take total' buf' ++ stream r' = take total buf ++ stream r /\
  (length r' <= length r)%nat /\
  (live r -> live r') /\
  (forall e, e ∈ r' -> (exists k, e = Fault k) -> e ∈ r) /\
  match res with
  | Ok _ => total' = length buf \/ (live r -> r' = [])
  | Err k =>
      k <> Interrupted /\ Fault k ∈ r /\ (length r' < length r)%nat /\
      (total' < length buf)%nat
  end.

Lemma read_full_post_skip e r buf total r' buf' total' res :
  stream (e :: r) = stream r ->
  read_full_post r buf total r' buf' total' res ->
  read_full_post (e :: r) buf total r' buf' total' res.
Proof.
  intros Hs (H1 & H2 & H3 & H4 & H5 & H6 & H7).
  split_and!; auto; try (cbn [length]; lia).
  - by rewrite Hs.
  - intros; live_inv; auto.
  - intros; apply list_elem_of_further; auto.
  - destruct res.
    + destruct H7 as [?|H7]; [by left|right]. intros; live_inv; auto.
    + destruct H7 as (? & ? & ? & ?).
      split_and!; auto; [by apply list_elem_of_further|cbn [length]; lia].
Qed.

Lemma read_full_post_chunk bs r buf total r' buf' total' res :
  (total + length bs <= length buf)%nat ->
  read_full_post r (splice buf total bs) (total + length bs) r' buf' total' res ->
  read_full_post (Chunk bs :: r) buf total r' buf' total' res.
Proof.
  intros Hfit (H1 & H2 & H3 & H4 & H5 & H6 & H7).
  rewrite length_splice, ?take_splice in * by lia.
  split_and!; auto; try lia; try (cbn [length]; lia).
  - by rewrite H3, <- app_assoc.
  - intros; live_inv; auto.
  - intros; apply list_elem_of_further; auto.
  - destruct res.
    + destruct H7 as [?|H7]; [by left|right]. intros; live_inv; auto.
    + destruct H7 as (? & ? & ? & ?).
      split_and!; auto; [by apply list_elem_of_further|cbn [length]; lia].
Qed.

Lemma read_full_post_split bs r buf total :
  (total <= length buf)%nat ->
  (length buf - total < length bs)%nat ->
  let n := (length buf - total)%nat in
  read_full_post (Chunk bs :: r) buf total
    (Chunk (drop n bs) :: r) (splice buf total (take n bs)) (total + n) (Ok ()).
Proof.
  intros Hle Hbig n.
  assert (Hn : length (take n bs) = n) by (rewrite length_take; lia).
  split_and!; auto; try lia.
  - rewrite length_splice; lia.
  - rewrite <- Hn at 1. rewrite take_splice by lia. cbn [stream].
    rewrite <- app_assoc. f_equal. by rewrite app_assoc, take_drop.
  - intros; live_inv. constructor; [|done]. intros [= Hd].
    apply (f_equal length) in Hd. rewrite length_drop in Hd. simpl in Hd. lia.
  - intros e He [k ->]. apply elem_of_cons in He as [|]; [done|].
    by apply list_elem_of_further.
Qed.

Lemma read_full_spec r buf total r' buf' total' res :
  (total <= length buf)%nat ->
  read_full r buf total = (r', buf', total', res) ->
  read_full_post r buf total r' buf' total' res.
Proof.
  revert buf total. induction r as [|[bs|k] r IH]; intros buf total Hle Hrun;
    cbn [read_full] in Hrun;
    destruct (Nat.ltb_spec total (length buf)) as [Hlt|Hge];
    try (simplify_eq; split_and!; auto; first [lia | left; lia]).
  - destruct (Nat.leb_spec (length bs) (length buf - total)) as [Hfit|Hbig].
    + destruct bs as [|b0 bs0].
      * simplify_eq. split_and!; auto; try (cbn [length]; lia).
        -- intros; live_inv; auto.
        -- intros; by apply list_elem_of_further.
        -- right. intros; live_inv. by unfold live_event in *.
      * apply read_full_post_chunk; [lia|].
        apply IH; [rewrite length_splice; lia|done].
    + simplify_eq. by apply read_full_post_split.
  - destruct (decide (k = Interrupted)) as [->|Hk].
    + apply read_full_post_skip; [done|]. by apply IH.
    + assert (Hrun' : (r, buf, total, @Err unit io_kind k) = (r', buf', total', res))
        by (by destruct k).
      clear Hrun. simplify_eq.
      split_and!; auto; try (cbn [length]; lia).
      * intros; live_inv; auto.
      * intros; by apply list_elem_of_further.
      * constructor.
Qed.

Lemma length_vec_resize b n : length (vec_resize b n) = n.
Proof. unfold vec_resize. rewrite length_app, length_take, length_replicate. lia. Qed.

Lemma vec_resize_same b n : length b = n -> vec_resize b n = b.
Proof.
  intros <-. unfold vec_resize.
  rewrite take_ge, Nat.sub_diag by lia. apply app_nil_r.
Qed.

(** The bytes of the current frame the decoder has already taken. *)
Definition pending (st : frame_reader) : bytes :=
  take (header_read st) (header st) ++ take (body_read st) (body st).

(** The decoder's invariant. *)
Definition fr_ok (st : frame_reader) : Prop :=
  length (header st) = HEADER_LEN /\
  (header_read st <= HEADER_LEN)%nat /\
  zlen (body st) <= max_body_bytes st /\
  ((body st = [] /\ body_read st = 0%nat) \/
   (header_read st = HEADER_LEN /\ zlen (body st) = of_be_bytes (header st) /\
    (body_read st <= length (body st))%nat)).

Lemma fr_ok_new max : 0 <= max -> fr_ok (frame_reader_new max).
Proof. intros. unfold fr_ok, frame_reader_new, HEADER_LEN; simpl. split_and!; auto with lia. Qed.

Lemma length_header_bound h :
  length h = HEADER_LEN -> 0 <= of_be_bytes h <= u32_max.
Proof.
  intros Hh. pose proof (of_be_bytes_bound h) as Hb. rewrite Hh in Hb.
  change (256 ^ Z.of_nat HEADER_LEN) with 4294967296 in Hb.
  unfold u32_max. lia.
Qed.

Lemma frame_of_header payload h :
  length h = HEADER_LEN -> of_be_bytes h = zlen payload -> h ++ payload = frame_of payload.
Proof. intros Hh He. unfold frame_of. by rewrite <- He, be_bytes_of_be. Qed.

Section Codec_lemmas.
Context {T : Type} (decode : bytes -> option T).

(** What one [FrameReader::read] says about the bytes of the connection
    from the current frame boundary on. *)
Definition read_post (st : frame_reader) (r : reader)
    (st' : frame_reader) (r' : reader) (res : result T frame_error) : Prop :=
  match res with
  | Ok m => exists payload,
      decode payload = Some m /\ zlen payload <= Z.min (max_body_bytes st) u32_max /\
      pending st ++ stream r = frame_of payload ++ stream r' /\
      pending st' = []
  | Err (Io k) =>
      pending st' ++ stream r' = pending st ++ stream r /\
      k <> Interrupted /\ Fault k ∈ r /\ (length r' < length r)%nat
  | Err Eof => live r -> pending st ++ stream r = [] /\ r' = []
  | Err (UnexpectedEof got expected) => live r ->
      (expected = 4 /\ got = zlen (pending st ++ stream r) /\ 0 < got < 4) \/
      (exists h part, pending st ++ stream r = h ++ part /\ length h = HEADER_LEN /\
         of_be_bytes h = expected /\ got = zlen part /\ got < expected)
  | Err (FrameTooLarge len max) =>
      max = max_body_bytes st /\ max < len /\
      (exists h rest, pending st ++ stream r = h ++ rest /\
         length h = HEADER_LEN /\ of_be_bytes h = len)
  | Err Decode => exists payload,
      decode payload = None /\ zlen payload <= u32_max /\ pending st ++ stream r = frame_of payload ++ stream r'
  | Err Encode => False
  end.

Lemma fr_ok_body_read st : fr_ok st -> (body_read st <= length (body st))%nat.
Proof. intros (_ & _ & _ & [[-> ->]|(_ & _ & ?)]); simpl; lia. Qed.

(** While the header is incomplete nothing of the body has been read. *)
Lemma fr_ok_header_partial st :
  fr_ok st -> header_read st <> HEADER_LEN -> body st = [] /\ body_read st = 0%nat.
Proof. intros (_ & _ & _ & [|(? & _)]); naive_solver. Qed.

Lemma header_phase st r r1 h hr res :
  fr_ok st ->
  read_full r (header st) (header_read st) = (r1, h, hr, res) ->
  fr_ok (FrameReader (max_body_bytes st) h hr (body st) (body_read st)) /\
  (live r -> live r1) /\ (length r1 <= length r)%nat /\
  (forall e, e ∈ r1 -> (exists k, e = Fault k) -> e ∈ r) /\
  take hr h ++ take (body_read st) (body st) ++ stream r1 = pending st ++ stream r /\
  (hr <> HEADER_LEN -> body st = [] /\ body_read st = 0%nat) /\
  match res with
  | Ok _ => hr = HEADER_LEN \/ (live r -> r1 = [])
  | Err k => k <> Interrupted /\ Fault k ∈ r /\ (length r1 < length r)%nat
  end.
Proof.
  intros Hok Hrun. pose proof Hok as (Hh4 & Hhr & Hmax & Hbody).
  destruct (decide (header_read st = HEADER_LEN)) as [Hfull|Hpart].
  - rewrite read_full_eq, Hh4, Hfull in Hrun by lia. simpl in Hrun.
    simplify_eq. destruct st as [mx h hr b br]; simpl in *; subst hr.
    split_and!; auto; [|done]. unfold pending; simpl. by rewrite <- app_assoc.
  - apply read_full_spec in Hrun; [|lia].
    destruct Hrun as (Hlh & Hhr' & Hcons & Hlen1 & Hlive1 & Hf1 & Hres1).
    destruct (fr_ok_header_partial st Hok Hpart) as [Hb Hbr].
    rewrite Hh4 in *. unfold pending. rewrite Hb, Hbr in *. simpl.
    split_and!; auto.
    + unfold fr_ok; simpl. split_and!; auto; try lia; by rewrite <- Hb.
    + by rewrite app_nil_r.
    + destruct res; [done|]. by destruct Hres1 as (? & ? & ? & _).
Qed.

Lemma body_phase st r r2 b br res :
  let n := Z.to_nat (of_be_bytes (header st)) in
  fr_ok st -> header_read st = HEADER_LEN ->
  of_be_bytes (header st) <= max_body_bytes st ->
  read_full r (vec_resize (body st) n) (body_read st) = (r2, b, br, res) ->
  fr_ok (FrameReader (max_body_bytes st) (header st) HEADER_LEN b br) /\
  zlen b = of_be_bytes (header st) /\
  (live r -> live r2) /\ (length r2 <= length r)%nat /\
  (forall e, e ∈ r2 -> (exists k, e = Fault k) -> e ∈ r) /\
  take br b ++ stream r2 = take (body_read st) (body st) ++ stream r /\
  match res with
  | Ok _ => br = length b \/ ((br < length b)%nat /\ (live r -> r2 = []))
  | Err k => k <> Interrupted /\ Fault k ∈ r /\ (length r2 < length r)%nat
  end.
Proof.
  intros n Hok Hhr Hle Hrun. pose proof (fr_ok_body_read st Hok) as Hbr.
  destruct Hok as (Hh4 & _ & Hmax & Hbody).
  pose proof (length_header_bound _ Hh4) as Hn.
  assert (Htk : take (body_read st) (vec_resize (body st) n) =
                take (body_read st) (body st) /\ (body_read st <= n)%nat).
  { destruct Hbody as [[Hb0 Hbr0]|(_ & Heq & _)].
    - rewrite Hb0, Hbr0. split; [done|lia].
    - unfold zlen in Heq. subst n. rewrite <- Heq, Nat2Z.id, vec_resize_same by done. auto. }
  destruct Htk as [Htk Hbrn].
  apply read_full_spec in Hrun; [|rewrite length_vec_resize; lia].
  destruct Hrun as (Hlb & Hbr' & Hcons & Hlen & Hlive & Hf & Hres).
  rewrite length_vec_resize in *. rewrite Htk in Hcons.
  assert (Hzb : zlen b = of_be_bytes (header st)) by (unfold zlen; lia).
  split_and!; auto.
  - unfold fr_ok; simpl. split_and!; auto; try lia.
  - destruct res; [|by destruct Hres as (? & ? & ? & _)]. destruct Hres as [->|Hres]; [left; lia|].
    destruct (decide (br = n)); [left; lia|right; split; [lia|done]].
Qed.

Lemma frame_reader_read_step st r st' r' res :
  fr_ok st ->
  frame_reader_read decode st r = (st', r', res) ->
  fr_ok st' /\ max_body_bytes st' = max_body_bytes st /\
  (live r -> live r') /\ (length r' <= length r)%nat /\
  (forall e, e ∈ r' -> (exists k, e = Fault k) -> e ∈ r) /\
  read_post st r st' r' res.
Proof.
  intros Hok Hrun. unfold frame_reader_read in Hrun.
  destruct (read_full r (header st) (header_read st)) as [[[r1 h] hr] res1] eqn:E1.
  apply header_phase in E1; [|done].
  destruct E1 as (Hok1 & Hl1 & Hlen1 & Hf1 & Hc1 & Hp1 & Hr1).
  destruct res1 as [[]|k].
  2:{ simplify_eq; split_and!; auto. simpl. destruct Hr1 as (? & ? & ?).
      split_and!; auto. unfold pending; simpl. by rewrite <- app_assoc. }
  destruct (Nat.eqb_spec hr 0) as [->|Hnz].
  { destruct (Hp1 ltac:(done)) as [Hb Hbr]. rewrite Hb, Hbr in Hc1. simpl in Hc1.
    destruct Hr1 as [|Hr1]; [done|].
    simplify_eq; split_and!; auto. simpl. intros Hlv.
    rewrite <- Hc1, (Hr1 Hlv). auto. }
  destruct (Nat.ltb_spec hr HEADER_LEN) as [Hlt|Hge].
  { destruct (Hp1 ltac:(lia)) as [Hb Hbr]. rewrite Hb, Hbr in Hc1. simpl in Hc1.
    destruct Hr1 as [|Hr1]; [lia|]. destruct Hok1 as (Hh4 & ? & ? & ?).
    simplify_eq; split_and!; auto; [by split_and!|]. simpl. intros Hlv. left.
    rewrite <- Hc1, (Hr1 Hlv); simpl in *. rewrite app_nil_r.
    unfold zlen. rewrite length_take, Hh4.
    unfold HEADER_LEN in *. lia. }
  assert (hr = HEADER_LEN) as -> by (destruct Hok1 as (_ & ? & _); simpl in *; lia).
  assert (Hh4 : length h = HEADER_LEN) by apply Hok1.
  rewrite take_ge in Hc1 by (rewrite Hh4; lia).
  destruct (Z.ltb_spec (max_body_bytes st) (of_be_bytes h)) as [Hbig|Hfit].
  { simplify_eq; split_and!; auto. simpl. split_and!; auto; try lia.
    by exists h, (take (body_read st) (body st) ++ stream r'). }
  destruct (read_full r1 _ (body_read st)) as [[[r2 b] br] res2] eqn:E2.
  pose proof (body_phase (FrameReader (max_body_bytes st) h HEADER_LEN (body st)
    (body_read st)) r1 r2 b br res2) as Hbp; simpl in Hbp.
  destruct (Hbp Hok1 eq_refl Hfit E2) as (Hok2 & Hzb & Hl2 & Hlen2 & Hf2 & Hc2 & Hr2).
  clear Hbp. rewrite <- Hc2 in Hc1.
  assert (Hf : forall e, e ∈ r2 -> (exists k, e = Fault k) -> e ∈ r)
    by (intros; apply Hf1; auto).
  destruct res2 as [[]|k].
  2:{ simplify_eq; split_and!; auto; try lia. simpl. split_and!; auto; try lia.
      - rewrite <- Hc1. unfold pending; simpl. rewrite (take_ge h) by (rewrite Hh4; lia).
        by rewrite <- app_assoc.
      - apply Hr2.
      - apply Hf1; [apply Hr2|eauto].      }
  destruct (Z.ltb_spec (Z.of_nat br) (of_be_bytes h)) as [Hshort|Hfull].
  { simplify_eq; split_and!; auto; try lia. simpl. intros Hlv. right.
    destruct Hr2 as [->|[Hbr Hr2]]; [unfold zlen in Hzb; lia|].
    exists h, (take br b). rewrite <- Hc1, Hr2 by auto. simpl. rewrite app_nil_r.
    split_and!; auto; unfold zlen; rewrite ?length_take; lia. }
  assert (br = length b) as ->
    by (destruct Hr2 as [|[? _]]; unfold zlen in Hzb; lia).
  rewrite take_ge in Hc1 by lia.
  rewrite app_assoc, (frame_of_header b h) in Hc1 by (done || by symmetry).
  pose proof (length_header_bound h Hh4) as Hu32.
  destruct (decode b) eqn:Ed.
  all: simplify_eq; split_and!; auto; try lia.
  - unfold fr_ok; simpl. split_and!; auto; try lia.
    destruct Hok as (_ & _ & Hm & _). pose proof (zlen_nonneg (body st)). unfold zlen. simpl; lia.
  - exists b. split_and!; auto; lia.
  - exists b. split_and!; auto; lia.
Qed.

End Codec_lemmas.

(** * Properties *)

Section Codec_properties.
Context {T : Type}.
Variable encode : T -> option bytes.
Variable decode : bytes -> option T.

(** [rmp_serde] decodes what it encoded. *)
Definition codec_round_trips : Prop :=
  forall m payload, encode m = Some payload -> decode payload = Some m.

(** Only interrupts and timeouts, the errors the reader's documentation
    calls resumable. *)
Definition resumable (r : reader) : Prop :=
  forall k, Fault k ∈ r -> k = Interrupted \/ k = WouldBlock \/ k = TimedOut.

Lemma write_frame_eq w m max payload :
  encode m = Some payload ->
  zlen payload <= Z.min max u32_max ->
  write_frame encode w m max =
    match write_all w (frame_of payload) with
    | (w', Ok _) => (w', Ok ())
    | (w', Err k) => (w', Err (Io k))
    end.
Proof.
  intros He Hle. unfold write_frame. rewrite He.
  pose proof (zlen_nonneg payload).
  assert (Hl : zlen (replicate HEADER_LEN x00 ++ payload) - Z.of_nat HEADER_LEN = zlen payload)
    by (unfold zlen; rewrite length_app, length_replicate; lia).
  rewrite Hl. destruct (Z.ltb_spec (Z.min max u32_max) (zlen payload)); [lia|].
  rewrite wrap_small by (unfold in_width, u32_max in *; lia).
  unfold splice. rewrite length_be_bytes. reflexivity.
Qed.

Lemma frame_of_ne payload rest : [] <> frame_of payload ++ rest.
Proof.
  intros H%(f_equal length). unfold frame_of in H.
  rewrite !length_app, length_be_bytes in H. simpl in H. lia.
Qed.

(** Two ways of cutting one byte string at a frame header agree. *)
Lemma frame_of_app_inv payload rest h q :
  zlen payload <= u32_max -> length h = HEADER_LEN ->
  frame_of payload ++ rest = h ++ q ->
  of_be_bytes h = zlen payload /\ q = payload ++ rest.
Proof.
  intros Hle Hh Heq. unfold frame_of in Heq. rewrite <- app_assoc in Heq.
  apply app_inj_1 in Heq as [<- <-]; [|by rewrite length_be_bytes].
  split; [|done]. apply of_be_bytes_be_small.
  pose proof (zlen_nonneg payload).
  change (256 ^ Z.of_nat 4) with 4294967296. unfold u32_max in Hle. lia.
Qed.

Lemma frame_of_inj p1 r1 p2 r2 :
  zlen p1 <= u32_max -> zlen p2 <= u32_max ->
  frame_of p1 ++ r1 = frame_of p2 ++ r2 -> p1 = p2 /\ r1 = r2.
Proof.
  intros H1 H2 Heq. pose proof Heq as Heq'.
  unfold frame_of in Heq' at 2. rewrite <- app_assoc in Heq'.
  apply frame_of_app_inv in Heq' as [Hl Hq]; [|done|by rewrite length_be_bytes].
  rewrite of_be_bytes_be_small in Hl.
  2:{ pose proof (zlen_nonneg p2). change (256 ^ Z.of_nat 4) with 4294967296.
      unfold u32_max in H2. lia. }
  apply app_inj_1 in Hq as [-> ->]; [done|]. unfold zlen in Hl. lia.
Qed.

(** What one [read] does when a whole frame is due: it delivers the
    message, or stops at a timeout having lost nothing. *)
Lemma read_due st r st' r' res m payload rest :
  codec_round_trips -> fr_ok st -> live r ->
  encode m = Some payload -> zlen payload <= Z.min (max_body_bytes st) u32_max ->
  pending st ++ stream r = frame_of payload ++ rest ->
  frame_reader_read decode st r = (st', r', res) ->
  (res = Ok m /\ pending st' = [] /\ stream r' = rest) \/
  (exists k, res = Err (Io k) /\ k <> Interrupted /\ Fault k ∈ r /\
     pending st' ++ stream r' = frame_of payload ++ rest).
Proof.
  intros Hrt Hok Hlive He Hle Hbytes Hrun.
  pose proof (zlen_nonneg payload) as Hnn.
  apply frame_reader_read_step in Hrun; [|done].
  destruct Hrun as (Hok' & Hmax & Hlive' & Hlen & Hf & Hpost).
  assert (Hfl : forall p x, zlen (frame_of p ++ x) = 4 + zlen p + zlen x).
  { intros. unfold frame_of. rewrite !zlen_app. unfold zlen at 1. by rewrite length_be_bytes. }
  destruct res as [m'|[k| |got exp|len mx| |]]; cbn [read_post] in Hpost;
    try specialize (Hpost Hlive); rewrite ?Hbytes in Hpost.
  - destruct Hpost as (p' & Hd & Hp' & Hs & Hpend). left.
    apply frame_of_inj in Hs as [-> ->]; [|lia..].
    rewrite (Hrt m p' He) in Hd. by simplify_eq.
  - right. destruct Hpost as (? & ? & ? & _). eauto 6.
  - destruct Hpost as [Hnil _]. apply (f_equal zlen) in Hnil.
    rewrite Hfl, zlen_nil in Hnil. pose proof (zlen_nonneg rest). lia.
  - pose proof (zlen_nonneg rest).
    destruct Hpost as [(_ & -> & ?)|(h & q & Hs & Hh & <- & -> & ?)].
    + rewrite Hfl in *. lia.
    + apply frame_of_app_inv in Hs as [Hl ->]; [|lia|done].
      rewrite zlen_app in *. lia.
  - destruct Hpost as (-> & ? & h & q & Hs & Hh & <-).
    apply frame_of_app_inv in Hs as [Hl ->]; [|lia|done]. lia.
  - destruct Hpost as (p' & Hd & ? & Hs).
    apply frame_of_inj in Hs as [-> ->]; [|lia..].
    by rewrite (Hrt m p' He) in Hd.
  - done.
Qed.

Lemma read_all_due ms ps :
  codec_round_trips ->
  Forall2 (fun m p => encode m = Some p) ms ps ->
  forall fuel st r,
  fr_ok st -> live r -> resumable r ->
  Forall (fun p => zlen p <= Z.min (max_body_bytes st) u32_max) ps ->
  pending st ++ stream r = concat (frame_of <$> ps) ->
  (length r + length ms < fuel)%nat ->
  read_all decode fuel st r = (ms, Some Eof).
Proof.
  intros Hrt HF fuel. revert ms ps HF.
  induction fuel as [|fuel IH]; intros ms ps HF st r Hok Hlive Hres Hsz Hbytes Hfuel;
    [lia|]. cbn [read_all].
  destruct (frame_reader_read decode st r) as [[st' r'] res] eqn:Hrun.
  pose proof (frame_reader_read_step decode st r st' r' res Hok Hrun) as
    (Hok' & Hmax & Hlive' & Hlen & Hf & Hpost).
  assert (Hres' : resumable r') by (intros k Hk; apply Hres, Hf; eauto).
  assert (Hio : forall k, res = Err (Io k) ->
     (k = WouldBlock \/ k = TimedOut) /\ (length r' < length r)%nat /\
     pending st' ++ stream r' = pending st ++ stream r).
  { intros k ->. cbn [read_post] in Hpost. destruct Hpost as (? & ? & ? & ?).
    split_and!; auto. destruct (Hres k) as [|[|]]; auto; done. }
  destruct HF as [|m p ms ps He HF].
  - destruct res as [m'|[k| |got exp|len mx| |]]; cbn [read_post] in Hpost;
      try specialize (Hpost Hlive); simpl in Hbytes; rewrite ?Hbytes in Hpost.
    + destruct Hpost as (p' & _ & _ & Hs & _). by apply frame_of_ne in Hs.
    + destruct (Hio k eq_refl) as ([-> | ->] & ? & Hc); apply (IH [] []); auto;
        rewrite ?Hmax, ?Hc; auto; simpl in *; lia.
    + done.
    + destruct Hpost as [(_ & -> & ?)|(h & q & Hs & Hh & _)]; [rewrite zlen_nil in *; lia|].
      symmetry in Hs. by apply app_nil in Hs as [-> _].
    + destruct Hpost as (_ & _ & h & q & Hs & Hh & _).
      symmetry in Hs. by apply app_nil in Hs as [-> _].
    + destruct Hpost as (p' & _ & _ & Hs). by apply frame_of_ne in Hs.
    + done.
  - inversion Hsz as [|? ? Hp Hps]; subst. cbn [fmap list_fmap concat] in Hbytes.
    destruct (read_due _ _ _ _ _ _ _ _ Hrt Hok Hlive He Hp Hbytes Hrun)
      as [(-> & Hpend & Hrest)|(k & -> & _ & _ & Hc)].
    + rewrite (IH ms ps HF st' r'); auto.
      * by rewrite Hmax.
      * by rewrite Hpend, Hrest.
      * cbn [length] in Hfuel. lia.
    + destruct (Hio k eq_refl) as ([-> | ->] & ? & Hc');
        apply (IH (m :: ms) (p :: ps)); auto; rewrite ?Hmax, ?Hc'; auto; lia.
Qed.

(** Write a list of messages, stopping at the first error. *)
Fixpoint write_frames (w : writer) (ms : list T) (max : Z)
  : writer * result unit frame_error :=
  match ms with
  | [] => (w, Ok ())
  | m :: ms' =>
      match write_frame encode w m max with
      | (w', Ok _) => write_frames w' ms' max
      | (w', Err e) => (w', Err e)
      end
  end.

Lemma write_all_ok w buf w' u :
  write_all w buf = (w', Ok u) -> out w' = out w ++ buf.
Proof. unfold write_all. intros. repeat case_match; by simplify_eq. Qed.

(** The outcome of [write_frame], on every branch. *)
Definition write_post (w w' : writer) (m : T) (max : Z) (res : result unit frame_error) : Prop :=
  match res with
  | Ok _ => exists payload, encode m = Some payload /\
      zlen payload <= Z.min max u32_max /\ out w' = out w ++ frame_of payload
  | Err (FrameTooLarge len lim) => w' = w /\ lim = Z.min max u32_max /\ lim < len /\
      exists payload, encode m = Some payload /\ len = zlen payload
  | Err Encode => w' = w /\ encode m = None
  | Err (Io k) => exists payload sent, encode m = Some payload /\
      out w' = out w ++ sent /\ sent `prefix_of` frame_of payload
  | Err _ => False
  end.

Lemma write_frame_outcome w m max w' res :
  write_frame encode w m max = (w', res) -> write_post w w' m max res.
Proof.
  intros Hrun. destruct (encode m) as [payload|] eqn:He.
  2:{ unfold write_frame in Hrun. rewrite He in Hrun. by simplify_eq. }
  destruct (Z.le_gt_cases (zlen payload) (Z.min max u32_max)) as [Hle|Hgt].
  - rewrite (write_frame_eq w m max payload He Hle) in Hrun.
    destruct (write_all w (frame_of payload)) as [w1 [u|k]] eqn:Hw; simplify_eq; simpl.
    + exists payload. split_and!; auto. by eapply write_all_ok.
    + unfold write_all in Hw. repeat case_match; simplify_eq; simpl.
      exists payload. eexists. split_and!; eauto. apply prefix_take.
  - unfold write_frame in Hrun. rewrite He in Hrun.
    assert (Hl : zlen (replicate HEADER_LEN x00 ++ payload) - Z.of_nat HEADER_LEN = zlen payload)
      by (unfold zlen; rewrite length_app, length_replicate; lia).
    rewrite Hl in Hrun.
    destruct (Z.ltb_spec (Z.min max u32_max) (zlen payload)); [|lia].
    simplify_eq. simpl. split_and!; auto. eauto.
Qed.

Lemma write_frames_ok ms max w w' :
  write_frames w ms max = (w', Ok ()) ->
  exists ps, Forall2 (fun m p => encode m = Some p) ms ps /\
    Forall (fun p => zlen p <= Z.min max u32_max) ps /\
    out w' = out w ++ concat (frame_of <$> ps).
Proof.
  revert w. induction ms as [|m ms IH]; intros w Hrun; simpl in Hrun.
  - simplify_eq. exists []. split_and!; auto. by rewrite app_nil_r.
  - destruct (write_frame encode w m max) as [w1 [u|e]] eqn:Hw; [|done].
    apply write_frame_outcome in Hw as (p & He & Hle & Ho).
    destruct (IH _ Hrun) as (ps & HF & Hsz & Ho').
    exists (p :: ps). split_and!; auto. rewrite Ho', Ho. simpl. by rewrite <- app_assoc.
Qed.

(** C4: frames written by [write_frame] one after another come back, in
    order and followed by a clean end of stream, from a [FrameReader] on any
    delivery of the same bytes: cut into any chunks, with interrupts, and
    with timeouts after each of which [read] is called again. *)
Theorem frames_round_trip ms max w r :
  codec_round_trips -> 0 <= max ->
  write_frames (Writer [] None) ms max = (w, Ok ()) ->
  stream r = out w -> live r -> resumable r ->
  read_all decode (S (length r + length ms)) (frame_reader_new max) r = (ms, Some Eof).
Proof.
  intros Hrt Hmax Hw Hs Hlive Hres.
  apply write_frames_ok in Hw as (ps & HF & Hsz & Ho). simpl in Ho.
  apply (read_all_due ms ps Hrt HF); try done; try lia; [by apply fr_ok_new|].
  unfold pending; simpl. by rewrite Hs, Ho.
Qed.

(** [write_frame] is all or nothing below the I/O layer: it hands the
    header and the body to a single [write_all]; on an over-long body or an
    encoding failure it writes nothing at all, and on an I/O error what went
    out is a prefix of the frame. *)
Lemma write_frame_spec w m max :
  write_post w (write_frame encode w m max).1 m max (write_frame encode w m max).2.
Proof. apply write_frame_outcome. by destruct (write_frame encode w m max). Qed.

(** Any history of [read] calls on one decoder. *)
Definition reads (max : Z) (rs : list reader) : frame_reader :=
  foldl (fun st r => (frame_reader_read decode st r).1.1) (frame_reader_new max) rs.

Lemma reads_ok max rs : 0 <= max -> fr_ok (reads max rs) /\ max_body_bytes (reads max rs) = max.
Proof.
  intros Hmax. unfold reads.
  assert (H0 : fr_ok (frame_reader_new max) /\ max_body_bytes (frame_reader_new max) = max)
    by (split; [by apply fr_ok_new|done]).
  revert H0. generalize (frame_reader_new max).
  induction rs as [|r rs IH]; intros st [Hok Hm]; [done|]. simpl. apply IH.
  destruct (frame_reader_read decode st r) as [[st' r'] res] eqn:E.
  apply frame_reader_read_step in E; [|done]. destruct E as (? & ? & _). simpl. by subst.
Qed.

(** Whatever the peer sends and however the reads end, the decoder never
    holds a body buffer longer than its configured cap. *)
Lemma frame_buffer_bounded max rs :
  0 <= max -> zlen (body (reads max rs)) <= max.
Proof.
  intros Hmax. destruct (reads_ok max rs Hmax) as [(_ & _ & Hb & _) Hm]. by rewrite Hm in Hb.
Qed.

(** Every outcome of [FrameReader::read], after any history of calls,
    is the right one for the bytes of the connection: a message exactly for
    a complete frame within the cap (no byte past it is consumed), a
    timeout that loses no byte, a clean end of stream only at a frame
    boundary, and the two kinds of truncation and the oversized header
    reported with their counts. *)
Lemma frame_read_outcome max rs r :
  0 <= max ->
  let st := reads max rs in
  let '(st', r', res) := frame_reader_read decode st r in
  read_post decode st r st' r' res.
Proof.
  intros Hmax. destruct (reads_ok max rs Hmax) as [Hok _]. cbv zeta.
  destruct (frame_reader_read decode (reads max rs) r) as [[st' r'] res] eqn:E.
  by apply frame_reader_read_step in E as (_ & _ & _ & _ & _ & ?).
Qed.

End Codec_properties.

(** * Witnesses *)

(** Two messages, delivered byte by byte and in odd chunks with a timeout in
    the header and one in the body. *)
Definition demo_reader : reader :=
  [Chunk [x00]; Fault TimedOut; Chunk [x00; x00]; Fault Interrupted;
   Chunk [x03; x61; x62]; Fault WouldBlock; Chunk [x63; x00; x00; x00; x00]].

Lemma frames_round_trip_witness :
  read_all Some 20 (frame_reader_new 16) demo_reader = ([[x61; x62; x63]; []], Some Eof) /\
  read_all Some (S (length demo_reader + 2)) (frame_reader_new 16) demo_reader =
    ([[x61; x62; x63]; []], Some Eof).
Proof.
  split; [vm_compute; reflexivity|].
  apply (frames_round_trip Some Some [[x61; x62; x63]; []] 16
    (Writer [x00; x00; x00; x03; x61; x62; x63; x00; x00; x00; x00] None) demo_reader).
  - intros m payload H. congruence.
  - lia.
  - vm_compute; reflexivity.
  - vm_compute; reflexivity.
  - unfold live, demo_reader. repeat (constructor; [discriminate|]). constructor.
  - intros k Hk. apply list_elem_of_In in Hk. simpl in Hk.
    repeat destruct Hk as [Hk|Hk]; simplify_eq; auto; done.
Defined.

Lemma frame_buffer_bounded_witness :
  body (reads Some 16 [[Chunk [x00; x00; x00; x08; x61]; Fault TimedOut]]) =
    x61 :: replicate 7 x00 /\
  zlen (body (reads Some 16 [[Chunk [x00; x00; x00; x08; x61]; Fault TimedOut]])) <= 16.
Proof.
  split; [vm_compute; reflexivity|].
  apply (frame_buffer_bounded Some 16); lia.
Defined.

Lemma frame_read_outcome_witness :
  (let st := reads (@Some bytes) 4 [] in
   let '(st', r', res) := frame_reader_read Some st [Chunk [x00; x00; x00; x09; x61]] in
   res = Err (FrameTooLarge 9 4)) /\
  (let st := reads (@Some bytes) 4 [] in
   let '(st', r', res) := frame_reader_read Some st [Chunk [x00; x00; x00; x09; x61]] in
   read_post Some st [Chunk [x00; x00; x00; x09; x61]] st' r' res).
Proof.
  split; [vm_compute; reflexivity|].
  apply (frame_read_outcome Some 4 [] [Chunk [x00; x00; x00; x09; x61]]); lia.
Defined.
