(* ===== verification/Pool.v ===== *)
(** The resource pool of [src/provium-host/src/scheduler/pool.rs]. *)
From S2P Require Import Prelude.

(** * [WaitSink]: how long a thread has been parked *)

Record wait_sink := WaitSink { settled_ns : Z; parked_since : option Z }.

Definition wait_sink_new : wait_sink := WaitSink 0 None.

(** [Instant::elapsed] at time [now] (nanoseconds), which never runs backwards. *)
Definition elapsed (now since : Z) : Z := Z.max 0 (now - since).

Definition waited (now : Z) (s : wait_sink) : Z :=
  settled_ns s + from_option (elapsed now) 0 (parked_since s).

Definition park (now : Z) (s : wait_sink) : wait_sink :=
  WaitSink (settled_ns s) (Some now).

Definition unpark (now : Z) (s : wait_sink) : wait_sink :=
  match parked_since s with
  | Some since =>
      WaitSink (wrap u64_max (settled_ns s + wrap u64_max (elapsed now since))) None
  | None => s
  end.

(** The thread-local sink: [None] unless one was installed. *)
Definition install_wait_sink (sink : wait_sink) (_ : option wait_sink) : option wait_sink :=
  Some sink.
Definition wait_sink_guard_drop (_ : option wait_sink) : option wait_sink := None.
Definition current_wait_sink (s : option wait_sink) : option wait_sink := s.
Definition sink_park (now : Z) (s : option wait_sink) : option wait_sink := park now <$> s.
Definition sink_unpark (now : Z) (s : option wait_sink) : option wait_sink := unpark now <$> s.

(** * [ResourceAmount] *)

Record resource_amount := RA { memory_bytes : Z; cpus : Z }.

#[export] Instance resource_amount_eq_dec : EqDecision resource_amount.
Proof. solve_decision. Defined.

Definition ra_zero : resource_amount := RA 0 0.

Definition is_zero (a : resource_amount) : bool :=
  (memory_bytes a =? 0) && (cpus a =? 0).

Definition fits_in (a budget : resource_amount) : bool :=
  (memory_bytes a <=? memory_bytes budget) && (cpus a <=? cpus budget).

Definition saturating_add (a b : resource_amount) : resource_amount :=
  RA (sat_add u64_max (memory_bytes a) (memory_bytes b))
     (sat_add u32_max (cpus a) (cpus b)).

Definition saturating_sub (a b : resource_amount) : resource_amount :=
  RA (sat_sub (memory_bytes a) (memory_bytes b)) (sat_sub (cpus a) (cpus b)).

(** * The pool's state *)

Abbreviation owner_id := Z.

Record owner_state := OwnerState { held : resource_amount; ow_waiting : Z }.

Definition owner_default : owner_state := OwnerState ra_zero 0.

Definition is_idle (o : owner_state) : bool := is_zero (held o) && (ow_waiting o =? 0).

Record pool_state := PoolState {
  total : resource_amount;
  available : resource_amount;
  owners : gmap owner_id owner_state;
  waiting : gmap Z resource_amount;
  next_id : Z;
}.

Record deadlock_info := Deadlock {
  dl_requested : resource_amount;
  dl_available : resource_amount;
  dl_total : resource_amount;
  dl_holders : Z;
  dl_waiters : Z;
}.

Inductive acquire_error :=
| ExceedsTotal (requested tot : resource_amount)
| DeadlockErr (d : deadlock_info).

(** [PoolState::next_id]. *)
Definition bump_id (s : pool_state) : pool_state * Z :=
  (PoolState (total s) (available s) (owners s) (waiting s) (next_id s + 1), next_id s + 1).

(** [owner_mut]: the entry of an owner, created when absent. *)
Definition owner_get (s : pool_state) (o : owner_id) : owner_state :=
  default owner_default (owners s !! o).

Definition set_owner (o : owner_id) (os : owner_state) (s : pool_state) : pool_state :=
  PoolState (total s) (available s) (<[o := os]> (owners s)) (waiting s) (next_id s).

Definition set_available (a : resource_amount) (s : pool_state) : pool_state :=
  PoolState (total s) a (owners s) (waiting s) (next_id s).

Definition set_waiting (w : gmap Z resource_amount) (s : pool_state) : pool_state :=
  PoolState (total s) (available s) (owners s) w (next_id s).

Definition prune (o : owner_id) (s : pool_state) : pool_state :=
  match owners s !! o with
  | Some os =>
      if is_idle os
      then PoolState (total s) (available s) (delete o (owners s)) (waiting s) (next_id s)
      else s
  | None => s
  end.

(** The loop over the owners' entries: the number of holders, or [None] when
    one of them is not parked. *)
Fixpoint count_holders (os : list owner_state) (holders : Z) : option Z :=
  match os with
  | [] => Some holders
  | o :: os' =>
      if negb (is_zero (held o)) then
        if ow_waiting o =? 0 then None else count_holders os' (holders + 1)
      else count_holders os' holders
  end.

Definition owner_values (s : pool_state) : list owner_state := (map_to_list (owners s)).*2.

Definition owned (s : pool_state) : resource_amount :=
  foldl (fun acc o => saturating_add acc (held o)) ra_zero (owner_values s).

(** [PoolState::deadlock]: the verdict, taken under the lock. *)
Definition deadlock (s : pool_state) (requested : resource_amount) : option deadlock_info :=
  if negb (bool_decide (owned s = saturating_sub (total s) (available s))) then None
  else
    match count_holders (owner_values s) 0 with
    | None => None
    | Some holders =>
        if holders =? 0 then None
        else if existsb (fun w => fits_in w (available s)) (map_to_list (waiting s)).*2
        then None
        else Some (Deadlock requested (available s) (total s) holders
                     (Z.of_nat (size (waiting s))))
    end.

(** * The pool's operations *)

Definition pool_new (tot : resource_amount) : pool_state := PoolState tot tot ∅ ∅ 0.

Definition pending_count (s : pool_state) : Z := Z.of_nat (size (waiting s)).

(** [Pool::new_owner]. *)
Definition new_owner (s : pool_state) : pool_state * owner_id := bump_id s.

Record reservation := Reservation { amount : resource_amount; owner : option owner_id }.

(** [Pool::withdraw]: leave the waiting set, if this acquire was ever in it. *)
Definition withdraw (now : Z) (s : pool_state) (o : option owner_id) (ticket : option Z)
    (sink : option wait_sink) : pool_state * option wait_sink :=
  match ticket with
  | None => (s, sink)
  | Some t =>
      let s1 := set_waiting (delete t (waiting s)) s in
      let s2 :=
        match o with
        | None => s1
        | Some ow =>
            let w := owner_get s1 ow in
            prune ow (set_owner ow (OwnerState (held w) (sat_sub (ow_waiting w) 1)) s1)
        end in
      (s2, sink_unpark now sink)
  end.

(** Take the amount out of what is available and charge it to the owner. *)
Definition charge (s : pool_state) (o : option owner_id) (amt : resource_amount) : pool_state :=
  let s1 := set_available (saturating_sub (available s) amt) s in
  match o with
  | None => s1
  | Some ow =>
      let w := owner_get s1 ow in
      set_owner ow (OwnerState (saturating_add (held w) amt) (ow_waiting w)) s1
  end.

(** Join the waiting set under a fresh ticket. *)
Definition register (s : pool_state) (o : option owner_id) (amt : resource_amount)
  : pool_state * Z :=
  let '(s1, t) := bump_id s in
  let s2 := set_waiting (<[t := amt]> (waiting s1)) s1 in
  match o with
  | None => (s2, t)
  | Some ow =>
      let w := owner_get s2 ow in
      (set_owner ow (OwnerState (held w) (ow_waiting w + 1)) s2, t)
  end.

(** How one turn of an acquire, from taking the lock to giving it up, ends. *)
Inductive acquire_turn :=
| Granted (r : reservation)
| Refused (e : acquire_error)
| Parked (ticket : Z).

(** The body of the [while] loop of [acquire_inner] and what follows it: a
    turn starts when the lock is taken, at entry or on return from
    [Condvar::wait], and ends in a result or in the next [wait]. *)
Definition acquire_poll (now : Z) (s : pool_state) (o : option owner_id)
    (amt : resource_amount) (ticket : option Z) (sink : option wait_sink)
  : pool_state * option wait_sink * acquire_turn :=
  if negb (fits_in amt (available s)) then
    let '(s1, t, sink1) :=
      match ticket with
      | Some t => (s, t, sink)
      | None =>
          let '(s', t) := register s o amt in
          (s', t, sink_park now sink)
      end in
    match o with
    | Some _ =>
        match deadlock s1 amt with
        | Some d =>
            let '(s2, sink2) := withdraw now s1 o (Some t) sink1 in
            (s2, sink2, Refused (DeadlockErr d))
        | None => (s1, sink1, Parked t)
        end
    | None => (s1, sink1, Parked t)
    end
  else
    let '(s1, sink1) := withdraw now s o ticket sink in
    (charge s1 o amt, sink1, Granted (Reservation amt o)).

(** The entry of [acquire_inner]. *)
Definition acquire_inner (now : Z) (s : pool_state) (o : option owner_id)
    (amt : resource_amount) (sink : option wait_sink)
  : pool_state * option wait_sink * acquire_turn :=
  if negb (fits_in amt (total s))
  then (s, sink, Refused (ExceedsTotal amt (total s)))
  else acquire_poll now s o amt None sink.

Definition try_acquire_inner (s : pool_state) (o : option owner_id) (amt : resource_amount)
  : pool_state * option reservation :=
  if negb (fits_in amt (available s)) then (s, None)
  else (charge s o amt, Some (Reservation amt o)).

(** [Pool::release], run by the drop of a [Reservation]. Waking every waiter
    is the caller's business: see [exec] below. *)
Definition release (s : pool_state) (r : reservation) : pool_state :=
  let a := saturating_add (available s) (amount r) in
  let s1 := set_available (if fits_in a (total s) then a else total s) s in
  match owner r with
  | None => s1
  | Some ow =>
      let w := owner_get s1 ow in
      prune ow (set_owner ow (OwnerState (saturating_sub (held w) (amount r)) (ow_waiting w)) s1)
  end.

#[global] Arguments withdraw : simpl never.
#[global] Arguments register : simpl never.
#[global] Arguments charge : simpl never.
#[global] Arguments release : simpl never.

(** * Waiting time *)

(** The thread's history: finished waits, as park and unpark times. *)
Definition settle_waits (s : wait_sink) (waits : list (Z * Z)) : wait_sink :=
  foldl (fun s w => unpark w.2 (park w.1 s)) s waits.

Definition wait_total (waits : list (Z * Z)) : Z := lsum (fun w => w.2 - w.1) waits.

Lemma settle_waits_eq waits s :
  parked_since s = None -> 0 <= settled_ns s ->
  Forall (fun w => w.1 <= w.2) waits -> settled_ns s + wait_total waits <= u64_max ->
  settle_waits s waits = WaitSink (settled_ns s + wait_total waits) None.
Proof.
  revert s. induction waits as [|[a b] waits IH]; intros s Hn H0 HF Hle.
  - destruct s; simpl in *; subst. unfold wait_total; simpl. by rewrite Z.add_0_r.
  - inversion HF as [|? ? Hab HF']; subst. simpl in Hab.
    assert (0 <= wait_total waits).
    { apply lsum_nonneg. rewrite Forall_forall in HF'. intros x Hx.
      specialize (HF' x Hx). simpl in HF'. lia. }
    assert (Hstep : unpark b (park a s) = WaitSink (settled_ns s + (b - a)) None).
    { unfold unpark, park; simpl. unfold elapsed. rewrite Z.max_r by lia.
      unfold wait_total in Hle; simpl in Hle. fold (wait_total waits) in Hle.
      rewrite (wrap_small _ (b - a)), wrap_small; unfold in_width; [done|lia..]. }
    cbn [settle_waits foldl fst snd]. fold (settle_waits (unpark b (park a s)) waits).
    unfold wait_total in Hle; simpl in Hle. fold (wait_total waits) in Hle.
    rewrite Hstep, IH; simpl; auto; [|lia..]. f_equal. unfold wait_total at 2; simpl.
    fold (wait_total waits). lia.
Qed.

(** The time a file is charged for queueing is exactly the time it was
    parked: after any history of finished waits, [waited] is their total
    length, and while a wait is in progress its length so far is included. *)
Lemma wait_sink_exact waits since now :
  Forall (fun w => w.1 <= w.2) waits -> wait_total waits <= u64_max -> since <= now ->
  waited now (settle_waits wait_sink_new waits) = wait_total waits /\
  waited now (park since (settle_waits wait_sink_new waits)) = wait_total waits + (now - since).
Proof.
  intros HF Hle Hnow. rewrite settle_waits_eq; auto; simpl; [|lia].
  unfold waited, park, elapsed; simpl. lia.
Qed.

Lemma wait_sink_exact_witness :
  waited 100 (park 90 (settle_waits wait_sink_new [(1, 4); (10, 30)])) = 33.
Proof.
  change 33 with (wait_total [(1, 4); (10, 30)] + (100 - 90)).
  apply (wait_sink_exact [(1, 4); (10, 30)] 90 100);
    [repeat constructor; simpl; lia|vm_compute; discriminate|lia].
Defined.
