(* ===== verification/PoolSys.v ===== *)
(** The pool under concurrent use: threads that acquire, park, wake and
    release in any order. *)
From S2P Require Import Prelude Pool.

(** * The system *)

(** A thread parked in [Condvar::wait], and whether a wake-up is on its way. *)
Record waiter := Waiter {
  w_owner : option owner_id;
  w_amount : resource_amount;
  notified : bool;
}.

Record config := Config {
  pool : pool_state;
  live : gmap Z reservation;
  next_res : Z;
  parked : gmap Z waiter;
}.

Definition init (tot : resource_amount) : config := Config (pool_new tot) ∅ 0 ∅.

(** What a thread may do next. [OpWake] is a return from [Condvar::wait], by a
    notification or spuriously. *)
Inductive op :=
| OpNewOwner
| OpAcquire (o : option owner_id) (amt : resource_amount)
| OpWake (ticket : Z)
| OpTryAcquire (o : option owner_id) (amt : resource_amount)
| OpRelease (id : Z).

#[export] Instance op_eq_dec : EqDecision op.
Proof. solve_decision. Defined.

Definition notify_all (ws : gmap Z waiter) : gmap Z waiter :=
  (fun w => Waiter (w_owner w) (w_amount w) true) <$> ws.

Definition drop_ticket (ticket : option Z) (ws : gmap Z waiter) : gmap Z waiter :=
  match ticket with Some t => delete t ws | None => ws end.

(** Where the thread that ran a turn of an acquire goes. *)
Definition settle (c : config) (ticket : option Z) (o : option owner_id)
    (amt : resource_amount) (s : pool_state) (turn : acquire_turn) : config :=
  let others := drop_ticket ticket (parked c) in
  match turn with
  | Granted r => Config s (<[next_res c := r]> (live c)) (next_res c + 1) others
  | Refused _ => Config s (live c) (next_res c) others
  | Parked t => Config s (live c) (next_res c) (<[t := Waiter o amt false]> others)
  end.

Definition exec (c : config) (x : op) : option (config * option acquire_turn) :=
  match x with
  | OpNewOwner =>
      Some (Config (new_owner (pool c)).1 (live c) (next_res c) (parked c), None)
  | OpAcquire o amt =>
      let '(s, _, turn) := acquire_inner 0 (pool c) o amt None in
      Some (settle c None o amt s turn, Some turn)
  | OpWake t =>
      match parked c !! t with
      | None => None
      | Some w =>
          let '(s, _, turn) := acquire_poll 0 (pool c) (w_owner w) (w_amount w) (Some t) None in
          Some (settle c (Some t) (w_owner w) (w_amount w) s turn, Some turn)
      end
  | OpTryAcquire o amt =>
      match try_acquire_inner (pool c) o amt with
      | (s, Some r) =>
          Some (Config s (<[next_res c := r]> (live c)) (next_res c + 1) (parked c), None)
      | (s, None) => Some (Config s (live c) (next_res c) (parked c), None)
      end
  | OpRelease id =>
      match live c !! id with
      | None => None
      | Some r =>
          Some (Config (release (pool c) r) (delete id (live c)) (next_res c)
                  (notify_all (parked c)), None)
      end
  end.

(** Amounts are machine integers. *)
Definition ra_ok (a : resource_amount) : Prop :=
  in_width u64_max (memory_bytes a) /\ in_width u32_max (cpus a).

Definition op_ok (x : op) : Prop :=
  match x with
  | OpAcquire _ amt | OpTryAcquire _ amt => ra_ok amt
  | _ => True
  end.

(** Every interleaving of the threads. *)
Inductive step (c : config) : config -> Prop :=
| step_exec x c' t : op_ok x -> exec c x = Some (c', t) -> step c c'.

Definition reachable (tot : resource_amount) : config -> Prop := rtc step (init tot).

(** * The invariant *)

(** The two axes of an amount, so that each fact is stated once. *)
Definition axis (ax : bool) (a : resource_amount) : Z :=
  if ax then memory_bytes a else cpus a.
Definition axis_max (ax : bool) : Z := if ax then u64_max else u32_max.

Definition res_axis (ax : bool) (r : reservation) : Z := axis ax (amount r).
(** The part of a reservation that belongs to owner [o]. *)
Definition res_of (ax : bool) (o : owner_id) (r : reservation) : Z :=
  if decide (owner r = Some o) then res_axis ax r else 0.
(** The part of a reservation that belongs to any owner. *)
Definition res_owned (ax : bool) (r : reservation) : Z :=
  match owner r with Some _ => res_axis ax r | None => 0 end.
Definition waits_for (o : owner_id) (w : waiter) : Z :=
  if decide (w_owner w = Some o) then 1 else 0.
Definition held_axis (ax : bool) (os : owner_state) : Z := axis ax (held os).

Record pool_inv (s : pool_state) (lv : gmap Z reservation) (pk : gmap Z waiter) : Prop := {
  inv_conserved ax : axis ax (available s) + msum (res_axis ax) lv = axis ax (total s);
  inv_live ax id r : lv !! id = Some r -> 0 <= res_axis ax r;
  inv_available ax : 0 <= axis ax (available s);
  inv_total ax : axis ax (total s) <= axis_max ax;
  inv_held ax o : held_axis ax (owner_get s o) = msum (res_of ax o) lv;
  inv_owned ax : msum (held_axis ax) (owners s) = msum (res_owned ax) lv;
  inv_waiting o : ow_waiting (owner_get s o) = msum (waits_for o) pk;
  inv_requests : waiting s = w_amount <$> pk;
  inv_tickets t w : pk !! t = Some w -> t <= next_id s;
}.

Record config_inv (tot : resource_amount) (c : config) : Prop := {
  cinv_pool : pool_inv (pool c) (live c) (parked c);
  cinv_total : total (pool c) = tot;
  cinv_fresh id r : live c !! id = Some r -> id < next_res c;
  cinv_waits t w : parked c !! t = Some w ->
    ra_ok (w_amount w) /\ fits_in (w_amount w) tot = true;
}.

(** * Lemmas on the pool's building blocks *)

Lemma axis_ext a b : (forall ax, axis ax a = axis ax b) -> a = b.
Proof.
  intros H. pose proof (H true) as Hm. pose proof (H false) as Hc.
  destruct a, b; simpl in *; congruence.
Qed.

Lemma axis_saturating_add ax a b :
  axis ax (saturating_add a b) = sat_add (axis_max ax) (axis ax a) (axis ax b).
Proof. by destruct ax. Qed.

Lemma axis_saturating_sub ax a b :
  axis ax (saturating_sub a b) = sat_sub (axis ax a) (axis ax b).
Proof. by destruct ax. Qed.

Lemma axis_zero ax : axis ax ra_zero = 0.
Proof. by destruct ax. Qed.

Lemma fits_in_axis a b : fits_in a b = true <-> forall ax, axis ax a <= axis ax b.
Proof.
  unfold fits_in. rewrite andb_true_iff, !Z.leb_le. split.
  - intros [? ?] []; done.
  - intros H. split; [apply (H true)|apply (H false)].
Qed.

Lemma is_zero_axis a : is_zero a = true <-> forall ax, axis ax a = 0.
Proof.
  unfold is_zero. rewrite andb_true_iff, !Z.eqb_eq. split.
  - intros [? ?] []; done.
  - intros H. split; [apply (H true)|apply (H false)].
Qed.

Lemma is_zero_eq a : is_zero a = true -> a = ra_zero.
Proof. intros H. apply axis_ext. intros ax. rewrite axis_zero. by apply is_zero_axis. Qed.

Lemma ra_ok_axis a ax : ra_ok a -> 0 <= axis ax a <= axis_max ax.
Proof. unfold ra_ok, in_width. destruct ax; simpl; lia. Qed.

Lemma owner_get_set o o' os s :
  owner_get (set_owner o os s) o' = if decide (o = o') then os else owner_get s o'.
Proof.
  unfold owner_get, set_owner; simpl. rewrite lookup_insert. by case_decide.
Qed.

(** Pruning an idle entry is not observable through [owner_get]. *)
Lemma owner_get_prune o o' s : owner_get (prune o s) o' = owner_get s o'.
Proof.
  unfold prune. destruct (owners s !! o) as [os|] eqn:E; [|done].
  destruct (is_idle os) eqn:Hi; [|done]. unfold owner_get; simpl.
  rewrite lookup_delete. case_decide as Hd; [|done]. subst. rewrite E. simpl.
  unfold is_idle in Hi. apply andb_true_iff in Hi as [Hz Hw].
  apply is_zero_eq in Hz. apply Z.eqb_eq in Hw.
  destruct os; simpl in *; by subst.
Qed.

Lemma prune_fields o s :
  total (prune o s) = total s /\ available (prune o s) = available s /\
  waiting (prune o s) = waiting s /\ next_id (prune o s) = next_id s.
Proof. unfold prune. by repeat case_match. Qed.

Lemma held_sum_prune ax o s :
  msum (held_axis ax) (owners (prune o s)) = msum (held_axis ax) (owners s).
Proof.
  unfold prune. destruct (owners s !! o) as [os|] eqn:E; [|done].
  destruct (is_idle os) eqn:Hi; [|done]. simpl. rewrite msum_delete_total, E. simpl.
  unfold is_idle in Hi. apply andb_true_iff in Hi as [Hz _].
  pose proof (proj1 (is_zero_axis _) Hz ax). unfold held_axis. lia.
Qed.

Lemma held_sum_set ax o os s :
  msum (held_axis ax) (owners (set_owner o os s)) =
  msum (held_axis ax) (owners s) - held_axis ax (owner_get s o) + held_axis ax os.
Proof.
  simpl. rewrite msum_insert. unfold owner_get.
  destruct (owners s !! o); simpl; [done|].
  unfold held_axis at 2 4; simpl. rewrite axis_zero. done.
Qed.

Lemma waits_for_nonneg o w : 0 <= waits_for o w.
Proof. unfold waits_for. case_decide; lia. Qed.

Lemma held_axis_mk ax h w : held_axis ax (OwnerState h w) = axis ax h.
Proof. done. Qed.

Lemma owner_get_set_available a s : owner_get (set_available a s) = owner_get s.
Proof. done. Qed.

(** What each building block does, seen through [owner_get]. *)

Lemma owner_get_charge s o amt x :
  owner_get (charge s o amt) x =
    if decide (o = Some x)
    then OwnerState (saturating_add (held (owner_get s x)) amt) (ow_waiting (owner_get s x))
    else owner_get s x.
Proof.
  unfold charge. destruct o as [ow|]; [rewrite owner_get_set|]; repeat case_decide; naive_solver.
Qed.

Lemma owner_get_release s r x :
  owner_get (release s r) x =
    if decide (owner r = Some x)
    then OwnerState (saturating_sub (held (owner_get s x)) (amount r)) (ow_waiting (owner_get s x))
    else owner_get s x.
Proof.
  unfold release. destruct (owner r) as [ow|];
    [rewrite owner_get_prune, owner_get_set|]; repeat case_decide; naive_solver.
Qed.

Lemma owner_get_register s o amt x :
  owner_get (register s o amt).1 x =
    if decide (o = Some x)
    then OwnerState (held (owner_get s x)) (ow_waiting (owner_get s x) + 1)
    else owner_get s x.
Proof.
  unfold register. destruct o as [ow|]; simpl; [rewrite owner_get_set|];
    repeat case_decide; naive_solver.
Qed.

Lemma owner_get_withdraw now s o t sk x :
  owner_get (withdraw now s o (Some t) sk).1 x =
    if decide (o = Some x)
    then OwnerState (held (owner_get s x)) (sat_sub (ow_waiting (owner_get s x)) 1)
    else owner_get s x.
Proof.
  unfold withdraw. destruct o as [ow|]; simpl;
    [rewrite owner_get_prune, owner_get_set|]; repeat case_decide; naive_solver.
Qed.

Lemma held_sum_charge ax s o amt :
  msum (held_axis ax) (owners (charge s o amt)) =
    msum (held_axis ax) (owners s) +
    match o with
    | Some ow => sat_add (axis_max ax) (held_axis ax (owner_get s ow)) (axis ax amt)
                 - held_axis ax (owner_get s ow)
    | None => 0
    end.
Proof.
  unfold charge. destruct o as [ow|]; [|simpl; lia].
  rewrite held_sum_set, held_axis_mk, axis_saturating_add, owner_get_set_available.
  change (owners (set_available _ s)) with (owners s). unfold held_axis. lia.
Qed.

Lemma held_sum_release ax s r :
  msum (held_axis ax) (owners (release s r)) =
    msum (held_axis ax) (owners s) +
    match owner r with
    | Some ow => sat_sub (held_axis ax (owner_get s ow)) (res_axis ax r)
                 - held_axis ax (owner_get s ow)
    | None => 0
    end.
Proof.
  unfold release. destruct (owner r) as [ow|]; [|simpl; lia].
  rewrite held_sum_prune, held_sum_set, held_axis_mk, axis_saturating_sub,
    owner_get_set_available.
  change (owners (set_available _ s)) with (owners s). unfold held_axis, res_axis. lia.
Qed.

Lemma held_sum_register ax s o amt :
  msum (held_axis ax) (owners (register s o amt).1) = msum (held_axis ax) (owners s).
Proof.
  unfold register. destruct o as [ow|]; [|done]. cbn -[set_owner msum].
  rewrite held_sum_set. unfold held_axis. simpl. unfold owner_get; simpl. lia.
Qed.

Lemma held_sum_withdraw ax now s o t sk :
  msum (held_axis ax) (owners (withdraw now s o t sk).1) = msum (held_axis ax) (owners s).
Proof.
  unfold withdraw. destruct t as [t|], o as [ow|]; try done. cbn -[set_owner prune msum].
  rewrite held_sum_prune, held_sum_set. unfold held_axis. simpl. unfold owner_get; simpl. lia.
Qed.

Lemma charge_fields s o amt :
  total (charge s o amt) = total s /\
  available (charge s o amt) = saturating_sub (available s) amt /\
  waiting (charge s o amt) = waiting s /\ next_id (charge s o amt) = next_id s.
Proof. unfold charge. by destruct o. Qed.

Lemma release_fields s r :
  let a := saturating_add (available s) (amount r) in
  total (release s r) = total s /\
  available (release s r) = (if fits_in a (total s) then a else total s) /\
  waiting (release s r) = waiting s /\ next_id (release s r) = next_id s.
Proof.
  unfold release. destruct (owner r) as [ow|]; [|done].
  match goal with |- context [prune ow ?x] => pose proof (prune_fields ow x) end.
  naive_solver.
Qed.

Lemma register_fields s o amt :
  let '(s', t) := register s o amt in
  total s' = total s /\ available s' = available s /\
  waiting s' = <[t := amt]> (waiting s) /\ next_id s' = t /\ t = next_id s + 1.
Proof. unfold register. by destruct o. Qed.

Lemma withdraw_fields now s o t sk :
  let s' := (withdraw now s o (Some t) sk).1 in
  total s' = total s /\ available s' = available s /\
  waiting s' = delete t (waiting s) /\ next_id s' = next_id s.
Proof.
  unfold withdraw. destruct o as [ow|]; [|done]. cbn -[prune].
  match goal with |- context [prune ow ?x] => pose proof (prune_fields ow x) end.
  naive_solver.
Qed.

(** Sums of the parts of reservations. *)
Lemma res_of_bounds ax o (lv : gmap Z reservation) :
  (forall ax id r, lv !! id = Some r -> 0 <= res_axis ax r) ->
  0 <= msum (res_of ax o) lv <= msum (res_axis ax) lv.
Proof.
  intros Hl. split.
  - apply msum_nonneg. intros k r Hk. unfold res_of. case_decide; [eauto|lia].
  - apply msum_mono. intros k r Hk. pose proof (Hl ax k r Hk). unfold res_of.
    case_decide; lia.
Qed.

(** ** Preservation, one block at a time *)

Lemma inv_charge s lv pk o amt id :
  pool_inv s lv pk -> ra_ok amt -> fits_in amt (available s) = true -> lv !! id = None ->
  pool_inv (charge s o amt) (<[id := Reservation amt o]> lv) pk.
Proof.
  intros [Hc Hl Ha Ht Hh Ho Hw Hr Htk] Hok Hfit Hid.
  pose proof (proj1 (fits_in_axis _ _) Hfit) as Hf.
  destruct (charge_fields s o amt) as (E1 & E2 & E3 & E4).
  assert (Hn : forall ax, 0 <= axis ax amt) by (intros ax; pose proof (ra_ok_axis amt ax Hok); lia).
  assert (Hsat : forall ax x, sat_add (axis_max ax) (held_axis ax (owner_get s x)) (axis ax amt) =
    held_axis ax (owner_get s x) + axis ax amt).
  { intros ax x. apply sat_add_exact. rewrite Hh.
    pose proof (res_of_bounds ax x lv Hl). pose proof (Hc ax). pose proof (Hf ax).
    pose proof (Ht ax). lia. }
  split.
  - intros ax. rewrite E1, E2, msum_insert_new, axis_saturating_sub, sat_sub_exact by auto.
    unfold res_axis at 1; simpl. pose proof (Hc ax). lia.
  - intros ax k r. rewrite lookup_insert. case_decide; [|eauto]. intros [= <-]. apply Hn.
  - intros ax. rewrite E2, axis_saturating_sub. unfold sat_sub. lia.
  - intros ax. by rewrite E1.
  - intros ax x. rewrite owner_get_charge, msum_insert_new by done.
    unfold res_of at 1; simpl. case_decide; [|rewrite Hh; lia].
    rewrite held_axis_mk, axis_saturating_add.
    fold (held_axis ax (owner_get s x)). rewrite Hsat, Hh. unfold res_axis; simpl; lia.
  - intros ax. rewrite held_sum_charge, msum_insert_new by done.
    assert (res_owned ax (Reservation amt o) =
      match o with Some _ => axis ax amt | None => 0 end) as -> by done.
    rewrite Ho. destruct o; [rewrite Hsat|]; lia.
  - intros x. rewrite owner_get_charge. case_decide; simpl; apply Hw.
  - by rewrite E3.
  - intros t w Hw'. rewrite E4. eauto.
Qed.

Lemma inv_release s lv pk id r :
  pool_inv s lv pk -> lv !! id = Some r ->
  pool_inv (release s r) (delete id lv) pk.
Proof.
  intros [Hc Hl Ha Ht Hh Ho Hw Hr Htk] Hid.
  destruct (release_fields s r) as (E1 & E2 & E3 & E4).
  assert (Hadd : forall ax, axis ax (saturating_add (available s) (amount r)) =
     axis ax (available s) + res_axis ax r /\
     axis ax (available s) + res_axis ax r <= axis ax (total s)).
  { intros ax. rewrite axis_saturating_add. pose proof (Hc ax). pose proof (Ht ax).
    pose proof (msum_ge (res_axis ax) lv id r (Hl ax) Hid). unfold res_axis in *.
    rewrite sat_add_exact; lia. }
  assert (Hfit : fits_in (saturating_add (available s) (amount r)) (total s) = true).
  { apply fits_in_axis. intros ax. destruct (Hadd ax) as [-> ?]. lia. }
  rewrite Hfit in E2.
  assert (Hsub : forall ax x, owner r = Some x ->
    sat_sub (held_axis ax (owner_get s x)) (res_axis ax r) =
    held_axis ax (owner_get s x) - res_axis ax r).
  { intros ax x Hx. apply sat_sub_exact. rewrite Hh.
    assert (Hr1 : res_of ax x r = res_axis ax r) by (unfold res_of; by rewrite decide_True).
    rewrite <- Hr1. apply msum_ge with id; [|done]. intros k r' Hk. unfold res_of.
    case_decide; [eauto|lia]. }
  split.
  - intros ax. rewrite E1, E2, (proj1 (Hadd ax)), msum_delete_total, Hid. simpl.
    pose proof (Hc ax). lia.
  - intros ax k r' Hk. apply lookup_delete_Some in Hk as [_ Hk]. eauto.
  - intros ax. rewrite E2, (proj1 (Hadd ax)). pose proof (Ha ax). pose proof (Hl ax id r Hid). lia.
  - intros ax. by rewrite E1.
  - intros ax x. rewrite owner_get_release, msum_delete_total, Hid. simpl.
    unfold res_of at 2. case_decide as Hx; [|rewrite Hh; lia].
    rewrite held_axis_mk, axis_saturating_sub.
    fold (held_axis ax (owner_get s x)). fold (res_axis ax r).
    rewrite Hsub, Hh by done. lia.
  - intros ax. rewrite held_sum_release, msum_delete_total, Hid, Ho. simpl.
    assert (res_owned ax r = match owner r with Some _ => res_axis ax r | None => 0 end)
      as -> by done.
    destruct (owner r) eqn:Eo; [rewrite Hsub by done|]; lia.
  - intros x. rewrite owner_get_release. case_decide; simpl; apply Hw.
  - by rewrite E3.
  - intros t w Hw'. rewrite E4. eauto.
Qed.

Lemma inv_register s lv pk o amt b :
  pool_inv s lv pk ->
  pool_inv (register s o amt).1 lv (<[(register s o amt).2 := Waiter o amt b]> pk).
Proof.
  intros [Hc Hl Ha Ht Hh Ho Hw Hr Htk].
  pose proof (register_fields s o amt) as Hf.
  pose proof (owner_get_register s o amt) as Hg.
  pose proof (fun ax => held_sum_register ax s o amt) as Hs.
  destruct (register s o amt) as [s' t]; simpl in *. destruct Hf as (E1 & E2 & E3 & E4 & E5).
  assert (Hfresh : pk !! t = None).
  { destruct (pk !! t) eqn:E; [|done]. apply Htk in E. lia. }
  split; intros; rewrite ?E1, ?E2, ?Hs; auto.
  - eauto.
  - rewrite Hg. case_decide; [|auto]. rewrite held_axis_mk. apply Hh.
  - rewrite Hg, msum_insert_new by done. unfold waits_for at 1; simpl.
    case_decide; simpl; rewrite Hw; lia.
  - rewrite E3, fmap_insert, Hr. done.
  - match goal with H : <[_ := _]> _ !! _ = _ |- _ => rename H into Hlk end.
    rewrite lookup_insert in Hlk. case_decide; [lia|]. apply Htk in Hlk. lia.
Qed.

Lemma inv_withdraw now s lv pk o t sk w :
  pool_inv s lv pk -> pk !! t = Some w -> w_owner w = o ->
  pool_inv (withdraw now s o (Some t) sk).1 lv (delete t pk).
Proof.
  intros [Hc Hl Ha Ht Hh Ho Hw Hr Htk] Hpk Hwo.
  pose proof (withdraw_fields now s o t sk) as Hf.
  pose proof (owner_get_withdraw now s o t sk) as Hg.
  pose proof (fun ax => held_sum_withdraw ax now s o (Some t) sk) as Hs.
  destruct (withdraw now s o (Some t) sk) as [s' sk']; simpl in *.
  destruct Hf as (E1 & E2 & E3 & E4).
  split; intros; rewrite ?E1, ?E2, ?Hs; auto.
  - eauto.
  - rewrite Hg. case_decide; [|auto]. rewrite held_axis_mk. apply Hh.
  - rewrite Hg, msum_delete_total, Hpk. simpl. unfold waits_for at 2. rewrite Hwo.
    case_decide as Hx; simpl; rewrite Hw; [|lia].
    apply sat_sub_exact.
    assert (H1 : waits_for o0 w = 1) by (unfold waits_for; rewrite Hwo; by rewrite decide_True).
    rewrite <- H1. apply msum_ge with t; [|done]. intros; apply waits_for_nonneg.
  - rewrite E3, fmap_delete, Hr. done.
  - match goal with H : delete _ _ !! _ = _ |- _ => rename H into Hlk end.
    apply lookup_delete_Some in Hlk as [_ Hlk]. rewrite E4. eauto.
Qed.

Lemma inv_parked_ext s lv pk pk' :
  pool_inv s lv pk ->
  (forall t, (fun w => (w_owner w, w_amount w)) <$> pk' !! t =
             (fun w => (w_owner w, w_amount w)) <$> pk !! t) ->
  pool_inv s lv pk'.
Proof.
  intros [Hc Hl Ha Ht Hh Ho Hw Hr Htk] Heq. split; auto.
  - intros o. rewrite Hw.
    set (g := fun p : option owner_id * resource_amount => if decide (p.1 = Some o) then 1 else 0).
    assert (Hm : forall m : gmap Z waiter,
      msum (waits_for o) m = msum g ((fun w => (w_owner w, w_amount w)) <$> m)).
    { intros m. unfold msum. rewrite map_fold_fmap. done. }
    rewrite !Hm. f_equal. apply map_eq. intros t. by rewrite !lookup_fmap, Heq.
  - rewrite Hr. apply map_eq. intros t. rewrite !lookup_fmap.
    specialize (Heq t). destruct (pk' !! t), (pk !! t); simpl in *; congruence.
  - intros t w Hk. specialize (Heq t). rewrite Hk in Heq.
    destruct (pk !! t) eqn:E; [|done]. eauto.
Qed.

Lemma inv_notify s lv pk : pool_inv s lv pk -> pool_inv s lv (notify_all pk).
Proof.
  intros Hi. eapply inv_parked_ext; [done|]. intros t. unfold notify_all.
  rewrite lookup_fmap. by destruct (pk !! t).
Qed.

Lemma inv_bump s lv pk : pool_inv s lv pk -> pool_inv (bump_id s).1 lv pk.
Proof.
  intros [Hc Hl Ha Ht Hh Ho Hw Hr Htk]. split; auto. intros t w Hk. apply Htk in Hk. simpl. lia.
Qed.

(** ** Preservation by every operation *)


(** The ticket a turn starts with is the thread's own. *)
Definition ticket_ok (pk : gmap Z waiter) (o : option owner_id) (amt : resource_amount)
    (ticket : option Z) : Prop :=
  match ticket with
  | None => True
  | Some t => exists b, pk !! t = Some (Waiter o amt b)
  end.

Definition turn_inv (s' : pool_state) (lv : gmap Z reservation) (pk : gmap Z waiter)
    (o : option owner_id) (amt : resource_amount) (ticket : option Z) (turn : acquire_turn) : Prop :=
  match turn with
  | Granted r => r = Reservation amt o /\
      forall id, lv !! id = None -> pool_inv s' (<[id := r]> lv) (drop_ticket ticket pk)
  | Refused _ => pool_inv s' lv (drop_ticket ticket pk)
  | Parked t => pool_inv s' lv (<[t := Waiter o amt false]> (drop_ticket ticket pk)) /\
      (forall t', ticket = Some t' -> t' = t)
  end.

(** Taking what was asked for, and giving a ticket of the waiting set back. *)
Lemma inv_grant now s lv pk o amt ticket sk :
  pool_inv s lv pk -> ra_ok amt -> ticket_ok pk o amt ticket -> fits_in amt (available s) = true ->
  let s1 := (withdraw now s o ticket sk).1 in
  turn_inv (charge s1 o amt) lv pk o amt ticket (Granted (Reservation amt o)) /\ total (charge s1 o amt) = total s.
Proof.
  intros Hi Hok Htk Hfit s1. destruct (charge_fields s1 o amt) as (-> & _).
  assert (Hs1 : pool_inv s1 lv (drop_ticket ticket pk) /\ available s1 = available s /\ total s1 = total s).
  { destruct ticket as [t|]; [|done]. destruct Htk as [b Hb].
    pose proof (withdraw_fields now s o t sk) as (E1 & E2 & _).
    split_and!; [exact (inv_withdraw now s lv pk o t sk _ Hi Hb eq_refl)|done|done]. }
  destruct Hs1 as (H1 & Ea & Et). split; [|done]. split; [done|].
  intros id Hid. apply inv_charge; auto. by rewrite Ea.
Qed.

(** Joining the waiting set, or staying there. *)
Definition enlist (now : Z) (s : pool_state) (o : option owner_id) (amt : resource_amount) (ticket : option Z)
    (sink : option wait_sink) : pool_state * Z * option wait_sink :=
  match ticket with
  | Some t => (s, t, sink)
  | None => let '(s', t) := register s o amt in (s', t, sink_park now sink)
  end.

Lemma inv_enlist now s lv pk o amt ticket sk s1 t sk1 :
  pool_inv s lv pk -> ticket_ok pk o amt ticket -> enlist now s o amt ticket sk = (s1, t, sk1) ->
  pool_inv s1 lv (<[t := Waiter o amt false]> (drop_ticket ticket pk)) /\
  delete t (<[t := Waiter o amt false]> (drop_ticket ticket pk)) = drop_ticket ticket pk /\
  total s1 = total s /\ (forall t', ticket = Some t' -> t' = t) /\ (ticket = None -> pk !! t = None).
Proof.
  intros Hi Htk Hrun. destruct ticket as [t0|]; simpl in *.
  - simplify_eq. destruct Htk as [b Hb].
    split_and!; [|by rewrite delete_insert_eq, delete_delete_eq|done|by intros ? [= ->]|done].
    eapply inv_parked_ext; [done|]. intros t'. rewrite lookup_insert.
    case_decide; subst; [by rewrite Hb|]. by rewrite lookup_delete_ne.
  - pose proof (inv_register s lv pk o amt false Hi) as H1. pose proof (register_fields s o amt) as Hf.
    destruct (register s o amt) as [s2 t2]. simplify_eq. simpl in *. destruct Hf as (E1 & _ & _ & _ & E5).
    assert (Hno : pk !! t = None).
    { destruct (pk !! t) eqn:E; [|done]. apply (inv_tickets _ _ _ Hi) in E. lia. }
    split_and!; auto; [|done]. by apply delete_insert_id.
Qed.

Lemma inv_acquire_poll now s lv pk o amt ticket sk s' sk' turn :
  pool_inv s lv pk -> ra_ok amt -> ticket_ok pk o amt ticket ->
  acquire_poll now s o amt ticket sk = (s', sk', turn) ->
  turn_inv s' lv pk o amt ticket turn /\ total s' = total s.
Proof.
  intros Hi Hok Htk Hrun. unfold acquire_poll in Hrun. change (match ticket with Some _ => _ | None => _ end)
    with (enlist now s o amt ticket sk) in Hrun.
  destruct (fits_in amt (available s)) eqn:Hfit; simpl in Hrun.
  - pose proof (inv_grant now s lv pk o amt ticket sk Hi Hok Htk Hfit) as Hg.
    destruct (withdraw now s o ticket sk) as [s1 sk1]. by simplify_eq.
  - destruct (enlist now s o amt ticket sk) as [[s1 t] sk1] eqn:Ereg.
    destruct (inv_enlist _ _ _ _ _ _ _ _ _ _ _ Hi Htk Ereg) as (H1 & Hdel & Ht & Htt & _).
    assert (Hpark : (s1, sk1, Parked t) = (s', sk', turn) ->
      turn_inv s' lv pk o amt ticket turn /\ total s' = total s) by (intros [= <- <- <-]; by split_and!).
    destruct o as [ow|]; [|auto]. destruct (deadlock s1 amt) as [d|]; [|auto].
    destruct (withdraw now s1 (Some ow) (Some t) sk1) as [s2 sk2] eqn:Ew.
    injection Hrun as <- <- <-. replace s2 with (withdraw now s1 (Some ow) (Some t) sk1).1
      by (by rewrite Ew).
    pose proof (withdraw_fields now s1 (Some ow) t sk1) as (E1 & _).
    split; [|exact (eq_trans E1 Ht)].
    pose proof (inv_withdraw now s1 lv _ (Some ow) t sk1 _ H1
      (lookup_insert_eq _ _ _) eq_refl) as H2.
    rewrite Hdel in H2. exact H2.
Qed.

Lemma init_inv tot : ra_ok tot -> config_inv tot (init tot).
Proof.
  intros Hok. split; simpl; try done.
  split; simpl; intros; rewrite ?msum_empty; try done;
    try (pose proof (ra_ok_axis tot ax Hok); lia).
  apply axis_zero.
Qed.

Lemma drop_ticket_lookup ticket ws t (w : waiter) :
  drop_ticket ticket ws !! t = Some w -> ws !! t = Some w.
Proof. destruct ticket; simpl; [|done]. by intros [_ ?]%lookup_delete_Some. Qed.

(** A turn of an acquire, entered or woken, keeps the configuration sound. *)
Lemma settle_turn_inv tot c ticket o amt s' turn :
  config_inv tot c -> ra_ok amt -> fits_in amt tot = true ->
  turn_inv s' (live c) (parked c) o amt ticket turn -> total s' = total (pool c) ->
  config_inv tot (settle c ticket o amt s' turn).
Proof.
  intros [Hp Ht Hf Hw] Hok Hfit Hturn Htot.
  destruct turn as [r|e|t]; simpl in *.
  - destruct Hturn as [-> Hi]. split; simpl.
    + apply Hi. destruct (live c !! next_res c) eqn:E; [|done]. apply Hf in E. lia.
    + congruence.
    + intros id r. rewrite lookup_insert. case_decide; [lia|]. intros ?%Hf. lia.
    + intros t w Hl. eapply Hw, drop_ticket_lookup, Hl.
  - split; simpl; auto; [congruence|]. intros t w Hl. eapply Hw, drop_ticket_lookup, Hl.
  - destruct Hturn as [Hi _]. split; simpl; auto; [congruence|].
    intros t' w. rewrite lookup_insert. case_decide.
    + by intros [= <-].
    + intros Hl. eapply Hw, drop_ticket_lookup, Hl.
Qed.

Lemma settle_inv tot c ticket o amt now sk s' sk' turn :
  config_inv tot c -> ra_ok amt -> fits_in amt tot = true ->
  ticket_ok (parked c) o amt ticket ->
  acquire_poll now (pool c) o amt ticket sk = (s', sk', turn) ->
  config_inv tot (settle c ticket o amt s' turn).
Proof.
  intros Hc Hok Hfit Htk Hrun.
  apply (inv_acquire_poll _ _ _ _ _ _ _ _ _ _ _ (cinv_pool _ _ Hc) Hok Htk) in Hrun as [Hturn Htot].
  by apply settle_turn_inv.
Qed.

Lemma exec_inv tot c x c' r :
  config_inv tot c -> op_ok x -> exec c x = Some (c', r) -> config_inv tot c'.
Proof.
  intros Hc Hx Hrun. pose proof Hc as [Hp Ht Hf Hw].
  destruct x as [|o amt|t|o amt|id]; simpl in Hrun.
  - simplify_eq. split; simpl; auto. by apply inv_bump.
  - unfold acquire_inner in Hrun.
    destruct (fits_in amt (total (pool c))) eqn:Hfit; simpl in Hrun.
    + destruct (acquire_poll 0 (pool c) o amt None None) as [[s' sk'] turn] eqn:E.
      simplify_eq. eapply settle_inv; eauto. done.
    + by simplify_eq.
  - destruct (parked c !! t) as [w|] eqn:Hpk; [|done].
    destruct (acquire_poll 0 (pool c) (w_owner w) (w_amount w) (Some t) None)
      as [[s' sk'] turn] eqn:E.
    simplify_eq. destruct (Hw t w Hpk). eapply settle_inv; eauto. exists (notified w). by destruct w.
  - unfold try_acquire_inner in Hrun.
    destruct (fits_in amt (available (pool c))) eqn:Hfit; simpl in Hrun; simplify_eq; [|by destruct c].
    destruct (charge_fields (pool c) o amt) as (E1 & _).
    split; simpl; auto; try congruence.
    + apply inv_charge; auto. destruct (live c !! next_res c) eqn:E; [|done]. apply Hf in E. lia.
    + intros id r'. rewrite lookup_insert. case_decide; [lia|]. intros ?%Hf. lia.
  - destruct (live c !! id) as [r'|] eqn:Hid; [|done]. simplify_eq.
    destruct (release_fields (pool c) r') as (E1 & _).
    split; simpl; try congruence.
    + by apply inv_notify, inv_release.
    + intros k r. intros [_ Hk]%lookup_delete_Some. eauto.
    + intros t w. unfold notify_all. rewrite lookup_fmap, fmap_Some.
      intros (w0 & Hw0 & ->). simpl. eauto.
Qed.

Lemma step_inv tot c c' : config_inv tot c -> step c c' -> config_inv tot c'.
Proof. intros Hc [x c'' t Hx Hrun]. eapply exec_inv; eauto. Qed.

Lemma reachable_inv tot c : ra_ok tot -> reachable tot c -> config_inv tot c.
Proof.
  intros Hok Hr. apply (rtc_invariant (config_inv tot) step (init tot) c);
    eauto using step_inv, init_inv.
Qed.

(** * The verdict *)

(** A hold-and-wait cycle, in terms of reservations and threads alone: some
    of the pool is out, whoever has any of it is parked, and what is free
    serves no parked request. *)
Definition hold_and_wait (c : config) : Prop :=
  (exists id r, live c !! id = Some r /\ is_zero (amount r) = false) /\
  (forall id r, live c !! id = Some r -> is_zero (amount r) = false ->
     exists o t w, owner r = Some o /\ parked c !! t = Some w /\ w_owner w = Some o) /\
  (forall t w, parked c !! t = Some w -> fits_in (w_amount w) (available (pool c)) = false).

Lemma foldl_saturating ax os acc :
  0 <= axis ax acc <= axis_max ax ->
  (forall o, o ∈ os -> 0 <= held_axis ax o) ->
  axis ax (foldl (fun acc o => saturating_add acc (held o)) acc os) =
    Z.min (axis_max ax) (axis ax acc + lsum (held_axis ax) os).
Proof.
  revert acc. induction os as [|o os IH]; intros acc Hacc Hall; simpl; [lia|].
  pose proof (Hall o ltac:(by left)) as H0. unfold held_axis in H0.
  assert (Hall' : forall o, o ∈ os -> 0 <= held_axis ax o) by (intros; apply Hall; by right).
  pose proof (lsum_nonneg _ _ Hall').
  change (held_axis ax o) with (axis ax (held o)).
  rewrite IH; auto; rewrite axis_saturating_add; unfold sat_add; lia.
Qed.

Lemma count_holders_spec os n :
  match count_holders os n with
  | Some k =>
      (forall o, o ∈ os -> is_zero (held o) = false -> ow_waiting o <> 0) /\ n <= k /\
      (k = n <-> forall o, o ∈ os -> is_zero (held o) = true)
  | None => exists o, o ∈ os /\ is_zero (held o) = false /\ ow_waiting o = 0
  end.
Proof.
  revert n. induction os as [|o os IH]; intros n; simpl.
  - split_and!; [by intros ? ?%elem_of_nil|lia|]. split; [|done]. by intros _ ? ?%elem_of_nil.
  - destruct (is_zero (held o)) eqn:Ez; simpl.
    + specialize (IH n). destruct (count_holders os n) as [k|].
      * destruct IH as (H1 & H2 & H3). split_and!; [|done|].
        -- intros o' [->|Ho']%elem_of_cons; [congruence|auto].
        -- rewrite H3. split; intros H o' Ho'.
           ++ apply elem_of_cons in Ho' as [->|Ho']; auto.
           ++ apply H. by right.
      * destruct IH as (o' & Ho' & ?). exists o'. split; [by right|done].
    + destruct (Z.eqb_spec (ow_waiting o) 0) as [Hw|Hw].
      * exists o. split; [by left|done].
      * specialize (IH (n + 1)). destruct (count_holders os (n + 1)) as [k|].
        -- destruct IH as (H1 & H2 & H3). split_and!; [|lia|].
           ++ intros o' [->|Ho']%elem_of_cons; [done|auto].
           ++ split; [lia|]. intros H. specialize (H o ltac:(by left)). congruence.
        -- destruct IH as (o' & Ho' & ?). exists o'. split; [by right|done].
Qed.

Section Verdict.
Context (c : config) (tot : resource_amount) (Hc : config_inv tot c).

#[local] Abbreviation s := (pool c).

Let Hp : pool_inv s (live c) (parked c) := cinv_pool _ _ Hc.

Lemma owner_zero_iff o :
  is_zero (held (owner_get s o)) = true <->
  forall id r, live c !! id = Some r -> owner r = Some o -> is_zero (amount r) = true.
Proof.
  assert (Hnn : forall ax k r, live c !! k = Some r -> 0 <= res_of ax o r).
  { intros ax k r Hk. unfold res_of. case_decide; [|lia]. by eapply (inv_live _ _ _ Hp). }
  rewrite is_zero_axis. split.
  - intros Hz id r Hid Ho. apply is_zero_axis. intros ax.
    specialize (Hz ax). fold (held_axis ax (owner_get s o)) in Hz.
    rewrite (inv_held _ _ _ Hp) in Hz.
    pose proof (msum_zero_inv _ _ id r (Hnn ax) Hz Hid) as H0.
    unfold res_of in H0. rewrite decide_True in H0 by done. done.
  - intros Hall ax. fold (held_axis ax (owner_get s o)). rewrite (inv_held _ _ _ Hp).
    apply msum_zero. intros k r Hk. unfold res_of. case_decide as Ho; [|done].
    by apply is_zero_axis, (Hall k r).
Qed.

Lemma owner_waiting_iff o :
  ow_waiting (owner_get s o) <> 0 <->
  exists t w, parked c !! t = Some w /\ w_owner w = Some o.
Proof.
  rewrite (inv_waiting _ _ _ Hp). split.
  - intros Hnz. destruct (msum_pos_inv (waits_for o) (parked c)) as (t & w & Hw & Hpos).
    + intros; apply waits_for_nonneg.
    + pose proof (msum_nonneg (waits_for o) (parked c) ltac:(intros; apply waits_for_nonneg)). lia.
    + exists t, w. unfold waits_for in Hpos. case_decide; [done|lia].
  - intros (t & w & Hw & Ho).
    pose proof (msum_ge (waits_for o) (parked c) t w ltac:(intros; apply waits_for_nonneg) Hw) as H.
    unfold waits_for at 1 in H. rewrite decide_True in H by done. lia.
Qed.

Lemma owner_value_iff os :
  os ∈ owner_values s -> exists o, owner_get s o = os.
Proof.
  intros (o & Ho)%elem_of_map_values. exists o. unfold owner_get. by rewrite Ho.
Qed.

(** A holder has an entry. *)
Lemma owner_holder_value o :
  is_zero (held (owner_get s o)) = false -> owner_get s o ∈ owner_values s.
Proof.
  intros Hz. apply elem_of_map_values. exists o. unfold owner_get in *.
  by destruct (owners s !! o).
Qed.

Lemma held_nonneg ax o : 0 <= held_axis ax (owner_get s o).
Proof.
  rewrite (inv_held _ _ _ Hp). apply (res_of_bounds ax o (live c)). apply (inv_live _ _ _ Hp).
Qed.

(** What the owners hold together is what is out, exactly when nothing is
    out anonymously. *)
Lemma owned_eq_iff :
  owned s = saturating_sub (total s) (available s) <->
  forall id r, live c !! id = Some r -> owner r = None -> is_zero (amount r) = true.
Proof.
  assert (Howned : forall ax, axis ax (owned s) = msum (res_owned ax) (live c)).
  { intros ax. unfold owned. rewrite foldl_saturating.
    - unfold owner_values. rewrite axis_zero, <- msum_values, (inv_owned _ _ _ Hp).
      assert (msum (res_owned ax) (live c) <= msum (res_axis ax) (live c)).
      { apply msum_mono. intros k r Hk. pose proof (inv_live _ _ _ Hp ax k r Hk).
        unfold res_owned. case_match; lia. }
      pose proof (inv_conserved _ _ _ Hp ax). pose proof (inv_total _ _ _ Hp ax).
      pose proof (inv_available _ _ _ Hp ax). lia.
    - rewrite axis_zero. destruct ax; simpl; unfold u64_max, u32_max; lia.
    - intros o (x & <-)%owner_value_iff. apply held_nonneg. }
  assert (Hout : forall ax, axis ax (saturating_sub (total s) (available s)) =
                            msum (res_axis ax) (live c)).
  { intros ax. rewrite axis_saturating_sub. pose proof (inv_conserved _ _ _ Hp ax).
    assert (0 <= msum (res_axis ax) (live c)) by (apply msum_nonneg, (inv_live _ _ _ Hp)).
    rewrite sat_sub_exact; lia. }
  set (anon ax r := res_axis ax r - res_owned ax r).
  assert (Hsplit : forall ax, msum (res_axis ax) (live c) =
            msum (res_owned ax) (live c) + msum (anon ax) (live c)).
  { intros ax. rewrite <- msum_plus. apply msum_ext. unfold anon. intros; lia. }
  assert (Hann : forall ax k r, live c !! k = Some r -> 0 <= anon ax r).
  { intros ax k r Hk. pose proof (inv_live _ _ _ Hp ax k r Hk). unfold anon, res_owned.
    case_match; lia. }
  split.
  - intros Heq id r Hid Ho. apply is_zero_axis. intros ax.
    assert (Hz : msum (anon ax) (live c) = 0).
    { pose proof (Hsplit ax). rewrite <- Howned, <- Hout, Heq in H. lia. }
    pose proof (msum_zero_inv _ _ id r (Hann ax) Hz Hid) as H0.
    unfold anon, res_owned in H0. rewrite Ho in H0. unfold res_axis in H0. lia.
  - intros Hall. apply axis_ext. intros ax. rewrite Howned, Hout, Hsplit.
    rewrite (msum_zero (anon ax)); [lia|]. intros k r Hk. unfold anon, res_owned.
    destruct (owner r) eqn:Ho; [lia|].
    pose proof (proj1 (is_zero_axis _) (Hall k r Hk Ho) ax). unfold res_axis. lia.
Qed.

(** Holding is having a reservation that is not empty. *)
Lemma owner_holder_iff o :
  is_zero (held (owner_get s o)) = false <->
  exists id r, live c !! id = Some r /\ owner r = Some o /\ is_zero (amount r) = false.
Proof.
  rewrite <- not_true_iff_false, owner_zero_iff. split.
  - intros Hn.
    destruct (decide (Exists (fun kr => owner kr.2 = Some o /\ is_zero (amount kr.2) = false)
                        (map_to_list (live c)))) as [Hy|Hno].
    + apply Exists_exists in Hy as ([id r] & Hin & ? & ?).
      apply elem_of_map_to_list in Hin. eauto.
    + exfalso. apply Hn. intros id r Hid Ho. apply not_false_iff_true. intros Hnz.
      apply Hno, Exists_exists. exists (id, r). split; [by apply elem_of_map_to_list|done].
  - intros (id & r & Hid & Ho & Hnz) Hall. rewrite (Hall id r Hid Ho) in Hnz. done.
Qed.

Definition parked_owner (o : owner_id) : Prop :=
  exists t w, parked c !! t = Some w /\ w_owner w = Some o.

(** The loop over the owners decides whether every holder is parked. *)
Lemma holders_iff :
  match count_holders (owner_values s) 0 with
  | Some k =>
      (forall o, is_zero (held (owner_get s o)) = false -> parked_owner o) /\
      (k <> 0 <-> exists o, is_zero (held (owner_get s o)) = false)
  | None => exists o, is_zero (held (owner_get s o)) = false /\ ~ parked_owner o
  end.
Proof.
  pose proof (count_holders_spec (owner_values s) 0) as Hcount.
  destruct (count_holders (owner_values s) 0) as [k|].
  - destruct Hcount as (Hpark & _ & Hk). split.
    + intros o Ho. apply owner_waiting_iff, Hpark; [by apply owner_holder_value|done].
    + rewrite Hk. split.
      * intros Hn.
        assert (Hn' : ~ Forall (fun os => is_zero (held os) = true) (owner_values s))
          by (intros HF; apply Hn; by apply Forall_forall).
        apply not_Forall_Exists in Hn'; [|apply _].
        apply Exists_exists in Hn' as (os & (o & <-)%owner_value_iff & Hz).
        exists o. by apply not_true_iff_false.
      * intros (o & Ho) Hall. rewrite Hall in Ho; [done|]. by apply owner_holder_value.
  - destruct Hcount as (os & (o & <-)%owner_value_iff & Hz & Hw).
    exists o. split; [done|]. intros Hpo. by apply owner_waiting_iff in Hpo.
Qed.

(** No parked request fits in what is free. *)
Lemma none_fits_iff :
  existsb (fun w => fits_in w (available s)) (map_to_list (waiting s)).*2 = false <->
  (forall t w, parked c !! t = Some w -> fits_in (w_amount w) (available s) = false).
Proof.
  rewrite <- not_true_iff_false, existsb_exists. rewrite (inv_requests _ _ _ Hp). split.
  - intros Hn t w Hw. apply not_true_iff_false. intros Hf. apply Hn. exists (w_amount w).
    split; [|done]. apply list_elem_of_In, elem_of_map_values. exists t.
    by rewrite lookup_fmap, Hw.
  - intros Hall (a & Ha & Hf). apply list_elem_of_In, elem_of_map_values in Ha as (t & Ht).
    rewrite lookup_fmap, fmap_Some in Ht. destruct Ht as (w & Hw & ->).
    rewrite (Hall t w Hw) in Hf. done.
Qed.

Lemma deadlock_hold_and_wait req :
  is_Some (deadlock s req) <-> hold_and_wait c.
Proof.
  pose proof holders_iff as Hh. pose proof none_fits_iff as Hfree.
  pose proof owned_eq_iff as Hown. unfold deadlock, hold_and_wait. split.
  - case_bool_decide as Heq; simpl; [|by intros [? ?]].
    destruct (count_holders (owner_values s) 0) as [k|]; [|by intros [? ?]].
    destruct Hh as [Hpark Hk].
    destruct (Z.eqb_spec k 0) as [|Hkn]; [by intros [? ?]|].
    destruct (existsb _ _) eqn:Hex; [by intros [? ?]|]. intros _.
    split_and!; [| |by apply Hfree].
    + destruct (proj1 Hk Hkn) as (o & (id & r & ? & _ & ?)%owner_holder_iff). eauto.
    + intros id r Hid Hnz. destruct (owner r) as [o|] eqn:Ho.
      * destruct (Hpark o) as (t & w & ? & ?); [apply owner_holder_iff; eauto|].
        by exists o, t, w.
      * rewrite (proj1 Hown Heq id r Hid Ho) in Hnz. done.
  - intros ((id & r & Hid & Hnz) & Hall & Hfits).
    rewrite bool_decide_true; simpl.
    2:{ apply Hown. intros id' r' Hid' Ho'. apply not_false_iff_true. intros Hnz'.
        destruct (Hall id' r' Hid' Hnz') as (o & _ & _ & Ho & _). congruence. }
    destruct (count_holders (owner_values s) 0) as [k|].
    2:{ destruct Hh as (o & (id' & r' & Hid' & Ho' & Hnz')%owner_holder_iff & Hn).
        destruct (Hall id' r' Hid' Hnz') as (o' & t & w & Ho'' & Hw' & Hwo).
        exfalso. apply Hn. exists t, w. split; [done|congruence]. }
    destruct Hh as [_ Hk]. destruct (Z.eqb_spec k 0) as [Hk0|Hk0].
    { exfalso. apply (proj2 Hk); [|done].
      destruct (Hall id r Hid Hnz) as (o & _ & _ & Ho & _). exists o.
      apply owner_holder_iff. eauto. }
    rewrite (proj2 Hfree Hfits). eauto.
Qed.
End Verdict.

(** How a turn ends, as far as the verdict is concerned. *)
Lemma poll_cases s o amt ticket s' sk' turn :
  acquire_poll 0 s o amt ticket None = (s', sk', turn) ->
  (turn = Granted (Reservation amt o) /\ fits_in amt (available s) = true /\
   available s' = saturating_sub (available s) amt) \/
  (fits_in amt (available s) = false /\ available s' = available s /\
   ((exists t, turn = Parked t /\ (o <> None -> deadlock s' amt = None)) \/
    (exists d, turn = Refused (DeadlockErr d) /\
       (ticket <> None -> deadlock s amt = Some d)))).
Proof.
  unfold acquire_poll. destruct (fits_in amt (available s)) eqn:Hfit; cbn [negb]; intros Hrun.
  - left. destruct (withdraw 0 s o ticket None) as [s1 sk1] eqn:Ew.
    injection Hrun as <- <- <-. destruct (charge_fields s1 o amt) as (_ & -> & _).
    split_and!; auto. destruct ticket as [t|]; [|by injection Ew as <- _].
    assert (E : available (withdraw 0 s o (Some t) None).1 = available s)
      by apply withdraw_fields.
    rewrite Ew in E. simpl in E. by rewrite E.
  - right. split; [done|].
    set (reg := match ticket with
      | Some t => (s, t, None)
      | None => let '(s', t) := register s o amt in (s', t, sink_park 0 None) end) in Hrun.
    destruct reg as [[s1 t] sk1] eqn:Ereg. subst reg. cbv beta iota in Hrun.
    assert (Ha : available s1 = available s /\ (ticket <> None -> s1 = s)).
    { destruct ticket; [by simplify_eq|]. pose proof (register_fields s o amt) as Hf.
      destruct (register s o amt). simplify_eq. destruct Hf as (_ & ? & _). done. }
    destruct Ha as [Ha Hs1].
    destruct o as [ow|].
    2:{ injection Hrun as <- <- <-. split; [done|]. left. by exists t. }
    destruct (deadlock s1 amt) as [d|] eqn:Ed.
    + assert (E : available (withdraw 0 s1 (Some ow) (Some t) sk1).1 = available s1)
        by apply withdraw_fields.
      destruct (withdraw 0 s1 (Some ow) (Some t) sk1) as [s2 sk2].
      injection Hrun as <- <- <-. simpl in E. split; [congruence|]. right.
      exists d. split; [done|]. intros Hn. by rewrite <- (Hs1 Hn).
    + injection Hrun as <- <- <-. split; [done|]. left. by exists t.
Qed.

(** * Properties *)

(** C10: in every interleaving of acquires, non-blocking acquires, wake-ups and
    releases the pool is conserved: what is free plus what live reservations
    hold is the total on both axes, so the pool is never overcommitted and no
    saturating operation ever saturates. *)
Theorem pool_conserved tot c :
  ra_ok tot -> reachable tot c ->
  memory_bytes (available (pool c)) + msum (fun r => memory_bytes (amount r)) (live c) =
    memory_bytes tot /\
  cpus (available (pool c)) + msum (fun r => cpus (amount r)) (live c) = cpus tot /\
  0 <= memory_bytes (available (pool c)) /\ 0 <= cpus (available (pool c)).
Proof.
  intros Hok Hr. destruct (reachable_inv tot c Hok Hr) as [Hp <- _ _].
  split_and!; [apply (inv_conserved _ _ _ Hp true)|apply (inv_conserved _ _ _ Hp false)
    |apply (inv_available _ _ _ Hp true)|apply (inv_available _ _ _ Hp false)].
Qed.

(** The per-owner bookkeeping is exact in every interleaving: an owner's
    recorded holdings are the sum of its live reservations, its recorded
    waiters are its parked threads, and [pending_count] is the number of
    parked threads. *)
Lemma pool_bookkeeping tot c :
  ra_ok tot -> reachable tot c ->
  (forall o, held (owner_get (pool c) o) =
     RA (msum (fun r => if decide (owner r = Some o) then memory_bytes (amount r) else 0) (live c))
        (msum (fun r => if decide (owner r = Some o) then cpus (amount r) else 0) (live c))) /\
  (forall o, ow_waiting (owner_get (pool c) o) =
     msum (fun w => if decide (w_owner w = Some o) then 1 else 0) (parked c)) /\
  pending_count (pool c) = Z.of_nat (size (parked c)).
Proof.
  intros Hok Hr. destruct (reachable_inv tot c Hok Hr) as [Hp _ _ _]. split_and!.
  - intros o. apply axis_ext. intros [];
      [apply (inv_held _ _ _ Hp true)|apply (inv_held _ _ _ Hp false)].
  - apply (inv_waiting _ _ _ Hp).
  - unfold pending_count. by rewrite (inv_requests _ _ _ Hp), map_size_fmap.
Qed.

(** C11: in every reachable state the verdict of [PoolState::deadlock] is the
    hold-and-wait condition itself: some of the pool is out, every holder has
    a parked thread, and no parked request fits in what is free. *)
Theorem deadlock_verdict_exact tot c req :
  ra_ok tot -> reachable tot c ->
  is_Some (deadlock (pool c) req) <-> hold_and_wait c.
Proof. intros Hok Hr. eapply deadlock_hold_and_wait. by apply reachable_inv. Qed.

(** A request is refused as too large exactly when it exceeds the pool's
    total, and a request that was ever parked is served by its next wake-up
    once nothing is out. *)
Lemma parked_request_served tot c :
  ra_ok tot -> reachable tot c ->
  (forall o amt, ra_ok amt ->
     (exists c', exec c (OpAcquire o amt) = Some (c', Some (Refused (ExceedsTotal amt tot)))) <->
     fits_in amt tot = false) /\
  ((forall id r, live c !! id = Some r -> is_zero (amount r) = true) ->
   forall t w, parked c !! t = Some w ->
   exists c', exec c (OpWake t) = Some (c', Some (Granted (Reservation (w_amount w) (w_owner w))))).
Proof.
  intros Hok Hr. pose proof (reachable_inv tot c Hok Hr) as Hc. split.
  - intros o amt _. cbn [exec]. unfold acquire_inner. rewrite (cinv_total _ _ Hc).
    destruct (fits_in amt tot) eqn:Hf; cbn [negb]; [|by split; [done|eauto]].
    split; [|done]. intros (c' & Hrun). exfalso.
    destruct (acquire_poll 0 (pool c) o amt None None) as [[s sk] turn] eqn:E.
    injection Hrun as _ ->.
    apply poll_cases in E as [(? & _)|(_ & _ & [(t & ? & _)|(d & ? & _)])]; done.
  - intros Hempty t w Hw. cbn [exec]. rewrite Hw. unfold acquire_poll.
    assert (Hall : available (pool c) = tot).
    { apply axis_ext. intros ax.
      pose proof (inv_conserved _ _ _ (cinv_pool _ _ Hc) ax) as Hcons.
      rewrite (cinv_total _ _ Hc) in Hcons. rewrite msum_zero in Hcons; [lia|].
      intros k r Hk. by apply is_zero_axis, (Hempty k r). }
    destruct (cinv_waits _ _ Hc t w Hw) as [_ Hfit]. rewrite Hall, Hfit. cbn [negb].
    destruct (withdraw 0 (pool c) (w_owner w) (Some t) None) as [s sk]. eauto.
Qed.

(** * Witnesses *)

Fixpoint run (c : config) (xs : list op) : option config :=
  match xs with
  | [] => Some c
  | x :: xs' => match exec c x with Some (c', _) => run c' xs' | None => None end
  end.

Lemma run_reachable c0 xs c :
  Forall op_ok xs -> run c0 xs = Some c -> rtc step c0 c.
Proof.
  revert c0. induction xs as [|x xs IH]; simpl; intros c0 HF Hrun.
  - by simplify_eq.
  - inversion HF; subst. destruct (exec c0 x) as [[c1 t]|] eqn:E; [|done].
    eapply rtc_l; [|by apply IH]. by econstructor.
Qed.

(** Two files hold a third of the pool each and want two thirds; the last
    third, held anonymously when they park, is released. *)
Definition demo_total : resource_amount := RA 3 3.
Definition demo_ops : list op :=
  [OpNewOwner; OpNewOwner; OpAcquire (Some 1) (RA 1 1); OpAcquire (Some 2) (RA 1 1);
   OpTryAcquire None (RA 1 1); OpAcquire (Some 1) (RA 2 2); OpAcquire (Some 2) (RA 2 2);
   OpRelease 2].
Definition demo_state : config := Eval vm_compute in default (init demo_total) (run (init demo_total) demo_ops).

Lemma demo_ops_ok : Forall op_ok demo_ops.
Proof.
  unfold demo_ops, op_ok, ra_ok, in_width, u64_max, u32_max.
  repeat (constructor; [simpl; lia|]). constructor.
Qed.

Lemma demo_total_ok : ra_ok demo_total.
Proof. unfold ra_ok, in_width, u64_max, u32_max; simpl; lia. Qed.

Lemma demo_run : run (init demo_total) demo_ops = Some demo_state.
Proof. vm_compute. reflexivity. Qed.

Lemma demo_reachable : reachable demo_total demo_state.
Proof. apply (run_reachable _ demo_ops); [apply demo_ops_ok|apply demo_run]. Qed.

Lemma demo_deadlocked : deadlock (pool demo_state) (RA 2 2) = Some (Deadlock (RA 2 2) (RA 1 1) (RA 3 3) 2 2).
Proof. vm_compute. reflexivity. Qed.

Lemma pool_conserved_witness :
  memory_bytes (available (pool demo_state)) = 1 /\
  memory_bytes (available (pool demo_state)) +
    msum (fun r => memory_bytes (amount r)) (live demo_state) = memory_bytes demo_total.
Proof.
  split; [vm_compute; reflexivity|].
  apply (pool_conserved demo_total demo_state demo_total_ok demo_reachable).
Defined.

Lemma pool_bookkeeping_witness :
  held (owner_get (pool demo_state) 1) = RA 1 1 /\
  pending_count (pool demo_state) = Z.of_nat (size (parked demo_state)).
Proof.
  split; [vm_compute; reflexivity|].
  apply (pool_bookkeeping demo_total demo_state demo_total_ok demo_reachable).
Defined.

Lemma deadlock_verdict_exact_witness :
  is_Some (deadlock (pool demo_state) (RA 2 2)) /\ hold_and_wait demo_state.
Proof.
  split; [rewrite demo_deadlocked; eauto|].
  apply (deadlock_verdict_exact demo_total demo_state (RA 2 2) demo_total_ok demo_reachable).
  rewrite demo_deadlocked; eauto.
Defined.

Definition idle_ops : list op :=
  [OpTryAcquire None (RA 2 2); OpAcquire None (RA 3 1); OpRelease 0].
Definition idle_state : config := Eval vm_compute in default (init demo_total) (run (init demo_total) idle_ops).

Lemma parked_request_served_witness :
  exists c', exec idle_state (OpWake 1) = Some (c', Some (Granted (Reservation (RA 3 1) None))).
Proof.
  assert (Hr : reachable demo_total idle_state).
  { apply (run_reachable _ idle_ops).
    - unfold idle_ops, op_ok, ra_ok, in_width, u64_max, u32_max.
      repeat (constructor; [simpl; lia|]). constructor.
    - vm_compute. reflexivity. }
  destruct (parked_request_served demo_total idle_state demo_total_ok Hr) as [_ H].
  apply (H ltac:(intros id r Hid; by vm_compute in Hid) 1 (Waiter None (RA 3 1) true)).
  vm_compute. reflexivity.
Defined.
