(* ===== verification/PoolLive.v ===== *)
(** What the deadlock verdict of the pool is worth. *)
From S2P Require Import Prelude Pool PoolSys.

(** * One thread per owner *)

(** An owner is a test file and a file runs on one thread: while that thread
    is parked the owner neither acquires nor releases anything. *)
Definition op_single (c : config) (x : op) : Prop :=
  match x with
  | OpAcquire (Some o) _ | OpTryAcquire (Some o) _ => ~ parked_owner c o
  | OpRelease id =>
      forall r o, live c !! id = Some r -> owner r = Some o -> ~ parked_owner c o
  | _ => True
  end.

Inductive step_single (c : config) (t : option acquire_turn) (c' : config) : Prop :=
| step_single_exec x : op_ok x -> op_single c x -> exec c x = Some (c', t) -> step_single c t c'.

Definition some_step_single (c c' : config) : Prop := exists t, step_single c t c'.

Definition reachable_single (tot : resource_amount) : config -> Prop :=
  rtc some_step_single (init tot).

Lemma step_single_step c t c' : step_single c t c' -> step c c'.
Proof. intros [x Hx _ Hrun]. by econstructor. Qed.

(** A pool without the detector: a turn of [acquire_poll] that cannot be granted
    parks, whatever the others are doing; everything else is as it is. *)
Definition plain_poll (now : Z) (s : pool_state) (o : option owner_id) (amt : resource_amount)
    (ticket : option Z) (sink : option wait_sink) : pool_state * option wait_sink * acquire_turn :=
  if negb (fits_in amt (available s)) then
    let '(s1, t, sink1) := enlist now s o amt ticket sink in (s1, sink1, Parked t)
  else
    let '(s1, sink1) := withdraw now s o ticket sink in
    (charge s1 o amt, sink1, Granted (Reservation amt o)).

Definition plain_exec (c : config) (x : op) : option (config * option acquire_turn) :=
  match x with
  | OpAcquire o amt =>
      if negb (fits_in amt (total (pool c))) then Some (c, Some (Refused (ExceedsTotal amt (total (pool c)))))
      else
        let '(s, _, turn) := plain_poll 0 (pool c) o amt None None in
        Some (settle c None o amt s turn, Some turn)
  | OpWake t =>
      match parked c !! t with
      | None => None
      | Some w =>
          let '(s, _, turn) := plain_poll 0 (pool c) (w_owner w) (w_amount w) (Some t) None in
          Some (settle c (Some t) (w_owner w) (w_amount w) s turn, Some turn)
      end
  | _ => exec c x
  end.

Inductive plain_step (c : config) (c' : config) : Prop :=
| plain_step_exec x t : op_ok x -> op_single c x -> plain_exec c x = Some (c', t) -> plain_step c c'.

(** * Frame properties of [exec] *)

Lemma exec_keeps_live tot c x c' t id r :
  config_inv tot c -> exec c x = Some (c', t) -> x <> OpRelease id ->
  live c !! id = Some r -> live c' !! id = Some r.
Proof.
  intros Hc Hrun Hx Hid.
  assert (Hne : next_res c <> id) by (pose proof (cinv_fresh _ _ Hc id r Hid); lia).
  destruct x as [|o amt|t0|o amt|id0]; simpl in Hrun.
  - by simplify_eq.
  - destruct (acquire_inner 0 (pool c) o amt None) as [[s sk] turn]. simplify_eq.
    destruct turn; simpl; auto. by rewrite lookup_insert_ne.
  - destruct (parked c !! t0) as [w|]; [|done].
    destruct (acquire_poll 0 _ _ _ _ _) as [[s sk] turn]. simplify_eq.
    destruct turn; simpl; auto. by rewrite lookup_insert_ne.
  - destruct (try_acquire_inner _ _ _) as [s [r'|]]; simplify_eq; simpl; auto.
    by rewrite lookup_insert_ne.
  - destruct (live c !! id0); [|done]. simplify_eq. simpl.
    rewrite lookup_delete_ne; [done|congruence].
Qed.

(** A fresh ticket is not in use. *)
Lemma acquire_fresh tot c o amt s sk turn t :
  config_inv tot c -> acquire_inner 0 (pool c) o amt None = (s, sk, turn) ->
  turn = Parked t -> parked c !! t = None.
Proof.
  intros Hc Hrun ->. unfold acquire_inner, acquire_poll in Hrun.
  pose proof (register_fields (pool c) o amt) as Hf.
  assert (Hfresh : forall t0, t0 = next_id (pool c) + 1 -> parked c !! t0 = None).
  { intros t0 ->. destruct (parked c !! (next_id (pool c) + 1)) eqn:E; [|done].
    apply (inv_tickets _ _ _ (cinv_pool _ _ Hc)) in E. lia. }
  destruct (register (pool c) o amt) as [s1 t1]. destruct Hf as (_ & _ & _ & _ & Ht1).
  repeat case_match; simplify_eq; auto.
Qed.

Definition same_wait (w w' : waiter) : Prop := w_owner w' = w_owner w /\ w_amount w' = w_amount w.

Lemma exec_keeps_parked tot c x c' t t0 w :
  config_inv tot c -> exec c x = Some (c', t) -> x <> OpWake t0 ->
  parked c !! t0 = Some w -> exists w', parked c' !! t0 = Some w' /\ same_wait w w'.
Proof.
  intros Hc Hrun Hx Hw.
  assert (Hkeep : forall ws : gmap Z waiter, ws !! t0 = Some w -> exists w', ws !! t0 = Some w' /\ same_wait w w')
    by (intros ws Hws; exists w; by repeat split).
  destruct x as [|o amt|t1|o amt|id0]; simpl in Hrun.
  - simplify_eq. auto.
  - destruct (acquire_inner 0 (pool c) o amt None) as [[s sk] turn] eqn:E. simplify_eq.
    destruct turn as [r|e|t2]; simpl; auto. apply Hkeep.
    rewrite lookup_insert_ne; [done|]. intros ->.
    by rewrite (acquire_fresh tot c o amt s sk (Parked t0) t0 Hc E eq_refl) in Hw.
  - destruct (parked c !! t1) as [w1|] eqn:Hw1; [|done].
    destruct (acquire_poll 0 _ _ _ _ _) as [[s sk] turn] eqn:E. simplify_eq.
    assert (Hd : delete t1 (parked c) !! t0 = Some w) by (rewrite lookup_delete_ne; congruence).
    destruct turn as [r|e|t2]; simpl; auto. apply Hkeep.
    assert (t1 = t2) as ->.
    { apply inv_acquire_poll with (lv := live c) (pk := parked c) in E as [[_ Ht] _]; auto.
      - by apply (cinv_pool _ _ Hc).
      - by apply (cinv_waits _ _ Hc t1 w1).
      - exists (notified w1). by destruct w1. }
    rewrite lookup_insert_ne; [done|congruence].
  - destruct (try_acquire_inner _ _ _) as [s [r'|]]; simplify_eq; simpl; auto.
  - destruct (live c !! id0); [|done]. simplify_eq. simpl.
    unfold notify_all. rewrite lookup_fmap, Hw. simpl. eexists. split; [done|]. by repeat split.
Qed.

(** ** Without the detector *)

Lemma inv_plain_poll s lv pk o amt ticket s' sk' turn :
  pool_inv s lv pk -> ra_ok amt -> ticket_ok pk o amt ticket ->
  plain_poll 0 s o amt ticket None = (s', sk', turn) ->
  turn_inv s' lv pk o amt ticket turn /\ total s' = total s /\
  (turn = Granted (Reservation amt o) /\ fits_in amt (available s) = true \/
   exists t, turn = Parked t /\ (forall t', ticket = Some t' -> t' = t) /\ (ticket = None -> pk !! t = None)).
Proof.
  intros Hi Hok Htk Hrun. unfold plain_poll in Hrun.
  destruct (fits_in amt (available s)) eqn:Hfit; cbn [negb] in Hrun.
  - pose proof (inv_grant 0 s lv pk o amt ticket None Hi Hok Htk Hfit) as Hg. cbv zeta in Hg.
    destruct (withdraw 0 s o ticket None) as [s1 sk1]. injection Hrun as <- <- <-. destruct Hg. auto.
  - destruct (enlist 0 s o amt ticket None) as [[s1 t] sk1] eqn:Ereg.
    destruct (inv_enlist _ _ _ _ _ _ _ _ _ _ _ Hi Htk Ereg) as (H1 & _ & Ht & Htt & Hnew).
    injection Hrun as <- <- <-. split_and!; [by split|done|]. right. by exists t.
Qed.

(** A turn that is granted or parks takes nothing from anybody else. *)
Lemma plain_turn_keeps tot c ticket o amt s turn :
  config_inv tot c -> ticket_ok (parked c) o amt ticket ->
  (turn = Granted (Reservation amt o) \/
   exists t, turn = Parked t /\ (forall t', ticket = Some t' -> t' = t) /\ (ticket = None -> parked c !! t = None)) ->
  (forall id r, live c !! id = Some r -> live (settle c ticket o amt s turn) !! id = Some r) /\
  (forall t w, parked c !! t = Some w -> (ticket = Some t -> exists t', turn = Parked t') ->
     exists w', parked (settle c ticket o amt s turn) !! t = Some w' /\ same_wait w w').
Proof.
  intros Hc Htk [->|(t & -> & Ht & Hnew)]; simpl; split; [|intros t w Hw Hp|done|intros t0 w Hw _].
  - intros id r Hr. rewrite lookup_insert_ne; [done|]. pose proof (cinv_fresh _ _ Hc _ _ Hr). lia.
  - exists w. split; [|by repeat split]. destruct ticket as [t'|]; simpl; [|done].
    rewrite lookup_delete_ne; [done|]. intros ->. by destruct (Hp eq_refl).
  - destruct (decide (t = t0)) as [<-|Hne].
    + rewrite lookup_insert_eq. eexists. split; [done|]. destruct ticket as [t'|].
      * destruct Htk as [b Hb]. rewrite (Ht t' eq_refl) in Hb. rewrite Hb in Hw. by injection Hw as <-.
      * specialize (Hnew eq_refl). congruence.
    + rewrite lookup_insert_ne by done. exists w. split; [|by repeat split]. destruct ticket as [t'|]; simpl; [|done].
      rewrite lookup_delete_ne; [done|]. by rewrite (Ht t' eq_refl).
Qed.

(** Nothing comes back but by a release, and nobody who waits leaves but by
    being woken to what fits. *)
Lemma plain_keeps tot c x c' tn :
  config_inv tot c -> op_ok x -> plain_exec c x = Some (c', tn) ->
  config_inv tot c' /\
  (forall id r, x <> OpRelease id -> live c !! id = Some r -> live c' !! id = Some r) /\
  (forall t w, parked c !! t = Some w -> (x = OpWake t -> fits_in (w_amount w) (available (pool c)) = false) ->
     exists w', parked c' !! t = Some w' /\ same_wait w w').
Proof.
  intros Hc Hx Hrun.
  assert (Hother : exec c x = Some (c', tn) -> (forall t, x <> OpWake t) ->
    config_inv tot c' /\ (forall id r, x <> OpRelease id -> live c !! id = Some r -> live c' !! id = Some r) /\
    (forall t w, parked c !! t = Some w -> (x = OpWake t -> fits_in (w_amount w) (available (pool c)) = false) ->
       exists w', parked c' !! t = Some w' /\ same_wait w w')).
  { intros He Hne. split_and!; [by eapply exec_inv|intros id r Hr; by eapply exec_keeps_live|].
    intros t w Hw _. by eapply exec_keeps_parked. }
  destruct x as [|o amt|t|o amt|id]; [by apply Hother| | |by apply Hother..]; simpl in Hrun.
  - destruct (fits_in amt (total (pool c))) eqn:Hfit; cbn [negb] in Hrun.
    2:{ injection Hrun as <- <-. split_and!; [done|done|]. intros t w Hw _. exists w. by repeat split. }
    destruct (plain_poll 0 (pool c) o amt None None) as [[s sk] turn] eqn:E. injection Hrun as <- <-.
    destruct (inv_plain_poll _ _ _ _ _ None _ _ _ (cinv_pool _ _ Hc) Hx I E) as (Hturn & Htot & Hcase).
    destruct (plain_turn_keeps tot c None o amt s turn Hc I) as [Hl Hp]; [naive_solver|].
    split_and!; [|auto|intros t w Hw _; by apply Hp].
    apply settle_turn_inv; auto. by rewrite <- (cinv_total _ _ Hc).
  - destruct (parked c !! t) as [wt|] eqn:Hwt; [|done].
    destruct (plain_poll 0 (pool c) (w_owner wt) (w_amount wt) (Some t) None) as [[s sk] turn] eqn:E. injection Hrun as <- <-.
    destruct (cinv_waits _ _ Hc t wt Hwt) as [Hra Hfit].
    assert (Htk : ticket_ok (parked c) (w_owner wt) (w_amount wt) (Some t)) by (exists (notified wt); by destruct wt).
    destruct (inv_plain_poll _ _ _ _ _ _ _ _ _ (cinv_pool _ _ Hc) Hra Htk E) as (Hturn & Htot & Hcase).
    destruct (plain_turn_keeps tot c (Some t) _ _ s turn Hc Htk) as [Hl Hp]; [naive_solver|].
    split_and!; [by apply settle_turn_inv|auto|]. intros t0 w Hw Hf. apply Hp; [done|]. intros [= <-].
    destruct Hcase as [[_ Hfits]|(t2 & -> & _)]; [|by exists t2].
    rewrite Hwt in Hw. injection Hw as <-. rewrite (Hf eq_refl) in Hfits. done.
Qed.

(** * A verdict is final *)

(** Less is out of a pool whose reservations are all, empty ones apart, among
    those of another. *)
Lemma msum_incl (f : reservation -> Z) (m m' : gmap Z reservation) :
  (forall k x, m !! k = Some x -> 0 <= f x) ->
  (forall k x, m' !! k = Some x -> 0 <= f x) ->
  (forall k x, m !! k = Some x -> f x <> 0 -> m' !! k = Some x) ->
  msum f m <= msum f m'.
Proof.
  revert m'. induction m as [|k x m Hk IH] using map_ind; intros m' Hm Hm' Hincl.
  - rewrite msum_empty. by apply msum_nonneg.
  - rewrite msum_insert_new by done.
    assert (Hm0 : forall k' x', m !! k' = Some x' -> k <> k') by (intros; congruence).
    destruct (decide (f x = 0)) as [->|Hnz].
    + apply IH; auto.
      * intros k' x' Hk'. apply (Hm k'). rewrite lookup_insert_ne; eauto.
      * intros k' x' Hk'. apply Hincl. rewrite lookup_insert_ne; eauto.
    + rewrite (msum_delete f m' k x) by (apply Hincl; [apply lookup_insert_eq|done]).
      assert (msum f m <= msum f (delete k m')); [|lia]. apply IH.
      * intros k' x' Hk'. apply (Hm k'). rewrite lookup_insert_ne; eauto.
      * intros k' x' [_ Hk']%lookup_delete_Some. eauto.
      * intros k' x' Hk' Hnz'. rewrite lookup_delete_ne by eauto.
        apply Hincl; [|done]. rewrite lookup_insert_ne; eauto.
Qed.

Section Stuck.
Context (tot : resource_amount) (c0 : config).
Context (Hc0 : config_inv tot c0) (Hdl : hold_and_wait c0).

(** Nothing that was out has come back and nobody who waited has moved. *)
Record stuck (c : config) : Prop := {
  stuck_inv : config_inv tot c;
  stuck_live id r : live c0 !! id = Some r -> is_zero (amount r) = false ->
    live c !! id = Some r;
  stuck_parked t w : parked c0 !! t = Some w ->
    exists w', parked c !! t = Some w' /\ same_wait w w';
}.

Lemma stuck_refl : stuck c0.
Proof. split; auto. intros t w Hw. exists w. by repeat split. Qed.

Lemma stuck_available c ax :
  stuck c -> axis ax (available (pool c)) <= axis ax (available (pool c0)).
Proof.
  intros [Hc Hl _].
  pose proof (inv_conserved _ _ _ (cinv_pool _ _ Hc) ax) as H1.
  pose proof (inv_conserved _ _ _ (cinv_pool _ _ Hc0) ax) as H0.
  rewrite (cinv_total _ _ Hc) in H1. rewrite (cinv_total _ _ Hc0) in H0.
  assert (msum (res_axis ax) (live c0) <= msum (res_axis ax) (live c)); [|lia].
  apply msum_incl.
  - apply (inv_live _ _ _ (cinv_pool _ _ Hc0)).
  - apply (inv_live _ _ _ (cinv_pool _ _ Hc)).
  - intros k r Hk Hnz. apply Hl; [done|]. apply not_true_iff_false. intros Hz.
    by apply Hnz, is_zero_axis.
Qed.

Lemma stuck_unfit c t w :
  stuck c -> parked c0 !! t = Some w -> fits_in (w_amount w) (available (pool c)) = false.
Proof.
  intros Hs Hw. apply not_true_iff_false. intros Hf.
  destruct Hdl as (_ & _ & Hno). specialize (Hno t w Hw).
  enough (fits_in (w_amount w) (available (pool c0)) = true) by congruence.
  apply fits_in_axis. intros ax. pose proof (proj1 (fits_in_axis _ _) Hf ax).
  pose proof (stuck_available c ax Hs). lia.
Qed.

Lemma stuck_step c c' : stuck c -> plain_step c c' -> stuck c'.
Proof.
  intros Hs [x tn Hx Hsing Hrun]. pose proof Hs as [Hc Hl Hp].
  destruct (plain_keeps _ _ _ _ _ Hc Hx Hrun) as (Hc' & Hlive & Hpark). split; [done| |].
  - intros id r Hid Hnz. pose proof (Hl id r Hid Hnz) as Hlid. apply Hlive; [|done]. intros ->.
    destruct Hdl as (_ & Hheld & _). destruct (Hheld id r Hid Hnz) as (o & t & w & Ho & Hw & Hwo).
    apply (Hsing r o Hlid Ho). destruct (Hp t w Hw) as (w' & Hw' & Hsw & _).
    exists t, w'. split; [done|congruence].
  - intros t w Hw. destruct (Hp t w Hw) as (w' & Hw' & Hsw1 & Hsw2).
    destruct (Hpark t w' Hw') as (w2 & Hw2 & H1 & H2).
    + intros _. rewrite Hsw2. by apply (stuck_unfit c t).
    + exists w2. split; [done|]. split; congruence.
Qed.
End Stuck.

(** * No deadlock goes unnoticed *)

(** An owner holds something. *)
Definition holder (c : config) (o : owner_id) : Prop :=
  exists id r, live c !! id = Some r /\ owner r = Some o /\ is_zero (amount r) = false.

Record alert (c : config) : Prop := {
  alert_single t1 t2 w1 w2 o :
    parked c !! t1 = Some w1 -> parked c !! t2 = Some w2 ->
    w_owner w1 = Some o -> w_owner w2 = Some o -> t1 = t2;
  alert_nonzero t w : parked c !! t = Some w -> is_zero (w_amount w) = false;
  alert_notified t w o : hold_and_wait c -> parked c !! t = Some w ->
    w_owner w = Some o -> holder c o -> notified w = true;
}.

(** [alert] looks only at the reservations, the threads and what is free. *)
Lemma alert_ext c c' :
  live c' = live c -> parked c' = parked c -> available (pool c') = available (pool c) ->
  alert c -> alert c'.
Proof.
  intros El Ep Ea [H1 H2 H3]. split.
  - intros *. rewrite Ep. apply H1.
  - intros *. rewrite Ep. apply H2.
  - unfold hold_and_wait, holder. rewrite El, Ep, Ea. apply H3.
Qed.

Lemma saturating_sub_zero tot c amt :
  config_inv tot c -> is_zero amt = true ->
  saturating_sub (available (pool c)) amt = available (pool c).
Proof.
  intros Hc Hz. apply axis_ext. intros ax. rewrite axis_saturating_sub.
  pose proof (proj1 (is_zero_axis _) Hz ax).
  pose proof (inv_available _ _ _ (cinv_pool _ _ Hc) ax). unfold sat_sub. lia.
Qed.

Lemma unfit_nonzero tot c amt :
  config_inv tot c -> fits_in amt (available (pool c)) = false -> is_zero amt = false.
Proof.
  intros Hc Hf. apply not_true_iff_false. intros Hz. apply not_true_iff_false in Hf. apply Hf.
  apply fits_in_axis. intros ax. rewrite (proj1 (is_zero_axis _) Hz ax).
  apply (inv_available _ _ _ (cinv_pool _ _ Hc)).
Qed.

(** Whoever has just been granted something is running. *)
Lemma alert_granted c s ws o amt :
  alert c -> (is_zero amt = false \/ (ws = parked c /\ available s = available (pool c))) ->
  (forall t w, ws !! t = Some w -> parked c !! t = Some w) ->
  (forall ow, o = Some ow -> forall t w, ws !! t = Some w -> w_owner w <> Some ow) ->
  live c !! next_res c = None ->
  alert (Config s (<[next_res c := Reservation amt o]> (live c)) (next_res c + 1) ws).
Proof.
  intros [H1 H2 H3] Hamt Hws Hrun Hfresh. split; simpl; [eauto|eauto|].
  intros t w o' (Hex & Hheld & Hfits) Hw Ho'. simpl in *.
  destruct (is_zero amt) eqn:Ez.
  2:{ destruct (Hheld (next_res c) (Reservation amt o)) as (ow & t' & w' & E1 & E2 & E3);
        [apply lookup_insert_eq|done|]. simpl in E1. by edestruct Hrun. }
  destruct Hamt as [|[-> Ea]]; [done|].
  assert (Hlv : forall id r, <[next_res c := Reservation amt o]> (live c) !! id = Some r ->
    is_zero (amount r) = false -> live c !! id = Some r).
  { intros id r. rewrite lookup_insert. case_decide; [|done]. intros [= <-]. simpl. congruence. }
  intros (id & r & Hid & Hor & Hnz). simpl in Hid. apply (H3 t w o'); auto.
  - split_and!.
    + exists id, r. auto.
    + intros id' r' Hid' Hnz'. apply (Hheld id' r'); [|done]. rewrite lookup_insert_ne; congruence.
    + by rewrite <- Ea.
  - exists id, r. auto.
Qed.

(** A request that stays parked, or a new anonymous one, does not turn the
    pool into a deadlock by itself. *)
Lemma alert_anonymous c s t amt :
  alert c -> is_zero amt = false -> available s = available (pool c) ->
  (parked c !! t = None \/ exists b, parked c !! t = Some (Waiter None amt b)) ->
  alert (Config s (live c) (next_res c) (<[t := Waiter None amt false]> (parked c))).
Proof.
  intros [H1 H2 H3] Hnz Ea Ht.
  assert (Hback : forall t' w o, <[t := Waiter None amt false]> (parked c) !! t' = Some w ->
    w_owner w = Some o -> parked c !! t' = Some w).
  { intros t' w o. rewrite lookup_insert. case_decide; [|done]. by intros [= <-]. }
  split; simpl.
  - intros t1 t2 w1 w2 o Hw1 Hw2 Ho1 Ho2. eapply (H1 t1 t2 w1 w2 o); eauto.
  - intros t' w. rewrite lookup_insert. case_decide; [by intros [= <-]|apply H2].
  - intros t' w o (Hex & Hheld & Hfits) Hw Ho Hh. simpl in *. apply (H3 t' w o); eauto.
    split_and!; auto.
    + intros id r Hid Hr. destruct (Hheld id r Hid Hr) as (o' & t2 & w2 & ? & ? & ?).
      exists o', t2, w2. eauto.
    + intros t2 w2 Hw2. rewrite <- Ea. destruct (decide (t = t2)) as [<-|Hne].
      * destruct Ht as [?|[b Hb]]; [congruence|]. simplify_eq.
        apply (Hfits t (Waiter None amt false)). apply lookup_insert_eq.
      * apply (Hfits t2 w2). by rewrite lookup_insert_ne.
Qed.

(** A thread that parks after a negative verdict leaves no deadlock behind. *)
Lemma alert_parked tot c s t ow amt :
  alert c -> is_zero amt = false ->
  (forall t' w, parked c !! t' = Some w -> w_owner w = Some ow -> t' = t) ->
  config_inv tot (Config s (live c) (next_res c) (<[t := Waiter (Some ow) amt false]> (parked c))) ->
  deadlock s amt = None ->
  alert (Config s (live c) (next_res c) (<[t := Waiter (Some ow) amt false]> (parked c))).
Proof.
  intros [H1 H2 _] Hnz Hown Hc' Hno. split; simpl.
  - intros t1 t2 w1 w2 o. rewrite !lookup_insert.
    intros Hw1 Hw2 Ho1 Ho2. repeat case_decide; simplify_eq; simpl in *; simplify_eq; eauto.
    symmetry; eauto.
  - intros t' w. rewrite lookup_insert. case_decide; [by intros [= <-]|apply H2].
  - intros t' w o Hhw. exfalso.
    apply (deadlock_hold_and_wait _ tot Hc' amt) in Hhw as [d Hd]. simpl in Hd. congruence.
Qed.

Lemma next_res_fresh tot c : config_inv tot c -> live c !! next_res c = None.
Proof.
  intros Hc. destruct (live c !! next_res c) eqn:E; [|done].
  apply (cinv_fresh _ _ Hc) in E. lia.
Qed.

Lemma alert_acquire tot c o amt c' tn :
  config_inv tot c -> alert c -> op_ok (OpAcquire o amt) -> op_single c (OpAcquire o amt) ->
  exec c (OpAcquire o amt) = Some (c', tn) -> alert c'.
Proof.
  intros Hc Ha Hok Hs Hrun. pose proof (exec_inv tot c _ c' tn Hc Hok Hrun) as Hc'.
  simpl in Hrun. destruct (acquire_inner 0 (pool c) o amt None) as [[s sk] turn] eqn:E.
  pose proof (fun t => acquire_fresh tot c o amt s sk turn t Hc E) as Hfresh.
  injection Hrun as <- _. unfold acquire_inner in E.
  destruct (fits_in amt (total (pool c))); simpl in E; [|by injection E as <- <- <-; destruct c].
  apply poll_cases in E as [(-> & Hf & Eav)|(Hf & Eav & [(t & -> & Hdl)|(d & -> & _)])]; simpl in *.
  - apply alert_granted; auto.
    + destruct (is_zero amt) eqn:Ez; [right|by left]. split; [done|].
      rewrite Eav. by eapply saturating_sub_zero.
    + intros ow -> t w Hw Ho. apply Hs. by exists t, w.
    + by eapply next_res_fresh.
  - pose proof (unfit_nonzero tot c amt Hc Hf) as Hnz. destruct o as [ow|].
    + apply (alert_parked tot); try done; [|by apply Hdl]. intros t' w Hw Ho. destruct Hs. by exists t', w.
    + apply alert_anonymous; auto.
  - by apply (alert_ext c).
Qed.

Lemma alert_wake tot c t c' tn :
  config_inv tot c -> alert c -> exec c (OpWake t) = Some (c', tn) -> alert c'.
Proof.
  intros Hc Ha Hrun. pose proof (exec_inv tot c (OpWake t) c' tn Hc I Hrun) as Hc'.
  simpl in Hrun. destruct (parked c !! t) as [w|] eqn:Hw; [|done].
  destruct (acquire_poll 0 (pool c) (w_owner w) (w_amount w) (Some t) None)
    as [[s sk] turn] eqn:E.
  assert (Htk : forall t', turn = Parked t' -> t' = t).
  { intros t' ->. apply inv_acquire_poll with (lv := live c) (pk := parked c) in E as [[_ Ht] _].
    - symmetry. by apply Ht.
    - by apply (cinv_pool _ _ Hc).
    - by apply (cinv_waits _ _ Hc t w).
    - exists (notified w). by destruct w. }
  injection Hrun as <- _. pose proof Ha as [H1 H2 H3]. pose proof (H2 t w Hw) as Hnz.
  apply poll_cases in E as [(-> & Hf & Eav)|(Hf & Eav & [(t' & -> & Hdl)|(d & -> & Hd)])]; simpl in *.
  - apply alert_granted; auto.
    + intros t' w'. by intros [_ ?]%lookup_delete_Some.
    + intros ow Hwo t' w' [Hne Hw']%lookup_delete_Some Ho. by apply Hne, (H1 t t' w w' ow).
    + by eapply next_res_fresh.
  - rewrite (Htk t' eq_refl) in *. rewrite insert_delete_eq in *.
    destruct (w_owner w) as [ow|] eqn:Ewo.
    + apply (alert_parked tot); try done; [|by apply Hdl].
      intros t2 w2 Hw2 Ho2. by apply (H1 t2 t w2 w ow).
    + apply alert_anonymous; auto. right. exists (notified w). destruct w; simpl in *; by subst.
  - specialize (Hd ltac:(done)).
    assert (Hhw : hold_and_wait c) by (apply (deadlock_hold_and_wait _ tot Hc (w_amount w)); eauto).
    split; simpl.
    + intros t1 t2 w1 w2 o [_ Hw1]%lookup_delete_Some [_ Hw2]%lookup_delete_Some. by apply H1.
    + intros t' w' [_ Hw']%lookup_delete_Some. eauto.
    + intros t' w' o _ [_ Hw']%lookup_delete_Some Ho Hh. by apply (H3 t' w' o).
Qed.

Lemma alert_exec tot c x c' tn :
  config_inv tot c -> alert c -> op_ok x -> op_single c x ->
  exec c x = Some (c', tn) -> alert c'.
Proof.
  intros Hc Ha Hok Hs Hrun. destruct x as [|o amt|t|o amt|id].
  - simpl in Hrun. injection Hrun as <- _. by apply (alert_ext c).
  - by eapply alert_acquire.
  - by eapply alert_wake.
  - simpl in Hrun. unfold try_acquire_inner in Hrun.
    destruct (fits_in amt (available (pool c))) eqn:Hf; simpl in Hrun; injection Hrun as <- _.
    2:{ by apply (alert_ext c). }
    destruct (charge_fields (pool c) o amt) as (_ & Eav & _).
    apply alert_granted; auto.
    + destruct (is_zero amt) eqn:Ez; [right|by left]. split; [done|].
      rewrite Eav. by eapply saturating_sub_zero.
    + intros ow -> t w Hw Ho. apply Hs. by exists t, w.
    + by eapply next_res_fresh.
  - simpl in Hrun. destruct (live c !! id) as [r|]; [|done]. injection Hrun as <- _.
    destruct Ha as [H1 H2 _]. split; simpl; unfold notify_all.
    + intros t1 t2 w1 w2 o. rewrite !lookup_fmap, !fmap_Some.
      intros (v1 & Hv1 & ->) (v2 & Hv2 & ->); simpl. by apply H1.
    + intros t w. rewrite lookup_fmap, fmap_Some. intros (v & Hv & ->). simpl. eauto.
    + intros t w o _. rewrite lookup_fmap, fmap_Some. by intros (v & Hv & ->).
Qed.

Lemma reachable_single_alert tot c :
  ra_ok tot -> reachable_single tot c -> config_inv tot c /\ alert c.
Proof.
  intros Hok Hr. unfold reachable_single in Hr.
  assert (H0 : config_inv tot (init tot) /\ alert (init tot)).
  { split; [by apply init_inv|]. split; simpl; intros; by simplify_map_eq. }
  revert H0. induction Hr as [|c1 c2 c3 [t [x Hx Hs Hrun]] Hr IH]; [done|].
  intros [Hc Ha]. apply IH. split; [by eapply exec_inv|by eapply alert_exec].
Qed.

(** * Properties *)

(** C1: the verdict is final. With one thread per owner, from a state where it
    holds, no run of a pool without the detector, in which whoever does not
    get what it asks for just waits, ever gives back anything that was out nor
    serves any request that was parked. *)
Theorem deadlock_verdict_final tot c req d c' :
  ra_ok tot -> reachable tot c -> deadlock (pool c) req = Some d ->
  rtc plain_step c c' ->
  (forall id r, live c !! id = Some r -> is_zero (amount r) = false ->
     live c' !! id = Some r) /\
  (forall t w, parked c !! t = Some w ->
     exists w', parked c' !! t = Some w' /\ same_wait w w').
Proof.
  intros Hok Hr Hd Hrun. pose proof (reachable_inv tot c Hok Hr) as Hc.
  assert (Hdl : hold_and_wait c) by (apply (deadlock_hold_and_wait c tot Hc req); eauto).
  assert (Hs : stuck tot c c') by
    (apply (rtc_invariant (stuck tot c) plain_step c c'); eauto using stuck_refl, stuck_step).
  destruct Hs as [_ H1 H2]. auto.
Qed.

(** C2: no deadlock goes unnoticed. With one thread per owner, whenever a
    reachable state is deadlocked there is a parked holder whose wake-up is
    already on its way and whose next turn fails with the deadlock error, so
    the cycle is broken. *)
Theorem deadlock_noticed tot c :
  ra_ok tot -> reachable_single tot c -> hold_and_wait c ->
  exists t w o d c', parked c !! t = Some w /\ w_owner w = Some o /\ notified w = true /\
    exec c (OpWake t) = Some (c', Some (Refused (DeadlockErr d))).
Proof.
  intros Hok Hr Hhw. destruct (reachable_single_alert tot c Hok Hr) as [Hc Ha].
  pose proof Hhw as ((id & r & Hid & Hnz) & Hheld & Hfits).
  destruct (Hheld id r Hid Hnz) as (o & t & w & Ho & Hw & Hwo).
  assert (Hn : notified w = true) by (apply (alert_notified _ Ha t w o); auto; by exists id, r).
  destruct (proj2 (deadlock_hold_and_wait c tot Hc (w_amount w)) Hhw) as [d Hd].
  destruct (withdraw 0 (pool c) (Some o) (Some t) None) as [s sk] eqn:Ew.
  exists t, w, o, d, (settle c (Some t) (w_owner w) (w_amount w) s (Refused (DeadlockErr d))).
  split_and!; auto. cbn [exec]. rewrite Hw. unfold acquire_poll.
  rewrite (Hfits t w Hw), Hwo, Hd, Ew. done.
Qed.

(** * Witnesses *)

Definition parked_ownerb (c : config) (o : owner_id) : bool :=
  existsb (fun w => bool_decide (w_owner w = Some o)) (map_to_list (parked c)).*2.

Lemma parked_ownerb_false c o : parked_ownerb c o = false -> ~ parked_owner c o.
Proof.
  intros Hb (t & w & Hw & Ho). apply not_true_iff_false in Hb. apply Hb.
  apply existsb_exists. exists w. split; [|by apply bool_decide_eq_true].
  apply list_elem_of_In, elem_of_map_values. eauto.
Qed.

(** Run a list of operations, each by a thread whose owner is not parked. *)
Definition op_singleb (c : config) (x : op) : bool :=
  match x with
  | OpAcquire (Some o) _ | OpTryAcquire (Some o) _ => negb (parked_ownerb c o)
  | OpRelease id =>
      match live c !! id with
      | Some (Reservation _ (Some o)) => negb (parked_ownerb c o)
      | _ => true
      end
  | _ => true
  end.

Fixpoint run_single (c : config) (xs : list op) : option config :=
  match xs with
  | [] => Some c
  | x :: xs' =>
      if op_singleb c x then
        match exec c x with Some (c', _) => run_single c' xs' | None => None end
      else None
  end.

Lemma op_singleb_true c x : op_singleb c x = true -> op_single c x.
Proof.
  destruct x as [|[o|] amt|t|[o|] amt|id]; simpl; try done.
  - intros ?%negb_true_iff. by apply parked_ownerb_false.
  - intros ?%negb_true_iff. by apply parked_ownerb_false.
  - intros Hb r o Hr Ho. rewrite Hr in Hb. destruct r as [a ow]; simpl in *. subst.
    apply negb_true_iff in Hb. by apply parked_ownerb_false.
Qed.

Lemma run_reachable_single c0 xs c :
  Forall op_ok xs -> run_single c0 xs = Some c -> rtc some_step_single c0 c.
Proof.
  revert c0. induction xs as [|x xs IH]; simpl; intros c0 HF Hrun.
  - by simplify_eq.
  - inversion HF; subst. destruct (op_singleb c0 x) eqn:Hs; [|done].
    destruct (exec c0 x) as [[c1 t]|] eqn:E; [|done].
    eapply rtc_l; [|by apply IH]. exists t. econstructor; eauto. by apply op_singleb_true.
Qed.

Lemma demo_reachable_single : reachable_single demo_total demo_state.
Proof. apply (run_reachable_single _ demo_ops); [apply demo_ops_ok|vm_compute; reflexivity]. Qed.

(** Both parked files are woken, a third comes, takes what is left, gives it back
    and waits for more: nothing moves. *)
Definition plain_ops : list op :=
  [OpWake 3; OpWake 4; OpNewOwner; OpAcquire (Some 5) (RA 1 1); OpRelease 3; OpWake 4; OpAcquire (Some 5) (RA 3 3); OpWake 3].

Fixpoint plain_run (c : config) (xs : list op) : option config :=
  match xs with
  | [] => Some c
  | x :: xs' =>
      if op_singleb c x then
        match plain_exec c x with Some (c', _) => plain_run c' xs' | None => None end
      else None
  end.

Lemma plain_run_steps c0 xs c : Forall op_ok xs -> plain_run c0 xs = Some c -> rtc plain_step c0 c.
Proof.
  revert c0. induction xs as [|x xs IH]; simpl; intros c0 HF Hrun.
  - by simplify_eq.
  - inversion HF; subst. destruct (op_singleb c0 x) eqn:Hs; [|done].
    destruct (plain_exec c0 x) as [[c1 t]|] eqn:E; [|done].
    eapply rtc_l; [|by apply IH]. econstructor; eauto. by apply op_singleb_true.
Qed.

Lemma deadlock_verdict_final_witness :
  exists c', plain_run demo_state plain_ops = Some c' /\ size (parked c') = 3%nat /\
  exists w', parked c' !! 3 = Some w' /\ same_wait (Waiter (Some 1) (RA 2 2) true) w'.
Proof.
  eexists. split; [vm_compute; reflexivity|]. split; [vm_compute; reflexivity|].
  refine (proj2 (deadlock_verdict_final demo_total demo_state (RA 2 2) _ _ demo_total_ok
    demo_reachable demo_deadlocked (plain_run_steps _ plain_ops _ _ _)) 3 _ _).
  - unfold plain_ops, op_ok, ra_ok, in_width, u64_max, u32_max. repeat (constructor; [simpl; lia|]). constructor.
  - vm_compute. reflexivity.
  - vm_compute. reflexivity.
Defined.

Lemma deadlock_noticed_witness :
  exists t w o d c', parked demo_state !! t = Some w /\ w_owner w = Some o /\
    notified w = true /\
    exec demo_state (OpWake t) = Some (c', Some (Refused (DeadlockErr d))).
Proof.
  apply (deadlock_noticed demo_total demo_state demo_total_ok demo_reachable_single).
  apply (deadlock_hold_and_wait demo_state demo_total
    (reachable_inv _ _ demo_total_ok demo_reachable) (RA 2 2)).
  rewrite demo_deadlocked; eauto.
Defined.

