(* ===== verification/Claims.v ===== *)
(** Accounts and claims of [src/provium-host/src/scheduler/pool.rs]: a test
    file's standing with the pool, and the one place a boot's resources come
    from. *)
From S2P Require Import Prelude Pool PoolSys.

(** * Accounts *)

Record claim_budget := ClaimBudget {
  cb_reservation : reservation;
  cb_total : resource_amount;
  cb_used : resource_amount;
}.

Record account := Account {
  acc_owner : option owner_id;
  taken : bool;
  budget : option claim_budget;
}.

Record claim_exceeded := ClaimExceeded {
  ce_requested : resource_amount;
  ce_claimed : resource_amount;
  ce_in_use : resource_amount;
}.

(** [Account::new]: an owner is minted when there is a pool. *)
Definition account_new (p : option pool_state) : option pool_state * account :=
  match p with
  | Some s => let '(s', o) := new_owner s in (Some s', Account (Some o) false None)
  | None => (None, Account None false None)
  end.

Definition claim_taken (a : account) : bool := taken a.

Definition mark_claim_taken (a : account) : account * bool :=
  if taken a then (a, false) else (Account (acc_owner a) true (budget a), true).

(** The third component is the reservation the call drops, if any. *)
Definition set_claim (a : account) (r : reservation) (amt : resource_amount)
  : account * bool * option reservation :=
  if taken a then (a, false, Some r)
  else (Account (acc_owner a) true (Some (ClaimBudget r amt ra_zero)), true, None).

Definition claim (a : account) : option (resource_amount * resource_amount) :=
  (fun b => (cb_total b, cb_used b)) <$> budget a.

(** Taking the budget drops the reservation behind it. *)
Definition release_claim (a : account) : account * option resource_amount * option reservation :=
  (Account (acc_owner a) (taken a) None, cb_total <$> budget a, cb_reservation <$> budget a).

Definition slice (a : account) (amt : resource_amount)
  : account * result (option resource_amount) claim_exceeded :=
  match budget a with
  | None => (a, Ok None)
  | Some b =>
      let after := saturating_add (cb_used b) amt in
      if negb (fits_in after (cb_total b))
      then (a, Err (ClaimExceeded amt (cb_total b) (cb_used b)))
      else (Account (acc_owner a) (taken a)
              (Some (ClaimBudget (cb_reservation b) (cb_total b) after)), Ok (Some amt))
  end.

(** Run by the drop of a [ClaimSlice]. *)
Definition return_slice (a : account) (amt : resource_amount) : account :=
  match budget a with
  | None => a
  | Some b =>
      Account (acc_owner a) (taken a)
        (Some (ClaimBudget (cb_reservation b) (cb_total b) (saturating_sub (cb_used b) amt)))
  end.

(** * [reserve] *)

Inductive hold := HoldPool (r : reservation) | HoldClaim (amt : resource_amount).

Definition hold_amount (h : hold) : resource_amount :=
  match h with HoldPool r => amount r | HoldClaim a => a end.

Inductive reserve_error := ReserveClaim (e : claim_exceeded) | ReservePool (e : acquire_error).

(** A boot's reservation ends, or its thread parks in the pool. *)
Inductive reserve_turn :=
| Held (h : hold)
| ReserveFailed (e : reserve_error)
| ReserveParked (ticket : Z).

Definition pool_turn (t : acquire_turn) : reserve_turn :=
  match t with
  | Granted r => Held (HoldPool r)
  | Refused e => ReserveFailed (ReservePool e)
  | Parked k => ReserveParked k
  end.

(** The first turn of [reserve]; a parked one is resumed by [acquire_poll]. *)
Definition reserve (now : Z) (s : pool_state) (acc : option account) (amt : resource_amount)
    (sink : option wait_sink)
  : pool_state * option account * option wait_sink * reserve_turn :=
  let anonymous acc' :=
    let tot := total s in
    match acquire_inner now s None amt sink with
    | (s', sink', Granted r) => (s', acc', sink', Held (HoldPool r))
    | (s', sink', Parked k) => (s', acc', sink', ReserveParked k)
    | (s', sink', Refused _) => (s', acc', sink', ReserveFailed (ReservePool (ExceedsTotal amt tot)))
    end in
  match acc with
  | None => anonymous None
  | Some a =>
      match slice a amt with
      | (a', Err e) => (s, Some a', sink, ReserveFailed (ReserveClaim e))
      | (a', Ok (Some sl)) => (s, Some a', sink, Held (HoldClaim sl))
      | (a', Ok None) =>
          match acc_owner a' with
          | Some o =>
              let '(s', sink', t) := acquire_inner now s (Some o) amt sink in
              (s', Some a', sink', pool_turn t)
          | None => anonymous (Some a')
          end
      end
  end.

(** * A file's account over time *)

(** The slices out on loan are the file's own to drop, in any order. *)
Record acct_config := AcctConfig {
  acct : account;
  slices : gmap Z resource_amount;
  next_slice : Z;
}.

Inductive acct_op :=
| ASetClaim (r : reservation) (amt : resource_amount)
| AMarkTaken
| AReleaseClaim
| ASlice (amt : resource_amount)
| ADropSlice (id : Z).

Definition acct_exec (c : acct_config) (x : acct_op) : option acct_config :=
  match x with
  | ASetClaim r amt =>
      let '(a, _, _) := set_claim (acct c) r amt in
      Some (AcctConfig a (slices c) (next_slice c))
  | AMarkTaken => Some (AcctConfig (mark_claim_taken (acct c)).1 (slices c) (next_slice c))
  | AReleaseClaim =>
      let '(a, _, _) := release_claim (acct c) in
      Some (AcctConfig a (slices c) (next_slice c))
  | ASlice amt =>
      match slice (acct c) amt with
      | (a, Ok (Some sl)) =>
          Some (AcctConfig a (<[next_slice c := sl]> (slices c)) (next_slice c + 1))
      | (a, _) => Some (AcctConfig a (slices c) (next_slice c))
      end
  | ADropSlice id =>
      match slices c !! id with
      | Some amt =>
          Some (AcctConfig (return_slice (acct c) amt) (delete id (slices c)) (next_slice c))
      | None => None
      end
  end.

(** A claim is backed by the host's memory and cpus, so it is below the
    largest amount the types can hold (where [saturating_add] would accept
    slices past it). *)
Definition claimable (amt : resource_amount) : Prop :=
  ra_ok amt /\ memory_bytes amt < u64_max /\ cpus amt < u32_max.

Definition acct_op_ok (x : acct_op) : Prop :=
  match x with
  | ASetClaim _ amt => claimable amt
  | ASlice amt => ra_ok amt
  | _ => True
  end.

Definition acct_step (c c' : acct_config) : Prop :=
  exists x, acct_op_ok x /\ acct_exec c x = Some c'.

Definition acct_init (a : account) : acct_config := AcctConfig a ∅ 0.

Definition acct_reachable (o : option owner_id) (c : acct_config) : Prop :=
  rtc acct_step (acct_init (Account o false None)) c.

(** * The invariant *)

Record acct_inv (o : option owner_id) (c : acct_config) : Prop := {
  ai_owner : acc_owner (acct c) = o;
  ai_taken b : budget (acct c) = Some b -> taken (acct c) = true;
  ai_untaken : taken (acct c) = false -> slices c = ∅;
  ai_used ax b : budget (acct c) = Some b ->
    axis ax (cb_used b) = msum (axis ax) (slices c) /\
    axis ax (cb_used b) <= axis ax (cb_total b) < axis_max ax;
  ai_slices ax id a : slices c !! id = Some a -> 0 <= axis ax a;
  ai_fresh id a : slices c !! id = Some a -> id < next_slice c;
}.

Lemma acct_inv_init o : acct_inv o (acct_init (Account o false None)).
Proof. split; simpl; try done; intros; by simplify_map_eq. Qed.

Lemma claimable_axis amt ax : claimable amt -> 0 <= axis ax amt < axis_max ax.
Proof. unfold claimable, ra_ok, in_width. destruct ax; simpl; lia. Qed.

(** Accounts that agree on everything but an untouched budget. *)
Lemma acct_inv_same o c a :
  acct_inv o c -> acc_owner a = acc_owner (acct c) -> budget a = budget (acct c) ->
  (taken (acct c) = true -> taken a = true) ->
  acct_inv o (AcctConfig a (slices c) (next_slice c)).
Proof.
  intros [Ho Htk Hun Hus Hsl Hfr] E1 E2 E3. split; simpl; auto.
  - congruence.
  - intros b Hb. apply E3, (Htk b). congruence.
  - intros Ht. apply Hun. destruct (taken (acct c)); [|done]. by rewrite E3 in Ht.
  - intros ax b Hb. apply Hus. congruence.
Qed.

Lemma acct_inv_slice o c amt b :
  acct_inv o c -> ra_ok amt -> budget (acct c) = Some b ->
  fits_in (saturating_add (cb_used b) amt) (cb_total b) = true ->
  acct_inv o (AcctConfig
    (Account (acc_owner (acct c)) (taken (acct c))
       (Some (ClaimBudget (cb_reservation b) (cb_total b) (saturating_add (cb_used b) amt))))
    (<[next_slice c := amt]> (slices c)) (next_slice c + 1)).
Proof.
  intros [Ho Htk Hun Hus Hsl Hfr] Hok Eb Ef.
  assert (Hfresh : slices c !! next_slice c = None).
  { destruct (slices c !! next_slice c) eqn:E; [|done]. apply Hfr in E. lia. }
  split; simpl; auto.
  - intros b' [= <-]. eauto.
  - rewrite (Htk b Eb). done.
  - intros ax b' [= <-]. simpl. rewrite msum_insert_new, axis_saturating_add by done.
    destruct (Hus ax b Eb) as [Hu Hle]. pose proof (ra_ok_axis amt ax Hok).
    pose proof (proj1 (fits_in_axis _ _) Ef ax) as Hf. rewrite axis_saturating_add in Hf.
    unfold sat_add in *. lia.
  - intros ax id a. rewrite lookup_insert. case_decide; [|eauto]. intros [= <-].
    pose proof (ra_ok_axis amt ax Hok). lia.
  - intros id a. rewrite lookup_insert. case_decide; [lia|]. intros ?%Hfr. lia.
Qed.

Lemma acct_inv_drop o c id amt :
  acct_inv o c -> slices c !! id = Some amt ->
  acct_inv o (AcctConfig (return_slice (acct c) amt) (delete id (slices c)) (next_slice c)).
Proof.
  intros [Ho Htk Hun Hus Hsl Hfr] Hid. unfold return_slice.
  assert (Hd : forall id' a, delete id (slices c) !! id' = Some a -> slices c !! id' = Some a)
    by (intros id' a; by intros [_ ?]%lookup_delete_Some).
  destruct (budget (acct c)) as [b|] eqn:Eb; split; simpl; auto; try congruence; eauto.
  - intros Ht. rewrite (Hun Ht) in Hid. done.
  - intros ax b' [= <-]. simpl. rewrite axis_saturating_sub, msum_delete_total, Hid. simpl.
    destruct (Hus ax b eq_refl) as [Hu Hle].
    pose proof (msum_ge (axis ax) (slices c) id amt (Hsl ax) Hid).
    pose proof (Hsl ax id amt Hid). rewrite sat_sub_exact; lia.
  - intros Ht. rewrite (Hun Ht) in Hid. done.
Qed.

Lemma acct_inv_step o c c' : acct_inv o c -> acct_step c c' -> acct_inv o c'.
Proof.
  intros Hi (x & Hok & Hrun). pose proof Hi as [Ho Htk Hun Hus Hsl Hfr].
  destruct x as [r amt| | |amt|id]; simpl in Hrun.
  - unfold set_claim in Hrun. destruct (taken (acct c)) eqn:Et; simplify_eq; [by destruct c|].
    split; simpl; auto; try done. intros ax b [= <-]. simpl.
    rewrite (Hun eq_refl), msum_empty, axis_zero. pose proof (claimable_axis amt ax Hok). lia.
  - unfold mark_claim_taken in Hrun. destruct (taken (acct c)) eqn:Et; simplify_eq;
      apply acct_inv_same; auto.
  - simplify_eq. split; simpl; auto; try done.
  - unfold slice in Hrun. destruct (budget (acct c)) as [b|] eqn:Eb; simpl in Hrun;
      [|by simplify_eq; apply acct_inv_same].
    destruct (fits_in (saturating_add (cb_used b) amt) (cb_total b)) eqn:Ef; simpl in Hrun;
      simplify_eq; [by apply acct_inv_slice|by apply acct_inv_same].
  - destruct (slices c !! id) as [amt|] eqn:Hid; [|done]. simplify_eq. by apply acct_inv_drop.
Qed.

Lemma acct_reachable_inv o c : acct_reachable o c -> acct_inv o c.
Proof.
  intros Hr. apply (rtc_invariant (acct_inv o) acct_step _ c) in Hr; auto.
  - apply acct_inv_step.
  - apply acct_inv_init.
Qed.

(** * Properties *)

(** However boots take slices and VMs return them, in any order and also
    after the claim is released, a held claim's used amount is exactly the sum
    of the slices out on loan and never exceeds the claim. *)
Lemma claim_never_exceeded o c b :
  acct_reachable o c -> budget (acct c) = Some b ->
  memory_bytes (cb_used b) = msum memory_bytes (slices c) /\
  cpus (cb_used b) = msum cpus (slices c) /\
  fits_in (cb_used b) (cb_total b) = true.
Proof.
  intros Hr Hb. pose proof (acct_reachable_inv o c Hr) as Hi.
  destruct (ai_used _ _ Hi true b Hb) as [Hm Hm']. destruct (ai_used _ _ Hi false b Hb) as [Hc Hc'].
  simpl in *. split_and!; auto. unfold fits_in.
  apply andb_true_iff. rewrite !Z.leb_le. lia.
Qed.

(** A claim is one-shot per file. Once one was taken, whatever happens to
    the account later (the release of the claim included), [set_claim] and
    [mark_claim_taken] refuse, change nothing, and hand the refused
    reservation back to be dropped. *)
Lemma claim_one_shot o c c' r amt :
  acct_reachable o c -> taken (acct c) = true -> rtc acct_step c c' ->
  set_claim (acct c') r amt = (acct c', false, Some r) /\
  mark_claim_taken (acct c') = (acct c', false).
Proof.
  intros _ Ht Hr.
  assert (Ht' : taken (acct c') = true).
  { apply (rtc_invariant (fun c => taken (acct c) = true) acct_step c c'); auto.
    intros a b Ha (x & _ & Hrun). destruct x; simpl in Hrun;
      unfold set_claim, mark_claim_taken, slice, return_slice in Hrun;
      repeat case_match; simplify_eq; simpl in *; congruence. }
  unfold set_claim, mark_claim_taken. by rewrite Ht'.
Qed.

(** A file that holds a claim never touches the pool to boot, so it can
    never block mid-file: [reserve] lends a slice when the request fits in
    what is left of the claim and fails at once otherwise, and in neither
    case does it park or change the pool. *)
Lemma claimed_boot_never_blocks now s a b amt sink :
  budget a = Some b ->
  exists a' turn,
    reserve now s (Some a) amt sink = (s, Some a', sink, turn) /\
    (forall k, turn <> ReserveParked k) /\
    match turn with
    | Held h => h = HoldClaim amt /\
        fits_in (saturating_add (cb_used b) amt) (cb_total b) = true /\
        cb_used <$> budget a' = Some (saturating_add (cb_used b) amt)
    | ReserveFailed e => e = ReserveClaim (ClaimExceeded amt (cb_total b) (cb_used b)) /\ a' = a
    | ReserveParked _ => False
    end.
Proof.
  intros Hb. unfold reserve, slice. rewrite Hb.
  destruct (fits_in (saturating_add (cb_used b) amt) (cb_total b)) eqn:Ef; cbn [negb]; eauto 10.
Qed.

(** A boot of a file without a claim is a pool reservation in the file's
    name: [reserve] is exactly [acquire_for] the account's owner, and the
    resulting reservation is attributed to it. *)
Lemma unclaimed_boot_attributed now s a o amt sink :
  budget a = None -> acc_owner a = Some o ->
  exists turn,
    reserve now s (Some a) amt sink =
      ((acquire_inner now s (Some o) amt sink).1.1, Some a,
       (acquire_inner now s (Some o) amt sink).1.2, pool_turn turn) /\
    turn = (acquire_inner now s (Some o) amt sink).2 /\
    forall r, turn = Granted r -> owner r = Some o /\ amount r = amt.
Proof.
  intros Hb Ho. unfold reserve, slice. rewrite Hb, Ho.
  destruct (acquire_inner now s (Some o) amt sink) as [[s' sk'] t] eqn:E. simpl.
  exists t. split_and!; auto. intros r ->. unfold acquire_inner, acquire_poll in E.
  repeat (case_match; simplify_eq); done.
Qed.

(** * Witnesses *)

Definition demo_claim : reservation := Reservation (RA 8 4) (Some 1).
Definition demo_acct : acct_config :=
  AcctConfig (Account (Some 1) true (Some (ClaimBudget demo_claim (RA 8 4) (RA 5 2))))
    (<[1 := RA 5 2]> ∅) 2.

Lemma demo_acct_reachable : acct_reachable (Some 1) demo_acct.
Proof.
  unfold acct_reachable.
  eapply rtc_l; [exists (ASetClaim demo_claim (RA 8 4)); split;
    [unfold acct_op_ok, claimable, ra_ok, in_width, u64_max, u32_max; simpl; lia
    |vm_compute; reflexivity]|].
  eapply rtc_l; [exists (ASlice (RA 3 1)); split;
    [unfold acct_op_ok, ra_ok, in_width, u64_max, u32_max; simpl; lia|vm_compute; reflexivity]|].
  eapply rtc_l; [exists (ASlice (RA 5 2)); split;
    [unfold acct_op_ok, ra_ok, in_width, u64_max, u32_max; simpl; lia|vm_compute; reflexivity]|].
  eapply rtc_l; [exists (ADropSlice 0); split; [done|vm_compute; reflexivity]|].
  apply rtc_refl.
Qed.

Lemma claim_never_exceeded_witness :
  memory_bytes (RA 5 2) = msum memory_bytes (slices demo_acct).
Proof.
  apply (claim_never_exceeded (Some 1) demo_acct (ClaimBudget demo_claim (RA 8 4) (RA 5 2))
    demo_acct_reachable).
  reflexivity.
Defined.

Lemma claim_one_shot_witness :
  set_claim (acct demo_acct) demo_claim (RA 1 1) = (acct demo_acct, false, Some demo_claim).
Proof.
  apply (claim_one_shot (Some 1) demo_acct demo_acct demo_claim (RA 1 1) demo_acct_reachable);
    [reflexivity|apply rtc_refl].
Defined.

Lemma claimed_boot_never_blocks_witness :
  exists a' turn, reserve 0 (pool_new (RA 16 8)) (Some (acct demo_acct)) (RA 3 1) None =
      (pool_new (RA 16 8), Some a', None, turn) /\ turn = Held (HoldClaim (RA 3 1)).
Proof.
  destruct (claimed_boot_never_blocks 0 (pool_new (RA 16 8)) (acct demo_acct)
    (ClaimBudget demo_claim (RA 8 4) (RA 5 2)) (RA 3 1) None) as (a' & turn & H & _);
    [reflexivity|].
  exists a', turn. split; [exact H|]. vm_compute in H. congruence.
Defined.

Lemma unclaimed_boot_attributed_witness :
  exists turn, (reserve 0 (pool_new (RA 16 8)) (Some (Account (Some 1) false None)) (RA 3 1) None).2 =
    pool_turn turn /\ turn = Granted (Reservation (RA 3 1) (Some 1)).
Proof.
  destruct (unclaimed_boot_attributed 0 (pool_new (RA 16 8)) (Account (Some 1) false None) 1
    (RA 3 1) None) as (turn & H & Ht & _); [reflexivity|reflexivity|].
  exists turn. split; [rewrite H; reflexivity|]. rewrite Ht. vm_compute. reflexivity.
Defined.
