(* ===== verification/Dispatch.v ===== *)
(** One run of the test files: [src/provium-host/src/scheduler/dispatch.rs] with
    the outcome types of [lua/runner.rs], and the vsock context identifiers of
    [cid.rs]. *)
From stdpp Require Import pretty.
From S2P Require Import Prelude Pool.

Open Scope string_scope.
Open Scope list_scope.
Open Scope Z_scope.

(** * Outcomes *)

Inductive test_status := TPassed | TFailed | TSkipped.

Record test_outcome := TestOutcome {
  to_name : string; to_status : test_status; to_message : option string; to_log : list string }.

Record file_outcome := FileOutcome {
  fo_path : string; chunk_error : option string; fo_tests : list test_outcome }.

Definition succeeded (s : test_status) : bool :=
  match s with TPassed | TSkipped => true | TFailed => false end.

Definition all_succeeded (o : file_outcome) : bool :=
  bool_decide (chunk_error o = None) && forallb (fun t => succeeded (to_status t)) (fo_tests o).

Inductive file_timeout_outcome := InTime | TimedOutFile.

#[export] Instance file_timeout_outcome_eq_dec : EqDecision file_timeout_outcome.
Proof. solve_decision. Defined.

Record dispatched_file := DispatchedFile {
  df_path : string; df_timeout : file_timeout_outcome; df_outcome : file_outcome }.

Definition passed (d : dispatched_file) : bool :=
  bool_decide (df_timeout d = InTime) && all_succeeded (df_outcome d).

Inductive file_status := FsPassed | FsFailed | FsTimedOut | FsCrashed.

(** Step 8 of [run_one_file]. *)
Definition status_of (d : dispatched_file) : file_status :=
  match df_timeout d with
  | TimedOutFile => FsTimedOut
  | InTime =>
      match chunk_error (df_outcome d) with
      | Some _ => FsCrashed
      | None => if all_succeeded (df_outcome d) then FsPassed else FsFailed
      end
  end.

(** The verdict the events carry is the one the exit code is made of. *)
Lemma passed_status d : passed d = true <-> status_of d = FsPassed.
Proof.
  unfold passed, status_of. destruct (df_timeout d); simpl; [|done].
  destruct (chunk_error (df_outcome d)) eqn:E; simpl.
  - unfold all_succeeded. rewrite E. done.
  - by destruct (all_succeeded (df_outcome d)).
Qed.

(** * Context identifiers *)

Definition FIRST_CID : Z := 100.

(** [CidAllocator::for_this_process]: 4096 lanes of 1024 identifiers. *)
Definition for_this_process (pid : Z) : Z := FIRST_CID + (pid mod 4096) * 1024.

(** [allocate]: a [fetch_add] on the 64-bit counter, then the conversion that
    panics ([None]) past the 32-bit space. *)
Definition allocate (next : Z) : Z * option Z :=
  (wrap u64_max (next + 1), if next <=? u32_max then Some next else None).

Fixpoint allocate_n (n : nat) (next : Z) : list (option Z) :=
  match n with
  | O => []
  | S n' => let '(next', c) := allocate next in c :: allocate_n n' next'
  end.

(** However the threads interleave, the identifiers handed out are the start
    and its successors, none twice; the allocation panics exactly when the
    32-bit space is used up. *)
Lemma allocate_n_exact n start i :
  0 <= start -> start + Z.of_nat n <= u64_max -> (i < n)%nat ->
  allocate_n n start !! i = Some (if start + Z.of_nat i <=? u32_max then Some (start + Z.of_nat i) else None).
Proof.
  revert start i. induction n as [|n IH]; intros start i H0 Hn Hi; [lia|].
  cbn [allocate_n allocate]. rewrite wrap_small by (unfold in_width; lia).
  destruct i as [|i]; cbn [lookup list_lookup].
  - by rewrite Z.add_0_r.
  - change (allocate_n n (start + 1) !! i = Some (if start + Z.of_nat (S i) <=? u32_max
      then Some (start + Z.of_nat (S i)) else None)).
    rewrite IH by lia. by replace (start + 1 + Z.of_nat i) with (start + Z.of_nat (S i)) by lia.
Qed.

(** Two processes of different lanes do not meet within a lane's length. *)
Lemma lanes_disjoint pid1 pid2 i j :
  pid1 mod 4096 <> pid2 mod 4096 -> 0 <= i < 1024 -> 0 <= j < 1024 ->
  for_this_process pid1 + i <> for_this_process pid2 + j.
Proof. unfold for_this_process. lia. Qed.

Lemma lane_in_width pid : 0 <= pid -> FIRST_CID <= for_this_process pid /\ for_this_process pid + 1024 <= u32_max.
Proof.
  unfold for_this_process, FIRST_CID, u32_max. pose proof (Z.mod_pos_bound pid 4096). lia.
Qed.

(** * The watchdog *)

(** [Duration]: whole seconds in 64 bits and nanoseconds. *)
Definition duration_max : Z := u64_max * 1000000000 + 999999999.

Lemma clock_below : u64_max < duration_max.
Proof. reflexivity. Qed.

Inductive wd_pc := WdPoll | WdFire | WdDone (fired : bool).

(** The watchdog thread, the file's thread as far as it parks in the pool and
    finishes, and the clock. [worked] is the time the file's thread was not
    parked; the code does not keep it. *)
Record watch := Watch {
  wd_now : Z; wd_sink : wait_sink; wd_completed : bool; wd_at : wd_pc; worked : Z }.

Inductive wd_label :=
| Advance (dt : Z)      (* time passes *)
| Parks | Unparks       (* the file's thread, in the pool *)
| Completes             (* the file's thread, when the file is over *)
| Turns.                (* one turn of the watchdog's loop *)

(** One turn: the two looks at [completed] around the deadline. *)
Definition wd_turn (timeout started : Z) (w : watch) : wd_pc :=
  match wd_at w with
  | WdPoll =>
      if wd_completed w then WdDone false
      else if sat_add duration_max timeout (waited (wd_now w) (wd_sink w)) <=? elapsed (wd_now w) started
           then WdFire else WdPoll
  | WdFire => WdDone (negb (wd_completed w))
  | pc => pc
  end.

Definition wd_step (timeout started : Z) (l : wd_label) (w : watch) : option watch :=
  match l with
  | Advance dt =>
      if dt <? 0 then None
      else Some (Watch (wd_now w + dt) (wd_sink w) (wd_completed w) (wd_at w)
                   (if parked_since (wd_sink w) is Some _ then worked w else worked w + dt))
  | Parks =>
      if parked_since (wd_sink w) is Some _ then None
      else Some (Watch (wd_now w) (park (wd_now w) (wd_sink w)) (wd_completed w) (wd_at w) (worked w))
  | Unparks => Some (Watch (wd_now w) (unpark (wd_now w) (wd_sink w)) (wd_completed w) (wd_at w) (worked w))
  | Completes => Some (Watch (wd_now w) (wd_sink w) true (wd_at w) (worked w))
  | Turns => Some (Watch (wd_now w) (wd_sink w) (wd_completed w) (wd_turn timeout started w) (worked w))
  end.

Definition wd_start (started : Z) : watch := Watch started wait_sink_new false WdPoll 0.

(** Up to the end of the clock, what the sink reports and what the thread
    worked add up to the time since the start. *)
Definition wd_inv (timeout started : Z) (w : watch) : Prop :=
  wd_now w - started <= u64_max ->
  started <= wd_now w /\ 0 <= settled_ns (wd_sink w) /\ 0 <= worked w /\
  (forall since, parked_since (wd_sink w) = Some since -> started <= since <= wd_now w) /\
  worked w + waited (wd_now w) (wd_sink w) = wd_now w - started /\
  (wd_at w = WdFire \/ wd_at w = WdDone true -> timeout <= worked w).

Lemma wd_inv_step timeout started l w w' :
  0 <= timeout <= duration_max -> wd_inv timeout started w -> wd_step timeout started l w = Some w' ->
  wd_inv timeout started w'.
Proof.
  intros Ht Hinv Hstep Hclock. unfold wd_inv in *.
  destruct l as [dt| | | |]; cbn [wd_step] in Hstep.
  - destruct (Z.ltb_spec dt 0) as [|Hdt]; [done|]. simplify_eq. simpl in *.
    destruct Hinv as (H1 & H2 & H3 & H4 & H5 & H6); [lia|]. unfold waited in *.
    destruct (parked_since (wd_sink w)) as [since|] eqn:Hp; simpl in *.
    + destruct (H4 since eq_refl). unfold elapsed in *. split_and!; try lia.
      * intros ? [= <-]. lia.
      * intros Hf. by apply H6.
    + split_and!; try lia; [done|]. intros Hf. specialize (H6 Hf). lia.
  - destruct (parked_since (wd_sink w)) as [since|] eqn:Hp; [done|]. simplify_eq. simpl in *.
    destruct Hinv as (H1 & H2 & H3 & H4 & H5 & H6); [lia|]. unfold waited in *. rewrite Hp in H5. simpl in *.
    unfold elapsed. split_and!; try lia; auto. intros ? [= <-]. lia.
  - simplify_eq. simpl in *. destruct Hinv as (H1 & H2 & H3 & H4 & H5 & H6); [lia|].
    unfold unpark, waited in *. destruct (parked_since (wd_sink w)) as [since|] eqn:Hp; simpl in *; [|by rewrite Hp].
    destruct (H4 since eq_refl). unfold elapsed in *.
    rewrite (wrap_small _ (Z.max 0 _)) by (unfold in_width, u64_max in *; lia).
    rewrite wrap_small by (unfold in_width, u64_max in *; lia). split_and!; try lia; auto. done.
  - simplify_eq. simpl in *. auto.
  - simplify_eq. simpl in *. destruct Hinv as (H1 & H2 & H3 & H4 & H5 & H6); [lia|]. split_and!; auto.
    unfold wd_turn. destruct (wd_at w) eqn:Hat.
    + destruct (wd_completed w); [intros [?|?]; done|].
      destruct (Z.leb_spec (sat_add duration_max timeout (waited (wd_now w) (wd_sink w))) (elapsed (wd_now w) started));
        [|intros [?|?]; done]. intros _. unfold sat_add, elapsed in *.
      pose proof clock_below. lia.
    + intros _. auto.
    + auto.
Qed.


(** * One file *)

Inductive event :=
| EFileBlocked (path : string) (waiting_for : resource_amount) (reason : string)
| EFileDispatched (path : string) (reservation : resource_amount)
| EFromRun (e : string)
| EClaimReleased (path : string) (amount : resource_amount)
| EVmShutdown (file vm_name : string)
| EFileCompleted (path : string) (status : file_status).

Definition show_amount (a : resource_amount) : string :=
  "ResourceAmount { memory_bytes: " +:+ pretty (memory_bytes a) +:+ ", cpus: " +:+ pretty (cpus a) +:+ " }".

(** What a file's thread meets on its way: what the pressure flag reads at
    each look, whether its reservation is there at once and otherwise what the
    pool says in the end, how the run of the file ends and what it emits, what
    the watchdog reports, and what the lab still holds. *)
Inductive run_result := RunOk (o : file_outcome) | RunErr (msg : string) | RunPanic (msg : string).
Inductive acquire_refusal := RefusedTotal (requested total : resource_amount) | RefusedDeadlock (display : string).

Record file_run := FileRun {
  fr_pressure : option (list bool);
  fr_free : bool;
  fr_acquired : result unit acquire_refusal;
  fr_result : run_result;
  fr_events : list string;
  fr_fired : option bool;
  fr_claim : option resource_amount;
  fr_alive : list (string * bool) }.

Definition wait_psi (path : string) (overhead : resource_amount) (polls : option (list bool)) : list event :=
  match polls with
  | Some (true :: _) => [EFileBlocked path overhead "psi_pressure"]
  | _ => []
  end.

Definition refused_file (path : string) (e : acquire_refusal) : dispatched_file :=
  DispatchedFile path InTime (FileOutcome path
    (Some match e with
          | RefusedTotal requested total =>
              "per-file overhead " +:+ show_amount requested +:+ " exceeds total pool budget " +:+ show_amount total
          | RefusedDeadlock e => "per-file overhead cannot be reserved: " +:+ e
          end) []).

Definition outcome_of (path : string) (r : run_result) : file_outcome :=
  match r with
  | RunOk o => o
  | RunErr e => FileOutcome path (Some ("runner: " +:+ e)) []
  | RunPanic msg => FileOutcome path (Some ("panicked: " +:+ msg)) []
  end.

Definition run_one_file (path : string) (overhead : resource_amount) (f : file_run) : dispatched_file * list event :=
  let psi := wait_psi path overhead (fr_pressure f) in
  let blocked := if fr_free f then [] else [EFileBlocked path overhead "pool_full"] in
  match (if fr_free f then Ok () else fr_acquired f) with
  | Err e => (refused_file path e, psi ++ blocked)
  | Ok _ =>
      let timed_out := match fr_fired f with Some true => TimedOutFile | _ => InTime end in
      let d := DispatchedFile path timed_out (outcome_of path (fr_result f)) in
      (d, psi ++ blocked ++ [EFileDispatched path overhead] ++ (EFromRun <$> fr_events f) ++
          match fr_claim f with Some amt => [EClaimReleased path amt] | None => [] end ++
          omap (fun v => if v.2 : bool then Some (EVmShutdown path v.1) else None) (fr_alive f) ++
          [EFileCompleted path (status_of d)])
  end.

Lemma run_one_file_path path overhead f : df_path (run_one_file path overhead f).1 = path.
Proof. unfold run_one_file. destruct (fr_free f); [done|]. by destruct (fr_acquired f). Qed.

(** What the reference promises a consumer of the events of one file: blocked
    events come before the one dispatched event, and the one completed event
    is the last, with the verdict of the result. A file whose overhead is
    refused emits neither. *)
Lemma event_guarantees path overhead f :
  let '(d, evs) := run_one_file path overhead f in
  exists blocked, Forall (fun e => exists why, e = EFileBlocked path overhead why) blocked /\
    ((exists e, fr_acquired f = Err e /\ d = refused_file path e /\ evs = blocked) \/
     (exists inner, evs = blocked ++ EFileDispatched path overhead :: inner ++ [EFileCompleted path (status_of d)] /\
        Forall (fun e => match e with EFromRun _ | EClaimReleased _ _ | EVmShutdown _ _ => True | _ => False end) inner)).
Proof.
  unfold run_one_file.
  set (blocked := wait_psi path overhead (fr_pressure f) ++ if fr_free f then [] else [EFileBlocked path overhead "pool_full"]).
  assert (Hb : Forall (fun e => exists why, e = EFileBlocked path overhead why) blocked).
  { unfold blocked. apply Forall_app. split.
    - unfold wait_psi. repeat case_match; try constructor; eauto.
    - destruct (fr_free f); repeat constructor. eauto. }
  destruct (if fr_free f then Ok () else fr_acquired f) as [u|e] eqn:E.
  - exists blocked. split; [done|]. right.
    exists ((EFromRun <$> fr_events f) ++ (match fr_claim f with Some amt => [EClaimReleased path amt] | None => [] end) ++
      omap (fun v => if v.2 : bool then Some (EVmShutdown path v.1) else None) (fr_alive f)).
    split; [unfold blocked; by rewrite <- !app_assoc|]. rewrite !Forall_app. split_and!.
    + apply Forall_fmap, Forall_true. by intros x.
    + destruct (fr_claim f); repeat constructor.
    + apply Forall_forall. intros x Hx. apply list_elem_of_omap in Hx as ([n b] & _ & Hx). simpl in Hx. destruct b; [by injection Hx as <-|done].
  - exists blocked. split; [done|]. left. exists e. destruct (fr_free f); [done|]. done.
Qed.

(** * All files ([dispatch_files_with_progress]) *)

Definition skipped_file (path : string) : dispatched_file :=
  DispatchedFile path InTime (FileOutcome path (Some "skipped: --fail-fast") []).

(** [panic_to_dispatched]: what a join makes of a thread that panicked. *)
Definition panic_to_dispatched : dispatched_file :=
  DispatchedFile "<unknown>" InTime
    (FileOutcome "<unknown>" (Some "dispatcher worker thread panicked") []).

(** A file's thread: not yet scheduled, past the look at the stop flag, with
    a result it is about to report ([ran]: it did run the file), and over. *)
Inductive file_thread :=
| Fresh
| Underway
| Reporting (ran : bool) (d : dispatched_file)
| Joined (ran : bool) (own : dispatched_file) (d : dispatched_file).

Record dispatch_state := DispatchState { stop_flag : bool; threads : list file_thread }.

Inductive dispatch_label :=
| Starts (i : nat)
| Finishes (i : nat) (f : file_run)
| Reports (i : nat) (panics : bool).

Section dispatch.
Context (paths : list string) (overhead : resource_amount) (fail_fast : bool).

Definition dispatch_step (l : dispatch_label) (s : dispatch_state) : option dispatch_state :=
  match l with
  | Starts i =>
      path ← paths !! i; t ← threads s !! i;
      match t with
      | Fresh =>
          Some (DispatchState (stop_flag s)
            (<[i := if fail_fast && stop_flag s then Reporting false (skipped_file path) else Underway]> (threads s)))
      | _ => None
      end
  | Finishes i f =>
      path ← paths !! i; t ← threads s !! i;
      match t with
      | Underway =>
          let d := (run_one_file path overhead f).1 in
          Some (DispatchState (stop_flag s || (fail_fast && negb (passed d)))
                 (<[i := Reporting true d]> (threads s)))
      | _ => None
      end
  | Reports i panics =>
      t ← threads s !! i;
      match t with
      | Reporting ran d =>
          Some (DispatchState (stop_flag s) (<[i := Joined ran d (if panics then panic_to_dispatched else d)]> (threads s)))
      | _ => None
      end
  end.

Definition dispatch_start : dispatch_state := DispatchState false (replicate (length paths) Fresh).

(** The joins, in the order of the paths. *)
Definition results (s : dispatch_state) : option (list dispatched_file) :=
  mapM (fun t => match t with Joined _ _ d => Some d | _ => None end) (threads s).
End dispatch.

(** [run]'s count and [main]'s exit code for it: as they
    were streamed every result is counted, with a conversion to 32 bits; else
    the printing loop counts, and [--fail-fast] stops it at the first. *)
Definition failed_count (streamed fail_fast : bool) (ds : list dispatched_file) : Z :=
  let failed := filter (fun d => passed d = false) ds in
  if streamed then wrap u32_max (zlen failed)
  else zlen (if fail_fast then take 1 failed else failed).
Definition exit_code (run : result Z string) : Z :=
  match run with Ok 0 => 0 | Ok _ => 1 | Err _ => 2 end.

(** How the coverage tool ended: its exit code if it has one ([i32]), or it
    could not be started. *)
Inductive tool_end := ToolCode (code : Z) | ToolSignalled | ToolMissing.

(** What [run] returns once the files are counted. [coverage] is [None] when
    nothing was asked for. *)
Definition run_result_code (failed : Z) (coverage : option tool_end) : result Z string :=
  match coverage with
  | None => Ok failed
  | Some (ToolCode code) => if code =? 0 then Ok failed else Ok (wrap u32_max code)
  | Some ToolSignalled | Some ToolMissing => Ok 1
  end.

Section dispatch_proofs.
Context (paths : list string) (overhead : resource_amount) (fail_fast : bool).

Definition thread_file (t : file_thread) : option (bool * dispatched_file) :=
  match t with Reporting ran d => Some (ran, d) | Joined ran own _ => Some (ran, own) | _ => None end.

Record dispatch_ok (s : dispatch_state) : Prop := {
  do_length : length (threads s) = length paths;
  do_path i t ran d : threads s !! i = Some t -> thread_file t = Some (ran, d) ->
    exists path, paths !! i = Some path /\ df_path d = path /\ (ran = false -> d = skipped_file path);
  do_joined i ran own d : threads s !! i = Some (Joined ran own d) -> d = own \/ d = panic_to_dispatched;
  do_flag : stop_flag s = true ->
    fail_fast = true /\ exists j t d, threads s !! j = Some t /\ thread_file t = Some (true, d) /\ passed d = false;
  do_skipped i t d : threads s !! i = Some t -> thread_file t = Some (false, d) -> stop_flag s = true;
}.

Lemma dispatch_ok_move s i t t' flag :
  dispatch_ok s -> threads s !! i = Some t -> thread_file t = None \/ thread_file t' = thread_file t ->
  (stop_flag s = true -> flag = true) ->
  (forall ran d, thread_file t' = Some (ran, d) ->
     exists path, paths !! i = Some path /\ df_path d = path /\ (ran = false -> d = skipped_file path)) ->
  (forall ran own d, t' = Joined ran own d -> d = own \/ d = panic_to_dispatched) ->
  (flag = true -> stop_flag s = true \/ fail_fast = true /\ exists d, thread_file t' = Some (true, d) /\ passed d = false) ->
  (forall d, thread_file t' = Some (false, d) -> flag = true) ->
  dispatch_ok (DispatchState flag (<[i := t']> (threads s))).
Proof.
  intros [H1 H2 H3 H4 H5] Hi Hkeep Hmono Hpath Hjoin Hflag Hskip.
  assert (Hlt : (i < length (threads s))%nat) by by eapply lookup_lt_Some.
  split; cbn [threads stop_flag].
  - by rewrite length_insert.
  - intros j u ran d Hj Hu. apply list_lookup_insert_Some in Hj as [(-> & <- & _)|[_ Hj]]; eauto.
  - intros j ran own d Hj. apply list_lookup_insert_Some in Hj as [(-> & -> & _)|[_ Hj]]; eauto.
  - intros Hf. destruct (Hflag Hf) as [Hs|(Hff & d & Hd & Hp)].
    + destruct (H4 Hs) as (Hff & j & u & d & Hj & Hu & Hp). split; [done|].
      destruct (decide (j = i)) as [->|Hne].
      * exists i, t', d. rewrite list_lookup_insert_eq by done. rewrite Hi in Hj. injection Hj as <-.
        destruct Hkeep as [Hk|Hk]; [congruence|]. by rewrite Hk.
      * exists j, u, d. by rewrite list_lookup_insert_ne.
    + split; [done|]. exists i, t', d. by rewrite list_lookup_insert_eq.
  - intros j u d Hj Hu. apply list_lookup_insert_Some in Hj as [(-> & <- & _)|[_ Hj]]; eauto.
Qed.

Lemma dispatch_ok_step l s s' :
  dispatch_ok s -> dispatch_step paths overhead fail_fast l s = Some s' -> dispatch_ok s'.
Proof.
  intros Hok. destruct l as [i|i f|i panics]; cbn [dispatch_step].
  - destruct (paths !! i) as [path|] eqn:Hp; [|done]. destruct (threads s !! i) as [t|] eqn:Hi; [|done].
    simpl. destruct t; try done. intros [= <-]. eapply dispatch_ok_move; eauto.
    + intros ran d. destruct (fail_fast && stop_flag s); [|done]. intros [= <- <-]. by exists path.
    + intros ran own d. by destruct (fail_fast && stop_flag s).
    + intros d. destruct (fail_fast && stop_flag s) eqn:E; [|done]. intros _. by apply andb_prop in E as [_ ?].
  - destruct (paths !! i) as [path|] eqn:Hp; [|done]. destruct (threads s !! i) as [t|] eqn:Hi; [|done].
    simpl. destruct t; try done. intros [= <-]. eapply dispatch_ok_move; eauto.
    + by intros ->.
    + intros ran d [= <- <-]. exists path. split_and!; [done|apply run_one_file_path|done].
    + done.
    + intros [?|[Hff Hd]%andb_prop]%orb_prop; [by left|right]. split; [done|]. eexists. split; [done|].
      by apply negb_true_iff.
    + done.
  - destruct (threads s !! i) as [t|] eqn:Hi; [|done]. simpl. destruct t as [| |ran d|]; try done. intros [= <-].
    pose proof Hok as [_ H2 _ _ H5]. eapply dispatch_ok_move; eauto.
    + intros ran' own d' [= <- <- <-]. destruct panics; auto.
Qed.

Lemma dispatch_ok_start : dispatch_ok (dispatch_start paths).
Proof.
  unfold dispatch_start. split; cbn [threads stop_flag].
  - by rewrite length_replicate.
  - intros i t ran d Hi. apply lookup_replicate in Hi as [-> _]. done.
  - intros i ran own d Hi. apply lookup_replicate in Hi as [? _]. done.
  - done.
  - intros i t d Hi. apply lookup_replicate in Hi as [-> _]. done.
Qed.

Lemma no_failures ds : filter (fun d => passed d = false) ds = [] <-> Forall (fun d => passed d = true) ds.
Proof.
  induction ds as [|d ds IH]; [by split|]. rewrite filter_cons.
  destruct (decide (passed d = false)) as [Hd|Hd].
  - split; [done|]. intros HF. inversion HF. congruence.
  - rewrite IH, Forall_cons. apply not_false_iff_true in Hd. tauto.
Qed.

Lemma failed_count_zero streamed ff ds :
  zlen ds <= u32_max ->
  0 <= failed_count streamed ff ds /\
  (failed_count streamed ff ds = 0 <-> Forall (fun d => passed d = true) ds).
Proof.
  intros Hl. rewrite <- no_failures. unfold failed_count.
  set (l := filter (fun d => passed d = false) ds).
  assert (Hn : zlen l <= zlen ds) by (unfold zlen; apply Nat2Z.inj_le, length_filter).
  pose proof (zlen_nonneg l).
  assert (H0 : zlen l = 0 <-> l = []) by (destruct l; unfold zlen; simpl; split; intros; try done; lia).
  destruct streamed; [rewrite wrap_small by (unfold in_width; lia); tauto|]. destruct ff; [|tauto].
  destruct l; unfold zlen in *; simpl in *; split; try lia; split; intros; try done; lia.
Qed.

(** When the process exits with 0. *)
Lemma exit_zero streamed ds tool :
  zlen ds <= u32_max -> (forall code, tool = Some (ToolCode code) -> - 2 ^ 31 <= code < 2 ^ 31) ->
  exit_code (run_result_code (failed_count streamed fail_fast ds) tool) = 0 <->
  Forall (fun d => passed d = true) ds /\ (tool = None \/ tool = Some (ToolCode 0)).
Proof.
  intros Hlen Hcode. rewrite <- (proj2 (failed_count_zero streamed fail_fast ds Hlen)).
  assert (Hexit : forall n, exit_code (Ok n) = 0 <-> n = 0) by (intros n; destruct n; simpl; split; (done || lia)).
  destruct tool as [[code| |]|]; cbn [run_result_code].
  - specialize (Hcode code eq_refl). destruct (Z.eqb_spec code 0) as [->|Hne]; rewrite Hexit; [naive_solver|].
    unfold wrap, u32_max. split; [|naive_solver]. intros Hz. exfalso. apply Z.mod_divide in Hz; [|lia]. destruct Hz as [k Hk]. lia.
  - rewrite Hexit. naive_solver.
  - rewrite Hexit. naive_solver.
  - rewrite Hexit. naive_solver.
Qed.

(** C33: every file is accounted for. However the threads of the files
    interleave, when all have been joined there is one result per path, in the
    order of the paths, and it is the path's own unless that thread panicked
    while it reported; a file is skipped only under [--fail-fast] and after
    another file that did run failed; and the process exits with 0 exactly if
    every result passed and the coverage tool, where [--coverage] asked for it,
    ended with 0 as well. *)
Theorem every_file_accounted ls s ds streamed tool :
  zlen paths <= u32_max -> (forall code, tool = Some (ToolCode code) -> - 2 ^ 31 <= code < 2 ^ 31) ->
  run_labels (dispatch_step paths overhead fail_fast) ls (dispatch_start paths) = Some s ->
  results s = Some ds ->
  length ds = length paths /\
  (forall i path d, paths !! i = Some path -> ds !! i = Some d -> df_path d = path \/ d = panic_to_dispatched) /\
  (forall i t d, threads s !! i = Some t -> thread_file t = Some (false, d) ->
     fail_fast = true /\ exists j u d', j <> i /\ threads s !! j = Some u /\
       thread_file u = Some (true, d') /\ passed d' = false) /\
  (exit_code (run_result_code (failed_count streamed fail_fast ds) tool) = 0 <->
     Forall (fun d => status_of d = FsPassed) ds /\ (tool = None \/ tool = Some (ToolCode 0))).
Proof.
  intros Hpaths Hcode Hrun Hds.
  apply (run_labels_invariant _ (fun _ => True) dispatch_ok) in Hrun; auto using Forall_true, dispatch_ok_start.
  2:{ intros. by eapply dispatch_ok_step. }
  destruct Hrun as [H1 H2 H3 H4 H5]. apply mapM_Some in Hds.
  assert (Hlen : length ds = length paths) by (rewrite <- H1; symmetry; by eapply Forall2_length).
  split_and!; [done| | |].
  - intros i path d Hp Hd. destruct (Forall2_lookup_r _ _ _ _ _ Hds Hd) as (t & Ht & E).
    destruct t as [| | |ran own d']; try done. injection E as ->.
    destruct (H3 i ran own d Ht) as [->| ->]; [left|by right].
    destruct (H2 i _ ran own Ht eq_refl) as (p & Hp' & Hpath & _). congruence.
  - intros i t d Hi Ht. pose proof (H5 _ _ _ Hi Ht) as Hf.
    destruct (H4 Hf) as (Hff & j & u & d' & Hj & Hu & Hp). split; [done|].
    exists j, u, d'. split_and!; auto. intros ->. congruence.
  - rewrite exit_zero; [|by unfold zlen in *; rewrite Hlen|done]. f_equiv. apply Forall_iff. intros d. apply passed_status.
Qed.
End dispatch_proofs.

(** * Witnesses *)

(** A file that works 3, queues 10, works 3 more, with a timeout of 5. *)
Definition demo_watch : list wd_label :=
  [Advance 3; Parks; Advance 10; Turns; Unparks; Turns; Advance 3; Turns; Turns].


Definition demo_run (status : test_status) : file_run :=
  FileRun None true (Ok ()) (RunOk (FileOutcome "f" None [TestOutcome "t" status None []])) [] (Some false) None [].

(** Two files under [--fail-fast]: the first fails, the second starts later. *)
Definition demo_dispatch : list dispatch_label :=
  [Starts 0; Finishes 0 (demo_run TFailed); Starts 1; Reports 1 false; Reports 0 false].

Lemma every_file_accounted_witness :
  exists s ds, run_labels (dispatch_step ["a"; "b"] ra_zero true) demo_dispatch (dispatch_start ["a"; "b"]) = Some s /\
    results s = Some ds /\ length ds = 2%nat /\
    (exit_code (run_result_code (failed_count true true ds) (Some (ToolCode 3))) = 0 <->
       Forall (fun d => status_of d = FsPassed) ds /\ (Some (ToolCode 3) = None \/ Some (ToolCode 3) = Some (ToolCode 0))).
Proof.
  do 2 eexists. split; [vm_compute; reflexivity|]. split; [vm_compute; reflexivity|].
  split; [reflexivity|].
  apply (every_file_accounted ["a"; "b"] ra_zero true demo_dispatch (DispatchState true
    [Joined true (run_one_file "a" ra_zero (demo_run TFailed)).1 (run_one_file "a" ra_zero (demo_run TFailed)).1;
     Joined false (skipped_file "b") (skipped_file "b")]) _ true (Some (ToolCode 3))).
  - done.
  - intros code [= <-]. lia.
  - vm_compute; reflexivity.
  - vm_compute; reflexivity.
Defined.

(** The stop flag is looked at before the pool is asked: a file that queues in
    the pool when another one fails runs all the same. *)
Example fail_fast_misses_queued :
  (s ← run_labels (dispatch_step ["a"; "b"] ra_zero true)
     [Starts 0; Starts 1; Finishes 0 (demo_run TFailed);
      Finishes 1 (FileRun None false (Ok ()) (RunOk (FileOutcome "b" None [])) [] (Some false) None []);
      Reports 0 false; Reports 1 false] (dispatch_start ["a"; "b"]);
   Some (stop_flag s, passed <$> default [] (results s))) = Some (true, [false; true]).
Proof. by vm_compute. Qed.

(** A file whose overhead is refused has a result but no [FileCompleted]. *)
Example refused_file_emits_no_completion :
  (run_one_file "a" (RA 100 0)
     (FileRun None false (Err (RefusedTotal (RA 100 0) (RA 50 4))) (RunOk (FileOutcome "a" None [])) [] None None [])).2
  = [EFileBlocked "a" (RA 100 0) "pool_full"].
Proof. by vm_compute. Qed.
