(* ===== verification/Nbd.v ===== *)
(** The mediated disk of [src/provium-host/src/nbd.rs]: a backing image, the
    overlay of unflushed sectors, and the fault policy. *)
From stdpp Require Import sorting.
From S2P Require Import Prelude Frame.

(** * The backing image *)

Definition SECTOR : Z := 512.
Definition OVERLAY_CAP_BYTES : Z := 64 * 1024 * 1024.

(** An open [std::fs::File]: its bytes, how the positioned writes to come end,
    and whether [sync_data] succeeds. A write succeeds, or fails after its first
    bytes have reached the file, as many as the entry says; writes beyond the
    list succeed. *)
Record image := Image { content : bytes; host_writes : list (option nat); sync_ok : bool }.

(** [FileExt::read_exact_at]. *)
Definition read_exact_at (f : image) (len : nat) (offset : Z) : result bytes io_kind :=
  let off := Z.to_nat offset in
  if (off + len <=? length (content f))%nat
  then Ok (take len (drop off (content f)))
  else Err UnexpectedEofKind.

(** Bytes that reach the file: past its end it grows, the gap reading as zeroes. *)
Definition put_at (f : bytes) (data : bytes) (off : nat) : bytes :=
  match data with
  | [] => f
  | _ => splice (f ++ replicate (off + length data - length f) x00) off data
  end.

(** [FileExt::write_all_at]. *)
Definition write_all_at (f : image) (data : bytes) (offset : Z) : image * result unit io_kind :=
  match host_writes f with
  | Some torn :: rest => (Image (put_at (content f) (take torn data) (Z.to_nat offset)) rest (sync_ok f), Err OtherIo)
  | writes => (Image (put_at (content f) data (Z.to_nat offset)) (tail writes) (sync_ok f), Ok ())
  end.

(** * [DiskState] *)

Record disk_state := DiskState {
  file : image;
  size : Z;
  overlay : gmap Z bytes;
  flushes : Z;
}.

Definition set_overlay (ov : gmap Z bytes) (d : disk_state) : disk_state :=
  DiskState (file d) (size d) ov (flushes d).

(** The sectors a byte range touches: [(a / SECTOR)..=((b - 1) / SECTOR)]. *)
Definition sectors (a b : Z) : list Z :=
  seqZ (a / SECTOR) ((b - 1) / SECTOR - a / SECTOR + 1).

(** [buf[i..j]]. *)
Definition slice_of (l : bytes) (i j : Z) : bytes :=
  take (Z.to_nat (j - i)) (drop (Z.to_nat i) l).

(** One turn of the loop of [DiskState::read]. *)
Definition patch_sector (d : disk_state) (offset end_ : Z) (buf : bytes) (sector : Z) : bytes :=
  match overlay d !! sector with
  | None => buf
  | Some held =>
      let start := sector * SECTOR in
      let from := Z.max offset start in
      let to := Z.min end_ (start + SECTOR) in
      splice buf (Z.to_nat (from - offset)) (slice_of held (from - start) (to - start))
  end.

Definition disk_read (d : disk_state) (offset : Z) (len : Z) : result bytes io_kind :=
  if len =? 0 then Ok []
  else
    match checked_add u64_max offset len with
    | None => Err InvalidInput
    | Some end_ =>
        if size d <? end_ then Err InvalidInput
        else
          let? buf := read_exact_at (file d) (Z.to_nat len) offset in
          Ok (foldl (patch_sector d offset end_) buf (sectors offset end_))
    end.

(** Commit sectors to the backing file, stopping at the first error. *)
Fixpoint write_sectors (f : image) (l : list (Z * bytes)) : image * result unit io_kind :=
  match l with
  | [] => (f, Ok ())
  | (sector, data) :: l' =>
      match write_all_at f data (sector * SECTOR) with
      | (f', Ok _) => write_sectors f' l'
      | (f', Err k) => (f', Err k)
      end
  end.

(** The order a [BTreeMap] is walked in. *)
Definition by_sector (a b : Z * bytes) : Prop := a.1 <= b.1.

#[export] Instance by_sector_dec : RelDecision by_sector.
Proof. intros a b. apply Z_le_dec. Defined.

Definition ascending (ov : gmap Z bytes) : list (Z * bytes) :=
  merge_sort by_sector (map_to_list ov).

(** [DiskState::flush]: the overlay is taken before it is written. *)
Definition disk_flush (d : disk_state) : disk_state * result unit io_kind :=
  let '(f, res) := write_sectors (file d) (ascending (overlay d)) in
  match res with
  | Err k => (DiskState f (size d) ∅ (flushes d), Err k)
  | Ok _ =>
      if sync_ok f then (DiskState f (size d) ∅ (flushes d + 1), Ok ())
      else (DiskState f (size d) ∅ (flushes d), Err OtherIo)
  end.

(** One turn of the loop of [DiskState::write]. *)
Definition write_sector (offset end_ : Z) (data : bytes) (d : disk_state) (sector : Z)
  : disk_state * result unit io_kind :=
  let start := sector * SECTOR in
  let base :=
    match overlay d !! sector with
    | Some held => Ok held
    | None => read_exact_at (file d) (Z.to_nat SECTOR) start
    end in
  match base with
  | Err k => (d, Err k)
  | Ok held =>
      let from := Z.max offset start in
      let to := Z.min end_ (start + SECTOR) in
      let held' := splice held (Z.to_nat (from - start))
                     (slice_of data (from - offset) (to - offset)) in
      (set_overlay (<[sector := held']> (overlay d)) d, Ok ())
  end.

Fixpoint write_loop (offset end_ : Z) (data : bytes) (d : disk_state) (l : list Z)
  : disk_state * result unit io_kind :=
  match l with
  | [] => (d, Ok ())
  | s :: l' =>
      match write_sector offset end_ data d s with
      | (d', Ok _) => write_loop offset end_ data d' l'
      | (d', Err k) => (d', Err k)
      end
  end.

Definition disk_write (d : disk_state) (offset : Z) (data : bytes)
  : disk_state * result unit io_kind :=
  match data with
  | [] => (d, Ok ())
  | _ =>
      match checked_add u64_max offset (zlen data) with
      | None => (d, Err InvalidInput)
      | Some end_ =>
          if size d <? end_ then (d, Err InvalidInput)
          else
            match write_loop offset end_ data d (sectors offset end_) with
            | (d', Err k) => (d', Err k)
            | (d', Ok _) =>
                if OVERLAY_CAP_BYTES <? Z.of_nat (map_size (overlay d')) * SECTOR
                then disk_flush d' else (d', Ok ())
            end
      end
  end.

(** [MediatedDisk::power_cut]. *)
Definition power_cut (d : disk_state) : disk_state := set_overlay ∅ d.

Definition unflushed_sectors (d : disk_state) : Z := Z.of_nat (map_size (overlay d)).

(** * [FaultPolicy] *)

Record fault_policy := FaultPolicy {
  fail_reads : bool;
  fail_writes : bool;
  fail_after : option Z;
  fail_range : option (Z * Z);
  delay : option Z;
}.

#[export] Instance fault_policy_eq_dec : EqDecision fault_policy.
Proof. solve_decision. Defined.

Definition no_faults : fault_policy := FaultPolicy false false None None None.

Definition CMD_READ : Z := 0.
Definition CMD_WRITE : Z := 1.
Definition CMD_DISC : Z := 2.
Definition CMD_FLUSH : Z := 3.
Definition CMD_FLAG_FUA : Z := 1.

(** The part of [Shared] a command sees. *)
Record shared := Shared {
  state : disk_state;
  policy : fault_policy;
  io_count : Z;
}.

(** Whether a command's bytes overlap the armed sector range. *)
Definition range_hit (rule : option (Z * Z)) (offset length : Z) : bool :=
  match rule with
  | None => false
  | Some (sector, count) =>
      if (0 <? length) && (0 <? count) then
        let start := wrap u64_max (sector * SECTOR) in
        let end_ := sat_add u64_max start (wrap u64_max (count * SECTOR)) in
        let command_end := sat_add u64_max offset length in
        (offset <? end_) && (start <? command_end)
      else false
  end.

(** [Shared::consult], with the time it sleeps as its last result. *)
Definition consult (sh : shared) (command offset length : Z) : shared * bool * Z :=
  let p := policy sh in
  if bool_decide (p = no_faults) then (sh, false, 0)
  else
    let slept := default 0 (delay p) in
    let seen := wrap u64_max (io_count sh + 1) in
    let sh' := Shared (state sh) p seen in
    if match fail_after p with Some n => n <=? seen | None => false end then (sh', true, slept)
    else if (command =? CMD_READ) && fail_reads p then (sh', true, slept)
    else if (command =? CMD_WRITE) && fail_writes p then (sh', true, slept)
    else (sh', range_hit (fail_range p) offset length, slept).

(** [MediatedDisk::set_policy] and [clear_policy]. *)
Definition set_policy (sh : shared) (p : fault_policy) : shared := Shared (state sh) p 0.
Definition clear_policy (sh : shared) : shared := set_policy sh no_faults.

(** * Lemmas on slices and sectors *)

Ltac sector_lia := unfold SECTOR in *; Z.to_euclidean_division_equations; lia.

Lemma length_slice_of l i j :
  0 <= i <= j -> j <= zlen l -> length (slice_of l i j) = Z.to_nat (j - i).
Proof.
  intros. unfold slice_of, zlen in *. rewrite length_take, length_drop. lia.
Qed.

Lemma lookup_slice_of l i j (k : nat) :
  0 <= i <= j -> Z.of_nat k < j - i -> slice_of l i j !! k = l !! Z.to_nat (i + Z.of_nat k).
Proof.
  intros. unfold slice_of. rewrite lookup_take_lt by lia. rewrite lookup_drop. f_equal. lia.
Qed.

Lemma elem_of_sectors a b s :
  0 <= a < b -> s ∈ sectors a b <-> a / SECTOR <= s <= (b - 1) / SECTOR.
Proof. intros. unfold sectors. rewrite elem_of_seqZ. lia. Qed.

Lemma sector_of_byte a b i s :
  0 <= a <= i -> i < b -> i / SECTOR = s -> s ∈ sectors a b.
Proof. intros. apply elem_of_sectors; sector_lia. Qed.

(** A sound disk: the image has the advertised size, and the overlay holds
    whole sectors of it. *)
Record disk_ok (d : disk_state) : Prop := {
  dok_size : zlen (content (file d)) = size d;
  dok_max : size d <= u64_max;
  dok_overlay s held : overlay d !! s = Some held ->
    0 <= s /\ (s + 1) * SECTOR <= size d /\ zlen held = SECTOR;
}.

(** What the guest sees at byte [i]: the overlay, or the image under it. *)
Definition visible (d : disk_state) (i : nat) : option byte :=
  match overlay d !! (Z.of_nat i / SECTOR) with
  | Some held => held !! Z.to_nat (Z.of_nat i mod SECTOR)
  | None => content (file d) !! i
  end.

(** What a power cut leaves at byte [i]. *)
Definition durable (d : disk_state) (i : nat) : option byte := content (file d) !! i.

Lemma patch_sector_lookup d offset end_ buf s (j : nat) :
  disk_ok d -> 0 <= offset < end_ -> zlen buf = end_ - offset ->
  s ∈ sectors offset end_ -> Z.of_nat j < end_ - offset ->
  zlen (patch_sector d offset end_ buf s) = zlen buf /\
  patch_sector d offset end_ buf s !! j =
    if decide ((offset + Z.of_nat j) / SECTOR = s)
    then match overlay d !! s with
         | Some held => held !! Z.to_nat ((offset + Z.of_nat j) mod SECTOR)
         | None => buf !! j
         end
    else buf !! j.
Proof.
  intros Hd Ho Hbuf Hs Hj. apply elem_of_sectors in Hs; [|done]. unfold patch_sector.
  destruct (overlay d !! s) as [held|] eqn:Eh; [|by case_decide].
  destruct (dok_overlay _ Hd s held Eh) as (Hs0 & _ & Hh).
  set (start := s * SECTOR). set (from := Z.max offset start).
  set (to := Z.min end_ (start + SECTOR)).
  assert (Hft : from < to) by (subst start from to; sector_lia).
  assert (Hr : 0 <= from - start <= to - start) by lia.
  assert (Hrl : to - start <= zlen held) by (subst to; lia).
  assert (Hl : length (slice_of held (from - start) (to - start)) = Z.to_nat (to - from))
    by (rewrite length_slice_of by lia; f_equal; lia).
  assert (Hfit : (Z.to_nat (from - offset) + Z.to_nat (to - from) <= length buf)%nat)
    by (unfold zlen in Hbuf; subst from to; lia).
  split; [unfold zlen; rewrite length_splice; [done|by rewrite Hl]|].
  rewrite lookup_splice by (by rewrite Hl). rewrite Hl.
  destruct (decide ((offset + Z.of_nat j) / SECTOR = s)) as [He|He];
    destruct (decide ((Z.to_nat (from - offset) <= j < Z.to_nat (from - offset) + Z.to_nat (to - from))%nat)) as [Hin|Hin];
    try done.
  - rewrite lookup_slice_of by lia. f_equal. subst start from. sector_lia.
  - exfalso. apply Hin. subst start from to. sector_lia.
  - exfalso. apply He. subst start from to. sector_lia.
Qed.

Lemma patch_loop_lookup d offset end_ ss buf (j : nat) :
  disk_ok d -> 0 <= offset < end_ -> zlen buf = end_ - offset ->
  (forall s, s ∈ ss -> s ∈ sectors offset end_) -> Z.of_nat j < end_ - offset ->
  zlen (foldl (patch_sector d offset end_) buf ss) = zlen buf /\
  foldl (patch_sector d offset end_) buf ss !! j =
    if decide ((offset + Z.of_nat j) / SECTOR ∈ ss)
    then match overlay d !! ((offset + Z.of_nat j) / SECTOR) with
         | Some held => held !! Z.to_nat ((offset + Z.of_nat j) mod SECTOR)
         | None => buf !! j
         end
    else buf !! j.
Proof.
  intros Hd Ho. revert buf. induction ss as [|s ss IH]; intros buf Hbuf Hss Hj; cbn [foldl].
  - by rewrite decide_False by apply not_elem_of_nil.
  - destruct (patch_sector_lookup d offset end_ buf s j Hd Ho Hbuf) as [Hl Hlk]; auto;
      [apply Hss; by left|].
    destruct (IH (patch_sector d offset end_ buf s)) as [Hl' Hlk']; auto;
      [lia|intros; apply Hss; by right|].
    split; [lia|]. rewrite Hlk', Hlk.
    destruct (decide ((offset + Z.of_nat j) / SECTOR = s)) as [<-|He].
    + rewrite (decide_True (P := _ ∈ _ :: ss)) by (by left). by repeat case_match.
    + destruct (decide ((offset + Z.of_nat j) / SECTOR ∈ ss)) as [Hin|Hin].
      * by rewrite decide_True by (by right).
      * rewrite decide_False; [done|]. by intros [?|?]%elem_of_cons.
Qed.

Lemma read_exact_at_ok f len offset :
  0 <= offset -> offset + Z.of_nat len <= zlen (content f) ->
  exists buf, read_exact_at f len offset = Ok buf /\ length buf = len /\
    forall j, (j < len)%nat -> buf !! j = content f !! (Z.to_nat offset + j)%nat.
Proof.
  intros H0 Hle. unfold read_exact_at, zlen in *.
  destruct (Nat.leb_spec (Z.to_nat offset + len) (length (content f))); [|lia].
  eexists. split_and!; [done|rewrite length_take, length_drop; lia|].
  intros j Hj. by rewrite lookup_take_lt, lookup_drop.
Qed.

Lemma disk_read_spec d offset len :
  disk_ok d -> 0 <= offset -> 0 < len -> offset + len <= size d ->
  exists buf, disk_read d offset len = Ok buf /\ zlen buf = len /\
    forall j, Z.of_nat j < len -> buf !! j = visible d (Z.to_nat offset + j).
Proof.
  intros Hd H0 Hlen Hle. unfold disk_read.
  destruct (Z.eqb_spec len 0); [lia|]. unfold checked_add.
  pose proof (dok_max _ Hd). destruct (Z.leb_spec (offset + len) u64_max); [|lia].
  destruct (Z.ltb_spec (size d) (offset + len)); [lia|].
  destruct (read_exact_at_ok (file d) (Z.to_nat len) offset) as (buf & -> & Hl & Hlk);
    [done|rewrite (dok_size _ Hd); lia|].
  assert (Hz : zlen buf = offset + len - offset) by (unfold zlen; lia).
  eexists. split; [done|].
  split; [destruct (patch_loop_lookup d offset (offset + len) (sectors offset (offset + len)) buf 0)
    as [-> _]; auto; lia|].
  intros j Hj.
  destruct (patch_loop_lookup d offset (offset + len) (sectors offset (offset + len)) buf j)
    as [_ ->]; auto; [lia..|].
  rewrite decide_True by (eapply sector_of_byte; [| |done]; lia).
  unfold visible. replace (Z.of_nat (Z.to_nat offset + j)) with (offset + Z.of_nat j) by lia.
  case_match; [done|]. apply Hlk. lia.
Qed.

(** * Writing *)

Lemma write_sector_spec d offset end_ data s :
  disk_ok d -> 0 <= offset < end_ -> zlen data = end_ - offset ->
  s ∈ sectors offset end_ -> (s + 1) * SECTOR <= size d ->
  exists d', write_sector offset end_ data d s = (d', Ok ()) /\ disk_ok d' /\
    file d' = file d /\ size d' = size d /\ flushes d' = flushes d /\
    forall i, visible d' i =
      if decide (Z.of_nat i / SECTOR = s /\ offset <= Z.of_nat i < end_)
      then data !! Z.to_nat (Z.of_nat i - offset) else visible d i.
Proof.
  intros Hd Ho Hdata Hs Hwhole. apply elem_of_sectors in Hs; [|done].
  assert (Hs0 : 0 <= s) by (clear -Hs Ho; sector_lia).
  (* the sector as it is now *)
  assert (Hbase : exists held,
    match overlay d !! s with
    | Some held => Ok held
    | None => read_exact_at (file d) (Z.to_nat SECTOR) (s * SECTOR)
    end = Ok held /\ zlen held = SECTOR /\
    forall i, Z.of_nat i / SECTOR = s -> visible d i = held !! Z.to_nat (Z.of_nat i mod SECTOR)).
  { destruct (overlay d !! s) as [held|] eqn:Eh.
    - exists held. split_and!; [done|by apply (dok_overlay _ Hd s)|].
      intros i Hi. unfold visible. by rewrite Hi, Eh.
    - destruct (read_exact_at_ok (file d) (Z.to_nat SECTOR) (s * SECTOR)) as (held & E & Hl & Hlk).
      + unfold SECTOR; lia.
      + rewrite (dok_size _ Hd). unfold SECTOR in *; lia.
      + exists held. split_and!; [done|unfold zlen; rewrite Hl; done|].
        intros i Hi. unfold visible. rewrite Hi, Eh. rewrite Hlk.
        * f_equal. sector_lia.
        * sector_lia. }
  destruct Hbase as (held & Eb & Hh & Hvis). unfold write_sector. rewrite Eb.
  set (start := s * SECTOR). set (from := Z.max offset start).
  set (to := Z.min end_ (start + SECTOR)).
  assert (Hft : from < to) by (subst start from to; sector_lia).
  assert (Hl : length (slice_of data (from - offset) (to - offset)) = Z.to_nat (to - from))
    by (rewrite length_slice_of by lia; f_equal; lia).
  assert (Hfit : (Z.to_nat (from - start) + Z.to_nat (to - from) <= length held)%nat)
    by (unfold zlen in Hh; subst from to; lia).
  set (held' := splice held (Z.to_nat (from - start)) (slice_of data (from - offset) (to - offset))).
  assert (Hh' : zlen held' = SECTOR) by
    (subst held'; unfold zlen; rewrite length_splice by (by rewrite Hl); done).
  eexists. split_and!; try done.
  - split; simpl; [apply (dok_size _ Hd)|apply (dok_max _ Hd)|].
    intros s' h. rewrite lookup_insert. case_decide; [|apply (dok_overlay _ Hd)].
    intros [= <-]. subst s'. by split_and!.
  - intros i. unfold visible at 1; simpl. rewrite lookup_insert.
    destruct (decide (s = Z.of_nat i / SECTOR)) as [Hi|Hi].
    2:{ rewrite decide_False by (intros [? _]; congruence). done. }
    subst held'. rewrite lookup_splice by (by rewrite Hl). rewrite Hl.
    rewrite Hvis by done.
    destruct (decide (Z.of_nat i / SECTOR = s /\ offset <= Z.of_nat i < end_)) as [Hc|Hc];
    destruct (decide ((Z.to_nat (from - start) <= Z.to_nat (Z.of_nat i mod SECTOR) <
      Z.to_nat (from - start) + Z.to_nat (to - from))%nat)) as [Hin|Hin]; try done.
    + rewrite lookup_slice_of by lia. f_equal. subst start from. sector_lia.
    + exfalso. apply Hin. subst start from to. sector_lia.
    + exfalso. apply Hc. subst start from to. sector_lia.
Qed.

Lemma write_loop_spec offset end_ data ss d :
  disk_ok d -> 0 <= offset < end_ -> zlen data = end_ - offset ->
  (forall s, s ∈ ss -> s ∈ sectors offset end_ /\ (s + 1) * SECTOR <= size d) ->
  exists d', write_loop offset end_ data d ss = (d', Ok ()) /\ disk_ok d' /\
    file d' = file d /\ size d' = size d /\ flushes d' = flushes d /\
    forall i, visible d' i =
      if decide (Z.of_nat i / SECTOR ∈ ss /\ offset <= Z.of_nat i < end_)
      then data !! Z.to_nat (Z.of_nat i - offset) else visible d i.
Proof.
  intros Hd Ho Hdata. revert d Hd. induction ss as [|s ss IH]; intros d Hd Hss; cbn [write_loop].
  - exists d. by split_and!; auto.
  - destruct (Hss s) as [Hin Hw]; [by left|].
    destruct (write_sector_spec d offset end_ data s Hd Ho Hdata Hin Hw)
      as (d1 & -> & Hd1 & E1 & E2 & E3 & Hv1).
    destruct (IH d1 Hd1) as (d2 & -> & Hd2 & F1 & F2 & F3 & Hv2).
    { intros s' Hs'. rewrite E2. apply Hss. by right. }
    exists d2. split_and!; auto; try congruence.
    intros i. rewrite Hv2, Hv1.
    destruct (decide (Z.of_nat i / SECTOR ∈ ss /\ offset <= Z.of_nat i < end_)) as [[Ha Hb]|Hn].
    + rewrite decide_True; [done|]. split; [by right|done].
    + destruct (decide (Z.of_nat i / SECTOR = s /\ offset <= Z.of_nat i < end_)) as [[Ha Hb]|Hn'].
      * rewrite decide_True; [done|]. split; [rewrite Ha; by left|done].
      * rewrite decide_False; [done|]. intros [[?|?]%elem_of_cons ?]; [by apply Hn'|by apply Hn].
Qed.

(** * Flushing *)

(** A host that serves its file without errors. *)
Definition healthy (f : image) : Prop := Forall (fun w => w = None) (host_writes f) /\ sync_ok f = true.

Lemma put_at_fits f data off : (off + length data <= length f)%nat -> put_at f data off = splice f off data.
Proof.
  intros Hle. destruct data as [|b data].
  - unfold splice. cbn [length]. by rewrite app_nil_l, Nat.add_0_r, take_drop.
  - unfold put_at. replace (off + length (b :: data) - length f)%nat with 0%nat by lia. simpl. by rewrite app_nil_r.
Qed.

Lemma write_all_at_content f f' data offset :
  0 <= offset -> offset + zlen data <= zlen (content f) ->
  write_all_at f data offset = (f', Ok ()) ->
  content f' = splice (content f) (Z.to_nat offset) data.
Proof.
  intros H0 Hle. unfold write_all_at.
  destruct (host_writes f) as [|[t|] ws]; intros [= <-]; simpl; apply put_at_fits; unfold zlen in Hle; lia.
Qed.

(** Sectors that were all written hold what was written. *)
Lemma write_sectors_spec l f f' :
  NoDup l.*1 ->
  (forall s h, (s, h) ∈ l -> 0 <= s /\ (s + 1) * SECTOR <= zlen (content f) /\ zlen h = SECTOR) ->
  write_sectors f l = (f', Ok ()) ->
  zlen (content f') = zlen (content f) /\
  forall i,
    (forall h, (Z.of_nat i / SECTOR, h) ∈ l ->
       content f' !! i = h !! Z.to_nat (Z.of_nat i mod SECTOR)) /\
    ((forall h, (Z.of_nat i / SECTOR, h) ∉ l) -> content f' !! i = content f !! i).
Proof.
  revert f. induction l as [|[s h] l IH]; intros f Hnd Hall; cbn [write_sectors].
  - intros [= <-]. split; [done|]. intros i. split; [|done]. by intros h ?%elem_of_nil.
  - cbn [fmap list_fmap fst] in Hnd. apply NoDup_cons in Hnd as [Hs Hnd].
    destruct (Hall s h) as (Hs0 & Hsz & Hh); [by left|].
    destruct (write_all_at f h (s * SECTOR)) as [f1 [[]|]] eqn:E1; [|done]. intros E2.
    apply write_all_at_content in E1 as Hc1; [|unfold SECTOR in *; lia..].
    assert (Hfit : (Z.to_nat (s * SECTOR) + length h <= length (content f))%nat)
      by (unfold zlen, SECTOR in *; lia).
    assert (Hl1 : zlen (content f1) = zlen (content f))
      by (rewrite Hc1; unfold zlen; by rewrite length_splice).
    destruct (IH f1) as (Hl2 & Hlk); auto.
    { intros s' h' Hin. rewrite Hl1. apply Hall. by right. }
    split; [lia|]. intros i. destruct (Hlk i) as [Hin Hout].
    assert (Hat : content f1 !! i =
      if decide (Z.of_nat i / SECTOR = s) then h !! Z.to_nat (Z.of_nat i mod SECTOR)
      else content f !! i).
    { rewrite Hc1, lookup_splice by done.
      assert (Hlen : length h = 512%nat) by (unfold zlen, SECTOR in Hh; lia). rewrite Hlen.
      destruct (decide (Z.of_nat i / SECTOR = s));
        destruct (decide ((Z.to_nat (s * SECTOR) <= i < Z.to_nat (s * SECTOR) + 512)%nat));
        try done; try (exfalso; sector_lia). f_equal. sector_lia. }
    split.
    + intros h' [Heq|Hin']%elem_of_cons; [|auto]. simplify_eq.
      rewrite Hout; [by rewrite Hat, decide_True|]. intros h'' Hin''. apply Hs.
      apply list_elem_of_fmap. exists (Z.of_nat i / SECTOR, h''). done.
    + intros Hno. rewrite Hout; [|intros h' Hin'; apply (Hno h'); by right].
      rewrite Hat, decide_False; [done|]. intros <-. apply (Hno h). by left.
Qed.

Lemma write_sectors_healthy l f :
  healthy f -> exists f', write_sectors f l = (f', Ok ()) /\ healthy f'.
Proof.
  revert f. induction l as [|[s h] l IH]; intros f [Hw Hs]; cbn [write_sectors].
  - exists f. by repeat split.
  - unfold write_all_at. destruct Hw as [|w ws -> Hw]; apply IH; by split.
Qed.

Lemma elem_of_ascending ov s h : (s, h) ∈ ascending ov <-> ov !! s = Some h.
Proof.
  unfold ascending. rewrite merge_sort_Permutation. apply elem_of_map_to_list.
Qed.

Lemma NoDup_ascending ov : NoDup (ascending ov).*1.
Proof.
  unfold ascending. rewrite merge_sort_Permutation. apply NoDup_fst_map_to_list.
Qed.

(** A flush that succeeded made everything the guest saw durable. *)
Lemma disk_flush_sound d d' :
  disk_ok d -> disk_flush d = (d', Ok ()) ->
  disk_ok d' /\ size d' = size d /\ overlay d' = ∅ /\ flushes d' = flushes d + 1 /\
  forall i, visible d' i = visible d i /\ durable d' i = visible d i.
Proof.
  intros Hd. unfold disk_flush.
  destruct (write_sectors _ _) as [f' [[]|]] eqn:E; [|done].
  apply write_sectors_spec in E as (Hl & Hlk); [|apply NoDup_ascending|].
  2:{ intros s h Hin%elem_of_ascending. rewrite (dok_size _ Hd). by apply (dok_overlay _ Hd). }
  destruct (sync_ok f'); [|done]. intros [= <-]. split_and!; try done.
  - split; simpl; [rewrite Hl; apply (dok_size _ Hd)|apply (dok_max _ Hd)|].
    intros s h. by rewrite lookup_empty.
  - intros i. unfold visible, durable; simpl. rewrite lookup_empty.
    destruct (Hlk i) as [Hin Hout].
    destruct (overlay d !! (Z.of_nat i / SECTOR)) as [h|] eqn:E.
    + rewrite (Hin h) by (by apply elem_of_ascending). done.
    + rewrite Hout; [done|]. intros h Hin'%elem_of_ascending. congruence.
Qed.

Lemma disk_flush_spec d :
  disk_ok d -> healthy (file d) ->
  exists d', disk_flush d = (d', Ok ()) /\ disk_ok d' /\ healthy (file d') /\
    size d' = size d /\ overlay d' = ∅ /\ flushes d' = flushes d + 1 /\
    forall i, visible d' i = visible d i /\ durable d' i = visible d i.
Proof.
  intros Hd Hf.
  destruct (write_sectors_healthy (ascending (overlay d)) (file d) Hf) as (f' & E & Hf').
  assert (Hfl : disk_flush d = (DiskState f' (size d) ∅ (flushes d + 1), Ok ()))
    by (unfold disk_flush; by rewrite E, (proj2 Hf')).
  eexists. split; [done|]. destruct (disk_flush_sound d _ Hd Hfl) as (? & ? & ? & ? & ?).
  by split_and!.
Qed.

(** * The disk as a write cache *)

(** A disk whose size is a whole number of sectors, small enough that the
    overlay never reaches its cap, on a healthy host. *)
Record exact_disk (d : disk_state) : Prop := {
  ex_ok : disk_ok d;
  ex_healthy : healthy (file d);
  ex_aligned : size d mod SECTOR = 0;
  ex_small : size d <= OVERLAY_CAP_BYTES;
}.

Lemma overlay_below_cap d :
  disk_ok d -> size d <= OVERLAY_CAP_BYTES ->
  Z.of_nat (map_size (overlay d)) * SECTOR <= OVERLAY_CAP_BYTES.
Proof.
  intros Hd Hsz.
  assert (Hdom : dom (overlay d) ⊆ list_to_set (seqZ 0 (size d / SECTOR))).
  { intros s. rewrite elem_of_dom, elem_of_list_to_set, elem_of_seqZ. intros [h Hh].
    destruct (dok_overlay _ Hd s h Hh) as (? & ? & _). sector_lia. }
  apply subseteq_size in Hdom. rewrite size_dom in Hdom.
  rewrite size_list_to_set, length_seqZ in Hdom by apply NoDup_seqZ.
  assert (0 <= size d) by (rewrite <- (dok_size _ Hd); apply zlen_nonneg).
  change (base.size (overlay d)) with (map_size (overlay d)) in Hdom.
  sector_lia.
Qed.

(** The specification: a medium with a volatile cache in front of it. *)
Record cache := Cache { c_durable : bytes; c_visible : bytes }.

Definition cache_read (c : cache) (offset len : Z) : result bytes io_kind :=
  if (len =? 0) || (offset + len <=? zlen (c_visible c))
  then Ok (slice_of (c_visible c) offset (offset + len))
  else Err InvalidInput.

Definition cache_write (c : cache) (offset : Z) (data : bytes) : cache * result unit io_kind :=
  if zlen data =? 0 then (c, Ok ())
  else if offset + zlen data <=? zlen (c_visible c)
  then (Cache (c_durable c) (splice (c_visible c) (Z.to_nat offset) data), Ok ())
  else (c, Err InvalidInput).

Definition cache_flush (c : cache) : cache := Cache (c_visible c) (c_visible c).
Definition cache_cut (c : cache) : cache := Cache (c_durable c) (c_durable c).

(** The implementation's state stands for a cache. *)
Definition refines (d : disk_state) (c : cache) : Prop :=
  exact_disk d /\ content (file d) = c_durable c /\
  zlen (c_visible c) = size d /\ zlen (c_durable c) = size d /\
  forall i, visible d i = c_visible c !! i.

Lemma refines_read d c offset len :
  refines d c -> 0 <= offset -> 0 <= len ->
  disk_read d offset len = cache_read c offset len.
Proof.
  intros (Hex & Hdur & Hvl & _ & Hv) H0 Hlen. unfold cache_read.
  destruct (Z.eqb_spec len 0) as [->|Hnz]; cbn [orb].
  { unfold disk_read, slice_of. simpl. by rewrite Z.add_0_r, Z.sub_diag. }
  pose proof (dok_max _ (ex_ok _ Hex)) as Hmax.
  destruct (Z.leb_spec (offset + len) (zlen (c_visible c))) as [Hle|Hgt].
  - destruct (disk_read_spec d offset len (ex_ok _ Hex)) as (buf & -> & Hl & Hlk); try lia.
    f_equal. apply list_eq_same_length with (length (slice_of (c_visible c) offset (offset + len)));
      [done|rewrite length_slice_of; unfold zlen in *; lia|].
    intros j x y Hj Hx Hy. rewrite length_slice_of in Hj by lia.
    rewrite Hlk, Hv in Hx by lia. rewrite lookup_slice_of in Hy by lia.
    replace (Z.to_nat (offset + Z.of_nat j)) with (Z.to_nat offset + j)%nat in Hy by lia. congruence.
  - unfold disk_read, checked_add. destruct (Z.eqb_spec len 0); [done|].
    destruct (Z.leb_spec (offset + len) u64_max); [|done].
    destruct (Z.ltb_spec (size d) (offset + len)); [done|lia].
Qed.

Lemma refines_write d c offset data :
  refines d c -> 0 <= offset ->
  refines (disk_write d offset data).1 (cache_write c offset data).1 /\
  (disk_write d offset data).2 = (cache_write c offset data).2.
Proof.
  intros Hr H0. pose proof Hr as (Hex & Hdur & Hvl & Hdl & Hv). unfold cache_write.
  pose proof (dok_max _ (ex_ok _ Hex)) as Hmax.
  destruct data as [|b0 data0] eqn:Edata; [done|]. rewrite <- Edata.
  assert (Hdz : 0 < zlen data) by (subst data; unfold zlen; simpl; lia).
  assert (Hw : disk_write d offset data =
    match checked_add u64_max offset (zlen data) with
    | None => (d, Err InvalidInput)
    | Some end_ =>
        if size d <? end_ then (d, Err InvalidInput)
        else
          match write_loop offset end_ data d (sectors offset end_) with
          | (d', Err k) => (d', Err k)
          | (d', Ok _) =>
              if OVERLAY_CAP_BYTES <? Z.of_nat (map_size (overlay d')) * SECTOR
              then disk_flush d' else (d', Ok ())
          end
    end) by (by subst data).
  rewrite Hw. clear Edata Hw. destruct (Z.eqb_spec (zlen data) 0); [lia|].
  unfold checked_add. destruct (Z.leb_spec (offset + zlen data) (zlen (c_visible c))) as [Hle|Hgt].
  2:{ destruct (Z.leb_spec (offset + zlen data) u64_max); [|done].
      destruct (Z.ltb_spec (size d) (offset + zlen data)); [done|lia]. }
  destruct (Z.leb_spec (offset + zlen data) u64_max); [|lia].
  destruct (Z.ltb_spec (size d) (offset + zlen data)); [lia|].
  destruct (write_loop_spec offset (offset + zlen data) data
    (sectors offset (offset + zlen data)) d (ex_ok _ Hex)) as (d' & -> & Hd' & E1 & E2 & E3 & Hv').
  { lia. } { lia. }
  { intros s Hs. split; [done|]. apply elem_of_sectors in Hs; [|lia].
    pose proof (ex_aligned _ Hex). sector_lia. }
  pose proof (overlay_below_cap d' Hd') as Hcap. rewrite E2 in Hcap.
  specialize (Hcap (ex_small _ Hex)).
  destruct (Z.ltb_spec OVERLAY_CAP_BYTES (Z.of_nat (map_size (overlay d')) * SECTOR)); [lia|].
  assert (Hfit : (Z.to_nat offset + length data <= length (c_visible c))%nat)
    by (unfold zlen in *; lia).
  split; [|done]. split_and!; simpl.
  - split; [done|by rewrite E1; apply Hex|by rewrite E2; apply Hex|by rewrite E2; apply Hex].
  - by rewrite E1.
  - rewrite E2, <- Hvl. unfold zlen. by rewrite length_splice.
  - by rewrite E2.
  - intros i. rewrite Hv', lookup_splice by done. rewrite Hv.
    destruct (decide ((Z.to_nat offset <= i < Z.to_nat offset + length data)%nat)) as [Hin|Hin].
    + rewrite decide_True; [f_equal; lia|]. unfold zlen.
      split; [|lia]. eapply sector_of_byte; [| |done]; lia.
    + rewrite decide_False; [done|]. unfold zlen. lia.
Qed.

Lemma refines_flush d c :
  refines d c ->
  refines (disk_flush d).1 (cache_flush c) /\ (disk_flush d).2 = Ok () /\
  flushes (disk_flush d).1 = flushes d + 1.
Proof.
  intros (Hex & Hdur & Hvl & Hdl & Hv).
  destruct (disk_flush_spec d (ex_ok _ Hex) (ex_healthy _ Hex))
    as (d' & -> & Hd' & Hf' & E1 & E2 & E3 & Hv'). simpl.
  split_and!; auto. split_and!; simpl; try lia.
  - split; auto; rewrite E1; apply Hex.
  - apply list_eq. intros i. destruct (Hv' i) as [_ Hdu]. unfold durable in Hdu. by rewrite Hdu.
  - intros i. by rewrite (proj1 (Hv' i)).
Qed.

Lemma refines_cut d c : refines d c -> refines (power_cut d) (cache_cut c).
Proof.
  intros (Hex & Hdur & Hvl & Hdl & Hv). split_and!; simpl; auto.
  - split; simpl; try apply Hex. split; simpl; try apply Hex. intros s h. by rewrite lookup_empty.
  - intros i. unfold visible; simpl. by rewrite lookup_empty, Hdur.
Qed.

(** Command sequences. *)
Inductive disk_cmd :=
| DRead (offset len : Z)
| DWrite (offset : Z) (data : bytes)
| DFlush
| DPowerCut.

Definition cmd_ok (x : disk_cmd) : Prop :=
  match x with
  | DRead offset len => 0 <= offset /\ 0 <= len
  | DWrite offset _ => 0 <= offset
  | _ => True
  end.

Definition void (r : result unit io_kind) : result bytes io_kind :=
  match r with Ok _ => Ok [] | Err k => Err k end.

Definition disk_step (d : disk_state) (x : disk_cmd) : disk_state * result bytes io_kind :=
  match x with
  | DRead offset len => (d, disk_read d offset len)
  | DWrite offset data => let '(d', r) := disk_write d offset data in (d', void r)
  | DFlush => let '(d', r) := disk_flush d in (d', void r)
  | DPowerCut => (power_cut d, Ok [])
  end.

Definition cache_step (c : cache) (x : disk_cmd) : cache * result bytes io_kind :=
  match x with
  | DRead offset len => (c, cache_read c offset len)
  | DWrite offset data => let '(c', r) := cache_write c offset data in (c', void r)
  | DFlush => (cache_flush c, Ok [])
  | DPowerCut => (cache_cut c, Ok [])
  end.

(** Run a command sequence, collecting the replies. *)
Definition run_all {S} (step : S -> disk_cmd -> S * result bytes io_kind)
    (s : S) (xs : list disk_cmd) : S * list (result bytes io_kind) :=
  foldl (fun acc x => let '(s', r) := step acc.1 x in (s', acc.2 ++ [r])) (s, []) xs.

Lemma run_all_snoc {S} (step : S -> disk_cmd -> S * result bytes io_kind) s xs x :
  run_all step s (xs ++ [x]) =
    ((step (run_all step s xs).1 x).1,
     (run_all step s xs).2 ++ [(step (run_all step s xs).1 x).2]).
Proof.
  unfold run_all. rewrite foldl_app. simpl.
  set (acc := foldl _ _ xs). by destruct (step acc.1 x).
Qed.

Lemma run_all_state_app {S} (step : S -> disk_cmd -> S * result bytes io_kind) s xs ys :
  (run_all step s (xs ++ ys)).1 = (run_all step (run_all step s xs).1 ys).1.
Proof.
  induction ys as [|y ys IH] using rev_ind; [by rewrite app_nil_r|].
  by rewrite app_assoc, !run_all_snoc, IH.
Qed.

Lemma refines_step d c x :
  refines d c -> cmd_ok x ->
  refines (disk_step d x).1 (cache_step c x).1 /\ (disk_step d x).2 = (cache_step c x).2.
Proof.
  intros Hr Hx. destruct x as [offset len|offset data| |]; simpl in *.
  - destruct Hx. split; [done|]. eauto using refines_read.
  - destruct (refines_write d c offset data Hr Hx) as [H1 H2].
    destruct (disk_write d offset data), (cache_write c offset data). simpl in *. subst. done.
  - destruct (refines_flush d c Hr) as (H1 & H2 & _).
    destruct (disk_flush d). simpl in *. subst. done.
  - split; [by apply refines_cut|done].
Qed.

Lemma refines_run d c xs :
  refines d c -> Forall cmd_ok xs ->
  refines (run_all disk_step d xs).1 (run_all cache_step c xs).1 /\
  (run_all disk_step d xs).2 = (run_all cache_step c xs).2.
Proof.
  intros Hr. induction xs as [|x xs IH] using rev_ind; intros HF; [done|].
  apply Forall_app in HF as [HF Hx]. inversion Hx; subst.
  destruct (IH HF) as [G1 G2]. rewrite !run_all_snoc. simpl.
  destruct (refines_step _ _ x G1) as [G3 G4]; [done|]. split; [done|]. by rewrite G2, G4.
Qed.

(** A freshly opened disk stands for a clean cache. *)
Definition fresh_cache (d : disk_state) : cache := Cache (content (file d)) (content (file d)).

Lemma refines_fresh d : exact_disk d -> overlay d = ∅ -> refines d (fresh_cache d).
Proof.
  intros Hex Hov. pose proof (dok_size _ (ex_ok _ Hex)). split_and!; auto.
  intros i. unfold visible. by rewrite Hov, lookup_empty.
Qed.

Lemma cache_durable_kept c xs :
  DFlush ∉ xs -> c_durable (run_all cache_step c xs).1 = c_durable c.
Proof.
  induction xs as [|x xs IH] using rev_ind; intros Hno; [done|].
  rewrite run_all_snoc. simpl.
  etransitivity; [|apply IH; intros ?; apply Hno, elem_of_app; by left].
  destruct x as [o l|o data| |]; simpl; try done.
  - unfold cache_write. destruct (zlen data =? 0); [done|]. by destruct (_ <=? _).
  - exfalso. apply Hno, elem_of_app. right. by left.
Qed.

Lemma disk_past_end d offset len :
  0 <= offset -> 0 <= len ->
  (size d < offset + len -> 0 < len -> disk_read d offset len = Err InvalidInput) /\
  (forall data, zlen data = len -> size d < offset + len -> 0 < len ->
     disk_write d offset data = (d, Err InvalidInput)).
Proof.
  intros H0 Hl. split.
  - intros Hgt Hpos. unfold disk_read, checked_add. destruct (Z.eqb_spec len 0); [lia|].
    destruct (Z.leb_spec (offset + len) u64_max); [|done].
    destruct (Z.ltb_spec (size d) (offset + len)); [done|lia].
  - intros [|b data] <- Hgt Hpos; [done|]. unfold disk_write, checked_add.
    destruct (Z.leb_spec (offset + zlen (b :: data)) u64_max); [|done].
    destruct (Z.ltb_spec (size d) (offset + zlen (b :: data))); [done|lia].
Qed.

(** * Properties *)

(** C16: the mediated disk is a write cache. On a host that never fails, and for
    a disk of whole sectors, no larger than the overlay's cap, that starts with
    an empty overlay: on any sequence of reads, writes, flushes and power cuts
    it gives the replies of the specification (reads see every write since the
    last power cut, out-of-range requests fail and change nothing), and its
    image holds what the specification calls durable. (Beyond the cap a write
    flushes, so that more is durable.) *)
Theorem disk_refines_cache d xs :
  exact_disk d -> overlay d = ∅ -> Forall cmd_ok xs ->
  (run_all disk_step d xs).2 = (run_all cache_step (fresh_cache d) xs).2 /\
  content (file (run_all disk_step d xs).1) = c_durable (run_all cache_step (fresh_cache d) xs).1.
Proof.
  intros Hex Hov HF.
  destruct (refines_run d (fresh_cache d) xs (refines_fresh d Hex Hov) HF) as [(_ & H1 & _) H2].
  by split.
Qed.

(** A power cut loses exactly what was never flushed. After any history
    that ends in a flush followed by other commands without one, cutting the
    power leaves every byte as the guest saw it at that flush. *)
Lemma power_cut_exact d xs ys i :
  exact_disk d -> overlay d = ∅ -> Forall cmd_ok xs -> Forall cmd_ok ys -> DFlush ∉ ys ->
  visible (power_cut (run_all disk_step d (xs ++ DFlush :: ys)).1) i =
  visible (run_all disk_step d xs).1 i.
Proof.
  intros Hex Hov HFx HFy Hno.
  pose proof (refines_fresh d Hex Hov) as Hr.
  destruct (refines_run d (fresh_cache d) xs Hr HFx) as [Hx _].
  destruct (refines_step _ _ DFlush Hx I) as [Hf _].
  destruct (refines_run _ _ ys Hf HFy) as [Hy _].
  apply refines_cut in Hy as (_ & _ & _ & _ & Hv).
  rewrite (cons_middle DFlush xs ys), app_assoc, run_all_state_app, run_all_snoc, Hv.
  cbn [cache_cut c_visible]. rewrite cache_durable_kept by done.
  destruct Hx as (_ & _ & _ & _ & Hvx). by rewrite Hvx.
Qed.

(** An out-of-range, overflowing or empty request never reaches the image:
    reads and writes past the end of the disk fail, empty ones succeed, and
    neither changes anything, whatever the state of the host. *)
Lemma disk_bounds_checked d offset data len :
  0 <= offset -> 0 <= len ->
  (size d < offset + len -> 0 < len -> disk_read d offset len = Err InvalidInput) /\
  (size d < offset + zlen data -> data <> [] ->
     disk_write d offset data = (d, Err InvalidInput)) /\
  disk_read d offset 0 = Ok [] /\ disk_write d offset [] = (d, Ok ()).
Proof.
  intros H0 Hl. pose proof (zlen_nonneg data). split_and!; try done.
  - by apply disk_past_end.
  - intros Hgt Hne. apply (disk_past_end d offset (zlen data)); try done.
    destruct data; [done|]. unfold zlen; simpl; lia.
Qed.

(** ** The fault policy *)

(** The verdicts of a sequence of commands, in order. *)
Definition verdicts (sh : shared) (cs : list (Z * Z * Z)) : list bool :=
  (foldl (fun acc c => let '(sh', v, _) := consult acc.1 c.1.1 c.1.2 c.2 in (sh', acc.2 ++ [v]))
     (sh, []) cs).2.

(** A disk armed to die at the nth command does. After [set_policy] with
    only [fail_after = n] (and perhaps a delay), the first n-1 commands of any
    workload, flushes included, are served and every later one fails. *)
Lemma fail_after_exact sh n dl cs :
  1 <= n -> zlen cs < u64_max ->
  verdicts (set_policy sh (FaultPolicy false false (Some n) None dl)) cs =
    (fun k => bool_decide (n <= Z.of_nat k + 1)) <$> seq 0 (length cs).
Proof.
  intros Hn. unfold verdicts. set (p := FaultPolicy false false (Some n) None dl).
  enough (Hgen : zlen cs < u64_max ->
    foldl (fun acc c => let '(sh', v, _) := consult acc.1 c.1.1 c.1.2 c.2 in (sh', acc.2 ++ [v]))
      (set_policy sh p, []) cs =
    (Shared (state sh) p (zlen cs), (fun k => bool_decide (n <= Z.of_nat k + 1)) <$> seq 0 (length cs))).
  { intros Hlen. by rewrite Hgen. }
  induction cs as [|c cs IH] using rev_ind; intros Hlen; [done|].
  rewrite zlen_app in Hlen. change (zlen [c]) with 1 in Hlen. pose proof (zlen_nonneg cs).
  rewrite foldl_app, IH by lia. cbn [foldl fst snd].
  unfold consult; cbn [policy io_count state]. rewrite bool_decide_false by done.
  rewrite zlen_app. change (zlen [c]) with 1.
  rewrite wrap_small by (unfold in_width; lia).
  rewrite length_app, seq_app, fmap_app. simpl.
  destruct (Z.leb_spec n (zlen cs + 1)) as [Hle|Hgt].
  - rewrite bool_decide_true by (unfold zlen in Hle; lia). done.
  - rewrite bool_decide_false by (unfold zlen in Hgt; lia). by rewrite !andb_false_r.
Qed.

(** A range rule fails a command exactly when one of its bytes lies in one
    of the armed sectors, and no rule but [fail_after] ever fails a flush. *)
Lemma range_rule_exact sh fw fr sector count dl command offset length :
  0 <= sector -> 0 <= count -> (sector + count) * SECTOR <= u64_max ->
  0 <= offset -> 0 <= length -> offset + length <= u64_max ->
  (fr && (command =? CMD_READ)) || (fw && (command =? CMD_WRITE)) = false ->
  ((consult (set_policy sh (FaultPolicy fr fw None (Some (sector, count)) dl)) command offset length).1.2
     = true <->
   exists i, offset <= i < offset + length /\ sector <= i / SECTOR < sector + count) /\
  (consult (set_policy sh (FaultPolicy fr fw None (Some (sector, count)) dl)) CMD_FLUSH 0 0).1.2 = false.
Proof.
  intros Hs Hc Hmax Ho Hl Hol Hcmd. apply orb_false_iff in Hcmd as [Hr Hw].
  unfold consult, set_policy; cbn [policy io_count state].
  rewrite bool_decide_false by done. cbn [fail_after fail_reads fail_writes fail_range].
  rewrite (andb_comm (command =? CMD_READ)), (andb_comm (command =? CMD_WRITE)), Hr, Hw.
  split; [|done]. cbn [fst snd]. unfold range_hit.
  assert (0 <= sector * SECTOR) by (unfold SECTOR; lia).
  assert (0 <= count * SECTOR) by (unfold SECTOR; lia).
  rewrite !wrap_small by (unfold in_width, SECTOR in *; lia).
  rewrite !sat_add_exact by (unfold SECTOR in *; lia).
  destruct (Z.ltb_spec 0 length), (Z.ltb_spec 0 count); cbn [andb];
    rewrite ?andb_true_iff, ?Z.ltb_lt.
  - split.
    + intros [G1 G2]. exists (Z.max offset (sector * SECTOR)). sector_lia.
    + intros (i & Hi & Hsec). sector_lia.
  - split; [done|]. intros (i & _ & ?). lia.
  - split; [done|]. intros (i & ? & _). lia.
  - split; [done|]. intros (i & ? & _). lia.
Qed.

(** * Witnesses *)

(** A disk of two zeroed sectors on a healthy host. *)
Definition demo_disk : disk_state :=
  DiskState (Image (replicate 1024 x00) [] true) 1024 ∅ 0.

Lemma demo_exact : exact_disk demo_disk.
Proof.
  by split; [split|..].
Qed.

Definition demo_writes : list disk_cmd :=
  [DWrite 510 (str "abcd"); DRead 508 8; DFlush; DWrite 511 (str "ZZ"); DPowerCut; DRead 508 8].

Lemma disk_refines_cache_witness :
  (run_all disk_step demo_disk demo_writes).2 =
  (run_all cache_step (fresh_cache demo_disk) demo_writes).2.
Proof.
  apply (disk_refines_cache demo_disk demo_writes); [apply demo_exact|done|].
  repeat constructor; simpl; lia.
Defined.

Lemma power_cut_exact_witness :
  visible (power_cut (run_all disk_step demo_disk
    ([DWrite 510 (str "abcd")] ++ DFlush :: [DWrite 511 (str "ZZ")])).1) 511 =
  visible (run_all disk_step demo_disk [DWrite 510 (str "abcd")]).1 511.
Proof.
  apply (power_cut_exact demo_disk [DWrite 510 (str "abcd")] [DWrite 511 (str "ZZ")] 511);
    [apply demo_exact|done|repeat constructor; simpl; lia..|].
  intros [?|?%elem_of_nil]%elem_of_cons; done.
Defined.

Lemma disk_bounds_checked_witness : disk_read demo_disk 1020 8 = Err InvalidInput.
Proof. apply (disk_bounds_checked demo_disk 1020 [] 8); simpl; lia. Defined.

Lemma fail_after_exact_witness :
  verdicts (set_policy (Shared demo_disk no_faults 7) (FaultPolicy false false (Some 3) None None))
    [(CMD_READ, 0, 512); (CMD_FLUSH, 0, 0); (CMD_WRITE, 0, 1); (CMD_READ, 9, 9)] =
  [false; false; true; true].
Proof. apply (fail_after_exact (Shared demo_disk no_faults 7) 3 None [(CMD_READ, 0, 512); (CMD_FLUSH, 0, 0); (CMD_WRITE, 0, 1); (CMD_READ, 9, 9)]); done. Defined.

Lemma range_rule_exact_witness :
  (consult (set_policy (Shared demo_disk no_faults 0)
     (FaultPolicy false false None (Some (1, 1)) None)) CMD_READ 511 2).1.2 = true.
Proof.
  apply (range_rule_exact (Shared demo_disk no_faults 0) false false 1 1 None CMD_READ 511 2);
    try done. exists 512. done.
Defined.

(** A flush that fails has already dropped the overlay: of a write the guest was
    told had succeeded, and read back, only what reached the file is there. *)
Example failed_flush_forgets :
  let d := DiskState (Image (replicate 1024 x00) [Some 100%nat] true) 1024 ∅ 0 in
  let d1 := (disk_write d 99 (str "ab")).1 in
  disk_read d1 99 2 = Ok (str "ab") /\
  (disk_flush d1).2 = Err OtherIo /\ disk_read (disk_flush d1).1 99 2 = Ok [x61; x00].
Proof. by vm_compute. Qed.
