(* ===== verification/NbdWire.v ===== *)
(** The NBD server of [src/provium-host/src/nbd.rs] on the wire: the
    fixed-newstyle handshake, the transmission loop and the two reply formats,
    over a connection read as a byte stream. *)
From S2P Require Import Prelude Frame Nbd.

(** * The protocol's constants *)

Definition NBD_MAGIC : Z := 0x4e42444d41474943.
Definition IHAVEOPT : Z := 0x49484156454f5054.
Definition REP_MAGIC : Z := 0x0003e889045565a9.
Definition REQUEST_MAGIC : Z := 0x25609513.
Definition SIMPLE_REPLY_MAGIC : Z := 0x67446698.

Definition FLAG_FIXED_NEWSTYLE : Z := Z.shiftl 1 0.
Definition FLAG_NO_ZEROES : Z := Z.shiftl 1 1.
Definition CLIENT_FLAG_NO_ZEROES : Z := Z.shiftl 1 1.
Definition FLAG_HAS_FLAGS : Z := Z.shiftl 1 0.
Definition FLAG_SEND_FLUSH : Z := Z.shiftl 1 2.
Definition FLAG_SEND_FUA : Z := Z.shiftl 1 3.

Definition OPT_EXPORT_NAME : Z := 1.
Definition OPT_ABORT : Z := 2.
Definition OPT_INFO : Z := 6.
Definition OPT_GO : Z := 7.
Definition REP_ACK : Z := 1.
Definition REP_INFO : Z := 3.
Definition REP_ERR_UNSUP : Z := 0x80000001.
Definition INFO_EXPORT : Z := 0.
Definition NBD_EIO : Z := 5.
Definition NBD_EINVAL : Z := 22.

(** * The connection *)

(** What a serving thread works on: the bytes the client will still send
    before it closes, the bytes sent to it, how many more sends the socket
    accepts ([None] while the peer stays), the values the [shutdown] flag
    shows at its successive loads (clear after the last), and the disk. *)
Record conn := Conn {
  inp : bytes;
  outp : bytes;
  sends_left : option nat;
  shutdowns : list bool;
  disk : shared;
}.

Definition io (A : Type) : Type := conn -> conn * result A io_kind.

#[export] Instance io_ret : MRet io := fun A a w => (w, Ok a).
#[export] Instance io_bind : MBind io := fun A B f m w =>
  match m w with
  | (w', Ok a) => f a w'
  | (w', Err k) => (w', Err k)
  end.

Definition fail {A} (k : io_kind) : io A := fun w => (w, Err k).

(** [Read::read_exact] on the socket: at end of stream what was left is gone. *)
Definition read_exact (n : nat) : io bytes := fun w =>
  if (n <=? length (inp w))%nat
  then (Conn (drop n (inp w)) (outp w) (sends_left w) (shutdowns w) (disk w), Ok (take n (inp w)))
  else (Conn [] (outp w) (sends_left w) (shutdowns w) (disk w), Err UnexpectedEofKind).

(** [Write::write_all]. *)
Definition send (data : bytes) : io () := fun w =>
  match sends_left w with
  | Some O => (w, Err OtherIo)
  | k => (Conn (inp w) (outp w ++ data) (pred <$> k) (shutdowns w) (disk w), Ok ())
  end.

(** [shutdown.load]. *)
Definition load_shutdown : io bool := fun w =>
  (Conn (inp w) (outp w) (sends_left w) (tail (shutdowns w)) (disk w), Ok (default false (head (shutdowns w)))).

Definition with_disk {A} (f : shared -> shared * A) : io A := fun w =>
  let '(sh, a) := f (disk w) in (Conn (inp w) (outp w) (sends_left w) (shutdowns w) sh, Ok a).

Definition read_u16 : io Z := buf ← read_exact 2; mret (of_be_bytes buf).
Definition read_u32 : io Z := buf ← read_exact 4; mret (of_be_bytes buf).
Definition read_u64 : io Z := buf ← read_exact 8; mret (of_be_bytes buf).

(** * Replies *)

Definition transmission_flags : Z := Z.lor (Z.lor FLAG_HAS_FLAGS FLAG_SEND_FLUSH) FLAG_SEND_FUA.

Definition export_info (size : Z) : bytes :=
  be_bytes 2 INFO_EXPORT ++ be_bytes 8 size ++ be_bytes 2 transmission_flags.

Definition option_reply (option reply_type : Z) (payload : bytes) : bytes :=
  be_bytes 8 REP_MAGIC ++ be_bytes 4 option ++ be_bytes 4 reply_type ++
  be_bytes 4 (zlen payload) ++ payload.

Definition send_reply (option reply_type : Z) (payload : bytes) : io () :=
  send (option_reply option reply_type payload).

Definition simple_reply (error cookie : Z) (data : bytes) : bytes :=
  be_bytes 4 SIMPLE_REPLY_MAGIC ++ be_bytes 4 error ++ be_bytes 8 cookie ++ data.

Definition send_simple_reply (error cookie : Z) (data : bytes) : io () :=
  send (simple_reply error cookie data).

(** * Negotiation *)

Definition export_reply (size : Z) (no_zeroes : bool) : bytes :=
  be_bytes 8 size ++ be_bytes 2 transmission_flags ++ (if no_zeroes then [] else replicate 124 x00).

(** One turn of the option loop: [None] to go on, or what [handshake] returns. *)
Definition handshake_turn (size : Z) (no_zeroes : bool) : io (option bool) :=
  magic ← read_u64;
  if negb (magic =? IHAVEOPT) then fail InvalidData
  else
    opt ← read_u32;
    length ← read_u32;
    data ← read_exact (Z.to_nat length);
    if opt =? OPT_EXPORT_NAME then
      send (export_reply size no_zeroes);; mret (Some true)
    else if (opt =? OPT_GO) || (opt =? OPT_INFO) then
      send_reply opt REP_INFO (export_info size);;
      send_reply opt REP_ACK [];;
      if opt =? OPT_GO then mret (Some true) else mret None
    else if opt =? OPT_ABORT then
      send_reply opt REP_ACK [];; mret (Some false)
    else
      send_reply opt REP_ERR_UNSUP [];; mret None.

(** [None]: the fuel ran out. *)
Fixpoint option_loop (fuel : nat) (size : Z) (no_zeroes : bool) (w : conn)
  : option (conn * result bool io_kind) :=
  match fuel with
  | O => None
  | S fuel' =>
      match handshake_turn size no_zeroes w with
      | (w', Err k) => Some (w', Err k)
      | (w', Ok (Some b)) => Some (w', Ok b)
      | (w', Ok None) => option_loop fuel' size no_zeroes w'
      end
  end.

Definition hello : bytes :=
  be_bytes 8 NBD_MAGIC ++ be_bytes 8 IHAVEOPT ++ be_bytes 2 (Z.lor FLAG_FIXED_NEWSTYLE FLAG_NO_ZEROES).

Definition handshake (fuel : nat) (size : Z) (w : conn) : option (conn * result bool io_kind) :=
  match (send hello;; read_u32) w with
  | (w', Err k) => Some (w', Err k)
  | (w', Ok client_flags) =>
      option_loop fuel size (negb (Z.land client_flags CLIENT_FLAG_NO_ZEROES =? 0)) w'
  end.

(** * Transmission *)

Definition lift_state {A} (f : disk_state -> disk_state * A) (sh : shared) : shared * A :=
  let '(d, a) := f (state sh) in (Shared d (policy sh) (io_count sh), a).

(** [CMD_WRITE]'s arm under the disk's lock: the write, then the flush a FUA
    write asks for. *)
Definition write_fua (flags offset : Z) (data : bytes) (d : disk_state)
  : disk_state * result () io_kind :=
  let '(d', r) := disk_write d offset data in
  if is_ok r && negb (Z.land flags CMD_FLAG_FUA =? 0) then disk_flush d' else (d', r).

Definition reply_unit (cookie : Z) (r : result () io_kind) : io () :=
  match r with
  | Ok _ => send_simple_reply 0 cookie []
  | Err _ => send_simple_reply NBD_EIO cookie []
  end.

(** A request past its magic: the rest of the header, a write's payload, the
    verdict, the command. *)
Definition serve_request : io bool :=
  flags ← read_u16;
  command ← read_u16;
  cookie ← read_u64;
  offset ← read_u64;
  length ← read_u32;
  payload ← (if command =? CMD_WRITE then read_exact (Z.to_nat length) else mret []);
  faulted ← (if (command =? CMD_READ) || (command =? CMD_WRITE) || (command =? CMD_FLUSH)
             then with_disk (fun sh => (consult sh command offset length).1)
             else mret false);
  if faulted : bool then send_simple_reply NBD_EIO cookie [];; mret true
  else if command =? CMD_READ then
    r ← with_disk (fun sh => (sh, disk_read (state sh) offset length));
    match r with
    | Ok data => send_simple_reply 0 cookie data
    | Err _ => send_simple_reply NBD_EIO cookie []
    end;; mret true
  else if command =? CMD_WRITE then
    r ← with_disk (lift_state (write_fua flags offset payload));
    reply_unit cookie r;; mret true
  else if command =? CMD_FLUSH then
    r ← with_disk (lift_state disk_flush);
    reply_unit cookie r;; mret true
  else if command =? CMD_DISC then mret false
  else send_simple_reply NBD_EINVAL cookie [];; mret true.

(** The next request; a client that vanished has disconnected. *)
Definition next_request : io bool := fun w =>
  match read_u32 w with
  | (w', Err UnexpectedEofKind) => (w', Ok false)
  | (w', Err k) => (w', Err k)
  | (w', Ok magic) =>
      if negb (magic =? REQUEST_MAGIC) then (w', Err InvalidData) else serve_request w'
  end.

(** One turn of the loop: [false] when [transmission] returns [Ok]. *)
Definition transmission_turn : io bool :=
  stop ← load_shutdown;
  if stop : bool then mret false else next_request.

Fixpoint transmission (fuel : nat) (w : conn) : option (conn * result () io_kind) :=
  match fuel with
  | O => None
  | S fuel' =>
      match transmission_turn w with
      | (w', Err k) => Some (w', Err k)
      | (w', Ok false) => Some (w', Ok ())
      | (w', Ok true) => transmission fuel' w'
      end
  end.

(** [serve]: the export's size is read before the handshake. *)
Definition serve (fuel : nat) (w : conn) : option (conn * result () io_kind) :=
  match handshake fuel (size (state (disk w))) w with
  | None => None
  | Some (w', Err k) => Some (w', Err k)
  | Some (w', Ok false) => Some (w', Ok ())
  | Some (w', Ok true) => transmission fuel w'
  end.

(** * A sound disk stays one, whatever the host does to its image *)

Lemma write_all_at_length f data offset :
  0 <= offset -> offset + zlen data <= zlen (content f) ->
  zlen (content (write_all_at f data offset).1) = zlen (content f).
Proof.
  intros H0 Hle.
  assert (Hput : forall d, (length d <= length data)%nat -> zlen (put_at (content f) d (Z.to_nat offset)) = zlen (content f)).
  { intros d Hd. unfold zlen in *. rewrite put_at_fits by lia. rewrite length_splice; lia. }
  unfold write_all_at. destruct (host_writes f) as [|[t|] ws]; simpl; apply Hput; rewrite ?length_take; lia.
Qed.

Lemma write_sectors_length l f :
  (forall s h, (s, h) ∈ l -> 0 <= s /\ (s + 1) * SECTOR <= zlen (content f) /\ zlen h = SECTOR) ->
  zlen (content (write_sectors f l).1) = zlen (content f).
Proof.
  revert f. induction l as [|[s h] l IH]; intros f Hall; [done|]. cbn [write_sectors].
  destruct (Hall s h) as (Hs & Hsz & Hh); [by left|].
  pose proof (write_all_at_length f h (s * SECTOR)) as Hl.
  destruct (write_all_at f h (s * SECTOR)) as [f1 [|k]]; simpl in Hl;
    [|simpl; apply Hl; unfold SECTOR in *; lia].
  rewrite IH; [apply Hl; unfold SECTOR in *; lia|].
  intros s' h' Hin. rewrite Hl by (unfold SECTOR in *; lia). apply Hall. by right.
Qed.

Lemma disk_flush_ok d : disk_ok d -> disk_ok (disk_flush d).1 /\ size (disk_flush d).1 = size d.
Proof.
  intros Hd. unfold disk_flush.
  pose proof (write_sectors_length (ascending (overlay d)) (file d)) as Hl.
  destruct (write_sectors _ _) as [f r]. simpl in Hl.
  assert (Hok : forall n, disk_ok (DiskState f (size d) ∅ n)).
  { intros n. split; simpl; [|apply (dok_max _ Hd)|intros s h; by rewrite lookup_empty].
    rewrite Hl; [apply (dok_size _ Hd)|]. intros s h Hin%elem_of_ascending.
    rewrite (dok_size _ Hd). by apply (dok_overlay _ Hd). }
  destruct r; [destruct (sync_ok f)|]; split; (done || apply Hok).
Qed.

Lemma write_loop_ok offset end_ data ss d :
  disk_ok d -> 0 <= offset < end_ -> zlen data = end_ - offset ->
  (forall s, s ∈ ss -> s ∈ sectors offset end_) ->
  disk_ok (write_loop offset end_ data d ss).1 /\
  size (write_loop offset end_ data d ss).1 = size d.
Proof.
  intros Hd Ho Hdata. revert d Hd. induction ss as [|s ss IH]; intros d Hd Hss; cbn [write_loop];
    [done|].
  assert (Hin : s ∈ sectors offset end_) by (apply Hss; by left).
  destruct (decide ((s + 1) * SECTOR <= size d)) as [Hw|Hw].
  - destruct (write_sector_spec d offset end_ data s Hd Ho Hdata Hin Hw)
      as (d1 & -> & Hd1 & _ & E2 & _).
    rewrite <- E2. apply IH; [done|]. intros. apply Hss. by right.
  - unfold write_sector. destruct (overlay d !! s) as [h|] eqn:Eh.
    + destruct (dok_overlay _ Hd s h Eh) as (_ & ? & _). lia.
    + unfold read_exact_at. rewrite <- (dok_size _ Hd) in Hw.
      apply elem_of_sectors in Hin; [|done].
      destruct (Nat.leb_spec (Z.to_nat (s * SECTOR) + Z.to_nat SECTOR) (length (content (file d))));
        [|done]. exfalso. unfold zlen in Hw. sector_lia.
Qed.

Lemma disk_write_ok d offset data :
  disk_ok d -> 0 <= offset ->
  disk_ok (disk_write d offset data).1 /\ size (disk_write d offset data).1 = size d.
Proof.
  intros Hd H0. unfold disk_write. destruct data as [|b data]; [done|].
  set (bs := b :: data). unfold checked_add. destruct (_ <=? _); [|done].
  destruct (size d <? _); [done|].
  assert (0 < zlen bs) by (unfold bs, zlen; simpl; lia).
  destruct (write_loop_ok offset (offset + zlen bs) bs (sectors offset (offset + zlen bs)) d)
    as [Hl Hs]; [done|lia..|done|].
  destruct (write_loop _ _ _ _ _) as [d1 [|k]]; simpl in *; [|done].
  destruct (_ <? _); [|done]. rewrite <- Hs. by apply disk_flush_ok.
Qed.

(** A write that succeeded is seen, on any disk and any host. *)
Lemma write_sector_whole d offset end_ data s d' :
  disk_ok d -> 0 <= offset < end_ -> s ∈ sectors offset end_ ->
  write_sector offset end_ data d s = (d', Ok ()) -> (s + 1) * SECTOR <= size d.
Proof.
  intros Hd Ho Hin. unfold write_sector. destruct (overlay d !! s) as [h|] eqn:Eh.
  - intros _. by apply (dok_overlay _ Hd s h).
  - unfold read_exact_at. rewrite <- (dok_size _ Hd). apply elem_of_sectors in Hin; [|done].
    destruct (Nat.leb_spec (Z.to_nat (s * SECTOR) + Z.to_nat SECTOR) (length (content (file d))));
      [|done]. intros _. unfold zlen. sector_lia.
Qed.

Lemma write_loop_sound offset end_ data ss d d' :
  disk_ok d -> 0 <= offset < end_ -> zlen data = end_ - offset ->
  (forall s, s ∈ ss -> s ∈ sectors offset end_) ->
  write_loop offset end_ data d ss = (d', Ok ()) ->
  forall i, visible d' i =
    if decide (Z.of_nat i / SECTOR ∈ ss /\ offset <= Z.of_nat i < end_)
    then data !! Z.to_nat (Z.of_nat i - offset) else visible d i.
Proof.
  intros Hd Ho Hdata Hss E.
  enough (Hw : forall s, s ∈ ss -> (s + 1) * SECTOR <= size d).
  { destruct (write_loop_spec offset end_ data ss d Hd Ho Hdata) as (d2 & E2 & _ & _ & _ & _ & Hv);
      [by auto|]. rewrite E in E2. by simplify_eq. }
  revert d Hd E. induction ss as [|s ss IH]; intros d Hd E s' Hs'; [by apply elem_of_nil in Hs'|].
  cbn [write_loop] in E. destruct (write_sector offset end_ data d s) as [d1 [[]|]] eqn:E1; [|done].
  assert (Hin : s ∈ sectors offset end_) by (apply Hss; by left).
  pose proof (write_sector_whole d offset end_ data s d1 Hd Ho Hin E1) as Hw.
  destruct (write_sector_spec d offset end_ data s Hd Ho Hdata Hin Hw)
    as (d2 & E2 & Hd2 & _ & Hsz & _).
  rewrite E1 in E2. simplify_eq. apply elem_of_cons in Hs' as [->|Hs']; [done|].
  rewrite <- Hsz. apply IH; auto. intros. apply Hss. by right.
Qed.

Lemma disk_write_sound d offset data d' :
  disk_ok d -> 0 <= offset -> disk_write d offset data = (d', Ok ()) ->
  forall i, visible d' i =
    if decide (offset <= Z.of_nat i < offset + zlen data)
    then data !! Z.to_nat (Z.of_nat i - offset) else visible d i.
Proof.
  intros Hd H0 E i. unfold disk_write in E. destruct data as [|b data].
  { simplify_eq. rewrite decide_False; [done|]. change (zlen []) with 0. lia. }
  set (bs := b :: data) in *. unfold checked_add in E.
  destruct (Z.leb_spec (offset + zlen bs) u64_max); [|done].
  destruct (Z.ltb_spec (size d) (offset + zlen bs)); [done|].
  assert (0 < zlen bs) by (unfold bs, zlen; simpl; lia).
  destruct (write_loop_ok offset (offset + zlen bs) bs (sectors offset (offset + zlen bs)) d)
    as [Hl Hs]; [done|lia..|done|].
  destruct (write_loop _ _ _ _ _) as [d1 [[]|]] eqn:E1; [|done]. simpl in Hl.
  assert (Hv := write_loop_sound offset (offset + zlen bs) bs _ d d1 Hd ltac:(lia) ltac:(lia)
    ltac:(done) E1 i).
  assert (Hv1 : visible d' i = visible d1 i).
  { destruct (_ <? _); [|by simplify_eq]. by apply (disk_flush_sound d1 d' Hl E). }
  rewrite Hv1, Hv.
  destruct (decide (offset <= Z.of_nat i < offset + zlen bs)) as [Hi|Hi].
  - rewrite decide_True; [done|]. split; [|done]. eapply sector_of_byte; [| |done]; lia.
  - rewrite decide_False; [done|]. tauto.
Qed.

(** A successful read answers with exactly the bytes asked for. *)
Lemma disk_read_length d offset len data :
  disk_ok d -> 0 <= offset -> 0 <= len -> disk_read d offset len = Ok data -> zlen data = len.
Proof.
  intros Hd H0 Hl Hr.
  destruct (decide (len = 0)) as [->|Hnz]; [unfold disk_read in Hr; simpl in Hr; by simplify_eq|].
  destruct (decide (offset + len <= size d)) as [Hle|Hgt].
  - destruct (disk_read_spec d offset len) as (buf & E & Hz & _); [done|lia..|].
    rewrite E in Hr. by simplify_eq.
  - rewrite (proj1 (disk_past_end d offset len H0 Hl)) in Hr by lia. done.
Qed.

(** * Requests and their answers, without the wire *)

Record request := Request {
  r_flags : Z;
  r_command : Z;
  r_cookie : Z;
  r_offset : Z;
  r_length : Z;
  r_payload : bytes;
}.

(** A request as a client sends it: fields in range, a payload exactly when
    it writes. *)
Record req_ok (r : request) : Prop := {
  ro_flags : in_width u16_max (r_flags r);
  ro_command : in_width u16_max (r_command r);
  ro_cookie : in_width u64_max (r_cookie r);
  ro_offset : in_width u64_max (r_offset r);
  ro_length : in_width u32_max (r_length r);
  ro_payload : zlen (r_payload r) = if r_command r =? CMD_WRITE then r_length r else 0;
}.

Definition encode_request (r : request) : bytes :=
  be_bytes 4 REQUEST_MAGIC ++ be_bytes 2 (r_flags r) ++ be_bytes 2 (r_command r) ++
  be_bytes 8 (r_cookie r) ++ be_bytes 8 (r_offset r) ++ be_bytes 4 (r_length r) ++ r_payload r.

Definition errno (r : result () io_kind) : Z := if is_ok r then 0 else NBD_EIO.

(** What the server owes for a request: the disk after it, the error number
    and the data of the reply. *)
Definition answer (sh : shared) (r : request) : shared * (Z * bytes) :=
  let c := r_command r in
  if c =? CMD_READ then
    let '(sh', faulted, _) := consult sh c (r_offset r) (r_length r) in
    if faulted then (sh', (NBD_EIO, []))
    else match disk_read (state sh') (r_offset r) (r_length r) with
         | Ok data => (sh', (0, data))
         | Err _ => (sh', (NBD_EIO, []))
         end
  else if c =? CMD_WRITE then
    let '(sh', faulted, _) := consult sh c (r_offset r) (r_length r) in
    if faulted then (sh', (NBD_EIO, []))
    else let '(sh'', res) := lift_state (write_fua (r_flags r) (r_offset r) (r_payload r)) sh' in
         (sh'', (errno res, []))
  else if c =? CMD_FLUSH then
    let '(sh', faulted, _) := consult sh c (r_offset r) (r_length r) in
    if faulted then (sh', (NBD_EIO, []))
    else let '(sh'', res) := lift_state disk_flush sh' in (sh'', (errno res, []))
  else (sh, (NBD_EINVAL, [])).

Fixpoint answers (sh : shared) (rs : list request) : shared * list (Z * Z * bytes) :=
  match rs with
  | [] => (sh, [])
  | r :: rs' =>
      let '(sh1, (error, data)) := answer sh r in
      let '(sh2, out) := answers sh1 rs' in (sh2, (error, r_cookie r, data) :: out)
  end.

Definition encode_replies (l : list (Z * Z * bytes)) : bytes :=
  mjoin ((fun x => simple_reply x.1.1 x.1.2 x.2) <$> l).

Lemma encode_replies_cons error cookie data l :
  encode_replies ((error, cookie, data) :: l) = simple_reply error cookie data ++ encode_replies l.
Proof. done. Qed.

(** ** Parsing a request *)

Lemma read_exact_app n a b o k sd sh :
  length a = n -> read_exact n (Conn (a ++ b) o k sd sh) = (Conn b o k sd sh, Ok a).
Proof.
  intros <-. unfold read_exact; simpl. rewrite length_app.
  destruct (Nat.leb_spec (length a) (length a + length b)); [|lia].
  by rewrite drop_app_length, take_app_length.
Qed.

Lemma read_u16_be z b o k sd sh : in_width u16_max z ->
  read_u16 (Conn (be_bytes 2 z ++ b) o k sd sh) = (Conn b o k sd sh, Ok z).
Proof.
  intros []. unfold read_u16, mbind, io_bind. rewrite read_exact_app by apply length_be_bytes.
  unfold mret, io_ret. by rewrite of_be_bytes_be_small by (simpl; unfold u16_max in *; lia).
Qed.

Lemma read_u32_be z b o k sd sh : in_width u32_max z ->
  read_u32 (Conn (be_bytes 4 z ++ b) o k sd sh) = (Conn b o k sd sh, Ok z).
Proof.
  intros []. unfold read_u32, mbind, io_bind. rewrite read_exact_app by apply length_be_bytes.
  unfold mret, io_ret. by rewrite of_be_bytes_be_small by (simpl; unfold u32_max in *; lia).
Qed.

Lemma read_u64_be z b o k sd sh : in_width u64_max z ->
  read_u64 (Conn (be_bytes 8 z ++ b) o k sd sh) = (Conn b o k sd sh, Ok z).
Proof.
  intros []. unfold read_u64, mbind, io_bind. rewrite read_exact_app by apply length_be_bytes.
  unfold mret, io_ret. by rewrite of_be_bytes_be_small by (simpl; unfold u64_max in *; lia).
Qed.

Lemma bind_ok {A B} (m : io A) (f : A -> io B) w w' a :
  m w = (w', Ok a) -> (m ≫= f) w = f a w'.
Proof. intros E. unfold mbind, io_bind. by rewrite E. Qed.

Lemma send_open data i o sd sh :
  send data (Conn i o None sd sh) = (Conn i (o ++ data) None sd sh, Ok ()).
Proof. done. Qed.

(** A turn on a well-formed request other than a disconnect consumes exactly
    that request and sends exactly its reply. *)
Lemma next_request_answers r rest o sh :
  req_ok r -> r_command r <> CMD_DISC ->
  next_request (Conn (encode_request r ++ rest) o None [] sh) =
    (Conn rest (o ++ simple_reply (answer sh r).2.1 (r_cookie r) (answer sh r).2.2)
       None [] (answer sh r).1, Ok true).
Proof.
  intros Hr Hdisc. destruct Hr. unfold next_request, encode_request. rewrite <- !app_assoc.
  rewrite read_u32_be by done. rewrite Z.eqb_refl. cbn [negb]. unfold serve_request.
  erewrite bind_ok by (by apply read_u16_be). erewrite bind_ok by (by apply read_u16_be).
  erewrite bind_ok by (by apply read_u64_be). erewrite bind_ok by (by apply read_u64_be).
  erewrite bind_ok by (by apply read_u32_be).
  set (c := r_command r) in *.
  erewrite (bind_ok _ _ _ (Conn rest o None [] sh) (r_payload r)).
  2:{ destruct (Z.eqb_spec c CMD_WRITE).
      - apply read_exact_app. unfold zlen in *. lia.
      - rewrite (zlen_zero (r_payload r)) by done. done. }
  unfold answer. fold c.
  assert (Hcons : forall sh0, with_disk (fun sh => (consult sh c (r_offset r) (r_length r)).1)
    (Conn rest o None [] sh0) = let '(sh', f, _) := consult sh0 c (r_offset r) (r_length r) in
      (Conn rest o None [] sh', Ok f)).
  { intros sh0. unfold with_disk; simpl. by destruct (consult sh0 c _ _) as [[] ]. }
  destruct (Z.eqb_spec c CMD_READ) as [Hc|_]; cbn [orb].
  { unfold mbind at 1, io_bind at 1. rewrite Hcons. destruct (consult sh c _ _) as [[sh' []] ?]; [done|].
    unfold mbind, io_bind, with_disk; simpl.
    by destruct (disk_read (state sh') (r_offset r) (r_length r)). }
  destruct (Z.eqb_spec c CMD_WRITE) as [Hc|_]; cbn [orb].
  { unfold mbind at 1, io_bind at 1. rewrite Hcons. destruct (consult sh c _ _) as [[sh' []] ?]; [done|].
    unfold mbind, io_bind, with_disk; simpl.
    by destruct (lift_state _ sh') as [sh'' []]. }
  destruct (Z.eqb_spec c CMD_FLUSH) as [Hc|_].
  { unfold mbind at 1, io_bind at 1. rewrite Hcons. destruct (consult sh c _ _) as [[sh' []] ?]; [done|].
    unfold mbind, io_bind, with_disk; simpl.
    by destruct (lift_state disk_flush sh') as [sh'' []]. }
  destruct (Z.eqb_spec c CMD_DISC); [done|]. done.
Qed.

Lemma transmission_answers rs rest o sh fuel :
  Forall req_ok rs -> Forall (fun r => r_command r <> CMD_DISC) rs ->
  transmission (length rs + fuel) (Conn (mjoin (encode_request <$> rs) ++ rest) o None [] sh) =
  transmission fuel (Conn rest (o ++ encode_replies (answers sh rs).2) None [] (answers sh rs).1).
Proof.
  intros Hok Hnd. revert o sh. induction rs as [|r rs IH]; intros o sh.
  - by rewrite app_nil_r.
  - apply Forall_cons in Hok as [Hr Hok], Hnd as [Hd Hnd].
    cbn [length Nat.add transmission fmap list_fmap mjoin list_join].
    rewrite <- app_assoc. unfold transmission_turn at 1.
    rewrite (bind_ok _ _ _ (Conn (encode_request r ++ mjoin (encode_request <$> rs) ++ rest)
      o None [] sh) false) by done.
    cbv beta iota. rewrite next_request_answers by done.
    rewrite IH by done. cbn [answers].
    destruct (answer sh r) as [sh1 [error data]].
    simpl. destruct (answers sh1 rs) as [sh2 out]. simpl.
    by rewrite encode_replies_cons, <- app_assoc.
Qed.

(** ** The client's side: replies parsed in the order of the requests *)

Definition parse_reply (r : request) (bs : bytes) : option ((Z * Z * bytes) * bytes) :=
  if (length bs <? 16)%nat then None
  else
    let error := of_be_bytes (take 4 (drop 4 bs)) in
    let cookie := of_be_bytes (take 8 (drop 8 bs)) in
    let n := if (r_command r =? CMD_READ) && (error =? 0) then Z.to_nat (r_length r) else O in
    if negb (of_be_bytes (take 4 bs) =? SIMPLE_REPLY_MAGIC) then None
    else if (length bs <? 16 + n)%nat then None
    else Some (error, cookie, take n (drop 16 bs), drop (16 + n) bs).

Fixpoint parse_replies (rs : list request) (bs : bytes) : option (list (Z * Z * bytes)) :=
  match rs with
  | [] => if bool_decide (bs = []) then Some [] else None
  | r :: rs' =>
      match parse_reply r bs with
      | Some (x, bs') => (x ::.) <$> parse_replies rs' bs'
      | None => None
      end
  end.

Lemma parse_simple_reply r error cookie data rest :
  in_width u32_max error -> in_width u64_max cookie ->
  length data = (if (r_command r =? CMD_READ)%Z && (error =? 0)%Z then Z.to_nat (r_length r) else O) ->
  parse_reply r (simple_reply error cookie data ++ rest) = Some (error, cookie, data, rest).
Proof.
  intros He Hc Hlen. unfold parse_reply, simple_reply.
  set (m := be_bytes 4 SIMPLE_REPLY_MAGIC). set (e := be_bytes 4 error). set (c := be_bytes 8 cookie).
  assert (Hm : length m = 4%nat) by apply length_be_bytes.
  assert (Hel : length e = 4%nat) by apply length_be_bytes.
  assert (Hcl : length c = 8%nat) by apply length_be_bytes.
  rewrite <- !app_assoc.
  assert (E1 : take 4 (m ++ e ++ c ++ data ++ rest) = m) by (by apply take_app_length').
  assert (E2 : take 4 (drop 4 (m ++ e ++ c ++ data ++ rest)) = e)
    by (rewrite drop_app_length' by done; by apply take_app_length').
  assert (E3 : drop 8 (m ++ e ++ c ++ data ++ rest) = c ++ data ++ rest)
    by (rewrite app_assoc; apply drop_app_length'; rewrite length_app; lia).
  assert (E4 : drop 16 (m ++ e ++ c ++ data ++ rest) = data ++ rest)
    by (rewrite !app_assoc, <- (app_assoc _ data); apply drop_app_length'; rewrite !length_app; lia).
  rewrite E1, E2, E3. rewrite (take_app_length' c) by done.
  unfold e, c, m. rewrite !of_be_bytes_be_small
    by (unfold in_width, u32_max, u64_max, SIMPLE_REPLY_MAGIC in *; simpl; lia).
  fold e c m. rewrite Z.eqb_refl. cbn [negb]. rewrite <- drop_drop, E4, <- Hlen.
  rewrite take_app_length, drop_app_length, !length_app.
  destruct (Nat.ltb_spec (length m + (length e + (length c + (length data + length rest)))) 16); [lia|].
  destruct (Nat.ltb_spec (length m + (length e + (length c + (length data + length rest))))
    (16 + length data)); [lia|done].
Qed.

(** The answer to a well-formed request has the shape its client expects. *)
Lemma answer_shape sh r :
  disk_ok (state sh) -> req_ok r ->
  disk_ok (state (answer sh r).1) /\ in_width u32_max (answer sh r).2.1 /\
  length (answer sh r).2.2 =
    (if (r_command r =? CMD_READ)%Z && ((answer sh r).2.1 =? 0)%Z then Z.to_nat (r_length r) else O).
Proof.
  intros Hd [_ _ _ [Ho _] [Hl _] _].
  assert (Hst : forall c, state (consult sh c (r_offset r) (r_length r)).1.1 = state sh).
  { intros c. unfold consult. by repeat case_match. }
  assert (Herr : forall res, in_width u32_max (errno res)) by (by intros []).
  unfold answer. set (c := r_command r).
  destruct (Z.eqb_spec c CMD_READ) as [Hc|_].
  { specialize (Hst c). destruct (consult sh c _ _) as [[sh' []] ?]; simpl in Hst; [simpl; by rewrite Hst|].
    destruct (disk_read (state sh') (r_offset r) (r_length r)) as [data|k] eqn:E; rewrite <- Hst in Hd.
    - split_and!; [done..|]. pose proof (disk_read_length _ _ _ _ Hd Ho Hl E) as H1.
      unfold zlen in H1. simpl. lia.
    - done. }
  cbn [andb]. destruct (Z.eqb_spec c CMD_WRITE) as [Hc|_].
  { specialize (Hst c). destruct (consult sh c _ _) as [[sh' []] ?]; simpl in Hst; [simpl; by rewrite Hst|].
    unfold lift_state, write_fua. rewrite Hst.
    pose proof (disk_write_ok (state sh) (r_offset r) (r_payload r) Hd Ho) as [Hw _].
    destruct (disk_write (state sh) (r_offset r) (r_payload r)) as [d1 res]. simpl in Hw.
    pose proof (disk_flush_ok d1 Hw) as [Hf _].
    destruct (is_ok res && _); [destruct (disk_flush d1)|]; simpl in *; auto. }
  destruct (Z.eqb_spec c CMD_FLUSH) as [Hc|_]; [|done].
  specialize (Hst c). destruct (consult sh c _ _) as [[sh' []] ?]; simpl in Hst; [simpl; by rewrite Hst|].
  unfold lift_state. rewrite Hst. pose proof (disk_flush_ok (state sh) Hd) as [Hf _].
  destruct (disk_flush (state sh)); simpl in *; auto.
Qed.

Lemma parse_answers sh rs :
  disk_ok (state sh) -> Forall req_ok rs ->
  parse_replies rs (encode_replies (answers sh rs).2) = Some (answers sh rs).2.
Proof.
  intros Hd Hok. revert sh Hd. induction Hok as [|r rs Hr Hok IH]; intros sh Hd; [done|].
  destruct (answer_shape sh r Hd Hr) as (Hd1 & He & Hlen). cbn [answers].
  destruct (answer sh r) as [sh1 [error data]]. cbn [fst snd] in *.
  specialize (IH sh1 Hd1). destruct (answers sh1 rs) as [sh2 out]. cbn [snd] in *.
  rewrite encode_replies_cons. cbn [parse_replies].
  rewrite parse_simple_reply by (done || apply Hr). by rewrite IH.
Qed.

(** * Termination *)

Definition shrinks {A} (m : io A) : Prop :=
  forall w, (length (inp (m w).1) <= length (inp w))%nat.

Lemma shrinks_bind {A B} (m : io A) (f : A -> io B) :
  shrinks m -> (forall a, shrinks (f a)) -> shrinks (m ≫= f).
Proof.
  intros Hm Hf w. unfold mbind, io_bind. specialize (Hm w).
  destruct (m w) as [w' [a|k]]; simpl in *; [|done]. specialize (Hf a w'). lia.
Qed.

Lemma shrinks_ret {A} (a : A) : shrinks (mret a).
Proof. by intros w. Qed.

Lemma shrinks_fail {A} k : shrinks (@fail A k).
Proof. by intros w. Qed.

Lemma shrinks_read_exact n : shrinks (read_exact n).
Proof. intros w. unfold read_exact. case_match; simpl; [rewrite length_drop|]; lia. Qed.

Lemma shrinks_send data : shrinks (send data).
Proof. intros w. unfold send. by repeat case_match. Qed.

Lemma shrinks_with_disk {A} (f : shared -> shared * A) : shrinks (with_disk f).
Proof. intros w. unfold with_disk. by case_match. Qed.

Create HintDb shrink.
#[export] Hint Resolve shrinks_ret shrinks_fail shrinks_read_exact shrinks_send shrinks_with_disk : shrink.
#[export] Hint Extern 2 (shrinks (_ ≫= _)) => (apply shrinks_bind; [|intros]) : shrink.
#[export] Hint Extern 1 (shrinks read_u16) => (unfold read_u16) : shrink.
#[export] Hint Extern 1 (shrinks read_u32) => (unfold read_u32) : shrink.
#[export] Hint Extern 1 (shrinks read_u64) => (unfold read_u64) : shrink.
#[export] Hint Extern 1 (shrinks (send_reply _ _ _)) => (apply shrinks_send) : shrink.
#[export] Hint Extern 1 (shrinks (send_simple_reply _ _ _)) => (apply shrinks_send) : shrink.
#[export] Hint Extern 1 (shrinks (reply_unit _ _)) => (unfold reply_unit; case_match) : shrink.
#[export] Hint Extern 3 (shrinks (if _ then _ else _)) => case_match : shrink.
#[export] Hint Extern 3 (shrinks (match _ with _ => _ end)) => case_match : shrink.

Lemma shrinks_serve_request : shrinks serve_request.
Proof. unfold serve_request. auto 30 with shrink. Qed.

(** An integer that was read came off the input. *)
Lemma read_u32_consumes w w' z : read_u32 w = (w', Ok z) -> (length (inp w') < length (inp w))%nat.
Proof.
  unfold read_u32, mbind, io_bind, read_exact.
  destruct (Nat.leb_spec 4 (length (inp w))); simpl; [|done].
  intros [= <- _]. simpl. rewrite length_drop. lia.
Qed.

Lemma read_u64_consumes w w' z : read_u64 w = (w', Ok z) -> (length (inp w') < length (inp w))%nat.
Proof.
  unfold read_u64, mbind, io_bind, read_exact.
  destruct (Nat.leb_spec 8 (length (inp w))); simpl; [|done].
  intros [= <- _]. simpl. rewrite length_drop. lia.
Qed.

Lemma next_request_consumes w w' :
  next_request w = (w', Ok true) -> (length (inp w') < length (inp w))%nat.
Proof.
  unfold next_request. destruct (read_u32 w) as [w1 [magic|k]] eqn:E.
  - apply read_u32_consumes in E. case_match; [done|].
    intros E2. pose proof (shrinks_serve_request w1) as Hs. rewrite E2 in Hs. simpl in Hs. lia.
  - by destruct k.
Qed.

Lemma transmission_ends fuel w :
  (length (inp w) < fuel)%nat -> is_Some (transmission fuel w).
Proof.
  revert w. induction fuel as [|fuel IH]; intros w Hf; [lia|]. cbn [transmission].
  unfold transmission_turn. unfold mbind, io_bind, load_shutdown.
  destruct (default false (head (shutdowns w))); [by eexists|].
  destruct (next_request _) as [w' [[]|k]] eqn:E; [|by eexists..].
  apply next_request_consumes in E. simpl in E. apply IH. lia.
Qed.

Lemma handshake_turn_consumes size nz w w' :
  handshake_turn size nz w = (w', Ok None) -> (length (inp w') < length (inp w))%nat.
Proof.
  unfold handshake_turn. unfold mbind at 1, io_bind at 1.
  destruct (read_u64 w) as [w1 [magic|k]] eqn:E; [|done]. apply read_u64_consumes in E.
  case_match; [done|]. match goal with |- ?m w1 = _ -> _ => assert (Hs : shrinks m) end.
  { auto 30 with shrink. }
  intros E2. specialize (Hs w1). rewrite E2 in Hs. simpl in Hs. lia.
Qed.

Lemma option_loop_ends fuel size nz w :
  (length (inp w) < fuel)%nat ->
  exists w' r, option_loop fuel size nz w = Some (w', r) /\ (length (inp w') <= length (inp w))%nat.
Proof.
  revert w. induction fuel as [|fuel IH]; intros w Hf; [lia|]. cbn [option_loop].
  assert (Hs : shrinks (handshake_turn size nz)) by (unfold handshake_turn; auto 30 with shrink).
  specialize (Hs w).
  destruct (handshake_turn size nz w) as [w1 [[b|]|k]] eqn:E; simpl in Hs; [by eauto| |by eauto].
  apply handshake_turn_consumes in E. destruct (IH w1) as (w2 & r & E2 & Hl); [lia|].
  exists w2, r. split; [done|lia].
Qed.

(** ** Options *)

Record client_option := ClientOption { o_kind : Z; o_data : bytes }.

Definition encode_option (x : client_option) : bytes :=
  be_bytes 8 IHAVEOPT ++ be_bytes 4 (o_kind x) ++ be_bytes 4 (zlen (o_data x)) ++ o_data x.

Definition opt_ok (x : client_option) : Prop :=
  in_width u32_max (o_kind x) /\ zlen (o_data x) <= u32_max.

(** What an option is owed: the reply, and whether it ends the negotiation. *)
Definition option_answer (size : Z) (no_zeroes : bool) (x : client_option) : bytes * option bool :=
  let k := o_kind x in
  if k =? OPT_EXPORT_NAME then (export_reply size no_zeroes, Some true)
  else if k =? OPT_GO then
    (option_reply k REP_INFO (export_info size) ++ option_reply k REP_ACK [], Some true)
  else if k =? OPT_INFO then
    (option_reply k REP_INFO (export_info size) ++ option_reply k REP_ACK [], None)
  else if k =? OPT_ABORT then (option_reply k REP_ACK [], Some false)
  else (option_reply k REP_ERR_UNSUP [], None).

Lemma handshake_turn_answers size nz x rest o sd sh :
  opt_ok x ->
  handshake_turn size nz (Conn (encode_option x ++ rest) o None sd sh) =
    (Conn rest (o ++ (option_answer size nz x).1) None sd sh, Ok (option_answer size nz x).2).
Proof.
  intros [Hk Hd]. unfold handshake_turn, encode_option. rewrite <- !app_assoc.
  erewrite bind_ok by (by apply read_u64_be). rewrite Z.eqb_refl. cbn [negb].
  erewrite bind_ok by (by apply read_u32_be).
  erewrite bind_ok by (apply read_u32_be; split; [apply zlen_nonneg|done]).
  erewrite bind_ok by (apply read_exact_app; unfold zlen; lia).
  unfold option_answer. set (k := o_kind x).
  destruct (k =? OPT_EXPORT_NAME); [done|].
  destruct (k =? OPT_GO); cbn [orb];
    [unfold mbind, io_bind; cbn -[option_reply app]; by rewrite <- app_assoc|].
  destruct (k =? OPT_INFO);
    [unfold mbind, io_bind; cbn -[option_reply app]; by rewrite <- app_assoc|].
  by destruct (k =? OPT_ABORT).
Qed.

Lemma option_loop_answers fuel size nz xs rest o sd sh :
  Forall opt_ok xs -> Forall (fun x => (option_answer size nz x).2 = None) xs ->
  option_loop (length xs + fuel) size nz (Conn (mjoin (encode_option <$> xs) ++ rest) o None sd sh) =
  option_loop fuel size nz
    (Conn rest (o ++ mjoin ((fun x => (option_answer size nz x).1) <$> xs)) None sd sh).
Proof.
  intros Hok Hgo. revert o. induction xs as [|x xs IH]; intros o; [simpl; by rewrite app_nil_r|].
  apply Forall_cons in Hok as [Hx Hok], Hgo as [Hg Hgo].
  change (mjoin (encode_option <$> x :: xs)) with (encode_option x ++ mjoin (encode_option <$> xs)).
  rewrite <- app_assoc. cbn [length Nat.add option_loop].
  rewrite handshake_turn_answers, Hg by done. rewrite IH by done.
  do 2 f_equal. change (mjoin (?f <$> x :: xs)) with (f x ++ mjoin (f <$> xs)).
  by rewrite <- app_assoc.
Qed.

(** * The disk behind the wire *)

(** The specification's answer to a request, with no fault armed. *)
Definition cache_answer (c : cache) (r : request) : cache * (Z * bytes) :=
  let k := r_command r in
  if k =? CMD_READ then
    match cache_read c (r_offset r) (r_length r) with
    | Ok data => (c, (0, data))
    | Err _ => (c, (NBD_EIO, []))
    end
  else if k =? CMD_WRITE then
    let '(c', res) := cache_write c (r_offset r) (r_payload r) in
    if is_ok res && negb (Z.land (r_flags r) CMD_FLAG_FUA =? 0)
    then (cache_flush c', (0, [])) else (c', (errno res, []))
  else if k =? CMD_FLUSH then (cache_flush c, (0, []))
  else (c, (NBD_EINVAL, [])).

Fixpoint cache_answers (c : cache) (rs : list request) : cache * list (Z * Z * bytes) :=
  match rs with
  | [] => (c, [])
  | r :: rs' =>
      let '(c1, (error, data)) := cache_answer c r in
      let '(c2, out) := cache_answers c1 rs' in (c2, (error, r_cookie r, data) :: out)
  end.

Lemma consult_no_faults sh k offset length :
  policy sh = no_faults -> consult sh k offset length = (sh, false, 0).
Proof. intros Hp. unfold consult. by rewrite Hp. Qed.

Lemma answer_refines sh c r :
  policy sh = no_faults -> refines (state sh) c -> req_ok r ->
  policy (answer sh r).1 = no_faults /\
  refines (state (answer sh r).1) (cache_answer c r).1 /\ (answer sh r).2 = (cache_answer c r).2.
Proof.
  intros Hp Hr [_ _ _ [Ho _] [Hl _] _]. unfold answer, cache_answer. set (k := r_command r).
  rewrite !(consult_no_faults sh) by done.
  destruct (k =? CMD_READ).
  { rewrite (refines_read _ c) by done. by destruct (cache_read _ _ _). }
  destruct (k =? CMD_WRITE).
  { unfold lift_state, write_fua.
    destruct (refines_write (state sh) c (r_offset r) (r_payload r) Hr Ho) as [H1 H2].
    destruct (disk_write _ _ _) as [d1 res], (cache_write _ _ _) as [c1 res']. simpl in *. subst res'.
    destruct (is_ok res && _); [|done].
    destruct (refines_flush d1 c1 H1) as (H3 & H4 & _).
    destruct (disk_flush d1) as [d2 res2]. simpl in *. by subst res2. }
  destruct (k =? CMD_FLUSH); [|done].
  unfold lift_state. destruct (refines_flush (state sh) c Hr) as (H3 & H4 & _).
  destruct (disk_flush _) as [d2 res2]. simpl in *. by subst res2.
Qed.

Lemma answers_refine sh c rs :
  policy sh = no_faults -> refines (state sh) c -> Forall req_ok rs ->
  refines (state (answers sh rs).1) (cache_answers c rs).1 /\
  (answers sh rs).2 = (cache_answers c rs).2.
Proof.
  intros Hp Hr Hok. revert sh c Hp Hr. induction Hok as [|r rs Hx Hok IH]; intros sh c Hp Hr; [done|].
  destruct (answer_refines sh c r Hp Hr Hx) as (Hp1 & Hr1 & E). cbn [answers cache_answers].
  destruct (answer sh r) as [sh1 [e d]], (cache_answer c r) as [c1 [e' d']]. simpl in *. simplify_eq.
  destruct (IH sh1 c1 Hp1 Hr1) as [H1 H2].
  destruct (answers sh1 rs), (cache_answers c1 rs). simpl in *. by subst.
Qed.

Lemma answers_cookies sh rs : (fun x => x.1.2) <$> (answers sh rs).2 = r_cookie <$> rs.
Proof.
  revert sh. induction rs as [|r rs IH]; intros sh; [done|]. cbn [answers].
  destruct (answer sh r) as [sh1 [e d]]. specialize (IH sh1).
  destruct (answers sh1 rs) as [sh2 out]. cbn [snd] in *. by rewrite !fmap_cons, IH.
Qed.

(** * Properties *)

(** C5: the transmission phase never loses its place. On any sequence of
    well-formed requests (any commands, flags, offsets and lengths, any armed
    fault policy, any host), ended by the client closing or by a disconnect
    request whatever follows it, the server sends exactly one reply per
    request, in order, with the request's cookie, and a client that parses the
    stream in the order of its requests recovers every reply exactly: an
    injected fault never desynchronises the connection. *)
Theorem transmission_in_sync sh rs o ending fuel :
  disk_ok (state sh) -> Forall req_ok rs -> Forall (fun r => r_command r <> CMD_DISC) rs ->
  (ending = [] \/
   exists d junk, req_ok d /\ r_command d = CMD_DISC /\ ending = encode_request d ++ junk) ->
  (length rs < fuel)%nat ->
  exists w', transmission fuel (Conn (mjoin (encode_request <$> rs) ++ ending) o None [] sh) =
      Some (w', Ok ()) /\
    disk w' = (answers sh rs).1 /\ outp w' = o ++ encode_replies (answers sh rs).2 /\
    parse_replies rs (encode_replies (answers sh rs).2) = Some (answers sh rs).2 /\
    (fun x => x.1.2) <$> (answers sh rs).2 = r_cookie <$> rs.
Proof.
  intros Hd Hok Hnd Hend Hfuel.
  replace fuel with (length rs + S (fuel - length rs - 1))%nat by lia.
  rewrite transmission_answers by done.
  assert (Hlast : exists rest, transmission_turn
    (Conn ending (o ++ encode_replies (answers sh rs).2) None [] (answers sh rs).1) =
    (Conn rest (o ++ encode_replies (answers sh rs).2) None [] (answers sh rs).1, Ok false)).
  { destruct Hend as [->|(d & junk & Hr & Hc & ->)]; [by eexists|]. exists junk.
    destruct Hr as [? ? ? ? ? Hp]. rewrite Hc in Hp. unfold transmission_turn.
    rewrite (bind_ok _ _ _ (Conn (encode_request d ++ junk) (o ++ encode_replies (answers sh rs).2)
      None [] (answers sh rs).1) false) by done. cbv beta iota.
    unfold next_request, encode_request. rewrite (zlen_zero (r_payload d)) by done.
    rewrite <- !app_assoc, read_u32_be by done. rewrite Z.eqb_refl. cbn [negb]. unfold serve_request.
    erewrite bind_ok by (by apply read_u16_be). erewrite bind_ok by (by apply read_u16_be).
    erewrite bind_ok by (by apply read_u64_be). erewrite bind_ok by (by apply read_u64_be).
    erewrite bind_ok by (by apply read_u32_be). by rewrite Hc. }
  destruct Hlast as [rest Hlast]. cbn [transmission]. rewrite Hlast.
  eexists. split_and!; [done|done|done|by apply parse_answers|apply answers_cookies].
Qed.

(** The server always comes back. Whatever bytes a client sends before it
    closes, and whatever the disk, the policy and the socket do, a session
    ends, within one turn of each loop per byte received. *)
Lemma serve_terminates w fuel : (length (inp w) < fuel)%nat -> is_Some (serve fuel w).
Proof.
  intros Hf. unfold serve, handshake.
  assert (Hs : shrinks (send hello;; read_u32)) by auto 30 with shrink. specialize (Hs w).
  destruct ((send hello;; read_u32) w) as [w1 [flags|k]]; simpl in Hs; [|by eexists].
  destruct (option_loop_ends fuel (size (state (disk w)))
    (negb (Z.land flags CLIENT_FLAG_NO_ZEROES =? 0)) w1) as (w2 & r & -> & Hl); [lia|].
  destruct r as [[]|]; [|by eexists..]. apply transmission_ends. lia.
Qed.

(** The handshake. After the greeting, every option that does not end the
    negotiation is answered and skipped (refused as unsupported, or described
    for [OPT_INFO]), with its payload consumed whatever its length, and the
    first that does decides: [GO] and [EXPORT_NAME] enter the transmission
    phase with the disk's size and flags sent and not one byte of it consumed,
    [ABORT] closes. *)
Lemma handshake_outcome size flags xs x b rest sd sh fuel :
  in_width u32_max flags -> Forall opt_ok xs -> opt_ok x ->
  let nz := negb (Z.land flags CLIENT_FLAG_NO_ZEROES =? 0) in
  Forall (fun y => (option_answer size nz y).2 = None) xs -> (option_answer size nz x).2 = Some b ->
  (length xs < fuel)%nat ->
  handshake fuel size
    (Conn (be_bytes 4 flags ++ mjoin (encode_option <$> xs) ++ encode_option x ++ rest) [] None sd sh) =
  Some (Conn rest (hello ++ mjoin ((fun y => (option_answer size nz y).1) <$> xs) ++
                   (option_answer size nz x).1) None sd sh, Ok b).
Proof.
  intros Hfl Hok Hx nz Hgo Hb Hfuel. unfold handshake.
  rewrite (bind_ok _ _ _ (Conn (be_bytes 4 flags ++ mjoin (encode_option <$> xs) ++
    encode_option x ++ rest) hello None sd sh) ()) by done.
  rewrite read_u32_be by done. fold nz.
  replace fuel with (length xs + S (fuel - length xs - 1))%nat by lia.
  rewrite option_loop_answers by done. cbn [option_loop].
  rewrite handshake_turn_answers, Hb by done. by rewrite <- app_assoc.
Qed.

(** The whole server is a write cache on the wire. With no fault armed, on
    a healthy host and a disk under the cache's cap, the bytes sent for a
    sequence of requests are the encoded answers of the cache specification
    (forced-unit-access writes flushing), and the image ends up holding what
    the specification calls durable. *)
Lemma wire_serves_cache sh c rs fuel :
  policy sh = no_faults -> refines (state sh) c -> Forall req_ok rs ->
  Forall (fun r => r_command r <> CMD_DISC) rs -> (length rs < fuel)%nat ->
  exists w', transmission fuel (Conn (mjoin (encode_request <$> rs)) [] None [] sh) = Some (w', Ok ()) /\
    outp w' = encode_replies (cache_answers c rs).2 /\
    content (file (state (disk w'))) = c_durable (cache_answers c rs).1.
Proof.
  intros Hp Hr Hok Hnd Hfuel.
  destruct (answers_refine sh c rs Hp Hr Hok) as [(_ & Hdur & _) E].
  replace fuel with (length rs + S (fuel - length rs - 1))%nat by lia.
  rewrite <- (app_nil_r (mjoin (encode_request <$> rs))).
  rewrite transmission_answers by done. rewrite E.
  eexists. by split_and!.
Qed.

(** ** What an acknowledged write is worth *)

Lemma write_loop_file offset end_ data d ss : file (write_loop offset end_ data d ss).1 = file d.
Proof.
  revert d. induction ss as [|s ss IH]; intros d; cbn [write_loop]; [done|].
  unfold write_sector. destruct (match overlay d !! s with Some _ => _ | None => _ end); [|done]. by rewrite IH.
Qed.

(** A write touches the image, if at all, by the flush at the overlay's cap. *)
Lemma disk_write_durable d offset data d' i :
  disk_ok d -> 0 <= offset -> disk_write d offset data = (d', Ok ()) ->
  durable d' i = durable d i \/ durable d' i = visible d' i.
Proof.
  intros Hd H0. unfold disk_write. destruct data as [|b data]; [intros [= <-]; by left|].
  set (bs := b :: data). unfold checked_add. destruct (_ <=? _); [|done].
  destruct (size d <? _); [done|].
  assert (0 < zlen bs) by (unfold bs, zlen; simpl; lia).
  destruct (write_loop_ok offset (offset + zlen bs) bs (sectors offset (offset + zlen bs)) d)
    as [Hl _]; [done|lia..|done|].
  pose proof (write_loop_file offset (offset + zlen bs) bs d (sectors offset (offset + zlen bs))) as Hf.
  destruct (write_loop _ _ _ _ _) as [d1 [[]|]]; simpl in Hl, Hf; [|done]. destruct (_ <? _); intros E.
  - right. destruct (disk_flush_sound d1 d' Hl E) as (_ & _ & _ & _ & Hvd). destruct (Hvd i) as [-> ->]. done.
  - left. injection E as <-. unfold durable. by rewrite Hf.
Qed.

(** Byte [b] is not among those a request writes. *)
Definition leaves_alone (b : nat) (q : request) : Prop :=
  r_command q = CMD_WRITE -> ~ (r_offset q <= Z.of_nat b < r_offset q + zlen (r_payload q)).

(** A request that could lose data was answered without error. *)
Definition acknowledged (q : request) (error : Z) : Prop :=
  r_command q = CMD_WRITE \/ r_command q = CMD_FLUSH -> error = 0.

Lemma consult_state sh c offset len : state (consult sh c offset len).1.1 = state sh.
Proof. unfold consult. by repeat case_match. Qed.

Lemma answer_keeps sh q b :
  disk_ok (state sh) -> req_ok q -> leaves_alone b q -> acknowledged q (answer sh q).2.1 ->
  let d := state sh in let d' := state (answer sh q).1 in
  disk_ok d' /\ visible d' b = visible d b /\ (durable d' b = durable d b \/ durable d' b = visible d b).
Proof.
  intros Hd [_ _ _ [Ho _] _ _] Hb Hack. unfold leaves_alone, acknowledged, answer in *.
  destruct (Z.eqb_spec (r_command q) CMD_READ) as [Hc|_].
  { pose proof (consult_state sh (r_command q) (r_offset q) (r_length q)) as Hst.
    destruct (consult _ _ _ _) as [[sh' faulted] ?]. cbn [fst] in Hst. rewrite <- Hst in *.
    destruct faulted; [auto|]. destruct (disk_read _ _ _); auto. }
  destruct (Z.eqb_spec (r_command q) CMD_WRITE) as [Hc|_].
  { pose proof (consult_state sh (r_command q) (r_offset q) (r_length q)) as Hst.
    destruct (consult _ _ _ _) as [[sh' faulted] ?]. cbn [fst] in Hst. rewrite <- Hst in *.
    destruct faulted; [by specialize (Hack (or_introl Hc))|]. unfold lift_state, write_fua in *.
    destruct (disk_write (state sh') (r_offset q) (r_payload q)) as [d1 res] eqn:E.
    pose proof (disk_write_ok (state sh') (r_offset q) (r_payload q) Hd Ho) as [Hd1 _]. rewrite E in Hd1. cbn [fst] in Hd1.
    destruct res as [[]|k]; cbn [is_ok andb fst state errno snd] in *; [|by specialize (Hack (or_introl Hc))].
    pose proof (disk_write_sound _ _ _ _ Hd Ho E b) as Hv. rewrite decide_False in Hv by auto.
    pose proof (disk_write_durable _ _ _ _ b Hd Ho E) as Hdur.
    destruct (negb _); cbn [fst state]; [|by rewrite Hv in *; auto].
    destruct (disk_flush d1) as [d2 [[]|k]] eqn:E2; [|by specialize (Hack (or_introl Hc))]. cbn [fst state].
    destruct (disk_flush_sound d1 d2 Hd1 E2) as (Hd2 & _ & _ & _ & Hvd). destruct (Hvd b) as [-> ->].
    rewrite Hv. auto. }
  destruct (Z.eqb_spec (r_command q) CMD_FLUSH) as [Hc|_]; [|auto].
  pose proof (consult_state sh (r_command q) (r_offset q) (r_length q)) as Hst.
  destruct (consult _ _ _ _) as [[sh' faulted] ?]. cbn [fst] in Hst. rewrite <- Hst in *.
  destruct faulted; [by specialize (Hack (or_intror Hc))|]. unfold lift_state in *.
  destruct (disk_flush (state sh')) as [d2 [[]|k]] eqn:E2; [|by specialize (Hack (or_intror Hc))]. cbn [fst state].
  destruct (disk_flush_sound _ d2 Hd E2) as (Hd2 & _ & _ & _ & Hvd). destruct (Hvd b) as [-> ->]. auto.
Qed.

Lemma answers_keep rs sh b :
  disk_ok (state sh) -> Forall req_ok rs -> Forall (leaves_alone b) rs ->
  Forall2 (fun q a => acknowledged q a.1.1) rs (answers sh rs).2 ->
  let d := state sh in let d' := state (answers sh rs).1 in
  visible d' b = visible d b /\ (durable d' b = durable d b \/ durable d' b = visible d b).
Proof.
  revert sh. induction rs as [|q rs IH]; intros sh Hd Hok Ha Hack; [by auto|]. cbn [answers] in *.
  apply Forall_cons in Hok as [Hq Hok]. apply Forall_cons in Ha as [Hb Ha].
  pose proof (answer_keeps sh q b Hd Hq Hb) as Hk.
  destruct (answer sh q) as [sh1 [error data]]. specialize (IH sh1).
  destruct (answers sh1 rs) as [sh2 out]. cbn [fst snd] in *.
  apply Forall2_cons in Hack as [Hack1 Hack]. destruct (Hk Hack1) as (Hd1 & Hv & Hdur).
  destruct (IH Hd1 Hok Ha Hack) as [Hv2 Hdur2]. rewrite Hv in *. split; [done|]. destruct Hdur2 as [->| ->]; auto.
Qed.

(** Right after the answer. *)
Lemma write_answered sh r j :
  disk_ok (state sh) -> req_ok r -> r_command r = CMD_WRITE -> (answer sh r).2.1 = 0 ->
  (j < length (r_payload r))%nat ->
  let d' := state (answer sh r).1 in
  disk_ok d' /\ visible d' (Z.to_nat (r_offset r) + j)%nat = r_payload r !! j /\
  (Z.land (r_flags r) CMD_FLAG_FUA <> 0 -> durable d' (Z.to_nat (r_offset r) + j)%nat = r_payload r !! j).
Proof.
  intros Hd [_ _ _ [Ho _] _ _] Hc Herr Hj. unfold answer in *. rewrite Hc in *. cbn [Z.eqb] in *.
  pose proof (consult_state sh CMD_WRITE (r_offset r) (r_length r)) as Hst.
  destruct (consult sh CMD_WRITE _ _) as [[sh' faulted] ?]. cbn [fst] in Hst.
  change (CMD_WRITE =? CMD_READ) with false in *. change (CMD_WRITE =? CMD_WRITE) with true in *.
  cbv beta iota in *. destruct faulted; [done|].
  unfold lift_state, write_fua in *. rewrite Hst in *.
  destruct (disk_write (state sh) (r_offset r) (r_payload r)) as [d1 res] eqn:E.
  pose proof (disk_write_ok (state sh) (r_offset r) (r_payload r) Hd Ho) as [Hd1 _].
  rewrite E in Hd1. cbn [fst] in Hd1.
  destruct res as [[]|k]; [|done]. cbn [is_ok andb] in *.
  pose proof (disk_write_sound _ _ _ _ Hd Ho E (Z.to_nat (r_offset r) + j)) as Hv.
  rewrite decide_True in Hv by (unfold zlen; lia).
  replace (Z.to_nat (Z.of_nat (Z.to_nat (r_offset r) + j) - r_offset r)) with j in Hv by lia.
  destruct (Z.eqb_spec (Z.land (r_flags r) CMD_FLAG_FUA) 0) as [Hz|Hz]; cbn [negb] in *; [by split_and!|].
  destruct (disk_flush d1) as [d2 [[]|k]] eqn:E2; [|done]. cbn [fst state].
  destruct (disk_flush_sound d1 d2 Hd1 E2) as (Hd2 & _ & _ & _ & Hvd).
  destruct (Hvd (Z.to_nat (r_offset r) + j)%nat) as [Hv2 Hdu]. split_and!; [done|by rewrite Hv2|]. intros _. by rewrite Hdu.
Qed.

(** C17: an acknowledgement is kept as long as no later one is refused. On any
    disk, of any size, with any fault policy and a host whose writes may fail
    or be cut short at any point: after a write that was answered without error
    come any requests, of which those that write or flush were answered without
    error too and none writes the byte again. Then the guest reads the byte
    back as written, and when the write asked for forced unit access a power
    cut leaves it so. (A flush that fails loses what it held.) *)
Theorem acknowledged_write_kept sh r j later :
  disk_ok (state sh) -> req_ok r -> r_command r = CMD_WRITE -> (answer sh r).2.1 = 0 ->
  (j < length (r_payload r))%nat ->
  let sh1 := (answer sh r).1 in
  let b := (Z.to_nat (r_offset r) + j)%nat in
  Forall req_ok later -> Forall (leaves_alone b) later ->
  Forall2 (fun q a => acknowledged q a.1.1) later (answers sh1 later).2 ->
  let d' := state (answers sh1 later).1 in
  visible d' b = r_payload r !! j /\
  (Z.land (r_flags r) CMD_FLAG_FUA <> 0 -> visible (power_cut d') b = r_payload r !! j).
Proof.
  intros Hd Hr Hc Herr Hj sh1 b Hok Ha Hack d'.
  destruct (write_answered sh r j Hd Hr Hc Herr Hj) as (Hd1 & Hv & Hfua).
  destruct (answers_keep later sh1 b Hd1 Hok Ha Hack) as [Hv2 Hdur].
  fold sh1 b in Hv, Hfua. split; [by unfold d'; rewrite Hv2|]. intros Hf%Hfua.
  unfold visible, power_cut; simpl. rewrite lookup_empty. change (durable d' b = r_payload r !! j).
  unfold d'. destruct Hdur as [->| ->]; done.
Qed.

(** * Witnesses *)

(** A disk armed to fail every read, and a client that writes, reads, sends an
    unknown command and flushes. *)
Definition demo_shared : shared := Shared demo_disk (FaultPolicy true false None None None) 0.

Definition demo_write : request := Request 1 CMD_WRITE 11 510 4 (str "abcd").

Definition demo_requests : list request :=
  [demo_write; Request 0 CMD_READ 12 508 8 []; Request 0 9 13 0 0 []; Request 0 CMD_FLUSH 14 0 0 []].

Lemma demo_requests_ok :
  Forall req_ok demo_requests /\ Forall (fun r => r_command r <> CMD_DISC) demo_requests.
Proof. split; repeat constructor; done. Qed.

Example demo_replies :
  (answers demo_shared demo_requests).2 = [(0, 11, []); (5, 12, []); (22, 13, []); (0, 14, [])].
Proof. by vm_compute. Qed.

Lemma transmission_in_sync_witness :
  exists w', transmission 5 (Conn (mjoin (encode_request <$> demo_requests) ++ []) [] None [] demo_shared)
    = Some (w', Ok ()) /\ outp w' = encode_replies (answers demo_shared demo_requests).2.
Proof.
  destruct (transmission_in_sync demo_shared demo_requests [] [] 5) as (w' & H1 & _ & H2 & _);
    [apply demo_exact|apply demo_requests_ok|apply demo_requests_ok|by left|simpl; lia|].
  exists w'. exact (conj H1 H2).
Defined.

Lemma serve_terminates_witness :
  is_Some (serve 4 (Conn (be_bytes 3 7) [] None [] demo_shared)).
Proof. apply (serve_terminates (Conn (be_bytes 3 7) [] None [] demo_shared) 4); simpl; lia. Defined.

(** A structured-reply request (option 8) refused, then [GO]. *)
Lemma handshake_outcome_witness :
  handshake 2 1024
    (Conn (be_bytes 4 3 ++ mjoin (encode_option <$> [ClientOption 8 []]) ++
           encode_option (ClientOption OPT_GO (be_bytes 6 0)) ++ be_bytes 2 9) [] None [] demo_shared) =
  Some (Conn (be_bytes 2 9)
    (hello ++ option_reply 8 REP_ERR_UNSUP [] ++
     option_reply 7 REP_INFO (export_info 1024) ++ option_reply 7 REP_ACK []) None [] demo_shared, Ok true).
Proof.
  apply (handshake_outcome 1024 3 [ClientOption 8 []] (ClientOption OPT_GO (be_bytes 6 0)) true
    (be_bytes 2 9) [] demo_shared 2); try done; repeat constructor; done.
Defined.

Lemma wire_serves_cache_witness :
  exists w', transmission 5
      (Conn (mjoin (encode_request <$> demo_requests)) [] None [] (Shared demo_disk no_faults 0))
    = Some (w', Ok ()) /\
    outp w' = encode_replies (cache_answers (fresh_cache demo_disk) demo_requests).2.
Proof.
  destruct (wire_serves_cache (Shared demo_disk no_faults 0) (fresh_cache demo_disk) demo_requests 5)
    as (w' & H1 & H2 & _); [done|apply refines_fresh; [apply demo_exact|done]|
      apply demo_requests_ok|apply demo_requests_ok|simpl; lia|].
  exists w'. exact (conj H1 H2).
Defined.

(** What comes after the write: reads that are made to fail, another write and a
    flush. *)
Definition demo_later : list request :=
  [Request 0 CMD_READ 12 508 8 []; Request 0 CMD_WRITE 15 514 2 (str "xy"); Request 0 CMD_FLUSH 14 0 0 []].

Lemma acknowledged_write_kept_witness :
  visible (power_cut (state (answers (answer demo_shared demo_write).1 demo_later).1)) 512 = Some "c"%byte.
Proof.
  apply (acknowledged_write_kept demo_shared demo_write 2 demo_later);
    [apply demo_exact|by repeat constructor|done|by vm_compute|simpl; lia| | | |done].
  - repeat constructor; done.
  - repeat constructor; unfold leaves_alone; vm_compute; lia || done || intuition congruence.
  - vm_compute. repeat constructor; intros [|]; done.
Defined.
