(* ===== verification/Cpio.v ===== *)
(** The per-boot files of [src/provium-host/src/vmm/files_cpio.rs]: path
    validation, the newc archive and its gzip wrapper, with the reference
    readers that take them apart again. *)
From Stdlib Require Import Sorted.
From S2P Require Import Prelude.

(** * Paths as byte strings (valid UTF-8, so [to_string_lossy] is the identity) *)

Definition SLASH : byte := "/"%byte.
Definition DOT : byte := "."%byte.

(** [str::split]: the pieces between separators, empty ones included. *)
Fixpoint split_on (sep : byte) (s : bytes) : list bytes :=
  match s with
  | [] => [[]]
  | b :: s' =>
      if bool_decide (b = sep) then [] :: split_on sep s'
      else match split_on sep s' with
           | [] => [[b]]
           | p :: ps => (b :: p) :: ps
           end
  end.

(** [rel.split('/').filter(|c| !c.is_empty())]. *)
Definition pieces (s : bytes) : list bytes :=
  filter (fun c => c <> []) (split_on SLASH s).

Inductive component := RootDir | CurDir | ParentDir | Normal (c : bytes).

(** [Path::components] on Unix: repeated slashes and interior [.] vanish, a
    leading [.] of a relative path is kept. *)
Definition components (p : bytes) : list component :=
  let has_root := bool_decide (head p = Some SLASH) in
  let leading_dot := bool_decide (head (split_on SLASH p) = Some [DOT]) in
  (if has_root then [RootDir] else if leading_dot then [CurDir] else []) ++
  omap (fun c => if bool_decide (c = [DOT]) then None
                 else if bool_decide (c = [DOT; DOT]) then Some ParentDir
                 else Some (Normal c)) (pieces p).

Record injected_file := InjectedFile { guest_path : bytes; fcontent : bytes; fmode : Z }.

Inductive path_error := MayNotContainDots (p : bytes) | NamesNoFile (p : bytes).

Fixpoint check_components (p : bytes) (seen_normal : bool) (cs : list component)
  : result () path_error :=
  match cs with
  | [] => if seen_normal then Ok () else Err (NamesNoFile p)
  | RootDir :: cs' => check_components p seen_normal cs'
  | Normal _ :: cs' => check_components p true cs'
  | CurDir :: _ | ParentDir :: _ => Err (MayNotContainDots p)
  end.

Fixpoint validate (files : list injected_file) : result () path_error :=
  match files with
  | [] => Ok ()
  | f :: files' =>
      let? _ := check_components (guest_path f) false (components (guest_path f)) in
      validate files'
  end.

(** [trim_start_matches('/')]. *)
Fixpoint relative (p : bytes) : bytes :=
  match p with
  | b :: p' => if bool_decide (b = SLASH) then relative p' else p
  | [] => []
  end.

(** * The archive *)

Definition DIR_MODE : Z := 493 (* 0o755 *).
Definition S_IFREG : Z := 0x8000 (* 0o100000 *).
Definition S_IFDIR : Z := 0x4000 (* 0o040000 *).
Definition DEFAULT_FILE_MODE : Z := 420 (* 0o644 *).

Definition hex_digit (d : Z) : byte := byte_of_Z (if d <? 10 then 48 + d else 87 + d).

(** [format!("{field:08x}")] of a [u32]. *)
Definition hex8 (field : Z) : bytes :=
  (fun i => hex_digit ((field / 16 ^ (7 - Z.of_nat i)) mod 16)) <$> seq 0 8.

(** [while out.len() % 4 != 0 { out.push(0) }]; three turns at most. *)
Fixpoint pad_loop (fuel : nat) (out : bytes) : bytes :=
  match fuel with
  | O => out
  | S fuel' => if zlen out mod 4 =? 0 then out else pad_loop fuel' (out ++ [x00])
  end.

Definition pad4 (out : bytes) : bytes := pad_loop 3 out.

Definition header (ino mode filesize namesize : Z) : bytes :=
  str "070701" ++
  mjoin (hex8 <$> [ino; mode; 0; 0; 1; 0; filesize; 0; 0; 0; 0; namesize; 0]).

Definition push_entry (out : bytes) (ino mode : Z) (name data : bytes) : bytes :=
  let namesize := wrap u32_max (wrap u32_max (zlen name) + 1) in
  let filesize := wrap u32_max (zlen data) in
  pad4 (pad4 (out ++ header ino mode filesize namesize ++ name ++ [x00]) ++ data).

(** ** The set of directories, a [BTreeSet<String>]: strings in byte order *)

Fixpoint bytes_cmp (a b : bytes) : comparison :=
  match a, b with
  | [], [] => Eq
  | [], _ => Lt
  | _, [] => Gt
  | x :: a', y :: b' =>
      match byte_to_Z x ?= byte_to_Z y with Eq => bytes_cmp a' b' | c => c end
  end.

Fixpoint set_insert (x : bytes) (l : list bytes) : list bytes :=
  match l with
  | [] => [x]
  | y :: l' =>
      match bytes_cmp x y with
      | Lt => x :: l
      | Eq => l
      | Gt => y :: set_insert x l'
      end
  end.

Definition set_remove (x : bytes) (l : list bytes) : list bytes := filter (fun y => y <> x) l.

(** The loop over one path's components: the accumulated prefix and the set. *)
Definition add_component (st : bytes * list bytes) (comp : bytes) : bytes * list bytes :=
  let acc := (if bool_decide (st.1 = []) then [] else st.1 ++ [SLASH]) ++ comp in
  (acc, set_insert acc st.2).

Definition add_ancestors (dirs : list bytes) (f : injected_file) : list bytes :=
  let '(acc, dirs') := foldl add_component ([], dirs) (pieces (relative (guest_path f))) in
  set_remove acc dirs'.

Definition directories (files : list injected_file) : list bytes := foldl add_ancestors [] files.

Definition push_dir (st : bytes * Z) (d : bytes) : bytes * Z :=
  (push_entry st.1 st.2 (Z.lor S_IFDIR DIR_MODE) d [], wrap u32_max (st.2 + 1)).

Definition push_file (st : bytes * Z) (f : injected_file) : bytes * Z :=
  (push_entry st.1 st.2 (Z.lor S_IFREG (Z.land (fmode f) 0xfff)) (relative (guest_path f)) (fcontent f),
   wrap u32_max (st.2 + 1)).

Definition build (files : list injected_file) : bytes :=
  let st := foldl push_dir ([], 1) (directories files) in
  let st := foldl push_file st files in
  push_entry st.1 0 0 (str "TRAILER!!!") [].

(** * The gzip wrapper *)

Definition crc_step (crc : Z) : Z :=
  Z.lxor (Z.shiftr crc 1) (Z.land 0xedb88320 (wrap u32_max (0 - Z.land crc 1))).

Definition crc_byte (crc : Z) (b : byte) : Z := Nat.iter 8 crc_step (Z.lxor crc (byte_to_Z b)).

Definition crc32 (data : bytes) : Z := Z.lxor u32_max (foldl crc_byte u32_max data).

(** [slice::chunks]; every turn takes [S n] bytes, so the length is enough fuel. *)
Fixpoint chunks (fuel n : nat) (data : bytes) : list bytes :=
  match fuel, data with
  | S fuel', _ :: _ => take (S n) data :: chunks fuel' n (drop (S n) data)
  | _, _ => []
  end.

Definition stored_block (last : bool) (chunk : bytes) : bytes :=
  (if last then x01 else x00) ::
  le_bytes 2 (zlen chunk) ++ le_bytes 2 (Z.lxor u16_max (zlen chunk)) ++ chunk.

Fixpoint stored_blocks (cs : list bytes) : bytes :=
  match cs with
  | [] => []
  | [c] => stored_block true c
  | c :: cs' => stored_block false c ++ stored_blocks cs'
  end.

Definition gzip_header : bytes := [x1f; x8b; x08; x00; x00; x00; x00; x00; x00; xff].

Definition gzip_stored (data : bytes) : bytes :=
  let cs := chunks (length data) (Z.to_nat 65534) data in
  gzip_header ++
  (match cs with [] => [x01; x00; x00; xff; xff] | _ => [] end) ++ stored_blocks cs ++
  le_bytes 4 (crc32 data) ++ le_bytes 4 (wrap u32_max (zlen data)).

Definition build_segment (files : list injected_file) : bytes := gzip_stored (build files).

Example crc32_check : crc32 (str "123456789") = 0xcbf43926.
Proof. by vm_compute. Qed.

(** * Reference readers *)

Definition hex_value (b : byte) : option Z :=
  let z := byte_to_Z b in
  if (48 <=? z) && (z <=? 57) then Some (z - 48)
  else if (97 <=? z) && (z <=? 102) then Some (z - 87)
  else None.

Fixpoint read_hex (acc : Z) (bs : bytes) : option Z :=
  match bs with
  | [] => Some acc
  | b :: bs' => d ← hex_value b; read_hex (16 * acc + d) bs'
  end.

(** Bytes to the next multiple of four. *)
Definition padding (n : nat) : nat := Z.to_nat ((- Z.of_nat n) mod 4).

Record entry := Entry { e_name : bytes; e_mode : Z; e_data : bytes }.

(** One entry off the front of an archive, which starts at a multiple of four. *)
Definition read_entry (bs : bytes) : option (entry * bytes) :=
  if bool_decide (take 6 bs = str "070701") then
    mode ← read_hex 0 (take 8 (drop 14 bs));
    filesize ← read_hex 0 (take 8 (drop 54 bs));
    namesize ← read_hex 0 (take 8 (drop 94 bs));
    let name_end := (110 + Z.to_nat namesize)%nat in
    let data_start := (name_end + padding name_end)%nat in
    let data_end := (data_start + Z.to_nat filesize)%nat in
    let next := (data_end + padding data_end)%nat in
    if (next <=? length bs)%nat && bool_decide (bs !! (name_end - 1)%nat = Some x00)
    then Some (Entry (take (Z.to_nat namesize - 1) (drop 110 bs)) mode
                 (take (Z.to_nat filesize) (drop data_start bs)), drop next bs)
    else None
  else None.

(** Entries up to the trailer, which must end the archive. *)
Fixpoint read_archive (fuel : nat) (bs : bytes) : option (list entry) :=
  match fuel with
  | O => None
  | S fuel' =>
      '(e, rest) ← read_entry bs;
      if bool_decide (e_name e = str "TRAILER!!!") then
        if bool_decide (rest = []) then Some [] else None
      else (e ::.) <$> read_archive fuel' rest
  end.

(** A gzip member of stored blocks, checked as [gzip -d] checks it. *)
Fixpoint read_blocks (fuel : nat) (bs : bytes) : option (bytes * bytes) :=
  match fuel, bs with
  | S fuel', kind :: bs' =>
      let len := of_le_bytes (take 2 bs') in
      if (length bs' <? 4 + Z.to_nat len)%nat then None
      else if negb (of_le_bytes (take 2 (drop 2 bs')) =? 65535 - len) then None
      else
        let chunk := take (Z.to_nat len) (drop 4 bs') in
        let rest := drop (4 + Z.to_nat len) bs' in
        if bool_decide (kind = x01) then Some (chunk, rest)
        else if bool_decide (kind = x00) then
          '(more, rest') ← read_blocks fuel' rest; Some (chunk ++ more, rest')
        else None
  | _, _ => None
  end.

Definition gunzip (bs : bytes) : option bytes :=
  if bool_decide (take 10 bs = gzip_header) then
    '(data, trailer) ← read_blocks (length bs) (drop 10 bs);
    if bool_decide (trailer = le_bytes 4 (crc32 data) ++ le_bytes 4 (zlen data mod 2 ^ 32))
    then Some data else None
  else None.

(** ** Lemmas: padding and hexadecimal *)

Lemma pad4_spec out : pad4 out = out ++ replicate (padding (length out)) x00.
Proof.
  unfold pad4, padding.
  assert (Hc : exists r, (0 <= r < 4)%Z /\ (zlen out mod 4 = r)%Z /\
    ((- Z.of_nat (length out)) mod 4 = (- r) mod 4)%Z).
  { exists (zlen out mod 4). unfold zlen. split_and!; try (Z.to_euclidean_division_equations; lia). }
  destruct Hc as (r & Hr & Hm & Hn). rewrite Hn.
  assert (Hs : forall k, zlen (out ++ replicate k x00) mod 4 = (r + Z.of_nat k) mod 4).
  { intros k. rewrite zlen_app. unfold zlen at 2. rewrite length_replicate, Zplus_mod, Hm.
    rewrite (Zplus_mod r (Z.of_nat k)), (Z.mod_small r 4) by lia. done. }
  pose proof (Hs 1%nat) as H1. pose proof (Hs 2%nat) as H2.
  cbn [replicate] in H1, H2. cbn [pad_loop]. rewrite Hm, <- !app_assoc. cbn [app]. rewrite H1, H2.
  assert (Hcases : r = 0 \/ r = 1 \/ r = 2 \/ r = 3) by lia.
  destruct Hcases as [-> | [-> | [-> | -> ] ] ]; simpl; by rewrite ?app_nil_r.
Qed.

Lemma padding_add n m : (4 | Z.of_nat n) -> padding (n + m) = padding m.
Proof. intros [k Hk]. unfold padding. f_equal. Z.to_euclidean_division_equations; lia. Qed.

Lemma padding_aligned n : (4 | Z.of_nat (n + padding n)).
Proof.
  unfold padding. apply Z.mod_divide; [lia|]. Z.to_euclidean_division_equations; lia.
Qed.

Lemma hex_value_digit d : 0 <= d < 16 -> hex_value (hex_digit d) = Some d.
Proof.
  intros Hd. unfold hex_value, hex_digit. rewrite byte_to_of_Z.
  rewrite Z.mod_small by (destruct (d <? 10); lia). cbv zeta.
  destruct (Z.ltb_spec d 10); repeat (case_match; simplify_eq; try lia); try (f_equal; lia).
  all: rewrite ?andb_true_iff, ?andb_false_iff, ?Z.leb_le, ?Z.leb_gt in *; lia.
Qed.

Lemma read_hex_app acc a b : read_hex acc (a ++ b) = acc' ← read_hex acc a; read_hex acc' b.
Proof. revert acc. induction a as [|x a IH]; intros acc; [done|]. simpl. destruct (hex_value x); simpl; [apply IH|done]. Qed.

Lemma read_hex_digits acc ds :
  Forall (fun d => 0 <= d < 16) ds ->
  read_hex acc (hex_digit <$> ds) = Some (foldl (fun a d => 16 * a + d) acc ds).
Proof.
  intros Hds. revert acc. induction Hds as [|d ds Hd Hds IH]; intros acc; [done|].
  simpl. rewrite hex_value_digit by done. simpl. apply IH.
Qed.

Lemma read_hex8 z : 0 <= z <= u32_max -> read_hex 0 (hex8 z) = Some z.
Proof.
  intros Hz. unfold hex8.
  change (fun i => hex_digit ((z / 16 ^ (7 - Z.of_nat i)) mod 16))
    with (hex_digit ∘ (fun i => (z / 16 ^ (7 - Z.of_nat i)) mod 16)).
  rewrite list_fmap_compose, read_hex_digits.
  - simpl. f_equal. unfold u32_max in Hz. cbn. Z.to_euclidean_division_equations; lia.
  - apply Forall_fmap, Forall_forall. intros i _. simpl. apply Z.mod_pos_bound. lia.
Qed.

Lemma length_hex8 z : length (hex8 z) = 8%nat.
Proof. done. Qed.

Lemma field_at l rest k z :
  l !! k = Some z -> take 8 (drop (8 * k) (mjoin (hex8 <$> l) ++ rest)) = hex8 z.
Proof.
  revert k. induction l as [|x l IH]; intros k Hk; [done|].
  change (mjoin (hex8 <$> x :: l)) with (hex8 x ++ mjoin (hex8 <$> l)). rewrite <- app_assoc.
  destruct k as [|k]; simpl in Hk; [simplify_eq; by apply take_app_length'|].
  replace (8 * S k)%nat with (length (hex8 x) + 8 * k)%nat by (rewrite length_hex8; lia).
  rewrite <- drop_drop, drop_app_length. by apply IH.
Qed.

Lemma length_fields l : length (mjoin (hex8 <$> l)) = (8 * length l)%nat.
Proof.
  induction l as [|x l IH]; [done|].
  change (mjoin (hex8 <$> x :: l)) with (hex8 x ++ mjoin (hex8 <$> l)).
  rewrite length_app, IH, length_hex8. simpl. lia.
Qed.

(** ** One entry *)

(** The bytes of an entry that starts at a multiple of four. *)
Definition entry_bytes (ino : Z) (e : entry) : bytes :=
  let h := header ino (e_mode e) (zlen (e_data e)) (zlen (e_name e) + 1) ++ e_name e ++ [x00] in
  let h' := h ++ replicate (padding (length h)) x00 ++ e_data e in
  h' ++ replicate (padding (length h')) x00.

Definition entry_ok (e : entry) : Prop :=
  0 <= e_mode e <= u32_max /\ zlen (e_name e) < u32_max /\ zlen (e_data e) <= u32_max.

Lemma length_header ino mode fs ns : length (header ino mode fs ns) = 110%nat.
Proof. done. Qed.

Lemma push_entry_spec out ino e :
  (4 | zlen out) -> entry_ok e ->
  push_entry out ino (e_mode e) (e_name e) (e_data e) = out ++ entry_bytes ino e /\
  (4 | zlen (out ++ entry_bytes ino e)).
Proof.
  intros Ho (Hm & Hn & Hd). unfold push_entry, entry_bytes.
  pose proof (zlen_nonneg (e_name e)). pose proof (zlen_nonneg (e_data e)).
  rewrite !(wrap_small u32_max) by (rewrite ?wrap_small; unfold in_width; lia).
  set (h := header _ _ _ _ ++ e_name e ++ [x00]).
  assert (E1 : pad4 (out ++ h) = out ++ h ++ replicate (padding (length h)) x00).
  { rewrite pad4_spec, <- app_assoc, length_app, padding_add by done. done. }
  rewrite E1, <- !app_assoc.
  set (h' := h ++ replicate (padding (length h)) x00 ++ e_data e).
  assert (E2 : pad4 (out ++ h') = out ++ h' ++ replicate (padding (length h')) x00).
  { rewrite pad4_spec, <- app_assoc, length_app, padding_add by done. done. }
  split.
  - rewrite E2. subst h'. by rewrite <- !app_assoc.
  - rewrite zlen_app. apply Z.divide_add_r; [done|]. unfold zlen.
    assert (Hl : length (h ++ replicate (padding (length h)) x00 ++ e_data e ++
        replicate (padding (length h')) x00) = (length h' + padding (length h'))%nat).
    { subst h'. rewrite !length_app, !length_replicate. lia. }
    rewrite Hl. apply padding_aligned.
Qed.

Lemma read_entry_bytes ino e rest :
  entry_ok e -> read_entry (entry_bytes ino e ++ rest) = Some (e, rest).
Proof.
  intros (Hm & Hn & Hd). destruct e as [name mode data]. unfold entry_bytes. cbn [e_name e_mode e_data] in *.
  pose proof (zlen_nonneg name). pose proof (zlen_nonneg data).
  set (fs := [ino; mode; 0; 0; 1; 0; zlen data; 0; 0; 0; 0; zlen name + 1; 0]).
  set (h := header _ _ _ _ ++ name ++ [x00]).
  set (h' := h ++ replicate (padding (length h)) x00 ++ data).
  set (bs := (h' ++ replicate (padding (length h')) x00) ++ rest).
  assert (Hh : length h = (110 + (length name + 1))%nat) by
    (subst h; rewrite !length_app, length_header; simpl; lia).
  assert (Hh' : length h' = (length h + padding (length h) + length data)%nat) by
    (subst h'; rewrite !length_app, length_replicate; lia).
  assert (Ebs : exists tl, bs = str "070701" ++ mjoin (hex8 <$> fs) ++ tl).
  { eexists. unfold bs, h', h, header. fold fs. rewrite <- !app_assoc. reflexivity. }
  assert (Hfield : forall k z, fs !! k = Some z -> 0 <= z <= u32_max ->
    read_hex 0 (take 8 (drop (6 + 8 * k) bs)) = Some z).
  { intros k z Hk Hz. destruct Ebs as [tl ->]. rewrite <- drop_drop.
    rewrite (drop_app_length' _ _ 6) by done. rewrite (field_at _ _ _ z) by done. by apply read_hex8. }
  unfold read_entry. fold bs.
  rewrite bool_decide_true by (destruct Ebs as [tl ->]; by apply take_app_length').
  assert (F1 : read_hex 0 (take 8 (drop 14 bs)) = Some mode) by (by apply (Hfield 1%nat)).
  assert (F2 : read_hex 0 (take 8 (drop 54 bs)) = Some (zlen data)) by (by apply (Hfield 6%nat)).
  assert (F3 : read_hex 0 (take 8 (drop 94 bs)) = Some (zlen name + 1))
    by (apply (Hfield 11%nat); [done|lia]).
  rewrite F1; cbn [mbind option_bind]; rewrite F2; cbn [mbind option_bind];
    rewrite F3; cbn [mbind option_bind]; cbv zeta.
  replace (110 + Z.to_nat (zlen name + 1))%nat with (length h) by (unfold zlen in *; lia).
  replace (Z.to_nat (zlen data)) with (length data) by (unfold zlen; lia).
  rewrite <- Hh'.
  assert (Hlen : length bs = (length h' + padding (length h') + length rest)%nat)
    by (subst bs; rewrite !length_app, length_replicate; lia).
  destruct (Nat.leb_spec (length h' + padding (length h')) (length bs)); [|lia]. cbn [andb].
  assert (Hcut : forall n, (n <= 110)%nat -> drop n bs = drop n h ++ replicate (padding (length h)) x00 ++
    data ++ replicate (padding (length h')) x00 ++ rest).
  { intros n Hle. unfold bs, h'. rewrite <- !app_assoc, drop_app_le by lia. done. }
  rewrite bool_decide_true.
  2:{ unfold bs, h'. rewrite <- !app_assoc, lookup_app_l by lia. unfold h at 2.
      rewrite lookup_app_r by (rewrite length_header; lia).
      rewrite lookup_app_r by (rewrite length_header; lia).
      rewrite length_header. replace (length h - 1 - 110 - length name)%nat with 0%nat by lia. done. }
  do 3 f_equal.
  - rewrite Hcut by lia. unfold h. rewrite (drop_app_length' (header _ _ _ _)) by (by rewrite length_header).
    rewrite <- app_assoc. apply take_app_length'. unfold zlen. lia.
  - assert (E : bs = (h ++ replicate (padding (length h)) x00) ++ data ++
      replicate (padding (length h')) x00 ++ rest) by (unfold bs, h'; by rewrite <- !app_assoc).
    rewrite E, (drop_app_length' (h ++ _)) by (rewrite length_app, length_replicate; lia).
    by apply take_app_length'.
  - unfold bs. apply drop_app_length'. rewrite length_app, length_replicate. lia.
Qed.

(** ** The whole archive *)

Definition trailer : entry := Entry (str "TRAILER!!!") 0 [].

Fixpoint archive_bytes (ino : Z) (es : list entry) : bytes :=
  match es with
  | [] => entry_bytes 0 trailer
  | e :: es' => entry_bytes ino e ++ archive_bytes (wrap u32_max (ino + 1)) es'
  end.

Lemma read_archive_bytes ino es fuel :
  Forall entry_ok es -> Forall (fun e => e_name e <> str "TRAILER!!!") es -> (length es < fuel)%nat ->
  read_archive fuel (archive_bytes ino es) = Some es.
Proof.
  intros Hok Hn. revert ino fuel. induction es as [|e es IH]; intros ino [|fuel] Hf;
    try (simpl in Hf; lia).
  - cbn [archive_bytes read_archive]. rewrite <- (app_nil_r (entry_bytes 0 trailer)).
    rewrite read_entry_bytes by done. done.
  - apply Forall_cons in Hok as [He Hok], Hn as [Hne Hn].
    cbn [archive_bytes read_archive]. rewrite read_entry_bytes by done. cbn [mbind option_bind].
    rewrite bool_decide_false by done. rewrite IH by (done || simpl in Hf; lia). done.
Qed.

Definition dir_entry (d : bytes) : entry := Entry d (Z.lor S_IFDIR DIR_MODE) [].
Definition file_entry (f : injected_file) : entry :=
  Entry (relative (guest_path f)) (Z.lor S_IFREG (Z.land (fmode f) 0xfff)) (fcontent f).

Definition entries (files : list injected_file) : list entry :=
  (dir_entry <$> directories files) ++ (file_entry <$> files).

(** The loops of [build], as one pass over the entries. *)
Definition push (st : bytes * Z) (e : entry) : bytes * Z :=
  (push_entry st.1 st.2 (e_mode e) (e_name e) (e_data e), wrap u32_max (st.2 + 1)).

Lemma build_push files :
  build files =
    let st := foldl push ([], 1) (entries files) in push_entry st.1 0 0 (str "TRAILER!!!") [].
Proof.
  unfold build, entries. rewrite foldl_app.
  assert (E1 : forall st l, foldl push st (dir_entry <$> l) = foldl push_dir st l)
    by (intros st l; revert st; induction l as [|x l IH]; intros st; [done|]; apply IH).
  assert (E2 : forall st l, foldl push st (file_entry <$> l) = foldl push_file st l)
    by (intros st l; revert st; induction l as [|x l IH]; intros st; [done|]; apply IH).
  by rewrite E1, E2.
Qed.

Lemma push_archive es out ino :
  (4 | zlen out) -> Forall entry_ok es ->
  push_entry (foldl push (out, ino) es).1 0 0 (str "TRAILER!!!") [] = out ++ archive_bytes ino es.
Proof.
  intros Ho Hok. revert out ino Ho. induction Hok as [|e es He Hok IH]; intros out ino Ho.
  - by apply (push_entry_spec out 0 trailer).
  - cbn [foldl archive_bytes]. destruct (push_entry_spec out ino e Ho He) as [E Ha].
    unfold push at 2. cbn [fst snd]. rewrite E. rewrite IH by done. by rewrite app_assoc.
Qed.

Lemma build_archive files :
  Forall entry_ok (entries files) -> build files = archive_bytes 1 (entries files).
Proof.
  intros Hok. rewrite build_push. apply (push_archive _ [] 1); [apply Z.divide_0_r|done].
Qed.

(** ** The gzip wrapper *)

Lemma lxor_u16 x : 0 <= x <= u16_max -> Z.lxor u16_max x = 65535 - x.
Proof.
  intros Hx. enough (x + Z.lxor u16_max x = u16_max) by (unfold u16_max in *; lia).
  rewrite Z.add_nocarry_lxor.
  - rewrite (Z.lxor_comm u16_max), <- Z.lxor_assoc, Z.lxor_nilpotent. apply Z.lxor_0_l.
  - apply Z.bits_inj'. intros n Hn. rewrite Z.land_spec, Z.lxor_spec, Z.bits_0.
    change u16_max with (Z.ones 16). destruct (Z.lt_ge_cases n 16).
    + rewrite Z.ones_spec_low by lia. by destruct (Z.testbit x n).
    + rewrite Z.ones_spec_high by lia.
      destruct (decide (x = 0)) as [->|]; [by rewrite Z.bits_0|].
      rewrite Z.bits_above_log2; [done|lia|].
      apply Z.log2_lt_pow2; [lia|]. apply Z.lt_le_trans with (2 ^ 16); [unfold u16_max in Hx; lia|].
      apply Z.pow_le_mono_r; lia.
Qed.

Lemma chunks_spec fuel n data :
  (length data <= fuel)%nat ->
  mjoin (chunks fuel n data) = data /\ Forall (fun c => (length c <= S n)%nat) (chunks fuel n data) /\
  (length (chunks fuel n data) <= length data)%nat.
Proof.
  revert data. induction fuel as [|fuel IH]; intros [|b data] Hf; try (simpl in Hf; lia); try done.
  cbn [chunks]. destruct (IH (drop (S n) (b :: data))) as (H1 & H2 & H3);
    [rewrite length_drop; simpl in *; lia|].
  split_and!.
  - change (mjoin (?c :: ?cs)) with (c ++ mjoin cs). rewrite H1. apply take_drop.
  - constructor; [rewrite length_take; lia|done].
  - rewrite length_drop in H3. cbn [length] in *. lia.
Qed.

Lemma read_block_head fuel last chunk rest :
  zlen chunk <= u16_max ->
  read_blocks (S fuel) (stored_block last chunk ++ rest) =
    if last then Some (chunk, rest)
    else '(more, rest') ← read_blocks fuel rest; Some (chunk ++ more, rest').
Proof.
  intros Hc. unfold stored_block. cbn [app read_blocks].
  set (a := le_bytes 2 (zlen chunk)). set (b := le_bytes 2 (Z.lxor u16_max (zlen chunk))).
  assert (Ha : length a = 2%nat) by apply length_le_bytes.
  assert (Hb : length b = 2%nat) by apply length_le_bytes.
  assert (Hz : 0 <= zlen chunk <= u16_max) by (pose proof (zlen_nonneg chunk); lia).
  rewrite <- !app_assoc.
  assert (E1 : of_le_bytes (take 2 (a ++ b ++ chunk ++ rest)) = zlen chunk).
  { rewrite take_app_length' by done. apply of_le_bytes_le_small. unfold u16_max in Hz. simpl. lia. }
  assert (E2 : of_le_bytes (take 2 (drop 2 (a ++ b ++ chunk ++ rest))) = 65535 - zlen chunk).
  { rewrite drop_app_length', take_app_length' by done. unfold b. rewrite lxor_u16 by done.
    apply of_le_bytes_le_small. unfold u16_max in Hz. simpl. lia. }
  assert (E3 : drop 4 (a ++ b ++ chunk ++ rest) = chunk ++ rest).
  { rewrite app_assoc. apply drop_app_length'. rewrite length_app. lia. }
  rewrite E1, E2, Z.eqb_refl. cbn [negb].
  replace (Z.to_nat (zlen chunk)) with (length chunk) by (unfold zlen; lia).
  rewrite <- drop_drop, E3, take_app_length, drop_app_length.
  rewrite !length_app. destruct (Nat.ltb_spec (length a + (length b + (length chunk + length rest)))
    (4 + length chunk)); [lia|]. by destruct last.
Qed.

Lemma length_stored_block last c : length (stored_block last c) = (5 + length c)%nat.
Proof. unfold stored_block. cbn [length]. by rewrite !length_app, !length_le_bytes. Qed.

Lemma read_stored_blocks cs rest fuel :
  cs <> [] -> Forall (fun c => zlen c <= u16_max) cs -> (length cs <= fuel)%nat ->
  read_blocks fuel (stored_blocks cs ++ rest) = Some (mjoin cs, rest).
Proof.
  intros Hne Hall. revert fuel. induction Hall as [|c cs Hc Hall IH]; intros fuel Hf; [done|].
  destruct fuel as [|fuel]; [simpl in Hf; lia|]. destruct cs as [|c' cs].
  - cbn [stored_blocks]. rewrite read_block_head by done. simpl. by rewrite app_nil_r.
  - change (stored_blocks (c :: c' :: cs)) with (stored_block false c ++ stored_blocks (c' :: cs)).
    rewrite <- app_assoc, read_block_head by done. rewrite IH by (done || simpl in *; lia). done.
Qed.

Lemma gunzip_stored data : gunzip (gzip_stored data) = Some data.
Proof.
  unfold gunzip, gzip_stored.
  destruct (chunks_spec (length data) (Z.to_nat 65534) data) as (Hj & Hall & Hlen); [done|].
  assert (Hall' : Forall (fun c => zlen c <= u16_max) (chunks (length data) (Z.to_nat 65534) data)).
  { eapply Forall_impl; [exact Hall|]. intros c Hc. cbv beta in Hc |- *. unfold zlen, u16_max. lia. }
  clear Hall. set (cs := chunks _ _ _) in *.
  set (tl := le_bytes 4 (crc32 data) ++ le_bytes 4 (wrap u32_max (zlen data))).
  rewrite bool_decide_true by (by apply take_app_length').
  rewrite (drop_app_length' gzip_header) by done.
  set (fuel := length _).
  assert (Hb : (length (mjoin cs) <= length (stored_blocks cs))%nat).
  { clear. induction cs as [|c cs IH]; [done|].
    change (mjoin (c :: cs)) with (c ++ mjoin cs). rewrite length_app.
    destruct cs as [|c' cs]; [cbn [stored_blocks]; rewrite length_stored_block; change (mjoin []) with (@nil byte); cbn [length]; lia|].
    change (stored_blocks (c :: c' :: cs)) with (stored_block false c ++ stored_blocks (c' :: cs)).
    rewrite length_app, length_stored_block. lia. }
  assert (Hf : (length data < fuel)%nat).
  { subst fuel. rewrite Hj in Hb. rewrite !length_app. change (length gzip_header) with 10%nat. lia. }
  destruct cs as [|c cs'] eqn:E.
  - simpl in Hj. subst data. clear -Hf. destruct fuel; [lia|]. by vm_compute.
  - cbn [app]. rewrite read_stored_blocks by (done || lia). cbn [mbind option_bind].
    rewrite Hj. by rewrite bool_decide_true.
Qed.

(** * Directories *)

(** A path from its components, as the loop of [build] accumulates it. *)
Definition join_step (acc c : bytes) : bytes := (if bool_decide (acc = []) then [] else acc ++ [SLASH]) ++ c.
Definition join_path (cs : list bytes) : bytes := foldl join_step [] cs.

Definition plain (c : bytes) : Prop := c <> [] /\ SLASH ∉ c.

Lemma join_path_snoc cs c : join_path (cs ++ [c]) = join_step (join_path cs) c.
Proof. unfold join_path. by rewrite foldl_app. Qed.

Lemma split_on_sep sep a b : split_on sep (a ++ sep :: b) = split_on sep a ++ split_on sep b.
Proof.
  induction a as [|x a IH]; simpl; [by rewrite bool_decide_true|].
  rewrite IH. case_bool_decide; [done|].
  destruct (split_on sep a) eqn:E; [|done]. destruct a; simpl in E; repeat case_match; done.
Qed.

Lemma split_on_plain sep a : sep ∉ a -> split_on sep a = [a].
Proof.
  induction a as [|x a IH]; intros Hn; [done|]. simpl.
  rewrite bool_decide_false by (intros ->; apply Hn; by left).
  rewrite IH; [done|]. intros Hin. apply Hn. by right.
Qed.

Lemma pieces_plain s : Forall plain (pieces s).
Proof.
  apply Forall_forall. intros c [Hne Hin]%list_elem_of_filter. split; [done|]. clear Hne.
  revert c Hin. induction s as [|b s IH]; simpl; intros c Hin.
  - apply list_elem_of_singleton in Hin as ->. apply not_elem_of_nil.
  - case_bool_decide as Hb.
    + apply elem_of_cons in Hin as [->|Hin]; [apply not_elem_of_nil|by apply IH].
    + destruct (split_on SLASH s) as [|p ps].
      * apply list_elem_of_singleton in Hin as ->. by intros <-%list_elem_of_singleton.
      * apply elem_of_cons in Hin as [->|Hin]; [|apply IH; by right].
        intros [E|Hin]%elem_of_cons; [congruence|]. eapply IH; [|exact Hin]. by left.
Qed.

Lemma join_path_nil cs : Forall plain cs -> join_path cs = [] <-> cs = [].
Proof.
  intros Hp. split; [|by intros ->]. destruct cs as [|c cs _] using rev_ind; [done|].
  apply Forall_app in Hp as [_ Hc]. apply Forall_singleton in Hc as [Hne _].
  rewrite join_path_snoc. unfold join_step. intros H. apply app_eq_nil in H as [_ ?]. done.
Qed.

Lemma pieces_join cs : Forall plain cs -> pieces (join_path cs) = cs.
Proof.
  induction cs as [|c cs IH] using rev_ind; intros Hp; [done|].
  apply Forall_app in Hp as [Hp Hc]. apply Forall_singleton in Hc as [Hne Hs].
  rewrite join_path_snoc. unfold join_step.
  assert (Hone : filter (fun c => c <> []) (split_on SLASH c) = [c]).
  { rewrite split_on_plain by done. rewrite filter_cons_True by done. done. }
  case_bool_decide as Hn.
  - apply join_path_nil in Hn as ->; [|done]. exact Hone.
  - specialize (IH Hp). unfold pieces in *. rewrite <- app_assoc. cbn [app].
    by rewrite split_on_sep, filter_app, IH, Hone.
Qed.

Lemma join_path_inj a b : Forall plain a -> Forall plain b -> join_path a = join_path b -> a = b.
Proof. intros Ha Hb E. by rewrite <- (pieces_join a), <- (pieces_join b), E. Qed.

(** The proper ancestors of a path. *)
Definition ancestor (d : bytes) (p : bytes) : Prop :=
  exists k, (1 <= k < length (pieces p))%nat /\ d = join_path (take k (pieces p)).

Definition file_path (f : injected_file) : list bytes := pieces (relative (guest_path f)).

(** No file is a directory above another. *)
Definition conflict_free (files : list injected_file) : Prop :=
  forall f g, f ∈ files -> g ∈ files -> ~ ancestor (join_path (file_path f)) (relative (guest_path g)).

(** ** Byte order *)

Lemma bytes_cmp_refl a : bytes_cmp a a = Eq.
Proof. induction a; simpl; [done|]. by rewrite Z.compare_refl. Qed.

Lemma bytes_cmp_eq a b : bytes_cmp a b = Eq -> a = b.
Proof.
  revert b. induction a as [|x a IH]; intros [|y b]; simpl; try done.
  destruct (Z.compare_spec (byte_to_Z x) (byte_to_Z y)) as [E|E|E]; try done.
  intros H%IH. subst. f_equal. by apply byte_to_Z_inj.
Qed.

Lemma bytes_cmp_antisym a b : bytes_cmp b a = CompOpp (bytes_cmp a b).
Proof.
  revert b. induction a as [|x a IH]; intros [|y b]; simpl; try done.
  rewrite (Z.compare_antisym (byte_to_Z x) (byte_to_Z y)).
  by destruct (byte_to_Z x ?= byte_to_Z y); simpl.
Qed.

Lemma bytes_cmp_trans a b c : bytes_cmp a b = Lt -> bytes_cmp b c = Lt -> bytes_cmp a c = Lt.
Proof.
  revert b c. induction a as [|x a IH]; intros [|y b] [|z c]; simpl; try done.
  destruct (Z.compare_spec (byte_to_Z x) (byte_to_Z y)) as [E|E|E];
    destruct (Z.compare_spec (byte_to_Z y) (byte_to_Z z)) as [F|F|F]; try done; intros H1 H2;
    destruct (Z.compare_spec (byte_to_Z x) (byte_to_Z z)); try lia; try done. by eapply IH.
Qed.

Definition bytes_lt (a b : bytes) : Prop := bytes_cmp a b = Lt.

#[export] Instance bytes_lt_trans : Transitive bytes_lt.
Proof. intros a b c. apply bytes_cmp_trans. Qed.

Lemma bytes_lt_prefix a b : b <> [] -> bytes_lt a (a ++ b).
Proof.
  intros Hb. unfold bytes_lt. induction a as [|x a IH]; simpl; [by destruct b|].
  by rewrite Z.compare_refl.
Qed.

Lemma elem_of_set_insert x y l : y ∈ set_insert x l <-> y = x \/ y ∈ l.
Proof.
  induction l as [|z l IH]; cbn [set_insert]; [rewrite list_elem_of_singleton, elem_of_nil; tauto|].
  destruct (bytes_cmp x z) eqn:E; rewrite !elem_of_cons; [|tauto|rewrite IH; tauto].
  apply bytes_cmp_eq in E as ->. tauto.
Qed.

Lemma set_insert_sorted x l : StronglySorted bytes_lt l -> StronglySorted bytes_lt (set_insert x l).
Proof.
  induction 1 as [|z l Hs IH Hall]; cbn [set_insert]; [repeat constructor|].
  destruct (bytes_cmp x z) eqn:E.
  - by constructor.
  - constructor; [by constructor|]. constructor; [done|].
    eapply Forall_impl; [exact Hall|]. intros y Hy. by transitivity z.
  - constructor; [done|]. apply Forall_forall. intros y [->|Hy]%elem_of_set_insert.
    + unfold bytes_lt. by rewrite bytes_cmp_antisym, E.
    + by eapply Forall_forall in Hall.
Qed.

(** In a sorted list a smaller element comes earlier. *)
Lemma sorted_position l i x y :
  StronglySorted bytes_lt l -> l !! i = Some y -> x ∈ l -> bytes_lt x y ->
  exists j, (j < i)%nat /\ l !! j = Some x.
Proof.
  intros Hs. revert i. induction Hs as [|z l Hs IH Hall]; intros i Hi Hx Hlt; [done|].
  assert (Hirr : ~ bytes_lt y y) by (unfold bytes_lt; by rewrite bytes_cmp_refl).
  destruct i as [|i]; simpl in Hi.
  - simplify_eq. apply elem_of_cons in Hx as [->|Hx]; [done|].
    eapply Forall_forall in Hall; [|exact Hx]. exfalso. apply Hirr. by transitivity x.
  - apply elem_of_cons in Hx as [->|Hx]; [exists 0%nat; split; [lia|done]|].
    destruct (IH i Hi Hx Hlt) as (j & Hj & Hl). exists (S j). split; [lia|done].
Qed.

(** ** What [build] emits as directories *)

Lemma add_components_fold cs acc dirs :
  foldl add_component (acc, dirs) cs =
    (foldl join_step acc cs,
     foldl (fun ds k => set_insert (foldl join_step acc (take k cs)) ds) dirs (seq 1 (length cs))).
Proof.
  revert acc dirs. induction cs as [|c cs IH] using rev_ind; intros acc dirs; [done|].
  rewrite foldl_app, IH. cbn [foldl]. unfold add_component at 1. cbn [fst snd].
  rewrite foldl_app, length_app, seq_app, foldl_app. cbn [length seq foldl].
  rewrite (take_ge (cs ++ [c])) by (rewrite length_app; simpl; lia). rewrite foldl_app.
  f_equal. f_equal. clear IH. rewrite <- (take_app_length cs [c]) at 1.
  assert (Hgen : forall l ds, (forall k, k ∈ l -> (k <= length cs)%nat) ->
    foldl (fun ds k => set_insert (foldl join_step acc (take k cs)) ds) ds l =
    foldl (fun ds k => set_insert (foldl join_step acc (take k (cs ++ [c]))) ds) ds l).
  { induction l as [|k l IHl]; intros ds Hl; [done|]. cbn [foldl].
    rewrite take_app_le by (apply Hl; by left). apply IHl. intros; apply Hl; by right. }
  rewrite take_app_length. apply Hgen. intros k Hk%elem_of_seq. lia.
Qed.

Lemma elem_of_inserts (g : nat -> bytes) l dirs d :
  d ∈ foldl (fun ds k => set_insert (g k) ds) dirs l <-> d ∈ dirs \/ exists k, k ∈ l /\ d = g k.
Proof.
  revert dirs. induction l as [|k l IH]; intros dirs; cbn [foldl].
  - split; [by left|]. by intros [?|(k & ?%elem_of_nil & _)].
  - rewrite IH, elem_of_set_insert. split.
    + intros [[->|?]|(j & ? & ->)]; [|by left|]; right; eexists; (split; [|done]); [by left|by right].
    + intros [?|(j & [->|?]%elem_of_cons & ->)]; [left; by right|left; by left|right; by exists j].
Qed.

Lemma inserts_sorted (g : nat -> bytes) l dirs :
  StronglySorted bytes_lt dirs ->
  StronglySorted bytes_lt (foldl (fun ds k => set_insert (g k) ds) dirs l).
Proof. revert dirs. induction l; intros dirs Hs; simpl; [done|]. auto using set_insert_sorted. Qed.

Lemma directories_sorted files : StronglySorted bytes_lt (directories files).
Proof.
  unfold directories. induction files as [|f files IH] using rev_ind; [constructor|].
  rewrite foldl_app. cbn [foldl]. unfold add_ancestors at 1. rewrite add_components_fold.
  by apply sorted_filter, inserts_sorted.
Qed.

Lemma directories_sound files d :
  d ∈ directories files -> exists f, f ∈ files /\ ancestor d (relative (guest_path f)).
Proof.
  unfold directories. induction files as [|f files IH] using rev_ind; [by intros ?%elem_of_nil|].
  rewrite foldl_app. cbn [foldl]. unfold add_ancestors at 1. rewrite add_components_fold.
  fold (file_path f). set (ps := file_path f).
  intros [Hne Hin]%list_elem_of_filter.
  apply elem_of_inserts in Hin as [(g & Hg & Ha)%IH|(k & Hk%elem_of_seq & ->)].
  - exists g. split; [apply elem_of_app; by left|done].
  - exists f. split; [apply elem_of_app; right; by left|]. exists k. fold (file_path f). fold ps.
    split; [|done]. split; [lia|]. destruct (decide (k = length ps)) as [->|]; [|lia].
    exfalso. apply Hne. by rewrite take_ge.
Qed.

Lemma directories_complete files f d :
  conflict_free files -> f ∈ files -> ancestor d (relative (guest_path f)) -> d ∈ directories files.
Proof.
  unfold directories. induction files as [|f' files IH] using rev_ind; intros Hc Hf Ha;
    [by apply elem_of_nil in Hf|].
  assert (Hc' : conflict_free files) by (intros g h Hg Hh; apply Hc; apply elem_of_app; by left).
  rewrite foldl_app. cbn [foldl]. unfold add_ancestors at 1. rewrite add_components_fold.
  fold (file_path f'). apply list_elem_of_filter. split.
  - intros ->. apply (Hc f' f); [apply elem_of_app; right; by left|done|done].
  - apply elem_of_inserts. apply elem_of_app in Hf as [Hf|Hf%list_elem_of_singleton];
      [left; by apply IH|subst f'].
    right. destruct Ha as (k & Hk & ->). exists k.
    split; [apply elem_of_seq; unfold file_path; lia|done].
Qed.

Lemma join_prefix cs k :
  Forall plain cs -> (1 <= k < length cs)%nat -> bytes_lt (join_path (take k cs)) (join_path cs).
Proof.
  intros Hp Hk. rewrite <- (take_drop k cs) at 2. unfold join_path. rewrite foldl_app.
  assert (Hpk : Forall plain (drop k cs)) by by apply Forall_drop.
  assert (Hne : foldl join_step [] (take k cs) <> []).
  { intros H. apply join_path_nil in H; [|by apply Forall_take].
    apply (f_equal length) in H. rewrite length_take in H. simpl in H. lia. }
  assert (Hd : drop k cs <> []) by (intros H; apply (f_equal length) in H; rewrite length_drop in H; simpl in H; lia).
  generalize dependent (foldl join_step [] (take k cs)). intros acc Hne.
  enough (Hgen : exists t, t <> [] /\ foldl join_step acc (drop k cs) = acc ++ t).
  { destruct Hgen as (t & Ht & ->). by apply bytes_lt_prefix. }
  clear Hk. revert Hpk Hd. generalize (drop k cs). clear cs Hp k.
  intros l. induction l as [|c l IH] using rev_ind; intros Hpl Hne'; [done|].
  apply Forall_app in Hpl as [Hpl Hc]. apply Forall_singleton in Hc as [Hcne _].
  rewrite foldl_app. cbn [foldl]. destruct l as [|c' l'].
  - exists (SLASH :: c). split; [done|]. unfold join_step. simpl. rewrite bool_decide_false by done.
    by rewrite <- app_assoc.
  - destruct IH as (t & Ht & E); [done|done|]. rewrite E. unfold join_step.
    rewrite bool_decide_false by (intros []%app_eq_nil; done).
    exists (t ++ SLASH :: c). split; [by destruct t|]. by rewrite <- !app_assoc.
Qed.

(** ** Sizes *)

Definition weight (cs : list bytes) : nat := sum_list_with (fun c => S (length c)) cs.

Lemma weight_split s : weight (split_on SLASH s) = S (length s).
Proof.
  unfold weight. induction s as [|b s IH]; [done|]. cbn [split_on].
  case_bool_decide; [simpl; by rewrite IH|].
  destruct (split_on SLASH s) as [|p ps]; simpl in *; lia.
Qed.

Lemma weight_filter (P : bytes -> Prop) `{!forall x, Decision (P x)} cs :
  (weight (filter P cs) <= weight cs)%nat.
Proof.
  unfold weight. induction cs as [|c cs IH]; [done|]. rewrite filter_cons. case_decide; simpl; lia.
Qed.

Lemma weight_take k cs : (weight (take k cs) <= weight cs)%nat.
Proof.
  unfold weight. rewrite <- (take_drop k cs) at 2. rewrite sum_list_with_app. lia.
Qed.

Lemma length_join cs : Forall plain cs -> cs <> [] -> S (length (join_path cs)) = weight cs.
Proof.
  induction cs as [|c cs IH] using rev_ind; intros Hp Hne; [done|].
  apply Forall_app in Hp as [Hp _]. rewrite join_path_snoc. unfold join_step, weight.
  rewrite sum_list_with_app. case_bool_decide as Hn; simpl.
  - apply join_path_nil in Hn as ->; [|done]. simpl. lia.
  - rewrite !length_app. unfold weight in IH.
    rewrite <- IH; [simpl; lia|done|intros ->; by apply Hn].
Qed.

Lemma length_ancestor d p : ancestor d p -> (length d <= length p)%nat.
Proof.
  intros (k & Hk & ->). pose proof (pieces_plain p) as Hp.
  pose proof (length_join (take k (pieces p)) ltac:(by apply Forall_take)) as Hj.
  pose proof (weight_take k (pieces p)). pose proof (weight_filter (fun c => c <> []) (split_on SLASH p)).
  rewrite weight_split in *. fold (pieces p) in *.
  assert (take k (pieces p) <> []) by
    (intros H1; apply (f_equal length) in H1; rewrite length_take in H1; simpl in H1; lia).
  specialize (Hj H1). lia.
Qed.

Lemma length_relative p : (length (relative p) <= length p)%nat.
Proof. induction p as [|b p IH]; simpl; [lia|]. case_bool_decide; simpl; lia. Qed.

(** A file the formats can carry: sizes within 32 bits, and not below a
    directory called like the trailer. *)
Definition file_ok (f : injected_file) : Prop :=
  zlen (guest_path f) < u32_max /\ zlen (fcontent f) <= u32_max /\ in_width u32_max (fmode f) /\
  head (file_path f) <> Some (str "TRAILER!!!").

Lemma land_width a : in_width u32_max (Z.lor S_IFREG (Z.land a 0xfff)).
Proof.
  assert (0 <= Z.land a 0xfff) by (apply Z.land_nonneg; right; lia).
  assert (Hb : Z.land a 0xfff < 2 ^ 12) by (change 0xfff with (Z.ones 12); rewrite Z.land_ones by lia;
    apply Z.mod_pos_bound; lia).
  split; [apply Z.lor_nonneg; split; [done|lia]|].
  enough (Z.lor S_IFREG (Z.land a 0xfff) < 2 ^ 16) by (unfold u32_max; lia).
  destruct (decide (Z.land a 0xfff = 0)) as [->|]; [done|].
  apply Z.log2_lt_cancel. rewrite Z.log2_lor by (done || lia).
  assert (Z.log2 (Z.land a 0xfff) < 12) by (apply Z.log2_lt_pow2; lia).
  change (Z.log2 S_IFREG) with 15. change (Z.log2 (2 ^ 16)) with 16. lia.
Qed.

Lemma entries_ok files :
  Forall file_ok files ->
  Forall entry_ok (entries files) /\ Forall (fun e => e_name e <> str "TRAILER!!!") (entries files).
Proof.
  intros Hok. rewrite Forall_forall in Hok. unfold entries.
  split; apply Forall_app; split; apply Forall_fmap, Forall_forall.
  - intros d (f & Hf & Ha)%directories_sound. destruct (Hok f Hf) as (Hn & _).
    apply length_ancestor in Ha. pose proof (length_relative (guest_path f)).
    repeat split; simpl; try done; unfold zlen in *; lia.
  - intros f Hf. destruct (Hok f Hf) as (Hn & Hc & Hm & _). pose proof (length_relative (guest_path f)).
    split_and!; cbn [e_mode e_name e_data file_entry]; try apply land_width; unfold zlen in *; lia.
  - intros d (f & Hf & (k & Hk & ->))%directories_sound. destruct (Hok f Hf) as (_ & _ & _ & Ht).
    cbn [compose e_name dir_entry]. intros E. apply (f_equal pieces) in E.
    rewrite pieces_join in E by apply Forall_take, pieces_plain.
    change (pieces (str "TRAILER!!!")) with [str "TRAILER!!!"] in E. apply Ht. unfold file_path.
    destruct (pieces (relative (guest_path f))), k; simpl in *; try lia; congruence.
  - intros f Hf. destruct (Hok f Hf) as (_ & _ & _ & Ht). cbn [compose e_name file_entry].
    intros E. apply Ht. unfold file_path. by rewrite E.
Qed.

(** ** Validation *)

Lemma pieces_relative p : pieces (relative p) = pieces p.
Proof.
  induction p as [|b p IH]; [done|]. simpl. case_bool_decide as Hb; [|done].
  rewrite IH. unfold pieces. simpl. by rewrite bool_decide_true.
Qed.

Lemma check_components_ok p seen cs :
  check_components p seen cs = Ok () ->
  (ParentDir ∉ cs) /\ (seen = true \/ exists c, Normal c ∈ cs).
Proof.
  revert seen. induction cs as [|c cs IH]; intros seen; simpl.
  - intros H. split; [apply not_elem_of_nil|]. destruct seen; [by left|done].
  - destruct c as [| | |c]; try done; intros [Hp Hs]%IH; (split; [by intros [?|?]%elem_of_cons|]).
    + destruct Hs as [?|[c Hc]]; [by left|]. right. exists c. by right.
    + right. exists c. by left.
Qed.

(** * Properties *)


(** The unpacker never meets an entry whose parent is missing: every
    proper ancestor of every entry, file or directory, is a directory entry
    emitted before it, as long as no file is also a directory of another. *)
Lemma parents_first files i e k :
  conflict_free files -> entries files !! i = Some e -> (1 <= k < length (pieces (e_name e)))%nat ->
  exists j, (j < i)%nat /\ entries files !! j = Some (dir_entry (join_path (take k (pieces (e_name e))))).
Proof.
  intros Hc Hi Hk. unfold entries in *. apply lookup_app_Some in Hi as [Hi|[Hge Hi]].
  - apply list_lookup_fmap_Some in Hi as (d & -> & Hd). cbn [e_name dir_entry] in *.
    assert (Hin : d ∈ directories files) by (by eapply list_elem_of_lookup_2).
    destruct (directories_sound files d Hin) as (f & Hf & (k' & Hk' & ->)).
    pose proof (pieces_plain (relative (guest_path f))) as Hp.
    rewrite pieces_join in * by (by apply Forall_take).
    destruct (sorted_position (directories files) i
      (join_path (take k (take k' (pieces (relative (guest_path f))))))
      (join_path (take k' (pieces (relative (guest_path f)))))) as (j & Hj & Hl).
    + apply directories_sorted.
    + done.
    + eapply directories_complete; [done|done|]. exists (k `min` k')%nat.
      rewrite length_take in Hk. split; [lia|]. by rewrite take_take.
    + apply join_prefix; [by apply Forall_take|done].
    + exists j. split; [done|]. rewrite lookup_app_l.
      * by rewrite list_lookup_fmap, Hl.
      * rewrite length_fmap. by eapply lookup_lt_Some.
  - apply list_lookup_fmap_Some in Hi as (f & -> & Hf). cbn [e_name file_entry] in *.
    assert (Hin : join_path (take k (pieces (relative (guest_path f)))) ∈ directories files).
    { eapply directories_complete; [done|by eapply list_elem_of_lookup_2|]. by exists k. }
    apply list_elem_of_lookup in Hin as [j Hj]. exists j.
    assert (j < length (directories files))%nat by (by eapply lookup_lt_Some).
    rewrite length_fmap in Hge. split; [lia|].
    rewrite lookup_app_l by (by rewrite length_fmap). by rewrite list_lookup_fmap, Hj.
Qed.

(** A validated path stays inside the guest's root: it names a file, and
    none of its components climbs with [..]. *)
Lemma validate_confines files f :
  validate files = Ok () -> f ∈ files ->
  ~ ([DOT; DOT] ∈ file_path f) /\ file_path f <> [].
Proof.
  induction files as [|g files IH]; simpl; [by intros _ ?%elem_of_nil|].
  destruct (check_components _ _ _) as [[]|] eqn:E; [|done].
  intros Hv [->|Hf]%elem_of_cons; [|by apply IH]. clear IH Hv.
  apply check_components_ok in E as [Hp Hs]. unfold file_path. rewrite pieces_relative.
  unfold components in *. split.
  - intros Hin. apply Hp, elem_of_app. right. apply list_elem_of_omap.
    exists [DOT; DOT]. by split.
  - intros E. destruct Hs as [?|[c [Hc|Hc]%elem_of_app]]; [done| |].
    + do 2 (case_bool_decide; [apply list_elem_of_singleton in Hc; done|]). by apply elem_of_nil in Hc.
    + rewrite E in Hc. by apply elem_of_nil in Hc.
Qed.

(** * Witnesses *)

Lemma validate_confines_witness :
  ~ [DOT; DOT] ∈ file_path (InjectedFile (str "/etc/b") (str "x") 420).
Proof.
  apply (validate_confines [InjectedFile (str "/etc/b") (str "x") 420]); [done|by left].
Defined.

Definition demo_files : list injected_file :=
  [InjectedFile (str "/usr/lib/a.sh") (str "#!/bin/sh") 493; InjectedFile (str "etc/b") (str "x") 420].

Lemma demo_files_ok : Forall file_ok demo_files.
Proof. repeat constructor; done. Qed.


Lemma parents_first_witness :
  exists j, (j < 3)%nat /\ entries demo_files !! j = Some (dir_entry (str "usr/lib")).
Proof.
  apply (parents_first demo_files 3 (Entry (str "usr/lib/a.sh") 33261 (str "#!/bin/sh")) 2);
    [|done|vm_compute; lia].
  intros f g Hf Hg. unfold demo_files in Hf, Hg.
  repeat match goal with H : _ ∈ _ :: _ |- _ => apply elem_of_cons in H as [->|H] end;
    try (by apply elem_of_nil in Hf); try (by apply elem_of_nil in Hg);
    intros (k & Hk & E); vm_compute in Hk; do 4 (destruct k as [|k]; [vm_compute in E; (done || lia)|]); lia.
Defined.

(** Interior [.] components pass validation, since [Path::components] drops
    them, and reach the archive. *)
Example validate_passes_dot :
  let f := InjectedFile (str "/etc/./b") (str "x") 420 in
  validate [f] = Ok () /\ e_name <$> entries [f] = [str "etc"; str "etc/."; str "etc/./b"].
Proof. by vm_compute. Qed.

(** A file called like the trailer ends the archive for its reader. *)
Example trailer_name_ends_archive :
  let f := InjectedFile (str "/TRAILER!!!") (str "x") 420 in
  validate [f] = Ok () /\ read_archive 9 (build [f]) = None.
Proof. by vm_compute. Qed.
