(* ===== verification/Shell.v ===== *)
(** The printed command line of [src/provium-host/src/console.rs]
    ([render_command]) and the POSIX word splitting it has to survive. *)
From S2P Require Import Prelude.

Definition QUOTE : byte := "'"%byte.
Definition BACKSLASH : byte := "\"%byte.
Definition SPACE : byte := " "%byte.

Definition between (lo hi : Z) (b : byte) : bool := (lo <=? byte_to_Z b) && (byte_to_Z b <=? hi).

Definition is_ascii_alphanumeric (b : byte) : bool :=
  between 48 57 b || between 65 90 b || between 97 122 b.

(** The bytes an argument may hold and still be printed bare. *)
Definition bare (b : byte) : bool :=
  is_ascii_alphanumeric b || bool_decide (b ∈ str "_@%+=:,./-").

(** [s.replace('\'', "'\\''")]. *)
Fixpoint escape_quotes (s : bytes) : bytes :=
  match s with
  | [] => []
  | b :: s' => (if bool_decide (b = QUOTE) then [QUOTE; BACKSLASH; QUOTE; QUOTE] else [b]) ++ escape_quotes s'
  end.

Definition render_arg (s : bytes) : bytes :=
  if negb (bool_decide (s = [])) && forallb bare s then s
  else [QUOTE] ++ escape_quotes s ++ [QUOTE].

(** [join(" ")]. *)
Fixpoint join_words (ws : list bytes) : bytes :=
  match ws with
  | [] => []
  | [w] => w
  | w :: ws' => w ++ [SPACE] ++ join_words ws'
  end.

(** The program, then its arguments. *)
Definition render_command (program : bytes) (args : list bytes) : bytes :=
  join_words (render_arg <$> program :: args).

(** * Word splitting (POSIX shell, token recognition and quote removal)

    [cur] is the word being read, [None] between words. An unquoted byte with
    a meaning of its own (an operator, an expansion, a pattern, a comment)
    gives [None]: the line would not be these words. *)
Definition is_blank (b : byte) : bool := bool_decide (b ∈ [" "%byte; x09]).

Fixpoint words (s : bytes) (quoted : bool) (cur : option bytes) : option (list bytes) :=
  match s with
  | [] =>
      if quoted then None
      else Some (match cur with None => [] | Some w => [w] end)
  | b :: s' =>
      if quoted then
        if bool_decide (b = QUOTE) then words s' false cur
        else words s' true (Some (default [] cur ++ [b]))
      else if bool_decide (b = QUOTE) then words s' true (Some (default [] cur))
      else if bool_decide (b = BACKSLASH) then
        match s' with
        | [] => None
        | c :: s'' =>
            if bool_decide (c = x0a) then words s'' false cur
            else words s'' false (Some (default [] cur ++ [c]))
        end
      else if is_blank b then
        match cur with
        | None => words s' false None
        | Some w => (w ::.) <$> words s' false None
        end
      else if bare b then words s' false (Some (default [] cur ++ [b]))
      else None
  end.

Definition shell_words (line : bytes) : option (list bytes) := words line false None.

(** * Lemmas *)

Lemma bare_plain b : bare b = true -> b <> QUOTE /\ b <> BACKSLASH /\ is_blank b = false.
Proof. by destruct b. Qed.

Lemma words_bare s rest cur :
  forallb bare s = true -> (s = [] -> cur <> None) ->
  words (s ++ rest) false cur = words rest false (Some (default [] cur ++ s)).
Proof.
  revert cur. induction s as [|b s IH]; intros cur Hs Hne.
  - destruct cur; [|by destruct Hne]. simpl. by rewrite app_nil_r.
  - simpl in Hs. apply andb_true_iff in Hs as [Hb Hs].
    destruct (bare_plain b Hb) as (H1 & H2 & H3). cbn [app words].
    rewrite !bool_decide_false by done. rewrite H3, Hb, IH by done. simpl. by rewrite <- app_assoc.
Qed.

Lemma words_escaped s rest w :
  words (escape_quotes s ++ rest) true (Some w) = words rest true (Some (w ++ s)).
Proof.
  revert w. induction s as [|b s IH]; intros w; [simpl; by rewrite app_nil_r|].
  cbn [escape_quotes]. case_bool_decide as Hb.
  - subst b. change (words ((([QUOTE; BACKSLASH; QUOTE; QUOTE] ++ escape_quotes s) ++ rest)) true (Some w))
      with (words (escape_quotes s ++ rest) true (Some (w ++ [QUOTE]))).
    rewrite IH. by rewrite <- app_assoc.
  - cbn [app words]. rewrite bool_decide_false by done. simpl. rewrite IH. by rewrite <- app_assoc.
Qed.

(** A rendered argument is read back as one whole word. *)
Lemma words_render_arg s rest :
  words (render_arg s ++ rest) false None = words rest false (Some s).
Proof.
  unfold render_arg. destruct (negb (bool_decide (s = [])) && forallb bare s) eqn:E.
  - apply andb_true_iff in E as [Hne Hs]. rewrite words_bare; [done|done|].
    intros ->. by rewrite bool_decide_true in Hne.
  - rewrite <- !app_assoc. cbn [app words]. rewrite bool_decide_true by done. simpl.
    rewrite words_escaped. done.
Qed.

(** The printed command is the command. Whatever bytes the program and
    its arguments hold (spaces, quotes, expansions, newlines, nothing at all),
    a shell that splits the printed line gets back exactly those words. *)
Lemma render_command_round_trip program args :
  shell_words (render_command program args) = Some (program :: args).
Proof.
  unfold shell_words, render_command. generalize (program :: args) as ws.
  assert (Hgen : forall w ws, words (join_words (render_arg <$> w :: ws)) false None = Some (w :: ws)).
  { intros w ws. revert w. induction ws as [|w' ws IH]; intros w.
    - change (join_words (render_arg <$> [w])) with (render_arg w).
      rewrite <- (app_nil_r (render_arg w)), words_render_arg. done.
    - change (join_words (render_arg <$> w :: w' :: ws))
        with (render_arg w ++ [SPACE] ++ join_words (render_arg <$> w' :: ws)).
      rewrite words_render_arg. cbn [app words]. rewrite !bool_decide_false by done.
      change (is_blank SPACE) with true. cbn iota. by rewrite IH. }
  intros [|w ws]; [done|apply Hgen].
Qed.

Example rendered : render_command (str "/bin/x") [str "a b"; str "it's"; []; str "$HOME"] =
  str "/bin/x 'a b' 'it'\''s' '' '$HOME'".
Proof. by vm_compute. Qed.
