(* ===== verification/Wire.v ===== *)
(** The host/agent messages of [src/provium-protocol/src/wire]: handles,
    argument and result records, the two envelopes and their [kind] tags. *)
From stdpp Require Import pretty.
From S2P Require Import Prelude.

Definition PROTOCOL_VERSION : Z := 1.

(** * Handles: typed identifiers, a bare [u64] on the wire *)

Record file_handle := FileHandle { file_id : Z }.
Record process_handle := ProcessHandle { process_id : Z }.
Record worker_handle := WorkerHandle { worker_id : Z }.

#[export] Instance file_handle_eq_dec : EqDecision file_handle.
Proof. solve_decision. Defined.
#[export] Instance process_handle_eq_dec : EqDecision process_handle.
Proof. solve_decision. Defined.
#[export] Instance worker_handle_eq_dec : EqDecision worker_handle.
Proof. solve_decision. Defined.

#[export] Instance file_handle_countable : Countable file_handle.
Proof. apply (inj_countable' file_id FileHandle). by intros []. Defined.
#[export] Instance process_handle_countable : Countable process_handle.
Proof. apply (inj_countable' process_id ProcessHandle). by intros []. Defined.
#[export] Instance worker_handle_countable : Countable worker_handle.
Proof. apply (inj_countable' worker_id WorkerHandle). by intros []. Defined.

(** [Display]: the kind, a hash sign, the number. *)
Definition show_u64 (z : Z) : string := pretty (Z.to_N z).
Definition show_file (h : file_handle) : string := ("file#" +:+ show_u64 (file_id h))%string.
Definition show_process (h : process_handle) : string := ("proc#" +:+ show_u64 (process_id h))%string.
Definition show_worker (h : worker_handle) : string := ("worker#" +:+ show_u64 (worker_id h))%string.

(** * Errors *)

Record os_error := OsError { errno : Z; os_message : string }.

Inductive agent_error_kind := BadRequest | Unsupported | UnknownHandle | Internal.
Record agent_error := AgentError { error_kind : agent_error_kind; message : string }.

(** [OpResult<T>]. *)
Abbreviation op_result T := (result T os_error).

(** * Arguments and results *)

Record hello := Hello { protocol_version : Z }.
Record agent_info := AgentInfo {
  os_name : string; agent_version : string; kernel : option string; capabilities : list string }.
Record hello_ok := HelloOk { ok_version : Z; agent : agent_info }.
Record hello_err := HelloErr { err_host_version : Z; err_agent_version : Z }.

Inductive exit_status := Exited (code : Z) | Signalled (sig : Z) | TimedOutStatus.

(** [ExitStatus::exit_code] and [is_clean_exit]. *)
Definition exit_code (s : exit_status) : option Z :=
  match s with Exited code => Some code | _ => None end.
Definition is_clean_exit (s : exit_status) : bool := bool_decide (exit_code s = Some 0).

Record exec_args := ExecArgs {
  x_cmd : string; x_args : list string; x_env : list (string * string); x_env_clear : bool;
  x_stdin : bytes; x_cwd : option string; x_timeout_ms : option Z }.
Record exec_ok := ExecOk { status : exit_status; stdout : bytes; stderr : bytes }.
Abbreviation exec_result := (result exec_ok os_error).

Record open_mode := OpenMode {
  o_read : bool; o_write : bool; o_create : bool; o_truncate : bool; o_append : bool; o_exclusive : bool }.
Record open_file_args := OpenFileArgs { op_path : string; op_mode : open_mode; op_create_perm : option Z }.
Record read_args := ReadArgs { rd_handle : file_handle; max_bytes : Z }.
Record write_args := WriteArgs { wr_handle : file_handle; wr_data : bytes }.
Inductive write_file_mode := Replace | Append | Exclusive.
Record write_file_args := WriteFileArgs {
  wf_path : string; wf_data : bytes; wf_mode : write_file_mode; wf_create_perm : option Z }.
Inductive entry_type := TFile | TDirectory | TSymlink | TFifo | TSocket | TBlockDevice | TCharDevice | TOther.
Record dir_entry := DirEntry { d_name : string; d_type : entry_type }.
Record mkdir_args := MkdirArgs { mk_path : string; mk_parents : bool; mk_create_perm : option Z }.
Record rename_args := RenameArgs { rn_from : string; rn_to : string }.
Inductive seek_whence := SeekSet | SeekCur | SeekEnd.
Record seek_args := SeekArgs { sk_handle : file_handle; sk_offset : Z; sk_whence : seek_whence }.
Record stat_args := StatArgs { st_path : string; follow_symlinks : bool }.
Record file_metadata := FileMetadata { m_size : Z; mtime_ns : Z; m_type : entry_type; perm : Z }.

Record run_async_args := RunAsyncArgs {
  r_cmd : string; r_args : list string; r_env : list (string * string); r_env_clear : bool;
  r_cwd : option string }.
Record wait_args := WaitArgs { w_handle : process_handle; w_timeout_ms : option Z }.
Record kill_args := KillArgs { k_handle : process_handle; k_signal : Z }.
Record stdin_write_args := ProcStdinWriteArgs { sw_handle : process_handle; sw_data : bytes }.
Inductive process_live_status := Running | LiveExited | Unknown.
Inductive proc_stream_channel := Stdout | Stderr.
Record proc_stream_args := ProcStreamArgs { ps_handle : process_handle; channel : proc_stream_channel }.

Record nested_ptr := NestedPtr { parent : Z; child_ix : Z; n_offset : Z }.
Record syscall_args := SyscallArgs {
  nr : Z; s_args : list Z; s_bufs : list bytes; ptrs : list Z; nested : list nested_ptr }.
Record syscall_result := SyscallResultData { ret : Z; s_errno : Z; out_bufs : list bytes }.
Record ioctl_args := IoctlArgs {
  io_handle : file_handle; io_cmd : Z; io_data : bytes; io_bufs : list bytes; ptr_offsets : list Z }.
Record ioctl_ok := IoctlOk { io_ret : Z; io_out_data : bytes; io_out_bufs : list bytes }.
Record read_mem_args := ReadMemArgs { rm_addr : Z; rm_len : Z }.

Inductive tail_start := TailBeginning | TailEnd | TailOffset (o : Z).
Record tail_file_args := TailFileArgs { tl_path : string; tl_start : tail_start }.

Record worker_exec_args := WorkerExecArgs { we_handle : worker_handle; we_exec : exec_args }.
Record worker_run_async_args := WorkerRunAsyncArgs { wra_handle : worker_handle; wra_args : run_async_args }.
Record worker_open_file_args := WorkerOpenFileArgs { wof_handle : worker_handle; wof_args : open_file_args }.
Record worker_syscall_args := WorkerSyscallArgs { ws_handle : worker_handle; ws_args : syscall_args }.
Record worker_await_args := WorkerSyscallAwaitArgs { wa_handle : worker_handle; async_id : Z }.
Record worker_kill_args := WorkerKillArgs { wk_handle : worker_handle; wk_signal : Z }.

(** * The envelopes *)

#[warnings="-register-all"]
Inductive host_message :=
| MHello (h : hello)
| MExec (a : exec_args)
| MOpenFile (a : open_file_args)
| MRead (a : read_args)
| MWrite (a : write_args)
| MClose (h : file_handle)
| MReadFile (path : string)
| MWriteFile (a : write_file_args)
| MStat (a : stat_args)
| MTailFile (a : tail_file_args)
| MRunAsync (a : run_async_args)
| MWait (a : wait_args)
| MKill (a : kill_args)
| MGetPid (h : process_handle)
| MGetTime
| MSetTime (ns : Z)
| MSleepClock (ns : Z)
| MAdvanceClock (ns : Z)
| MSyscall (a : syscall_args)
| MReadMem (a : read_mem_args)
| MSpawnWorker
| MWorkerExec (a : worker_exec_args)
| MWorkerJoin (h : worker_handle)
| MListdir (path : string)
| MMkdir (a : mkdir_args)
| MUnlink (path : string)
| MRename (a : rename_args)
| MSeek (a : seek_args)
| MIoctl (a : ioctl_args)
| MProcStdinWrite (a : stdin_write_args)
| MProcStdinClose (h : process_handle)
| MProcStatus (h : process_handle)
| MProcStream (a : proc_stream_args)
| MFdStream (h : file_handle)
| MWorkerRunAsync (a : worker_run_async_args)
| MWorkerOpenFile (a : worker_open_file_args)
| MWorkerSyscall (a : worker_syscall_args)
| MWorkerSyscallBegin (a : worker_syscall_args)
| MWorkerSyscallAwait (a : worker_await_args)
| MWorkerKill (a : worker_kill_args)
| MBatchExec (items : list exec_args)
| MBatchOp (items : list host_message).

Inductive stream_end := StreamEof | StreamError (e : os_error).

#[warnings="-register-all"]
Inductive agent_message :=
| RHelloOk (h : hello_ok)
| RHelloErr (h : hello_err)
| RExec (r : exec_result)
| ROpenFile (r : op_result file_handle)
| RRead (r : op_result bytes)
| RWrite (r : op_result Z)
| RClose (r : op_result unit)
| RReadFile (r : op_result bytes)
| RWriteFile (r : op_result unit)
| RStat (r : op_result file_metadata)
| RTailFile (r : op_result unit)
| RRunAsync (r : op_result process_handle)
| RWait (r : op_result exec_ok)
| RKill (r : op_result unit)
| RGetPid (r : op_result Z)
| RGetTime (r : op_result Z)
| RSetTime (r : op_result unit)
| RSleepClock (r : op_result unit)
| RAdvanceClock (r : op_result unit)
| RSyscall (r : syscall_result)
| RReadMem (r : op_result bytes)
| RSpawnWorker (r : op_result worker_handle)
| RWorkerExec (r : exec_result)
| RWorkerJoin (r : op_result Z)
| RListdir (r : op_result (list dir_entry))
| RMkdir (r : op_result unit)
| RUnlink (r : op_result unit)
| RRename (r : op_result unit)
| RSeek (r : op_result Z)
| RIoctl (r : op_result ioctl_ok)
| RProcStdinWrite (r : op_result Z)
| RProcStdinClose (r : op_result unit)
| RProcStatus (r : op_result process_live_status)
| RProcStream (r : op_result unit)
| RFdStream (r : op_result unit)
| RWorkerRunAsync (r : op_result process_handle)
| RWorkerOpenFile (r : op_result file_handle)
| RWorkerSyscall (r : syscall_result)
| RWorkerSyscallBegin (r : op_result Z)
| RWorkerSyscallAwait (r : syscall_result)
| RWorkerKill (r : op_result Z)
| RBatchExec (rs : list exec_result)
| RBatchOp (rs : list agent_message)
| RStreamFrame (data : bytes)
| RStreamEnd (e : stream_end)
| RAgentError (e : agent_error).

(** [HostMessage::kind]. *)
Definition host_kind (m : host_message) : string :=
  match m with
  | MHello _ => "hello" | MExec _ => "exec" | MOpenFile _ => "open_file" | MRead _ => "read"
  | MWrite _ => "write" | MClose _ => "close" | MReadFile _ => "read_file"
  | MWriteFile _ => "write_file" | MStat _ => "stat" | MTailFile _ => "tail_file"
  | MRunAsync _ => "run_async" | MWait _ => "wait" | MKill _ => "kill" | MGetPid _ => "get_pid"
  | MGetTime => "get_time" | MSetTime _ => "set_time" | MSleepClock _ => "sleep_clock"
  | MAdvanceClock _ => "advance_clock" | MSyscall _ => "syscall" | MReadMem _ => "read_mem"
  | MSpawnWorker => "spawn_worker" | MWorkerExec _ => "worker_exec" | MWorkerJoin _ => "worker_join"
  | MListdir _ => "listdir" | MMkdir _ => "mkdir" | MUnlink _ => "unlink" | MRename _ => "rename"
  | MSeek _ => "seek" | MIoctl _ => "ioctl" | MProcStdinWrite _ => "proc_stdin_write"
  | MProcStdinClose _ => "proc_stdin_close" | MProcStatus _ => "proc_status"
  | MProcStream _ => "proc_stream" | MFdStream _ => "fd_stream"
  | MWorkerRunAsync _ => "worker_run_async" | MWorkerOpenFile _ => "worker_open_file"
  | MWorkerSyscall _ => "worker_syscall" | MWorkerSyscallBegin _ => "worker_syscall_begin"
  | MWorkerSyscallAwait _ => "worker_syscall_await" | MWorkerKill _ => "worker_kill"
  | MBatchExec _ => "batch_exec" | MBatchOp _ => "batch_op"
  end%string.

(** [AgentMessage::kind]. *)
Definition agent_kind (m : agent_message) : string :=
  match m with
  | RHelloOk _ => "hello_ok" | RHelloErr _ => "hello_err" | RExec _ => "exec_result"
  | ROpenFile _ => "open_file_result" | RRead _ => "read_result" | RWrite _ => "write_result"
  | RClose _ => "close_result" | RReadFile _ => "read_file_result"
  | RWriteFile _ => "write_file_result" | RStat _ => "stat_result" | RTailFile _ => "tail_file_result"
  | RRunAsync _ => "run_async_result" | RWait _ => "wait_result" | RKill _ => "kill_result"
  | RGetPid _ => "get_pid_result" | RGetTime _ => "get_time_result" | RSetTime _ => "set_time_result"
  | RSleepClock _ => "sleep_clock_result" | RAdvanceClock _ => "advance_clock_result"
  | RSyscall _ => "syscall_result" | RReadMem _ => "read_mem_result"
  | RSpawnWorker _ => "spawn_worker_result" | RWorkerExec _ => "worker_exec_result"
  | RWorkerJoin _ => "worker_join_result" | RListdir _ => "listdir_result" | RMkdir _ => "mkdir_result"
  | RUnlink _ => "unlink_result" | RRename _ => "rename_result" | RSeek _ => "seek_result"
  | RIoctl _ => "ioctl_result" | RProcStdinWrite _ => "proc_stdin_write_result"
  | RProcStdinClose _ => "proc_stdin_close_result" | RProcStatus _ => "proc_status_result"
  | RProcStream _ => "proc_stream_result" | RFdStream _ => "fd_stream_result"
  | RWorkerRunAsync _ => "worker_run_async_result" | RWorkerOpenFile _ => "worker_open_file_result"
  | RWorkerSyscall _ => "worker_syscall_result" | RWorkerSyscallBegin _ => "worker_syscall_begin_result"
  | RWorkerSyscallAwait _ => "worker_syscall_await_result" | RWorkerKill _ => "worker_kill_result"
  | RBatchExec _ => "batch_exec_result" | RBatchOp _ => "batch_op_result"
  | RStreamFrame _ => "stream_frame" | RStreamEnd _ => "stream_end" | RAgentError _ => "agent_error"
  end%string.

(** The protocol's contract on short operations: a reply is the result
    variant of the request's kind, or an agent error. *)
Definition answers_op (op : host_message) (reply : agent_message) : bool :=
  bool_decide (agent_kind reply = (host_kind op +:+ "_result")%string) ||
  bool_decide (agent_kind reply = "agent_error"%string).
