(* ===== verification/AgentState.v ===== *)
(** The agent's shared tables ([src/provium-agent/src/state.rs]) under any
    interleaving of its connection handlers: the handle counter is one atomic
    step, every table access another. *)
From S2P Require Import Prelude Wire.

(** * The state *)

(** An open [File] is known by its descriptor, a [Child] and its pipes by its
    pid. *)
Record worker_conn := WorkerConn { w_child : Z; control : Z }.

Record process_slot := ProcessSlot {
  child : option Z;
  stdout_join : bool;
  stderr_join : bool;
  stdin : option Z;
}.

Record agent_state := AgentState {
  worker_executable : option string;
  next_handle : Z;
  files : gmap file_handle Z;
  processes : gmap process_handle process_slot;
  workers : gmap worker_handle worker_conn;
  worker_processes : gmap process_handle (worker_handle * process_handle);
}.

Definition agent_new : agent_state := AgentState None 1 ∅ ∅ ∅ ∅.

Definition with_worker_executable (exe : string) (a : agent_state) : agent_state :=
  AgentState (Some exe) (next_handle a) (files a) (processes a) (workers a) (worker_processes a).

Definition set_next (n : Z) (a : agent_state) : agent_state :=
  AgentState (worker_executable a) n (files a) (processes a) (workers a) (worker_processes a).
Definition set_files (m : gmap file_handle Z) (a : agent_state) : agent_state :=
  AgentState (worker_executable a) (next_handle a) m (processes a) (workers a) (worker_processes a).
Definition set_processes (m : gmap process_handle process_slot) (a : agent_state) : agent_state :=
  AgentState (worker_executable a) (next_handle a) (files a) m (workers a) (worker_processes a).
Definition set_workers (m : gmap worker_handle worker_conn) (a : agent_state) : agent_state :=
  AgentState (worker_executable a) (next_handle a) (files a) (processes a) m (worker_processes a).
Definition set_worker_processes (m : gmap process_handle (worker_handle * process_handle))
    (a : agent_state) : agent_state :=
  AgentState (worker_executable a) (next_handle a) (files a) (processes a) (workers a) m.

(** [alloc_id]: [fetch_add(1)]. *)
Definition alloc_id (a : agent_state) : agent_state * Z :=
  (set_next (wrap u64_max (next_handle a + 1)) a, next_handle a).

(** ** Workers *)

Definition put_worker (h : worker_handle) (c : worker_conn) (a : agent_state) : agent_state :=
  set_workers (<[h := c]> (workers a)) a.
Definition insert_worker_conn (c : worker_conn) (a : agent_state) : agent_state * worker_handle :=
  let '(a, id) := alloc_id a in (put_worker (WorkerHandle id) c a, WorkerHandle id).
Definition get_worker (h : worker_handle) (a : agent_state) : option worker_conn := workers a !! h.
Definition remove_worker_conn (h : worker_handle) (a : agent_state) : agent_state * option worker_conn :=
  (set_workers (delete h (workers a)) a, workers a !! h).
Definition has_worker (h : worker_handle) (a : agent_state) : bool := bool_decide (is_Some (workers a !! h)).
Definition open_worker_count (a : agent_state) : Z := Z.of_nat (map_size (workers a)).

(** ** Worker-spawned processes *)

Definition put_worker_process (outer : process_handle) (x : worker_handle * process_handle)
    (a : agent_state) : agent_state :=
  set_worker_processes (<[outer := x]> (worker_processes a)) a.
Definition insert_worker_process (w : worker_handle) (inner : process_handle) (a : agent_state)
  : agent_state * process_handle :=
  let '(a, id) := alloc_id a in
  (put_worker_process (ProcessHandle id) (w, inner) a, ProcessHandle id).
Definition worker_process (h : process_handle) (a : agent_state) : option (worker_handle * process_handle) :=
  worker_processes a !! h.
Definition remove_worker_process (h : process_handle) (a : agent_state)
  : agent_state * option (worker_handle * process_handle) :=
  (set_worker_processes (delete h (worker_processes a)) a, worker_processes a !! h).
Definition remove_worker_processes_of (w : worker_handle) (a : agent_state) : agent_state :=
  set_worker_processes (filter (fun kv => kv.2.1 <> w) (worker_processes a)) a.

(** ** Async processes *)

Definition put_process (h : process_handle) (slot : process_slot) (a : agent_state) : agent_state :=
  set_processes (<[h := slot]> (processes a)) a.
Definition insert_process (slot : process_slot) (a : agent_state) : agent_state * process_handle :=
  let '(a, id) := alloc_id a in (put_process (ProcessHandle id) slot a, ProcessHandle id).
Definition take_process (h : process_handle) (a : agent_state) : agent_state * option process_slot :=
  (set_processes (delete h (processes a)) a, processes a !! h).
(** [with_process_mut]: the closure runs on the slot under the table's lock. *)
Definition with_process_mut {R} (h : process_handle) (f : process_slot -> process_slot * R)
    (a : agent_state) : agent_state * option R :=
  match processes a !! h with
  | None => (a, None)
  | Some slot => let '(slot', r) := f slot in (put_process h slot' a, Some r)
  end.
Definition open_process_count (a : agent_state) : Z := Z.of_nat (map_size (processes a)).

(** ** Files *)

Definition put_file (h : file_handle) (fd : Z) (a : agent_state) : agent_state :=
  set_files (<[h := fd]> (files a)) a.
Definition insert_file (fd : Z) (a : agent_state) : agent_state * file_handle :=
  let '(a, id) := alloc_id a in (put_file (FileHandle id) fd a, FileHandle id).
Definition take_file (h : file_handle) (a : agent_state) : agent_state * option Z :=
  (set_files (delete h (files a)) a, files a !! h).
Definition open_file_count (a : agent_state) : Z := Z.of_nat (map_size (files a)).

(** ** Shutting down *)

(** A child's exit as [wait] reports it. *)
Record wait_status := WaitStatus { w_code : option Z; w_signal : option Z }.

Definition shell_status (s : wait_status) : Z := default (128 + default 0 (w_signal s)) (w_code s).

(** [reap_slots], each child's [wait] given by [wait_of]; [Err] when it fails. *)
Definition reap_slots {E} (wait_of : Z -> result wait_status E) (slots : list process_slot) : Z :=
  foldl (fun worst slot =>
    match child slot with
    | None => worst
    | Some pid =>
        let s := match wait_of pid with Ok st => shell_status st | Err _ => 1 end in
        if worst <? s then s else worst
    end) 0 slots.

Definition reap_all_processes {E} (wait_of : Z -> result wait_status E) (a : agent_state)
  : agent_state * Z :=
  (set_processes ∅ a, reap_slots wait_of (map_to_list (processes a)).*2).

(** [signal_all]: the pids signalled, and their count. *)
Definition signal_all (a : agent_state) : list Z * Z :=
  let pids := omap child (map_to_list (processes a)).*2 in (pids, zlen pids).

(** * Handlers interleaved

    [pending] holds the identifiers a handler has drawn and not filed yet,
    [issued] every identifier ever drawn. *)
Record sys := Sys { tables : agent_state; pending : list Z; issued : list Z }.

Definition sys_init : sys := Sys agent_new [] [].

Inductive step : sys -> sys -> Prop :=
| StepAlloc s :
    next_handle (tables s) < u64_max ->
    step s (Sys (alloc_id (tables s)).1 ((alloc_id (tables s)).2 :: pending s)
              ((alloc_id (tables s)).2 :: issued s))
| StepFile s l1 l2 id fd :
    pending s = l1 ++ id :: l2 -> step s (Sys (put_file (FileHandle id) fd (tables s)) (l1 ++ l2) (issued s))
| StepProcess s l1 l2 id slot :
    pending s = l1 ++ id :: l2 ->
    step s (Sys (put_process (ProcessHandle id) slot (tables s)) (l1 ++ l2) (issued s))
| StepWorker s l1 l2 id c :
    pending s = l1 ++ id :: l2 ->
    step s (Sys (put_worker (WorkerHandle id) c (tables s)) (l1 ++ l2) (issued s))
| StepWorkerProcess s l1 l2 id x :
    pending s = l1 ++ id :: l2 ->
    step s (Sys (put_worker_process (ProcessHandle id) x (tables s)) (l1 ++ l2) (issued s))
| StepTakeFile s h : step s (Sys (take_file h (tables s)).1 (pending s) (issued s))
| StepTakeProcess s h : step s (Sys (take_process h (tables s)).1 (pending s) (issued s))
| StepUpdateProcess s h (f : process_slot -> process_slot * unit) :
    step s (Sys (with_process_mut h f (tables s)).1 (pending s) (issued s))
| StepRemoveWorker s h : step s (Sys (remove_worker_conn h (tables s)).1 (pending s) (issued s))
| StepRemoveWorkerProcess s h : step s (Sys (remove_worker_process h (tables s)).1 (pending s) (issued s))
| StepForgetWorker s w : step s (Sys (remove_worker_processes_of w (tables s)) (pending s) (issued s))
| StepReap s : step s (Sys (set_processes ∅ (tables s)) (pending s) (issued s)).

(** How many places hold an identifier. *)
Definition present {K A} `{Countable K} (m : gmap K A) (k : K) : nat :=
  if m !! k is Some _ then 1%nat else 0%nat.

Definition live (a : agent_state) (id : Z) : nat :=
  (present (files a) (FileHandle id) + present (processes a) (ProcessHandle id) +
   present (workers a) (WorkerHandle id) + present (worker_processes a) (ProcessHandle id))%nat.

Definition occurrences (id : Z) (l : list Z) : nat := length (filter (fun x => x = id) l).

Record sys_ok (s : sys) : Prop := {
  so_next : 1 <= next_handle (tables s) <= u64_max;
  so_one id : (live (tables s) id + occurrences id (pending s) <= 1)%nat;
  so_issued id : (1 <= live (tables s) id + occurrences id (pending s))%nat -> id ∈ issued s;
  so_nodup : NoDup (issued s);
  so_range : Forall (fun id => 1 <= id < next_handle (tables s)) (issued s);
}.

(** ** Lemmas *)

Lemma present_insert {K A} `{Countable K} (m : gmap K A) k v k' :
  present (<[k := v]> m) k' = if decide (k = k') then 1%nat else present m k'.
Proof. unfold present. rewrite lookup_insert. by case_decide. Qed.

Lemma present_delete {K A} `{Countable K} (m : gmap K A) k k' :
  (present (delete k m) k' <= present m k')%nat.
Proof. unfold present. rewrite lookup_delete. case_decide; destruct (m !! k'); lia. Qed.

Lemma present_filter {K A} `{Countable K} (P : K * A -> Prop) `{!forall x, Decision (P x)} (m : gmap K A) k :
  (present (filter P m) k <= present m k)%nat.
Proof.
  unfold present. destruct (filter P m !! k) as [x|] eqn:E; [|destruct (m !! k); lia].
  apply map_lookup_filter_Some in E as [-> _]. lia.
Qed.

Lemma occurrences_take id x l1 l2 :
  occurrences id (l1 ++ x :: l2) = ((if decide (x = id) then 1 else 0) + occurrences id (l1 ++ l2))%nat.
Proof.
  unfold occurrences. rewrite !filter_app, filter_cons. rewrite !length_app.
  case_decide; simpl; lia.
Qed.

Lemma occurrences_cons id x l :
  occurrences id (x :: l) = ((if decide (x = id) then 1 else 0) + occurrences id l)%nat.
Proof. apply (occurrences_take id x [] l). Qed.

(** Any step that only lowers the live counts keeps the invariant. *)
Lemma sys_ok_shrink s a :
  sys_ok s -> next_handle a = next_handle (tables s) ->
  (forall id, (live a id <= live (tables s) id)%nat) ->
  sys_ok (Sys a (pending s) (issued s)).
Proof.
  intros Hs Hn Hl. destruct Hs as [H1 H2 H3 H4 H5]. split; simpl; try rewrite Hn; auto.
  - intros id. specialize (H2 id). specialize (Hl id). lia.
  - intros id Hid. apply H3. specialize (Hl id). lia.
Qed.

(** Filing a drawn identifier moves it from the pending ones to a table. *)
Lemma sys_ok_file s a l1 l2 id :
  sys_ok s -> pending s = l1 ++ id :: l2 -> next_handle a = next_handle (tables s) ->
  (forall i, (live a i <= if decide (id = i) then 1 + live (tables s) i else live (tables s) i)%nat) ->
  sys_ok (Sys a (l1 ++ l2) (issued s)).
Proof.
  intros [H1 H2 H3 H4 H5] Hp Hn Hl. rewrite Hp in H2, H3. split; simpl; try rewrite Hn; auto.
  - intros i. specialize (H2 i). specialize (Hl i). rewrite occurrences_take in H2.
    repeat case_decide; simplify_eq; lia.
  - intros i Hi. apply H3. specialize (Hl i). rewrite occurrences_take.
    repeat case_decide; simplify_eq; lia.
Qed.

Ltac live_cases :=
  unfold live; simpl; rewrite ?present_insert; repeat case_decide; simplify_eq; simpl; try lia.

Lemma sys_ok_step s s' : sys_ok s -> step s s' -> sys_ok s'.
Proof.
  intros Hs Hst. destruct Hst.
  - destruct Hs as [H1 H2 H3 H4 H5]. unfold alloc_id; simpl.
    rewrite wrap_small by (unfold in_width; lia).
    assert (Hfresh : next_handle (tables s) ∉ issued s).
    { intros Hin. rewrite Forall_forall in H5. specialize (H5 _ Hin). lia. }
    assert (Hzero : (live (tables s) (next_handle (tables s)) +
      occurrences (next_handle (tables s)) (pending s) = 0)%nat).
    { destruct (decide (1 <= live (tables s) (next_handle (tables s)) +
        occurrences (next_handle (tables s)) (pending s))%nat) as [Hge|]; [|lia].
      exfalso. by apply Hfresh, H3. }
    split; simpl.
    + lia.
    + intros id. specialize (H2 id). change (live (set_next ?n ?a) id) with (live a id).
      rewrite occurrences_cons. case_decide; simplify_eq; simpl; lia.
    + intros id. change (live (set_next ?n ?a) id) with (live a id).
      rewrite occurrences_cons. intros Hid.
      apply elem_of_cons. case_decide; [by left|]. right. apply H3. simpl in Hid. lia.
    + by constructor.
    + constructor; [lia|]. eapply Forall_impl; [exact H5|]. intros x Hx. simpl in Hx. lia.
  - eapply sys_ok_file; [done..|]. intros i. live_cases.
  - eapply sys_ok_file; [done..|]. intros i. live_cases.
  - eapply sys_ok_file; [done..|]. intros i. live_cases.
  - eapply sys_ok_file; [done..|]. intros i. live_cases.
  - apply sys_ok_shrink; [done|done|]. intros id. unfold live; simpl.
    pose proof (present_delete (files (tables s)) h (FileHandle id)). lia.
  - apply sys_ok_shrink; [done|done|]. intros id. unfold live; simpl.
    pose proof (present_delete (processes (tables s)) h (ProcessHandle id)). lia.
  - unfold with_process_mut. destruct (processes (tables s) !! h) as [slot|] eqn:E.
    + destruct (f slot) as [slot' []]. apply sys_ok_shrink; [done|done|]. intros id.
      assert (Hp : present (processes (tables s)) h = 1%nat) by (unfold present; by rewrite E).
      unfold live; simpl. rewrite present_insert. case_decide; subst; lia.
    + by apply sys_ok_shrink.
  - apply sys_ok_shrink; [done|done|]. intros id. unfold live; simpl.
    pose proof (present_delete (workers (tables s)) h (WorkerHandle id)). lia.
  - apply sys_ok_shrink; [done|done|]. intros id. unfold live; simpl.
    pose proof (present_delete (worker_processes (tables s)) h (ProcessHandle id)). lia.
  - apply sys_ok_shrink; [done|done|]. intros id. unfold live; simpl.
    pose proof (present_filter (fun kv => kv.2.1 <> w) (worker_processes (tables s)) (ProcessHandle id)). lia.
  - apply sys_ok_shrink; [done|done|]. intros id. unfold live; simpl.
    unfold present at 2. rewrite lookup_empty. lia.
Qed.

Lemma sys_ok_init : sys_ok sys_init.
Proof.
  assert (H0 : forall id, live agent_new id = 0%nat) by done.
  split; cbn [tables pending issued sys_init];
    [done|intros id; rewrite H0; cbn; lia|intros id; rewrite H0; cbn; lia|by apply NoDup_nil|by apply Forall_nil].
Qed.

Definition reachable (s : sys) : Prop := rtc step sys_init s.

Lemma reachable_ok s : reachable s -> sys_ok s.
Proof. intros. by eapply (rtc_invariant sys_ok step); eauto using sys_ok_step, sys_ok_init. Qed.

(** Identifiers, once drawn and gone from every table, never come back. *)
Definition gone (s : sys) (id : Z) : Prop :=
  id ∈ issued s /\ live (tables s) id = 0%nat /\ occurrences id (pending s) = 0%nat.

Lemma gone_shrink s a id :
  gone s id -> (live a id <= live (tables s) id)%nat -> gone (Sys a (pending s) (issued s)) id.
Proof. intros (H1 & H2 & H3) Hl. split_and!; simpl; auto; lia. Qed.

Lemma gone_file s a l1 l2 x id :
  gone s id -> pending s = l1 ++ x :: l2 ->
  (live a id <= if decide (x = id) then 1 + live (tables s) id else live (tables s) id)%nat ->
  gone (Sys a (l1 ++ l2) (issued s)) id.
Proof.
  intros (H1 & H2 & H3) Hp Hl. rewrite Hp, occurrences_take in H3.
  split_and!; simpl; auto; case_decide; lia.
Qed.

Lemma gone_step s s' id : sys_ok s -> gone s id -> step s s' -> gone s' id.
Proof.
  intros Hok Hg Hst. destruct Hst.
  - destruct Hg as (H1 & H2 & H3). pose proof (so_range s Hok) as Hr. rewrite Forall_forall in Hr.
    specialize (Hr _ H1). split_and!; simpl; auto.
    + by right.
    + rewrite occurrences_cons, decide_False by lia. done.
  - eapply gone_file; [done..|]. live_cases.
  - eapply gone_file; [done..|]. live_cases.
  - eapply gone_file; [done..|]. live_cases.
  - eapply gone_file; [done..|]. live_cases.
  - apply gone_shrink; [done|]. unfold live; simpl.
    pose proof (present_delete (files (tables s)) h (FileHandle id)). lia.
  - apply gone_shrink; [done|]. unfold live; simpl.
    pose proof (present_delete (processes (tables s)) h (ProcessHandle id)). lia.
  - apply gone_shrink; [done|]. unfold with_process_mut.
    destruct (processes (tables s) !! h) as [slot|] eqn:E; [|done]. destruct (f slot) as [slot' []].
    assert (Hp : present (processes (tables s)) h = 1%nat) by (unfold present; by rewrite E).
    unfold live; simpl. rewrite present_insert. case_decide; subst; lia.
  - apply gone_shrink; [done|]. unfold live; simpl.
    pose proof (present_delete (workers (tables s)) h (WorkerHandle id)). lia.
  - apply gone_shrink; [done|]. unfold live; simpl.
    pose proof (present_delete (worker_processes (tables s)) h (ProcessHandle id)). lia.
  - apply gone_shrink; [done|]. unfold live; simpl.
    pose proof (present_filter (fun kv => kv.2.1 <> w) (worker_processes (tables s)) (ProcessHandle id)). lia.
  - apply gone_shrink; [done|]. unfold live; simpl. unfold present at 2. rewrite lookup_empty. lia.
Qed.

(** * Properties *)

(** Handles never collide. Under any interleaving of connection handlers
    (drawing a number and filing it are separate steps), no number is drawn
    twice or is zero, and no number names a thing in two tables, nor a thing
    filed and one about to be: in particular a process of the agent is never
    taken for one of a worker's. *)
Lemma handles_unique s :
  reachable s ->
  NoDup (issued s) /\ Forall (fun id => 1 <= id < next_handle (tables s)) (issued s) /\
  forall id, (live (tables s) id + occurrences id (pending s) <= 1)%nat.
Proof. intros Hr. destruct (reachable_ok s Hr). by split_and!. Qed.

(** A consumed handle stays dead. Once a file was closed, a process
    collected or a worker joined, no later step of any handler makes its
    number name anything again, so an operation on it can only fail. *)
Lemma dead_handle_stays_dead s s' id :
  reachable s -> rtc step s s' -> gone s id -> gone s' id.
Proof.
  intros Hr Hst. apply reachable_ok in Hr. induction Hst as [|x y z Hxy _ IH]; [done|].
  intros Hg. apply IH; [by eapply sys_ok_step|by eapply gone_step].
Qed.

Lemma reap_slots_worst {E} (wait_of : Z -> result wait_status E) slots :
  0 <= reap_slots wait_of slots /\
  forall slot pid st, slot ∈ slots -> child slot = Some pid -> wait_of pid = Ok st ->
  shell_status st <= reap_slots wait_of slots.
Proof.
  unfold reap_slots. induction slots as [|slot slots [IH1 IH2]] using rev_ind; simpl.
  { split; [done|]. by intros ? ? ? ?%elem_of_nil. }
  rewrite foldl_app. simpl. set (w := foldl _ 0 slots) in *. split.
  - destruct (child slot) as [pid|]; [|done]. case_match; cases_bool; lia.
  - intros slot' pid st [Hin| ->%list_elem_of_singleton]%elem_of_app Hc Hw.
    + specialize (IH2 slot' pid st Hin Hc Hw).
      destruct (child slot) as [pid'|]; [|done]. case_match; cases_bool; lia.
    + rewrite Hc, Hw. cases_bool; lia.
Qed.

(** * Witnesses *)

(** One file opened by one handler between another's draw and filing of a
    process; then the file is closed. *)
Definition demo_sys : sys :=
  let a1 := (alloc_id agent_new).1 in
  let a2 := (alloc_id a1).1 in
  let a3 := put_file (FileHandle 2) 7 a2 in
  let a4 := put_process (ProcessHandle 1) (ProcessSlot (Some 99) true true (Some 99)) a3 in
  Sys (take_file (FileHandle 2) a4).1 [] [2; 1].

Lemma demo_sys_reachable : reachable demo_sys.
Proof.
  eapply rtc_l; [by apply StepAlloc|]. eapply rtc_l; [by apply StepAlloc|].
  eapply rtc_l; [by apply (StepFile _ [] [1] 2 7)|].
  eapply rtc_l; [by apply (StepProcess _ [] [] 1 (ProcessSlot (Some 99) true true (Some 99)))|].
  eapply rtc_l; [by apply (StepTakeFile _ (FileHandle 2))|]. apply rtc_refl.
Qed.

Lemma handles_unique_witness : (live (tables demo_sys) 1 <= 1)%nat.
Proof.
  destruct (handles_unique demo_sys demo_sys_reachable) as (_ & _ & H). specialize (H 1). lia.
Defined.

Lemma dead_handle_stays_dead_witness :
  gone (Sys (take_process (ProcessHandle 1) (tables demo_sys)).1 [] [2; 1]) 2.
Proof.
  apply (dead_handle_stays_dead demo_sys); [apply demo_sys_reachable| |].
  - eapply rtc_l; [by apply (StepTakeProcess _ (ProcessHandle 1))|]. apply rtc_refl.
  - split_and!; [by left|done|done].
Defined.
