(* ===== verification/AgentOs.v ===== *)
(** What the agent's handlers ask of the guest's operating system and of its
    workers' control channels, as an interface: the handlers are proved against
    any implementation of it. *)
From S2P Require Import Prelude Wire AgentState.

(** A [std::io::Error]: its errno when the system gave one, its text, and the
    one [ErrorKind] a handler looks at. *)
Record io_error := IoError { raw_os_error : option Z; display : string; is_a_directory : bool }.

Record open_options := OpenOptions {
  oo_read : bool; oo_write : bool; oo_create : bool; oo_truncate : bool; oo_append : bool;
  oo_create_new : bool; oo_mode : option Z }.

Inductive seek_from := SeekStart (o : Z) | SeekCurrent (o : Z) | SeekFromEnd (o : Z).

(** What [FileType] answers to the questions asked of it, in their order. *)
Record file_type := FileType {
  is_file : bool; is_dir : bool; is_symlink : bool; is_fifo : bool; is_socket : bool;
  is_block_device : bool; is_char_device : bool }.

Record metadata := Metadata { md_len : Z; md_mtime : Z; md_mtime_nsec : Z; md_type : file_type; md_mode : Z }.

Record command := Command {
  c_cmd : string; c_args : list string; c_env : list (string * string); c_env_clear : bool;
  c_cwd : option string }.

Inductive spawn_failure := SocketpairFailed (e : io_error) | ExecFailed (e : io_error).

(** [None] where a call may never return. *)
Class Os (os : Type) := {
  os_open : open_options -> string -> os -> os * result Z io_error;
  os_close : Z -> os -> os;
  os_read : Z -> Z -> os -> os * result bytes io_error;
  os_write : Z -> bytes -> os -> os * result Z io_error;
  os_seek : Z -> seek_from -> os -> os * result Z io_error;
  os_read_to_end : Z -> os -> os * result bytes io_error;
  os_write_all : Z -> bytes -> os -> os * result unit io_error;
  os_metadata : bool -> string -> os -> result metadata io_error;
  os_read_dir : string -> os -> result (list (result (string * result file_type io_error) io_error)) io_error;
  os_create_dir : bool -> Z -> string -> os -> os * result unit io_error;
  os_remove_file : string -> os -> os * result unit io_error;
  os_remove_dir : string -> os -> os * result unit io_error;
  os_rename : string -> string -> os -> os * result unit io_error;
  os_addresses : list bytes -> os -> list Z;
  os_ioctl : Z -> Z -> bytes -> list bytes -> os -> os * result ioctl_ok io_error;
  os_syscall : Z -> list Z -> list bytes -> os -> os * (Z * Z * list bytes);
  os_self_mem : Z -> Z -> os -> result bytes io_error;
  os_strerror : Z -> string;
  os_spawn : command -> os -> os * result Z io_error;
  os_feed_stdin : Z -> bytes -> os -> os;
  os_stdin_write : Z -> bytes -> os -> os * result Z io_error;
  os_stdin_close : Z -> os -> os;
  os_try_wait : Z -> os -> os * result (option wait_status) io_error;
  os_wait : Z -> os -> option (os * result wait_status io_error);
  os_wait_timeout : Z -> Z -> os -> os * option (result wait_status io_error);
  os_drain : Z -> proc_stream_channel -> os -> option (os * bytes);
  os_kill : Z -> Z -> os -> os * result unit io_error;
  os_now : os -> Z;
  os_sleep : Z -> os -> os;
  os_clock_get : os -> result (Z * Z) io_error;
  os_clock_set : Z -> Z -> os -> os * result unit io_error;
  os_current_exe : os -> result string io_error;
  os_spawn_worker : string -> os -> os * result (Z * Z) spawn_failure;
  os_relay : Z -> host_message -> os -> option (os * result agent_message string);
  os_shutdown : Z -> os -> os;
  os_spawn_syscall : syscall_args -> os -> os * Z;
  os_join_syscall : Z -> os -> option (os * option syscall_result);
}.

(** What the parent relies on from a worker at the other end of a control
    channel: it speaks the same protocol. *)
Class RelayLaws (os : Type) `{!Os os} : Prop :=
  relay_answers c op (w w' : os) reply :
    os_relay c op w = Some (w', Ok reply) -> answers_op op reply = true.

(** * A handler's effects: the agent's tables and the system *)

Section monad.
Context {os : Type}.

Definition m (A : Type) : Type := agent_state * os -> option (agent_state * os * A).

#[export] Instance m_ret : MRet m := fun A a w => Some (w, a).
#[export] Instance m_bind : MBind m := fun A B f x w =>
  match x w with Some (w', a) => f a w' | None => None end.

Definition on_state {A} (f : agent_state -> agent_state * A) : m A := fun w =>
  let '(a, r) := f w.1 in Some ((a, w.2), r).
Definition of_state {A} (f : agent_state -> A) : m A := fun w => Some (w, f w.1).
Definition on_os {A} (f : os -> os * A) : m A := fun w =>
  let '(o, r) := f w.2 in Some ((w.1, o), r).
Definition of_os {A} (f : os -> A) : m A := fun w => Some (w, f w.2).
Definition do_os (f : os -> os) : m unit := fun w => Some ((w.1, f w.2), ()).
Definition block_os {A} (f : os -> option (os * A)) : m A := fun w =>
  match f w.2 with Some (o, r) => Some ((w.1, o), r) | None => None end.
End monad.

Arguments m : clear implicits.
