(* ===== verification/AgentOps.v ===== *)
(** The agent's operation handlers ([src/provium-agent/src/ops]) and their
    dispatch ([connection.rs]). *)
From stdpp Require Import pretty.
From S2P Require Import Prelude Wire AgentState AgentOs.

Open Scope string_scope.
Open Scope Z_scope.

(** * Shared helpers *)

Definition os_error_from_io (e : io_error) : os_error := OsError (default 0 (raw_os_error e)) (display e).

Definition to_wire {A} (r : result A io_error) : op_result A :=
  match r with Ok a => Ok a | Err e => Err (os_error_from_io e) end.

Definition agent_err (k : agent_error_kind) (msg : string) : agent_message := RAgentError (AgentError k msg).

Definition i64_max : Z := 9223372036854775807.
Definition i64_min : Z := -9223372036854775808.
Definition sat_i64 (z : Z) : Z := Z.max i64_min (Z.min i64_max z).

(** Seconds and nanoseconds as saturating [i64] nanoseconds. *)
Definition nanoseconds (sec nsec : Z) : Z := sat_i64 (sat_i64 (sec * 1000000000) + nsec).

(** [copy_from_slice] of an eight-byte address, when it fits. *)
Definition splice_ptr (buf : bytes) (off addr : Z) : bytes :=
  if off + 8 <=? zlen buf then splice buf (Z.to_nat off) (le_bytes 8 addr) else buf.

Definition exit_of (timed_out : bool) (s : wait_status) : exit_status :=
  if timed_out then TimedOutStatus
  else match w_code s, w_signal s with
       | Some code, _ => Exited code
       | None, Some sig => Signalled sig
       | None, None => Exited (-1)
       end.

(** Instants and durations are in nanoseconds. *)
Definition MS : Z := 1000000.

Definition SIGKILL : Z := 9.
Definition ESRCH : Z := 3.
Definition EINVAL : Z := 22.

Section ops.
Context {os : Type} `{!Os os}.
Abbreviation M := (m os).

(** [kill_process_group]: the group, then the process; refused for 0 and 1. *)
Definition kill_process_group (pid sig : Z) : M unit :=
  if pid <=? 1 then mret ()
  else _ ← on_os (os_kill (- pid) sig); _ ← on_os (os_kill pid sig); mret ().

(** * Files ([ops/file.rs]) *)

Definition DEFAULT_CREATE_PERM : Z := 420 (* 0o644 *).

Definition apply_open_mode (mode : open_mode) (perm : option Z) : open_options :=
  OpenOptions (o_read mode) (o_write mode) (o_create mode) (o_truncate mode) (o_append mode)
    (o_create mode && o_exclusive mode)
    (if o_create mode then Some (default DEFAULT_CREATE_PERM perm) else None).

Definition open_file (a : open_file_args) : M agent_message :=
  r ← on_os (os_open (apply_open_mode (op_mode a) (op_create_perm a)) (op_path a));
  match r with
  | Ok fd => h ← on_state (insert_file fd); mret (ROpenFile (Ok h))
  | Err e => mret (ROpenFile (Err (os_error_from_io e)))
  end.

Definition unknown_handle (detail : string) : agent_message := agent_err UnknownHandle detail.

Definition PER_CALL_CAP : Z := 4 * 1024 * 1024.

(** [with_file_mut]: the call on the descriptor behind a handle, if any. *)
Definition with_file {A} (h : file_handle) (call : Z -> M A) : M (option A) :=
  fd ← of_state (fun s => files s !! h);
  match fd with
  | Some fd => r ← call fd; mret (Some r)
  | None => mret None
  end.

Definition read (a : read_args) : M agent_message :=
  let to_read := Z.min (max_bytes a) PER_CALL_CAP in
  r ← with_file (rd_handle a) (fun fd => on_os (os_read fd to_read));
  mret (match r with
        | Some r => RRead (to_wire r)
        | None => unknown_handle ("read on " +:+ show_file (rd_handle a))
        end).

Definition write (a : write_args) : M agent_message :=
  r ← with_file (wr_handle a) (fun fd => on_os (os_write fd (wr_data a)));
  mret (match r with
        | Some r => RWrite (to_wire r)
        | None => unknown_handle ("write on " +:+ show_file (wr_handle a))
        end).

Definition close (h : file_handle) : M agent_message :=
  r ← on_state (take_file h);
  match r with
  | Some fd => _ ← do_os (os_close fd); mret (RClose (Ok ()))
  | None => mret (unknown_handle ("close on " +:+ show_file h))
  end.

Definition read_only : open_options := OpenOptions true false false false false false None.

Definition read_file (path : string) : M agent_message :=
  r ← on_os (os_open read_only path);
  match r with
  | Ok fd => d ← on_os (os_read_to_end fd); _ ← do_os (os_close fd); mret (RReadFile (to_wire d))
  | Err e => mret (RReadFile (Err (os_error_from_io e)))
  end.

Definition write_options (mode : write_file_mode) (perm : option Z) : open_options :=
  let p := Some (default DEFAULT_CREATE_PERM perm) in
  match mode with
  | Replace => OpenOptions false true true true false false p
  | Append => OpenOptions false true true false true false p
  | Exclusive => OpenOptions false true false false false true p
  end.

Definition write_file (a : write_file_args) : M agent_message :=
  r ← on_os (os_open (write_options (wf_mode a) (wf_create_perm a)) (wf_path a));
  match r with
  | Ok fd => d ← on_os (os_write_all fd (wf_data a)); _ ← do_os (os_close fd); mret (RWriteFile (to_wire d))
  | Err e => mret (RWriteFile (Err (os_error_from_io e)))
  end.

Definition classify (t : file_type) : entry_type :=
  if is_file t then TFile else if is_dir t then TDirectory else if is_symlink t then TSymlink
  else if is_fifo t then TFifo else if is_socket t then TSocket
  else if is_block_device t then TBlockDevice else if is_char_device t then TCharDevice else TOther.

Definition metadata_to_wire (md : metadata) : file_metadata :=
  FileMetadata (md_len md) (nanoseconds (md_mtime md) (md_mtime_nsec md)) (classify (md_type md))
    (Z.land (md_mode md) 0xfff).

Definition stat (a : stat_args) : M agent_message :=
  r ← of_os (os_metadata (follow_symlinks a) (st_path a));
  mret (RStat (match r with
               | Ok md => Ok (metadata_to_wire md)
               | Err e => Err (os_error_from_io e)
               end)).

Definition listdir (path : string) : M agent_message :=
  r ← of_os (os_read_dir path);
  mret (RListdir (match r with
    | Ok entries =>
        Ok (omap (fun e => match e with
              | Ok (name, Ok t) => Some (DirEntry name (classify t))
              | Ok (name, Err _) => Some (DirEntry name TOther)
              | Err _ => None
              end) entries)
    | Err e => Err (os_error_from_io e)
    end)).

Definition mkdir (a : mkdir_args) : M agent_message :=
  r ← on_os (os_create_dir (mk_parents a) (default 493 (* 0o755 *) (mk_create_perm a)) (mk_path a));
  mret (RMkdir (to_wire r)).

Definition unlink (path : string) : M agent_message :=
  r ← on_os (os_remove_file path);
  match r with
  | Ok _ => mret (RUnlink (Ok ()))
  | Err e =>
      if is_a_directory e then r' ← on_os (os_remove_dir path); mret (RUnlink (to_wire r'))
      else mret (RUnlink (Err (os_error_from_io e)))
  end.

Definition rename (a : rename_args) : M agent_message :=
  r ← on_os (os_rename (rn_from a) (rn_to a)); mret (RRename (to_wire r)).

Definition seek (a : seek_args) : M agent_message :=
  let whence := match sk_whence a with
                | SeekSet => SeekStart (Z.max (sk_offset a) 0)
                | SeekCur => SeekCurrent (sk_offset a)
                | SeekEnd => SeekFromEnd (sk_offset a)
                end in
  r ← with_file (sk_handle a) (fun fd => on_os (os_seek fd whence));
  mret (match r with
        | Some r => RSeek (to_wire r)
        | None => unknown_handle ("seek on " +:+ show_file (sk_handle a))
        end).

(** * Raw calls ([ops/ioctl.rs], [syscall.rs], [read_mem.rs]) *)

(** [bufs_owned.get_mut(i)] for the ith offset: its address into the argument. *)
Definition ioctl_splice (addrs : list Z) (buf : bytes) (io : nat * Z) : bytes :=
  match addrs !! io.1 with Some addr => splice_ptr buf io.2 addr | None => buf end.

Definition ioctl (a : ioctl_args) : M agent_message :=
  addrs ← of_os (os_addresses (io_bufs a));
  let buf := foldl (ioctl_splice addrs) (io_data a) (imap pair (ptr_offsets a)) in
  r ← with_file (io_handle a) (fun fd => on_os (os_ioctl fd (io_cmd a) buf (io_bufs a)));
  mret (match r with
        | Some r => RIoctl (to_wire r)
        | None => agent_err UnknownHandle ("ioctl on " +:+ show_file (io_handle a))
        end).

Definition nested_splice (addrs : list Z) (bufs : list bytes) (n : nested_ptr) : list bytes :=
  match bufs !! Z.to_nat (parent n) with
  | Some p =>
      <[Z.to_nat (parent n) := splice_ptr p (n_offset n) (default 0 (addrs !! Z.to_nat (child_ix n)))]> bufs
  | None => bufs
  end.

Definition slot_ptr (addrs : list Z) (args : list Z) (ip : nat * Z) : list Z :=
  match args !! Z.to_nat ip.2, addrs !! ip.1 with
  | Some _, Some addr => <[Z.to_nat ip.2 := addr]> args
  | _, _ => args
  end.

Definition run_syscall (a : syscall_args) : M syscall_result :=
  addrs ← of_os (os_addresses (s_bufs a));
  let bufs := foldl (nested_splice addrs) (s_bufs a) (nested a) in
  let args := foldl (slot_ptr addrs) (s_args a) (imap pair (ptrs a)) in
  r ← on_os (os_syscall (nr a) args bufs);
  let '(ret, errno, out) := r in
  mret (SyscallResultData ret (if ret <? 0 then errno else 0) out).

Definition syscall (a : syscall_args) : M agent_message := r ← run_syscall a; mret (RSyscall r).

Definition MAX_READ_LEN : Z := 64 * 1024 * 1024.

Definition read_mem (a : read_mem_args) : M agent_message :=
  if MAX_READ_LEN <? rm_len a then mret (RReadMem (Err (OsError EINVAL (os_strerror EINVAL))))
  else r ← of_os (os_self_mem (rm_addr a) (rm_len a)); mret (RReadMem (to_wire r)).

(** * Clocks ([ops/clock.rs]) *)

Definition get_time : M agent_message :=
  r ← of_os os_clock_get;
  mret (RGetTime (match r with
                  | Ok (sec, nsec) => Ok (nanoseconds sec nsec)
                  | Err e => Err (os_error_from_io e)
                  end)).

Definition set_time (ns : Z) : M agent_message :=
  r ← on_os (os_clock_set (Z.quot ns 1000000000) (Z.rem ns 1000000000)); mret (RSetTime (to_wire r)).

Definition sleep_clock (ns : Z) : M agent_message :=
  _ ← do_os (os_sleep ns); mret (RSleepClock (Ok ())).

Definition advance_clock (ns : Z) : M agent_message :=
  r ← of_os os_clock_get;
  match r with
  | Err e => mret (RAdvanceClock (Err (os_error_from_io e)))
  | Ok (sec, nsec) =>
      let target := sat_i64 (nanoseconds sec nsec + ns) in
      r ← on_os (os_clock_set (Z.quot target 1000000000) (Z.rem target 1000000000));
      mret (RAdvanceClock (to_wire r))
  end.

(** * Exec ([ops/exec.rs]) *)

(** [wait_with_capture]; the waiter thread always sends its status. *)
Definition wait_with_capture (pid : Z) (a : exec_args) : M (result exec_ok io_error) :=
  _ ← do_os (os_feed_stdin pid (x_stdin a));
  st ← (match x_timeout_ms a with
        | Some ms =>
            r ← on_os (os_wait_timeout pid (ms * MS));
            match r with
            | Some r => mret (false, r)
            | None => _ ← kill_process_group pid SIGKILL; r ← block_os (os_wait pid); mret (true, r)
            end
        | None => r ← block_os (os_wait pid); mret (false, r)
        end);
  out ← block_os (os_drain pid Stdout);
  err ← block_os (os_drain pid Stderr);
  mret (match st.2 with
        | Ok s => Ok (ExecOk (exit_of st.1 s) out err)
        | Err e => Err e
        end).

Definition exec_run (a : exec_args) : M exec_result :=
  r ← on_os (os_spawn (Command (x_cmd a) (x_args a) (x_env a) (x_env_clear a) (x_cwd a)));
  match r with
  | Err e => mret (Err (os_error_from_io e))
  | Ok pid => r ← wait_with_capture pid a; mret (to_wire r)
  end.

Fixpoint exec_all (items : list exec_args) : M (list exec_result) :=
  match items with
  | [] => mret []
  | a :: items' => r ← exec_run a; rs ← exec_all items'; mret (r :: rs)
  end.

(** * Workers ([ops/worker.rs]) *)

Definition unknown_worker (op : string) (h : worker_handle) : agent_message :=
  agent_err UnknownHandle (op +:+ " on unknown worker " +:+ show_worker h).
Definition worker_gone (op : string) (h : worker_handle) : agent_message :=
  agent_err UnknownHandle (op +:+ ": the process was spawned by " +:+ show_worker h +:+ ", which has been joined").
Definition relay_io_err (op detail : string) : agent_message :=
  agent_err BadRequest (op +:+ ": worker control channel error: " +:+ detail).
Definition relay_shape_err (op : string) (got : agent_message) : agent_message :=
  agent_err BadRequest (op +:+ ": unexpected reply shape from worker: " +:+ agent_kind got).
Definition spawn_err (msg : string) : agent_message := RSpawnWorker (Err (OsError 0 msg)).

Definition worker_exe : M (result string io_error) :=
  chosen ← of_state worker_executable;
  match chosen with
  | Some exe => mret (Ok exe)
  | None => of_os os_current_exe
  end.

Definition spawn : M agent_message :=
  exe ← worker_exe;
  match exe with
  | Err e => mret (spawn_err ("worker spawn: current_exe: " +:+ display e))
  | Ok exe =>
      r ← on_os (os_spawn_worker exe);
      match r with
      | Err (SocketpairFailed e) => mret (spawn_err ("worker spawn: socketpair: " +:+ display e))
      | Err (ExecFailed e) => mret (spawn_err ("worker spawn: exec " +:+ exe +:+ ": " +:+ display e))
      | Ok (pid, control) =>
          h ← on_state (insert_worker_conn (WorkerConn pid control)); mret (RSpawnWorker (Ok h))
      end
  end.

(** [relay] on a registered worker's channel. *)
Definition relay_to {A} (h : worker_handle) (op : host_message) (missing : M A)
    (k : result agent_message string -> M A) : M A :=
  conn ← of_state (get_worker h);
  match conn with
  | None => missing
  | Some c => r ← block_os (os_relay (control c) op); k r
  end.

Definition worker_syscall (a : worker_syscall_args) : M agent_message :=
  relay_to (ws_handle a) (MSyscall (ws_args a)) (mret (unknown_worker "worker_syscall" (ws_handle a)))
    (fun r => mret match r with
                   | Ok (RSyscall p) => RWorkerSyscall p
                   | Ok other => relay_shape_err "worker_syscall" other
                   | Err msg => relay_io_err "worker_syscall" msg
                   end).

Definition worker_syscall_begin (a : worker_syscall_args) : M agent_message :=
  relay_to (ws_handle a) (MWorkerSyscallBegin a) (mret (unknown_worker "worker_syscall_begin" (ws_handle a)))
    (fun r => mret match r with
                   | Ok (RWorkerSyscallBegin p) => RWorkerSyscallBegin p
                   | Ok other => relay_shape_err "worker_syscall_begin" other
                   | Err msg => relay_io_err "worker_syscall_begin" msg
                   end).

Definition worker_syscall_await (a : worker_await_args) : M agent_message :=
  relay_to (wa_handle a) (MWorkerSyscallAwait a) (mret (unknown_worker "worker_syscall_await" (wa_handle a)))
    (fun r => mret match r with
                   | Ok (RWorkerSyscallAwait p) => RWorkerSyscallAwait p
                   | Ok other => relay_shape_err "worker_syscall_await" other
                   | Err msg => relay_io_err "worker_syscall_await" msg
                   end).

Definition worker_exec (a : worker_exec_args) : M agent_message :=
  relay_to (we_handle a) (MExec (we_exec a)) (mret (unknown_worker "worker_exec" (we_handle a)))
    (fun r => mret match r with
                   | Ok (RExec p) => RWorkerExec p
                   | Ok other => relay_shape_err "worker_exec" other
                   | Err msg => relay_io_err "worker_exec" msg
                   end).

Definition worker_kill (a : worker_kill_args) : M agent_message :=
  conn ← of_state (get_worker (wk_handle a));
  match conn with
  | None => mret (unknown_worker "worker_kill" (wk_handle a))
  | Some c =>
      r ← on_os (os_kill (w_child c) (wk_signal a));
      mret (RWorkerKill (Ok (if is_ok r then 1 else 0)))
  end.

(** [reap_worker]. *)
Definition reap_worker (c : worker_conn) : M Z :=
  _ ← do_os (os_shutdown (control c));
  r ← block_os (os_wait (w_child c));
  mret (match r with Ok s => shell_status s | Err _ => 1 end).

Definition worker_join (h : worker_handle) : M agent_message :=
  conn ← on_state (remove_worker_conn h);
  match conn with
  | None => mret (unknown_worker "worker_join" h)
  | Some c =>
      _ ← on_state (fun s => (remove_worker_processes_of h s, ()));
      st ← reap_worker c; mret (RWorkerJoin (Ok st))
  end.

Definition worker_open_file (a : worker_open_file_args) : M agent_message :=
  known ← of_state (has_worker (wof_handle a));
  mret (if known : bool then
          agent_err BadRequest
            "worker_open_file: not supported for a process-isolated worker; use worker:syscall(openat, …) so the fd lives in the worker process"
        else unknown_worker "worker_open_file" (wof_handle a)).

Definition worker_run_async (a : worker_run_async_args) : M agent_message :=
  relay_to (wra_handle a) (MRunAsync (wra_args a)) (mret (unknown_worker "worker_run_async" (wra_handle a)))
    (fun r => match r with
              | Ok (RRunAsync (Ok inner)) =>
                  outer ← on_state (insert_worker_process (wra_handle a) inner);
                  mret (RWorkerRunAsync (Ok outer))
              | Ok (RRunAsync (Err e)) => mret (RWorkerRunAsync (Err e))
              | Ok other => mret (relay_shape_err "worker_run_async" other)
              | Err msg => mret (relay_io_err "worker_run_async" msg)
              end).

Definition relay_process_op (op_name : string) (w : worker_handle) (op : host_message) : M agent_message :=
  relay_to w op (mret (worker_gone op_name w))
    (fun r => mret match r with Ok reply => reply | Err msg => relay_io_err op_name msg end).

Definition WORKER_WAIT_POLL : Z := 20 * MS.

(** The polling loop of [worker_wait]: whether the deadline passed, or the
    reply to give up with. *)
Fixpoint poll_worker (fuel : nat) (c : worker_conn) (inner : process_handle) (deadline : option Z)
  : M (result bool agent_message) :=
  match fuel with
  | O => fun _ => None
  | S fuel' =>
      r ← block_os (os_relay (control c) (MProcStatus inner));
      match r with
      | Ok (RProcStatus (Ok Running)) =>
          now ← of_os os_now;
          if match deadline with Some d => d <=? now | None => false end then mret (Ok true)
          else _ ← do_os (os_sleep WORKER_WAIT_POLL); poll_worker fuel' c inner deadline
      | Ok (RProcStatus _) => mret (Ok false)
      | Ok other => mret (Err (relay_shape_err "wait" other))
      | Err msg => mret (Err (relay_io_err "wait" msg))
      end
  end.

Definition worker_wait (fuel : nat) (outer : process_handle) (w : worker_handle) (inner : process_handle)
    (timeout_ms : option Z) : M agent_message :=
  conn ← of_state (get_worker w);
  match conn with
  | None => _ ← on_state (remove_worker_process outer); mret (worker_gone "wait" w)
  | Some c =>
      start ← of_os os_now;
      r ← poll_worker fuel c inner ((fun ms => start + ms * MS) <$> timeout_ms);
      match r with
      | Err reply => mret reply
      | Ok timed_out =>
          reply ← block_os (os_relay (control c)
                    (MWait (WaitArgs inner (if timed_out : bool then Some 0 else None))));
          _ ← on_state (remove_worker_process outer);
          mret (match reply with Ok reply => reply | Err msg => relay_io_err "wait" msg end)
      end
  end.

(** * Processes ([ops/process.rs]) *)

Definition run_async (a : run_async_args) : M agent_message :=
  r ← on_os (os_spawn (Command (r_cmd a) (r_args a) (r_env a) (r_env_clear a) (r_cwd a)));
  match r with
  | Err e => mret (RRunAsync (Err (os_error_from_io e)))
  | Ok pid => h ← on_state (insert_process (ProcessSlot (Some pid) true true (Some pid))); mret (RRunAsync (Ok h))
  end.

(** [wait_with_timeout]: whether the child was killed, and its status. *)
Fixpoint poll_child (fuel : nat) (pid deadline : Z) : M (bool * result wait_status io_error) :=
  match fuel with
  | O => fun _ => None
  | S fuel' =>
      r ← on_os (os_try_wait pid);
      match r with
      | Ok (Some s) => mret (false, Ok s)
      | Err e => mret (false, Err e)
      | Ok None =>
          now ← of_os os_now;
          if deadline <=? now then
            _ ← kill_process_group pid SIGKILL;
            r ← block_os (os_wait pid);
            mret (is_ok r, r)
          else _ ← do_os (os_sleep (20 * MS)); poll_child fuel' pid deadline
      end
  end.

Definition join_drain (started : bool) (pid : Z) (ch : proc_stream_channel) : M bytes :=
  if started then block_os (os_drain pid ch) else mret [].

Definition wait (fuel : nat) (a : wait_args) : M agent_message :=
  relayed ← of_state (worker_process (w_handle a));
  match relayed with
  | Some (w, inner) => worker_wait fuel (w_handle a) w inner (w_timeout_ms a)
  | None =>
      slot ← on_state (take_process (w_handle a));
      match slot with
      | None => mret (agent_err UnknownHandle ("wait on " +:+ show_process (w_handle a)))
      | Some (ProcessSlot None _ _ _) =>
          mret (agent_err Internal "process slot has no child (already waited?)")
      | Some (ProcessSlot (Some pid) out_join err_join _) =>
          st ← (match w_timeout_ms a with
                | Some ms => start ← of_os os_now; poll_child fuel pid (start + ms * MS)
                | None => r ← block_os (os_wait pid); mret (false, r)
                end);
          out ← join_drain out_join pid Stdout;
          err ← join_drain err_join pid Stderr;
          mret (RWait (match st.2 with
                       | Ok s => Ok (ExecOk (exit_of st.1 s) out err)
                       | Err e => Err (os_error_from_io e)
                       end))
      end
  end.

Definition kill (a : kill_args) : M agent_message :=
  relayed ← of_state (worker_process (k_handle a));
  match relayed with
  | Some (w, inner) => relay_process_op "kill" w (MKill (KillArgs inner (k_signal a)))
  | None =>
      pid ← on_state (with_process_mut (k_handle a) (fun slot => (slot, child slot)));
      match pid with
      | None => mret (agent_err UnknownHandle ("kill on " +:+ show_process (k_handle a)))
      | Some None =>
          mret (agent_err Internal ("process " +:+ show_process (k_handle a) +:+ " has no child to signal"))
      | Some (Some pid) =>
          r ← on_os (os_kill pid (k_signal a));
          mret (RKill (match r with
                       | Ok _ => Ok ()
                       | Err e => if bool_decide (raw_os_error e = Some ESRCH) then Ok ()
                                  else Err (os_error_from_io e)
                       end))
      end
  end.

Definition get_pid (h : process_handle) : M agent_message :=
  relayed ← of_state (worker_process h);
  match relayed with
  | Some (w, inner) => relay_process_op "get_pid" w (MGetPid inner)
  | None =>
      pid ← on_state (with_process_mut h (fun slot => (slot, child slot)));
      mret (match pid with
            | Some (Some p) => RGetPid (Ok p)
            | Some None => agent_err Internal ("get_pid: process " +:+ show_process h +:+ " already reaped")
            | None => agent_err UnknownHandle ("get_pid on " +:+ show_process h)
            end)
  end.

Definition proc_stdin_write (a : stdin_write_args) : M agent_message :=
  relayed ← of_state (worker_process (sw_handle a));
  match relayed with
  | Some (w, inner) => relay_process_op "proc_stdin_write" w (MProcStdinWrite (ProcStdinWriteArgs inner (sw_data a)))
  | None =>
      pipe ← on_state (with_process_mut (sw_handle a) (fun slot => (slot, stdin slot)));
      match pipe with
      | None => mret (agent_err UnknownHandle ("proc_stdin_write on " +:+ show_process (sw_handle a)))
      | Some None =>
          mret (agent_err Internal ("process " +:+ show_process (sw_handle a) +:+ " has no live stdin"))
      | Some (Some pipe) =>
          r ← on_os (os_stdin_write pipe (sw_data a)); mret (RProcStdinWrite (to_wire r))
      end
  end.

Definition proc_stdin_close (h : process_handle) : M agent_message :=
  relayed ← of_state (worker_process h);
  match relayed with
  | Some (w, inner) => relay_process_op "proc_stdin_close" w (MProcStdinClose inner)
  | None =>
      pipe ← on_state (with_process_mut h
              (fun slot => (ProcessSlot (child slot) (stdout_join slot) (stderr_join slot) None, stdin slot)));
      match pipe with
      | None => mret (agent_err UnknownHandle ("proc_stdin_close on " +:+ show_process h))
      | Some None => mret (RProcStdinClose (Ok ()))
      | Some (Some pipe) => _ ← do_os (os_stdin_close pipe); mret (RProcStdinClose (Ok ()))
      end
  end.

Definition proc_status (h : process_handle) : M agent_message :=
  relayed ← of_state (worker_process h);
  match relayed with
  | Some (w, inner) => relay_process_op "proc_status" w (MProcStatus inner)
  | None =>
      pid ← on_state (with_process_mut h (fun slot => (slot, child slot)));
      match pid with
      | None | Some None => mret (RProcStatus (Ok Unknown))
      | Some (Some pid) =>
          r ← on_os (os_try_wait pid);
          mret (RProcStatus (Ok match r with
                                | Ok None => Running
                                | Ok (Some _) => LiveExited
                                | Err _ => Unknown
                                end))
      end
  end.

(** * Dispatch ([connection.rs]) *)

Definition dispatch_short (fuel : nat) (op : host_message) : M agent_message :=
  match op with
  | MHello _ | MTailFile _ | MProcStream _ | MFdStream _ | MBatchOp _ =>
      mret (agent_err BadRequest ("`" +:+ host_kind op +:+ "` cannot appear inside a batch"))
  | MExec a => r ← exec_run a; mret (RExec r)
  | MOpenFile a => open_file a
  | MRead a => read a
  | MWrite a => write a
  | MClose h => close h
  | MReadFile p => read_file p
  | MWriteFile a => write_file a
  | MStat a => stat a
  | MRunAsync a => run_async a
  | MWait a => wait fuel a
  | MKill a => kill a
  | MGetPid h => get_pid h
  | MGetTime => get_time
  | MSetTime ns => set_time ns
  | MSleepClock ns => sleep_clock ns
  | MAdvanceClock ns => advance_clock ns
  | MSyscall a => syscall a
  | MReadMem a => read_mem a
  | MSpawnWorker => spawn
  | MWorkerExec a => worker_exec a
  | MWorkerJoin h => worker_join h
  | MWorkerRunAsync a => worker_run_async a
  | MWorkerOpenFile a => worker_open_file a
  | MWorkerSyscall a => worker_syscall a
  | MWorkerSyscallBegin a => worker_syscall_begin a
  | MWorkerSyscallAwait a => worker_syscall_await a
  | MWorkerKill a => worker_kill a
  | MListdir p => listdir p
  | MMkdir a => mkdir a
  | MUnlink p => unlink p
  | MRename a => rename a
  | MSeek a => seek a
  | MIoctl a => ioctl a
  | MProcStdinWrite a => proc_stdin_write a
  | MProcStdinClose h => proc_stdin_close h
  | MProcStatus h => proc_status h
  | MBatchExec items => rs ← exec_all items; mret (RBatchExec rs)
  end.

Fixpoint dispatch_all (fuel : nat) (items : list host_message) : M (list agent_message) :=
  match items with
  | [] => mret []
  | op :: items' =>
      r ← dispatch_short fuel op; rs ← dispatch_all fuel items'; mret (r :: rs)
  end.

(** How a connection goes on after the handshake: one reply, a stream handler
    that owns the rest of the connection, or a violation. *)
Inductive dispatched :=
| Reply (r : agent_message)
| Stream (op : host_message)
| Violation (msg : string).

Definition dispatch (fuel : nat) (op : host_message) : M dispatched :=
  match op with
  | MHello _ => mret (Violation "received a second Hello after handshake completed")
  | MTailFile _ | MProcStream _ | MFdStream _ => mret (Stream op)
  | MBatchOp items => rs ← dispatch_all fuel items; mret (Reply (RBatchOp rs))
  | _ => r ← dispatch_short fuel op; mret (Reply r)
  end.

Definition describe_handshake_violation (op : host_message) : string :=
  match op with
  | MHello _ => "handshake-state hello (unreachable)"
  | _ => "received `" +:+ host_kind op +:+ "` before handshake"
  end.

Inductive connection_outcome :=
| Handled (d : dispatched)
| VersionRejected (host_version : Z)
| HandshakeViolation (msg : string).

(** [handle_connection], the messages already off the wire: what was written
    before the operation, and how it went. [first] and [second] are the two
    messages read; [HelloOk]'s contents are [info]. *)
Definition handle_connection (fuel : nat) (info : agent_info) (first second : host_message)
  : M (list agent_message * connection_outcome) :=
  match first with
  | MHello h =>
      if negb (protocol_version h =? PROTOCOL_VERSION) then
        mret ([RHelloErr (HelloErr (protocol_version h) PROTOCOL_VERSION)],
              VersionRejected (protocol_version h))
      else
        d ← dispatch fuel second;
        mret (RHelloOk (HelloOk PROTOCOL_VERSION info) ::
                match d with Reply r => [r] | _ => [] end, Handled d)
  | other => mret ([], HandshakeViolation (describe_handshake_violation other))
  end.

(** * The worker's serve loop ([serve_worker_child]) *)

(** One turn: the asynchronous system calls in flight and their counter. *)
Definition serve_worker_op (fuel : nat) (pend : gmap Z Z) (next_async : Z) (op : host_message)
  : M (gmap Z Z * Z * agent_message) :=
  match op with
  | MWorkerSyscallBegin a =>
      job ← on_os (os_spawn_syscall (ws_args a));
      mret (<[next_async := job]> pend, wrap u64_max (next_async + 1), RWorkerSyscallBegin (Ok next_async))
  | MWorkerSyscallAwait a =>
      match pend !! async_id a with
      | Some job =>
          r ← block_os (os_join_syscall job);
          mret (delete (async_id a) pend, next_async,
                match r with
                | Some p => RWorkerSyscallAwait p
                | None => agent_err BadRequest "worker async syscall thread panicked"
                end)
      | None =>
          mret (pend, next_async,
                agent_err UnknownHandle ("worker_syscall_await: unknown async handle " +:+ show_u64 (async_id a)))
      end
  | _ => r ← dispatch_short fuel op; mret (pend, next_async, r)
  end.
End ops.

(** * Reasoning about handlers *)

Section returns.
Context {os : Type} `{!Os os}.

(** Whenever the handler comes back, its result satisfies [P]. *)
Definition returns {A} (x : m os A) (P : A -> Prop) : Prop :=
  forall w w' a, x w = Some (w', a) -> P a.

Lemma returns_ret {A} (a : A) (P : A -> Prop) : P a -> returns (mret a) P.
Proof. intros HP w w' a' [= _ <-]. done. Qed.

Lemma returns_bind {A B} (x : m os A) (f : A -> m os B) (P : B -> Prop) :
  (forall a, returns (f a) P) -> returns (x ≫= f) P.
Proof.
  intros Hf w w' b. unfold mbind, m_bind. destruct (x w) as [[w1 a]|]; [|done]. apply Hf.
Qed.

Lemma returns_bind_with {A B} (x : m os A) (f : A -> m os B) (Q : A -> Prop) (P : B -> Prop) :
  returns x Q -> (forall a, Q a -> returns (f a) P) -> returns (x ≫= f) P.
Proof.
  intros Hx Hf w w' b. unfold mbind, m_bind. destruct (x w) as [[w1 a]|] eqn:E; [|done].
  apply Hf. by eapply Hx.
Qed.
End returns.

(** An agent error answers any operation. *)
Lemma answers_error op e : answers_op op (RAgentError e) = true.
Proof. unfold answers_op. by rewrite orb_true_r. Qed.

Create HintDb returns.
#[export] Hint Extern 1 (returns (mret _) _) =>
  (apply returns_ret; repeat case_match; first [apply answers_error | done]) : returns.
#[export] Hint Extern 3 (returns (_ ≫= _) _) => (apply returns_bind; intros) : returns.
#[export] Hint Extern 2 (returns (match _ with _ => _ end) _) => case_match : returns.

Section protocol.
Context {os : Type} `{!Os os} `{!RelayLaws os}.

(** A relayed operation's reply is what the worker owed, or an agent error. *)
Lemma relay_process_op_answers name w op :
  returns (relay_process_op (os := os) name w op) (fun r => answers_op op r = true).
Proof.
  unfold relay_process_op, relay_to. apply returns_bind. intros [c|]; [|by auto with returns].
  eapply (returns_bind_with _ _ (fun r => forall reply, r = Ok reply -> answers_op op reply = true)).
  - intros [a o] w' r. unfold block_os; simpl. destruct (os_relay (control c) op o) as [[o' r']|] eqn:E; [|done].
    intros [= _ <-] reply ->. by eapply relay_answers.
  - intros [reply|msg] Hr; apply returns_ret; [by apply Hr|apply answers_error].
Qed.

(** The protocol's contract only looks at the request's kind. *)
Lemma answers_op_kind op op' r :
  host_kind op = host_kind op' -> answers_op op r = answers_op op' r.
Proof. intros E. unfold answers_op. by rewrite E. Qed.

Lemma relayed_answers name w op op' :
  host_kind op' = host_kind op ->
  returns (relay_process_op (os := os) name w op') (fun r => answers_op op r = true).
Proof.
  intros E w0 w' r Hr. rewrite (answers_op_kind op op') by done. by eapply relay_process_op_answers.
Qed.

Lemma poll_worker_answers fuel c inner d op :
  returns (poll_worker (os := os) fuel c inner d)
    (fun r => forall reply, r = Err reply -> answers_op op reply = true).
Proof.
  induction fuel as [|fuel IH]; [done|]. cbn [poll_worker]. apply returns_bind. intros [reply|msg].
  - destruct reply; try (by apply returns_ret; intros reply' [= <-]; apply answers_error).
    destruct r as [[]|]; try (by apply returns_ret).
    apply returns_bind. intros now. destruct (match d with Some d0 => d0 <=? now | None => false end);
      [by apply returns_ret|]. apply returns_bind. intros _. exact IH.
  - by apply returns_ret; intros reply' [= <-]; apply answers_error.
Qed.

Lemma worker_wait_answers fuel outer w inner t a :
  returns (worker_wait (os := os) fuel outer w inner t) (fun r => answers_op (MWait a) r = true).
Proof.
  unfold worker_wait. apply returns_bind. intros [c|]; [|by auto with returns].
  apply returns_bind. intros start.
  eapply returns_bind_with; [apply (poll_worker_answers _ _ _ _ (MWait a))|].
  intros [timed_out|reply] Hp; [|apply returns_ret; by apply Hp].
  eapply (returns_bind_with _ _ (fun r => forall reply, r = Ok reply -> answers_op (MWait a) reply = true)).
  - intros [s o] w' r. unfold block_os; simpl.
    destruct (os_relay _ _ _) as [[o' r']|] eqn:E; [|done].
    intros [= _ <-] reply ->. rewrite (answers_op_kind (MWait a) (MWait (WaitArgs inner
      (if timed_out then Some 0 else None)))) by done. by eapply relay_answers.
  - intros [reply|msg] Hr; apply returns_bind; intros _; apply returns_ret; [by apply Hr|apply answers_error].
Qed.

Lemma dispatch_short_answers fuel op :
  returns (dispatch_short (os := os) fuel op) (fun r => answers_op op r = true).
Proof.
  destruct op; cbn [dispatch_short];
    try (solve [auto 20 with returns]);
    unfold open_file, read, write, close, read_file, write_file, stat, run_async, get_time, set_time,
      sleep_clock, advance_clock, syscall, read_mem, spawn, worker_exec, worker_join, worker_run_async,
      worker_open_file, worker_syscall, worker_syscall_begin, worker_syscall_await, worker_kill,
      listdir, mkdir, unlink, rename, seek, ioctl, relay_to; try (by auto 20 with returns).
  - unfold wait. apply returns_bind. intros [[w inner]|]; [apply worker_wait_answers|].
    auto 20 with returns.
  - unfold kill. apply returns_bind. intros [[w inner]|]; [by apply relayed_answers|].
    auto 20 with returns.
  - unfold get_pid. apply returns_bind. intros [[w inner]|]; [by apply relayed_answers|].
    auto 20 with returns.
  - unfold proc_stdin_write. apply returns_bind. intros [[w inner]|]; [by apply relayed_answers|].
    auto 20 with returns.
  - unfold proc_stdin_close. apply returns_bind. intros [[w inner]|]; [by apply relayed_answers|].
    auto 20 with returns.
  - unfold proc_status. apply returns_bind. intros [[w inner]|]; [by apply relayed_answers|].
    auto 20 with returns.
Qed.
End protocol.

(** * Handlers as sequences of table steps *)

Section tables.
Context {os : Type} `{!Os os}.

(** Run alone from tables [a] with [k] numbers left to draw, [x] is a sequence
    of the atomic steps of [AgentState], and draws at most [k]. *)
Definition table_steps {A} (k : Z) (x : m os A) : Prop :=
  forall a o a' o' r iss, x (a, o) = Some ((a', o'), r) -> next_handle a + k <= u64_max ->
  0 <= next_handle a ->
  next_handle a <= next_handle a' <= next_handle a + k /\
  exists iss', rtc step (Sys a [] iss) (Sys a' [] iss').

Ltac ts_same :=
  let E := fresh in intros E; inversion E; subst; clear E; intros _ _; split; [lia|];
  eexists; apply rtc_refl.

Lemma ts_ret {A} (x : A) : table_steps 0 (mret x).
Proof. intros a o a' o' r iss. ts_same. Qed.

Lemma ts_weaken {A} (k k' : Z) (x : m os A) : 0 <= k <= k' -> table_steps k x -> table_steps k' x.
Proof.
  intros Hk Hx a o a' o' r iss E Hn H0. destruct (Hx a o a' o' r iss E) as [H1 H2]; [lia|done|].
  split; [lia|done].
Qed.

Lemma ts_bind {A B} (k1 k2 : Z) (x : m os A) (f : A -> m os B) :
  0 <= k1 -> 0 <= k2 ->
  table_steps k1 x -> (forall a, table_steps k2 (f a)) -> table_steps (k1 + k2) (x ≫= f).
Proof.
  intros Hk1 Hk2 Hx Hf a o a' o' r iss. unfold mbind, m_bind.
  destruct (x (a, o)) as [[[a1 o1] v]|] eqn:E; [|done]. intros E2 Hn H0.
  destruct (Hx a o a1 o1 v iss E) as [H1 [iss1 R1]]; [lia|done|].
  destruct (Hf v a1 o1 a' o' r iss1 E2) as [H2 [iss2 R2]]; [lia|lia|].
  split; [lia|]. exists iss2. by etransitivity.
Qed.

Lemma ts_os {A} (f : os -> os * A) : table_steps 0 (on_os f).
Proof.
  intros a o a' o' r iss. unfold on_os; simpl. destruct (f o). ts_same.
Qed.

Lemma ts_of_os {A} (f : os -> A) : table_steps 0 (of_os f).
Proof. intros a o a' o' r iss. ts_same. Qed.

Lemma ts_do_os f : table_steps 0 (do_os (os := os) f).
Proof. intros a o a' o' r iss. ts_same. Qed.

Lemma ts_of_state {A} (f : agent_state -> A) : table_steps 0 (of_state (os := os) f).
Proof. intros a o a' o' r iss. ts_same. Qed.

Lemma ts_block {A} (f : os -> option (os * A)) : table_steps 0 (block_os f).
Proof.
  intros a o a' o' r iss. unfold block_os; simpl. destruct (f o) as [[]|]; [|done].
  ts_same.
Qed.

(** One table access that draws no number. *)
Lemma ts_access {A} (f : agent_state -> agent_state * A) :
  (forall a, next_handle (f a).1 = next_handle a) ->
  (forall a iss, rtc step (Sys a [] iss) (Sys (f a).1 [] iss)) ->
  table_steps 0 (on_state (os := os) f).
Proof.
  intros Hn Hs a o a' o' r iss. unfold on_state; simpl. specialize (Hn a). specialize (Hs a iss).
  destruct (f a) as [a1 v]. intros E. inversion E; subst. intros _ _. simpl in *. split; [lia|]. by eexists.
Qed.

(** Drawing a number and filing something under it. *)
Lemma ts_insert {A} (f : agent_state -> agent_state * A) (put : Z -> agent_state -> agent_state) :
  (forall a, (f a).1 = put (alloc_id a).2 (alloc_id a).1) ->
  (forall a id, next_handle (put id a) = next_handle a) ->
  (forall a id iss, step (Sys a [id] iss) (Sys (put id a) [] iss)) ->
  table_steps 1 (on_state (os := os) f).
Proof.
  intros Hf Hn Hs a o a' o' r iss. unfold on_state; simpl. specialize (Hf a).
  destruct (f a) as [a1 v]. intros E Hlt H0. inversion E; subst; clear E. simpl in Hf. subst a'.
  rewrite Hn. unfold alloc_id; simpl. rewrite wrap_small by (unfold in_width; lia).
  split; [lia|]. eexists.
  eapply rtc_l; [apply (StepAlloc (Sys a [] iss)); simpl; lia|].
  eapply rtc_l; [|apply rtc_refl]. unfold alloc_id; simpl.
  rewrite wrap_small by (unfold in_width; lia). apply Hs.
Qed.

Lemma ts_insert_file fd : table_steps 1 (on_state (os := os) (insert_file fd)).
Proof.
  apply (ts_insert _ (fun id => put_file (FileHandle id) fd)); [done|done|].
  intros a id iss. by apply (StepFile (Sys a [id] iss) [] []).
Qed.

Lemma ts_insert_process slot : table_steps 1 (on_state (os := os) (insert_process slot)).
Proof.
  apply (ts_insert _ (fun id => put_process (ProcessHandle id) slot)); [done|done|].
  intros a id iss. by apply (StepProcess (Sys a [id] iss) [] []).
Qed.

Lemma ts_insert_worker c : table_steps 1 (on_state (os := os) (insert_worker_conn c)).
Proof.
  apply (ts_insert _ (fun id => put_worker (WorkerHandle id) c)); [done|done|].
  intros a id iss. by apply (StepWorker (Sys a [id] iss) [] []).
Qed.

Lemma ts_insert_worker_process w i : table_steps 1 (on_state (os := os) (insert_worker_process w i)).
Proof.
  apply (ts_insert _ (fun id => put_worker_process (ProcessHandle id) (w, i))); [done|done|].
  intros a id iss. by apply (StepWorkerProcess (Sys a [id] iss) [] []).
Qed.

Lemma ts_take_file h : table_steps 0 (on_state (os := os) (take_file h)).
Proof. apply ts_access; [done|]. intros a iss. apply rtc_once, (StepTakeFile (Sys a [] iss)). Qed.

Lemma ts_take_process h : table_steps 0 (on_state (os := os) (take_process h)).
Proof. apply ts_access; [done|]. intros a iss. apply rtc_once, (StepTakeProcess (Sys a [] iss)). Qed.

Lemma ts_remove_worker h : table_steps 0 (on_state (os := os) (remove_worker_conn h)).
Proof. apply ts_access; [done|]. intros a iss. apply rtc_once, (StepRemoveWorker (Sys a [] iss)). Qed.

Lemma ts_remove_worker_process h : table_steps 0 (on_state (os := os) (remove_worker_process h)).
Proof. apply ts_access; [done|]. intros a iss. apply rtc_once, (StepRemoveWorkerProcess (Sys a [] iss)). Qed.

Lemma ts_forget_worker h :
  table_steps 0 (on_state (os := os) (fun s => (remove_worker_processes_of h s, ()))).
Proof. apply ts_access; [done|]. intros a iss. apply rtc_once, (StepForgetWorker (Sys a [] iss)). Qed.

Lemma ts_with_process {R} h (f : process_slot -> process_slot * R) :
  table_steps 0 (on_state (os := os) (with_process_mut h f)).
Proof.
  apply ts_access.
  - intros a. unfold with_process_mut. destruct (processes a !! h); [|done]. by destruct (f p).
  - intros a iss. eapply rtc_once.
    assert (E : (with_process_mut h f a).1 = (with_process_mut h (fun s => ((f s).1, ())) a).1).
    { unfold with_process_mut. destruct (processes a !! h); [|done]. by destruct (f p). }
    rewrite E. apply (StepUpdateProcess (Sys a [] iss)).
Qed.
End tables.

Create HintDb tables.
#[export] Hint Resolve ts_ret ts_os ts_of_os ts_do_os ts_of_state ts_block ts_take_file ts_take_process
  ts_remove_worker ts_remove_worker_process ts_forget_worker ts_with_process : tables.

(** [go]: a handler that draws nothing; [go1]: one that may draw one number at
    the end. *)
Ltac go :=
  lazymatch goal with
  | |- table_steps 0 (_ ≫= _) => change 0 with (0 + 0) at 1; apply ts_bind; [done|done|go|intros; go]
  | |- table_steps 0 (match ?x with _ => _ end) => destruct x; go
  | |- _ => auto with tables
  end.

Ltac go1 :=
  lazymatch goal with
  | |- table_steps 1 (on_state (insert_file _) ≫= _) =>
      change 1 with (1 + 0) at 1; apply ts_bind; [done|done|apply ts_insert_file|intros; go]
  | |- table_steps 1 (on_state (insert_process _) ≫= _) =>
      change 1 with (1 + 0) at 1; apply ts_bind; [done|done|apply ts_insert_process|intros; go]
  | |- table_steps 1 (on_state (insert_worker_conn _) ≫= _) =>
      change 1 with (1 + 0) at 1; apply ts_bind; [done|done|apply ts_insert_worker|intros; go]
  | |- table_steps 1 (on_state (insert_worker_process _ _) ≫= _) =>
      change 1 with (1 + 0) at 1; apply ts_bind; [done|done|apply ts_insert_worker_process|intros; go]
  | |- table_steps 1 (_ ≫= _) => change 1 with (0 + 1) at 1; apply ts_bind; [done|done|go|intros; go1]
  | |- table_steps 1 (match ?x with _ => _ end) => destruct x; go1
  | |- table_steps 1 _ => apply (ts_weaken 0); [done|go]
  end.

Section dispatch_tables.
Context {os : Type} `{!Os os}.

Lemma ts_kill_group pid sig : table_steps 0 (kill_process_group (os := os) pid sig).
Proof. unfold kill_process_group. go. Qed.
Hint Resolve ts_kill_group : tables.

Lemma ts_with_file {A} h (call : Z -> m os A) :
  (forall fd, table_steps 0 (call fd)) -> table_steps 0 (with_file h call).
Proof. intros Hc. unfold with_file. go. Qed.

Lemma ts_exec_run a : table_steps 0 (exec_run (os := os) a).
Proof. unfold exec_run, wait_with_capture. go. Qed.
Hint Resolve ts_exec_run : tables.

Lemma ts_exec_all l : table_steps 0 (exec_all (os := os) l).
Proof. induction l as [|x l IH]; cbn [exec_all]; go. Qed.
Hint Resolve ts_exec_all : tables.

Lemma ts_poll_child fuel pid d : table_steps 0 (poll_child (os := os) fuel pid d).
Proof. induction fuel as [|fuel IH]; cbn [poll_child]; [by intros ? ? ? ? ? ?|]. go. Qed.
Hint Resolve ts_poll_child : tables.

Lemma ts_poll_worker fuel c i d : table_steps 0 (poll_worker (os := os) fuel c i d).
Proof. induction fuel as [|fuel IH]; cbn [poll_worker]; [by intros ? ? ? ? ? ?|]. go. Qed.
Hint Resolve ts_poll_worker : tables.

Lemma ts_dispatch_short fuel op : table_steps 1 (dispatch_short (os := os) fuel op).
Proof.
  destruct op; cbn [dispatch_short]; try (solve [go1]);
    unfold open_file, read, write, close, read_file, write_file, stat, run_async, get_time, set_time,
      sleep_clock, advance_clock, syscall, run_syscall, read_mem, spawn, worker_exe, worker_exec,
      worker_join, reap_worker, worker_run_async, worker_open_file, worker_syscall,
      worker_syscall_begin, worker_syscall_await, worker_kill, listdir, mkdir, unlink, rename, seek,
      ioctl, wait, worker_wait, join_drain, kill, get_pid, proc_stdin_write, proc_stdin_close,
      proc_status, relay_process_op, relay_to, with_file; go1.
Qed.
End dispatch_tables.

Section contracts.
Context {os : Type} `{!Os os}.

Lemma ts_dispatch_all fuel items :
  table_steps (zlen items) (dispatch_all (os := os) fuel items).
Proof.
  induction items as [|op items IH]; cbn [dispatch_all]; [apply ts_ret|].
  replace (zlen (op :: items)) with (1 + (zlen items + 0)) by (unfold zlen; simpl; lia).
  pose proof (zlen_nonneg items).
  apply ts_bind; [lia|lia|apply ts_dispatch_short|]. intros r.
  apply ts_bind; [lia|lia|done|]. intros rs. apply ts_ret.
Qed.

(** How many numbers an operation may draw. *)
Definition draws (op : host_message) : Z :=
  match op with MBatchOp items => zlen items | _ => 1 end.

Lemma ts_dispatch fuel op : table_steps (draws op) (dispatch (os := os) fuel op).
Proof.
  destruct op; try (apply (ts_bind 1 0); [done|done|apply ts_dispatch_short|intros; apply ts_ret]);
    try (by apply (ts_weaken 0); [done|apply ts_ret]).
  cbn [dispatch draws]. replace (zlen items) with (zlen items + 0) by lia.
  apply ts_bind; [apply zlen_nonneg|done|apply ts_dispatch_all|intros; apply ts_ret].
Qed.

(** What a reply owes its operation, a batch owing one reply per item. *)
Definition reply_ok (op : host_message) (r : agent_message) : Prop :=
  match op with
  | MBatchOp items => exists rs, r = RBatchOp rs /\ Forall2 (fun op r => answers_op op r = true) items rs
  | _ => answers_op op r = true
  end.

Lemma dispatch_all_answers `{!RelayLaws os} fuel items :
  returns (dispatch_all (os := os) fuel items) (Forall2 (fun op r => answers_op op r = true) items).
Proof.
  induction items as [|op items IH]; cbn [dispatch_all]; [by apply returns_ret|].
  eapply returns_bind_with; [apply dispatch_short_answers|]. intros r Hr.
  eapply returns_bind_with; [apply IH|]. intros rs Hrs. apply returns_ret. by constructor.
Qed.

Definition is_stream (op : host_message) : bool :=
  match op with MTailFile _ | MProcStream _ | MFdStream _ => true | _ => false end.

(** What a dispatched operation promises: a stream handler for a stream
    operation, a violation for a second hello, the reply it owes otherwise. *)
Definition dispatched_ok (op : host_message) (d : dispatched) : Prop :=
  match d with
  | Reply r => reply_ok op r /\ is_stream op = false
  | Stream op' => op' = op /\ is_stream op = true
  | Violation _ => exists h, op = MHello h
  end.

Lemma dispatch_contract `{!RelayLaws os} fuel op :
  returns (dispatch (os := os) fuel op) (dispatched_ok op).
Proof.
  destruct op; cbn [dispatch];
    try (eapply returns_bind_with; [apply dispatch_short_answers|]; intros r Hr; by apply returns_ret);
    try (apply returns_ret; by split); try (apply returns_ret; by eexists).
  eapply returns_bind_with; [apply dispatch_all_answers|]. intros rs Hrs. apply returns_ret.
  split; [|done]. by eexists.
Qed.

(** One operation, one answer of the right kind. On a connection the
    agent serves: anything but a hello first is refused in silence; a hello
    of another version gets exactly the refusal that names both versions; in
    both cases no handler ran and nothing changed. After a matching hello the
    agent acknowledges and then answers the operation with the result variant
    of its kind, or an agent error (for a batch: one such answer per item, in
    order), provided its workers keep the same contract; stream operations
    are handed to their own loop. *)
Lemma connection_contract `{!RelayLaws os} fuel info first second (w w' : agent_state * os) out outcome :
  handle_connection fuel info first second w = Some (w', (out, outcome)) ->
  match first with
  | MHello h =>
      if protocol_version h =? PROTOCOL_VERSION
      then exists d, outcome = Handled d /\ dispatched_ok second d /\
           out = RHelloOk (HelloOk PROTOCOL_VERSION info) :: match d with Reply r => [r] | _ => [] end
      else w' = w /\ outcome = VersionRejected (protocol_version h) /\
           out = [RHelloErr (HelloErr (protocol_version h) PROTOCOL_VERSION)]
  | _ => w' = w /\ out = [] /\ outcome = HandshakeViolation (describe_handshake_violation first)
  end.
Proof.
  unfold handle_connection. destruct first as [h| | | | | | | | | | | | | | | | | | | | | | | | | | | | | | | |
    | | | | | | | | |]; try (by intros [= <- <- <-]).
  destruct (Z.eqb_spec (protocol_version h) PROTOCOL_VERSION) as [_|_]; cbn [negb];
    [|by intros [= <- <- <-]].
  unfold mbind, m_bind. destruct (dispatch fuel second w) as [[w1 d]|] eqn:E; [|done].
  intros [= <- <- <-]. exists d. split_and!; [done|by eapply dispatch_contract|done].
Qed.

(** A worker keeps the contract its parent relies on. Every turn of a
    worker's serve loop, asynchronous system calls included, answers with the
    result variant of the operation's kind or an agent error; numbers of
    asynchronous calls are only answered for while in flight, each once. *)
Lemma worker_keeps_contract `{!RelayLaws os} fuel pend next_async op (w w' : agent_state * os) pend' next' r :
  serve_worker_op fuel pend next_async op w = Some (w', (pend', next', r)) ->
  answers_op op r = true /\
  match op with
  | MWorkerSyscallBegin _ => r = RWorkerSyscallBegin (Ok next_async) /\ is_Some (pend' !! next_async)
  | MWorkerSyscallAwait a => pend' !! async_id a = None
  | _ => pend' = pend /\ next' = next_async
  end.
Proof.
  destruct op; cbn [serve_worker_op];
    try (unfold mbind, m_bind; destruct (dispatch_short _ _ w) as [[w1 r1]|] eqn:E; [|done];
         intros [= <- <- <- <-]; split; [by eapply dispatch_short_answers|done]).
  - unfold mbind, m_bind, on_os. destruct (os_spawn_syscall _ _) as [o job]. intros [= <- <- <- <-].
    split; [done|]. split; [done|]. rewrite lookup_insert_eq. by eexists.
  - destruct (pend !! async_id a) as [job|] eqn:E.
    + unfold mbind, m_bind, block_os. destruct (os_join_syscall _ _) as [[o [p|]]|]; [| |done];
        intros [= <- <- <- <-]; (split; [done|apply lookup_delete_eq]).
    + intros [= <- <- <- <-]. by split.
Qed.

(** The handlers are made of the table's atomic steps. Whatever the
    system answers, an operation changes the agent's tables only by a sequence
    of the steps whose interleavings [AgentState] verifies, and draws at most
    one number (one per item of a batch): handle uniqueness and the death of
    consumed handles hold of the real operations. *)
Lemma handlers_refine_tables fuel op a o a' o' d iss :
  dispatch (os := os) fuel op (a, o) = Some ((a', o'), d) ->
  0 <= next_handle a -> next_handle a + draws op <= u64_max ->
  next_handle a <= next_handle a' <= next_handle a + draws op /\
  exists iss', rtc step (Sys a [] iss) (Sys a' [] iss').
Proof. intros E H0 Hn. by eapply ts_dispatch. Qed.

(** ** Waiting with a timeout *)

Class TimeLaws : Prop := {
  sleep_advances n (w : os) : 0 <= n -> os_now w + n <= os_now (os_sleep n w);
  try_wait_forward pid (w : os) : os_now w <= os_now (os_try_wait pid w).1;
}.

(** The system once both signals of [kill_process_group] were sent. *)
Definition killed (pid : Z) (o : os) : os := (os_kill pid SIGKILL (os_kill (- pid) SIGKILL o).1).1.

Lemma kill_process_group_killed pid a o :
  1 < pid -> kill_process_group pid SIGKILL (a, o) = Some ((a, killed pid o), ()).
Proof.
  intros Hp. unfold kill_process_group, killed. destruct (Z.leb_spec pid 1); [lia|].
  unfold mbind, m_bind, on_os; simpl. destruct (os_kill (- pid) SIGKILL o) as [o1 r1]; simpl.
  by destruct (os_kill pid SIGKILL o1).
Qed.

Lemma poll_child_ends `{!TimeLaws} fuel pid deadline a o :
  1 < pid -> (forall o, is_Some (os_wait pid (killed pid o))) ->
  deadline - os_now o <= (Z.of_nat fuel - 1) * (20 * MS) -> (1 <= fuel)%nat ->
  exists o' r, poll_child fuel pid deadline (a, o) = Some ((a, o'), r).
Proof.
  intros Hp Hw. revert o. induction fuel as [|fuel IH]; intros o Hd Hf; [lia|].
  cbn [poll_child]. unfold mbind at 1, m_bind at 1, on_os at 1. cbn [fst snd].
  pose proof (try_wait_forward pid o) as Ht. destruct (os_try_wait pid o) as [o1 r]. cbn [fst] in Ht.
  destruct r as [[s|]|e]; [by eexists _, _| |by eexists _, _].
  unfold mbind at 1, m_bind at 1, of_os at 1. cbn [fst snd].
  destruct (Z.leb_spec deadline (os_now o1)) as [Hle|Hgt].
  - unfold mbind at 1, m_bind at 1. rewrite kill_process_group_killed by done.
    unfold mbind, m_bind, block_os. cbn [fst snd].
    destruct (Hw o1) as [[o2 r] ->]. by eexists _, _.
  - unfold mbind at 1, m_bind at 1, do_os. cbn [fst snd].
    pose proof (sleep_advances (20 * MS) o1 ltac:(done)).
    apply IH; [|]; unfold MS in *; lia.
Qed.

(** A capped [Wait] comes back. For a tracked process and a timeout, the
    polling loop ends after at most one turn per 20 ms of the cap, provided a
    killed child can be collected and its pipes reach end of file; the reply
    is a wait result and the handle is consumed. *)
Lemma capped_wait_returns `{!TimeLaws} fuel h ms a o pid oj ej sd :
  worker_processes a !! h = None -> processes a !! h = Some (ProcessSlot (Some pid) oj ej sd) ->
  1 < pid -> ms <= (Z.of_nat fuel - 1) * 20 -> (1 <= fuel)%nat ->
  (forall o, is_Some (os_wait pid (killed pid o))) ->
  (forall ch o, is_Some (os_drain pid ch o)) ->
  exists a' o' r, wait fuel (WaitArgs h (Some ms)) (a, o) = Some ((a', o'), RWait r) /\
    processes a' !! h = None.
Proof.
  intros Hwp Hp Hpid Hms Hf Hw Hdr. unfold wait. unfold mbind at 1, m_bind at 1, of_state.
  cbn [w_handle w_timeout_ms fst]. unfold worker_process. rewrite Hwp.
  unfold mbind at 1, m_bind at 1, on_state, take_process. cbn [fst snd]. rewrite Hp.
  set (a1 := set_processes _ a). unfold mbind at 1, m_bind at 1.
  assert (Hpoll : exists o1 st, (start ← of_os os_now; poll_child fuel pid (start + ms * MS)) (a1, o) =
    Some ((a1, o1), st)).
  { unfold mbind, m_bind, of_os. cbn [fst snd]. apply poll_child_ends; auto. unfold MS. lia. }
  destruct Hpoll as (o1 & st & ->).
  assert (Hj : forall b ch o, exists o' out, join_drain b pid ch (a1, o) = Some ((a1, o'), out)).
  { intros [] ch o2; [|by eexists _, _]. unfold join_drain, block_os. cbn [fst snd].
    destruct (Hdr ch o2) as [[o3 out] ->]. by eexists _, _. }
  unfold mbind, m_bind. destruct (Hj oj Stdout o1) as (o2 & out & ->).
  destruct (Hj ej Stderr o2) as (o3 & err & ->).
  eexists a1, o3, _. split; [done|]. subst a1. simpl. apply lookup_delete_eq.
Qed.
End contracts.
Arguments TimeLaws _ {_}.

(** * Witnesses *)

(** A small system: a clock, and whether the child has exited; [eof] says
    whether its pipes ever close. Files open, reads and writes succeed; a worker answers
    every relayed operation with an agent error. *)
Record toy := Toy { t_clock : Z; t_exited : bool }.

Definition enosys : io_error := IoError (Some 38) "Function not implemented" false.
Definition toy_no {A} (o : toy) : toy * result A io_error := (o, Err enosys).

Definition toy_os_with (eof : bool) : Os toy := {|
  os_open _ _ o := (o, Ok 3);
  os_close _ o := o;
  os_read _ n o := (o, Ok (replicate (Z.to_nat (Z.min n 2)) x41));
  os_write _ data o := (o, Ok (zlen data));
  os_seek _ _ o := toy_no o;
  os_read_to_end _ o := (o, Ok []);
  os_write_all _ _ o := (o, Ok ());
  os_metadata _ _ _ := Err enosys;
  os_read_dir _ _ := Ok [];
  os_create_dir _ _ _ o := toy_no o;
  os_remove_file _ o := toy_no o;
  os_remove_dir _ o := toy_no o;
  os_rename _ _ o := toy_no o;
  os_addresses bufs _ := replicate (length bufs) 4096;
  os_ioctl _ _ _ _ o := toy_no o;
  os_syscall _ _ bufs o := (o, (0, 0, bufs));
  os_self_mem _ _ _ := Err enosys;
  os_strerror _ := "error";
  os_spawn _ o := (o, Ok 42);
  os_feed_stdin _ _ o := o;
  os_stdin_write _ data o := (o, Ok (zlen data));
  os_stdin_close _ o := o;
  os_try_wait _ o := (o, Ok (if t_exited o then Some (WaitStatus (Some 0) None) else None));
  os_wait _ o := Some (o, Ok (WaitStatus None (Some 9)));
  os_wait_timeout _ _ o := (o, None);
  os_drain _ _ o := if eof then Some (o, [x41]) else None;
  os_kill _ _ o := (o, Ok ());
  os_now o := t_clock o;
  os_sleep n o := Toy (t_clock o + n) (t_exited o);
  os_clock_get _ := Ok (7, 5);
  os_clock_set _ _ o := (o, Ok ());
  os_current_exe _ := Ok "/agent";
  os_spawn_worker _ o := (o, Ok (43, 5));
  os_relay _ _ o := Some (o, Ok (agent_err Internal "no"));
  os_shutdown _ o := o;
  os_spawn_syscall _ o := (o, 1);
  os_join_syscall _ o := Some (o, None);
|}.

#[export] Instance toy_os : Os toy := toy_os_with true.

#[export] Instance toy_relay : RelayLaws toy.
Proof. intros c op w w' reply [= _ <-]. apply answers_error. Qed.

#[export] Instance toy_time : TimeLaws toy.
Proof. split; simpl; intros; lia. Qed.

Definition toy_start : toy := Toy 0 false.
Definition demo_info : agent_info := AgentInfo "peios" "1" None [].
Definition demo_batch : host_message :=
  MBatchOp [MOpenFile (OpenFileArgs "/etc/hosts" (OpenMode true false false false false false) None);
            MRead (ReadArgs (FileHandle 1) 100); MFdStream (FileHandle 1); MClose (FileHandle 1);
            MRead (ReadArgs (FileHandle 1) 100)].

Example demo_batch_runs :
  (fun x => snd <$> x) (handle_connection 3 demo_info (MHello (Hello 1)) demo_batch (agent_new, toy_start)) =
  Some ([RHelloOk (HelloOk 1 demo_info);
         RBatchOp [ROpenFile (Ok (FileHandle 1)); RRead (Ok [x41; x41]);
                   agent_err BadRequest "`fd_stream` cannot appear inside a batch";
                   RClose (Ok ()); agent_err UnknownHandle "read on file#1"]],
        Handled (Reply (RBatchOp [ROpenFile (Ok (FileHandle 1)); RRead (Ok [x41; x41]);
                   agent_err BadRequest "`fd_stream` cannot appear inside a batch";
                   RClose (Ok ()); agent_err UnknownHandle "read on file#1"]))).
Proof. by vm_compute. Qed.

Lemma connection_contract_witness :
  exists d, Handled (Reply (RExec (Ok (ExecOk TimedOutStatus [x41] [x41])))) = Handled d /\
    dispatched_ok (MExec (ExecArgs "sleep" [] [] false [] None (Some 5))) d.
Proof.
  destruct (connection_contract (os := toy) 1 demo_info (MHello (Hello 1))
    (MExec (ExecArgs "sleep" [] [] false [] None (Some 5))) (agent_new, toy_start) (agent_new, toy_start)
    [RHelloOk (HelloOk 1 demo_info); RExec (Ok (ExecOk TimedOutStatus [x41] [x41]))]
    (Handled (Reply (RExec (Ok (ExecOk TimedOutStatus [x41] [x41])))))) as (d & H1 & H2 & _).
  { by vm_compute. }
  by exists d.
Defined.

Lemma worker_keeps_contract_witness : answers_op (MGetPid (ProcessHandle 1))
  (agent_err UnknownHandle "get_pid on proc#1") = true.
Proof.
  apply (worker_keeps_contract (os := toy) 1 ∅ 1 (MGetPid (ProcessHandle 1)) (agent_new, toy_start)
    (agent_new, toy_start) ∅ 1). by vm_compute.
Defined.

Lemma handlers_refine_tables_witness :
  exists iss', rtc step (Sys agent_new [] []) (Sys (insert_file 3 agent_new).1 [] iss').
Proof.
  apply (handlers_refine_tables (os := toy) 1
    (MOpenFile (OpenFileArgs "/x" (OpenMode true false false false false false) None))
    agent_new toy_start (insert_file 3 agent_new).1 toy_start (Reply (ROpenFile (Ok (FileHandle 1)))) []); done.
Defined.

Lemma capped_wait_returns_witness :
  exists a' o' r,
    wait 3 (WaitArgs (ProcessHandle 1) (Some 30))
      ((insert_process (ProcessSlot (Some 42) true true None) agent_new).1, toy_start)
    = Some ((a', o'), RWait r).
Proof.
  destruct (capped_wait_returns (os := toy) 3 (ProcessHandle 1) 30
    (insert_process (ProcessSlot (Some 42) true true None) agent_new).1 toy_start 42 true true None)
    as (a' & o' & r & H & _); [done|done|done|lia|lia|intros o; by eexists|intros ch o; by eexists|].
  by exists a', o', r.
Defined.

(** The cap bounds the wait for the child, not for its pipes: when a child has
    exited and something it started keeps a pipe open, a capped [Wait] does
    not come back, however long it is given. *)
Example capped_wait_hangs_on_open_pipe fuel :
  @wait toy (toy_os_with false) fuel (WaitArgs (ProcessHandle 1) (Some 30))
    ((insert_process (ProcessSlot (Some 42) true true None) agent_new).1, Toy 0 true) = None.
Proof. by destruct fuel. Qed.
