(* ===== verification/AgentStream.v ===== *)
(** The agent's stream operations of [src/provium-agent/src/ops/stream.rs] and
    the message layer of [io.rs] under them. The source of a stream changes
    while the loop reads it, so each loop is a labelled machine: a label is one
    system call of the loop with what it returned, or a change from outside. *)
From S2P Require Import Prelude Frame Wire AgentState AgentOs AgentOps.
Open Scope list_scope.

Inductive agent_runtime_error :=
| FrameFailed (e : frame_error)
| ProtocolViolation (msg : string).

Definition READ_CHUNK : Z := 64 * 1024.

Section streams.
(** [rmp_serde], outside this repository. *)
Variable encode : agent_message -> option bytes.
Variable decode : bytes -> option host_message.

Definition read_host_message (r : reader) : reader * result host_message agent_runtime_error :=
  match read_frame decode r DEFAULT_MAX_FRAME_BYTES with
  | (r', Ok m) => (r', Ok m)
  | (r', Err e) => (r', Err (FrameFailed e))
  end.

Definition write_agent_message (w : writer) (m : agent_message)
  : writer * result unit agent_runtime_error :=
  match write_frame encode w m DEFAULT_MAX_FRAME_BYTES with
  | (w', Ok _) => (w', Ok ())
  | (w', Err e) => (w', Err (FrameFailed e))
  end.

(** A stream handler either returned, or acknowledged and goes on in its loop. *)
Inductive opened (A : Type) :=
| Returned (w : writer) (r : result unit agent_runtime_error)
| Looping (w : writer) (a : A).
Arguments Returned {A} w r.
Arguments Looping {A} w a.

Definition reply_and_return {A} (w : writer) (m : agent_message) : opened A :=
  let '(w', r) := write_agent_message w m in Returned w' r.

(** The acknowledgement, with [?] on its failure. *)
Definition acknowledge {A} (w : writer) (m : agent_message) (a : A) : opened A :=
  match write_agent_message w m with
  | (w', Ok _) => Looping w' a
  | (w', Err e) => Returned w' (Err e)
  end.

(** * [tail_file] *)

Definition seek_to_start `{!Os os} (fd : Z) (start : tail_start) : m os (result Z io_error) :=
  on_os (os_seek fd (match start with
                     | TailBeginning => SeekStart 0
                     | TailEnd => SeekFromEnd 0
                     | TailOffset o => SeekStart o
                     end)).

(** Up to the loop: the descriptor and the position it starts at. *)
Definition tail_file_open `{!Os os} (a : tail_file_args) (w : writer) : m os (opened (Z * Z)) :=
  f ← on_os (os_open read_only (tl_path a));
  match f with
  | Err e => mret (reply_and_return w (RTailFile (Err (os_error_from_io e))))
  | Ok fd =>
      p ← seek_to_start fd (tl_start a);
      mret (match p with
            | Err e => reply_and_return w (RTailFile (Err (os_error_from_io e)))
            | Ok pos => acknowledge w (RTailFile (Ok ())) (fd, pos)
            end)
  end.

(** The loop stands before its [read], or before the truncation test that
    follows an empty one, or has returned. *)
Inductive tail_pc := TailRead | TailStat | TailEnded.

Record tail_loop := TailLoop {
  content : bytes;        (* the file, which others write *)
  file_pos : nat;
  t_out : writer;
  t_pc : tail_pc }.

Inductive tail_label :=
| Appended (bs : bytes)                    (* outside: bytes at the end *)
| Changed (c : bytes)                      (* outside: anything else, truncation included *)
| ReadGives (n : nat)                      (* [file.read] returned [Ok(n)] *)
| ReadFails (e : io_error)
| StatGives (pos_ok len_ok : bool).        (* whether the two queries succeeded *)

Definition available (s : tail_loop) : nat := (length (content s) - file_pos s)%nat.

(** What [read(2)] may return on a file with a 64 KiB buffer. *)
Definition read_may (n : nat) (s : tail_loop) : bool :=
  bool_decide (Z.of_nat n <= READ_CHUNK) && (n <=? available s)%nat &&
  ((0 <? n)%nat || (available s =? 0)%nat).

Definition tail_write (s : tail_loop) (pos : nat) (m : agent_message) (next : tail_pc) : tail_loop :=
  match write_agent_message (t_out s) m with
  | (w, Ok _) => TailLoop (content s) pos w next
  | (w, Err _) => TailLoop (content s) pos w TailEnded
  end.

Definition tail_step (l : tail_label) (s : tail_loop) : option tail_loop :=
  match l, t_pc s with
  | Appended bs, pc => Some (TailLoop (content s ++ bs) (file_pos s) (t_out s) pc)
  | Changed c, pc => Some (TailLoop c (file_pos s) (t_out s) pc)
  | ReadGives n, TailRead =>
      if read_may n s then
        Some (if (n =? 0)%nat then TailLoop (content s) (file_pos s) (t_out s) TailStat
              else tail_write s (file_pos s + n)
                     (RStreamFrame (take n (drop (file_pos s) (content s)))) TailRead)
      else None
  | ReadFails e, TailRead =>
      Some (tail_write s (file_pos s) (RStreamEnd (StreamError (os_error_from_io e))) TailEnded)
  | StatGives pos_ok len_ok, TailStat =>
      let pos := if pos_ok then file_pos s else 0%nat in
      let file_size := if len_ok then length (content s) else pos in
      Some (if (file_size <? pos)%nat
            then tail_write s (file_pos s) (RStreamEnd StreamEof) TailEnded
            else TailLoop (content s) (file_pos s) (t_out s) TailRead)
  | _, _ => None
  end.

(** * [proc_stream] *)

Definition join_of (ch : proc_stream_channel) (slot : process_slot) : bool :=
  match ch with Stdout => stdout_join slot | Stderr => stderr_join slot end.

(** Whether the slot's drain thread was already joined; [true] when the slot
    is gone. *)
Definition drain_done (h : process_handle) (ch : proc_stream_channel) (a : agent_state) : bool :=
  default true ((fun slot => negb (join_of ch slot)) <$> processes a !! h).

Definition proc_stream_open `{!Os os} (a : proc_stream_args) (w : writer) : m os (opened unit) :=
  x ← of_state (AgentState.worker_process (ps_handle a));
  match x with
  | Some (wk, _) =>
      mret (reply_and_return w (agent_err BadRequest
        ("proc_stream: " +:+ show_process (ps_handle a) +:+ " was spawned by " +:+ show_worker wk +:+
         "; a worker-spawned process cannot be streamed — read its output from proc:wait instead")))
  | None =>
      slot ← of_state (fun t => processes t !! ps_handle a);
      mret (match slot with
            | None =>
                reply_and_return w (RProcStream (Err (OsError 9
                  "proc stream: process already waited or unknown handle (open streams BEFORE proc:wait)")))
            | Some _ => acknowledge w (RProcStream (Ok ())) ()
            end)
  end.

(** The loop stands before it takes what the buffer gained, before it asks
    the table whether the process is done, before the final drain, or has
    returned. *)
Inductive proc_pc := ProcBuffer | ProcDone | ProcFinal | ProcEnded.

Record proc_loop := ProcLoop {
  proc_buf : bytes;          (* the captured output, which the pump thread extends *)
  proc_tables : agent_state; (* the agent's tables, which the other handlers change *)
  consumed : nat;
  p_out : writer;
  p_pc : proc_pc }.

Inductive proc_label :=
| Pumped (bs : bytes)
| TablesBecome (a : agent_state)
| Turn.

(** One lock of the buffer: what it holds past [consumed]. *)
Definition fresh (s : proc_loop) : bytes := drop (consumed s) (proc_buf s).

Definition proc_final (s : proc_loop) : writer :=
  let w1 := match fresh s with
            | [] => p_out s
            | chunk => (write_agent_message (p_out s) (RStreamFrame chunk)).1
            end in
  (write_agent_message w1 (RStreamEnd StreamEof)).1.

Definition proc_turn (h : process_handle) (ch : proc_stream_channel) (s : proc_loop) : option proc_loop :=
  match p_pc s with
  | ProcBuffer =>
      match fresh s with
      | [] => Some (ProcLoop (proc_buf s) (proc_tables s) (consumed s) (p_out s) ProcDone)
      | chunk =>
          let '(w, r) := write_agent_message (p_out s) (RStreamFrame chunk) in
          Some (ProcLoop (proc_buf s) (proc_tables s) (length (proc_buf s)) w
                  (if is_ok r then ProcBuffer else ProcEnded))
      end
  | ProcDone =>
      Some (ProcLoop (proc_buf s) (proc_tables s) (consumed s) (p_out s)
              (if drain_done h ch (proc_tables s) then ProcFinal else ProcBuffer))
  | ProcFinal =>
      Some (ProcLoop (proc_buf s) (proc_tables s) (consumed s) (proc_final s) ProcEnded)
  | ProcEnded => None
  end.

Definition proc_step (h : process_handle) (ch : proc_stream_channel) (l : proc_label) (s : proc_loop)
  : option proc_loop :=
  match l with
  | Pumped bs => Some (ProcLoop (proc_buf s ++ bs) (proc_tables s) (consumed s) (p_out s) (p_pc s))
  | TablesBecome a => Some (ProcLoop (proc_buf s) a (consumed s) (p_out s) (p_pc s))
  | Turn => proc_turn h ch s
  end.

(** * [fd_stream] *)

Definition fd_stream_open `{!Os os} (h : file_handle) (w : writer) : m os (opened unit) :=
  known ← of_state (fun t => files t !! h);
  mret (match known with
        | None => reply_and_return w (RFdStream (Err (OsError 9 (os_strerror 9))))
        | Some _ => acknowledge w (RFdStream (Ok ())) ()
        end).

Inductive fd_pc := FdRead | FdIdle | FdEnded.

Record fd_loop := FdLoop { fd_tables : agent_state; f_out : writer; f_pc : fd_pc }.

Inductive fd_label :=
| FdTables (a : agent_state)
| FdGives (r : result bytes io_error)     (* [f.read] under the table's lock *)
| FdGone                                  (* the handle is not in the table: [Ok(0)] *)
| FdWakes.

Definition fd_emit (s : fd_loop) (m : agent_message) (next : fd_pc) : fd_loop :=
  match write_agent_message (f_out s) m with
  | (w, Ok _) => FdLoop (fd_tables s) w next
  | (w, Err _) => FdLoop (fd_tables s) w FdEnded
  end.

Definition fd_step (h : file_handle) (l : fd_label) (s : fd_loop) : option fd_loop :=
  match l, f_pc s with
  | FdTables a, pc => Some (FdLoop a (f_out s) pc)
  | FdGives r, FdRead =>
      match files (fd_tables s) !! h, r with
      | None, _ => None
      | Some _, Ok [] => Some (FdLoop (fd_tables s) (f_out s) FdIdle)
      | Some _, Ok data =>
          if READ_CHUNK <? zlen data then None else Some (fd_emit s (RStreamFrame data) FdRead)
      | Some _, Err e => Some (fd_emit s (RStreamEnd (StreamError (os_error_from_io e))) FdEnded)
      end
  | FdGone, FdRead =>
      match files (fd_tables s) !! h with
      | Some _ => None
      | None => Some (FdLoop (fd_tables s) (f_out s) FdIdle)
      end
  | FdWakes, FdIdle =>
      match files (fd_tables s) !! h with
      | Some _ => Some (FdLoop (fd_tables s) (f_out s) FdRead)
      | None => Some (fd_emit s (RStreamEnd StreamEof) FdEnded)
      end
  | _, _ => None
  end.

(** * What went out on the connection *)

(** The messages [ms] whole and in order, then [part] of a frame a failed
    write left behind. *)
Definition sent (w0 w : writer) (ms : list agent_message) (part : bytes) : Prop :=
  exists ps, Forall2 (fun x p => encode x = Some p) ms ps /\
    Forall (fun p => zlen p <= DEFAULT_MAX_FRAME_BYTES) ps /\
    out w = out w0 ++ List.concat (frame_of <$> ps) ++ part.

Lemma sent_nil w : sent w w [] [].
Proof. exists []. split_and!; auto. simpl. by rewrite app_nil_r. Qed.

(** A message the codec takes and the frame limit admits. *)
Definition fits (x : agent_message) : Prop :=
  exists p, encode x = Some p /\ zlen p <= DEFAULT_MAX_FRAME_BYTES.

Lemma write_sent w0 w ms x w' r :
  sent w0 w ms [] -> write_agent_message w x = (w', r) ->
  match r with
  | Ok _ => sent w0 w' (ms ++ [x]) [] /\ fits x
  | Err _ => exists part, sent w0 w' ms part
  end.
Proof.
  intros (ps & HF & Hsz & Ho). unfold write_agent_message.
  destruct (write_frame encode w x DEFAULT_MAX_FRAME_BYTES) as [w1 r1] eqn:Hw.
  apply write_frame_outcome in Hw. rewrite app_nil_r in Ho.
  destruct r1 as [u|e]; intros [= <- <-].
  - destruct Hw as (p & He & Hle & Ho'). simpl in Hle. split; [|exists p; split; [done|lia]].
    exists (ps ++ [p]). split_and!; [by apply Forall2_app; auto| |].
    + apply Forall_app; split; [done|]. constructor; [lia|done].
    + rewrite Ho', Ho, fmap_app, concat_app. simpl. by rewrite !app_nil_r, <- app_assoc.
  - assert (exists part, out w1 = out w ++ part) as [part Hp].
    { destruct e; cbn [write_post] in Hw; try done; try (destruct Hw as [-> _]; exists []; by rewrite app_nil_r).
      destruct Hw as (p & part & _ & ? & _). by exists part. }
    exists part, ps. split_and!; auto. by rewrite Hp, Ho, <- app_assoc.
Qed.

(** A writer whose peer keeps reading takes every message that fits. *)
Lemma write_fits w x :
  room w = None -> fits x ->
  exists w', write_agent_message w x = (w', Ok ()) /\ room w' = None.
Proof.
  intros Hr (p & He & Hle). unfold write_agent_message.
  rewrite (write_frame_eq encode w x _ p He) by (change (Z.min DEFAULT_MAX_FRAME_BYTES u32_max) with DEFAULT_MAX_FRAME_BYTES; lia).
  unfold write_all. rewrite Hr. eauto.
Qed.

Definition frames (ds : list bytes) : list agent_message := RStreamFrame <$> ds.

Lemma frames_snoc ds d : frames (ds ++ [d]) = frames ds ++ [RStreamFrame d].
Proof. unfold frames. by rewrite fmap_app. Qed.

Lemma concat_snoc (ds : list bytes) d : List.concat (ds ++ [d]) = List.concat ds ++ d.
Proof. rewrite List.concat_app. simpl. by rewrite app_nil_r. Qed.

(** * A tailed file that only grows *)

Definition grows_only (l : tail_label) : Prop := match l with Changed _ => False | _ => True end.

Definition running (s : tail_loop) : Prop := t_pc s <> TailEnded.

(** What has been streamed: frames [ds] that spell the file from [start] on,
    up to the loop's position while it runs; it ends on a failed write or on
    a read error, which it reports. *)
Definition tail_inv (start : nat) (w0 : writer) (s : tail_loop) : Prop :=
  (start <= length (content s))%nat /\
  exists ds last part,
    sent w0 (t_out s) (frames ds ++ last) part /\
    List.concat ds `prefix_of` drop start (content s) /\
    match t_pc s with
    | TailEnded => last = [] \/ exists e, last = [RStreamEnd (StreamError e)]
    | _ => last = [] /\ part = [] /\ file_pos s = (start + length (List.concat ds))%nat
    end.

Lemma tail_inv_pos start w0 s :
  tail_inv start w0 s -> running s -> (file_pos s <= length (content s))%nat.
Proof.
  intros (Hs & ds & last & part & _ & Hp & Hpc) Hr. apply prefix_length in Hp.
  rewrite length_drop in Hp. unfold running in Hr. destruct (t_pc s); try done; destruct Hpc as (_ & _ & ->); lia.
Qed.

Lemma tail_inv_append start w0 s bs :
  tail_inv start w0 s -> tail_inv start w0 (TailLoop (content s ++ bs) (file_pos s) (t_out s) (t_pc s)).
Proof.
  intros (Hs & ds & last & part & Hsent & Hp & Hpc). split; cbn [content]; [rewrite length_app; lia|].
  exists ds, last, part. split_and!; [done| |done]. rewrite drop_app_le by lia. by apply prefix_app_r.
Qed.

Lemma tail_inv_read start w0 s n :
  t_pc s = TailRead -> read_may n s = true -> n <> 0%nat -> tail_inv start w0 s ->
  tail_inv start w0 (tail_write s (file_pos s + n) (RStreamFrame (take n (drop (file_pos s) (content s)))) TailRead).
Proof.
  intros Hpc Hmay Hn Hinv. pose proof Hinv as (Hs & ds & last & part & Hsent & Hp & Hrun).
  rewrite Hpc in Hrun. destruct Hrun as (-> & -> & Hpos). rewrite app_nil_r in Hsent.
  unfold read_may, available in Hmay. apply andb_prop in Hmay as [[_ Hn']%andb_prop _].
  apply Nat.leb_le in Hn'. set (d := take n (drop (file_pos s) (content s))).
  assert (Hd : List.concat (ds ++ [d]) `prefix_of` drop start (content s)).
  { rewrite concat_snoc. destruct Hp as [k Hk]. exists (drop n k). rewrite Hk, <- app_assoc. f_equal.
    replace d with (take n k); [by rewrite take_drop|]. unfold d. f_equal.
    rewrite Hpos, <- drop_drop, Hk. by rewrite drop_app_length. }
  unfold tail_write. destruct (write_agent_message (t_out s) (RStreamFrame d)) as [w r] eqn:Hw.
  apply (write_sent w0) with (ms := frames ds) in Hw; [|done].
  destruct r as [u|e]; (split; [done|]).
  - destruct Hw as [Hw _]. exists (ds ++ [d]), [], []. cbn [t_out t_pc content file_pos].
    rewrite app_nil_r, frames_snoc. split_and!; auto.
    rewrite concat_snoc, length_app, Hpos. unfold d. rewrite length_take, length_drop. lia.
  - destruct Hw as [p Hw]. exists ds, [], p. cbn [t_out t_pc content]. rewrite app_nil_r. auto.
Qed.

Lemma tail_inv_step start w0 l s s' :
  grows_only l -> tail_inv start w0 s -> tail_step l s = Some s' -> tail_inv start w0 s'.
Proof.
  intros Hl Hinv Hstep.
  destruct l as [bs|c|n|e|pos_ok len_ok]; [|done|..]; cbn [tail_step] in Hstep.
  - simplify_eq. by apply tail_inv_append.
  - destruct (t_pc s) eqn:Hpc; try done. destruct (read_may n s) eqn:Hmay; [|done].
    destruct (Nat.eqb_spec n 0) as [->|Hn]; simplify_eq; [|by apply tail_inv_read].
    destruct Hinv as (Hs & ds & last & part & H). rewrite Hpc in H. split; [done|]. by exists ds, last, part.
  - destruct (t_pc s) eqn:Hpc; try done. simplify_eq.
    destruct Hinv as (Hs & ds & last & part & Hsent & Hp & Hrun). rewrite Hpc in Hrun.
    destruct Hrun as (-> & -> & _). rewrite app_nil_r in Hsent. unfold tail_write.
    destruct (write_agent_message _ _) as [w r] eqn:Hw.
    apply (write_sent w0) with (ms := frames ds) in Hw; [|done].
    destruct r as [u|e']; (split; [done|]).
    + destruct Hw as [Hw _]. eexists ds, _, []. cbn [t_out t_pc content]. eauto.
    + destruct Hw as [p Hw]. exists ds, [], p. cbn [t_out t_pc content]. rewrite app_nil_r. auto.
  - destruct (t_pc s) eqn:Hpc; try done. simplify_eq.
    assert (Hle : (file_pos s <= length (content s))%nat)
      by (eapply tail_inv_pos; [done|unfold running; congruence]).
    destruct (Nat.ltb_spec (if len_ok then length (content s) else if pos_ok then file_pos s else 0%nat)
                (if pos_ok then file_pos s else 0%nat)); [destruct len_ok, pos_ok; lia|].
    destruct Hinv as (Hs & ds & last & part & H'). rewrite Hpc in H'. split; [done|]. by exists ds, last, part.
Qed.

(** Tailing a file that only grows. Whatever the reads return, however
    the appends fall between them and whenever the peer goes away, the frames
    sent after the acknowledgement spell the file's bytes from the start
    offset, in order, without a gap or a repetition; while the loop runs it
    has sent exactly what it has read; it announces no end of file, and the
    only end it announces is a read error. *)
Lemma tail_in_order ls start w0 c0 s :
  Forall grows_only ls -> (start <= length c0)%nat ->
  run_labels tail_step ls (TailLoop c0 start w0 TailRead) = Some s ->
  exists ds last part,
    sent w0 (t_out s) (frames ds ++ last) part /\
    List.concat ds `prefix_of` drop start (content s) /\
    match t_pc s with
    | TailEnded => last = [] \/ exists e, last = [RStreamEnd (StreamError e)]
    | _ => last = [] /\ part = [] /\ file_pos s = (start + length (List.concat ds))%nat
    end.
Proof.
  intros Hls Hstart Hrun.
  apply (run_labels_invariant _ grows_only (tail_inv start w0)) in Hrun as [_ H]; auto.
  - intros. by eapply tail_inv_step.
  - split; [done|]. exists [], [], []. split_and!; [apply sent_nil|apply prefix_nil|simpl; auto; lia..].
Qed.

(** Every frame a 64 KiB buffer can fill is within the codec's limit. *)
Definition frames_fit : Prop := forall d, zlen d <= READ_CHUNK -> fits (RStreamFrame d).

Definition reading (l : tail_label) : bool :=
  match l with ReadGives _ | StatGives _ _ => true | _ => false end.
Definition calm (l : tail_label) : Prop := reading l = true \/ exists bs, l = Appended bs.

Lemma calm_grows l : calm l -> grows_only l.
Proof. intros [H|[bs ->]]; [by destruct l|done]. Qed.

(** With a peer that reads on, only a read error ends the loop. *)
Definition tail_open (start : nat) (w0 : writer) (s : tail_loop) : Prop :=
  tail_inv start w0 s /\ running s /\ room (t_out s) = None.

Lemma tail_open_step start w0 l s s' :
  frames_fit -> calm l -> tail_open start w0 s -> tail_step l s = Some s' -> tail_open start w0 s'.
Proof.
  intros Hfit Hl (Hinv & Hr & Hroom) Hstep.
  split; [eapply tail_inv_step; eauto using calm_grows|].
  destruct l as [bs|c|n|e|pos_ok len_ok]; cbn [tail_step] in Hstep;
    try (destruct Hl as [?|[? ?]]; done).
  - by simplify_eq.
  - destruct (t_pc s) eqn:Hpc; try done. destruct (read_may n s) eqn:Hmay; [|done].
    destruct (n =? 0)%nat; simplify_eq; [done|].
    apply andb_prop in Hmay as [[Hc%bool_decide_eq_true _]%andb_prop _].
    destruct (write_fits (t_out s) (RStreamFrame (take n (drop (file_pos s) (content s))))) as (w & Hw & Hw');
      [done|apply Hfit; unfold zlen; rewrite length_take; lia|].
    unfold tail_write. by rewrite Hw.
  - destruct (t_pc s) eqn:Hpc; try done. simplify_eq.
    assert (Hle : (file_pos s <= length (content s))%nat)
      by (eapply tail_inv_pos; [done|unfold running; congruence]).
    destruct (Nat.ltb_spec (if len_ok then length (content s) else if pos_ok then file_pos s else 0%nat)
                (if pos_ok then file_pos s else 0%nat)); [destruct len_ok, pos_ok; lia|done].
Qed.

(** The bytes the loop still has to read, and the test it may stand at. *)
Definition debt (s : tail_loop) : nat :=
  (available s + match t_pc s with TailStat => 1 | _ => 0 end)%nat.

Lemma tail_progress start w0 l s s' :
  frames_fit -> reading l = true -> tail_open start w0 s -> tail_step l s = Some s' ->
  content s' = content s /\ ((debt s' < debt s)%nat \/ (available s = 0 /\ available s' = 0)%nat).
Proof.
  intros Hfit Hl (Hinv & Hr & Hroom) Hstep. unfold debt.
  destruct l as [bs|c|n|e|pos_ok len_ok]; cbn [tail_step] in Hstep; try done; destruct (t_pc s) eqn:Hpc; try done.
  - destruct (read_may n s) eqn:Hmay; [|done].
    apply andb_prop in Hmay as [[_ Hn%Nat.leb_le]%andb_prop Hz].
    destruct (Nat.eqb_spec n 0) as [->|Hn0]; simplify_eq.
    + apply Nat.eqb_eq in Hz. unfold available in *. simpl. split; [done|]. by right.
    + unfold tail_write, available in *. destruct (write_agent_message _ _) as [w [u|e]];
        (split; [done|left]); cbn [content file_pos t_pc]; lia.
  - simplify_eq.
    match goal with |- context [if ?b then _ else _] => destruct b end;
      [unfold tail_write; destruct (write_agent_message _ _) as [w [u|e]]|];
      (split; [done|left]); unfold available; cbn [content file_pos t_pc]; lia.
Qed.

Lemma tail_catches_up start w0 ls s s' :
  frames_fit -> Forall (fun l => reading l = true) ls -> tail_open start w0 s ->
  (debt s <= length ls)%nat -> run_labels tail_step ls s = Some s' ->
  tail_open start w0 s' /\ content s' = content s /\ available s' = 0%nat.
Proof.
  intros Hfit Hls. revert s. induction Hls as [|l ls Hl Hls IH]; intros s Hopen Hd Hrun.
  - simpl in *. simplify_eq. unfold debt in Hd. split_and!; auto; lia.
  - simpl in Hrun. destruct (tail_step l s) as [s1|] eqn:Hstep; [|done]. simpl in Hrun, Hd.
    destruct (tail_progress _ _ _ _ _ Hfit Hl Hopen Hstep) as [Hc Hdec].
    assert (Hopen1 : tail_open start w0 s1) by (eapply tail_open_step; eauto; by left).
    rewrite <- Hc. destruct Hdec as [|[_ Hz]]; [apply IH; auto; lia|].
    clear IH Hd Hstep Hopen Hc. revert s1 Hopen1 Hz Hrun.
    induction Hls as [|l' ls Hl' Hls IH]; intros s1 Hopen1 Hz Hrun; simpl in Hrun; [by simplify_eq|].
    destruct (tail_step l' s1) as [s2|] eqn:Hstep; [|done].
    destruct (tail_progress _ _ _ _ _ Hfit Hl' Hopen1 Hstep) as [Hc Hdec]. rewrite <- Hc.
    apply IH; auto; [eapply tail_open_step; eauto; by left|].
    destruct Hdec as [Hdec|[_ ?]]; [|done]. unfold debt in Hdec. rewrite Hz in Hdec.
    destruct (t_pc s1); simpl in Hdec; lia.
Qed.

(** A tail keeps up. While the peer reads and no read fails, the loop
    never ends; and once the file stops growing, any sequence of the loop's
    own turns at least one longer than the bytes outstanding has delivered
    the whole file from the start offset, whatever sizes the reads return. *)
Lemma tail_delivers ls turns start w0 c0 s s' :
  frames_fit -> room w0 = None -> (start <= length c0)%nat -> Forall calm ls ->
  run_labels tail_step ls (TailLoop c0 start w0 TailRead) = Some s ->
  Forall (fun l => reading l = true) turns -> (available s < length turns)%nat ->
  run_labels tail_step turns s = Some s' ->
  running s' /\ exists ds, sent w0 (t_out s') (frames ds) [] /\
    List.concat ds = drop start (content s) /\ content s' = content s.
Proof.
  intros Hfit Hroom Hstart Hls Hrun Hturns Hlen Hrun'.
  assert (Hopen : tail_open start w0 s).
  { apply (run_labels_invariant _ calm (tail_open start w0)) in Hrun; auto.
    - intros. by eapply tail_open_step.
    - split_and!; [|done..]. split; [done|]. exists [], [], [].
      split_and!; [apply sent_nil|apply prefix_nil|simpl; auto; lia..]. }
  assert (Hd : (debt s <= length turns)%nat) by (unfold debt; destruct (t_pc s); lia).
  destruct (tail_catches_up _ _ _ _ _ Hfit Hturns Hopen Hd Hrun') as (Hopen' & Hc & Hz).
  destruct Hopen' as ((Hs & ds & last & part & Hsent & Hp & Hpc) & Hr & _). split; [done|].
  exists ds. unfold running, available in *.
  assert (H : last = [] /\ part = [] /\ file_pos s' = (start + length (List.concat ds))%nat)
    by (by destruct (t_pc s')).
  destruct H as (-> & -> & Hpos). rewrite app_nil_r in Hsent. rewrite <- Hc. split_and!; auto.
  destruct Hp as [k Hk]. rewrite Hk. destruct k as [|b k]; [by rewrite app_nil_r|].
  apply (f_equal length) in Hk. rewrite length_drop, length_app in Hk. simpl in Hk. lia.
Qed.

(** A file cut below the loop's position: the next read finds nothing, and
    the test after it ends the stream cleanly. *)
Lemma tail_truncated s :
  t_pc s = TailRead -> (length (content s) < file_pos s)%nat -> room (t_out s) = None ->
  fits (RStreamEnd StreamEof) ->
  (forall n, read_may n s = true -> n = 0%nat) /\
  exists w, write_agent_message (t_out s) (RStreamEnd StreamEof) = (w, Ok ()) /\
    run_labels tail_step [ReadGives 0; StatGives true true] s = Some (TailLoop (content s) (file_pos s) w TailEnded).
Proof.
  intros Hpc Hlt Hroom Hfit. unfold read_may.
  assert (Ha : available s = 0%nat) by (unfold available; lia). split.
  - intros n [[_ Hn%Nat.leb_le]%andb_prop _]%andb_prop. lia.
  - destruct (write_fits _ _ Hroom Hfit) as (w & Hw & _). exists w. split; [done|].
    simpl. rewrite Hpc. unfold read_may. rewrite Ha, bool_decide_eq_true_2 by (unfold READ_CHUNK; lia). simpl.
    destruct (Nat.ltb_spec (length (content s)) (file_pos s)); [|lia].
    unfold tail_write. simpl. by rewrite Hw.
Qed.

(** * A process's output *)

(** After a failed write either nothing went out or the peer takes no more. *)
Lemma write_failed w x w' e :
  write_agent_message w x = (w', Err e) -> w' = w \/ room w' = Some 0%nat.
Proof.
  unfold write_agent_message, write_frame. destruct (encode x) as [p|]; [|intros [= <- _]; by left].
  match goal with |- context [if ?b then _ else _] => destruct b end; [intros [= <- _]; by left|].
  unfold write_all. destruct (room w) as [n|]; [|done].
  match goal with |- context [if ?b then _ else _] => destruct b end; [done|].
  intros [= <- _]. by right.
Qed.

(** A peer that takes no more takes no further frame. *)
Lemma write_stuck w x w' r :
  room w = Some 0%nat -> write_agent_message w x = (w', r) -> out w' = out w /\ is_ok r = false.
Proof.
  intros Hroom. unfold write_agent_message, write_frame.
  destruct (encode x) as [p|]; [|by intros [= <- <-]].
  match goal with |- context [if ?b then _ else _] => destruct b end; [by intros [= <- <-]|].
  unfold write_all. rewrite Hroom.
  match goal with |- context [(length ?l <=? 0)%nat] => destruct (Nat.leb_spec (length l) 0) as [Hl|_] end.
  - rewrite length_splice in Hl by (rewrite length_app, length_replicate, length_be_bytes; unfold HEADER_LEN; lia).
    rewrite length_app, length_replicate in Hl. unfold HEADER_LEN in Hl. lia.
  - intros [= <- <-]. simpl. by rewrite app_nil_r.
Qed.

Definition proc_inv (w0 : writer) (s : proc_loop) : Prop :=
  (consumed s <= length (proc_buf s))%nat /\
  exists ds last part,
    sent w0 (p_out s) (frames ds ++ last) part /\
    List.concat ds `prefix_of` proc_buf s /\
    match p_pc s with
    | ProcEnded => last = [] \/ last = [RStreamEnd StreamEof]
    | _ => last = [] /\ part = [] /\ List.concat ds = take (consumed s) (proc_buf s)
    end.

Lemma proc_inv_pump w0 s bs :
  proc_inv w0 s -> proc_inv w0 (ProcLoop (proc_buf s ++ bs) (proc_tables s) (consumed s) (p_out s) (p_pc s)).
Proof.
  intros (Hc & ds & last & part & Hsent & Hp & Hpc). split; cbn [proc_buf consumed]; [rewrite length_app; lia|].
  exists ds, last, part. split_and!; [done|by apply prefix_app_r|].
  cbn [p_pc]. rewrite take_app_le by lia. done.
Qed.

Lemma fresh_concat s ds :
  List.concat ds = take (consumed s) (proc_buf s) -> List.concat (ds ++ [fresh s]) = proc_buf s.
Proof. intros H. unfold fresh. by rewrite concat_snoc, H, take_drop. Qed.

Lemma proc_inv_chunk w0 s :
  p_pc s = ProcBuffer -> proc_inv w0 s ->
  let '(w, r) := write_agent_message (p_out s) (RStreamFrame (fresh s)) in
  proc_inv w0 (ProcLoop (proc_buf s) (proc_tables s) (length (proc_buf s)) w
                 (if is_ok r then ProcBuffer else ProcEnded)).
Proof.
  intros Hpc (Hc & ds & last & part & Hsent & Hp & H). rewrite Hpc in H. destruct H as (-> & -> & Hds).
  rewrite app_nil_r in Hsent. destruct (write_agent_message _ _) as [w r] eqn:Hw.
  apply (write_sent w0) with (ms := frames ds) in Hw; [|done]. split; [done|]. destruct r as [u|e]; simpl.
  - destruct Hw as [Hw _]. exists (ds ++ [fresh s]), [], []. rewrite app_nil_r, frames_snoc, fresh_concat by done.
    rewrite firstn_all. by split_and!.
  - destruct Hw as [p Hw]. exists ds, [], p. rewrite app_nil_r. auto.
Qed.

(** The final drain and the end of file after it, whatever the writes do. *)
Lemma proc_final_sent w0 s ds :
  sent w0 (p_out s) (frames ds) [] -> List.concat ds = take (consumed s) (proc_buf s) ->
  exists ds' last part, sent w0 (proc_final s) (frames ds' ++ last) part /\
    List.concat ds' `prefix_of` proc_buf s /\ (last = [] \/ last = [RStreamEnd StreamEof]).
Proof.
  intros Hsent Hds.
  assert (Hpre : List.concat ds `prefix_of` proc_buf s) by (rewrite Hds; apply prefix_take).
  assert (Hend : forall w ds', sent w0 w (frames ds') [] -> List.concat ds' `prefix_of` proc_buf s ->
    exists ds' last part, sent w0 (write_agent_message w (RStreamEnd StreamEof)).1 (frames ds' ++ last) part /\
      List.concat ds' `prefix_of` proc_buf s /\ (last = [] \/ last = [RStreamEnd StreamEof])).
  { intros w ds' Hs Hp. destruct (write_agent_message w _) as [w' r] eqn:Hw.
    apply (write_sent w0) with (ms := frames ds') in Hw; [|done]. destruct r as [u|e]; simpl.
    - destruct Hw as [Hw _]. eexists ds', _, []. eauto.
    - destruct Hw as [p Hw]. exists ds', [], p. rewrite app_nil_r. auto. }
  unfold proc_final. destruct (fresh s) as [|b chunk] eqn:Hf; [by apply (Hend _ ds)|].
  destruct (write_agent_message (p_out s) _) as [w r] eqn:Hw. cbn [fst].
  pose proof Hw as Hw'. apply (write_sent w0) with (ms := frames ds) in Hw; [|done]. destruct r as [u|e].
  - destruct Hw as [Hw _]. rewrite <- Hf in Hw. apply (Hend _ (ds ++ [fresh s])); [by rewrite frames_snoc|].
    by rewrite fresh_concat.
  - destruct (write_failed _ _ _ _ Hw') as [->|Hroom]; [by apply (Hend _ ds)|].
    destruct Hw as [p (ps & HF & Hsz & Ho)].
    destruct (write_agent_message w (RStreamEnd StreamEof)) as [w2 r2] eqn:Hw2.
    apply write_stuck in Hw2 as [Ho2 _]; [|done]. exists ds, [], p. rewrite app_nil_r. split_and!; auto.
    exists ps. simpl. by rewrite Ho2.
Qed.

Lemma proc_inv_step w0 h ch l s s' :
  proc_inv w0 s -> proc_step h ch l s = Some s' -> proc_inv w0 s'.
Proof.
  intros Hinv. destruct l as [bs|a|]; cbn [proc_step]; [intros; simplify_eq; by apply proc_inv_pump|..].
  { intros; simplify_eq. destruct Hinv as (Hc & ds & last & part & H). split; [done|]. by exists ds, last, part. }
  unfold proc_turn. pose proof Hinv as (Hc & ds & last & part & Hsent & Hp & H).
  destruct (p_pc s) eqn:Hpc.
  - pose proof (proc_inv_chunk w0 s Hpc Hinv) as Hchunk.
    destruct (fresh s) as [|b chunk].
    + intros; simplify_eq. split; [done|]. by exists ds, last, part.
    + destruct (write_agent_message _ _) as [w r]. intros; by simplify_eq.
  - intros; simplify_eq. split; [done|]. exists ds, last, part. by destruct (drain_done _ _ _).
  - intros; simplify_eq. destruct H as (-> & -> & Hds). rewrite app_nil_r in Hsent. split; [done|].
    exact (proc_final_sent w0 s ds Hsent Hds).
  - done.
Qed.

(** A process stream shows the output as it was written. Whatever the
    pump appends between the turns, whatever other handlers do to the tables
    and whenever the peer goes away, the frames sent after the
    acknowledgement are a prefix of the captured output, in order, without a
    gap or a repetition; while the loop runs they are exactly what it has
    consumed; and it announces nothing but a clean end. *)
Lemma proc_in_order h ch ls t w0 buf s :
  run_labels (proc_step h ch) ls (ProcLoop buf t 0 w0 ProcBuffer) = Some s ->
  exists ds last part,
    sent w0 (p_out s) (frames ds ++ last) part /\
    List.concat ds `prefix_of` proc_buf s /\
    match p_pc s with
    | ProcEnded => last = [] \/ last = [RStreamEnd StreamEof]
    | _ => last = [] /\ part = [] /\ List.concat ds = take (consumed s) (proc_buf s)
    end.
Proof.
  intros Hrun.
  apply (run_labels_invariant _ (fun _ => True) (proc_inv w0)) in Hrun as [_ H]; auto.
  - intros. by eapply proc_inv_step.
  - by apply Forall_true.
  - split; [simpl; lia|]. exists [], [], [].
    split_and!; [apply sent_nil|apply prefix_nil|done..].
Qed.

(** The process is done for the stream, the peer reads on, and every cut of
    the output is within the frame limit: the stream ends by itself. *)
Lemma proc_final_delivers w0 s ds :
  sent w0 (p_out s) (frames ds) [] -> List.concat ds = take (consumed s) (proc_buf s) ->
  room (p_out s) = None -> fits (RStreamEnd StreamEof) ->
  (forall d, zlen d <= zlen (proc_buf s) -> fits (RStreamFrame d)) ->
  exists ds', sent w0 (proc_final s) (frames ds' ++ [RStreamEnd StreamEof]) [] /\
    List.concat ds' = proc_buf s.
Proof.
  intros Hsent Hds Hroom Heof Hfit.
  assert (Hend : forall w ds', room w = None -> sent w0 w (frames ds') [] ->
    sent w0 (write_agent_message w (RStreamEnd StreamEof)).1 (frames ds' ++ [RStreamEnd StreamEof]) []).
  { intros w ds' Hr Hs. destruct (write_fits w _ Hr Heof) as (w' & Hw & _).
    rewrite Hw. by apply (write_sent w0) with (ms := frames ds') in Hw as [Hw _]. }
  unfold proc_final. destruct (fresh s) as [|b chunk] eqn:Hf.
  - exists ds. split; [by apply Hend|]. apply fresh_concat in Hds.
    by rewrite Hf, concat_snoc, app_nil_r in Hds.
  - destruct (write_fits (p_out s) (RStreamFrame (b :: chunk)) Hroom) as (w & Hw & Hr).
    { apply Hfit. rewrite <- Hf. unfold fresh, zlen. rewrite length_drop. lia. }
    rewrite Hw. exists (ds ++ [fresh s]). split; [|by apply fresh_concat].
    apply Hend; [done|]. rewrite frames_snoc, Hf.
    by apply (write_sent w0) with (ms := frames ds) in Hw as [Hw _].
Qed.

(** A process stream ends complete. From any point of the loop, once the
    process is done for the table and its output no longer grows, at most four
    turns end the stream, with all of the output sent and a clean end of file
    after it, provided the peer reads and the output fits a frame. *)
Lemma proc_delivers h ch ls t w0 buf s :
  run_labels (proc_step h ch) ls (ProcLoop buf t 0 w0 ProcBuffer) = Some s ->
  p_pc s <> ProcEnded -> drain_done h ch (proc_tables s) = true ->
  room (p_out s) = None -> fits (RStreamEnd StreamEof) ->
  (forall d, zlen d <= zlen (proc_buf s) -> fits (RStreamFrame d)) ->
  exists n s' ds, (n <= 4)%nat /\
    run_labels (proc_step h ch) (replicate n Turn) s = Some s' /\ p_pc s' = ProcEnded /\
    sent w0 (p_out s') (frames ds ++ [RStreamEnd StreamEof]) [] /\ List.concat ds = proc_buf s.
Proof.
  intros Hrun Hpc Hdone Hroom Heof Hfit.
  destruct (proc_in_order _ _ _ _ _ _ _ Hrun) as (ds & last & part & Hsent & _ & Hinv).
  assert (H : last = [] /\ part = [] /\ List.concat ds = take (consumed s) (proc_buf s))
    by (by destruct (p_pc s)).
  destruct H as (-> & -> & Hds). rewrite app_nil_r in Hsent. clear Hrun Hinv.
  assert (Hfinal : forall c w ds', sent w0 w (frames ds') [] -> List.concat ds' = take c (proc_buf s) ->
    room w = None -> exists s' ds'',
      proc_step h ch Turn (ProcLoop (proc_buf s) (proc_tables s) c w ProcFinal) = Some s' /\
      p_pc s' = ProcEnded /\ sent w0 (p_out s') (frames ds'' ++ [RStreamEnd StreamEof]) [] /\
      List.concat ds'' = proc_buf s).
  { intros c w ds' Hs Hc Hr.
    destruct (proc_final_delivers w0 (ProcLoop (proc_buf s) (proc_tables s) c w ProcFinal) ds')
      as (ds'' & H1 & H2); try done. eexists _, ds''. by split_and!. }
  destruct s as [b t' c w pc]. cbn [proc_buf proc_tables consumed p_out p_pc] in *.
  destruct pc; [|clear Hpc..|done].
  - destruct (drop c b) as [|x chunk] eqn:Hf.
    + destruct (Hfinal c w ds) as (s' & ds'' & H1 & H2 & H3 & H4); [done..|].
      exists 3%nat, s', ds''. cbn. unfold fresh; cbn. rewrite Hf. cbn. rewrite Hdone. cbn in *. split_and!; auto; lia.
    + destruct (write_fits w (RStreamFrame (x :: chunk)) Hroom) as (w' & Hw & Hr).
      { apply Hfit. rewrite <- Hf. unfold zlen. rewrite length_drop. lia. }
      destruct (Hfinal (length b) w' (ds ++ [x :: chunk])) as (s' & ds'' & H1 & H2 & H3 & H4); [|..|done|].
      { rewrite frames_snoc. by apply (write_sent w0) with (ms := frames ds) in Hw as [Hw _]. }
      { rewrite firstn_all, concat_snoc, Hds, <- Hf. by rewrite take_drop. }
      exists 4%nat, s', ds''. cbn. unfold fresh; cbn. rewrite Hf, Hw. cbn.
      rewrite drop_all. cbn. rewrite Hdone. cbn in *. split_and!; auto; lia.
  - destruct (Hfinal c w ds) as (s' & ds'' & H1 & H2 & H3 & H4); [done..|].
    exists 2%nat, s', ds''. cbn. rewrite Hdone. cbn in *. split_and!; auto; lia.
  - destruct (Hfinal c w ds) as (s' & ds'' & H1 & H2 & H3 & H4); [done..|].
    exists 1%nat, s', ds''. cbn in *. rewrite H1. split_and!; auto; lia.
Qed.

(** Output past the frame limit between two polls: the final drain drops it
    and the end of file is announced all the same. *)
Lemma proc_final_drops s p :
  fresh s <> [] -> encode (RStreamFrame (fresh s)) = Some p -> DEFAULT_MAX_FRAME_BYTES < zlen p ->
  proc_final s = (write_agent_message (p_out s) (RStreamEnd StreamEof)).1.
Proof.
  intros Hne He Hlt. unfold proc_final. destruct (fresh s) as [|b chunk] eqn:Hf; [done|].
  unfold write_agent_message at 2, write_frame. rewrite He.
  assert (Hl : zlen (replicate HEADER_LEN x00 ++ p) - Z.of_nat HEADER_LEN = zlen p)
    by (unfold zlen; rewrite length_app, length_replicate; lia).
  rewrite Hl. change (Z.min DEFAULT_MAX_FRAME_BYTES u32_max) with DEFAULT_MAX_FRAME_BYTES.
  by destruct (Z.ltb_spec DEFAULT_MAX_FRAME_BYTES (zlen p)); [|lia].
Qed.

(** The slot is in the table with both drain threads unjoined. *)
Definition tracked (h : process_handle) (a : agent_state) : Prop :=
  exists slot, processes a !! h = Some slot /\ stdout_join slot = true /\ stderr_join slot = true.

Lemma tracked_not_done h ch a : tracked h a -> drain_done h ch a = false.
Proof.
  intros (slot & Hs & Ho & He). unfold drain_done. rewrite Hs. destruct ch; simpl; by rewrite ?Ho, ?He.
Qed.

Definition keeps_tracked (h : process_handle) (l : proc_label) : Prop :=
  match l with TablesBecome a => tracked h a | _ => True end.

(** Nothing but a wait ends a process stream. While the process's slot
    stays in the table as [run_async] filed it, the stream never announces an
    end, however long ago the process exited and its output was drained: only
    a failed write stops the loop. *)
Lemma proc_unwaited_never_ends h ch ls t w0 buf s :
  tracked h t -> Forall (keeps_tracked h) ls ->
  run_labels (proc_step h ch) ls (ProcLoop buf t 0 w0 ProcBuffer) = Some s ->
  p_pc s <> ProcFinal /\ exists ds part, sent w0 (p_out s) (frames ds) part.
Proof.
  intros Ht Hls Hrun.
  set (P := fun s => tracked h (proc_tables s) /\ proc_inv w0 s /\ p_pc s <> ProcFinal /\
    exists ds part, sent w0 (p_out s) (frames ds) part).
  apply (run_labels_invariant _ (keeps_tracked h) P) in Hrun as (_ & _ & H); auto.
  - intros l s1 s2 Hl (Htr & Hinv & Hpc & ds & part & Hsent) Hstep.
    pose proof (proc_inv_step _ _ _ _ _ _ Hinv Hstep) as Hinv'.
    destruct l as [bs|a|]; cbn [proc_step] in Hstep; [simplify_eq; unfold P; eauto 6..|].
    unfold proc_turn in Hstep. destruct (p_pc s1) eqn:Hpc1; try done.
    + destruct (fresh s1) as [|b chunk]; [simplify_eq; unfold P; simpl; eauto 6|].
      destruct Hinv as (_ & ds' & last & part' & Hs & _ & H). rewrite Hpc1 in H.
      destruct H as (-> & -> & _). rewrite app_nil_r in Hs.
      destruct (write_agent_message _ _) as [w r] eqn:Hw.
      apply (write_sent w0) with (ms := frames ds') in Hw; [|done]. simplify_eq.
      split_and!; simpl; auto; [by destruct (is_ok r)|]. destruct r as [u|e].
      * destruct Hw as [Hw _]. exists (ds' ++ [b :: chunk]), []. by rewrite frames_snoc.
      * destruct Hw as [p Hw]. eauto.
    + simplify_eq. rewrite tracked_not_done in Hinv' |- * by done. unfold P; simpl; eauto 6.
  - unfold P; split_and!; auto; [|by exists [], []; apply sent_nil].
    split; [simpl; lia|]. exists [], [], []. split_and!; [apply sent_nil|apply prefix_nil|done..].
Qed.

End streams.

(** * Handlers leave the drain threads in the slots they track *)

Definition joins_kept (a : agent_state) : Prop :=
  map_Forall (fun _ slot => stdout_join slot = true /\ stderr_join slot = true) (processes a).

Lemma joins_kept_tracked h a : joins_kept a -> is_Some (processes a !! h) -> tracked h a.
Proof. intros Ha [slot Hs]. destruct (Ha _ _ Hs). by exists slot. Qed.

Section keeps.
Context {os : Type} `{!Os os}.

Definition keeps_joins {A} (x : m os A) : Prop :=
  forall w w' r, x w = Some (w', r) -> joins_kept w.1 -> joins_kept w'.1.

Lemma kj_ret {A} (x : A) : keeps_joins (mret x).
Proof. by intros w w' r [= <- _]. Qed.
Lemma kj_bind {A B} (x : m os A) (f : A -> m os B) :
  keeps_joins x -> (forall a, keeps_joins (f a)) -> keeps_joins (x ≫= f).
Proof.
  intros Hx Hf w w' r. unfold mbind, m_bind. destruct (x w) as [[w1 a]|] eqn:E; [|done].
  intros E2 Hw. eapply Hf; eauto.
Qed.
Lemma kj_os {A} (f : os -> os * A) : keeps_joins (on_os f).
Proof. intros w w' r. unfold on_os. destruct (f w.2). by intros [= <- _]. Qed.
Lemma kj_of_os {A} (f : os -> A) : keeps_joins (of_os f).
Proof. by intros w w' r [= <- _]. Qed.
Lemma kj_do_os f : keeps_joins (do_os (os := os) f).
Proof. by intros w w' r [= <- _]. Qed.
Lemma kj_of_state {A} (f : agent_state -> A) : keeps_joins (of_state (os := os) f).
Proof. by intros w w' r [= <- _]. Qed.
Lemma kj_block {A} (f : os -> option (os * A)) : keeps_joins (block_os f).
Proof. intros w w' r. unfold block_os. destruct (f w.2) as [[]|]; [|done]. by intros [= <- _]. Qed.
Lemma kj_state {A} (f : agent_state -> agent_state * A) :
  (forall a, joins_kept a -> joins_kept (f a).1) -> keeps_joins (on_state (os := os) f).
Proof.
  intros Hf w w' r. unfold on_state. specialize (Hf w.1). destruct (f w.1) as [a v].
  intros [= <- _]. exact Hf.
Qed.

Lemma kj_same {A} (f : agent_state -> agent_state * A) :
  (forall a, processes (f a).1 = processes a) -> keeps_joins (on_state (os := os) f).
Proof. intros Hf. apply kj_state. intros a. unfold joins_kept. by rewrite Hf. Qed.

Lemma kj_insert_process slot :
  stdout_join slot = true -> stderr_join slot = true ->
  keeps_joins (on_state (os := os) (insert_process slot)).
Proof. intros Ho He. apply kj_state. intros a Ha. by apply map_Forall_insert_2. Qed.

Lemma kj_take_process h : keeps_joins (on_state (os := os) (take_process h)).
Proof. apply kj_state. intros a Ha. by apply map_Forall_delete. Qed.

Lemma kj_with_process {R} h (f : process_slot -> process_slot * R) :
  (forall slot, stdout_join (f slot).1 = stdout_join slot /\ stderr_join (f slot).1 = stderr_join slot) ->
  keeps_joins (on_state (os := os) (with_process_mut h f)).
Proof.
  intros Hf. apply kj_state. intros a Ha. unfold with_process_mut.
  destruct (processes a !! h) as [slot|] eqn:E; [|done]. specialize (Hf slot). destruct (Ha _ _ E).
  destruct (f slot) as [slot' r]. apply map_Forall_insert_2; [|done]. simpl in *. by destruct Hf as [-> ->].
Qed.
End keeps.

Create HintDb joins.
#[export] Hint Resolve kj_ret kj_os kj_of_os kj_do_os kj_of_state kj_block kj_take_process : joins.

Ltac keep :=
  lazymatch goal with
  | |- keeps_joins (_ ≫= _) => apply kj_bind; [keep|intros; keep]
  | |- keeps_joins (match ?x with _ => _ end) => destruct x; keep
  | |- keeps_joins (on_state (insert_process _)) => by apply kj_insert_process
  | |- keeps_joins (on_state (with_process_mut _ _)) => by apply kj_with_process
  | |- keeps_joins (on_state _) => first [by auto with joins|by apply kj_same]
  | |- _ => auto with joins
  end.

Section keeps_dispatch.
Context {os : Type} `{!Os os}.

Lemma kj_exec_run a : keeps_joins (exec_run (os := os) a).
Proof. unfold exec_run, wait_with_capture, kill_process_group. keep. Qed.
Hint Resolve kj_exec_run : joins.

Lemma kj_exec_all l : keeps_joins (exec_all (os := os) l).
Proof. induction l; cbn [exec_all]; keep. Qed.
Hint Resolve kj_exec_all : joins.

Lemma kj_poll_child fuel pid d : keeps_joins (poll_child (os := os) fuel pid d).
Proof. induction fuel as [|fuel IH]; cbn [poll_child]; unfold kill_process_group; [done|]. keep. Qed.
Hint Resolve kj_poll_child : joins.

Lemma kj_poll_worker fuel c i d : keeps_joins (poll_worker (os := os) fuel c i d).
Proof. induction fuel as [|fuel IH]; cbn [poll_worker]; [done|]. keep. Qed.
Hint Resolve kj_poll_worker : joins.

Lemma kj_dispatch_short fuel op : keeps_joins (dispatch_short (os := os) fuel op).
Proof.
  destruct op; cbn [dispatch_short]; try (solve [keep]);
    unfold open_file, read, write, close, read_file, write_file, stat, run_async, get_time, set_time,
      sleep_clock, advance_clock, syscall, run_syscall, read_mem, spawn, worker_exe, worker_exec,
      worker_join, reap_worker, worker_run_async, worker_open_file, worker_syscall,
      worker_syscall_begin, worker_syscall_await, worker_kill, listdir, mkdir, unlink, rename, seek,
      ioctl, wait, worker_wait, join_drain, kill, get_pid, proc_stdin_write, proc_stdin_close,
      proc_status, relay_process_op, relay_to, with_file; keep.
Qed.

(** No operation unfiles a drain thread but together with its slot. *)
Lemma dispatch_keeps_joins fuel op : keeps_joins (dispatch (os := os) fuel op).
Proof.
  destruct op; cbn [dispatch]; try (apply kj_bind; [apply kj_dispatch_short|intros; apply kj_ret]);
    try apply kj_ret.
  apply kj_bind; [|intros; apply kj_ret].
  induction items as [|op items IH]; cbn [dispatch_all]; [apply kj_ret|].
  apply kj_bind; [apply kj_dispatch_short|intros]. apply kj_bind; [done|intros; apply kj_ret].
Qed.
End keeps_dispatch.

(** * Witnesses *)

(** A small codec for the messages of the streams. *)
Definition demo_encode (x : agent_message) : option bytes :=
  match x with
  | RStreamFrame d => Some (x01 :: d)
  | RStreamEnd StreamEof => Some [x02]
  | RTailFile (Ok _) => Some [x03]
  | RProcStream (Ok _) => Some [x04]
  | _ => None
  end.

Lemma demo_frames_fit d : zlen d <= READ_CHUNK -> fits demo_encode (RStreamFrame d).
Proof.
  intros Hd. exists (x01 :: d). split; [done|].
  change (zlen (x01 :: d)) with (Z.of_nat (S (length d))). unfold zlen, READ_CHUNK, DEFAULT_MAX_FRAME_BYTES in *. lia.
Qed.

(** A file of two bytes tailed from its second one; two bytes are appended
    after the loop has slept once, and come out one at a time. *)
Definition demo_tail : tail_loop :=
  TailLoop (str "ab") 1 (Writer [] None) TailRead.
Definition demo_before : list tail_label :=
  [ReadGives 1; ReadGives 0; Appended (str "cd"); StatGives true true].
Definition demo_turns : list tail_label := [ReadGives 1; ReadGives 1; ReadGives 0].

Lemma tail_delivers_witness :
  exists s s', run_labels (tail_step demo_encode) demo_before demo_tail = Some s /\
    run_labels (tail_step demo_encode) demo_turns s = Some s' /\
    running s' /\ exists ds, sent demo_encode (Writer [] None) (t_out s') (frames ds) [] /\
      List.concat ds = drop 1 (content s) /\ content s' = content s.
Proof.
  do 2 eexists. split; [by vm_compute|]. split; [by vm_compute|].
  apply (tail_delivers demo_encode demo_before demo_turns 1 (Writer [] None) (str "ab")).
  - exact demo_frames_fit.
  - reflexivity.
  - simpl; lia.
  - do 2 (constructor; [by left|]). constructor; [right; by eexists|]. constructor; [by left|constructor].
  - by vm_compute.
  - by repeat constructor.
  - apply Nat.ltb_lt. by vm_compute.
  - by vm_compute.
Defined.

(** A process whose slot a wait removed after it wrote two bytes. *)
Definition demo_slot_tables : agent_state :=
  put_process (ProcessHandle 1) (ProcessSlot (Some 42) true true (Some 42)) agent_new.
Definition demo_proc : list proc_label := [Turn; Pumped (str "hi"); Turn; TablesBecome agent_new].

Lemma proc_delivers_witness :
  exists s, run_labels (proc_step demo_encode (ProcessHandle 1) Stdout) demo_proc
      (ProcLoop [] demo_slot_tables 0 (Writer [] None) ProcBuffer) = Some s /\
    exists n s' ds, (n <= 4)%nat /\
      run_labels (proc_step demo_encode (ProcessHandle 1) Stdout) (replicate n Turn) s = Some s' /\
      p_pc s' = ProcEnded /\
      sent demo_encode (Writer [] None) (p_out s') (frames ds ++ [RStreamEnd StreamEof]) [] /\
      List.concat ds = proc_buf s.
Proof.
  eexists. split; [by vm_compute|].
  apply (proc_delivers demo_encode (ProcessHandle 1) Stdout demo_proc demo_slot_tables (Writer [] None) []).
  - by vm_compute.
  - by vm_compute.
  - by vm_compute.
  - reflexivity.
  - by exists [x02].
  - intros d Hd. apply demo_frames_fit. etransitivity; [exact Hd|]. unfold READ_CHUNK. simpl. unfold zlen; simpl. lia.
Defined.

Lemma proc_unwaited_never_ends_witness :
  exists s, run_labels (proc_step demo_encode (ProcessHandle 1) Stdout) [Pumped (str "hi"); Turn; Turn; Turn; Turn; Turn]
      (ProcLoop [] demo_slot_tables 0 (Writer [] None) ProcBuffer) = Some s /\
    p_pc s <> ProcFinal /\
    exists ds part, sent demo_encode (Writer [] None) (p_out s) (frames ds) part.
Proof.
  eexists. split; [by vm_compute|].
  apply (proc_unwaited_never_ends demo_encode (ProcessHandle 1) Stdout
    [Pumped (str "hi"); Turn; Turn; Turn; Turn; Turn] demo_slot_tables (Writer [] None) []).
  - by exists (ProcessSlot (Some 42) true true (Some 42)).
  - by repeat constructor.
  - by vm_compute.
Defined.

(** A wait that starts while the process still runs takes the slot out of the
    table: the stream announces a clean end before the process's last output. *)
Example wait_cuts_the_stream :
  run_labels (proc_step demo_encode (ProcessHandle 1) Stdout)
    [Pumped (str "a"); Turn; Turn; TablesBecome (take_process (ProcessHandle 1) demo_slot_tables).1;
     Turn; Turn; Pumped (str "b")]
    (ProcLoop [] demo_slot_tables 0 (Writer [] None) ProcBuffer) =
  Some (ProcLoop (str "ab") agent_new 1
    (Writer (frame_of [x01; x61] ++ frame_of [x02]) None) ProcEnded).
Proof. by vm_compute. Qed.

(** A handle's end of file is not the end of its stream: only closing the
    handle is. *)
Example fd_stream_idles_at_eof :
  run_labels (fd_step demo_encode (FileHandle 1))
    [FdGives (Ok (str "x")); FdGives (Ok []); FdWakes; FdGives (Ok []); FdTables agent_new; FdWakes]
    (FdLoop (put_file (FileHandle 1) 3 agent_new) (Writer [] None) FdRead) =
  Some (FdLoop agent_new (Writer (frame_of [x01; x78] ++ frame_of [x02]) None) FdEnded).
Proof. by vm_compute. Qed.
