(* ===== verification/Qmp.v ===== *)
(** The QEMU monitor client of [src/provium-qmp/src]: commands matched to
    their replies by id while other threads send, time out or close, and the
    event log with its marks. *)
From stdpp Require Import pretty.
From S2P Require Import Prelude.

Open Scope string_scope.
Open Scope Z_scope.

(** * JSON values, as [serde_json] hands them over *)

#[warnings="-register-all"]
Inductive json :=
| JNull
| JBool (b : bool)
| JNum (z : Z)
| JFloat (digits : string)
| JStr (s : string)
| JArr (l : list json)
| JObj (fields : list (string * json)).

(** [Value::get] with a string key. *)
Definition jget (k : string) (v : json) : option json :=
  match v with
  | JObj fields => snd <$> list_find (fun kv => kv.1 = k) fields ≫= (fun x => Some x.2)
  | _ => None
  end.

Definition as_str (v : json) : option string := match v with JStr s => Some s | _ => None end.
Definition as_bool (v : json) : option bool := match v with JBool b => Some b | _ => None end.

(** An [i64] field: an integer in range, never a float. *)
Definition as_i64 (v : json) : option Z :=
  match v with
  | JNum z => if (-9223372036854775808 <=? z) && (z <=? 9223372036854775807) then Some z else None
  | _ => None
  end.

(** * Errors *)

Inductive qmp_error :=
| QIo (k : string)
| QDecode
| QCommand (command class desc : string)
| QClosed (reason : string)
| QTimeout (d : Z)
| QGuestShutdownTimeout (d : Z)
| QHandshake (msg : string).

Definition is_terminal (e : qmp_error) : bool :=
  match e with QClosed _ | QIo _ => true | _ => false end.

(** * Events ([event.rs]) *)

Record event := Event { ev_name : string; ev_data : json; timestamp_ns : Z }.

Definition sat64 (z : Z) : Z := Z.max (-9223372036854775808) (Z.min 9223372036854775807 z).

(** [WireTimestamp::to_ns]. *)
Definition to_ns (seconds microseconds : Z) : Z :=
  sat64 (sat64 (seconds * 1000000000) + sat64 (microseconds * 1000)).

(** A [WireTimestamp] from an object with both fields, or, as a derived
    [Deserialize] also takes it, from an array of exactly two. *)
Definition wire_timestamp (v : json) : option (Z * Z) :=
  match v with
  | JArr [s; us] => s' ← as_i64 s; us' ← as_i64 us; Some (s', us')
  | JObj _ =>
      s ← jget "seconds" v ≫= as_i64;
      us ← jget "microseconds" v ≫= as_i64;
      Some (s, us)
  | _ => None
  end.

(** [serde_json::from_value::<WireEvent>] and its conversion. *)
Definition wire_event (v : json) : option event :=
  name ← jget "event" v ≫= as_str;
  ts ← jget "timestamp" v ≫= wire_timestamp;
  Some (Event name (default JNull (jget "data" v)) (to_ns ts.1 ts.2)).

(** * Time budgets ([deadline.rs]) *)

Record budget := Budget { started : Z; timeout : Z }.

(** [Budget::remaining] at the instant [now]. *)
Definition remaining (b : budget) (now : Z) : result Z qmp_error :=
  let r := Z.max 0 (timeout b - (now - started b)) in
  if r =? 0 then Err (QTimeout (timeout b)) else Ok r.

(** * The connection's state ([connection.rs]) *)

Inductive raw_response :=
| Return (v : json)
| RError (class desc : string)
| RClosed (reason : string).

Record event_log := EventLog { events : list event; log_closed : bool; close_reason : string }.

(** [stream] is the writer's socket when it is in its slot. *)
Record writer_slot := WriterSlot { stream : bool; busy : bool; w_closed : bool }.

(** [pending] maps an id to the command name and the call to answer. *)
Record inner := Inner { writer : writer_slot; pending : gmap string (string * Z); log : event_log }.

Definition inner_new : inner := Inner (WriterSlot true false false) ∅ (EventLog [] false "").

(** [allocate_id]: [c{n}]. *)
Definition id_of (n : Z) : string := "c" +:+ pretty (Z.to_N n).

(** The reply to hand to a pending call. *)
Definition classify (command : string) (v : json) : raw_response :=
  match jget "return" v with
  | Some ret => Return ret
  | None =>
      match jget "error" v with
      | Some err => RError (default "Unknown" (jget "class" err ≫= as_str))
                      (default "" (jget "desc" err ≫= as_str))
      | None => RError "MalformedResponse"
          ("QMP reply had neither `return` nor `error` for command `" +:+ command +:+ "`")
      end
  end.

(** [handle_line] once the line is parsed ([None]: empty or not JSON): the
    state, and the call to answer with what. It never asks for a tear-down. *)
Definition handle_line (value : option json) (s : inner) : inner * option (Z * raw_response) :=
  match value with
  | None => (s, None)
  | Some v =>
      match jget "event" v with
      | Some _ =>
          match wire_event v with
          | Some e =>
              (Inner (writer s) (pending s)
                 (EventLog (events (log s) ++ [e]) (log_closed (log s)) (close_reason (log s))), None)
          | None => (s, None)
          end
      | None =>
          match jget "id" v ≫= as_str with
          | None => (s, None)
          | Some id =>
              match pending s !! id with
              | None => (s, None)
              | Some (command, call) =>
                  (Inner (writer s) (delete id (pending s)) (log s), Some (call, classify command v))
              end
          end
      end
  end.

(** The three critical sections of [Inner::shutdown]. *)
Definition close_writer (s : inner) : inner :=
  Inner (WriterSlot false (busy (writer s)) true) (pending s) (log s).
Definition close_log (reason : string) (s : inner) : inner :=
  if log_closed (log s) then s
  else Inner (writer s) (pending s) (EventLog (events (log s)) true reason).
Definition drain_pending (s : inner) : inner * list Z :=
  (Inner (writer s) ∅ (log s), snd <$> (map_to_list (pending s)).*2).

(** Around [deadline::send] in [Inner::send]: take the socket, give it back. *)
Definition take_stream (s : inner) : inner :=
  Inner (WriterSlot false true (w_closed (writer s))) (pending s) (log s).
Definition return_stream (s : inner) : inner :=
  let slot := writer s in
  Inner (WriterSlot (if w_closed slot then stream slot else true) false (w_closed slot)) (pending s) (log s).

Definition add_pending (n : Z) (cmd : string) (s : inner) : inner :=
  Inner (writer s) (<[id_of n := (cmd, n)]> (pending s)) (log s).
Definition forget_pending (n : Z) (s : inner) : inner :=
  Inner (writer s) (delete (id_of n) (pending s)) (log s).

(** * Calls of [execute_timeout] *)

(** Where a call is: registered and waiting for the writer, sending, sent but
    not yet listening, listening for its reply, back with a result. *)
Inductive phase :=
| Registered
| Sending
| Written
| Waiting
| Finished (r : result json qmp_error).

(** [reply]: what its one-slot channel holds; [due]: its time budget. *)
Record call := Call { command : string; due : budget; at_phase : phase; reply : option raw_response }.

(** What [execute_timeout] makes of the reply to its command. *)
Definition result_of (cmd : string) (r : raw_response) : result json qmp_error :=
  match r with
  | Return v => Ok v
  | RError class desc => Err (QCommand cmd class desc)
  | RClosed reason => Err (QClosed reason)
  end.

Definition active (c : call) : bool :=
  match at_phase c with Finished _ => false | _ => true end.

Definition set_phase (p : phase) (c : call) : call := Call (command c) (due c) p (reply c).

(** [reply_to.send]: lost when the receiver has gone. *)
Definition deliver (r : raw_response) (c : call) : call :=
  if active c then Call (command c) (due c) (at_phase c) (Some r) else c.

(** How [deadline::send] can fail. *)
Definition send_fault (b : budget) (e : qmp_error) : Prop :=
  e = QTimeout (timeout b) \/ e = QDecode \/ exists k, e = QIo k.

(** The whole client: its state, its calls, the replies taken from [pending]
    and on their way to a channel, the next id, whether a shutdown has drained
    [pending], and every line the reader has parsed. *)
Record client := Client {
  state : inner;
  calls : gmap Z call;
  mail : gmap Z raw_response;
  next_id : Z;
  drained : bool;
  seen : list json;
}.

(** The reasons [shutdown] is called with. *)
Definition shutdown_reasons : list string :=
  ["QMP send failed or timed out"; "peer closed connection"; "reader I/O error"; "explicit close";
   "Qmp dropped without close()"].

Definition client_init : client := Client inner_new ∅ ∅ 1 false [].

Definition set_call (n : Z) (c : call) (s : inner) (x : client) : client :=
  Client s (<[n := c]> (calls x)) (mail x) (next_id x) (drained x) (seen x).
Definition set_state (s : inner) (x : client) : client :=
  Client s (calls x) (mail x) (next_id x) (drained x) (seen x).

Definition mail_all (r : raw_response) (ns : list Z) (m : gmap Z raw_response) : gmap Z raw_response :=
  foldr (fun n acc => <[n := r]> acc) m ns.

(** One critical section of any of the client's threads: the callers, the
    reader, whoever shuts down. *)
Inductive step : client -> client -> Prop :=
(** a call registers itself *)
| Begin x cmd b :
    next_id x < u64_max ->
    step x (Client (add_pending (next_id x) cmd (state x))
              (<[next_id x := Call cmd b Registered None]> (calls x))
              (mail x) (next_id x + 1) (drained x) (seen x))
(** the writer is free and open: its socket is taken *)
| Take x n c :
    calls x !! n = Some c -> at_phase c = Registered ->
    busy (writer (state x)) = false -> w_closed (writer (state x)) = false ->
    step x (set_call n (set_phase Sending c) (take_stream (state x)) x)
(** the writer is closed *)
| Refuse x n c :
    calls x !! n = Some c -> at_phase c = Registered -> w_closed (writer (state x)) = true ->
    step x (set_call n (set_phase (Finished (Err (QClosed "write on closed connection"))) c)
              (forget_pending n (state x)) x)
(** the budget ran out before the writer was taken *)
| GiveUp x n c now e :
    calls x !! n = Some c -> at_phase c = Registered -> w_closed (writer (state x)) = false ->
    remaining (due c) now = Err e ->
    step x (set_call n (set_phase (Finished (Err e)) c) (forget_pending n (state x)) x)
(** the line was written *)
| Sent x n c :
    calls x !! n = Some c -> at_phase c = Sending ->
    step x (set_call n (set_phase Written c) (return_stream (state x)) x)
(** the write failed, and this call's own shutdown has run *)
| SendFailed x n c e :
    calls x !! n = Some c -> at_phase c = Sending -> drained x = true -> send_fault (due c) e ->
    step x (set_call n (set_phase (Finished (Err e)) c) (forget_pending n (return_stream (state x))) x)
(** the budget is checked once more, reply or not *)
| Listen x n c now left :
    calls x !! n = Some c -> at_phase c = Written -> remaining (due c) now = Ok left ->
    step x (set_call n (set_phase Waiting c) (state x) x)
| TooLate x n c now e :
    calls x !! n = Some c -> at_phase c = Written -> remaining (due c) now = Err e ->
    step x (set_call n (set_phase (Finished (Err e)) c) (forget_pending n (state x)) x)
(** the reply is taken from the channel *)
| Receive x n c r :
    calls x !! n = Some c -> at_phase c = Waiting -> reply c = Some r ->
    step x (set_call n (set_phase (Finished (result_of (command c) r)) c) (state x) x)
(** the wait ran out with the channel empty *)
| Expire x n c :
    calls x !! n = Some c -> at_phase c = Waiting -> reply c = None ->
    step x (set_call n (set_phase (Finished (Err (QTimeout (timeout (due c))))) c)
              (forget_pending n (state x)) x)
(** the channel is empty and nobody holds its sender any more *)
| Disconnected x n c :
    calls x !! n = Some c -> at_phase c = Waiting -> reply c = None ->
    pending (state x) !! id_of n = None -> mail x !! n = None ->
    step x (set_call n (set_phase (Finished (Err (QClosed "response channel disconnected"))) c)
              (state x) x)
(** the reader handles a line, with a call to answer or without *)
| Line x v s n r :
    handle_line (Some v) (state x) = (s, Some (n, r)) ->
    step x (Client s (calls x) (<[n := r]> (mail x)) (next_id x) (drained x) (v :: seen x))
| QuietLine x v s :
    handle_line (Some v) (state x) = (s, None) ->
    step x (Client s (calls x) (mail x) (next_id x) (drained x) (v :: seen x))
(** a reply on its way reaches its channel, which must have room *)
| Post x n c r :
    mail x !! n = Some r -> calls x !! n = Some c -> active c = false \/ reply c = None ->
    step x (Client (state x) (<[n := deliver r c]> (calls x)) (delete n (mail x)) (next_id x)
              (drained x) (seen x))
(** a shutdown's sections, in order: a failed send, the peer closing, a reader
    error, an explicit close or a drop *)
| CloseWriter x : step x (set_state (close_writer (state x)) x)
| CloseLog x reason :
    reason ∈ shutdown_reasons -> w_closed (writer (state x)) = true ->
    step x (set_state (close_log reason (state x)) x)
| Drain x reason :
    reason ∈ shutdown_reasons -> w_closed (writer (state x)) = true -> log_closed (log (state x)) = true ->
    step x (Client (drain_pending (state x)).1 (calls x)
              (mail_all (RClosed reason) (drain_pending (state x)).2 (mail x))
              (next_id x) true (seen x)).

Definition reachable (x : client) : Prop := rtc step client_init x.

(** ** Invariants *)

Lemma id_of_inj n m : 0 <= n -> 0 <= m -> id_of n = id_of m -> n = m.
Proof.
  unfold id_of. intros Hn Hm E. apply (inj _) in E. apply (inj pretty) in E. lia.
Qed.

(** What justifies a reply: a line that carries the call's id, or a close. *)
Definition justified (lines : list json) (n : Z) (cmd : string) (r : raw_response) : Prop :=
  (exists reason, reason ∈ shutdown_reasons /\ r = RClosed reason) \/
  exists v, v ∈ lines /\ jget "event" v = None /\ jget "id" v = Some (JStr (id_of n)) /\ r = classify cmd v.

(** Every sender of a call's channel is where it should be: in [pending] until
    the reply is decided, then on its way, then in the channel. *)
Record replies_ok (x : client) : Prop := {
  ok_next n c : calls x !! n = Some c -> 1 <= n < next_id x;
  ok_next_pos : 1 <= next_id x;
  ok_pending id cmd n : pending (state x) !! id = Some (cmd, n) ->
    id = id_of n /\ exists c, calls x !! n = Some c /\ command c = cmd /\ active c = true /\
      reply c = None /\ mail x !! n = None;
  ok_active n c : calls x !! n = Some c -> active c = true -> reply c = None -> mail x !! n = None ->
    pending (state x) !! id_of n = Some (command c, n);
  ok_mail n r : mail x !! n = Some r ->
    exists c, calls x !! n = Some c /\ reply c = None /\ justified (seen x) n (command c) r;
  ok_replies n c r : calls x !! n = Some c -> reply c = Some r -> justified (seen x) n (command c) r;
}.

(** The writer's permit. *)
Record writer_ok (x : client) : Prop := {
  ok_idle : busy (writer (state x)) = false -> w_closed (writer (state x)) = false ->
    stream (writer (state x)) = true;
  ok_sender n c : calls x !! n = Some c -> at_phase c = Sending -> busy (writer (state x)) = true;
  ok_single n m c d : calls x !! n = Some c -> calls x !! m = Some d ->
    at_phase c = Sending -> at_phase d = Sending -> n = m;
}.

(** Once a shutdown has drained [pending], a call that got past the writer has
    its reply, or it is on its way. *)
Record drained_ok (x : client) : Prop := {
  ok_drained : drained x = true -> w_closed (writer (state x)) = true;
  ok_served n c : drained x = true -> calls x !! n = Some c -> active c = true ->
    at_phase c <> Registered -> is_Some (reply c) \/ is_Some (mail x !! n);
}.

(** What a finished call may have returned. *)
Definition outcome_ok (c : call) (r : result json qmp_error) : Prop :=
  (exists rr, reply c = Some rr /\ r = result_of (command c) rr) \/
  r = Err (QClosed "write on closed connection") \/
  exists e, r = Err e /\ send_fault (due c) e.

Definition results_ok (x : client) : Prop :=
  forall n c r, calls x !! n = Some c -> at_phase c = Finished r -> outcome_ok c r.

Lemma justified_more lines v n cmd r : justified lines n cmd r -> justified (v :: lines) n cmd r.
Proof. intros [?|(w & Hw & Hrest)]; [by left|right; exists w; split; [by right|done]]. Qed.

Lemma mail_all_lookup r ns m n :
  mail_all r ns m !! n = if bool_decide (n ∈ ns) then Some r else m !! n.
Proof.
  induction ns as [|k ns IH]; [done|].
  change (mail_all r (k :: ns) m) with (<[k := r]> (mail_all r ns m)).
  destruct (decide (n = k)) as [->|Hne].
  - by rewrite lookup_insert_eq, bool_decide_eq_true_2 by set_solver.
  - rewrite lookup_insert_ne, IH by done.
    rewrite (bool_decide_ext (n ∈ k :: ns) (n ∈ ns)); [done|].
    rewrite elem_of_cons. split; [by intros [?|?]|by right].
Qed.

Lemma drained_calls s n :
  n ∈ (drain_pending s).2 <-> exists id cmd, pending s !! id = Some (cmd, n).
Proof.
  unfold drain_pending. simpl. rewrite list_elem_of_fmap. split.
  - intros ([cmd k] & E1 & Hin). apply list_elem_of_fmap in Hin as ([id y] & E2 & Hin).
    apply elem_of_map_to_list in Hin. simplify_eq/=. by exists id, cmd.
  - intros (id & cmd & H). exists (cmd, n). split; [done|]. apply list_elem_of_fmap.
    exists (id, (cmd, n)). split; [done|]. by apply elem_of_map_to_list.
Qed.

(** A handled line takes at most one entry, the one it names. *)
Lemma handle_line_some v s s' n r :
  handle_line (Some v) s = (s', Some (n, r)) ->
  exists id cmd, pending s !! id = Some (cmd, n) /\ jget "event" v = None /\
    jget "id" v = Some (JStr id) /\ r = classify cmd v /\
    s' = Inner (writer s) (delete id (pending s)) (log s).
Proof.
  unfold handle_line. destruct (jget "event" v) eqn:Ev; [by case_match|].
  destruct (jget "id" v) as [j|] eqn:Eid; simpl; [|done].
  destruct j as [| | | |id| |]; simpl; try done.
  destruct (pending s !! id) as [[cmd k]|] eqn:Ep; [|done].
  intros [= <- <- <-]. eauto 10.
Qed.

Lemma handle_line_none v s s' :
  handle_line (Some v) s = (s', None) -> pending s' = pending s /\ writer s' = writer s.
Proof. unfold handle_line. repeat case_match; intros; by simplify_eq. Qed.

Definition finished (p : phase) : bool := match p with Finished _ => true | _ => false end.

(** An active call moves on: it stays registered in [pending], or it is over
    and its entry is gone. *)
Lemma replies_move x n c p s :
  replies_ok x -> calls x !! n = Some c -> active c = true ->
  (pending s = pending (state x) /\ (finished p = true -> is_Some (reply c)) \/
   pending s = delete (id_of n) (pending (state x)) /\ finished p = true) ->
  replies_ok (set_call n (set_phase p c) s x).
Proof.
  intros Hok Hc Ha Hs. pose proof (ok_next x Hok n c Hc) as Hn.
  assert (Hp : forall id cmd k, pending s !! id = Some (cmd, k) ->
            pending (state x) !! id = Some (cmd, k) /\ (k = n -> finished p = false)).
  { intros id cmd k Hk. destruct Hs as [[E Hfin]|[E Hf]]; rewrite E in Hk.
    - split; [done|]. intros ->. destruct (finished p) eqn:Ef; [|done].
      destruct (Hfin eq_refl) as [rr Hr].
      destruct (ok_pending x Hok _ _ _ Hk) as (_ & d & Hd & _ & _ & Hd' & _). congruence.
    - apply lookup_delete_Some in Hk as [Hne Hk]. split; [done|]. intros ->.
      destruct (ok_pending x Hok _ _ _ Hk) as [-> _]. done. }
  split; simpl.
  - intros k d Hd. destruct (decide (k = n)) as [->|Hne]; [done|].
    rewrite lookup_insert_ne in Hd by done. by apply (ok_next x Hok k d).
  - apply (ok_next_pos x Hok).
  - intros id cmd k Hk. destruct (Hp _ _ _ Hk) as [Hk' Hf].
    destruct (ok_pending x Hok _ _ _ Hk') as (-> & d & Hd & Hrest). split; [done|].
    destruct (decide (k = n)) as [->|Hne]; [|exists d; by rewrite lookup_insert_ne by done].
    rewrite lookup_insert_eq. exists (set_phase p c). assert (d = c) as -> by congruence.
    split; [done|]. specialize (Hf eq_refl).
    destruct Hrest as (? & _ & ? & ?). unfold active. simpl. by destruct p.
  - intros k d Hd Hda Hr Hm. destruct (decide (k = n)) as [->|Hne].
    + rewrite lookup_insert_eq in Hd. simplify_eq/=.
      destruct Hs as [[-> _]|[_ Hf]]; [by apply (ok_active x Hok)|].
      unfold active in Hda. simpl in Hda. by destruct p.
    + rewrite lookup_insert_ne in Hd by done.
      pose proof (ok_active x Hok k d Hd Hda Hr Hm) as Hk.
      destruct Hs as [[-> _]|[-> _]]; [done|]. rewrite lookup_delete_ne; [done|].
      intros E. pose proof (ok_next x Hok k d Hd). apply id_of_inj in E; lia.
  - intros k r Hk. destruct (ok_mail x Hok k r Hk) as (d & Hd & Hrest).
    destruct (decide (k = n)) as [->|Hne]; [|exists d; by rewrite lookup_insert_ne by done].
    rewrite lookup_insert_eq. exists (set_phase p c). by assert (d = c) as -> by congruence.
  - intros k d r Hd Hr. destruct (decide (k = n)) as [->|Hne].
    + rewrite lookup_insert_eq in Hd. simplify_eq/=. by apply (ok_replies x Hok).
    + rewrite lookup_insert_ne in Hd by done. by apply (ok_replies x Hok k d).
Qed.

(** Steps that leave the calls, the replies and [pending] alone. *)
Lemma replies_frame x s lines :
  replies_ok x -> pending s = pending (state x) ->
  (forall n cmd r, justified (seen x) n cmd r -> justified lines n cmd r) ->
  replies_ok (Client s (calls x) (mail x) (next_id x) (drained x) lines).
Proof.
  intros Hok Hs Hj. split; simpl; rewrite ?Hs; try apply Hok.
  - intros n r Hr. destruct (ok_mail x Hok n r Hr) as (c & ? & ? & ?). eauto.
  - intros n c r Hc Hr. by apply Hj, (ok_replies x Hok n c).
Qed.

Lemma replies_begin x cmd b :
  replies_ok x ->
  replies_ok (Client (add_pending (next_id x) cmd (state x))
    (<[next_id x := Call cmd b Registered None]> (calls x)) (mail x) (next_id x + 1) (drained x) (seen x)).
Proof.
  intros Hok. pose proof (ok_next_pos x Hok) as Hpos.
  assert (Hfresh : calls x !! next_id x = None).
  { destruct (calls x !! next_id x) eqn:E; [|done]. apply (ok_next x Hok) in E. lia. }
  assert (Hnomail : mail x !! next_id x = None).
  { destruct (mail x !! next_id x) eqn:E; [|done].
    destruct (ok_mail x Hok _ _ E) as (c & Hc & _). congruence. }
  split; simpl.
  - intros n c Hc. destruct (decide (n = next_id x)) as [->|Hne]; [lia|].
    rewrite lookup_insert_ne in Hc by done. apply (ok_next x Hok) in Hc. lia.
  - lia.
  - intros id cmd' n Hp. destruct (decide (id = id_of (next_id x))) as [->|Hne].
    + rewrite lookup_insert_eq in Hp. simplify_eq. split; [done|].
      rewrite lookup_insert_eq. by eexists.
    + rewrite lookup_insert_ne in Hp by done.
      destruct (ok_pending x Hok _ _ _ Hp) as (-> & c & Hc & Hrest). split; [done|].
      exists c. by rewrite lookup_insert_ne by congruence.
  - intros n c Hc Ha Hr Hm. destruct (decide (n = next_id x)) as [->|Hne].
    + rewrite lookup_insert_eq in Hc. simplify_eq/=. by rewrite lookup_insert_eq.
    + rewrite lookup_insert_ne in Hc by done. pose proof (ok_next x Hok n c Hc).
      rewrite lookup_insert_ne; [by apply (ok_active x Hok)|].
      intros E. apply id_of_inj in E; lia.
  - intros n r Hm. destruct (ok_mail x Hok n r Hm) as (c & Hc & Hrest).
    exists c. by rewrite lookup_insert_ne by congruence.
  - intros n c r Hc Hr. destruct (decide (n = next_id x)) as [->|Hne].
    + rewrite lookup_insert_eq in Hc. by simplify_eq.
    + rewrite lookup_insert_ne in Hc by done. by apply (ok_replies x Hok n c).
Qed.

Lemma replies_line x v s n r :
  replies_ok x -> handle_line (Some v) (state x) = (s, Some (n, r)) ->
  replies_ok (Client s (calls x) (<[n := r]> (mail x)) (next_id x) (drained x) (v :: seen x)).
Proof.
  intros Hok (id & cmd & Hp & Hev & Hid & -> & ->)%handle_line_some.
  destruct (ok_pending x Hok _ _ _ Hp) as (-> & c & Hc & Hcmd & Ha & Hr & Hm).
  split; simpl; try apply Hok.
  - intros id' cmd' k [Hne Hk]%lookup_delete_Some.
    destruct (ok_pending x Hok _ _ _ Hk) as (-> & d & Hd & ? & ? & ? & ?). split; [done|].
    exists d. rewrite lookup_insert_ne by (intros ->; done). done.
  - intros k d Hd Hda Hdr [Hkm Hne]%lookup_insert_None.
    pose proof (ok_active x Hok k d Hd Hda Hdr Hkm) as Hk. rewrite lookup_delete_ne; [done|].
    intros E. pose proof (ok_next x Hok k d Hd). pose proof (ok_next x Hok n c Hc).
    apply id_of_inj in E; lia.
  - intros k rr [[<- <-]|[Hne Hk]]%lookup_insert_Some.
    + exists c. split; [done|]. split; [done|]. right. exists v. subst cmd. by split; [left|].
    + destruct (ok_mail x Hok k rr Hk) as (d & ? & ? & ?). eauto using justified_more.
  - intros k d rr Hd Hdr. by apply justified_more, (ok_replies x Hok k d).
Qed.

Lemma replies_post x n c r :
  replies_ok x -> mail x !! n = Some r -> calls x !! n = Some c ->
  replies_ok (Client (state x) (<[n := deliver r c]> (calls x)) (delete n (mail x)) (next_id x)
                (drained x) (seen x)).
Proof.
  intros Hok Hm Hc. destruct (ok_mail x Hok n r Hm) as (c' & Hc' & Hr & Hj).
  assert (c' = c) by congruence. subst c'.
  assert (Hcmd : command (deliver r c) = command c) by (unfold deliver; by destruct (active c)).
  split; simpl.
  - intros k d [[<- <-]|[Hne Hd]]%lookup_insert_Some; [by apply (ok_next x Hok n c)|].
    by apply (ok_next x Hok k d).
  - apply (ok_next_pos x Hok).
  - intros id cmd k Hk. destruct (ok_pending x Hok _ _ _ Hk) as (-> & d & Hd & ? & ? & ? & ?).
    split; [done|]. exists d. assert (n <> k) by congruence.
    by rewrite lookup_insert_ne, lookup_delete_ne by done.
  - intros k d [[<- <-]|[Hne Hd]]%lookup_insert_Some Hda Hdr Hkm.
    + unfold deliver in Hda, Hdr. destruct (active c) eqn:Ea; [done|congruence].
    + rewrite lookup_delete_ne in Hkm by done. by apply (ok_active x Hok).
  - intros k rr [Hne Hk]%lookup_delete_Some. destruct (ok_mail x Hok k rr Hk) as (d & Hd & ?).
    exists d. by rewrite lookup_insert_ne by done.
  - intros k d rr [[<- <-]|[Hne Hd]]%lookup_insert_Some Hdr; [|by apply (ok_replies x Hok k d)].
    rewrite Hcmd. unfold deliver in Hdr. destruct (active c) eqn:Ea; simpl in Hdr; [congruence|congruence].
Qed.

Lemma replies_drain x reason :
  reason ∈ shutdown_reasons -> replies_ok x ->
  replies_ok (Client (drain_pending (state x)).1 (calls x)
    (mail_all (RClosed reason) (drain_pending (state x)).2 (mail x)) (next_id x) true (seen x)).
Proof.
  intros Hreason Hok. split; simpl; try apply Hok.
  - intros id cmd n H. by rewrite lookup_empty in H.
  - intros n c Hc Ha Hr Hm. rewrite mail_all_lookup in Hm.
    case_bool_decide as Hin; [done|]. exfalso. apply Hin, drained_calls.
    exists (id_of n), (command c). by apply (ok_active x Hok).
  - intros n r Hm. rewrite mail_all_lookup in Hm. case_bool_decide as Hin.
    + apply drained_calls in Hin as (id & cmd & Hp).
      destruct (ok_pending x Hok _ _ _ Hp) as (_ & c & Hc & _ & _ & Hr & _).
      exists c. split; [done|]. split; [done|]. left. exists reason. split; [done|congruence].
    + by apply (ok_mail x Hok).
Qed.

Lemma no_disconnect x n c :
  replies_ok x -> calls x !! n = Some c -> at_phase c = Waiting -> reply c = None ->
  pending (state x) !! id_of n = None -> mail x !! n = None -> False.
Proof.
  intros Hok Hc Hw Hr Hp Hm.
  rewrite (ok_active x Hok n c Hc) in Hp; [done|unfold active; by rewrite Hw|done|done].
Qed.

Lemma replies_ok_step x y : step x y -> replies_ok x -> replies_ok y.
Proof.
  assert (Hact : forall c p, at_phase c = p -> finished p = false -> active c = true).
  { intros c p Hp Hf. unfold active. rewrite Hp. by destruct p. }
  destruct 1; intros Hok; eauto using replies_begin, replies_line, replies_post, replies_drain;
    try (eapply replies_move; [done..|by eapply Hact|simpl; first [by left|by eauto|by right]]).
  - exfalso. by eapply no_disconnect.
  - apply handle_line_none in H as [Hs _]. by apply replies_frame; eauto using justified_more.
  - by apply replies_frame.
  - apply replies_frame; [done| |done]. unfold close_log. by case_match.
Qed.

(** ** The writer's permit *)

Definition sends (c : call) : bool := match at_phase c with Sending => true | _ => false end.

Lemma sends_spec c : sends c = true <-> at_phase c = Sending.
Proof. unfold sends. by destruct (at_phase c). Qed.

(** A call that is not sending moves to a phase other than sending, and the
    writer keeps its permit. *)
Lemma writer_frame x y :
  writer_ok x -> (forall n c, calls y !! n = Some c -> at_phase c = Sending ->
                    exists d, calls x !! n = Some d /\ at_phase d = Sending) ->
  (writer (state y) = writer (state x) \/ writer (state y) = writer (close_writer (state x))) ->
  writer_ok y.
Proof.
  intros Hok Hc Hw. split.
  - destruct Hw as [->| ->]; [apply Hok|done].
  - intros n c Hn Hs. destruct (Hc n c Hn Hs) as (d & Hd & Hds).
    pose proof (ok_sender x Hok n d Hd Hds). by destruct Hw as [->| ->].
  - intros n m c d Hn Hm Hs Ht.
    destruct (Hc n c Hn Hs) as (c' & ? & ?). destruct (Hc m d Hm Ht) as (d' & ? & ?).
    by eapply (ok_single x Hok).
Qed.

(** The sender gives its permit back. *)
Lemma writer_return x n c p s :
  writer_ok x -> calls x !! n = Some c -> at_phase c = Sending -> p <> Sending ->
  writer s = writer (return_stream (state x)) ->
  writer_ok (set_call n (set_phase p c) s x).
Proof.
  intros Hok Hc Hs Hp Hw.
  assert (Hnone : forall k d, <[n := set_phase p c]> (calls x) !! k = Some d -> at_phase d <> Sending).
  { intros k d [[<- <-]|[Hne Hd]]%lookup_insert_Some; [done|]. intros Hds.
    by pose proof (ok_single x Hok n k c d Hc Hd Hs Hds). }
  split; simpl; rewrite ?Hw; simpl.
  - intros _ ->. done.
  - intros k d Hd Hds. by destruct (Hnone k d Hd).
  - intros k m d e Hd _ Hds. by destruct (Hnone k d Hd).
Qed.

Lemma writer_take x n c :
  writer_ok x -> calls x !! n = Some c -> busy (writer (state x)) = false ->
  writer_ok (set_call n (set_phase Sending c) (take_stream (state x)) x).
Proof.
  intros Hok Hc Hb.
  assert (Hn : forall k d, <[n := set_phase Sending c]> (calls x) !! k = Some d -> at_phase d = Sending ->
            k = n).
  { intros k d [[<- <-]|[Hne Hd]]%lookup_insert_Some Hs; [done|].
    pose proof (ok_sender x Hok k d Hd Hs). congruence. }
  split; simpl; [done|done|].
  intros k m d e Hd He Hds Hes. rewrite (Hn k d), (Hn m e); done.
Qed.

(** The calls that send are those of before. *)
Lemma senders_kept x n c' :
  at_phase c' <> Sending ->
  forall k d, <[n := c']> (calls x) !! k = Some d -> at_phase d = Sending ->
    exists e, calls x !! k = Some e /\ at_phase e = Sending.
Proof. intros Hp k d [[<- <-]|[Hne Hd]]%lookup_insert_Some Hs; [done|eauto]. Qed.

Lemma writer_ok_step x y : step x y -> writer_ok x -> writer_ok y.
Proof.
  destruct 1; intros Hok; try (by apply writer_take); try (by eapply writer_return);
    try (eapply writer_frame; [done|by eapply senders_kept|by left]);
    try (eapply writer_frame; [done|by eauto|by eauto]).
  - apply handle_line_some in H as (id & cmd & _ & _ & _ & _ & ->).
    eapply writer_frame; [done|by eauto|by left].
  - apply handle_line_none in H as [_ Hw]. eapply writer_frame; [done|by eauto|by left].
  - eapply writer_frame; [done| |by left]. simpl.
    intros k d [[<- <-]|[Hne Hd]]%lookup_insert_Some Hs; [|by eauto].
    exists c. split; [done|]. unfold deliver in Hs. by destruct (active c).
  - eapply writer_frame; [done|by eauto|left]. simpl. unfold close_log. by case_match.
Qed.

(** ** After a shutdown *)

(** A closed writer stays closed. *)
Lemma closed_stays x y :
  step x y -> w_closed (writer (state x)) = true -> w_closed (writer (state y)) = true.
Proof.
  destruct 1; intros Hc; try done.
  - by apply handle_line_some in H as (id & cmd & _ & _ & _ & _ & ->).
  - apply handle_line_none in H as [_ Hw]. simpl. by rewrite Hw.
  - simpl. unfold close_log. by case_match.
Qed.

Lemma drained_move x n c p s :
  drained_ok x -> calls x !! n = Some c ->
  (finished p = true \/ active c = true /\ at_phase c <> Registered \/
   w_closed (writer (state x)) = false) ->
  (w_closed (writer (state x)) = true -> w_closed (writer s) = true) ->
  drained_ok (set_call n (set_phase p c) s x).
Proof.
  intros Hok Hc Hp Hw. split; simpl.
  - intros Hd. by apply Hw, (ok_drained x Hok).
  - intros k d Hd [[<- <-]|[Hne Hk]]%lookup_insert_Some Ha Hr; [|by apply (ok_served x Hok k d)].
    destruct Hp as [Hf|[[Hca Hcr]|Hcl]].
    + unfold active in Ha. simpl in Ha. by destruct p.
    + by apply (ok_served x Hok n c).
    + apply (ok_drained x Hok) in Hd. congruence.
Qed.

Lemma drained_frame x s ml lines :
  drained_ok x -> (forall n, is_Some (mail x !! n) -> is_Some (ml !! n)) ->
  (w_closed (writer (state x)) = true -> w_closed (writer s) = true) ->
  drained_ok (Client s (calls x) ml (next_id x) (drained x) lines).
Proof.
  intros Hok Hm Hw. split; simpl.
  - intros Hd. by apply Hw, (ok_drained x Hok).
  - intros n c Hd Hc Ha Hr. destruct (ok_served x Hok n c Hd Hc Ha Hr); eauto.
Qed.

Lemma drained_ok_step x y : step x y -> replies_ok x -> drained_ok x -> drained_ok y.
Proof.
  intros Hst Hr Hok. pose proof (closed_stays x y Hst) as Hw.
  destruct Hst; try (apply drained_frame; by auto);
    try (apply drained_move; [done|done| |done]; try (by left); right;
         first [by right|left; split; [unfold active; by rewrite H0|by rewrite H0]]).
  - split; simpl; [by apply (ok_drained x Hok)|].
    intros n c Hd [[<- <-]|[Hne Hc]]%lookup_insert_Some Ha Hnr; [done|by apply (ok_served x Hok n c)].
  - apply drained_frame; [done| |done]. intros k Hk. rewrite lookup_insert_is_Some'. by right.
  - split; simpl; [by apply (ok_drained x Hok)|].
    intros k d Hd [[<- <-]|[Hne Hc]]%lookup_insert_Some Ha Hnr.
    + unfold deliver. unfold deliver in Ha. destruct (active c) eqn:Ea; [left; by eexists|congruence].
    + rewrite lookup_delete_ne by done. by apply (ok_served x Hok k d).
  - split; simpl; [done|]. intros n c _ Hc Ha _. rewrite mail_all_lookup.
    destruct (reply c) eqn:Er; [left; by eexists|right]. case_bool_decide as Hin; [by eexists|].
    destruct (mail x !! n) eqn:Em; [by eexists|]. exfalso. apply Hin, drained_calls.
    exists (id_of n), (command c). by apply (ok_active x Hr).
Qed.

(** ** Results *)

Lemma results_move x n c p s :
  results_ok x -> calls x !! n = Some c ->
  (forall r, p = Finished r -> outcome_ok c r) -> results_ok (set_call n (set_phase p c) s x).
Proof.
  intros Hok Hc Hp k d r Hd Hr. simpl in Hd. apply lookup_insert_Some in Hd as [[<- <-]|[Hne Hd]];
    [by apply Hp|by eapply Hok].
Qed.

Lemma remaining_fault b now e : remaining b now = Err e -> send_fault b e.
Proof. unfold remaining. case_match; intros; simplify_eq. by left. Qed.

Lemma fault_outcome c e : send_fault (due c) e -> outcome_ok c (Err e).
Proof. intros He. right. right. eauto. Qed.

Lemma results_ok_step x y : step x y -> replies_ok x -> results_ok x -> results_ok y.
Proof.
  destruct 1; intros Hr Hok; try done; try (apply results_move; [done|done|by intros]);
    try (apply results_move; [done|done|]; intros rr [= <-]).
  - intros k d r Hd Hf. simpl in Hd. apply lookup_insert_Some in Hd as [[<- <-]|[Hne Hd]]; [done|by eapply Hok].
  - right. by left.
  - by eapply fault_outcome, remaining_fault.
  - by apply fault_outcome.
  - by eapply fault_outcome, remaining_fault.
  - left. eauto.
  - apply fault_outcome. by left.
  - exfalso. by eapply no_disconnect.
  - intros k d rr Hd Hf. simpl in Hd. apply lookup_insert_Some in Hd as [[<- <-]|[Hne Hd]]; [|by eapply Hok].
    unfold deliver in *. destruct (active c) eqn:Ea; [|by eapply Hok].
    unfold active in Ea. simpl in Hf. by rewrite Hf in Ea.
Qed.

Record client_ok (x : client) : Prop := {
  ok_r : replies_ok x; ok_w : writer_ok x; ok_d : drained_ok x; ok_res : results_ok x }.

Lemma client_ok_init : client_ok client_init.
Proof. split; split || intros ?; simpl; intros; (done || lia || set_solver). Qed.

Lemma client_reachable_ok x : reachable x -> client_ok x.
Proof.
  apply (rtc_ind_r client_ok client_init); [apply client_ok_init|].
  intros y z _ Hs [? ? ? ?].
  split; eauto using replies_ok_step, writer_ok_step, drained_ok_step, results_ok_step.
Qed.

(** A reply on its way can be handed over at once and then taken. *)
Lemma waiting_completes x n c :
  replies_ok x -> calls x !! n = Some c -> at_phase c = Waiting ->
  is_Some (reply c) \/ is_Some (mail x !! n) ->
  exists y c' r, rtc step x y /\ calls y !! n = Some c' /\
    at_phase c' = Finished (result_of (command c) r).
Proof.
  intros Hok Hc Hw [[r Hr]|[r Hm]].
  - eexists _, _, r. split; [apply rtc_once, (Receive x n c r); done|].
    simpl. by rewrite lookup_insert_eq.
  - destruct (ok_mail x Hok n r Hm) as (c' & Hc' & Hr & _).
    assert (c' = c) by congruence. subst c'.
    assert (Hd : deliver r c = Call (command c) (due c) Waiting (Some r))
      by (unfold deliver, active; by rewrite Hw).
    eexists _, _, r. split.
    + eapply rtc_l; [apply (Post x n c r); auto|].
      apply rtc_once, (Receive _ n (deliver r c) r); simpl; rewrite Hd; [|done..].
      by rewrite lookup_insert_eq.
    + simpl. rewrite lookup_insert_eq. split; [done|]. by rewrite Hd.
Qed.

(** ** The client's promises *)

(** C8: once a shutdown has drained the pending calls, no caller is left to
    its timeout. One that still wants the writer is refused at once; one that
    waits can be given a reply and take it with no further help from the
    monitor; one that is between the two has its reply already, or on its way. *)
Theorem shutdown_releases_callers x n c :
  reachable x -> drained x = true -> calls x !! n = Some c ->
  match at_phase c with
  | Registered =>
      exists y d, step x y /\ calls y !! n = Some d /\
        at_phase d = Finished (Err (QClosed "write on closed connection"))
  | Waiting =>
      exists y d r, rtc step x y /\ calls y !! n = Some d /\
        at_phase d = Finished (result_of (command c) r)
  | Sending | Written => is_Some (reply c) \/ is_Some (mail x !! n)
  | Finished _ => True
  end.
Proof.
  intros [Hr _ Hd _]%client_reachable_ok Hdr Hc.
  destruct (at_phase c) eqn:Hp; [| | | |done].
  - eexists _, _. split; [by apply (Refuse x n c); [..|apply (ok_drained x Hd)]|].
    simpl. by rewrite lookup_insert_eq.
  - apply (ok_served x Hd n c); [done|done|unfold active|]; by rewrite Hp.
  - apply (ok_served x Hd n c); [done|done|unfold active|]; by rewrite Hp.
  - apply waiting_completes; [done..|]. apply (ok_served x Hd n c); [done|done|unfold active|]; by rewrite Hp.
Qed.

(** C9: a call returns its own answer. A value or a command error comes from a
    line of the monitor that carries this call's id, a close is one of the
    client's own, a timeout is the call's; else its command could not be sent or
    its reply not be decoded. A call never returns an error of the handshake or
    of a guest shutdown, and never finds its channel abandoned. *)
Theorem reply_matches_call x n c r :
  reachable x -> calls x !! n = Some c -> at_phase c = Finished r ->
  match r with
  | Ok v => exists line, line ∈ seen x /\ jget "event" line = None /\
      jget "id" line = Some (JStr (id_of n)) /\ jget "return" line = Some v
  | Err (QCommand cmd class desc) => cmd = command c /\
      exists line, line ∈ seen x /\ jget "event" line = None /\
        jget "id" line = Some (JStr (id_of n)) /\ jget "return" line = None /\
        classify cmd line = RError class desc
  | Err (QClosed reason) => reason = "write on closed connection" \/ reason ∈ shutdown_reasons
  | Err (QTimeout d) => d = timeout (due c)
  | Err (QIo _) | Err QDecode => True
  | Err (QGuestShutdownTimeout _) | Err (QHandshake _) => False
  end.
Proof.
  intros [Hr _ _ Hres]%client_reachable_ok Hc Hp.
  destruct (Hres n c r Hc Hp) as [(rr & Hrr & ->)|[->|(e & -> & [->|[->|[k ->]]])]]; [|by left|done..].
  destruct (ok_replies x Hr n c rr Hc Hrr) as [(reason & ? & ->)|(v & ? & ? & ? & ->)]; [by right|].
  unfold classify. destruct (jget "return" v) as [ret|] eqn:Er; simpl; [by eauto|].
  destruct (jget "error" v) eqn:Ee; simpl; (split; [done|]); exists v; rewrite Er, ?Ee; auto.
Qed.

(** At most one call is writing, so command lines are never interleaved; a
    free and open writer owns its socket, so taking it cannot panic; and the
    channel of a reply on its way has room, so the reader and a shutdown never
    block on a caller. *)
Lemma writer_exclusive x :
  reachable x ->
  (forall n m c d, calls x !! n = Some c -> calls x !! m = Some d ->
     at_phase c = Sending -> at_phase d = Sending -> n = m) /\
  (busy (writer (state x)) = false -> w_closed (writer (state x)) = false ->
     stream (writer (state x)) = true) /\
  (forall n r, mail x !! n = Some r -> exists c, calls x !! n = Some c /\ reply c = None).
Proof.
  intros [Hr Hw _ _]%client_reachable_ok. split; [apply (ok_single x Hw)|split; [apply (ok_idle x Hw)|]].
  intros n r (c & ? & ? & _)%(ok_mail x Hr). eauto.
Qed.

(** ** Two runs: a command answered, and the same command caught by a shutdown *)

Definition demo_line : json := JObj [("return", JObj [("status", JStr "running")]); ("id", JStr "c1")].
Definition demo_call (p : phase) (r : option raw_response) : call := Call "query-status" (Budget 0 30) p r.
Definition demo_sent : client :=
  let x1 := Client (add_pending 1 "query-status" inner_new) (<[1 := demo_call Registered None]> ∅) ∅ 2 false [] in
  let x2 := set_call 1 (demo_call Sending None) (take_stream (state x1)) x1 in
  let x3 := set_call 1 (demo_call Written None) (return_stream (state x2)) x2 in
  set_call 1 (demo_call Waiting None) (state x3) x3.

Definition demo_replied : client :=
  let r := classify "query-status" demo_line in
  let s := (handle_line (Some demo_line) (state demo_sent)).1 in
  let x5 := Client s (calls demo_sent) (<[1 := r]> ∅) 2 false [demo_line] in
  let x6 := Client s (<[1 := demo_call Waiting (Some r)]> (calls x5)) (delete 1 (mail x5)) 2 false [demo_line] in
  set_call 1 (demo_call (Finished (result_of "query-status" r)) (Some r)) s x6.

Definition demo_closed : client :=
  let x5 := set_state (close_writer (state demo_sent)) demo_sent in
  let x6 := set_state (close_log "explicit close" (state x5)) x5 in
  Client (drain_pending (state x6)).1 (calls x6)
    (mail_all (RClosed "explicit close") (drain_pending (state x6)).2 (mail x6)) 2 true [].

Lemma demo_sent_reachable : reachable demo_sent.
Proof.
  eapply rtc_l; [apply (Begin client_init "query-status" (Budget 0 30)); done|].
  eapply rtc_l; [eapply (Take _ 1 (demo_call Registered None)); vm_compute; reflexivity|].
  eapply rtc_l; [eapply (Sent _ 1 (demo_call Sending None)); vm_compute; reflexivity|].
  eapply rtc_l; [eapply (Listen _ 1 (demo_call Written None) 0 30); vm_compute; reflexivity|].
  apply rtc_refl.
Qed.

Lemma demo_replied_reachable : reachable demo_replied.
Proof.
  apply (transitivity demo_sent_reachable).
  eapply rtc_l; [apply (Line demo_sent demo_line (handle_line (Some demo_line) (state demo_sent)).1 1 (classify "query-status" demo_line)); vm_compute; reflexivity|].
  eapply rtc_l.
  { eapply (Post _ 1 (demo_call Waiting None)); [vm_compute; reflexivity..|by right]. }
  eapply rtc_l; [eapply (Receive _ 1 (demo_call Waiting (Some (classify "query-status" demo_line)))); vm_compute; reflexivity|].
  apply rtc_refl.
Qed.

Lemma demo_closed_reachable : reachable demo_closed.
Proof.
  apply (transitivity demo_sent_reachable).
  eapply rtc_l; [apply CloseWriter|].
  eapply rtc_l; [apply (CloseLog _ "explicit close"); [by repeat constructor|reflexivity]|].
  eapply rtc_l; [apply (Drain _ "explicit close"); [by repeat constructor|reflexivity..]|].
  apply rtc_refl.
Qed.

Lemma shutdown_releases_callers_witness :
  exists y d r, rtc step demo_closed y /\ calls y !! 1 = Some d /\
    at_phase d = Finished (result_of "query-status" r).
Proof.
  refine (shutdown_releases_callers demo_closed 1 (demo_call Waiting None) demo_closed_reachable _ _);
    vm_compute; reflexivity.
Defined.

Lemma reply_matches_call_witness :
  exists line, line ∈ seen demo_replied /\ jget "event" line = None /\
    jget "id" line = Some (JStr (id_of 1)) /\ jget "return" line = Some (JObj [("status", JStr "running")]).
Proof.
  refine (reply_matches_call demo_replied 1
    (demo_call (Finished (Ok (JObj [("status", JStr "running")]))) (Some (classify "query-status" demo_line)))
    (Ok (JObj [("status", JStr "running")])) demo_replied_reachable _ _);
    vm_compute; reflexivity.
Defined.

Lemma writer_exclusive_witness : stream (writer (state demo_sent)) = true.
Proof. apply (writer_exclusive demo_sent demo_sent_reachable); vm_compute; reflexivity. Defined.
