(* ===== verification/QmpEvents.v ===== *)
(** Waiting for monitor events in [src/provium-qmp/src/connection.rs]:
    [event_mark], [wait_event] and the typed commands that end with one. *)
From S2P Require Import Prelude Qmp.

Open Scope string_scope.
Open Scope Z_scope.

(** * [event_mark], [scan_for_match] *)

Definition event_mark (l : event_log) : nat := length (events l).

Definition matches (name : string) (predicate : event -> bool) (e : event) : bool :=
  String.eqb (ev_name e) name && predicate e.

(** [events.get(since..)] is [None] past the end; both ways nothing is found. *)
Definition scan_for_match (evs : list event) (since : nat) (name : string) (predicate : event -> bool)
  : option event :=
  if (since <=? length evs)%nat then find (matches name predicate) (drop since evs) else None.

(** * [wait_event] *)

(** What happens when it has found nothing: the budget is gone, or it sleeps
    and wakes up to this log, told that time is up or not. *)
Inductive wake :=
| NoBudget
| Woken (l : event_log)
| TimedOut (l : event_log).

(** The loop, over the wake-ups it meets; [None]: still waiting after them. *)
Fixpoint wait_event (name : string) (predicate : event -> bool) (next_event : nat) (timeout : Z)
    (l : event_log) (wakes : list wake) : option (result event qmp_error) :=
  match scan_for_match (events l) next_event name predicate with
  | Some found => Some (Ok found)
  | None =>
      let next_event := Nat.max next_event (length (events l)) in
      if log_closed l then Some (Err (QClosed (close_reason l)))
      else
        match wakes with
        | [] => None
        | NoBudget :: _ => Some (Err (QTimeout timeout))
        | TimedOut l' :: _ =>
            match scan_for_match (events l') next_event name predicate with
            | Some found => Some (Ok found)
            | None => Some (Err (QTimeout timeout))
            end
        | Woken l' :: rest => wait_event name predicate next_event timeout l' rest
        end
  end.

(** [powerdown_and_wait], from the log at its mark, the outcome of its
    command, and the log as it starts to wait. *)
Definition guest_shutdown (e : event) : bool :=
  bool_decide (jget "guest" (ev_data e) ≫= as_bool = Some true) &&
  bool_decide (jget "reason" (ev_data e) ≫= as_str = Some "guest-shutdown").

Definition powerdown_and_wait (at_mark : event_log) (executed : result json qmp_error) (timeout : Z)
    (l : event_log) (wakes : list wake) : option (result unit qmp_error) :=
  match executed with
  | Err e => Some (Err e)
  | Ok _ =>
      match wait_event "SHUTDOWN" guest_shutdown (event_mark at_mark) timeout l wakes with
      | Some (Ok _) => Some (Ok ())
      | Some (Err (QTimeout d)) => Some (Err (QGuestShutdownTimeout d))
      | Some (Err e) => Some (Err e)
      | None => None
      end
  end.

(** [wait_migration_completed]. *)
Definition migration_over (e : event) : bool :=
  match jget "status" (ev_data e) ≫= as_str with
  | Some s => String.eqb s "completed" || String.eqb s "failed"
  | None => false
  end.

Definition wait_migration_completed (since : nat) (timeout : Z) (l : event_log) (wakes : list wake)
  : option (result unit qmp_error) :=
  match wait_event "MIGRATION" migration_over since timeout l wakes with
  | None => None
  | Some (Err e) => Some (Err e)
  | Some (Ok e) =>
      let status := default "(unknown)" (jget "status" (ev_data e) ≫= as_str) in
      Some (if String.eqb status "completed" then Ok ()
            else Err (QCommand "migrate" "MigrationFailed"
                        ("MIGRATION ended with status `" +:+ status +:+ "`")))
  end.

(** [query_status], from the outcome of its command. *)
Definition query_status (executed : result json qmp_error) : result string qmp_error :=
  match executed with
  | Err e => Err e
  | Ok v => Ok (default "unknown" (jget "status" v ≫= as_str))
  end.

(** * Specification *)

(** The logs a wait looks at; the log only ever grows. *)
Definition wake_log (w : wake) : option event_log :=
  match w with NoBudget => None | Woken l | TimedOut l => Some l end.

Fixpoint grows (l : event_log) (wakes : list wake) : Prop :=
  match wakes with
  | [] => True
  | w :: rest =>
      match wake_log w with
      | None => grows l rest
      | Some l' => events l `prefix_of` events l' /\ grows l' rest
      end
  end.

(** [e] is the first match at or after [since]; there is none. *)
Definition first_match (name : string) (p : event -> bool) (since : nat) (evs : list event) (e : event) : Prop :=
  exists i, (since <= i)%nat /\ evs !! i = Some e /\ matches name p e = true /\
    forall j d, (since <= j < i)%nat -> evs !! j = Some d -> matches name p d = false.

Definition no_match (name : string) (p : event -> bool) (since : nat) (evs : list event) : Prop :=
  forall j d, (since <= j)%nat -> evs !! j = Some d -> matches name p d = false.

Lemma find_first {A} (p : A -> bool) l a :
  find p l = Some a -> exists i, l !! i = Some a /\ p a = true /\
    forall j b, (j < i)%nat -> l !! j = Some b -> p b = false.
Proof.
  induction l as [|x l IH]; simpl; [done|]. destruct (p x) eqn:Hx.
  - intros [= <-]. exists 0%nat. split; [done|]. split; [done|]. intros; lia.
  - intros (i & Hi & Ha & Hb)%IH. exists (S i). split; [done|]. split; [done|].
    intros [|j] b Hj Hl; simpl in Hl; [congruence|]. eapply Hb; [|done]. lia.
Qed.

(** Scanning from past a clean part finds what scanning from the mark would. *)
Lemma scan_exact evs since next name p :
  (since <= next)%nat ->
  (forall j d, (since <= j < next)%nat -> evs !! j = Some d -> matches name p d = false) ->
  match scan_for_match evs next name p with
  | Some e => first_match name p since evs e
  | None => no_match name p since evs
  end.
Proof.
  intros Hle Hclean. unfold scan_for_match. destruct (Nat.leb_spec next (length evs)) as [Hn|Hn].
  - destruct (find _ _) as [e|] eqn:Hf.
    + apply find_first in Hf as (i & Hi & He & Hb). rewrite lookup_drop in Hi.
      exists (next + i)%nat. split; [lia|]. split; [done|]. split; [done|].
      intros j d Hj Hd. destruct (decide (j < next)%nat); [apply (Hclean j d); [lia|done]|].
      apply (Hb (j - next)%nat); [lia|]. rewrite lookup_drop.
      by replace (next + (j - next))%nat with j by lia.
    + intros j d Hj Hd. destruct (decide (j < next)%nat); [apply (Hclean j d); [lia|done]|].
      apply (List.find_none _ _ Hf), list_elem_of_In, list_elem_of_lookup. exists (j - next)%nat.
      rewrite lookup_drop. by replace (next + (j - next))%nat with j by lia.
  - intros j d Hj Hd. apply (Hclean j); [|done]. apply lookup_lt_Some in Hd. lia.
Qed.

(** What a result says of the log it was decided on. *)
Definition verdict_ok (name : string) (p : event -> bool) (since : nat) (timeout : Z)
    (r : result event qmp_error) (l : event_log) : Prop :=
  match r with
  | Ok e => first_match name p since (events l) e
  | Err (QClosed reason) => no_match name p since (events l) /\ log_closed l = true /\ reason = close_reason l
  | Err (QTimeout d) => no_match name p since (events l) /\ d = timeout
  | Err _ => False
  end.

Definition logs_of (l : event_log) (wakes : list wake) : list event_log := l :: omap wake_log wakes.

Lemma no_match_clean name p since evs :
  no_match name p since evs ->
  forall evs' next j d, evs `prefix_of` evs' -> (next <= Nat.max since (length evs))%nat ->
    (since <= j < next)%nat -> evs' !! j = Some d -> matches name p d = false.
Proof.
  intros Hno evs' next j d [tl ->] Hnext Hj Hd.
  rewrite lookup_app_l in Hd by lia. apply (Hno j); [lia|done].
Qed.

Lemma wait_event_from name p since timeout wakes :
  forall l next, grows l wakes -> (since <= next <= Nat.max since (length (events l)))%nat ->
  (forall j d, (since <= j < next)%nat -> events l !! j = Some d -> matches name p d = false) ->
  match wait_event name p next timeout l wakes with
  | Some r => exists l', l' ∈ logs_of l wakes /\ verdict_ok name p since timeout r l'
  | None => forall l', l' ∈ logs_of l wakes -> no_match name p since (events l') /\ log_closed l' = false
  end.
Proof.
  unfold logs_of. induction wakes as [|w wakes IH]; intros l next Hg Hle Hclean;
    pose proof (scan_exact (events l) since next name p ltac:(lia) Hclean) as Hs; simpl;
    destruct (scan_for_match (events l) next name p) as [e|];
    try (exists l; split; [by left|done]);
    destruct (log_closed l) eqn:Hcl; try (exists l; split; [by left|done]).
  - intros l' ->%list_elem_of_singleton. done.
  - pose proof (no_match_clean _ _ _ _ Hs) as Hc. destruct w as [|l'|l']; simpl in Hg |- *.
    + exists l. split; [by left|done].
    + destruct Hg as [Hpre Hg]. pose proof (prefix_length _ _ Hpre).
      specialize (IH l' (Nat.max next (length (events l))) Hg ltac:(lia)).
      specialize (IH ltac:(intros j d Hj Hd; apply (Hc _ (Nat.max next (length (events l))) j d Hpre); [lia|lia|done])).
      destruct (wait_event _ _ _ _ l' wakes).
      * destruct IH as (l2 & Hin & Hv). exists l2. split; [by right|done].
      * intros l2 [->|Hin]%elem_of_cons; [done|by apply IH].
    + destruct Hg as [Hpre _].
      pose proof (scan_exact (events l') since (Nat.max next (length (events l))) name p ltac:(lia)) as Hs'.
      specialize (Hs' ltac:(intros j d Hj Hd; apply (Hc _ (Nat.max next (length (events l))) j d Hpre); [lia|lia|done])).
      destruct (scan_for_match (events l') _ name p); exists l'; (split; [by right; left|done]).
Qed.

(** * Promises *)

(** C25: a wait for an event is decided exactly. While the log only grows, what
    it returns is the first matching event at or after the mark, never one the
    mark left behind, although each wake-up scans only what is new; it says
    closed or timed out only on a log that holds no such event; and it goes on
    waiting only while every log it saw was open and had none. *)
Theorem wait_event_exact name p since timeout l wakes :
  grows l wakes ->
  match wait_event name p since timeout l wakes with
  | Some r => exists l', l' ∈ logs_of l wakes /\ verdict_ok name p since timeout r l'
  | None => forall l', l' ∈ logs_of l wakes -> no_match name p since (events l') /\ log_closed l' = false
  end.
Proof. intros Hg. apply wait_event_from; [done|lia|]. intros; lia. Qed.

Lemma wait_event_found name p since timeout l wakes e :
  grows l wakes -> wait_event name p since timeout l wakes = Some (Ok e) ->
  exists l', l' ∈ logs_of l wakes /\ first_match name p since (events l') e.
Proof.
  intros Hg E. pose proof (wait_event_from name p since timeout wakes l since Hg ltac:(lia)) as H.
  rewrite E in H. apply H. intros; lia.
Qed.

Definition status_of (e : event) : option string := jget "status" (ev_data e) ≫= as_str.

(** A migration is reported complete only when the first [MIGRATION] event
    past the mark that ends one says [completed], and failed, with that status,
    only when it says [failed]: a previous cycle's event cannot decide it. *)
Lemma migration_verdict since timeout l wakes r :
  grows l wakes -> wait_migration_completed since timeout l wakes = Some r ->
  match r with
  | Ok _ => exists l' e, l' ∈ logs_of l wakes /\
      first_match "MIGRATION" migration_over since (events l') e /\ status_of e = Some "completed"
  | Err (QCommand cmd class desc) =>
      cmd = "migrate" /\ class = "MigrationFailed" /\ desc = "MIGRATION ended with status `failed`" /\
      exists l' e, l' ∈ logs_of l wakes /\
        first_match "MIGRATION" migration_over since (events l') e /\ status_of e = Some "failed"
  | Err e => wait_event "MIGRATION" migration_over since timeout l wakes = Some (Err e)
  end.
Proof.
  intros Hg. unfold wait_migration_completed.
  pose proof (wait_event_from "MIGRATION" migration_over since timeout wakes l since Hg ltac:(lia)
                ltac:(intros; lia)) as Hw.
  destruct (wait_event _ _ _ _ _ _) as [[e|e]|] eqn:E; [| |done].
  - destruct (wait_event_found _ _ _ _ _ _ _ Hg E) as (l' & Hl & Hf). intros [= <-].
    pose proof Hf as (i & _ & _ & Hm & _). unfold matches, migration_over in Hm.
    apply andb_prop in Hm as [_ Hm]. fold (status_of e) in *.
    destruct (status_of e) as [s|] eqn:Es; [|done]. simpl.
    destruct (String.eqb_spec s "completed") as [->|Hne]; [by eauto|].
    apply String.eqb_eq in Hm as ->. by eauto 10.
  - intros [= <-]. destruct Hw as (l' & _ & Hv). by destruct e.
Qed.

(** ** A second snapshot on one connection *)

Definition demo_migration (status : string) (t : Z) : event :=
  Event "MIGRATION" (JObj [("status", JStr status)]) t.
Definition demo_log (evs : list event) : event_log := EventLog evs false "".
Definition demo_old : list event := [demo_migration "active" 1; demo_migration "completed" 2].
Definition demo_new : list event := demo_old ++ [demo_migration "active" 3; demo_migration "failed" 4].
Definition demo_wakes : list wake := [Woken (demo_log demo_old); Woken (demo_log demo_new)].

Lemma demo_grows : grows (demo_log demo_old) demo_wakes.
Proof. split; [done|]. split; [by eexists|done]. Qed.

Lemma wait_event_exact_witness :
  exists l', l' ∈ logs_of (demo_log demo_old) demo_wakes /\
    verdict_ok "MIGRATION" migration_over 2 30 (Ok (demo_migration "failed" 4)) l'.
Proof.
  exact (wait_event_exact "MIGRATION" migration_over 2 30 (demo_log demo_old) demo_wakes demo_grows).
Defined.

Lemma migration_verdict_witness :
  exists l' e, l' ∈ logs_of (demo_log demo_old) demo_wakes /\
    first_match "MIGRATION" migration_over 2 (events l') e /\ status_of e = Some "failed".
Proof.
  eapply (migration_verdict 2 30 (demo_log demo_old) demo_wakes
    (Err (QCommand "migrate" "MigrationFailed" "MIGRATION ended with status `failed`")) demo_grows).
  reflexivity.
Defined.
