(* ===== verification/QmpIo.v ===== *)
(** Bounded line I/O and the opening negotiation of
    [src/provium-qmp/src/{deadline,connection}.rs], over scripted sockets. *)
From S2P Require Import Prelude Text Qmp.

Open Scope string_scope.
Open Scope list_scope.
Open Scope Z_scope.

(** * Sockets *)

(** What a read of the socket brings: bytes (none: the peer closed), an
    interrupt, its timeout, another error. *)
Inductive fill := FData (bs : bytes) | FInterrupted | FTimedOut | FError (k : string).

(** What a write does: at most [k] bytes taken, and likewise. *)
Inductive put := PTook (k : nat) | PInterrupted | PTimedOut | PError (k : string).

(** The time, the reader's buffer, what the socket will do at each read and
    write and how long each takes, and what has been written. *)
Record conn := Conn {
  now : Z;
  rbuf : bytes;
  reads : list (Z * fill);
  writes : list (Z * put);
  sent : bytes;
}.

Abbreviation outcome A := (option (result A qmp_error * conn)).

(** * [deadline::read_line] *)

Definition newline : byte := Byte.x0a.

(** The bytes up to and with the first newline, and those after it. *)
Fixpoint split_line (bs : bytes) : option (bytes * bytes) :=
  match bs with
  | [] => None
  | b :: r =>
      if Byte.eqb b newline then Some ([b], r)
      else match split_line r with Some (l, t) => Some (b :: l, t) | None => None end
  end.

(** The newline is in: the last budget check, then the text check. *)
Definition end_line (b : budget) (line : bytes) (c : conn) : outcome bytes :=
  match remaining b (now c) with
  | Err e => Some (Err e, c)
  | Ok _ => Some (if utf8_valid line then Ok line else Err (QIo "InvalidData"), c)
  end.

(** The loop once the buffer is empty; [None]: blocked past the script. *)
Fixpoint fill_line (b : budget) (t : Z) (script : list (Z * fill)) (line : bytes)
    (ws : list (Z * put)) (out : bytes) : outcome bytes :=
  match remaining b t with
  | Err e => Some (Err e, Conn t [] script ws out)
  | Ok _ =>
      match script with
      | [] => None
      | (dt, f) :: rest =>
          let t := t + dt in
          match f with
          | FInterrupted => fill_line b t rest line ws out
          | FTimedOut => Some (Err (QTimeout (timeout b)), Conn t [] rest ws out)
          | FError k => Some (Err (QIo k), Conn t [] rest ws out)
          | FData [] => Some (Err (QClosed "EOF during QMP handshake"), Conn t [] rest ws out)
          | FData bs =>
              match split_line bs with
              | Some (l, tl) => end_line b (line ++ l) (Conn t tl rest ws out)
              | None => fill_line b t rest (line ++ bs) ws out
              end
          end
      end
  end.

Definition read_line (b : budget) (c : conn) : outcome bytes :=
  match rbuf c with
  | [] => fill_line b (now c) (reads c) [] (writes c) (sent c)
  | bs =>
      match remaining b (now c) with
      | Err e => Some (Err e, c)
      | Ok _ =>
          match split_line bs with
          | Some (l, tl) => end_line b l (Conn (now c) tl (reads c) (writes c) (sent c))
          | None => fill_line b (now c) (reads c) bs (writes c) (sent c)
          end
      end
  end.

(** * [deadline::send] *)

Fixpoint write_line (b : budget) (t : Z) (script : list (Z * put)) (rem : bytes)
    (buf : bytes) (rs : list (Z * fill)) (out : bytes) : outcome unit :=
  match rem with
  | [] => Some (match remaining b t with Ok _ => Ok () | Err e => Err e end, Conn t buf rs script out)
  | _ =>
      match remaining b t with
      | Err e => Some (Err e, Conn t buf rs script out)
      | Ok _ =>
          match script with
          | [] => None
          | (dt, p) :: rest =>
              let t := t + dt in
              match p with
              | PTook O => Some (Err (QIo "WriteZero"), Conn t buf rs rest out)
              | PTook k => write_line b t rest (drop k rem) buf rs (out ++ take k rem)
              | PInterrupted => write_line b t rest rem buf rs out
              | PTimedOut => Some (Err (QTimeout (timeout b)), Conn t buf rs rest out)
              | PError k => Some (Err (QIo k), Conn t buf rs rest out)
              end
          end
      end
  end.

(** * The negotiation *)

Section Negotiation.
(** [serde_json::from_str] and [serde_json::to_vec] of a value. *)
Context (from_str : bytes -> option json) (to_vec : json -> option bytes).

Definition send (b : budget) (v : json) (c : conn) : outcome unit :=
  match to_vec v with
  | None => Some (Err QDecode, c)
  | Some bs => write_line b (now c) (writes c) (bs ++ [newline]) (rbuf c) (reads c) (sent c)
  end.

Definition await_simple_return (cmd : string) (b : budget) (c : conn) : outcome unit :=
  match read_line b c with
  | None => None
  | Some (Err e, c) => Some (Err e, c)
  | Some (Ok line, c) =>
      match from_str line with
      | None => Some (Err QDecode, c)
      | Some v =>
          match jget "return" v with
          | Some _ => Some (Ok (), c)
          | None =>
              match jget "error" v with
              | Some err =>
                  Some (Err (QCommand cmd (default "Unknown" (jget "class" err ≫= as_str))
                               (default "" (jget "desc" err ≫= as_str))), c)
              | None =>
                  Some (Err (QHandshake ("expected `return` after `" +:+ cmd +:+ "`, got: "
                               +:+ text (trim line))), c)
              end
          end
      end
  end.

(** [x <- m; k] on outcomes. *)
Definition and_then {A B} (m : outcome A) (k : A -> conn -> outcome B) : outcome B :=
  match m with
  | None => None
  | Some (Err e, c) => Some (Err e, c)
  | Some (Ok a, c) => k a c
  end.

Definition capabilities : json := JObj [("execute", JStr "qmp_capabilities")].
Definition enable_events : json :=
  JObj [("execute", JStr "migrate-set-capabilities");
        ("arguments", JObj [("capabilities",
           JArr [JObj [("capability", JStr "events"); ("state", JBool true)]])])].

(** [handshake], up to the reader thread it starts on success. *)
Definition handshake (b : budget) (c : conn) : outcome unit :=
  and_then (read_line b c) (fun greeting c =>
  match from_str greeting with
  | None => Some (Err QDecode, c)
  | Some v =>
      match jget "QMP" v with
      | None => Some (Err (QHandshake ("expected QMP greeting, got: " +:+ text (trim greeting))), c)
      | Some _ =>
          and_then (send b capabilities c) (fun _ c =>
          and_then (await_simple_return "qmp_capabilities" b c) (fun _ c =>
          and_then (send b enable_events c) (fun _ c =>
          await_simple_return "migrate-set-capabilities" b c)))
      end
  end).

End Negotiation.

(** * A well-behaved peer *)

(** Bytes still to be read, and the time when every scripted wait is over. *)
Definition data_of (rs : list (Z * fill)) : bytes :=
  concat ((fun x => match x.2 with FData bs => bs | _ => [] end) <$> rs).
Definition unread (c : conn) : bytes := rbuf c ++ data_of (reads c).
Definition time_of {A} (l : list (Z * A)) : Z := lsum fst l.
Definition over_at (c : conn) : Z := now c + time_of (reads c) + time_of (writes c).

(** Reads bring bytes or are interrupted, writes take some or are interrupted. *)
Definition read_fine (x : Z * fill) : Prop :=
  0 <= x.1 /\ match x.2 with FData bs => bs <> [] | FInterrupted => True | _ => False end.
Definition write_fine (x : Z * put) : Prop :=
  0 <= x.1 /\ match x.2 with PTook k => (0 < k)%nat | PInterrupted => True | _ => False end.

(** How many writes will take something. *)
Definition takes (ws : list (Z * put)) : nat :=
  length (List.filter (fun x => match x.2 with PTook _ => true | _ => false end) ws).

Record healthy (b : budget) (c : conn) : Prop := {
  h_reads : Forall read_fine (reads c);
  h_writes : Forall write_fine (writes c);
  h_time : over_at c < started b + timeout b;
}.

Lemma time_nonneg {A} (P : Z * A -> Prop) l :
  (forall x, P x -> 0 <= x.1) -> Forall P l -> 0 <= time_of l.
Proof.
  intros HP. induction 1 as [|x l Hx _ IH]; [done|]. unfold time_of in *. simpl.
  specialize (HP x Hx). lia.
Qed.

Lemma reads_time rs : Forall read_fine rs -> 0 <= time_of rs.
Proof. apply time_nonneg. by intros x [? _]. Qed.
Lemma writes_time ws : Forall write_fine ws -> 0 <= time_of ws.
Proof. apply time_nonneg. by intros x [? _]. Qed.

Lemma remaining_ok b t : t < started b + timeout b -> exists left, remaining b t = Ok left.
Proof. intros H. unfold remaining. case_match; [lia|by eexists]. Qed.

(** A line: no newline but its last byte. *)
Definition is_line (l : bytes) : Prop := exists pre, l = pre ++ [newline] /\ newline ∉ pre.

Lemma split_line_app pre rest :
  newline ∉ pre -> split_line (pre ++ newline :: rest) = Some (pre ++ [newline], rest).
Proof.
  induction pre as [|x pre IH]; intros Hn; simpl; [done|].
  apply not_elem_of_cons in Hn as [Hx Hn]. rewrite IH by done.
  destruct (Byte.eqb x newline) eqn:E; [|done]. apply Byte.byte_dec_bl in E. congruence.
Qed.

Lemma split_line_none pre : newline ∉ pre -> split_line pre = None.
Proof.
  induction pre as [|x pre IH]; intros Hn; simpl; [done|].
  apply not_elem_of_cons in Hn as [Hx Hn]. rewrite IH by done.
  destruct (Byte.eqb x newline) eqn:E; [|done]. apply Byte.byte_dec_bl in E. congruence.
Qed.

(** A chunk either ends before the newline or holds it. *)
Lemma chunk_cases (bs tl pre rest : bytes) :
  bs ++ tl = pre ++ newline :: rest -> newline ∉ pre ->
  (exists more, pre = bs ++ more /\ tl = more ++ newline :: rest) \/
  exists tl', bs = pre ++ newline :: tl' /\ rest = tl' ++ tl.
Proof.
  intros E Hn. apply app_eq_app in E as [k [[-> E]|[-> E]]]; [|left; by exists k].
  destruct k as [|x k]; simpl in E.
  - left. exists []. by rewrite !app_nil_r.
  - injection E as <- ->. right. by exists k.
Qed.

(** ** Reading *)

Lemma fill_line_ok b rs : forall t line pre rest ws out,
  Forall read_fine rs -> 0 <= time_of ws -> t + time_of rs + time_of ws < started b + timeout b ->
  data_of rs = pre ++ newline :: rest -> newline ∉ pre -> utf8_valid (line ++ pre ++ [newline]) = true ->
  exists c, fill_line b t rs line ws out = Some (Ok (line ++ pre ++ [newline]), c) /\
    unread c = rest /\ Forall read_fine (reads c) /\ writes c = ws /\ sent c = out /\
    over_at c = t + time_of rs + time_of ws.
Proof.
  induction rs as [|[dt f] rs IH]; intros t line pre rest ws out Hf Hws Ht Hd Hn Hu.
  { destruct pre; discriminate Hd. }
  inversion_clear Hf as [|? ? [Hdt Hx] Hrs]. pose proof (reads_time rs Hrs) as Hrt.
  unfold time_of in Ht |- *. simpl in Ht, Hdt, Hx |- *. fold (time_of rs) (time_of ws) in *.
  destruct (remaining_ok b t) as [left ->]; [lia|].
  destruct f as [bs| | |]; try done; unfold data_of in Hd; simpl in Hd; fold (data_of rs) in Hd.
  - destruct bs as [|hd bs']; [done|]. remember (hd :: bs') as bs. clear Hx.
    destruct (chunk_cases _ _ _ _ Hd Hn) as [(more & -> & Hd')|(tl & -> & ->)].
    + apply not_elem_of_app in Hn as [Hn1 Hn2].
      destruct (IH (t + dt) (line ++ bs) more rest ws out) as (c & Hc & Hrest); [done|done|lia|done|done| |].
      { by rewrite <- !app_assoc in *. }
      rewrite (split_line_none bs Hn1). exists c. subst bs. rewrite <- !app_assoc in Hc.
      rewrite <- !app_assoc. rewrite Hc. split; [done|].
      destruct Hrest as (? & ? & ? & ? & ->). repeat split; try done. lia.
    + rewrite (split_line_app pre tl Hn). unfold end_line. simpl.
      destruct (remaining_ok b (t + dt)) as [left' ->]; [lia|]. rewrite Hu.
      destruct (pre ++ newline :: tl) eqn:E; [done|].
      eexists. split; [done|]. unfold over_at, unread. simpl. repeat split; try done. lia.
  - destruct (IH (t + dt) line pre rest ws out) as (c & Hc & Hrest); [done|done|lia|done..|].
    exists c. split; [done|]. destruct Hrest as (? & ? & ? & ? & ->). repeat split; try done. lia.
Qed.

(** However the peer's bytes are cut up, a line is read whole and what follows
    it is kept. *)
Lemma read_line_ok b c line rest :
  healthy b c -> unread c = line ++ rest -> is_line line -> utf8_valid line = true ->
  exists d, read_line b c = Some (Ok line, d) /\ healthy b d /\ unread d = rest /\
    writes d = writes c /\ sent d = sent c.
Proof.
  intros [Hr Hw Ht] Hu (pre & -> & Hn) Hv. rewrite <- app_assoc in Hu. simpl in Hu.
  pose proof (writes_time _ Hw) as Hwt. pose proof (reads_time _ Hr) as Hrt.
  unfold over_at in Ht. unfold unread in Hu. unfold read_line.
  assert (Hfill : forall line' pre', data_of (reads c) = pre' ++ newline :: rest -> newline ∉ pre' ->
    line' ++ pre' = pre ->
    exists d, fill_line b (now c) (reads c) line' (writes c) (sent c) = Some (Ok (pre ++ [newline]), d) /\
      healthy b d /\ unread d = rest /\ writes d = writes c /\ sent d = sent c).
  { intros line' pre' Hd Hn' Hpre.
    destruct (fill_line_ok b (reads c) (now c) line' pre' rest (writes c) (sent c))
      as (d & Hf & ? & ? & Hwd & ? & Ho); [done|done|lia|done|done| |].
    { by rewrite app_assoc, Hpre. }
    exists d. rewrite Hf, app_assoc, Hpre. split; [done|]. split; [|done].
    split; [done|by rewrite Hwd|lia]. }
  destruct (rbuf c) as [|hd bs'] eqn:Eb; [by apply (Hfill [] pre)|]. remember (hd :: bs') as bs.
  destruct (remaining_ok b (now c)) as [left ->]; [lia|].
  destruct (chunk_cases _ _ _ _ Hu Hn) as [(more & E & Hd)|(tl & E & ->)].
  - assert ((newline ∉ bs) /\ (newline ∉ more)) as [Hn1 Hn2] by (subst pre; by apply not_elem_of_app in Hn).
    rewrite (split_line_none bs Hn1). by apply (Hfill bs more).
  - rewrite E, (split_line_app pre tl Hn). unfold end_line. simpl.
    destruct (remaining_ok b (now c)) as [left' ->]; [lia|]. rewrite Hv.
    eexists. split; [done|]. split; [|done]. by split.
Qed.

(** ** Writing *)

Lemma takes_cons x ws :
  takes (x :: ws) = ((match x.2 with PTook _ => 1 | _ => 0 end) + takes ws)%nat.
Proof. unfold takes. simpl. by destruct (x.2). Qed.

Lemma write_line_ok b ws : forall t rem buf rs out,
  Forall write_fine ws -> 0 <= time_of rs -> t + time_of rs + time_of ws < started b + timeout b ->
  (length rem <= takes ws)%nat ->
  exists c, write_line b t ws rem buf rs out = Some (Ok (), c) /\
    rbuf c = buf /\ reads c = rs /\ Forall write_fine (writes c) /\ sent c = out ++ rem /\
    (takes ws <= takes (writes c) + length rem)%nat /\ over_at c = t + time_of rs + time_of ws.
Proof.
  induction ws as [|[dt p] ws IH]; intros t rem buf rs out Hf Hrs Ht Hlen;
    pose proof (writes_time _ Hf) as Hwt.
  - destruct rem; [|simpl in Hlen; unfold takes in Hlen; simpl in Hlen; lia].
    simpl. destruct (remaining_ok b t) as [left ->]; [lia|].
    eexists. split; [done|]. simpl. rewrite app_nil_r. unfold over_at. simpl. repeat split; first [lia|done].
  - inversion_clear Hf as [|? ? [Hdt Hx] Hws]. pose proof (writes_time ws Hws) as Hwt'.
    unfold time_of in Ht |- *. simpl in Ht, Hdt, Hx |- *. fold (time_of rs) (time_of ws) in *.
    destruct (remaining_ok b t) as [left Hl]; [lia|]. rewrite !Hl. rewrite takes_cons in *. simpl in Hlen |- *.
    destruct rem as [|r0 rem'].
    + eexists. split; [done|]. simpl. rewrite app_nil_r, takes_cons. unfold over_at, time_of. simpl.
      repeat split; try lia; try done. by constructor.
    + remember (r0 :: rem') as rem. destruct p as [k| | |]; try done.
      * destruct k as [|k]; [lia|].
        destruct (IH (t + dt) (drop (S k) rem) buf rs (out ++ take (S k) rem))
          as (c & Hc & ? & ? & ? & Hs & Hk & Ho); [done|done|lia|rewrite length_drop; lia|].
        exists c. split; [done|]. rewrite length_drop in Hk. repeat split; try done; try lia.
        -- by rewrite Hs, <- app_assoc, take_drop.
        -- assert (0 < length rem)%nat by (subst rem; simpl; lia). lia.
      * destruct (IH (t + dt) rem buf rs out) as (c & Hc & ? & ? & ? & ? & ? & ?); [done|done|lia|lia|].
        exists c. split; [done|]. repeat split; try done; lia.
Qed.

(** Whatever the socket does, what is written is a prefix of the line, and the
    whole line when the send succeeds: a failed send may leave a partial line,
    which is why it closes the connection. *)
Lemma write_line_prefix b ws : forall t rem buf rs out r c,
  write_line b t ws rem buf rs out = Some (r, c) ->
  exists k, sent c = out ++ take k rem /\ (is_ok r = true -> take k rem = rem).
Proof.
  assert (Hstop : forall (out rem : bytes), exists k, out = out ++ take k rem /\ (false = true -> take k rem = rem)).
  { intros. exists 0%nat. rewrite take_0, app_nil_r. done. }
  induction ws as [|[dt p] ws IH]; intros t rem buf rs out r c; simpl; destruct rem as [|r0 rem'].
  - intros [= <- <-]. exists 0%nat. by rewrite app_nil_r.
  - destruct (remaining b t); intros; simplify_eq. by apply Hstop.
  - intros [= <- <-]. exists 0%nat. by rewrite app_nil_r.
  - remember (r0 :: rem') as rem. destruct (remaining b t); [|intros; simplify_eq; by apply Hstop].
    destruct p as [k| | |]; [|by apply IH|intros; simplify_eq; by apply Hstop..].
    destruct k as [|k]; [intros; simplify_eq; by apply Hstop|].
    intros (j & Hs & Hok)%IH. exists (S k + j)%nat.
    rewrite <- take_take_drop, app_assoc. split; [done|]. intros Hr. rewrite (Hok Hr). apply take_drop.
Qed.

(** ** The negotiation succeeds *)

Section Proofs.
Context (from_str : bytes -> option json) (to_vec : json -> option bytes).

Lemma send_ok b v bs c :
  healthy b c -> to_vec v = Some bs -> (S (length bs) <= takes (writes c))%nat ->
  exists d, send to_vec b v c = Some (Ok (), d) /\ healthy b d /\ unread d = unread c /\
    sent d = sent c ++ bs ++ [newline] /\ (takes (writes c) <= takes (writes d) + S (length bs))%nat.
Proof.
  intros [Hr Hw Ht] Hv Hlen. unfold send, over_at in *. rewrite Hv.
  destruct (write_line_ok b (writes c) (now c) (bs ++ [newline]) (rbuf c) (reads c) (sent c))
    as (d & Hd & Hb & Hrd & ? & ? & Hk & Ho);
    [done|by apply reads_time|lia|rewrite length_app; simpl; lia|].
  rewrite length_app in Hk. simpl in Hk.
  exists d. split; [done|]. split; [split; [by rewrite Hrd|done|lia]|].
  split; [unfold unread; by rewrite Hb, Hrd|]. split; [done|lia].
Qed.

Lemma await_ok b cmd c line rest v :
  healthy b c -> unread c = line ++ rest -> is_line line -> utf8_valid line = true ->
  from_str line = Some v -> is_Some (jget "return" v) ->
  exists d, await_simple_return from_str cmd b c = Some (Ok (), d) /\ healthy b d /\ unread d = rest /\
    writes d = writes c /\ sent d = sent c.
Proof.
  intros Hh Hu Hl Hv Hf [r Hr]. destruct (read_line_ok b c line rest Hh Hu Hl Hv) as (d & Hd & Hrest).
  exists d. split; [|done]. unfold await_simple_return. by rewrite Hd, Hf, Hr.
Qed.

(** Against a monitor that greets and accepts both commands, the
    negotiation succeeds within its budget however the bytes arrive (any
    chunking, interrupts, replies and events in one chunk) and however slowly
    the socket takes what is written: exactly the two commands are sent, and
    every byte after the last reply is left for the reader thread. *)
Lemma handshake_negotiates b c l1 l2 l3 rest v1 v2 v3 bs1 bs2 :
  healthy b c -> unread c = l1 ++ l2 ++ l3 ++ rest ->
  is_line l1 /\ is_line l2 /\ is_line l3 ->
  utf8_valid l1 = true /\ utf8_valid l2 = true /\ utf8_valid l3 = true ->
  from_str l1 = Some v1 /\ from_str l2 = Some v2 /\ from_str l3 = Some v3 ->
  is_Some (jget "QMP" v1) /\ is_Some (jget "return" v2) /\ is_Some (jget "return" v3) ->
  to_vec capabilities = Some bs1 -> to_vec enable_events = Some bs2 ->
  (length bs1 + length bs2 + 2 <= takes (writes c))%nat ->
  exists d, handshake from_str to_vec b c = Some (Ok (), d) /\ unread d = rest /\
    sent d = sent c ++ (bs1 ++ [newline]) ++ bs2 ++ [newline].
Proof.
  intros Hh Hu (Hl1 & Hl2 & Hl3) (Hv1 & Hv2 & Hv3) (Hf1 & Hf2 & Hf3) ([q Hq] & Hr2 & Hr3) Hb1 Hb2 Hlen.
  destruct (read_line_ok b c l1 _ Hh Hu Hl1 Hv1) as (c1 & E1 & Hh1 & Hu1 & Hw1 & Hs1).
  destruct (send_ok b capabilities bs1 c1 Hh1 Hb1) as (c2 & E2 & Hh2 & Hu2 & Hs2 & Hw2); [rewrite Hw1; lia|].
  rewrite Hu1 in Hu2.
  destruct (await_ok b "qmp_capabilities" c2 l2 _ v2 Hh2 Hu2 Hl2 Hv2 Hf2 Hr2)
    as (c3 & E3 & Hh3 & Hu3 & Hw3 & Hs3).
  destruct (send_ok b enable_events bs2 c3 Hh3 Hb2) as (c4 & E4 & Hh4 & Hu4 & Hs4 & Hw4);
    [rewrite Hw3, Hw1 in *; lia|].
  rewrite Hu3 in Hu4.
  destruct (await_ok b "migrate-set-capabilities" c4 l3 rest v3 Hh4 Hu4 Hl3 Hv3 Hf3 Hr3)
    as (c5 & E5 & Hh5 & Hu5 & Hw5 & Hs5).
  exists c5. split; [|split; [done|]].
  - unfold handshake, and_then. by rewrite E1, Hf1, Hq, E2, E3, E4.
  - by rewrite Hs5, Hs4, Hs3, Hs2, Hs1, <- !app_assoc.
Qed.

End Proofs.

(** ** An instance: the greeting split in two, both replies and an event in one chunk *)

Definition demo_lines : list (bytes * json) :=
  [(str "{`QMP`: {}}" ++ [newline], JObj [("QMP", JObj [])]);
   (str "{`return`: {}}" ++ [newline], JObj [("return", JObj [])])].
Definition demo_from_str (bs : bytes) : option json :=
  snd <$> find (fun x => bool_decide (x.1 = bs)) demo_lines.
Definition demo_to_vec (v : json) : option bytes :=
  match v with
  | JObj ((_, JStr s) :: _) => Some (String.list_byte_of_string s)
  | _ => None
  end.

Definition demo_greeting : bytes := str "{`QMP`: {}}" ++ [newline].
Definition demo_return : bytes := str "{`return`: {}}" ++ [newline].
Definition demo_rest : bytes := str "{`event`: ".
Definition demo_conn : conn :=
  Conn 0 [] [(1, FData (take 4 demo_greeting)); (0, FInterrupted); (1, FData (drop 4 demo_greeting));
             (2, FData (demo_return ++ demo_return ++ demo_rest))]
    (replicate 50 (0, PTook 1)) [].

Lemma demo_line_ok s : newline ∉ s -> is_line (s ++ [newline]).
Proof. intros H. by exists s. Qed.

Lemma handshake_negotiates_witness :
  exists d, handshake demo_from_str demo_to_vec (Budget 0 30) demo_conn = Some (Ok (), d) /\
    unread d = demo_rest /\
    sent d = [] ++ (str "qmp_capabilities" ++ [newline]) ++ str "migrate-set-capabilities" ++ [newline].
Proof.
  eapply (handshake_negotiates demo_from_str demo_to_vec (Budget 0 30) demo_conn demo_greeting demo_return
            demo_return demo_rest).
  - split.
    + repeat (apply Forall_cons_2; [by split|]). apply Forall_nil_2.
    + apply Forall_replicate. split; simpl; lia.
    + vm_compute. reflexivity.
  - reflexivity.
  - repeat split; apply demo_line_ok; by apply (bool_decide_unpack _).
  - by vm_compute.
  - split; [vm_compute; reflexivity|split; vm_compute; reflexivity].
  - split; [by eexists|split; by eexists].
  - reflexivity.
  - reflexivity.
  - vm_compute. lia.
Defined.
