(* ===== verification/AgentClient.v ===== *)
(** The host's side of the agent protocol:
    [src/provium-host/src/agent_client/mod.rs] and [tail.rs], over the
    connections of [connector.rs]. Every short operation opens a connection,
    shakes hands, sends one message and reads one; a stream keeps its
    connection. *)
From S2P Require Import Prelude Frame Wire.
Open Scope list_scope.

Inductive client_error :=
| Connect (k : string)
| ClientFrame (e : frame_error)
| VersionMismatch (host agent : Z)
| UnexpectedMessage (expected actual : string)
| ClientAgent (e : agent_error)
| StreamSource (e : os_error).

(** A [Box<dyn AgentStream>]: what the peer will deliver, and what was written. *)
Record conn := Conn { rx : reader; tx : writer }.

Definition C (A : Type) : Type := conn -> conn * result A client_error.

#[export] Instance c_ret : MRet C := fun A a s => (s, Ok a).
#[export] Instance c_bind : MBind C := fun A B f x s =>
  match x s with (s', Ok a) => f a s' | (s', Err e) => (s', Err e) end.
Definition lift {A} (r : result A client_error) : C A := fun s => (s, r).

Definition unexpected (expected : string) (actual : agent_message) : client_error :=
  UnexpectedMessage expected (agent_kind actual).

(** One operation of the client: the message it sends, the kind it names in
    an "unexpected message" error, and what it makes of each reply it accepts. *)
Record call (A : Type) := Call {
  c_op : host_message;
  c_expected : string;
  c_pick : agent_message -> option (result A client_error) }.
Arguments Call {A} c_op c_expected c_pick.
Arguments c_op {A} c.
Arguments c_expected {A} c.
Arguments c_pick {A} c m.

(** The [match] every operation ends with. *)
Definition answer {A} (c : call A) (m : agent_message) : result A client_error :=
  match c_pick c m with
  | Some r => r
  | None => match m with
            | RAgentError e => Err (ClientAgent e)
            | other => Err (unexpected (c_expected c) other)
            end
  end.

(** * The operations *)

Definition exec (a : exec_args) : call exec_result :=
  Call (MExec a) "exec_result" (fun m => match m with RExec r => Some (Ok r) | _ => None end).
Definition batch_exec (items : list exec_args) : call (list exec_result) :=
  Call (MBatchExec items) "batch_exec_result" (fun m => match m with RBatchExec rs => Some (Ok rs) | _ => None end).
Definition batch_op (items : list host_message) : call (list agent_message) :=
  Call (MBatchOp items) "batch_op_result" (fun m => match m with RBatchOp rs => Some (Ok rs) | _ => None end).
Definition open_file (a : open_file_args) : call (op_result file_handle) :=
  Call (MOpenFile a) "open_file_result" (fun m => match m with ROpenFile r => Some (Ok r) | _ => None end).
Definition read (a : read_args) : call (op_result bytes) :=
  Call (MRead a) "read_result" (fun m => match m with RRead r => Some (Ok r) | _ => None end).
Definition write (a : write_args) : call (op_result Z) :=
  Call (MWrite a) "write_result" (fun m => match m with RWrite r => Some (Ok r) | _ => None end).
Definition close (h : file_handle) : call (op_result unit) :=
  Call (MClose h) "close_result" (fun m => match m with RClose r => Some (Ok r) | _ => None end).
Definition read_file (path : string) : call (op_result bytes) :=
  Call (MReadFile path) "read_file_result" (fun m => match m with RReadFile r => Some (Ok r) | _ => None end).
Definition write_file (a : write_file_args) : call (op_result unit) :=
  Call (MWriteFile a) "write_file_result" (fun m => match m with RWriteFile r => Some (Ok r) | _ => None end).
Definition stat (a : stat_args) : call (op_result file_metadata) :=
  Call (MStat a) "stat_result" (fun m => match m with RStat r => Some (Ok r) | _ => None end).
Definition run_async (a : run_async_args) : call (op_result process_handle) :=
  Call (MRunAsync a) "run_async_result" (fun m => match m with RRunAsync r => Some (Ok r) | _ => None end).
Definition wait (a : wait_args) : call (op_result exec_ok) :=
  Call (MWait a) "wait_result" (fun m => match m with RWait r => Some (Ok r) | _ => None end).
Definition kill (a : kill_args) : call (op_result unit) :=
  Call (MKill a) "kill_result" (fun m => match m with RKill r => Some (Ok r) | _ => None end).
Definition get_pid (h : process_handle) : call (op_result Z) :=
  Call (MGetPid h) "get_pid_result" (fun m => match m with RGetPid r => Some (Ok r) | _ => None end).
Definition get_time : call (op_result Z) :=
  Call MGetTime "get_time_result" (fun m => match m with RGetTime r => Some (Ok r) | _ => None end).
Definition set_time (ns : Z) : call (op_result unit) :=
  Call (MSetTime ns) "set_time_result" (fun m => match m with RSetTime r => Some (Ok r) | _ => None end).
Definition sleep_clock (ns : Z) : call (op_result unit) :=
  Call (MSleepClock ns) "sleep_clock_result" (fun m => match m with RSleepClock r => Some (Ok r) | _ => None end).
Definition advance_clock (ns : Z) : call (op_result unit) :=
  Call (MAdvanceClock ns) "advance_clock_result" (fun m => match m with RAdvanceClock r => Some (Ok r) | _ => None end).
Definition syscall (a : syscall_args) : call syscall_result :=
  Call (MSyscall a) "syscall_result" (fun m => match m with RSyscall r => Some (Ok r) | _ => None end).
Definition read_mem (a : read_mem_args) : call (op_result bytes) :=
  Call (MReadMem a) "read_mem_result" (fun m => match m with RReadMem r => Some (Ok r) | _ => None end).
Definition spawn_worker : call (op_result worker_handle) :=
  Call MSpawnWorker "spawn_worker_result" (fun m => match m with RSpawnWorker r => Some (Ok r) | _ => None end).
Definition worker_exec (a : worker_exec_args) : call exec_result :=
  Call (MWorkerExec a) "worker_exec_result" (fun m => match m with RWorkerExec r => Some (Ok r) | _ => None end).
Definition worker_join (h : worker_handle) : call (op_result Z) :=
  Call (MWorkerJoin h) "worker_join_result" (fun m => match m with RWorkerJoin r => Some (Ok r) | _ => None end).
Definition listdir (path : string) : call (op_result (list dir_entry)) :=
  Call (MListdir path) "listdir_result" (fun m => match m with RListdir r => Some (Ok r) | _ => None end).
Definition mkdir (a : mkdir_args) : call (op_result unit) :=
  Call (MMkdir a) "mkdir_result" (fun m => match m with RMkdir r => Some (Ok r) | _ => None end).
Definition unlink (path : string) : call (op_result unit) :=
  Call (MUnlink path) "unlink_result" (fun m => match m with RUnlink r => Some (Ok r) | _ => None end).
Definition rename (a : rename_args) : call (op_result unit) :=
  Call (MRename a) "rename_result" (fun m => match m with RRename r => Some (Ok r) | _ => None end).
Definition seek (a : seek_args) : call (op_result Z) :=
  Call (MSeek a) "seek_result" (fun m => match m with RSeek r => Some (Ok r) | _ => None end).
Definition ioctl (a : ioctl_args) : call (op_result ioctl_ok) :=
  Call (MIoctl a) "ioctl_result" (fun m => match m with RIoctl r => Some (Ok r) | _ => None end).
Definition proc_stdin_write (a : stdin_write_args) : call (op_result Z) :=
  Call (MProcStdinWrite a) "proc_stdin_write_result"
    (fun m => match m with RProcStdinWrite r => Some (Ok r) | _ => None end).
Definition proc_stdin_close (h : process_handle) : call (op_result unit) :=
  Call (MProcStdinClose h) "proc_stdin_close_result"
    (fun m => match m with RProcStdinClose r => Some (Ok r) | _ => None end).
Definition proc_status (h : process_handle) : call (op_result process_live_status) :=
  Call (MProcStatus h) "proc_status_result" (fun m => match m with RProcStatus r => Some (Ok r) | _ => None end).
Definition worker_run_async (a : worker_run_async_args) : call (op_result process_handle) :=
  Call (MWorkerRunAsync a) "worker_run_async_result"
    (fun m => match m with RWorkerRunAsync r => Some (Ok r) | _ => None end).
Definition worker_open_file (a : worker_open_file_args) : call (op_result file_handle) :=
  Call (MWorkerOpenFile a) "worker_open_file_result"
    (fun m => match m with RWorkerOpenFile r => Some (Ok r) | _ => None end).
Definition worker_kill (a : worker_kill_args) : call (op_result Z) :=
  Call (MWorkerKill a) "worker_kill_result" (fun m => match m with RWorkerKill r => Some (Ok r) | _ => None end).
Definition worker_syscall (a : worker_syscall_args) : call syscall_result :=
  Call (MWorkerSyscall a) "worker_syscall_result"
    (fun m => match m with RWorkerSyscall r => Some (Ok r) | _ => None end).
(** The one operation that flattens the operating-system error of its result. *)
Definition worker_syscall_begin (a : worker_syscall_args) : call Z :=
  Call (MWorkerSyscallBegin a) "worker_syscall_begin_result"
    (fun m => match m with
              | RWorkerSyscallBegin (Ok id) => Some (Ok id)
              | RWorkerSyscallBegin (Err os) => Some (Err (StreamSource os))
              | _ => None
              end).
Definition worker_syscall_await (a : worker_await_args) : call syscall_result :=
  Call (MWorkerSyscallAwait a) "worker_syscall_await_result"
    (fun m => match m with RWorkerSyscallAwait r => Some (Ok r) | _ => None end).

(** The openings of the three streams. *)
Definition tail_file_call (a : tail_file_args) : call (op_result unit) :=
  Call (MTailFile a) "tail_file_result" (fun m => match m with RTailFile r => Some (Ok r) | _ => None end).
Definition proc_stream_call (a : proc_stream_args) : call (op_result unit) :=
  Call (MProcStream a) "proc_stream_result" (fun m => match m with RProcStream r => Some (Ok r) | _ => None end).
Definition fd_stream_call (h : file_handle) : call (op_result unit) :=
  Call (MFdStream h) "fd_stream_result" (fun m => match m with RFdStream r => Some (Ok r) | _ => None end).

(** * One connection *)

Section client.
(** [rmp_serde], outside this repository: what the host writes and reads. *)
Variable encode : host_message -> option bytes.
Variable decode : bytes -> option agent_message.

Definition send (msg : host_message) : C unit := fun s =>
  match write_frame encode (tx s) msg DEFAULT_MAX_FRAME_BYTES with
  | (w, Ok _) => (Conn (rx s) w, Ok ())
  | (w, Err e) => (Conn (rx s) w, Err (ClientFrame e))
  end.

Definition recv : C agent_message := fun s =>
  match read_frame decode (rx s) DEFAULT_MAX_FRAME_BYTES with
  | (r, Ok m) => (Conn r (tx s), Ok m)
  | (r, Err e) => (Conn r (tx s), Err (ClientFrame e))
  end.

Definition open_with_handshake : C unit :=
  _ ← send (MHello (Hello PROTOCOL_VERSION));
  m ← recv;
  lift (match m with
        | RHelloOk _ => Ok ()
        | RHelloErr e => Err (VersionMismatch (err_host_version e) (err_agent_version e))
        | other => Err (unexpected "hello_ok" other)
        end).

(** What every operation does once connected. *)
Definition perform {A} (c : call A) : C A :=
  _ ← open_with_handshake;
  _ ← send (c_op c);
  m ← recv;
  lift (answer c m).

(** [connector.connect()] and the operation on the stream it gave. *)
Definition on_connection {A} (connect : result conn string) (body : C A) : option conn * result A client_error :=
  match connect with
  | Err k => (None, Err (Connect k))
  | Ok s => let '(s', r) := body s in (Some s', r)
  end.

Definition ping (connect : result conn string) : option conn * result unit client_error :=
  on_connection connect open_with_handshake.

(** [begin_syscall] gives the connection away; [finish] reads the result off it. *)
Definition begin_syscall (a : syscall_args) : C unit :=
  _ ← open_with_handshake; send (MSyscall a).

Definition finish : C syscall_result :=
  m ← recv;
  lift (match m with
        | RSyscall r => Ok r
        | RAgentError e => Err (ClientAgent e)
        | other => Err (unexpected "syscall_result" other)
        end).

(** ** Streams ([tail.rs]) *)

Record tail_session := TailSession { stream_of : conn; decoder : frame_reader; eof : bool }.

Inductive tail_outcome := TailOpened (t : tail_session) | TailRefused (e : os_error).

Definition session_new (s : conn) : tail_session :=
  TailSession s (frame_reader_new DEFAULT_MAX_FRAME_BYTES) false.

Definition open_stream (c : call (op_result unit)) : C tail_outcome := fun s =>
  match perform c s with
  | (s', Ok (Ok _)) => (s', Ok (TailOpened (session_new s')))
  | (s', Ok (Err e)) => (s', Ok (TailRefused e))
  | (s', Err e) => (s', Err e)
  end.

Definition tail_file (a : tail_file_args) : C tail_outcome := open_stream (tail_file_call a).
Definition proc_stream (a : proc_stream_args) : C tail_outcome := open_stream (proc_stream_call a).
Definition fd_stream (h : file_handle) : C tail_outcome := open_stream (fd_stream_call h).

Definition next_frame (t : tail_session) : tail_session * result (option bytes) client_error :=
  if eof t then (t, Ok None)
  else
    let '(d, r, res) := frame_reader_read decode (decoder t) (rx (stream_of t)) in
    let t' eof := TailSession (Conn r (tx (stream_of t))) d eof in
    match res with
    | Err Eof => (t' true, Ok None)
    | Err e => (t' false, Err (ClientFrame e))
    | Ok (RStreamFrame data) => (t' false, Ok (Some data))
    | Ok (RStreamEnd StreamEof) => (t' true, Ok None)
    | Ok (RStreamEnd (StreamError os)) => (t' true, Err (StreamSource os))
    | Ok (RAgentError e) => (t' false, Err (ClientAgent e))
    | Ok other => (t' false, Err (unexpected "stream_frame|stream_end" other))
    end.
End client.

(** * What a connection delivers *)

Section delivery.
Context (encode : host_message -> option bytes) (decode : bytes -> option agent_message).
(** The agent's encoder, which the host's decoder inverts. *)
Context (agent_encode : agent_message -> option bytes).
Hypothesis agent_codec : codec_round_trips agent_encode decode.

(** [m] is on the wire as [p], within the frame limit. *)
Definition framed (m : agent_message) (p : bytes) : Prop :=
  agent_encode m = Some p /\ zlen p <= DEFAULT_MAX_FRAME_BYTES.

Definition faults_in (r r' : reader) : Prop := forall e, e ∈ r' -> (exists k, e = Fault k) -> e ∈ r.

(** The transport itself failed: the error is one the reader handed over. *)
Definition transport_fault (r : reader) (e : client_error) : Prop :=
  exists k, e = ClientFrame (Io k) /\ Fault k ∈ r /\ k <> Interrupted.

Lemma transport_fault_in r r' e : faults_in r r' -> transport_fault r' e -> transport_fault r e.
Proof. intros Hin (k & -> & Hk & Hne). exists k. split_and!; auto. apply Hin; eauto. Qed.

(** One message is due: it comes, exactly its frame is taken off the
    connection, or the transport fails. *)
Lemma recv_due s s' res m p rest :
  framed m p -> live (rx s) -> stream (rx s) = frame_of p ++ rest -> recv decode s = (s', res) ->
  tx s' = tx s /\
  ((res = Ok m /\ stream (rx s') = rest /\ live (rx s') /\ faults_in (rx s) (rx s')) \/
   (exists e, res = Err e /\ transport_fault (rx s) e)).
Proof.
  intros [He Hle] Hlive Hs. unfold recv, read_frame.
  destruct (frame_reader_read decode (frame_reader_new DEFAULT_MAX_FRAME_BYTES) (rx s)) as [[st r] res1] eqn:Hrun.
  assert (Hok : fr_ok (frame_reader_new DEFAULT_MAX_FRAME_BYTES)) by by apply fr_ok_new.
  pose proof (frame_reader_read_step decode _ _ _ _ _ Hok Hrun) as (_ & _ & Hl & _ & Hf & _).
  destruct (read_due agent_encode decode _ _ _ _ _ m p rest agent_codec Hok Hlive He Hle Hs Hrun)
    as [(-> & _ & Hr)|(k & -> & Hk & Hin & _)]; intros [= <- <-]; (split; [done|]).
  - left. split_and!; auto.
  - right. eexists. split; [done|]. by exists k.
Qed.

Definition host_fits (m : host_message) : Prop :=
  exists p, encode m = Some p /\ zlen p <= DEFAULT_MAX_FRAME_BYTES.

(** Everything written so far, as whole frames of host messages. *)
Definition wrote (s0 s : conn) (ms : list host_message) : Prop :=
  room (tx s) = None /\
  exists ps, Forall2 (fun m p => encode m = Some p) ms ps /\
    Forall (fun p => zlen p <= DEFAULT_MAX_FRAME_BYTES) ps /\
    out (tx s) = out (tx s0) ++ List.concat (frame_of <$> ps).

Lemma wrote_nil s : room (tx s) = None -> wrote s s [].
Proof. intros Hr. split; [done|]. exists []. split_and!; auto. simpl. by rewrite app_nil_r. Qed.

Lemma client_send_ok s0 s ms m :
  wrote s0 s ms -> host_fits m ->
  exists s', send encode m s = (s', Ok ()) /\ rx s' = rx s /\ wrote s0 s' (ms ++ [m]).
Proof.
  intros (Hr & ps & HF & Hsz & Ho) (p & He & Hle). unfold send.
  rewrite (write_frame_eq encode (tx s) m _ p He)
    by (change (Z.min DEFAULT_MAX_FRAME_BYTES u32_max) with DEFAULT_MAX_FRAME_BYTES; lia).
  unfold write_all. rewrite Hr. eexists. split_and!; [done..|]. split; [done|].
  exists (ps ++ [p]). split_and!; [by apply Forall2_app; auto| |].
  - apply Forall_app. split; [done|]. by constructor.
  - cbn [tx out]. rewrite Ho, fmap_app, List.concat_app. simpl. by rewrite app_nil_r, app_assoc.
Qed.

Lemma wrote_same s0 s s' ms : tx s' = tx s -> wrote s0 s ms -> wrote s0 s' ms.
Proof. unfold wrote. by intros ->. Qed.

Definition hello_fits : Prop := host_fits (MHello (Hello PROTOCOL_VERSION)).

(** The handshake, on each of the agent's first messages. *)
Lemma handshake_due s s' res m p rest :
  hello_fits -> room (tx s) = None -> framed m p -> live (rx s) ->
  stream (rx s) = frame_of p ++ rest -> open_with_handshake encode decode s = (s', res) ->
  wrote s s' [MHello (Hello PROTOCOL_VERSION)] /\
  ((res = match m with
          | RHelloOk _ => Ok ()
          | RHelloErr e => Err (VersionMismatch (err_host_version e) (err_agent_version e))
          | other => Err (unexpected "hello_ok" other)
          end /\ stream (rx s') = rest /\ live (rx s') /\ faults_in (rx s) (rx s')) \/
   (exists e, res = Err e /\ transport_fault (rx s) e)).
Proof.
  intros Hfit Hroom Hm Hlive Hs. unfold open_with_handshake, mbind, c_bind.
  destruct (client_send_ok s s [] _ (wrote_nil s Hroom) Hfit) as (s1 & -> & Hrx & Hw1).
  destruct (recv decode s1) as [s2 r2] eqn:Hrecv.
  rewrite <- Hrx in Hlive, Hs |- *. simpl in Hw1.
  destruct (recv_due _ _ _ _ _ _ Hm Hlive Hs Hrecv) as [Htx [(-> & H1 & H2 & H3)|(e & -> & He)]];
    unfold lift; intros [= <- <-]; (split; [by eapply wrote_same|]).
  - left. by split_and!.
  - right. eauto.
Qed.

(** A call, the agent's two messages on the connection: it sends the hello
    and the operation and nothing else, and its result is the one its own
    [match] gives the reply. *)
Lemma perform_due {A} (c : call A) s s' res h p1 m p2 rest :
  hello_fits -> host_fits (c_op c) -> room (tx s) = None -> live (rx s) ->
  framed (RHelloOk h) p1 -> framed m p2 ->
  stream (rx s) = frame_of p1 ++ frame_of p2 ++ rest -> perform encode decode c s = (s', res) ->
  (res = answer c m /\ wrote s s' [MHello (Hello PROTOCOL_VERSION); c_op c] /\
   stream (rx s') = rest /\ live (rx s') /\ faults_in (rx s) (rx s')) \/
  (exists e, res = Err e /\ transport_fault (rx s) e).
Proof.
  intros Hhello Hop Hroom Hlive Hh Hm Hs. unfold perform, mbind, c_bind.
  destruct (open_with_handshake encode decode s) as [s1 r1] eqn:Hopen.
  destruct (handshake_due _ _ _ _ _ _ Hhello Hroom Hh Hlive Hs Hopen)
    as [Hw1 [(-> & Hs1 & Hl1 & Hf1)|(e & -> & He)]]; [|intros [= _ <-]; right; eauto].
  destruct (client_send_ok s s1 _ _ Hw1 Hop) as (s2 & -> & Hrx & Hw2). rewrite <- Hrx in Hs1, Hl1, Hf1.
  destruct (recv decode s2) as [s3 r3] eqn:Hrecv.
  destruct (recv_due _ _ _ _ _ _ Hm Hl1 Hs1 Hrecv) as [Htx [(-> & H1 & H2 & H3)|(e & -> & He)]];
    unfold lift; intros [= <- <-].
  - left. split_and!; auto; [by eapply wrote_same|]. intros x Hx Hk. apply Hf1; auto.
  - right. exists e. split; [done|]. by eapply transport_fault_in.
Qed.

(** ** Streams *)

Definition due (t : tail_session) : bytes := pending (decoder t) ++ stream (rx (stream_of t)).

Definition session_ok (t : tail_session) : Prop :=
  eof t = false /\ fr_ok (decoder t) /\ max_body_bytes (decoder t) = DEFAULT_MAX_FRAME_BYTES /\
  live (rx (stream_of t)).

(** One call of [next_frame] when a message is due: the message, or a
    transport fault that loses nothing and leaves the session usable. *)
Lemma next_frame_due t t' res m p rest :
  session_ok t -> framed m p -> due t = frame_of p ++ rest -> next_frame decode t = (t', res) ->
  faults_in (rx (stream_of t)) (rx (stream_of t')) /\
  (length (rx (stream_of t')) <= length (rx (stream_of t)))%nat /\
  ((due t' = rest /\ (eof t' = false -> session_ok t') /\
    match m with
    | RStreamFrame data => eof t' = false /\ res = Ok (Some data)
    | RStreamEnd StreamEof => eof t' = true /\ res = Ok None
    | RStreamEnd (StreamError os) => eof t' = true /\ res = Err (StreamSource os)
    | RAgentError e => eof t' = false /\ res = Err (ClientAgent e)
    | other => eof t' = false /\ res = Err (unexpected "stream_frame|stream_end" other)
    end) \/
   (exists e, res = Err e /\ transport_fault (rx (stream_of t)) e /\ session_ok t' /\ due t' = due t /\
      (length (rx (stream_of t')) < length (rx (stream_of t)))%nat)).
Proof.
  intros (He & Hok & Hmax & Hlive) [Hp Hle] Hdue. unfold next_frame. rewrite He.
  destruct (frame_reader_read decode (decoder t) (rx (stream_of t))) as [[d r] res1] eqn:Hrun.
  pose proof (frame_reader_read_step decode _ _ _ _ _ Hok Hrun) as (Hok' & Hmax' & Hl & Hlen & Hf & Hpost).
  rewrite Hmax in Hmax'.
  assert (Hle' : zlen p <= Z.min (max_body_bytes (decoder t)) u32_max) by by rewrite Hmax.
  destruct (read_due agent_encode decode _ _ _ _ _ m p rest agent_codec Hok Hlive Hp Hle' Hdue Hrun)
    as [(-> & Hpend & Hr)|(k & -> & Hk & Hin & Hd)].
  - destruct m; try (destruct e); intros [= <- <-]; split_and!; try done; left;
      (split; [unfold due; cbn; by rewrite Hpend|]); (split; [|done]); intros; split_and!; auto.
  - intros [= <- <-]. destruct Hpost as (_ & _ & _ & Hlt). split_and!; try done. right. eexists.
    split_and!; [done|by exists k|split_and!; auto|unfold due at 1; cbn; by rewrite Hd, <- Hdue|done].
Qed.

(** A consumer: pull [n] frames, calling [next_frame] again after a timeout. *)
Fixpoint pull (fuel n : nat) (t : tail_session) : option (tail_session * list bytes) :=
  match n, fuel with
  | O, _ => Some (t, [])
  | S _, O => None
  | S n', S fuel' =>
      match next_frame decode t with
      | (t', Ok (Some d)) => '(t'', ds) ← pull fuel' n' t'; Some (t'', d :: ds)
      | (t', Err (ClientFrame (Io (WouldBlock | TimedOut)))) => pull fuel' n t'
      | _ => None
      end
  end.

(** All frames due are pulled, in order, whatever the timeouts. *)
Lemma pull_due ds ps rest fuel t :
  Forall2 (fun d p => framed (RStreamFrame d) p) ds ps ->
  session_ok t -> resumable (rx (stream_of t)) ->
  due t = List.concat (frame_of <$> ps) ++ rest ->
  (length (rx (stream_of t)) + length ds <= fuel)%nat ->
  exists t', pull fuel (length ds) t = Some (t', ds) /\ session_ok t' /\ due t' = rest /\
    resumable (rx (stream_of t')).
Proof.
  intros HF. revert ds ps HF t. induction fuel as [|fuel IH]; intros ds ps HF t Hok Hres Hdue Hfuel.
  { destruct ds; [|simpl in Hfuel; lia]. apply Forall2_nil_inv_l in HF as ->. by exists t. }
  destruct HF as [|d p ds ps Hd HF]; [by exists t|]. cbn [length pull].
  assert (Hdue1 : due t = frame_of p ++ List.concat (frame_of <$> ps) ++ rest) by (rewrite Hdue; symmetry; apply app_assoc).
  destruct (next_frame decode t) as [t' res] eqn:Hn.
  destruct (next_frame_due _ _ _ _ _ _ Hok Hd Hdue1 Hn) as (Hf & Hle & [(Hd' & Hok' & He & ->)|(e & -> & He & Hok' & Hd' & Hlt)]).
  - destruct (IH ds ps HF t') as (t'' & -> & ? & ? & ?); auto; try (simpl in Hfuel; lia).
    { intros k Hk. apply Hres, Hf; eauto. }
    by exists t''.
  - destruct He as (k & -> & Hk & Hni).
    destruct (IH (d :: ds) (p :: ps)) with (t := t') as (t'' & Hp & ? & ? & ?); auto; try (simpl in *; lia).
    { intros k' Hk'. apply Hres, Hf; eauto. }
    { by rewrite Hd', Hdue. }
    destruct (Hres k Hk) as [|[-> | ->]]; [done|exists t''; by split_and!..].
Qed.

(** A consumer that reads a stream to its end: the frames, and the error it
    ended with if any. *)
Fixpoint drain (fuel : nat) (t : tail_session) : option (list bytes * option client_error) :=
  match fuel with
  | O => None
  | S fuel' =>
      match next_frame decode t with
      | (t', Ok (Some d)) => '(ds, e) ← drain fuel' t'; Some (d :: ds, e)
      | (_, Ok None) => Some ([], None)
      | (t', Err (ClientFrame (Io (WouldBlock | TimedOut)))) => drain fuel' t'
      | (_, Err e) => Some ([], Some e)
      end
  end.

Lemma drain_due ds ps e pe rest fuel t :
  Forall2 (fun d p => framed (RStreamFrame d) p) ds ps -> framed (RStreamEnd e) pe ->
  session_ok t -> resumable (rx (stream_of t)) ->
  due t = List.concat (frame_of <$> ps) ++ frame_of pe ++ rest ->
  (length (rx (stream_of t)) + length ds < fuel)%nat ->
  drain fuel t = Some (ds, match e with StreamEof => None | StreamError os => Some (StreamSource os) end).
Proof.
  intros HF He. revert ds ps HF t. induction fuel as [|fuel IH]; intros ds ps HF t Hok Hres Hdue Hfuel; [lia|].
  assert (exists m p rest', framed m p /\ due t = frame_of p ++ rest' /\
    match ds, m with
    | [], RStreamEnd e' => e' = e
    | d :: _, RStreamFrame d' => d' = d
    | _, _ => False
    end /\ match ps with [] => True | _ :: ps' => rest' = List.concat (frame_of <$> ps') ++ frame_of pe ++ rest end)
    as (m & p & rest' & Hm & Hdue1 & Hcase & Hrest).
  { destruct HF as [|d p ds ps Hd HF]; [by exists (RStreamEnd e), pe, rest|].
    exists (RStreamFrame d), p, (List.concat (frame_of <$> ps) ++ frame_of pe ++ rest).
    split_and!; try done. rewrite Hdue. symmetry. apply app_assoc. }
  cbn [drain]. destruct (next_frame decode t) as [t' res] eqn:Hn.
  destruct (next_frame_due _ _ _ _ _ _ Hok Hm Hdue1 Hn) as (Hf & Hle & [(Hd' & Hok' & Hres')|(e' & -> & (k & -> & Hk & Hni) & Hok' & Hd' & Hlt)]).
  - assert (Hr' : resumable (rx (stream_of t'))) by (intros k Hk; apply Hres, Hf; eauto).
    destruct HF as [|d p' ds ps Hd HF]; destruct m; try done; subst.
    + destruct e as [|os]; by destruct Hres' as [_ ->].
    + destruct Hres' as [He' ->]. rewrite (IH ds ps HF); auto. simpl in Hfuel. lia.
  - assert (Hr' : resumable (rx (stream_of t'))) by (intros k' Hk'; apply Hres, Hf; eauto).
    assert (drain fuel t' = Some (ds, match e with StreamEof => None | StreamError os => Some (StreamSource os) end)).
    { apply (IH ds ps); auto; [by rewrite Hd'|lia]. }
    destruct (Hres k Hk) as [|[-> | ->]]; done.
Qed.
End delivery.

(** * Every operation reads its own reply *)

(** The operation accepts exactly the result variant of the message it sends,
    and names that variant when it complains. *)
Record matched {A} (c : call A) : Prop := {
  matched_expects : c_expected c = (host_kind (c_op c) +:+ "_result")%string;
  matched_picks m : is_Some (c_pick c m) <-> agent_kind m = c_expected c;
}.

Ltac solve_matched :=
  split; [reflexivity|]; intros m; split;
  [intros [? H]; by destruct m|];
  destruct m; try (by intros H; exfalso; vm_compute in H); intros _; simpl; try case_match; eauto.

Lemma short_calls_matched :
  (forall a, matched (exec a)) /\ (forall l, matched (batch_exec l)) /\ (forall l, matched (batch_op l)) /\
  (forall a, matched (open_file a)) /\ (forall a, matched (read a)) /\ (forall a, matched (write a)) /\
  (forall h, matched (close h)) /\ (forall p, matched (read_file p)) /\ (forall a, matched (write_file a)) /\
  (forall a, matched (stat a)) /\ (forall a, matched (run_async a)) /\ (forall a, matched (wait a)) /\
  (forall a, matched (kill a)) /\ (forall h, matched (get_pid h)) /\ matched get_time /\
  (forall n, matched (set_time n)) /\ (forall n, matched (sleep_clock n)) /\ (forall n, matched (advance_clock n)) /\
  (forall a, matched (syscall a)) /\ (forall a, matched (read_mem a)).
Proof. split_and!; intros; solve_matched. Qed.

Lemma more_calls_matched :
  matched spawn_worker /\ (forall a, matched (worker_exec a)) /\ (forall h, matched (worker_join h)) /\
  (forall p, matched (listdir p)) /\ (forall a, matched (mkdir a)) /\ (forall p, matched (unlink p)) /\
  (forall a, matched (rename a)) /\ (forall a, matched (seek a)) /\ (forall a, matched (ioctl a)) /\
  (forall a, matched (proc_stdin_write a)) /\ (forall h, matched (proc_stdin_close h)) /\
  (forall h, matched (proc_status h)) /\ (forall a, matched (worker_run_async a)) /\
  (forall a, matched (worker_open_file a)) /\ (forall a, matched (worker_kill a)) /\
  (forall a, matched (worker_syscall a)) /\ (forall a, matched (worker_syscall_begin a)) /\
  (forall a, matched (worker_syscall_await a)) /\
  (forall a, matched (tail_file_call a)) /\ (forall a, matched (proc_stream_call a)) /\ (forall h, matched (fd_stream_call h)).
Proof. split_and!; intros; solve_matched. Qed.

(** A reply that answers the operation is never an unexpected message. *)
Lemma answer_matched {A} (c : call A) m :
  matched c -> answers_op (c_op c) m = true ->
  (exists r, c_pick c m = Some r /\ answer c m = r) \/
  (exists e, m = RAgentError e /\ answer c m = Err (ClientAgent e)).
Proof.
  intros Hc Hm. unfold answers_op in Hm. apply orb_prop in Hm as [Hm|Hm]; apply bool_decide_eq_true in Hm.
  - left. rewrite <- matched_expects in Hm by done. apply matched_picks in Hm as [r Hr]; [|done].
    exists r. unfold answer. by rewrite Hr.
  - destruct m; try done. right. exists e. split; [done|]. unfold answer.
    destruct (c_pick c (RAgentError e)) as [r|] eqn:Hp; [|done].
    assert (H : agent_kind (RAgentError e) = c_expected c) by (apply matched_picks; [done|by eexists]).
    rewrite (matched_expects c Hc) in H. by destruct (c_op c).
Qed.
