(* ===== verification/AgentLink.v ===== *)
(** Both ends of an agent connection together: the host's client of
    [AgentClient] against the agent's handlers of [AgentOps] and stream loops
    of [AgentStream], joined by the frame codec. *)
From S2P Require Import Prelude Wire AgentState AgentOs AgentOps Frame AgentStream AgentClient.
Open Scope list_scope.

Section link.
(** [rmp_serde] for the two message types, on the two sides. *)
Context (host_encode : host_message -> option bytes) (host_decode : bytes -> option host_message).
Context (agent_encode : agent_message -> option bytes) (agent_decode : bytes -> option agent_message).
Hypothesis host_codec : codec_round_trips host_encode host_decode.
Hypothesis agent_codec : codec_round_trips agent_encode agent_decode.

Lemma max_frame : Z.min DEFAULT_MAX_FRAME_BYTES u32_max = DEFAULT_MAX_FRAME_BYTES.
Proof. done. Qed.

Lemma write_frames_framed w w' ms :
  write_frames agent_encode w ms DEFAULT_MAX_FRAME_BYTES = (w', Ok ()) ->
  exists ps, Forall2 (framed agent_encode) ms ps /\ out w' = out w ++ List.concat (frame_of <$> ps).
Proof.
  intros H. apply write_frames_ok in H as (ps & HF & Hsz & Ho). exists ps. split; [|done].
  rewrite max_frame in Hsz. clear Ho. induction HF; inversion Hsz; subst; constructor; [by split|auto].
Qed.

(** What the host wrote, read by the agent's [read_host_message]s. *)
Lemma wrote_reads s0 s ms ar :
  wrote host_encode s0 s ms -> out (tx s0) = [] ->
  stream ar = out (tx s) -> live ar -> resumable ar ->
  read_all host_decode (S (length ar + length ms)) (frame_reader_new DEFAULT_MAX_FRAME_BYTES) ar = (ms, Some Eof).
Proof.
  intros (_ & ps & HF & Hsz & Ho) H0 Hs Hlive Hres. rewrite H0 in Ho. simpl in Ho.
  apply (read_all_due host_encode host_decode ms ps host_codec HF); auto; try lia; [by apply fr_ok_new|].
  unfold pending; simpl. by rewrite Hs, Ho.
Qed.

(** The operations that are answered by one message. *)
Definition one_reply (op : host_message) : bool :=
  negb (is_stream op) && match op with MHello _ => false | _ => true end.


(** * Streams *)

(** What precedes a stream on its connection. *)
Definition preamble (ack : agent_message) (w0 : writer) : Prop :=
  exists info p1 p2, framed agent_encode (RHelloOk info) p1 /\ framed agent_encode ack p2 /\
    out w0 = frame_of p1 ++ frame_of p2.

Lemma sent_framed w0 w ms part :
  sent agent_encode w0 w ms part ->
  exists ps, Forall2 (framed agent_encode) ms ps /\ out w = out w0 ++ List.concat (frame_of <$> ps) ++ part.
Proof.
  intros (ps & HF & Hsz & Ho). exists ps. split; [|done].
  clear Ho. induction HF; inversion Hsz; subst; constructor; [by split|auto].
Qed.

Lemma framed_frames ds ps :
  Forall2 (framed agent_encode) (frames ds) ps ->
  Forall2 (fun d p => framed agent_encode (RStreamFrame d) p) ds ps.
Proof. unfold frames. rewrite Forall2_fmap_l. done. Qed.

(** Opening a stream over a connection that carries the preamble: a session
    with exactly the rest of the connection due. *)
Lemma open_stream_due c ack w0 rest s s' res :
  preamble ack w0 -> c_pick c ack = Some (Ok (Ok ())) ->
  hello_fits host_encode -> host_fits host_encode (c_op c) ->
  tx s = Writer [] None -> live (rx s) -> stream (rx s) = out w0 ++ rest ->
  open_stream host_encode agent_decode c s = (s', res) ->
  (exists e, res = Err e /\ transport_fault (rx s) e) \/
  (exists t, res = Ok (TailOpened t) /\ session_ok t /\ due t = rest /\
     (resumable (rx s) -> resumable (rx (stream_of t)))).
Proof.
  intros (info & p1 & p2 & H1 & H2 & Ho) Hpick Hhf Hof Htx Hlive Hs. unfold open_stream.
  destruct (perform host_encode agent_decode c s) as [s1 r1] eqn:Hrun.
  assert (Hs' : stream (rx s) = frame_of p1 ++ frame_of p2 ++ rest) by (by rewrite Hs, Ho, <- app_assoc).
  destruct (perform_due host_encode agent_decode agent_encode agent_codec c s s1 r1 info p1 ack p2 rest Hhf Hof)
    as [(-> & _ & Hr & Hl & Hf)|(e & -> & He)]; auto; [by rewrite Htx| |].
  - unfold answer. rewrite Hpick. intros [= <- <-]. right. eexists. split; [done|].
    split_and!; [split_and!; [done|by apply fr_ok_new|done|done]|done|].
    intros Hres k Hk. apply Hres, Hf; eauto.
  - intros [= <- <-]. left. eauto.
Qed.

(** C6: a process's output arrives. The agent's writer never fails, and the
    frames fit the limit of a message. From any point of the stream loop, once
    the process is done for the table and its output no longer grows, the loop
    ends within four turns; and a host that opens the stream over any delivery
    of the bytes then on the connection, and reads on after timeouts, receives
    the whole captured output, in order and exactly once, and a clean end after
    it, unless its transport fails while the stream is opened. (When the writer
    fails the last chunk may be lost: [proc_final_drops].) *)
Theorem process_output_arrives h ch ls t w0 buf (a : proc_loop) :
  preamble (RProcStream (Ok ())) w0 ->
  run_labels (proc_step agent_encode h ch) ls (ProcLoop buf t 0 w0 ProcBuffer) = Some a ->
  p_pc a <> ProcEnded -> drain_done h ch (proc_tables a) = true ->
  room (p_out a) = None -> fits agent_encode (RStreamEnd StreamEof) ->
  (forall d, zlen d <= zlen (proc_buf a) -> fits agent_encode (RStreamFrame d)) ->
  exists n a', (n <= 4)%nat /\
    run_labels (proc_step agent_encode h ch) (replicate n Turn) a = Some a' /\ p_pc a' = ProcEnded /\
    forall s s' res,
      hello_fits host_encode -> host_fits host_encode (MProcStream (ProcStreamArgs h ch)) ->
      tx s = Writer [] None -> live (rx s) -> resumable (rx s) -> stream (rx s) = out (p_out a') ->
      AgentClient.proc_stream host_encode agent_decode (ProcStreamArgs h ch) s = (s', res) ->
      (exists e, res = Err e /\ transport_fault (rx s) e) \/
      (exists sess fuel ds, res = Ok (TailOpened sess) /\
         drain agent_decode fuel sess = Some (ds, None) /\ List.concat ds = proc_buf a).
Proof.
  intros Hpre Hrun Hpc Hdone Hroom Heof Hfit.
  destruct (proc_delivers agent_encode _ _ _ _ _ _ _ Hrun Hpc Hdone Hroom Heof Hfit)
    as (n & a' & ds & Hn & Hrun' & Hend & Hsent & Hds).
  exists n, a'. split_and!; auto. intros s s' res Hhf Hof Htx Hlive Hres Hs Hopen.
  apply sent_framed in Hsent as (ps & HF & Ho). rewrite app_nil_r in Ho.
  apply Forall2_app_inv_l in HF as (psd & pse & HFd & HFe & ->).
  inversion HFe as [|? pe ? ? He Hnil]; subst. inversion Hnil; subst.
  destruct (open_stream_due (proc_stream_call (ProcStreamArgs h ch)) _ w0 (List.concat (frame_of <$> psd) ++ frame_of pe) s s' res Hpre eq_refl Hhf Hof)
    as [Hfault|(sess & -> & Hok & Hdue & Hr)]; auto.
  { rewrite Hs, Ho, fmap_app, List.concat_app. simpl. by rewrite app_nil_r. }
  right. exists sess, (S (length (rx (stream_of sess)) + length ds))%nat, ds. split_and!; auto.
  rewrite (drain_due agent_decode agent_encode agent_codec ds psd StreamEof pe []); auto.
  - by apply framed_frames.
  - by rewrite app_nil_r.
Qed.

(** A tailed file arrives. While the peer reads and no read fails the
    agent's loop does not end, and once the file stops growing, any sequence
    of the loop's turns longer than the bytes outstanding leaves on the
    connection exactly what a host that opens the tail over any delivery of
    those bytes, reading on after timeouts, receives as the file's contents
    from the start offset, in order and exactly once. *)
Lemma tailed_file_arrives path start ls turns w0 c0 (a a' : tail_loop) :
  preamble (RTailFile (Ok ())) w0 ->
  frames_fit agent_encode -> room w0 = None -> (start <= length c0)%nat -> Forall calm ls ->
  run_labels (tail_step agent_encode) ls (TailLoop c0 start w0 TailRead) = Some a ->
  Forall (fun l => reading l = true) turns -> (available a < length turns)%nat ->
  run_labels (tail_step agent_encode) turns a = Some a' ->
  running a' /\
  forall s s' res,
    hello_fits host_encode -> host_fits host_encode (MTailFile (TailFileArgs path (TailOffset (Z.of_nat start)))) ->
    tx s = Writer [] None -> live (rx s) -> resumable (rx s) -> stream (rx s) = out (t_out a') ->
    AgentClient.tail_file host_encode agent_decode (TailFileArgs path (TailOffset (Z.of_nat start))) s = (s', res) ->
    (exists e, res = Err e /\ transport_fault (rx s) e) \/
    (exists sess sess' fuel n ds, res = Ok (TailOpened sess) /\
       pull agent_decode fuel n sess = Some (sess', ds) /\ List.concat ds = drop start (content a) /\
       due sess' = [] /\ eof sess' = false).
Proof.
  intros Hpre Hfit Hroom Hstart Hls Hrun Hturns Hlen Hrun'.
  destruct (tail_delivers agent_encode _ _ _ _ _ _ _ Hfit Hroom Hstart Hls Hrun Hturns Hlen Hrun')
    as (Hr & ds & Hsent & Hds & _).
  split; [done|]. intros s s' res Hhf Hof Htx Hlive Hres Hs Hopen.
  apply sent_framed in Hsent as (ps & HF & Ho). rewrite app_nil_r in Ho.
  destruct (open_stream_due (tail_file_call (TailFileArgs path (TailOffset (Z.of_nat start)))) _ w0 (List.concat (frame_of <$> ps)) s s' res Hpre eq_refl Hhf Hof)
    as [Hfault|(sess & -> & Hok & Hdue & Hresm)]; auto; [by rewrite Hs, Ho|]. right.
  destruct (pull_due agent_decode agent_encode agent_codec ds ps [] (length (rx (stream_of sess)) + length ds) sess)
    as (sess' & Hpull & Hok' & Hdue' & _); auto.
  - by apply framed_frames.
  - by rewrite app_nil_r.
  - exists sess, sess', (length (rx (stream_of sess)) + length ds)%nat, (length ds), ds.
    split_and!; auto. by destruct Hok' as [? _].
Qed.
End link.

(** * Witnesses *)

(** Small codecs for a few messages on each side. *)
Definition link_info : agent_info := AgentInfo "" "" None [].

Definition link_host_encode (m : host_message) : option bytes :=
  match m with
  | MHello (Hello 1) => Some [x10]
  | MProcStatus (ProcessHandle 1) => Some [x11]
  | MProcStream (ProcStreamArgs (ProcessHandle 1) Stdout) => Some [x12]
  | MTailFile (TailFileArgs EmptyString (TailOffset 1)) => Some [x13]
  | _ => None
  end.
Definition link_host_decode (b : bytes) : option host_message :=
  match b with
  | [x10] => Some (MHello (Hello 1))
  | [x11] => Some (MProcStatus (ProcessHandle 1))
  | [x12] => Some (MProcStream (ProcStreamArgs (ProcessHandle 1) Stdout))
  | [x13] => Some (MTailFile (TailFileArgs EmptyString (TailOffset 1)))
  | _ => None
  end.
Definition link_encode (m : agent_message) : option bytes :=
  match m with
  | RHelloOk (HelloOk 1 (AgentInfo EmptyString EmptyString None [])) => Some [x05]
  | RProcStatus (Ok Unknown) => Some [x06]
  | _ => demo_encode m
  end.
Definition link_decode (b : bytes) : option agent_message :=
  match b with
  | x01 :: d => Some (RStreamFrame d)
  | [x02] => Some (RStreamEnd StreamEof)
  | [x03] => Some (RTailFile (Ok ()))
  | [x04] => Some (RProcStream (Ok ()))
  | [x05] => Some (RHelloOk (HelloOk 1 link_info))
  | [x06] => Some (RProcStatus (Ok Unknown))
  | _ => None
  end.

Lemma link_host_codec : codec_round_trips link_host_encode link_host_decode.
Proof.
  intros m p H. destruct m; try discriminate; simpl in H; repeat case_match; by simplify_eq.
Qed.
Lemma link_agent_codec : codec_round_trips link_encode link_decode.
Proof.
  intros m p H. destruct m; try discriminate; simpl in H;
    repeat (case_match; try discriminate; simplify_eq); simplify_eq; try done;
    by match goal with u : unit |- _ => destruct u end.
Qed.

Lemma link_hello_fits : hello_fits link_host_encode.
Proof. exists [x10]. by split. Qed.

(** The bytes cut after every one of them, with a timeout between. *)
Definition dribble (b : bytes) : reader := (fun x => Chunk [x]) <$> b.

Lemma dribble_live b : live (dribble b).
Proof. induction b; constructor; [done|done]. Qed.
Lemma dribble_resumable b : resumable (dribble b).
Proof. intros k Hk. apply list_elem_of_fmap in Hk as (x & Hx & _). done. Qed.

Definition status_bytes : bytes := frame_of [x05] ++ frame_of [x06].


Definition proc_preamble : writer := Writer (frame_of [x05] ++ frame_of [x04]) None.
Definition tail_preamble : writer := Writer (frame_of [x05] ++ frame_of [x03]) None.

Lemma process_output_arrives_witness :
  exists a, run_labels (proc_step link_encode (ProcessHandle 1) Stdout) demo_proc
      (ProcLoop [] demo_slot_tables 0 proc_preamble ProcBuffer) = Some a /\
    exists n a', (n <= 4)%nat /\
      run_labels (proc_step link_encode (ProcessHandle 1) Stdout) (replicate n Turn) a = Some a' /\
      p_pc a' = ProcEnded /\
      forall s s' res,
        hello_fits link_host_encode -> host_fits link_host_encode (MProcStream (ProcStreamArgs (ProcessHandle 1) Stdout)) ->
        tx s = Writer [] None -> live (rx s) -> resumable (rx s) -> stream (rx s) = out (p_out a') ->
        AgentClient.proc_stream link_host_encode link_decode (ProcStreamArgs (ProcessHandle 1) Stdout) s = (s', res) ->
        (exists e, res = Err e /\ transport_fault (rx s) e) \/
        (exists sess fuel ds, res = Ok (TailOpened sess) /\
           drain link_decode fuel sess = Some (ds, None) /\ List.concat ds = proc_buf a).
Proof.
  eexists. split; [vm_compute; reflexivity|].
  apply (process_output_arrives link_host_encode link_encode link_decode link_agent_codec
    (ProcessHandle 1) Stdout demo_proc demo_slot_tables proc_preamble []).
  - exists (HelloOk 1 link_info), [x05], [x04]. by split_and!.
  - vm_compute; reflexivity.
  - vm_compute; discriminate.
  - vm_compute; reflexivity.
  - reflexivity.
  - by exists [x02].
  - intros d Hd. apply demo_frames_fit. etransitivity; [exact Hd|]. unfold READ_CHUNK; simpl; unfold zlen; simpl; lia.
Defined.

Lemma tailed_file_arrives_witness :
  exists a a', run_labels (tail_step link_encode) demo_before (TailLoop (str "ab") 1 tail_preamble TailRead) = Some a /\
    run_labels (tail_step link_encode) demo_turns a = Some a' /\ running a' /\
    forall s s' res,
      hello_fits link_host_encode -> host_fits link_host_encode (MTailFile (TailFileArgs "" (TailOffset (Z.of_nat 1)))) ->
      tx s = Writer [] None -> live (rx s) -> resumable (rx s) -> stream (rx s) = out (t_out a') ->
      AgentClient.tail_file link_host_encode link_decode (TailFileArgs "" (TailOffset (Z.of_nat 1))) s = (s', res) ->
      (exists e, res = Err e /\ transport_fault (rx s) e) \/
      (exists sess sess' fuel n ds, res = Ok (TailOpened sess) /\
         pull link_decode fuel n sess = Some (sess', ds) /\ List.concat ds = drop 1 (content a) /\
         due sess' = [] /\ eof sess' = false).
Proof.
  do 2 eexists. split; [vm_compute; reflexivity|]. split; [vm_compute; reflexivity|].
  apply (tailed_file_arrives link_host_encode link_encode link_decode link_agent_codec
    "" 1 demo_before demo_turns tail_preamble (str "ab")).
  - exists (HelloOk 1 link_info), [x05], [x03]. by split_and!.
  - exact demo_frames_fit.
  - reflexivity.
  - simpl; lia.
  - do 2 (constructor; [by left|]). constructor; [right; by eexists|]. constructor; [by left|constructor].
  - vm_compute; reflexivity.
  - by repeat constructor.
  - apply Nat.ltb_lt. by vm_compute.
  - vm_compute; reflexivity.
Defined.

(** The whole way for the tailed file: a host that pulls three frames off the
    bytes the agent wrote, one byte at a time. *)
Example tail_end_to_end :
  (a ← run_labels (tail_step link_encode) (demo_before ++ demo_turns)
     (TailLoop (str "ab") 1 tail_preamble TailRead);
   match AgentClient.tail_file link_host_encode link_decode (TailFileArgs "" (TailOffset 1))
           (Conn (dribble (out (t_out a))) (Writer [] None)) with
   | (_, Ok (TailOpened sess)) => snd <$> pull link_decode 20 3 sess
   | _ => None
   end) = Some [str "b"; str "c"; str "d"].
Proof. by vm_compute. Qed.
