(* ===== verification/VmOpts.v ===== *)
(** What a virtual machine is launched with: [BootOpts], their overrides, the
    disks and the network cards, from [src/provium-host/src/vmm/mod.rs] and the
    first half of [Vm::boot] in [src/provium-host/src/vm.rs]. *)
From stdpp Require Import pretty.
From S2P Require Import Prelude Pool Cpio.

Open Scope string_scope.
Open Scope list_scope.
Open Scope Z_scope.

(** * Data *)

Record attached_disk := AttachedDisk {
  ad_id : string; ad_path : string; ad_readonly : bool; ad_mediated : bool }.

(** A profile's disk, and the id it is addressed by. *)
Record disk_spec := DiskSpec {
  ds_id : option string; ds_path : string; ds_readonly : bool; ds_mediated : bool }.

Definition resolved_id (d : disk_spec) (index : nat) : string :=
  match ds_id d with Some id => id | None => "disk" +:+ pretty (N.of_nat index) end.

Record nic_attachment := NicAttachment {
  bridge_name : string; bridge : option string; nic_id : string; mac : option string }.

Record boot_opts := BootOpts {
  bo_memory : option Z;
  bo_cpus : option Z;
  cmdline_override : option string;
  cmdline_append : option string;
  bo_files : list injected_file;
  agent_timeout : option Z;
  rng_seed : option Z;
  initial_time_ns : option Z;
  nic_attachments : list nic_attachment;
  bo_disks : list attached_disk;
}.

Definition boot_opts_default : boot_opts := BootOpts None None None None [] None None None [] [].

Definition DEFAULT_MEMORY_BYTES : Z := 512 * 1024 * 1024.
Definition DEFAULT_CPUS : Z := 1.
Definition VMM_OVERHEAD_BYTES : Z := 100 * 1024 * 1024.

(** [BootOpts::sizing]. *)
Definition sizing (o : boot_opts) : Z * Z :=
  (default DEFAULT_MEMORY_BYTES (bo_memory o), default DEFAULT_CPUS (bo_cpus o)).

(** * Overrides *)

(** [if over.x.is_some() { x = over.x }]. *)
Definition supersede {A} (cur over : option A) : option A :=
  match over with Some _ => over | None => cur end.

(** [if !over.is_empty() { cur.extend(over) }]. *)
Definition extend_nonempty {A} (cur over : list A) : list A :=
  match over with [] => cur | _ => cur ++ over end.

(** The body of [merge_boot_opts] on the pending overrides. *)
Definition merge_overrides (pending : option boot_opts) (over : boot_opts) : boot_opts :=
  let cur := default boot_opts_default pending in
  BootOpts (bo_memory cur) (bo_cpus cur)
    (supersede (cmdline_override cur) (cmdline_override over))
    (supersede (cmdline_append cur) (cmdline_append over))
    (extend_nonempty (bo_files cur) (bo_files over))
    (supersede (agent_timeout cur) (agent_timeout over))
    (supersede (rng_seed cur) (rng_seed over))
    (supersede (initial_time_ns cur) (initial_time_ns over))
    (nic_attachments cur)
    (extend_nonempty (bo_disks cur) (bo_disks over)).

(** What [boot] makes of the overrides it takes. *)
Definition apply_overrides (opts : boot_opts) (pending : option boot_opts) : boot_opts :=
  match pending with
  | None => opts
  | Some over =>
      BootOpts (bo_memory opts) (bo_cpus opts)
        (supersede (cmdline_override opts) (cmdline_override over))
        (supersede (cmdline_append opts) (cmdline_append over))
        (bo_files opts ++ bo_files over)
        (supersede (agent_timeout opts) (agent_timeout over))
        (supersede (rng_seed opts) (rng_seed over))
        (supersede (initial_time_ns opts) (initial_time_ns over))
        (nic_attachments opts)
        (bo_disks opts ++ bo_disks over)
  end.

(** * Disks *)

(** [VmmError::DiskConflict] carries the id. *)
Fixpoint add_boot_disks (out : list attached_disk) (boot_disks : list attached_disk)
  : result (list attached_disk) string :=
  match boot_disks with
  | [] => Ok out
  | disk :: rest =>
      if existsb (fun d => String.eqb (ad_id d) (ad_id disk)) out then Err (ad_id disk)
      else add_boot_disks (out ++ [disk]) rest
  end.

Definition profile_disks (specs : list disk_spec) : list attached_disk :=
  imap (fun i spec =>
          AttachedDisk (resolved_id spec i) (ds_path spec) (ds_readonly spec) (ds_mediated spec)) specs.

Definition resolve_disks (specs : list disk_spec) (boot_disks : list attached_disk)
  : result (list attached_disk) string :=
  add_boot_disks (profile_disks specs) boot_disks.

(** * The launch *)

(** One card per attached bridge, in the order of the map. *)
Definition nic_of (vm_name br : string) : nic_attachment :=
  NicAttachment br (Some br) (vm_name +:+ "-" +:+ br) None.

Definition add_nics (vm_name : string) (bridges : list string) (o : boot_opts) : boot_opts :=
  BootOpts (bo_memory o) (bo_cpus o) (cmdline_override o) (cmdline_append o) (bo_files o)
    (agent_timeout o) (rng_seed o) (initial_time_ns o)
    (nic_attachments o ++ (nic_of vm_name <$> bridges)) (bo_disks o).

(** What a solo boot reserves. *)
Definition boot_amount (o : boot_opts) : resource_amount :=
  let '(m, c) := sizing o in RA (sat_add u64_max m VMM_OVERHEAD_BYTES) c.

Record launch_plan := LaunchPlan {
  lp_opts : boot_opts; lp_disks : list attached_disk; lp_amount : resource_amount }.

(** [boot] from the declared options to the call of [launch]. *)
Definition boot_plan (vm_name : string) (specs : list disk_spec) (declared : boot_opts)
    (pending : option boot_opts) (bridges : list string) : result launch_plan string :=
  let opts := apply_overrides declared pending in
  let? disks := resolve_disks specs (bo_disks opts) in
  let opts := add_nics vm_name bridges opts in
  Ok (LaunchPlan opts disks (boot_amount opts)).

(** * Laws *)

Lemma supersede_assoc {A} (a b c : option A) :
  supersede (supersede a b) c = supersede a (supersede b c).
Proof. by destruct c. Qed.

Lemma supersede_none {A} (b : option A) : supersede None b = b.
Proof. by destruct b. Qed.

Lemma extend_nonempty_app {A} (a b : list A) : extend_nonempty a b = a ++ b.
Proof. destruct b; simpl; [by rewrite app_nil_r|done]. Qed.

(** Overrides merged first and applied once are overrides applied in turn. *)
Lemma apply_merge base pending over :
  apply_overrides base (Some (merge_overrides pending over)) =
  apply_overrides (apply_overrides base pending) (Some over).
Proof.
  unfold apply_overrides, merge_overrides. destruct pending as [cur|]; simpl; rewrite !extend_nonempty_app.
  - by rewrite !supersede_assoc, !app_assoc.
  - by rewrite !supersede_none, !app_nil_l.
Qed.

Definition merge_all (pending : option boot_opts) (overs : list boot_opts) : option boot_opts :=
  foldl (fun p o => Some (merge_overrides p o)) pending overs.

Lemma apply_merge_all base overs : forall pending,
  apply_overrides base (merge_all pending overs) =
  foldl (fun o over => apply_overrides o (Some over)) (apply_overrides base pending) overs.
Proof.
  induction overs as [|o overs IH]; intros pending; [done|].
  change (merge_all pending (o :: overs)) with (merge_all (Some (merge_overrides pending o)) overs).
  by rewrite IH, apply_merge.
Qed.

(** Applying overrides in turn leaves the size and the cards as declared,
    collects files and disks in order, and keeps the last value given. *)
Definition last_given {A} (f : boot_opts -> option A) (declared : boot_opts) (overs : list boot_opts)
  : option A := foldl supersede (f declared) (f <$> overs).

Lemma apply_in_turn declared overs :
  foldl (fun o over => apply_overrides o (Some over)) declared overs =
  BootOpts (bo_memory declared) (bo_cpus declared)
    (last_given cmdline_override declared overs) (last_given cmdline_append declared overs)
    (bo_files declared ++ concat (bo_files <$> overs))
    (last_given agent_timeout declared overs) (last_given rng_seed declared overs)
    (last_given initial_time_ns declared overs) (nic_attachments declared)
    (bo_disks declared ++ concat (bo_disks <$> overs)).
Proof.
  unfold last_given. revert declared.
  induction overs as [|o overs IH]; intros declared; simpl.
  - rewrite !app_nil_r. by destruct declared.
  - rewrite IH. simpl. by rewrite <- !app_assoc.
Qed.

Definition ids (ds : list attached_disk) : list string := ad_id <$> ds.

Lemma existsb_id id (out : list attached_disk) :
  existsb (fun d => String.eqb (ad_id d) id) out = true <-> id ∈ ids out.
Proof.
  unfold ids. rewrite existsb_exists, list_elem_of_fmap. split.
  - intros (d & Hin & E%String.eqb_eq). exists d. by rewrite list_elem_of_In.
  - intros (d & -> & Hin%list_elem_of_In). exists d. by rewrite String.eqb_refl.
Qed.

(** The launch list is the two lists, with no id twice; it is refused exactly
    when one would be. *)
Lemma add_boot_disks_spec boot_disks : forall out, NoDup (ids out) ->
  match add_boot_disks out boot_disks with
  | Ok all => all = out ++ boot_disks /\ NoDup (ids all)
  | Err id => ~ NoDup (ids (out ++ boot_disks)) /\ id ∈ ids boot_disks
  end.
Proof.
  induction boot_disks as [|d ds IH]; intros out Hn; simpl; [by rewrite app_nil_r|].
  destruct (existsb _ _) eqn:E.
  - apply existsb_id in E. split; [|by left]. unfold ids in *. rewrite fmap_app, NoDup_app. simpl.
    intros (_ & Hdis & _). apply (Hdis (ad_id d) E). by left.
  - specialize (IH (out ++ [d])). rewrite <- app_assoc in IH. simpl in IH.
    assert (Hn' : NoDup (ids (out ++ [d]))).
    { unfold ids in *. rewrite fmap_app, NoDup_app. split; [done|]. split; [|apply NoDup_singleton].
      intros id Hid Hd%list_elem_of_singleton. subst id. apply existsb_id in Hid. congruence. }
    specialize (IH Hn'). destruct (add_boot_disks _ ds); [done|].
    destruct IH as [? ?]. split; [done|by right].
Qed.

(** * Promises *)

(** What a boot launches and pays for. After any number of
    [merge_boot_opts] calls the launch gets the declared size and the last
    value given of every other option, all injected files and disks in the
    order they were given, and one card per bridge; the disks are the
    profile's, then the boot's, with no id twice, and the boot is refused
    exactly when an id would repeat; the reservation is the memory and
    processors the launch will use plus the overhead. *)
Lemma boot_plan_exact vm_name specs declared overs bridges :
  NoDup (ids (profile_disks specs)) ->
  let all := bo_disks declared ++ concat (bo_disks <$> overs) in
  match boot_plan vm_name specs declared (merge_all None overs) bridges with
  | Ok p =>
      lp_opts p = BootOpts (bo_memory declared) (bo_cpus declared)
        (last_given cmdline_override declared overs) (last_given cmdline_append declared overs)
        (bo_files declared ++ concat (bo_files <$> overs))
        (last_given agent_timeout declared overs) (last_given rng_seed declared overs)
        (last_given initial_time_ns declared overs)
        (nic_attachments declared ++ (nic_of vm_name <$> bridges)) all /\
      lp_disks p = profile_disks specs ++ all /\ NoDup (ids (lp_disks p)) /\
      lp_amount p = RA (sat_add u64_max (sizing (lp_opts p)).1 VMM_OVERHEAD_BYTES) (sizing (lp_opts p)).2
  | Err id => ~ NoDup (ids (profile_disks specs ++ all)) /\ id ∈ ids all
  end.
Proof.
  intros Hn all. unfold boot_plan. rewrite apply_merge_all, apply_in_turn. simpl. fold all.
  unfold resolve_disks. pose proof (add_boot_disks_spec all _ Hn) as H.
  destruct (add_boot_disks _ all); simpl; [|done]. destruct H as [-> ?]. done.
Qed.

Definition demo_over1 : boot_opts :=
  BootOpts (Some 5) None (Some "quiet") None [] None (Some 7) None [] [AttachedDisk "data" "/d" false true].
Definition demo_over2 : boot_opts :=
  BootOpts None None None None [InjectedFile (str "/etc/x") [] 420] None (Some 8) None [] [].
Definition demo_specs : list disk_spec := [DiskSpec None "/root.img" true false].

Lemma boot_plan_exact_witness :
  NoDup (ids (profile_disks demo_specs)) /\
  match boot_plan "a" demo_specs boot_opts_default (merge_all None [demo_over1; demo_over2]) ["br0"] with
  | Ok p => rng_seed (lp_opts p) = Some 8 /\ bo_memory (lp_opts p) = None /\ ids (lp_disks p) = ["disk0"; "data"] /\
      NoDup (ids (lp_disks p))
  | Err _ => False
  end.
Proof.
  split; [by apply (bool_decide_unpack _)|].
  pose proof (boot_plan_exact "a" demo_specs boot_opts_default [demo_over1; demo_over2] ["br0"]
                ltac:(by apply (bool_decide_unpack _))) as H.
  cbv beta zeta in H.
  destruct (boot_plan _ _ _ _ _) as [p|id] eqn:E; vm_compute in E; [|discriminate E].
  injection E as <-. repeat split. apply H.
Defined.
