(* ===== verification/Vm.v ===== *)
(** The life of one virtual machine as its handle sees it,
    [src/provium-host/src/vm.rs]: the state machine, its guarded operations,
    the resources it holds, and every interleaving of the threads that share
    the handle. *)
From stdpp Require Import pretty sorting.
From S2P Require Import Prelude Frame Wire AgentClient Pool Claims Qmp VmOpts.

Open Scope string_scope.
Open Scope list_scope.
Open Scope Z_scope.

(** * States and errors *)

Inductive vm_state := Created | Booted | Paused | Dead | Shutdown.

#[export] Instance vm_state_eq_dec : EqDecision vm_state.
Proof. solve_decision. Defined.

Definition vm_state_as_str (s : vm_state) : string :=
  match s with
  | Created => "created" | Booted => "booted" | Paused => "paused" | Dead => "dead" | Shutdown => "shutdown"
  end.

Inductive vmm_error :=
| Unimplemented (what : string)
| VmmIo (k : string)
| VmmQmp (e : qmp_error)
| MissingProfilePath (field path : string)
| KernelSource (why : string)
| MissingDisk (id path : string)
| DiskConflict (id : string)
| AgentOverlay (why : string).

Inductive vm_error :=
| VClient (e : client_error)
| VVmm (e : vmm_error)
| VOs (e : os_error)
| WrongState (vm : string) (st : vm_state) (action : string)
| DiskImage (id message : string)
| PoolExceeded (vm : string) (requested total : resource_amount)
| BootRefused (vm : string) (e : reserve_error)
| OpenResources (vm : string) (open_files open_streams : Z) (stream_details : list string).

Definition format_wrong_state (vm : string) (st : vm_state) (action : string) : string :=
  let body :=
    match st with
    | Booted => if String.eqb action "boot" then "VM already booted"
                else "VM is in an unexpected state for this op"
    | Created => "VM not booted"
    | Paused => "VM is paused; use resume()"
    | Shutdown => "VM is shutdown; create a new one"
    | Dead => "VM died; create a new one"
    end in
  "vm `" +:+ vm +:+ "`: " +:+ body +:+ " (cannot " +:+ action +:+ ")".

(** The agent is gone; the monitor is wedged. *)
Definition is_dead_signal (e : client_error) : bool :=
  match e with Connect _ | ClientFrame Eof | ClientFrame (Io _) => true | _ => false end.
Definition is_qmp_dead_signal (e : vmm_error) : bool :=
  match e with VmmQmp (QTimeout _) | VmmQmp (QIo _) | VmmQmp (QClosed _) => true | _ => false end.

(** * Open files and streams *)

Record stream_meta := StreamMeta {
  sm_kind : string; sm_detail : string; creation_site : option (string * Z); test_name : option string }.

Record registry := Registry { open_files : gset Z; open_streams : gmap Z stream_meta }.

Definition registry_new : registry := Registry ∅ ∅.
Definition is_quiescent (r : registry) : bool :=
  bool_decide (open_files r = ∅) && bool_decide (open_streams r = ∅).

(** [streams_snapshot]: by ascending id. *)
Definition streams_snapshot (r : registry) : list stream_meta :=
  omap (fun id => open_streams r !! id) (merge_sort Z.le (elements (dom (open_streams r)))).

(** The double quote. *)
Definition quote : string := String (Ascii.ascii_of_nat 34) EmptyString.

Definition format_stream_meta (m : stream_meta) : string :=
  sm_kind m +:+ "(" +:+ sm_detail m +:+ ")" +:+
  match creation_site m with
  | Some (file, line) => " created at " +:+ file +:+ ":" +:+ pretty line
  | None => ""
  end +:+
  match test_name m with
  | Some t => " (test " +:+ quote +:+ t +:+ quote +:+ ")"
  | None => ""
  end.

Definition register_file (h : Z) (r : registry) : registry :=
  Registry ({[ h ]} ∪ open_files r) (open_streams r).
Definition deregister_file (h : Z) (r : registry) : registry :=
  Registry (open_files r ∖ {[ h ]}) (open_streams r).
Definition register_stream (id : Z) (m : stream_meta) (r : registry) : registry :=
  Registry (open_files r) (<[id := m]> (open_streams r)).
(** [StreamGuard::drop]. *)
Definition drop_stream (id : Z) (r : registry) : registry :=
  Registry (open_files r) (delete id (open_streams r)).

(** * The machine behind the handle *)

Record disk_attachment := DiskAttachment { da_id : string; da_size : Z; da_image : option string }.

(** [instance] and [hold] are names of a running machine and of a pool or
    claim reservation. *)
Record running_resources := Running { vm_cid : Z; instance : option Z }.

Record vm_inner := VmInner {
  state : vm_state;
  running : option running_resources;
  boot_reservation : option Z;
  bridge_attachments : gmap string ();
  disks : gmap string disk_attachment;
  boot_overrides : option boot_opts;
}.

Definition vm_new : vm_inner := VmInner Created None None ∅ ∅ None.

(** [Vm::from_running]. *)
Definition from_running (cid inst : Z) : vm_inner :=
  VmInner Booted (Some (Running cid (Some inst))) None ∅ ∅ None.

Definition set_vm_state (st : vm_state) (i : vm_inner) : vm_inner :=
  VmInner st (running i) (boot_reservation i) (bridge_attachments i) (disks i) (boot_overrides i).
Definition clear_reservation (i : vm_inner) : vm_inner :=
  VmInner (state i) (running i) None (bridge_attachments i) (disks i) (boot_overrides i).

(** An operation returns, or it panics with the lock held. *)
Inductive outcome (A : Type) := Ret (r : result A vm_error) | Panic (msg : string).
Arguments Ret {A} r.
Arguments Panic {A} msg.

Section Operations.
(** The name of the machine. *)
Context (name : string).

Definition wrong_state {A} (i : vm_inner) (action : string) : outcome A :=
  Ret (Err (WrongState name (state i) action)).

Definition missing_running : string := "state must carry running resources".
Definition missing_instance : string := "instance present while not Shutdown".

(** ** One-section operations; [r] is what the backend answers, if asked *)

Definition pause (r : result () vmm_error) (i : vm_inner) : vm_inner * outcome () :=
  match state i with
  | Booted =>
      match running i with
      | None => (i, Panic missing_running)
      | Some res =>
          match instance res with
          | None => (i, Panic missing_instance)
          | Some _ =>
              match r with
              | Err e => (if is_qmp_dead_signal e then set_vm_state Dead i else i, Ret (Err (VVmm e)))
              | Ok _ => (set_vm_state Paused i, Ret (Ok ()))
              end
          end
      end
  | _ => (i, wrong_state i "pause")
  end.

Definition resume (r : result () vmm_error) (i : vm_inner) : vm_inner * outcome () :=
  match state i with
  | Paused =>
      match running i with
      | None => (i, Panic missing_running)
      | Some res =>
          match instance res with
          | None => (i, Panic missing_instance)
          | Some _ =>
              match r with
              | Err e => (if is_qmp_dead_signal e then set_vm_state Dead i else i, Ret (Err (VVmm e)))
              | Ok _ => (set_vm_state Booted i, Ret (Ok ()))
              end
          end
      end
  | _ => (i, wrong_state i "resume")
  end.

(** [shutdown]: the instance is taken whether or not its own shutdown works. *)
Definition take_instance (i : vm_inner) : vm_inner :=
  VmInner (state i) ((fun res => Running (vm_cid res) None) <$> running i) (boot_reservation i)
    (bridge_attachments i) (disks i) (boot_overrides i).

Definition shutdown (r : result () vmm_error) (i : vm_inner) : vm_inner * outcome () :=
  match state i with
  | Shutdown => (i, Ret (Ok ()))
  | Created => (clear_reservation (set_vm_state Shutdown i), Ret (Ok ()))
  | Booted | Paused | Dead =>
      match running i ≫= instance with
      | Some _ =>
          match r with
          | Err e => (take_instance i, Ret (Err (VVmm e)))
          | Ok _ => (clear_reservation (set_vm_state Shutdown (take_instance i)), Ret (Ok ()))
          end
      | None => (clear_reservation (set_vm_state Shutdown i), Ret (Ok ()))
      end
  end.

Definition power_button (r : result () vmm_error) (i : vm_inner) : vm_inner * outcome () :=
  match state i with
  | Booted =>
      match running i ≫= instance with
      | None => (i, wrong_state i "power_button")
      | Some _ =>
          match r with
          | Err e => (if is_qmp_dead_signal e then set_vm_state Dead i else i, Ret (Err (VVmm e)))
          | Ok _ => (clear_reservation (set_vm_state Shutdown i), Ret (Ok ()))
          end
      end
  | _ => (i, wrong_state i "power_button")
  end.

(** ** Operations that ask the backend and mark the machine afterwards *)

(** Some refuse when the instance is missing, some insist on it. *)
Inductive on_missing := OkOr | Expect.

Definition live_states : list vm_state := [Booted; Paused].

(** The first section: the guard and the backend's answer. *)
Definition backend_call {A} (allowed : list vm_state) (missing : on_missing) (action : string)
    (r : result A vmm_error) (i : vm_inner) : outcome A :=
  if bool_decide (state i ∈ allowed) then
    match running i, missing with
    | None, OkOr => wrong_state i action
    | None, Expect => Panic missing_running
    | Some res, _ =>
        match instance res, missing with
        | None, OkOr => wrong_state i action
        | None, Expect => Panic missing_instance
        | Some _, _ => Ret (match r with Ok a => Ok a | Err e => Err (VVmm e) end)
        end
    end
  else wrong_state i action.

Definition wakeup (r : result () vmm_error) := backend_call [Booted] OkOr "wakeup" r.
Definition is_suspended (r : result bool vmm_error) := backend_call [Booted] OkOr "is_suspended" r.
Definition reset_command (r : result () vmm_error) := backend_call [Booted] OkOr "reset" r.
Definition power_cut_disk (r : result () vmm_error) := backend_call live_states OkOr "power_cut_disk" r.
Definition set_disk_policy (r : result () vmm_error) := backend_call live_states OkOr "set_disk_policy" r.
Definition disk_policy {P} (r : result P vmm_error) := backend_call live_states OkOr "disk_policy" r.
Definition detach_disk (r : result () vmm_error) := backend_call live_states OkOr "detach_disk" r.
Definition set_link (r : result () vmm_error) := backend_call live_states Expect "set_link" r.
Definition snapshot_call (r : result () vmm_error) := backend_call live_states Expect "snapshot" r.

(** [snapshot]: the registry is looked at first. *)
Definition snapshot_check (reg : registry) : result () vm_error :=
  if is_quiescent reg then Ok ()
  else Err (OpenResources name (Z.of_nat (size (open_files reg))) (Z.of_nat (size (open_streams reg)))
              (format_stream_meta <$> streams_snapshot reg)).

(** [attach_disk_live]: the record, then the backend if there is a machine. *)
Definition attach_disk_record (a : disk_attachment) (i : vm_inner) : vm_inner :=
  VmInner (state i) (running i) (boot_reservation i) (bridge_attachments i)
    (<[da_id a := a]> (disks i)) (boot_overrides i).
Definition attach_call (a : disk_attachment) (r : result () vmm_error) (i : vm_inner) : outcome () :=
  match da_image a with
  | None => Ret (Ok ())
  | Some _ =>
      if bool_decide (state i ∈ live_states) then
        match running i ≫= instance with
        | None => Ret (Ok ())
        | Some _ => Ret (match r with Ok a => Ok a | Err e => Err (VVmm e) end)
        end
      else Ret (Ok ())
  end.

(** [with_client]: the agent is asked in [Booted] only. *)
Definition with_client {A} (action : string) (answer : result A vm_error) (i : vm_inner) : outcome A :=
  match state i with
  | Booted => match running i with Some _ => Ret answer | None => Panic missing_running end
  | _ => wrong_state i action
  end.

(** The second sections: the machine is dead if it still looks alive. *)
Definition mark_dead_after_vmm (i : vm_inner) : vm_inner :=
  if bool_decide (state i ∈ live_states) then set_vm_state Dead i else i.
Definition mark_dead_after_client (i : vm_inner) : vm_inner :=
  if bool_decide (state i = Booted) then set_vm_state Dead i else i.

(** Whether the result of a call leads to them. *)
Definition vmm_dead {A} (o : outcome A) : bool :=
  match o with Ret (Err (VVmm e)) => is_qmp_dead_signal e | _ => false end.
Definition client_dead {A} (o : outcome A) : bool :=
  match o with Ret (Err (VClient e)) => is_dead_signal e | _ => false end.

(** ** Booting and restoring *)

Definition merge_boot_opts (over : boot_opts) (i : vm_inner) : vm_inner * outcome () :=
  if bool_decide (state i = Created) then
    (VmInner (state i) (running i) (boot_reservation i) (bridge_attachments i) (disks i)
       (Some (merge_overrides (boot_overrides i) over)), Ret (Ok ()))
  else (i, wrong_state i "merge_boot_opts").

Definition add_bridge_attachment (br : string) (i : vm_inner) : vm_inner :=
  VmInner (state i) (running i) (boot_reservation i) (<[br := ()]> (bridge_attachments i)) (disks i)
    (boot_overrides i).

(** [boot_overrides.take()]. *)
Definition take_overrides (i : vm_inner) : vm_inner :=
  VmInner (state i) (running i) (boot_reservation i) (bridge_attachments i) (disks i) None.

(** The refusal of a reservation, as [boot] reports it. *)
Definition reserve_refusal (e : reserve_error) : vm_error :=
  match e with
  | ReservePool (ExceedsTotal requested tot) => PoolExceeded name requested tot
  | _ => BootRefused name e
  end.

(** The last section of [boot] and [restore]: first come, first served. *)
Definition install (action : string) (cid inst : Z) (hold : option Z) (keep : bool) (i : vm_inner)
  : vm_inner * outcome () :=
  if bool_decide (state i = Created) then
    (VmInner Booted (Some (Running cid (Some inst)))
       (if keep then hold else boot_reservation i)
       (bridge_attachments i) (disks i) (boot_overrides i), Ret (Ok ()))
  else (i, wrong_state i action).

(** [Vm::drop] of the last handle, up to the fields going with it. *)
Definition last_drop (i : vm_inner) : vm_inner :=
  if bool_decide (state i ∈ live_states) then set_vm_state Shutdown (take_instance i) else i.

End Operations.

(** * Threads sharing the handle *)

(** Where a [boot] or a [restore] is between its sections: past its check,
    with the overrides taken, with its reservation, with its machine. *)
Inductive boot_phase :=
| Checked
| Taken
| Holding (h : option Z)
| Launched (h : option Z) (inst : Z).

Record booting := Booting { restoring : bool; at_phase : boot_phase }.

Definition boot_hold (b : booting) : option Z :=
  match at_phase b with Holding h | Launched h _ => h | _ => None end.
Definition boot_inst (b : booting) : option Z :=
  match at_phase b with Launched _ inst => Some inst | _ => None end.

(** The handle's shared state; the boots in flight; the failed calls about to
    mark the machine dead ([true]: of the backend); the machines running and
    the reservations held anywhere; and whether a panic has poisoned the lock,
    whether an instance's own shutdown has failed. *)
Record sys := Sys {
  inner : vm_inner;
  boots : list booting;
  marks : list bool;
  insts : list Z;
  holds : list Z;
  fresh : Z;
  poisoned : bool;
  shutdown_failed : bool;
}.

Definition sys_init : sys := Sys vm_new [] [] [] [] 0 false false.

(** Dropping a value ends it. *)
Definition let_go (h : option Z) (l : list Z) : list Z :=
  match h with Some h => filter (fun x => x <> h) l | None => l end.

Definition instance_of (i : vm_inner) : option Z := running i ≫= instance.

Definition is_none {A} (o : option A) : bool := match o with None => true | Some _ => false end.
Definition panicked {A} (o : outcome A) : bool := match o with Panic _ => true | Ret _ => false end.

(** A section ends with [i]: what the fields no longer hold is dropped. *)
Definition commit (i : vm_inner) (panic failed : bool) (x : sys) : sys :=
  Sys i (boots x) (marks x)
    (if is_none (instance_of i) then let_go (instance_of (inner x)) (insts x) else insts x)
    (if is_none (boot_reservation i) then let_go (boot_reservation (inner x)) (holds x) else holds x)
    (fresh x) (poisoned x || panic) (shutdown_failed x || failed).

Definition set_boots (bs : list booting) (x : sys) : sys :=
  Sys (inner x) bs (marks x) (insts x) (holds x) (fresh x) (poisoned x) (shutdown_failed x).
Definition set_marks (ms : list bool) (x : sys) : sys :=
  Sys (inner x) (boots x) ms (insts x) (holds x) (fresh x) (poisoned x) (shutdown_failed x).

(** An instance's own shutdown was asked for and failed. *)
Definition shutdown_fails (r : result () vmm_error) (i : vm_inner) : bool :=
  match state i, instance_of i, r with
  | Booted, Some _, Err _ | Paused, Some _, Err _ | Dead, Some _, Err _ => true
  | _, _, _ => false
  end.

Section Interleavings.
Context (name : string).

Inductive act (x : sys) : sys -> Prop :=
(** ** one-section operations *)
| AMerge over : act x (commit (merge_boot_opts name over (inner x)).1 false false x)
| ABridge br : act x (commit (add_bridge_attachment br (inner x)) false false x)
| ADisk a : act x (commit (attach_disk_record a (inner x)) false false x)
| APause r : act x (commit (pause name r (inner x)).1 (panicked (pause name r (inner x)).2) false x)
| AResume r : act x (commit (resume name r (inner x)).1 (panicked (resume name r (inner x)).2) false x)
| AShutdown r : act x (commit (shutdown r (inner x)).1 false (shutdown_fails r (inner x)) x)
| APower r : act x (commit (power_button name r (inner x)).1 false false x)
(** ** calls of the backend and of the agent, and their second sections *)
| ABackend A allowed missing action (r : result A vmm_error) :
    allowed = [Booted] \/ allowed = live_states ->
    let o := backend_call name allowed missing action r (inner x) in
    act x (set_marks (if vmm_dead o then true :: marks x else marks x)
             (commit (inner x) (panicked o) false x))
| AAttach a r :
    act x (set_marks (if vmm_dead (attach_call a r (inner x)) then true :: marks x else marks x) x)
| AClient A action (r : result A vm_error) :
    let o := with_client name action r (inner x) in
    act x (set_marks (if client_dead o then false :: marks x else marks x)
             (commit (inner x) (panicked o) false x))
| AMarkVmm ms1 ms2 :
    marks x = ms1 ++ true :: ms2 ->
    act x (set_marks (ms1 ++ ms2) (commit (mark_dead_after_vmm (inner x)) false false x))
| AMarkClient ms1 ms2 :
    marks x = ms1 ++ false :: ms2 ->
    act x (set_marks (ms1 ++ ms2) (commit (mark_dead_after_client (inner x)) false false x))
(** ** [boot] and [restore], section by section *)
| ABegin restore : state (inner x) = Created -> act x (set_boots (Booting restore Checked :: boots x) x)
| ATake l1 l2 :
    boots x = l1 ++ Booting false Checked :: l2 ->
    act x (set_boots (l1 ++ Booting false Taken :: l2) (commit (take_overrides (inner x)) false false x))
(** the disks conflict, the reservation is refused, the launch fails *)
| AGiveUp l1 l2 b :
    boots x = l1 ++ b :: l2 -> boot_inst b = None ->
    act x (Sys (inner x) (l1 ++ l2) (marks x) (insts x) (let_go (boot_hold b) (holds x)) (fresh x)
             (poisoned x) (shutdown_failed x))
(** the disks are recorded one by one before the reservation: see [ADisk] *)
| AReserve l1 l2 :
    boots x = l1 ++ Booting false Taken :: l2 ->
    act x (Sys (inner x) (l1 ++ Booting false (Holding (Some (fresh x))) :: l2) (marks x) (insts x)
             (fresh x :: holds x) (fresh x + 1) (poisoned x) (shutdown_failed x))
| ANoPool l1 l2 :
    boots x = l1 ++ Booting false Taken :: l2 ->
    act x (set_boots (l1 ++ Booting false (Holding None) :: l2) x)
| ARestoreOpts l1 l2 :
    boots x = l1 ++ Booting true Checked :: l2 ->
    act x (set_boots (l1 ++ Booting true (Holding None) :: l2) x)
| ALaunch l1 l2 r h :
    boots x = l1 ++ Booting r (Holding h) :: l2 ->
    act x (Sys (inner x) (l1 ++ Booting r (Launched h (fresh x)) :: l2) (marks x) (fresh x :: insts x)
             (holds x) (fresh x + 1) (poisoned x) (shutdown_failed x))
(** the winner's machine is installed; a loser's is shut down, its reservation dropped *)
| AInstall l1 l2 r h inst cid i :
    boots x = l1 ++ Booting r (Launched h inst) :: l2 ->
    install name (if r then "restore" else "boot") cid inst h (negb r) (inner x) = (i, Ret (Ok ())) ->
    act x (Sys i (l1 ++ l2) (marks x) (insts x) (holds x) (fresh x) (poisoned x) (shutdown_failed x))
| ALose l1 l2 r h inst cid i e :
    boots x = l1 ++ Booting r (Launched h inst) :: l2 ->
    install name (if r then "restore" else "boot") cid inst h (negb r) (inner x) = (i, Ret (Err e)) ->
    act x (Sys i (l1 ++ l2) (marks x) (let_go (Some inst) (insts x)) (let_go h (holds x)) (fresh x)
             (poisoned x) (shutdown_failed x))
(** ** the last handle goes, and the fields with it *)
| ADrop :
    boots x = [] ->
    act x (commit (clear_reservation (take_instance (last_drop (inner x)))) false false x).

(** Every lock is taken with [unwrap]: nothing happens on a poisoned one. *)
Definition step (x y : sys) : Prop := poisoned x = false /\ act x y.
Definition reachable (x : sys) : Prop := rtc step sys_init x.

End Interleavings.

(** ** Invariants *)

Definition opt_list (o : option Z) : list Z := match o with Some z => [z] | None => [] end.

Definition owned_holds (x : sys) : list Z := opt_list (boot_reservation (inner x)) ++ omap boot_hold (boots x).
Definition owned_insts (x : sys) : list Z := opt_list (instance_of (inner x)) ++ omap boot_inst (boots x).

(** [l] is exactly what is owned, once each, under names already used. *)
Definition accounted (l owned : list Z) (next : Z) : Prop :=
  l ≡ₚ owned /\ NoDup l /\ Forall (fun z => z < next) l.

Definition inner_ok (failed : bool) (i : vm_inner) : Prop :=
  match state i with
  | Created => running i = None /\ boot_reservation i = None
  | Booted | Paused => exists res, running i = Some res /\ (instance res = None -> failed = true)
  | Dead => True
  | Shutdown => boot_reservation i = None
  end.

Record sys_ok (x : sys) : Prop := {
  ok_holds : accounted (holds x) (owned_holds x) (fresh x);
  ok_insts : accounted (insts x) (owned_insts x) (fresh x);
  ok_inner : inner_ok (shutdown_failed x) (inner x);
  ok_restore b : b ∈ boots x -> restoring b = true -> boot_hold b = None;
  ok_poison : poisoned x = true -> shutdown_failed x = true;
}.

Lemma omap_middle (f : booting -> option Z) l1 b l2 :
  omap f (l1 ++ b :: l2) ≡ₚ opt_list (f b) ++ omap f (l1 ++ l2).
Proof.
  rewrite !omap_app. simpl. destruct (f b); simpl; [by rewrite Permutation_middle|done].
Qed.

Lemma accounted_perm l o o' n : o ≡ₚ o' -> accounted l o n -> accounted l o' n.
Proof. intros E (? & ? & ?). split; [by rewrite <- E|done]. Qed.

Lemma filter_absent (z : Z) (l : list Z) : z ∉ l -> filter (fun x => x <> z) l = l.
Proof.
  induction l as [|y l IH]; intros Hz; [done|]. apply not_elem_of_cons in Hz as [Hy Hl].
  rewrite filter_cons_True by congruence. by rewrite IH.
Qed.

(** Giving up one thing that is owned. *)
Lemma accounted_let_go l h rest n :
  accounted l (opt_list h ++ rest) n -> accounted (let_go h l) rest n.
Proof.
  intros (Hp & Hn & Hf). destruct h as [z|]; [|done]. simpl in *. split; [|split].
  - rewrite Hp, filter_cons_False by (intros H; by apply H). rewrite Hp in Hn.
    apply NoDup_cons in Hn as [Hz _]. by rewrite filter_absent.
  - by apply NoDup_filter.
  - apply Forall_forall. intros y Hy. apply list_elem_of_filter in Hy as [_ Hy].
    by apply (Forall_forall (fun z => z < n) l).
Qed.

(** Taking on something new. *)
Lemma accounted_fresh l owned n : accounted l owned n -> accounted (n :: l) (n :: owned) (n + 1).
Proof.
  intros (Hp & Hn & Hf). split; [by rewrite Hp|]. split.
  - apply NoDup_cons. split; [|done]. intros Hin.
    pose proof (proj1 (Forall_forall _ _) Hf n Hin). simpl in *. lia.
  - constructor; [lia|]. eapply Forall_impl; [done|]. simpl. lia.
Qed.

Lemma accounted_later l owned n : accounted l owned n -> accounted l owned (n + 1).
Proof. intros (? & ? & Hf). split; [done|]. split; [done|]. eapply Forall_impl; [done|]. simpl. lia. Qed.

(** A field keeps what it holds or drops it. *)
Lemma accounted_field l (old new : option Z) rest n :
  accounted l (opt_list old ++ rest) n -> new = old \/ new = None ->
  accounted (if is_none new then let_go old l else l) (opt_list new ++ rest) n.
Proof.
  intros Ha [->| ->]; simpl.
  - destruct old; simpl; [done|]. by apply (accounted_let_go l None).
  - by apply accounted_let_go.
Qed.

(** A section that only keeps or drops what the fields hold. *)
Lemma commit_ok i p f x :
  sys_ok x -> instance_of i = instance_of (inner x) \/ instance_of i = None ->
  boot_reservation i = boot_reservation (inner x) \/ boot_reservation i = None ->
  inner_ok (shutdown_failed x || f) i -> (p = true -> (shutdown_failed x || f) = true) ->
  sys_ok (commit i p f x).
Proof.
  intros [Hh Hi Hin Hr Hp] Hinst Hres Hok Hpan. split; unfold owned_holds, owned_insts; simpl.
  - by apply accounted_field.
  - by apply accounted_field.
  - done.
  - done.
  - intros [H|H]%orb_prop; [by rewrite (Hp H)|by apply Hpan].
Qed.

Lemma set_marks_ok ms x : sys_ok x -> sys_ok (set_marks ms x).
Proof. intros []. by split. Qed.

(** A boot in flight moves on with what it owns. *)
Lemma set_boots_ok x l1 b b' l2 :
  sys_ok x -> boots x = l1 ++ b :: l2 -> boot_hold b' = boot_hold b -> boot_inst b' = boot_inst b ->
  restoring b' = restoring b -> sys_ok (set_boots (l1 ++ b' :: l2) x).
Proof.
  intros [Hh Hi Hin Hr Hp] Hb E1 E2 E3. split; unfold owned_holds, owned_insts in *; simpl; try done.
  - rewrite Hb in Hh. eapply accounted_perm; [|exact Hh]. by rewrite !omap_middle, E1.
  - rewrite Hb in Hi. eapply accounted_perm; [|exact Hi]. by rewrite !omap_middle, E2.
  - intros c Hc Hres. rewrite Hb in Hr. apply elem_of_app in Hc as [Hc|[->|Hc]%elem_of_cons].
    + apply Hr; [set_solver|done].
    + rewrite E1. apply Hr; [set_solver|by rewrite <- E3].
    + apply Hr; [set_solver|done].
Qed.

(** What a section does to the fields, from a state where the invariant holds. *)
Definition keeps (failed : bool) (i i' : vm_inner) (panic f : bool) : Prop :=
  (instance_of i' = instance_of i \/ instance_of i' = None) /\
  (boot_reservation i' = boot_reservation i \/ boot_reservation i' = None) /\
  inner_ok (failed || f) i' /\ (panic = true -> (failed || f) = true).

Lemma commit_keeps i p f x : sys_ok x -> keeps (shutdown_failed x) (inner x) i p f -> sys_ok (commit i p f x).
Proof. intros Hx (? & ? & ? & ?). by apply commit_ok. Qed.

Ltac open_inner :=
  match goal with
  | |- inner_ok ?f ?i -> _ =>
      destruct i as [st run hold ? ? ?]; destruct st; unfold inner_ok; simpl; intros Hok;
      lazymatch type of Hok with
      | _ /\ _ => destruct Hok as [-> ->]
      | exists _, _ => destruct Hok as ([cid [inst|]] & -> & Hinst); [clear Hinst|specialize (Hinst eq_refl); subst f]
      | True => clear Hok; destruct run as [[? [?|]]|]
      | _ => subst hold; destruct run as [[? [?|]]|]
      end
  end.

Ltac solve_keeps :=
  unfold keeps, inner_ok, instance_of, clear_reservation, set_vm_state, take_instance in *; simpl in *;
  repeat (case_match; simplify_eq/=);
  rewrite ?orb_true_r, ?orb_false_r; repeat split;
  first [reflexivity|exact I|by left|by right|congruence|eexists; split; [reflexivity|simpl; congruence]|by eauto].

Lemma keeps_merge name over i f : inner_ok f i -> keeps f i (merge_boot_opts name over i).1 false false.
Proof. open_inner; unfold merge_boot_opts; simpl; solve_keeps. Qed.
Lemma keeps_bridge br i f : inner_ok f i -> keeps f i (add_bridge_attachment br i) false false.
Proof. open_inner; solve_keeps. Qed.
Lemma keeps_disk a i f : inner_ok f i -> keeps f i (attach_disk_record a i) false false.
Proof. open_inner; solve_keeps. Qed.
Lemma keeps_take i f : inner_ok f i -> keeps f i (take_overrides i) false false.
Proof. open_inner; solve_keeps. Qed.
Lemma keeps_pause name r i f :
  inner_ok f i -> keeps f i (pause name r i).1 (panicked (pause name r i).2) false.
Proof. open_inner; unfold pause; simpl; solve_keeps. Qed.
Lemma keeps_resume name r i f :
  inner_ok f i -> keeps f i (resume name r i).1 (panicked (resume name r i).2) false.
Proof. open_inner; unfold resume; simpl; solve_keeps. Qed.
Lemma keeps_shutdown r i f :
  inner_ok f i -> keeps f i (shutdown r i).1 false (shutdown_fails r i).
Proof. open_inner; unfold shutdown, shutdown_fails; simpl; solve_keeps. Qed.
Lemma keeps_power name r i f : inner_ok f i -> keeps f i (power_button name r i).1 false false.
Proof. open_inner; unfold power_button; simpl; solve_keeps. Qed.
Lemma keeps_mark_vmm i f : inner_ok f i -> keeps f i (mark_dead_after_vmm i) false false.
Proof. open_inner; unfold mark_dead_after_vmm; simpl; solve_keeps. Qed.
Lemma keeps_mark_client i f : inner_ok f i -> keeps f i (mark_dead_after_client i) false false.
Proof. open_inner; unfold mark_dead_after_client; simpl; solve_keeps. Qed.
Lemma keeps_drop i f :
  inner_ok f i -> keeps f i (clear_reservation (take_instance (last_drop i))) false false.
Proof. open_inner; unfold last_drop; simpl; solve_keeps. Qed.

(** A call panics only when an instance that should be there has gone. *)
Lemma keeps_call {A} name allowed missing action (r : result A vmm_error) i f :
  allowed = [Booted] \/ allowed = live_states ->
  inner_ok f i -> keeps f i i (panicked (backend_call name allowed missing action r i)) false.
Proof.
  intros [-> | ->]; open_inner; unfold backend_call, live_states; simpl; solve_keeps.
Qed.
Lemma keeps_client {A} name action (r : result A vm_error) i f :
  inner_ok f i -> keeps f i i (panicked (with_client name action r i)) false.
Proof. open_inner; unfold with_client; simpl; solve_keeps. Qed.

Lemma elem_middle (c b : booting) l1 l2 : c ∈ l1 ++ l2 -> c ∈ l1 ++ b :: l2.
Proof. rewrite !elem_of_app, elem_of_cons. tauto. Qed.

Lemma elem_middle_inv (c b : booting) l1 l2 : c ∈ l1 ++ b :: l2 -> c = b \/ c ∈ l1 ++ l2.
Proof. rewrite !elem_of_app, elem_of_cons. tauto. Qed.

(** Boots in flight come, go, take on and hand over. *)
Lemma giveup_ok x l1 b l2 :
  sys_ok x -> boots x = l1 ++ b :: l2 -> boot_inst b = None ->
  sys_ok (Sys (inner x) (l1 ++ l2) (marks x) (insts x) (let_go (boot_hold b) (holds x)) (fresh x)
            (poisoned x) (shutdown_failed x)).
Proof.
  intros [Hh Hi Hin Hr Hp] Hb Hn. unfold owned_holds, owned_insts in *. rewrite Hb in *.
  split; unfold owned_holds, owned_insts; simpl; try done.
  - apply accounted_let_go. eapply accounted_perm; [|exact Hh]. rewrite omap_middle. solve_Permutation.
  - eapply accounted_perm; [|exact Hi]. by rewrite omap_middle, Hn.
  - intros c Hc. by apply Hr, elem_middle.
Qed.

Lemma reserve_ok x l1 l2 :
  sys_ok x -> boots x = l1 ++ Booting false Taken :: l2 ->
  sys_ok (Sys (inner x) (l1 ++ Booting false (Holding (Some (fresh x))) :: l2) (marks x) (insts x)
            (fresh x :: holds x) (fresh x + 1) (poisoned x) (shutdown_failed x)).
Proof.
  intros [Hh Hi Hin Hr Hp] Hb. unfold owned_holds, owned_insts in *. rewrite Hb in *.
  split; unfold owned_holds, owned_insts; simpl; try done.
  - eapply accounted_perm; [|exact (accounted_fresh _ _ _ Hh)]. rewrite !omap_middle. simpl. solve_Permutation.
  - apply accounted_later. eapply accounted_perm; [|exact Hi]. by rewrite !omap_middle.
  - intros c [->|Hc]%elem_middle_inv; [done|]. by apply Hr, elem_middle.
Qed.

Lemma launch_ok x l1 l2 r h :
  sys_ok x -> boots x = l1 ++ Booting r (Holding h) :: l2 ->
  sys_ok (Sys (inner x) (l1 ++ Booting r (Launched h (fresh x)) :: l2) (marks x) (fresh x :: insts x)
            (holds x) (fresh x + 1) (poisoned x) (shutdown_failed x)).
Proof.
  intros [Hh Hi Hin Hr Hp] Hb. unfold owned_holds, owned_insts in *. rewrite Hb in *.
  split; unfold owned_holds, owned_insts; simpl; try done.
  - apply accounted_later. eapply accounted_perm; [|exact Hh]. by rewrite !omap_middle.
  - eapply accounted_perm; [|exact (accounted_fresh _ _ _ Hi)]. rewrite !omap_middle. simpl. solve_Permutation.
  - intros c [->|Hc]%elem_middle_inv; [|by apply Hr, elem_middle].
    apply (Hr (Booting r (Holding h))). apply elem_of_app. right. by left.
Qed.

Lemma begin_ok x r : sys_ok x -> sys_ok (set_boots (Booting r Checked :: boots x) x).
Proof.
  intros [Hh Hi Hin Hr Hp]. split; unfold owned_holds, owned_insts in *; simpl; try done.
  intros b [->|Hb]%elem_of_cons; [done|by apply Hr].
Qed.

Lemma install_ok name x l1 l2 r h inst cid i :
  sys_ok x -> boots x = l1 ++ Booting r (Launched h inst) :: l2 ->
  install name (if r then "restore" else "boot") cid inst h (negb r) (inner x) = (i, Ret (Ok ())) ->
  sys_ok (Sys i (l1 ++ l2) (marks x) (insts x) (holds x) (fresh x) (poisoned x) (shutdown_failed x)).
Proof.
  intros [Hh Hi Hin Hr Hp] Hb. unfold install. case_bool_decide as Hst; [|done]. intros [= <-].
  unfold owned_holds, owned_insts in *. rewrite Hb in *. unfold inner_ok in Hin. rewrite Hst in Hin.
  destruct Hin as [Hrun Hres]. unfold instance_of in *. rewrite Hrun, Hres in *.
  assert (Hh' : opt_list (if negb r then h else None) = opt_list h).
  { destruct r; [|done]. assert (h = None) as ->; [|done].
    apply (Hr (Booting true (Launched h inst))); [|done]. apply elem_of_app. right. by left. }
  split; unfold owned_holds, owned_insts; simpl; try done.
  - eapply accounted_perm; [|exact Hh]. rewrite omap_middle, Hh'. simpl. done.
  - eapply accounted_perm; [|exact Hi]. rewrite omap_middle. done.
  - eexists. split; [done|]. done.
  - intros c Hc. by apply Hr, elem_middle.
Qed.

Lemma lose_ok name x l1 l2 r h inst cid i e :
  sys_ok x -> boots x = l1 ++ Booting r (Launched h inst) :: l2 ->
  install name (if r then "restore" else "boot") cid inst h (negb r) (inner x) = (i, Ret (Err e)) ->
  sys_ok (Sys i (l1 ++ l2) (marks x) (let_go (Some inst) (insts x)) (let_go h (holds x)) (fresh x)
            (poisoned x) (shutdown_failed x)).
Proof.
  intros [Hh Hi Hin Hr Hp] Hb. unfold install. case_bool_decide as Hst; [done|]. intros [= <- _].
  unfold owned_holds, owned_insts in *. rewrite Hb in *.
  split; unfold owned_holds, owned_insts; cbn [inner boots insts holds fresh marks poisoned shutdown_failed]; try done.
  - apply accounted_let_go. eapply accounted_perm; [|exact Hh]. rewrite omap_middle. simpl. solve_Permutation.
  - apply accounted_let_go. eapply accounted_perm; [|exact Hi]. rewrite omap_middle. simpl. solve_Permutation.
  - intros c Hc. by apply Hr, elem_middle.
Qed.

#[local] Hint Resolve keeps_merge keeps_bridge keeps_disk keeps_take keeps_pause keeps_resume keeps_shutdown
  keeps_power keeps_mark_vmm keeps_mark_client keeps_drop keeps_call keeps_client ok_inner : core.

Lemma vm_sys_ok_step name x y : step name x y -> sys_ok x -> sys_ok y.
Proof.
  intros [_ Ha] Hok. destruct Ha; eauto using giveup_ok, reserve_ok, launch_ok, begin_ok, install_ok, lose_ok;
    try (by apply commit_keeps; auto); try (by apply set_marks_ok, commit_keeps; auto);
    try (by apply set_marks_ok); try (by eapply set_boots_ok).
  - apply set_marks_ok, commit_keeps; [done|]. apply keeps_call; auto.
  - apply set_marks_ok, commit_keeps; [done|]. apply keeps_client; auto.
  - eapply (set_boots_ok (commit (take_overrides (inner x)) false false x)); [|done..].
    apply commit_keeps; auto.
Qed.

Lemma vm_sys_ok_init : sys_ok sys_init.
Proof.
  split; unfold owned_holds, owned_insts, accounted; simpl; try done.
  - split; [done|]. split; [apply NoDup_nil_2|done].
  - split; [done|]. split; [apply NoDup_nil_2|done].
  - intros b Hb. by apply elem_of_nil in Hb.
Qed.

Lemma vm_reachable_ok name x : reachable name x -> sys_ok x.
Proof.
  apply (rtc_ind_r sys_ok sys_init); [apply vm_sys_ok_init|]. intros. by eapply vm_sys_ok_step.
Qed.

(** ** The state machine *)

(** The transitions of the documented state machine, and staying put. *)
Definition may_move (a b : vm_state) : bool :=
  match a, b with
  | Created, (Created | Booted | Shutdown) => true
  | Booted, (Booted | Paused | Dead | Shutdown) => true
  | Paused, (Paused | Booted | Dead | Shutdown) => true
  | Dead, (Dead | Shutdown) => true
  | Shutdown, Shutdown => true
  | _, _ => false
  end.

Lemma may_move_refl a : may_move a a = true.
Proof. by destruct a. Qed.

Ltac moves :=
  match goal with |- may_move (state ?i) _ = true => destruct i as [[] ? ? ? ? ?] end;
  unfold install, merge_boot_opts, pause, resume, shutdown, power_button, mark_dead_after_vmm,
    mark_dead_after_client, last_drop in *; simpl in *; repeat (case_match; simplify_eq/=); done.

Lemma act_moves name x y : act name x y -> may_move (state (inner x)) (state (inner y)) = true.
Proof. destruct 1; simpl; try apply may_move_refl; moves. Qed.

Lemma may_move_final a b :
  may_move a b = true ->
  (a = Shutdown -> b = Shutdown) /\ (a = Dead -> b = Dead \/ b = Shutdown) /\ (a <> Created -> b <> Created).
Proof. by destruct a, b; auto. Qed.

Lemma run_final name x y :
  rtc (step name) x y ->
  (state (inner x) = Shutdown -> state (inner y) = Shutdown) /\
  (state (inner x) = Dead -> state (inner y) = Dead \/ state (inner y) = Shutdown) /\
  (state (inner x) <> Created -> state (inner y) <> Created).
Proof.
  induction 1 as [|x y z [_ Ha] _ (IH1 & IH2 & IH3)]; [by auto|].
  destruct (may_move_final _ _ (act_moves _ _ _ Ha)) as (H1 & H2 & H3). split; [by auto|]. split; [|by auto].
  intros Hd. destruct (H2 Hd); auto.
Qed.

(** * [reset] *)

Definition RESET_AGENT_TIMEOUT : Z := 120000 (* ms *).

(** [QemuBackend::reset]: whether it switched the reboot action from
    [shutdown] to [reset], and its result, from the answers of [set-action],
    of [system_reset] and of the wait for the [RESET] event. *)
Definition qemu_reset (set_action system_reset landed : result () qmp_error) : bool * result () vmm_error :=
  match set_action with
  | Err e => (false, Err (VmmQmp e))
  | Ok _ =>
      match system_reset with
      | Err e => (true, Err (VmmQmp e))
      | Ok _ => (true, match landed with Ok _ => Ok () | Err e => Err (VmmQmp e) end)
      end
  end.

(** One turn of the loop that waits for the agent: the time it ends, the state
    it saw, and the answer to its ping ([None]: no machine). *)
Record probe := Probe { probed_at : Z; probed_state : vm_state; answered : option bool }.

Fixpoint reset_loop (name : string) (deadline : Z) (probes : list probe) : option (result () vm_error) :=
  match probes with
  | [] => None
  | p :: rest =>
      match answered p with
      | None => Some (Err (WrongState name (probed_state p) "reset"))
      | Some true => Some (Ok ())
      | Some false =>
          if deadline <=? probed_at p then Some (Err (VClient (Connect "TimedOut")))
          else reset_loop name deadline rest
      end
  end.

(** [end_reset_window] on the handle as it is by then: is the action still
    [reset] afterwards? *)
Definition end_reset_window (i : vm_inner) (restored : result () qmp_error) (window : bool) : bool :=
  match instance_of i, restored with Some _, Ok _ => false | _, _ => window end.

(** [Vm::reset], waiting from [start] on, of a machine launched to exit on reboot:
    its result, and whether the machine is left with the action [reset]. *)
Definition vm_reset (name : string) (i : vm_inner) (start : Z)
    (set_action system_reset landed : result () qmp_error) (probes : list probe)
    (i' : vm_inner) (restored : result () qmp_error) : option (outcome () * bool) :=
  let '(opened, r) := qemu_reset set_action system_reset landed in
  let asked := bool_decide (state i = Booted) && negb (is_none (instance_of i)) in
  let window := asked && opened in
  match reset_command name r i with
  | Ret (Ok _) =>
      match reset_loop name (start + RESET_AGENT_TIMEOUT) probes with
      | None => None
      | Some outcome => Some (Ret outcome, end_reset_window i' restored window)
      end
  | o => Some (o, window)
  end.

Lemma reset_loop_ends name deadline probes :
  Exists (fun p => deadline <= probed_at p) probes -> is_Some (reset_loop name deadline probes).
Proof.
  induction 1 as [p probes Hp|p probes _ IH]; simpl; destruct (answered p) as [[]|]; try by eexists.
  - rewrite (proj2 (Z.leb_le _ _)) by done. by eexists.
  - case_match; [by eexists|done].
Qed.

Lemma reset_command_booted name r i :
  state i = Booted -> is_Some (instance_of i) ->
  reset_command name r i = Ret (match r with Ok a => Ok a | Err e => Err (VVmm e) end).
Proof.
  intros Hst [inst Hi]. unfold reset_command, backend_call. rewrite Hst, bool_decide_true by by left.
  unfold instance_of in Hi. destruct (running i) as [[cid o]|]; simplify_eq/=. done.
Qed.

(** * Promises *)

(** C12: whatever the threads sharing a handle do, a machine only moves along
    the state machine: [Created] to [Booted], [Booted] and [Paused] to and fro,
    either to [Dead], anything to [Shutdown]. [Shutdown] is final, a dead
    machine can only be shut down, and no machine is created twice. *)
Theorem vm_lifecycle name x y :
  (step name x y -> may_move (state (inner x)) (state (inner y)) = true) /\
  (rtc (step name) x y ->
   (state (inner x) = Shutdown -> state (inner y) = Shutdown) /\
   (state (inner x) = Dead -> state (inner y) = Dead \/ state (inner y) = Shutdown) /\
   (state (inner x) <> Created -> state (inner y) <> Created)).
Proof. split; [intros [_ Ha]; by eapply act_moves|apply run_final]. Qed.

(** C7: nothing leaks and nothing is owned twice. In every interleaving the
    machines running are exactly the handle's and those of boots in flight,
    and so are the reservations held; so with no boot in flight there is at
    most one machine, and a handle that is created or shut down holds no
    reservation. *)
Theorem vm_resources_accounted name x :
  reachable name x ->
  (insts x ≡ₚ owned_insts x /\ NoDup (insts x)) /\ (holds x ≡ₚ owned_holds x /\ NoDup (holds x)) /\
  (boots x = [] -> (length (insts x) <= 1)%nat /\
     (state (inner x) = Created \/ state (inner x) = Shutdown -> holds x = [])).
Proof.
  intros [(Hh & Hhn & _) (Hi & Hin & _) Hok _ _]%vm_reachable_ok.
  split; [done|]. split; [done|]. intros Hb. unfold owned_holds, owned_insts in *. rewrite Hb in *. split.
  - rewrite Hi. simpl. rewrite app_nil_r. unfold opt_list. case_match; simpl; lia.
  - unfold inner_ok in Hok. intros Hst.
    assert (Hres : boot_reservation (inner x) = None) by (destruct Hst as [E|E]; rewrite E in Hok; [apply Hok|done]).
    rewrite Hres in Hh. by apply Permutation_nil_r in Hh.
Qed.

(** A reset that waits long enough returns, and it leaves the reboot
    action switched, on a machine whose restore works, exactly when
    [set-action] was accepted and the reset itself then failed: that way out
    skips [end_reset_window]. *)
Lemma reset_closes_window name i start set_action system_reset landed probes i' :
  state i = Booted -> is_Some (instance_of i) -> is_Some (instance_of i') ->
  Exists (fun p => start + RESET_AGENT_TIMEOUT <= probed_at p) probes ->
  exists r window,
    vm_reset name i start set_action system_reset landed probes i' (Ok ()) = Some (Ret r, window) /\
    (window = true <-> is_ok set_action = true /\ (is_ok system_reset = false \/ is_ok landed = false)) /\
    (window = true -> is_ok r = false).
Proof.
  intros Hst Hi [inst' Hi'] Hp. destruct (reset_loop_ends name _ _ Hp) as [r Hr].
  unfold vm_reset. rewrite Hst. destruct Hi as [inst Hinst]. rewrite Hinst. simpl.
  destruct set_action as [[]|e1], system_reset as [[]|e2], landed as [[]|e3]; simpl;
    rewrite reset_command_booted by (try done; by eexists); simpl;
    try (eexists _, _; split; [reflexivity|]; simpl; intuition congruence).
  rewrite Hr. unfold end_reset_window. rewrite Hi'. eexists _, _. split; [reflexivity|]. simpl. intuition congruence.
Qed.

(** ** Runs *)

Definition demo_booted : sys :=
  Sys (VmInner Booted (Some (Running 3 (Some 1))) (Some 0) ∅ ∅ None) [] [] [1] [0] 2 false false.

Lemma demo_booted_reachable : reachable "a" demo_booted.
Proof.
  eapply rtc_l; [split; [done|apply (ABegin "a" sys_init false); done]|].
  eapply rtc_l; [split; [done|apply (ATake "a" _ [] []); done]|].
  eapply rtc_l; [split; [done|apply (AReserve "a" _ [] []); done]|].
  eapply rtc_l; [split; [done|eapply (ALaunch "a" _ [] []); done]|].
  eapply rtc_l; [split; [done|eapply (AInstall "a" _ [] [] false (Some 0) 1 3); done]|].
  apply rtc_refl.
Qed.

Lemma demo_poisoned_reachable : exists x, reachable "a" x /\ poisoned x = true.
Proof.
  eexists. split.
  - eapply rtc_r; [eapply rtc_r; [exact demo_booted_reachable|]|].
    + split; [done|]. apply (AShutdown "a" _ (Err (VmmIo "wait"))).
    + split; [done|]. apply (APause "a" _ (Ok ())).
  - reflexivity.
Qed.

(** No operation panics as long as no machine's own shutdown has failed;
    but [shutdown] takes the instance out before that failure is known and
    leaves the state as it was, so after one the handle can be poisoned, by
    the next [pause] for instance. *)
Lemma panic_needs_failed_shutdown :
  (forall name x, reachable name x -> shutdown_failed x = false -> poisoned x = false) /\
  (exists x, reachable "a" x /\ poisoned x = true).
Proof.
  split; [|exact demo_poisoned_reachable]. intros name x Hx%vm_reachable_ok Hf.
  destruct (poisoned x) eqn:E; [|done]. apply (ok_poison x Hx) in E. congruence.
Qed.

Lemma vm_resources_accounted_witness :
  reachable "a" demo_booted /\ insts demo_booted ≡ₚ owned_insts demo_booted /\
  (length (insts demo_booted) <= 1)%nat.
Proof.
  split; [exact demo_booted_reachable|].
  destruct (vm_resources_accounted "a" demo_booted demo_booted_reachable) as ([Hi _] & _ & Hb).
  split; [exact Hi|]. apply Hb. reflexivity.
Defined.

(** The reset command is refused after the action was switched. *)
Lemma reset_closes_window_witness :
  exists r window,
    vm_reset "a" (inner demo_booted) 0 (Ok ()) (Err (QCommand "system_reset" "GenericError" "no")) (Ok ())
      [Probe 120000 Booted (Some true)] (inner demo_booted) (Ok ()) = Some (Ret r, window) /\ window = true.
Proof.
  destruct (reset_closes_window "a" (inner demo_booted) 0 (Ok ())
    (Err (QCommand "system_reset" "GenericError" "no")) (Ok ()) [Probe 120000 Booted (Some true)]
    (inner demo_booted)) as (r & w & E & Hw & _);
    [reflexivity|by eexists|by eexists|by constructor|].
  exists r, w. split; [exact E|]. apply Hw. split; [reflexivity|by left].
Defined.
