(* ===== verification/DiskPorts.v ===== *)
(** Runtime disk ports, [src/provium-host/src/vmm/disk_hotplug.rs]: a fixed set
    of PCI ports a running machine's disks are plugged into, against a monitor
    whose device removals finish when the guest pleases. *)
From stdpp Require Import pretty.
From S2P Require Import Prelude Qmp Vm.

Open Scope string_scope.
Open Scope list_scope.
Open Scope Z_scope.

Definition PORT_COUNT : nat := 8.

(** * Port names *)

(** [while !used.insert(name) { name.push('_') }]; [fuel] bounds the loop. *)
Fixpoint insert_fresh (fuel : nat) (used : gset string) (name : string) : gset string * string :=
  match fuel with
  | O => (used, name)
  | S fuel' =>
      if decide (name ∈ used) then insert_fresh fuel' used (name +:+ "_")
      else ({[name]} ∪ used, name)
  end.

Definition used_names (disk_ids : list string) : gset string :=
  foldl (fun used id => used ∪ {[ id; id +:+ "-node"; id +:+ "-port" ]}) ∅ disk_ids.

(** The loop over [0..PORT_COUNT]; a name clashes at most once per used name. *)
Fixpoint names_from (count : nat) (i : N) (used : gset string) : list string :=
  match count with
  | O => []
  | S count' =>
      let '(used', name) := insert_fresh (S (size used)) used ("provium-hotplug-" +:+ pretty i) in
      name :: names_from count' (i + 1) used'
  end.

Definition port_names (disk_ids : list string) : list string :=
  names_from PORT_COUNT 0 (used_names disk_ids).

(** * The monitor *)

(** The PCI inventory as the monitor describes it. *)
#[warnings="-register-all"]
Inductive pci_device := PciDevice (qdev_id : string) (pci_bridge : option (list pci_device)).

Fixpoint collect (d : pci_device) : list string :=
  match d with
  | PciDevice id bridge =>
      id :: match bridge with None => [] | Some ds => flat_map collect ds end
  end.

(** [None]: JSON of another shape. *)
Definition live_devices (value : option (list (list pci_device))) : result (gset string) vmm_error :=
  match value with
  | None => Err (VmmIo "invalid QMP PCI inventory")
  | Some buses => Ok (list_to_set (flat_map (flat_map collect) buses))
  end.

Inductive mon_command :=
| QueryPci
| BlockdevAdd (node : string) (readonly : bool) (filename : string)
| DeviceAdd (drive id bus : string)
| BlockdevDel (node : string).

(** The part of a reply [attach] looks at: the inventory of a [query-pci]. *)
Definition mon_reply : Type := option (list (list pci_device)).

(** [Monitor::execute], and what QEMU holds: its block nodes, and the runtime
    devices with the bus each sits on. *)
Class Monitor (M : Type) := {
  execute : mon_command -> M -> M * result mon_reply vmm_error;
  nodes : M -> gset string;
  devices : M -> gmap string string;
}.

Definition control_lost (e : vmm_error) : bool :=
  match e with VmmQmp (QTimeout _) | VmmQmp (QIo _) | VmmQmp (QClosed _) => true | _ => false end.

(** QEMU's documented behaviour: a refused command changes nothing; after a
    lost connection it may or may not have happened; node names are unique; an
    inventory lists every device there is. *)
Class MonitorLaws (M : Type) `{!Monitor M} : Prop := {
  query_law q q' r : execute QueryPci q = (q', r) ->
    nodes q' = nodes q /\ devices q' = devices q /\
    (forall v live, r = Ok v -> live_devices v = Ok live -> dom (devices q) ⊆ live);
  add_node_law n ro f q q' r : execute (BlockdevAdd n ro f) q = (q', r) ->
    devices q' = devices q /\
    match r with
    | Ok _ => (n ∉ nodes q) /\ nodes q' = {[n]} ∪ nodes q
    | Err e => control_lost e = false -> nodes q' = nodes q
    end;
  add_device_law n id bus q q' r : execute (DeviceAdd n id bus) q = (q', r) ->
    nodes q' = nodes q /\
    match r with
    | Ok _ => devices q' = <[id := bus]> (devices q)
    | Err e => devices q' = devices q \/ control_lost e = true /\ devices q' = <[id := bus]> (devices q)
    end;
  del_node_law n q q' r : execute (BlockdevDel n) q = (q', r) ->
    devices q' = devices q /\
    match r with
    | Ok _ => nodes q' = nodes q ∖ {[n]}
    | Err e => control_lost e = false -> nodes q' = nodes q
    end;
}.

(** * [DiskPorts] *)

Abbreviation slots := (list (string * option string)).

Definition ports_new (names : list string) : slots := (fun name => (name, None)) <$> names.

Definition node_of (id : string) : string := id +:+ "-node".

Section attach.
Context {M : Type} `{!Monitor M}.

(** The loop that frees the ports whose device is gone. *)
Fixpoint release_ports (live : gset string) (ss : slots) (q : M) : slots * M * result () vmm_error :=
  match ss with
  | [] => ([], q, Ok ())
  | (port, Some id) :: rest =>
      if decide (id ∈ live) then
        let '(rest', q', r) := release_ports live rest q in ((port, Some id) :: rest', q', r)
      else
        match execute (BlockdevDel (node_of id)) q with
        | (q1, Err e) => (ss, q1, Err e)
        | (q1, Ok _) =>
            let '(rest', q', r) := release_ports live rest q1 in ((port, None) :: rest', q', r)
        end
  | (port, None) :: rest =>
      let '(rest', q', r) := release_ports live rest q in ((port, None) :: rest', q', r)
  end.

Definition no_free_port : vmm_error :=
  VmmIo "no free runtime disk port (capacity 8); wait for guest removal before attaching another disk".

Definition show_vmm (e : vmm_error) : string :=
  match e with
  | VmmIo k => k
  | VmmQmp (QCommand _ _ desc) => desc
  | _ => ""
  end.

(** After the ports were released: the free port, the node, the device. *)
Definition plug (disk_id image : string) (readonly : bool) (ss : slots) (q : M) : slots * M * result () vmm_error :=
  match list_find (fun s => s.2 = None) ss with
  | None => (ss, q, Err no_free_port)
  | Some (i, (port, _)) =>
      let node := node_of disk_id in
      match execute (BlockdevAdd node readonly image) q with
      | (q1, Err e) => (ss, q1, Err e)
      | (q1, Ok _) =>
          let occupied := <[i := (port, Some disk_id)]> ss in
          match execute (DeviceAdd node disk_id port) q1 with
          | (q2, Ok _) => (occupied, q2, Ok ())
          | (q2, Err add) =>
              if control_lost add then (occupied, q2, Err add)
              else
                match execute (BlockdevDel node) q2 with
                | (q3, Ok _) => (<[i := (port, None)]> occupied, q3, Err add)
                | (q3, Err cleanup) =>
                    if control_lost cleanup then (occupied, q3, Err cleanup)
                    else (occupied, q3, Err (VmmIo (show_vmm add +:+ "; cleaning up runtime disk `" +:+ disk_id +:+
                                                   "` also failed: " +:+ show_vmm cleanup)))
                end
          end
      end
  end.

Definition attach (disk_id image : string) (readonly : bool) (ss : slots) (q : M) : slots * M * result () vmm_error :=
  match execute QueryPci q with
  | (q1, Err e) => (ss, q1, Err e)
  | (q1, Ok v) =>
      match live_devices v with
      | Err e => (ss, q1, Err e)
      | Ok live =>
          match release_ports live ss q1 with
          | (ss1, q2, Err e) => (ss1, q2, Err e)
          | (ss1, q2, Ok _) => plug disk_id image readonly ss1 q2
          end
      end
  end.
End attach.

(** * Names that clash with nothing *)

Definition long_names (n : nat) (used : gset string) : gset string :=
  filter (fun s => n <= String.length s)%nat used.

Lemma length_push name : String.length (name +:+ "_") = S (String.length name).
Proof. induction name as [|c name IH]; [done|]. simpl. f_equal. exact IH. Qed.

Lemma insert_fresh_spec fuel used name used' name' :
  (size (long_names (String.length name) used) < fuel)%nat ->
  insert_fresh fuel used name = (used', name') ->
  (name' ∉ used) /\ used' = {[name']} ∪ used.
Proof.
  revert name. induction fuel as [|fuel IH]; intros name Hlt; [lia|]. cbn [insert_fresh].
  destruct (decide (name ∈ used)) as [Hin|Hout]; [|by intros [= <- <-]].
  apply IH. rewrite length_push.
  assert (Hsub : long_names (S (String.length name)) used ⊂ long_names (String.length name) used).
  { split.
    - intros x. unfold long_names. rewrite !elem_of_filter. intros [? ?]. split; [lia|done].
    - intros Hsub. assert (H : name ∈ long_names (S (String.length name)) used)
        by (apply Hsub, elem_of_filter; split; [lia|done]).
      apply elem_of_filter in H as [H _]. lia. }
  apply subset_size in Hsub. lia.
Qed.

Lemma names_from_spec count i used :
  length (names_from count i used) = count /\ NoDup (names_from count i used) /\
  forall name, name ∈ names_from count i used -> name ∉ used.
Proof.
  revert i used. induction count as [|count IH]; intros i used; cbn [names_from].
  { split_and!; [done|constructor|]. intros n Hn. by apply not_elem_of_nil in Hn. }
  destruct (insert_fresh _ _ _) as [used' name] eqn:E.
  apply insert_fresh_spec in E as [Hname ->].
  2:{ apply Nat.lt_succ_r, subseteq_size. intros x Hx. by apply elem_of_filter in Hx as [_ ?]. }
  destruct (IH (i + 1)%N ({[name]} ∪ used)) as (Hl & Hnd & Hout). split_and!.
  - simpl. by rewrite Hl.
  - constructor; [|done]. intros Hin. apply Hout in Hin. set_solver.
  - intros n Hn. apply elem_of_cons in Hn as [->|Hn]; [done|]. apply Hout in Hn. set_solver.
Qed.

(** Eight distinct names, none of them an identifier of a launch disk or of
    its node or port. *)
Lemma port_names_fresh ids :
  length (port_names ids) = PORT_COUNT /\ NoDup (port_names ids) /\
  forall id name, id ∈ ids -> name ∈ port_names ids ->
    name <> id /\ name <> id +:+ "-node" /\ name <> id +:+ "-port".
Proof.
  destruct (names_from_spec PORT_COUNT 0 (used_names ids)) as (Hl & Hnd & Hout).
  split_and!; auto. intros id name Hid Hname. apply Hout in Hname.
  assert (H : forall acc, {[ id; id +:+ "-node"; id +:+ "-port" ]} ⊆
     foldl (fun used id => used ∪ {[ id; id +:+ "-node"; id +:+ "-port" ]}) (acc : gset string) ids).
  { clear -Hid. assert (Hmono : forall l (acc : gset string), acc ⊆
        foldl (fun used id => used ∪ {[ id; id +:+ "-node"; id +:+ "-port" ]}) acc l).
    { induction l as [|x l IH]; intros acc; simpl; [done|]. etransitivity; [|apply IH]. set_solver. }
    induction Hid as [l|x y l Hin IH]; intros acc; simpl; [|apply IH].
    etransitivity; [|apply Hmono]. set_solver. }
  specialize (H ∅). fold (used_names ids) in H. set_solver.
Qed.

(** * What the ports promise *)

Definition occupants (ss : slots) : list string := omap snd ss.

Lemma node_of_inj a b : node_of a = node_of b -> a = b.
Proof.
  unfold node_of. revert b. induction a as [|x a IH]; intros [|y b] H; simpl in H; try done.
  - injection H as -> H. destruct b as [|z b]; [done|]. injection H as -> H.
    destruct b as [|? b]; [done|]. injection H as _ H. by destruct b as [|? [|? [|? [|? b]]]].
  - injection H as -> H. destruct a as [|z a]; [done|]. injection H as -> H.
    destruct a as [|? a]; [done|]. injection H as _ H. by destruct a as [|? [|? [|? [|? a]]]].
  - injection H as -> H. f_equal. by apply IH.
Qed.

Lemma elem_of_occupants ss id : id ∈ occupants ss <-> exists p, (p, Some id) ∈ ss.
Proof.
  unfold occupants. rewrite list_elem_of_omap. split.
  - intros ([p o] & Hin & Heq). simpl in Heq. subst. eauto.
  - intros [p Hin]. by exists (p, Some id).
Qed.

Section soundness.
Context {M : Type} `{!Monitor M} `{!MonitorLaws M}.
(** The block nodes of the disks the machine was launched with. *)
Context (launch : gset string).

Record ports_ok (ss : slots) (q : M) : Prop := {
  po_names : NoDup ss.*1;
  po_recorded id p : devices q !! id = Some p -> p ∈ ss.*1 -> (p, Some id) ∈ ss;
  po_distinct : NoDup (occupants ss);
  po_owned id : id ∈ occupants ss -> node_of id ∈ nodes q /\ node_of id ∉ launch;
  po_bounded n : n ∈ nodes q -> n ∈ launch \/ exists id, id ∈ occupants ss /\ n = node_of id;
  po_launch : launch ⊆ nodes q;
}.

(** The guest finished some removals: devices go, nothing else changes. *)
Lemma ports_ok_guest ss q q' :
  ports_ok ss q -> nodes q' = nodes q -> devices q' ⊆ devices q -> ports_ok ss q'.
Proof.
  intros [H1 H2 H3 H4 H5 H6] Hn Hd. split; rewrite ?Hn; auto.
  intros id p Hp. apply H2. by eapply lookup_weaken.
Qed.

(** A port is freed after its node was deleted. *)
Lemma ports_ok_free pre port id post q q' :
  ports_ok (pre ++ (port, Some id) :: post) q -> devices q' = devices q ->
  nodes q' = nodes q ∖ {[node_of id]} -> devices q !! id = None ->
  ports_ok (pre ++ (port, None) :: post) q'.
Proof.
  intros [H1 H2 H3 H4 H5 H6] Hd Hn Hid.
  assert (Hocc : occupants (pre ++ (port, Some id) :: post) = occupants pre ++ id :: occupants post).
  { unfold occupants. by rewrite omap_app. }
  assert (Hocc' : occupants (pre ++ (port, None) :: post) = occupants pre ++ occupants post).
  { unfold occupants. by rewrite omap_app. }
  assert (Hperm : occupants (pre ++ (port, Some id) :: post) ≡ₚ id :: occupants (pre ++ (port, None) :: post)).
  { rewrite Hocc, Hocc'. solve_Permutation. }
  rewrite Hperm in H3. apply NoDup_cons in H3 as [Hni H3].
  assert (Hfst : (pre ++ (port, None) :: post).*1 = (pre ++ (port, Some id) :: post).*1)
    by (rewrite !fmap_app; done).
  split; rewrite ?Hd, ?Hn, ?Hfst; auto.
  - intros x p Hx Hp. specialize (H2 x p Hx Hp). apply elem_of_app in H2 as [H2|[H2|H2]%elem_of_cons].
    + apply elem_of_app; by left.
    + injection H2 as _ ->. congruence.
    + apply elem_of_app; right; by apply list_elem_of_further.
  - intros x Hx. destruct (H4 x) as [Hx1 Hx2]; [rewrite Hperm; by right|]. split; [|done].
    apply elem_of_difference. split; [done|]. intros E%elem_of_singleton. apply node_of_inj in E. by subst.
  - intros n [Hn1 Hn2]%elem_of_difference. destruct (H5 n Hn1) as [?|(x & Hx & ->)]; [by left|right].
    rewrite Hperm in Hx. apply elem_of_cons in Hx as [->|Hx]; [|by exists x]. by apply not_elem_of_singleton in Hn2.
  - intros n Hl. apply elem_of_difference. split; [by apply H6|]. intros E%elem_of_singleton.
    destruct (H4 id) as [_ Hnl]; [rewrite Hperm; by left|]. by subst.
Qed.

(** The release loop, whatever the monitor refuses: only ports whose device
    is gone are freed, and what is still occupied afterwards is live. *)
Lemma release_ports_ok live ss pre q ss' q' r :
  ports_ok (pre ++ ss) q -> dom (devices q) ⊆ live ->
  release_ports live ss q = (ss', q', r) ->
  (forall e, r = Err e -> control_lost e = false) ->
  ports_ok (pre ++ ss') q' /\ devices q' = devices q /\ ss'.*1 = ss.*1 /\
  (r = Ok () -> forall p id, (p, Some id) ∈ ss' -> id ∈ live).
Proof.
  revert pre q ss' q' r. induction ss as [|[port [id|]] ss IH]; intros pre q ss' q' r Hok Hlive; cbn [release_ports].
  - intros [= <- <- <-] _. split_and!; auto. intros _ p id Hin. by apply not_elem_of_nil in Hin.
  - assert (Happ : forall l, pre ++ (port, Some id) :: l = (pre ++ [(port, Some id)]) ++ l) by (intros; by rewrite <- app_assoc).
    destruct (decide (id ∈ live)) as [Hin|Hout].
    + destruct (release_ports live ss q) as [[rest' q1] r1] eqn:E. intros [= <- <- <-] Hr.
      rewrite Happ in Hok. destruct (IH _ _ _ _ _ Hok Hlive E Hr) as (H1 & H2 & H3 & H4).
      rewrite <- Happ in H1. split_and!; auto; [by rewrite !fmap_cons, H3|].
      intros Ho p x [Hx|Hx]%elem_of_cons; [by injection Hx as -> ->|eauto].
    + destruct (execute (BlockdevDel (node_of id)) q) as [q1 [v|e]] eqn:E; pose proof (del_node_law _ _ _ _ E) as [Hd Hn].
      * destruct (release_ports live ss q1) as [[rest' q2] r1] eqn:E1. intros [= <- <- <-] Hr.
        assert (Hfree : ports_ok (pre ++ (port, None) :: ss) q1).
        { eapply ports_ok_free; eauto. apply not_elem_of_dom. set_solver. }
        replace (pre ++ (port, None) :: ss) with ((pre ++ [(port, None)]) ++ ss) in Hfree by by rewrite <- app_assoc.
        rewrite <- Hd in Hlive.
        destruct (IH _ _ _ _ _ Hfree Hlive E1 Hr) as (H1 & H2 & H3 & H4).
        rewrite <- app_assoc in H1. split_and!; [exact H1|congruence|by rewrite !fmap_cons, H3|].
        intros Ho p x [Hx|Hx]%elem_of_cons; [done|eauto].
      * intros [= <- <- <-] Hr. specialize (Hn (Hr e eq_refl)). split_and!; auto; try done.
        apply (ports_ok_guest _ q); auto. by rewrite Hd.
  - destruct (release_ports live ss q) as [[rest' q1] r1] eqn:E. intros [= <- <- <-] Hr.
    assert (Happ : forall l, pre ++ (port, None) :: l = (pre ++ [(port, None)]) ++ l) by (intros; by rewrite <- app_assoc).
    rewrite Happ in Hok. destruct (IH _ _ _ _ _ Hok Hlive E Hr) as (H1 & H2 & H3 & H4).
    rewrite <- Happ in H1. split_and!; auto; [by rewrite !fmap_cons, H3|].
    intros Ho p x [Hx|Hx]%elem_of_cons; [done|eauto].
Qed.

(** A free port takes a device whose node was just added. *)
Lemma ports_ok_fill pre port post id q q' :
  ports_ok (pre ++ (port, None) :: post) q -> node_of id ∉ nodes q ->
  nodes q' = {[node_of id]} ∪ nodes q ->
  devices q' = devices q \/ devices q' = <[id := port]> (devices q) ->
  ports_ok (pre ++ (port, Some id) :: post) q'.
Proof.
  intros [H1 H2 H3 H4 H5 H6] Hnode Hn Hd.
  assert (Hperm : occupants (pre ++ (port, Some id) :: post) ≡ₚ id :: occupants (pre ++ (port, None) :: post)).
  { unfold occupants. rewrite !omap_app. simpl. solve_Permutation. }
  assert (Hfst : (pre ++ (port, Some id) :: post).*1 = (pre ++ (port, None) :: post).*1)
    by (rewrite !fmap_app; done).
  assert (Hkeep : forall x p, (p, Some x) ∈ pre ++ (port, None) :: post -> (p, Some x) ∈ pre ++ (port, Some id) :: post).
  { intros x p [Hx|[Hx|Hx]%elem_of_cons]%elem_of_app; apply elem_of_app; [by left|done|right; by right]. }
  assert (Hold : forall x p, devices q !! x = Some p -> p ∈ (pre ++ (port, None) :: post).*1 ->
    (p, Some x) ∈ pre ++ (port, Some id) :: post) by eauto.
  split; rewrite ?Hfst, ?Hn; auto.
  - intros x p Hx Hp. destruct Hd as [Hd|Hd]; rewrite Hd in Hx; [by apply Hold|].
    apply lookup_insert_Some in Hx as [[-> ->]|[_ Hx]]; [|by apply Hold]. apply elem_of_app. right. by left.
  - rewrite Hperm. apply NoDup_cons. split; [|done]. intros Hin. by destruct (H4 id Hin).
  - intros x Hx. rewrite Hperm in Hx. apply elem_of_cons in Hx as [->|Hx].
    + split; [set_solver|]. intros Hl. by apply Hnode, H6.
    + destruct (H4 x Hx). split; [set_solver|done].
  - intros n [Hn1%elem_of_singleton|Hn1]%elem_of_union.
    + right. exists id. split; [rewrite Hperm; by left|done].
    + destruct (H5 n Hn1) as [?|(x & Hx & ->)]; [by left|right]. exists x. split; [rewrite Hperm; by right|done].
  - set_solver.
Qed.

(** Nothing on a free port. *)
Lemma free_port_empty pre port post q x :
  ports_ok (pre ++ (port, None) :: post) q -> devices q !! x <> Some port.
Proof.
  intros [H1 H2 _ _ _ _] Hx.
  assert (Hin : (port, Some x) ∈ pre ++ (port, None) :: post).
  { apply H2; [done|]. rewrite fmap_app. apply elem_of_app. right. by left. }
  rewrite fmap_app in H1. apply NoDup_app in H1 as (_ & Hdis & Hpost). simpl in Hpost.
  apply NoDup_cons in Hpost as [Hpost _].
  apply elem_of_app in Hin as [Hin|[Hin|Hin]%elem_of_cons]; [|done|].
  - apply (Hdis port); [|by left]. by apply (list_elem_of_fmap_2 fst) in Hin.
  - apply Hpost. by apply (list_elem_of_fmap_2 fst) in Hin.
Qed.

Lemma plug_ok id image ro ss q ss' q' r :
  ports_ok ss q -> plug id image ro ss q = (ss', q', r) ->
  (forall e, r = Err e -> control_lost e = false) ->
  ports_ok ss' q' /\ ss'.*1 = ss.*1 /\
  match r with
  | Ok _ => exists p, p ∈ ss.*1 /\ (forall x, devices q !! x <> Some p) /\ devices q' = <[id := p]> (devices q)
  | Err e => devices q' = devices q
  end.
Proof.
  intros Hok. unfold plug. destruct (list_find _ ss) as [[i [port o]]|] eqn:Hfind.
  2:{ intros [= <- <- <-] _. by split_and!. }
  apply list_find_Some in Hfind as (Hi & Ho & _). simpl in Ho. subst o.
  pose proof (take_drop_middle _ _ _ Hi) as Hss. set (pre := take i ss) in *. set (post := drop (S i) ss) in *.
  assert (Hins : forall x, <[i := x]> ss = pre ++ x :: post).
  { intros x. apply insert_take_drop. by eapply lookup_lt_Some. }
  rewrite <- Hss in Hok.
  destruct (execute (BlockdevAdd (node_of id) ro image) q) as [q1 [v|e]] eqn:E1;
    pose proof (add_node_law _ _ _ _ _ _ E1) as [Hd1 Hn1].
  2:{ intros [= <- <- <-] Hr. rewrite Hss in Hok. split_and!; auto.
      apply (ports_ok_guest _ q); [done|by apply Hn1, Hr|by rewrite Hd1]. }
  destruct Hn1 as [Hnode Hn1].
  assert (Hfst : forall o, (pre ++ (port, o) :: post).*1 = ss.*1) by (intros o; rewrite <- Hss, !fmap_app; done).
  assert (Hport : port ∈ ss.*1) by (rewrite <- (Hfst None), fmap_app; apply elem_of_app; right; by left).
  destruct (execute (DeviceAdd (node_of id) id port) q1) as [q2 [v2|add]] eqn:E2;
    pose proof (add_device_law _ _ _ _ _ _ E2) as [Hn2 Hd2].
  - intros [= <- <- <-] _. rewrite Hins. split_and!; [|by apply Hfst|].
    + eapply ports_ok_fill; eauto; [by rewrite Hn2|right; by rewrite Hd2, Hd1].
    + exists port. split_and!; [done| |by rewrite Hd2, Hd1]. intros x. by eapply free_port_empty.
  - destruct (control_lost add) eqn:Hlost.
    { intros [= <- <- <-] Hr. by rewrite (Hr add eq_refl) in Hlost. }
    destruct Hd2 as [Hd2|[? _]]; [|done].
    destruct (execute (BlockdevDel (node_of id)) q2) as [q3 [v3|cl]] eqn:E3;
      pose proof (del_node_law _ _ _ _ E3) as [Hd3 Hn3].
    + intros [= <- <- <-] _. rewrite list_insert_insert_eq, Hins. split_and!; [|by apply Hfst|congruence].
      apply (ports_ok_guest _ q); [done| |by rewrite Hd3, Hd2, Hd1].
      rewrite Hn3, Hn2, Hn1. set_solver.
    + assert (Hfill : control_lost cl = false -> ports_ok (pre ++ (port, Some id) :: post) q3).
      { intros Hc. eapply ports_ok_fill; eauto; [by rewrite Hn3, Hn2|left; congruence]. }
      destruct (control_lost cl) eqn:Hlc; intros [= <- <- <-] Hr; [by rewrite (Hr cl eq_refl) in Hlc|].
      rewrite Hins. split_and!; [by apply Hfill|by apply Hfst|congruence].
Qed.

Lemma attach_ok id image ro ss q ss' q' r :
  ports_ok ss q -> attach id image ro ss q = (ss', q', r) ->
  (forall e, r = Err e -> control_lost e = false) ->
  ports_ok ss' q' /\ ss'.*1 = ss.*1 /\
  match r with
  | Ok _ => exists p, p ∈ ss.*1 /\ (forall x, devices q !! x <> Some p) /\ devices q' = <[id := p]> (devices q)
  | Err e => devices q' = devices q
  end.
Proof.
  intros Hok. unfold attach. destruct (execute QueryPci q) as [q1 [v|e]] eqn:E;
    pose proof (query_law _ _ _ E) as (Hn & Hd & Hl).
  2:{ intros [= <- <- <-] _. split_and!; auto. apply (ports_ok_guest _ q); auto. by rewrite Hd. }
  assert (Hok1 : ports_ok ss q1) by (apply (ports_ok_guest _ q); auto; by rewrite Hd).
  destruct (live_devices v) as [live|e] eqn:El; [|intros [= <- <- <-] _; by split_and!].
  assert (Hlive : dom (devices q1) ⊆ live) by (rewrite Hd; eauto).
  destruct (release_ports live ss q1) as [[ss1 q2] [u|e]] eqn:E1.
  - intros Hplug Hr.
    destruct (release_ports_ok live ss [] q1 ss1 q2 (Ok u) Hok1 Hlive E1) as (Hok2 & Hd2 & Hf & _); [done|].
    destruct (plug_ok _ _ _ _ _ _ _ _ Hok2 Hplug Hr) as (Hok3 & Hf3 & Hres).
    rewrite app_nil_l in *. rewrite Hf, Hd2, Hd in Hres. split_and!; [done|congruence|done].
  - intros [= <- <- <-] Hr.
    destruct (release_ports_ok live ss [] q1 ss1 q2 (Err e) Hok1 Hlive E1) as (Hok2 & Hd2 & Hf & _); [done|].
    split_and!; [done|done|congruence].
Qed.
End soundness.

(** * A machine's life *)

Section life.
Context {M : Type} `{!Monitor M} `{!MonitorLaws M}.

(** Attachments, one at a time and each of them finding the monitor still
    there, and guests that finish removals when they please. *)
Inductive port_step : slots * M -> slots * M -> Prop :=
| StepAttach id image ro ss q ss' q' r :
    attach id image ro ss q = (ss', q', r) -> (forall e, r = Err e -> control_lost e = false) ->
    port_step (ss, q) (ss', q')
| StepGuest ss q q' : nodes q' = nodes q -> devices q' ⊆ devices q -> port_step (ss, q) (ss, q').

Lemma ports_new_ok ids q0 :
  (forall id p, devices q0 !! id = Some p -> p ∉ port_names ids) ->
  ports_ok (nodes q0) (ports_new (port_names ids)) q0.
Proof.
  intros Hfree. destruct (port_names_fresh ids) as (_ & Hnd & _).
  assert (Hfst : (ports_new (port_names ids)).*1 = port_names ids).
  { unfold ports_new. rewrite <- list_fmap_compose. by rewrite list_fmap_id. }
  assert (Hocc : occupants (ports_new (port_names ids)) = []).
  { generalize (port_names ids). intros l. induction l as [|x l IH]; [done|exact IH]. }
  split; rewrite ?Hfst, ?Hocc; try done.
  - intros id p Hp Hin. by destruct (Hfree id p Hp).
  - constructor.
  - intros id Hid. by apply not_elem_of_nil in Hid.
  - intros n Hn. by left.
Qed.

Lemma port_steps_ok launch c c' :
  ports_ok launch c.1 c.2 -> rtc port_step c c' -> ports_ok launch c'.1 c'.2 /\ c'.1.*1 = c.1.*1.
Proof.
  intros Hok Hsteps. apply (rtc_invariant (fun x => ports_ok launch x.1 x.2 /\ x.1.*1 = c.1.*1) port_step c); auto.
  intros a b Hab Hstep. destruct Hstep as [id image ro ss q ss' q' r Hat Hr|ss q q' Hn Hd]; destruct Hab as [Ha Hfa]; simpl in *.
  - destruct (attach_ok launch _ _ _ _ _ _ _ _ Ha Hat Hr) as (H1 & H2 & _). split; [done|congruence].
  - split; [|done]. by eapply ports_ok_guest.
Qed.

(** C36: runtime disks never share a port and leave nothing behind. Over any
    sequence of attachments, refused at any command or not, and of removals
    the guest finishes at any moment: no two live devices sit on one runtime
    port, every device on one is the recorded occupant of its slot, the block
    nodes the monitor holds are exactly those of the launch disks and those of
    the recorded occupants, and at most eight runtime disks are recorded. *)
Theorem runtime_disks_accounted ids q0 ss q :
  (forall id p, devices q0 !! id = Some p -> p ∉ port_names ids) ->
  rtc port_step (ports_new (port_names ids), q0) (ss, q) ->
  (forall id1 id2 p, p ∈ port_names ids -> devices q !! id1 = Some p -> devices q !! id2 = Some p -> id1 = id2) /\
  (forall id p, p ∈ port_names ids -> devices q !! id = Some p -> (p, Some id) ∈ ss) /\
  nodes q = nodes q0 ∪ list_to_set (node_of <$> occupants ss) /\
  (length (occupants ss) <= PORT_COUNT)%nat.
Proof.
  intros Hfree Hsteps.
  destruct (port_steps_ok (nodes q0) (_, _) _ (ports_new_ok ids q0 Hfree) Hsteps) as [[H1 H2 H3 H4 H5 H6] Hfst].
  simpl in *. assert (Hnames : ss.*1 = port_names ids).
  { rewrite Hfst. unfold ports_new. rewrite <- list_fmap_compose. by rewrite list_fmap_id. }
  rewrite Hnames in *. split_and!; [|auto| |].
  - intros id1 id2 p Hp Hd1 Hd2. apply H2 in Hd1, Hd2; auto.
    apply list_elem_of_lookup in Hd1 as [i Hi], Hd2 as [j Hj].
    assert (i = j); [|by simplify_eq]. rewrite <- Hnames in H1.
    eapply (NoDup_lookup _ _ _ p H1); by rewrite list_lookup_fmap, ?Hi, ?Hj.
  - apply set_eq. intros n. rewrite elem_of_union, elem_of_list_to_set, list_elem_of_fmap. split.
    + intros Hn. destruct (H5 n Hn) as [?|(x & Hx & ->)]; [by left|right]. eauto.
    + intros [Hn|(x & -> & Hx)]; [by apply H6|by apply H4].
  - destruct (port_names_fresh ids) as (Hl & _ & _). rewrite <- Hl, <- Hnames, length_fmap.
    unfold occupants. clear. induction ss as [|[p [id|]] ss IH]; csimpl; lia.
Qed.
End life.

(** * Witness *)

(** A monitor that does what it is told while its script says so: [true]
    accepts the next command, [false] refuses it. *)
Record demo_monitor := DemoMonitor { dm_nodes : gset string; dm_devices : gmap string string; dm_script : list bool }.

Definition refused : vmm_error := VmmQmp (QCommand "device_add" "GenericError" "refused").

Definition demo_inventory (q : demo_monitor) : mon_reply :=
  Some [[PciDevice "port" (Some ((fun kv => PciDevice kv.1 None) <$> map_to_list (dm_devices q)))]].

#[export] Instance demo_monitor_exec : Monitor demo_monitor := {|
  execute c q :=
    let '(ok, script) := match dm_script q with [] => (true, []) | b :: s => (b, s) end in
    let q1 := DemoMonitor (dm_nodes q) (dm_devices q) script in
    match c with
    | QueryPci => (q1, Ok (demo_inventory q))
    | BlockdevAdd n _ _ =>
        if ok && bool_decide (n ∉ dm_nodes q)
        then (DemoMonitor ({[n]} ∪ dm_nodes q) (dm_devices q) script, Ok None) else (q1, Err refused)
    | DeviceAdd _ id bus =>
        if ok then (DemoMonitor (dm_nodes q) (<[id := bus]> (dm_devices q)) script, Ok None) else (q1, Err refused)
    | BlockdevDel n =>
        if ok then (DemoMonitor (dm_nodes q ∖ {[n]}) (dm_devices q) script, Ok None) else (q1, Err refused)
    end;
  nodes := dm_nodes;
  devices := dm_devices;
|}.

Lemma demo_inventory_lists q live :
  live_devices (demo_inventory q) = Ok live -> dom (dm_devices q) ⊆ live.
Proof.
  intros H. assert (Hl : live = list_to_set (flat_map (flat_map collect) (default [] (demo_inventory q))))
    by (unfold live_devices, demo_inventory in *; simpl default; congruence).
  rewrite Hl. clear H Hl live.
  apply elem_of_subseteq. intros id [p Hp]%elem_of_dom. apply (elem_of_list_to_set (C:=gset string)).
  apply list_elem_of_In, in_flat_map. exists [PciDevice "port" (Some ((fun kv => PciDevice kv.1 None) <$> map_to_list (dm_devices q)))].
  split; [by left|]. apply in_flat_map. eexists. split; [by left|]. right.
  apply in_flat_map. exists (PciDevice id None). split; [|by left].
  apply list_elem_of_In, list_elem_of_fmap. exists (id, p). split; [done|by apply elem_of_map_to_list].
Qed.

#[export] Instance demo_monitor_laws : MonitorLaws demo_monitor.
Proof.
  split.
  - intros [n d s] q' r. unfold execute; simpl. destruct s as [|b s]; intros [= <- <-]; simpl;
      (split_and!; [done..|]); intros v live [= <-] Hl; by apply demo_inventory_lists in Hl.
  - intros n ro f [nn d s] q' r. unfold execute; simpl. destruct s as [|[] s]; simpl; try case_bool_decide;
      intros [= <- <-]; by split_and!.
  - intros n id bus [nn d s] q' r. unfold execute; simpl. destruct s as [|[] s]; intros [= <- <-]; simpl; auto.
  - intros n [nn d s] q' r. unfold execute; simpl. destruct s as [|[] s]; intros [= <- <-]; by split_and!.
Qed.

(** One disk is plugged; the next one's device is refused and so is the
    rollback of its node; the first is removed by the guest; a third attachment
    cleans both up and takes the first port. *)
Definition demo_q0 : demo_monitor :=
  DemoMonitor {["root-node"]} {["root" := "pcie.0"]} [true; true; true; true; true; false; false].

Definition demo_attach (id : string) (c : slots * demo_monitor) : slots * demo_monitor :=
  (attach id "/t.img" true c.1 c.2).1.
Definition demo_remove (id : string) (c : slots * demo_monitor) : slots * demo_monitor :=
  (c.1, DemoMonitor (dm_nodes c.2) (delete id (dm_devices c.2)) (dm_script c.2)).

Definition demo_end : slots * demo_monitor :=
  demo_attach "c" (demo_remove "a" (demo_attach "b" (demo_attach "a" (ports_new (port_names ["root"]), demo_q0)))).

Example demo_end_is :
  occupants demo_end.1 = ["c"] /\ dm_devices demo_end.2 !! "c" = Some "provium-hotplug-0" /\
  dm_nodes demo_end.2 = {["root-node"; "c-node"]}.
Proof. by vm_compute. Qed.

Definition answered (r : result () vmm_error) : bool :=
  match r with Err e => negb (control_lost e) | Ok _ => true end.

Lemma demo_attach_step id c :
  answered (attach id "/t.img" true c.1 c.2).2 = true -> port_step c (demo_attach id c).
Proof.
  intros H. unfold demo_attach. destruct c as [ss q]. simpl in *.
  destruct (attach id "/t.img" true ss q) as [[ss' q'] r] eqn:E. simpl in *.
  eapply StepAttach; [exact E|]. intros e ->. by apply negb_true_iff.
Qed.

Lemma demo_remove_step id c : port_step c (demo_remove id c).
Proof. destruct c as [ss q]. apply StepGuest; [done|]. apply delete_subseteq. Qed.

Lemma demo_steps : rtc port_step (ports_new (port_names ["root"]), demo_q0) demo_end.
Proof.
  eapply rtc_l; [apply (demo_attach_step "a"); by vm_compute|].
  eapply rtc_l; [apply (demo_attach_step "b"); by vm_compute|].
  eapply rtc_l; [apply (demo_remove_step "a")|].
  eapply rtc_l; [apply (demo_attach_step "c"); by vm_compute|]. reflexivity.
Qed.

Lemma runtime_disks_accounted_witness :
  nodes demo_end.2 = nodes demo_q0 ∪ list_to_set (node_of <$> occupants demo_end.1) /\
  (length (occupants demo_end.1) <= PORT_COUNT)%nat.
Proof.
  apply (runtime_disks_accounted ["root"] demo_q0 demo_end.1 demo_end.2).
  - intros id p Hp. apply (lookup_singleton_Some (M:=gmap string) "root" id "pcie.0" p) in Hp as [_ <-].
    rewrite list_elem_of_In. by vm_compute; intros H; repeat destruct H as [H|H].
  - rewrite <- surjective_pairing. exact demo_steps.
Defined.
