(* ===== verification/Profile.v ===== *)
(** Profiles and their builds, [src/provium-host/src/profile.rs] and
    [src/provium-host/src/build.rs]: finding, checking and expanding the
    configuration a boot is made from. *)
From Stdlib Require Import SpecFloat.
From stdpp Require Import sorting pretty.
From S2P Require Import Prelude Names Text Pool Cpio VmOpts.

Open Scope string_scope.
Open Scope list_scope.
Open Scope Z_scope.

(** * Data *)

Record profile := Profile {
  kernel : string;
  initrd : string;
  root : option string;
  disks : list disk_spec;
  cmdline : string;
  cmdline_file : option string;
  guest_os : string;
  inject_agent : bool;
  agent_overlay_path : option string;
  agent_boot_timeout : option spec_float;
  build : option string;
  build_out : option string;
  dir : option string;
}.

Definition default_guest_os : string := "peios".
Definition default_inject_agent : bool := true.

Inductive kernel_error :=
| NoSource
| ReadFailed (path e : string)
| NotFound (root : string)
| Ambiguous (root : string) (found : list string).

(** Why a profile is refused. *)
Inductive violation :=
| EmptyCmdline
| BadTimeout (t : spec_float)
| EmptyDiskPath (index : nat)
| SharedDiskId (id : string)
| UnsupportedGuest (os : string).

(** The [message] of a [Validation] error, by its cases. *)
Inductive invalid :=
| BadProfile (name : string) (why : violation)
| HoldsNoProfile (dir : string)
| DefinedTwice (name dir : string).

Inductive config_error :=
| Io (path e : string)
| Parse (path e : string)
| Validation (path : string) (message : invalid).

(** * The command line *)

(** [cmdline_file] read at boot. *)
Definition resolve_cmdline (read : string -> result bytes string) (p : profile) : result bytes string :=
  let inline := split_whitespace (bytes_of (cmdline p)) in
  match cmdline_file p with
  | Some file =>
      match read file with
      | Err e => Err ("read cmdline_file `" +:+ file +:+ "`: " +:+ e)
      | Ok raw => Ok (spaced (split_whitespace raw ++ inline))
      end
  | None => Ok (spaced inline)
  end.

(** * Validation *)

(** [t.is_finite() && t > 0.0]. *)
Definition positive_finite (t : spec_float) : bool :=
  match t with S754_finite false _ _ => true | _ => false end.

Fixpoint check_disks (i : nat) (seen : list string) (ds : list disk_spec) : result () violation :=
  match ds with
  | [] => Ok ()
  | d :: ds =>
      if decide (ds_path d = "") then Err (EmptyDiskPath i)
      else
        let id := resolved_id d i in
        if decide (id ∈ seen) then Err (SharedDiskId id)
        else check_disks (S i) (seen ++ [id]) ds
  end.

Definition check_profile (p : profile) : result () violation :=
  if bool_decide (trim (bytes_of (cmdline p)) = []) && bool_decide (cmdline_file p = None) then Err EmptyCmdline
  else
    match (match agent_boot_timeout p with
           | Some t => if positive_finite t then Ok () else Err (BadTimeout t)
           | None => Ok ()
           end) with
    | Err v => Err v
    | Ok _ =>
        match check_disks 0 [] (disks p) with
        | Err v => Err v
        | Ok _ => if decide (guest_os p = "peios") then Ok () else Err (UnsupportedGuest (guest_os p))
        end
    end.

Fixpoint check_all (ps : list (string * profile)) : result () (string * violation) :=
  match ps with
  | [] => Ok ()
  | (name, p) :: ps => match check_profile p with Err v => Err (name, v) | Ok _ => check_all ps end
  end.

Definition validate (path : string) (ps : gmap string profile) : result () config_error :=
  match check_all (map_walk ps) with
  | Err (name, v) => Err (Validation path (BadProfile name v))
  | Ok _ => Ok ()
  end.

(** * Discovery *)

Definition rebase_path (dir p : string) : string :=
  if bool_decide (p = "") || is_absolute p || begins_with "{out}" p then p else path_join dir p.

Definition rebase (base : string) (p : profile) : profile :=
  let fix_path := rebase_path base in
  Profile (fix_path (kernel p)) (fix_path (initrd p)) (fix_path <$> root p)
    ((fun d => DiskSpec (ds_id d) (fix_path (ds_path d)) (ds_readonly d) (ds_mediated d)) <$> disks p)
    (cmdline p) (fix_path <$> cmdline_file p) (guest_os p) (inject_agent p) (fix_path <$> agent_overlay_path p)
    (agent_boot_timeout p) (build p) (build_out p) (dir p).

Definition set_dir (d : string) (p : profile) : profile :=
  Profile (kernel p) (initrd p) (root p) (disks p) (cmdline p) (cmdline_file p) (guest_os p) (inject_agent p)
    (agent_overlay_path p) (agent_boot_timeout p) (build p) (build_out p) (Some d).

(** The file system and the TOML library. A directory is read as the names in
    it, in no particular order; parsing gives the values as they are written. *)
Class Files := {
  read_dir : string -> result (list string) string;
  is_file : string -> bool;
  read_to_string : string -> result string string;
  parse_profile : string -> result profile string;
  parse_config : string -> result (option string * gmap string profile) string;
}.

Section files.
Context {F : Files}.

(** The entries [vmlinuz-*] of each release, as (release, file). *)
Definition kernels_of (modules : string) (releases : list string) : list (string * string) :=
  release ← releases;
  match read_dir (path_join modules release) with
  | Err _ => []
  | Ok files => (fun file => (release, file)) <$> filter (fun file => begins_with "vmlinuz-" file = true) files
  end.

(** The paths differ in their last two components only, and paths are ordered
    by components. *)
Definition resolve_kernel (p : profile) : result string kernel_error :=
  if decide (kernel p <> "") then Ok (kernel p)
  else
    match root p with
    | None => Err NoSource
    | Some root =>
        let modules := path_join root "usr/lib/modules" in
        match read_dir modules with
        | Err e => Err (ReadFailed modules e)
        | Ok releases =>
            match (fun k => path_join (path_join modules k.1) k.2) <$> merge_sort pair_le (kernels_of modules releases) with
            | [] => Err (NotFound root)
            | [k] => Ok k
            | found => Err (Ambiguous root found)
            end
        end
    end.

Definition PROFILE_FILE : string := "profile.provium.toml".

Fixpoint discover_each (base : string) (names : list string) : result (list (string * profile)) config_error :=
  match names with
  | [] => Ok []
  | name :: names =>
      let profile_dir := path_join base name in
      let file := path_join profile_dir PROFILE_FILE in
      if negb (is_file file) then discover_each base names
      else
        match read_to_string file with
        | Err e => Err (Io file e)
        | Ok raw =>
            match parse_profile raw with
            | Err e => Err (Parse file e)
            | Ok p =>
                match discover_each base names with
                | Err e => Err e
                | Ok found => Ok ((name, rebase profile_dir (set_dir profile_dir p)) :: found)
                end
            end
        end
  end.

Definition discover_profiles (base config_path : string) : result (list (string * profile)) config_error :=
  match read_dir base with
  | Err e => Err (Io base e)
  | Ok names =>
      match discover_each base names with
      | Err e => Err e
      | Ok [] => Err (Validation config_path (HoldsNoProfile base))
      | Ok found => Ok (merge_sort key_le found)
      end
  end.

Fixpoint add_discovered (path from : string) (found : list (string * profile)) (ps : gmap string profile)
  : result (gmap string profile) config_error :=
  match found with
  | [] => Ok ps
  | (name, p) :: found =>
      match ps !! name with
      | Some _ => Err (Validation path (DefinedTwice name from))
      | None => add_discovered path from found (<[name := p]> ps)
      end
  end.

(** [parent] is the directory part of [path]. The settings of the [provium]
    table are carried over as they are and left out here. *)
Definition from_toml_str (raw path parent : string) : result (gmap string profile) config_error :=
  match parse_config raw with
  | Err e => Err (Parse path e)
  | Ok (from_dir, inline) =>
      match (match from_dir with
             | None => Ok inline
             | Some d =>
                 let base := path_join parent d in
                 match discover_profiles base path with
                 | Err e => Err e
                 | Ok found => add_discovered path base found inline
                 end
             end) with
      | Err e => Err e
      | Ok ps => match validate path ps with Err e => Err e | Ok _ => Ok ps end
      end
  end.

Definition load (path parent : string) : result (gmap string profile) config_error :=
  match read_to_string path with
  | Err e => Err (Io path e)
  | Ok raw => from_toml_str raw path parent
  end.
End files.

(** * Build outputs *)

Definition default_build_base (env : string -> option string) : string :=
  match env "PROVIUM_BUILD_DIR" with
  | Some p => p
  | None =>
      match env "XDG_CACHE_HOME" with
      | Some p => path_join (path_join p "provium") "builds"
      | None =>
          match env "HOME" with
          | Some p => path_join (path_join (path_join p ".cache") "provium") "builds"
          | None => "/tmp/provium-builds"
          end
      end
  end.

Definition build_dir (p : profile) : option string := dir p.

Definition out_dir (env : string -> option string) (name : string) (p : profile) : string :=
  match build_out p with Some o => o | None => path_join (default_build_base env) name end.

Definition OUT : bytes := bytes_of "{out}".

(** [s.replace("{out}", &out)]. *)
Definition sub_out (out s : string) : string := text (replace OUT (bytes_of out) (bytes_of s)).

Definition expand (env : string -> option string) (name : string) (p : profile) : profile :=
  let sub := sub_out (out_dir env name p) in
  Profile (sub (kernel p)) (sub (initrd p)) (sub <$> root p)
    ((fun d => DiskSpec (ds_id d) (sub (ds_path d)) (ds_readonly d) (ds_mediated d)) <$> disks p)
    (sub (cmdline p)) (sub <$> cmdline_file p) (guest_os p) (inject_agent p) (sub <$> agent_overlay_path p)
    (agent_boot_timeout p) (sub <$> build p) (build_out p) (dir p).

Definition expand_build_outputs (env : string -> option string) (ps : gmap string profile) : gmap string profile :=
  map_imap (fun name p => Some (expand env name p)) ps.

(** * Builds *)

Inductive sh_status := Exited (code : Z) | Signalled.

Inductive build_error :=
| OutDir (name dir e : string)
| Spawn (name e : string)
| Failed (name status : string).

Definition status_text (s : sh_status) : string :=
  match s with Exited code => "exit code " +:+ pretty code | Signalled => "killed by signal" end.

Definition success (s : sh_status) : bool := match s with Exited code => code =? 0 | Signalled => false end.

(** Making the directory, and [sh -c] in a working directory. *)
Class Shell (W : Type) := {
  create_dir_all : string -> W -> W * result () string;
  sh_c : option string -> string -> W -> W * result sh_status string;
}.

Section builds.
Context {W : Type} `{!Shell W} (env : string -> option string).

Definition run_build (name : string) (p : profile) (w : W) : W * result () build_error :=
  match build p with
  | None => (w, Ok ())
  | Some cmd =>
      let out := out_dir env name p in
      match create_dir_all out w with
      | (w1, Err e) => (w1, Err (OutDir name out e))
      | (w1, Ok _) =>
          match sh_c (build_dir p) cmd w1 with
          | (w2, Err e) => (w2, Err (Spawn name e))
          | (w2, Ok status) => (w2, if success status then Ok () else Err (Failed name (status_text status)))
          end
      end
  end.

Fixpoint run_each (ps : list (string * profile)) (w : W) : W * result () build_error :=
  match ps with
  | [] => (w, Ok ())
  | (name, p) :: ps =>
      match run_build name p w with
      | (w1, Err e) => (w1, Err e)
      | (w1, Ok _) => run_each ps w1
      end
  end.

Definition run_all_builds (ps : gmap string profile) (w : W) : W * result () build_error := run_each (map_walk ps) w.
End builds.

(** * What a checked profile is *)

Definition disk_ids (ds : list disk_spec) : list string := ids (profile_disks ds).

Record well_formed (p : profile) : Prop := {
  wf_cmdline : split_whitespace (bytes_of (cmdline p)) <> [] \/ is_Some (cmdline_file p);
  wf_timeout : forall t, agent_boot_timeout p = Some t -> exists m e, t = S754_finite false m e;
  wf_paths : Forall (fun d => ds_path d <> "") (disks p);
  wf_ids : NoDup (disk_ids (disks p));
  wf_guest : guest_os p = "peios";
}.

Lemma disk_ids_imap ds : disk_ids ds = imap (fun i d => resolved_id d i) ds.
Proof.
  unfold disk_ids, ids, profile_disks. apply list_eq. intros i.
  rewrite list_lookup_fmap, !list_lookup_imap. by destruct (ds !! i).
Qed.

Lemma check_disks_spec ds i seen :
  NoDup seen ->
  check_disks i seen ds = Ok () <->
  Forall (fun d => ds_path d <> "") ds /\ NoDup (seen ++ imap (fun j d => resolved_id d (i + j)) ds).
Proof.
  revert i seen. induction ds as [|d ds IH]; intros i seen Hs; cbn [check_disks].
  - simpl. rewrite app_nil_r. split; [done|by intros _].
  - rewrite imap_cons, Nat.add_0_r. rewrite Forall_cons.
    destruct (decide (ds_path d = "")) as [He|Hne]; [split; [done|by intros [[? _] _]]|].
    destruct (decide (resolved_id d i ∈ seen)) as [Hin|Hnin].
    + split; [done|]. intros [_ Hnd]. apply NoDup_app in Hnd as (_ & Hdis & _). destruct (Hdis _ Hin). by left.
    + rewrite IH.
      * rewrite <- app_assoc. simpl.
        assert (forall l, imap (fun j d => resolved_id d (S i + j)) l = imap ((fun j d => resolved_id d (i + j)) ∘ S) l) as ->.
        { intros l. apply imap_ext. intros j x _. simpl. f_equal. lia. }
        tauto.
      * apply NoDup_app. split_and!; [done| |apply NoDup_singleton].
        intros x Hx ->%list_elem_of_singleton. done.
Qed.

Lemma positive_finite_spec t : positive_finite t = true <-> exists m e, t = S754_finite false m e.
Proof. destruct t as [| | |[] m e]; simpl; split; try done; try (by intros (? & ? & ?)); eauto. Qed.

Lemma check_profile_exact p : check_profile p = Ok () <-> well_formed p.
Proof.
  unfold check_profile.
  assert (Hc : bool_decide (trim (bytes_of (cmdline p)) = []) && bool_decide (cmdline_file p = None) = false <->
               split_whitespace (bytes_of (cmdline p)) <> [] \/ is_Some (cmdline_file p)).
  { rewrite andb_false_iff, !bool_decide_eq_false, trim_words, not_eq_None_Some. done. }
  destruct (_ && _).
  { split; [done|]. intros [Hw _ _ _ _]. apply Hc in Hw. done. }
  assert (Hcl := proj1 Hc eq_refl). clear Hc.
  destruct (agent_boot_timeout p) as [t|] eqn:Et; [destruct (positive_finite t) eqn:Ef|].
  2:{ split; [done|]. intros [_ Ht _ _ _]. apply Ht, positive_finite_spec in Et. congruence. }
  all: destruct (check_disks 0 [] (disks p)) as [[]|v] eqn:Ed.
  1,3: apply check_disks_spec in Ed as [Hp Hn]; [|constructor];
    (destruct (decide (guest_os p = "peios")) as [Hg|Hg]; [|split; [done|by intros []]]);
    split; [intros _; constructor; auto|done]; try (by rewrite disk_ids_imap).
  - rewrite Et. intros t' [= <-]. by apply positive_finite_spec.
  - rewrite Et. congruence.
  - split; [done|]. intros [_ _ Hp Hn _]. rewrite disk_ids_imap in Hn.
    assert (check_disks 0 [] (disks p) = Ok ()) by (apply check_disks_spec; [constructor|done]). congruence.
  - split; [done|]. intros [_ _ Hp Hn _]. rewrite disk_ids_imap in Hn.
    assert (check_disks 0 [] (disks p) = Ok ()) by (apply check_disks_spec; [constructor|done]). congruence.
Qed.

Lemma check_all_exact ps :
  match check_all ps with
  | Ok _ => Forall (fun q => well_formed q.2) ps
  | Err (name, v) => exists pre p post, ps = pre ++ (name, p) :: post /\
      check_profile p = Err v /\ Forall (fun q => well_formed q.2) pre
  end.
Proof.
  induction ps as [|[name p] ps IH]; cbn [check_all]; [constructor|].
  destruct (check_profile p) as [[]|v] eqn:E.
  - apply check_profile_exact in E. destruct (check_all ps) as [[]|[n v]]; [by constructor|].
    destruct IH as (pre & q & post & -> & Hq & Hpre). exists ((name, p) :: pre), q, post. split_and!; [done..|by constructor].
  - exists [], p, ps. split_and!; [done..|constructor].
Qed.

(** Validation names the least profile that is not well formed. *)
Lemma validate_exact path ps :
  match validate path ps with
  | Ok _ => map_Forall (fun _ p => well_formed p) ps
  | Err e => exists name p v, e = Validation path (BadProfile name v) /\ ps !! name = Some p /\
      check_profile p = Err v /\
      forall name' p', ps !! name' = Some p' -> ~ well_formed p' -> String.le name name'
  end.
Proof.
  unfold validate. pose proof (check_all_exact (map_walk ps)) as Hx.
  destruct (check_all (map_walk ps)) as [[]|[name v]].
  - intros name p Hp%elem_of_map_walk. by rewrite Forall_forall in Hx; specialize (Hx _ Hp).
  - destruct Hx as (pre & p & post & Hw & Hv & Hpre). exists name, p, v. split_and!; [done| |done|].
    + apply elem_of_map_walk. rewrite Hw. apply elem_of_app. right. left.
    + intros name' p' Hp'%elem_of_map_walk Hbad. pose proof (keys_sorted ps) as Hs. unfold keys in Hs.
      rewrite Hw in Hp', Hs. apply elem_of_app in Hp' as [Hp'|Hp'].
      { rewrite Forall_forall in Hpre. by apply Hpre in Hp'. }
      rewrite fmap_app in Hs. apply StronglySorted_app in Hs as (_ & _ & Hs). simpl in Hs. 
      apply elem_of_cons in Hp' as [[= -> ->]|Hp']; [done|].
      inversion Hs as [|? ? _ Hall]; subst. rewrite Forall_forall in Hall. apply Hall.
      apply list_elem_of_fmap. by exists (name', p').
Qed.

Section sources.
Context {F : Files}.

(** What discovery makes of the file in a directory. *)
Definition discovered (base name : string) (p : profile) : Prop :=
  let profile_dir := path_join base name in
  is_file (path_join profile_dir PROFILE_FILE) = true /\
  exists raw p0, read_to_string (path_join profile_dir PROFILE_FILE) = Ok raw /\ parse_profile raw = Ok p0 /\
    p = rebase profile_dir (set_dir profile_dir p0).

Lemma discover_each_spec base names found :
  discover_each base names = Ok found ->
  found.*1 = filter (fun name => is_file (path_join (path_join base name) PROFILE_FILE) = true) names /\
  Forall (fun q => discovered base q.1 q.2) found.
Proof.
  revert found. induction names as [|name names IH]; intros found; cbn [discover_each]; [by intros [= <-]|].
  rewrite filter_cons. destruct (is_file _) eqn:Ef; simpl.
  - destruct (read_to_string _) as [raw|] eqn:Er; [|done]. destruct (parse_profile raw) as [p|] eqn:Ep; [|done].
    destruct (discover_each base names) as [l|]; [|done]. intros [= <-].
    destruct (IH l eq_refl) as [Hn Hf]. split; [by rewrite fmap_cons, Hn|].
    constructor; [|done]. split; [done|]. by exists raw, p.
  - by apply IH.
Qed.

Lemma add_discovered_spec path from found ps ps' :
  add_discovered path from found ps = Ok ps' ->
  NoDup found.*1 /\ list_to_map found ##ₘ ps /\ ps' = list_to_map found ∪ ps.
Proof.
  revert ps. induction found as [|[name p] found IH]; intros ps; cbn [add_discovered].
  - intros [= <-]. simpl. split_and!; [constructor|apply map_disjoint_empty_l|by rewrite (left_id_L ∅ (∪))].
  - destruct (ps !! name) eqn:E; [done|]. intros (Hnd & Hdis & ->)%IH.
    apply map_disjoint_insert_r in Hdis as [Hn Hdis]. simpl. split_and!.
    + constructor; [|done]. by apply not_elem_of_list_to_map.
    + by apply map_disjoint_insert_l.
    + rewrite <- insert_union_l, insert_union_r by done. done.
Qed.

(** The profiles [found] are those of [from_dir]: one for each name in the
    directory under which there is a profile file, with what that file says. *)
Definition from_directory (parent : string) (from_dir : option string) (found : gmap string profile) : Prop :=
  match from_dir with
  | None => found = ∅
  | Some d =>
      let base := path_join parent d in
      exists names, read_dir base = Ok names /\ found <> ∅ /\ map_Forall (discovered base) found /\
        forall name, is_Some (found !! name) <-> name ∈ names /\ is_file (path_join (path_join base name) PROFILE_FILE) = true
  end.

Lemma discover_profiles_spec base path found :
  discover_profiles base path = Ok found -> NoDup found.*1 ->
  exists names, read_dir base = Ok names /\ list_to_map found <> (∅ : gmap string profile) /\
    map_Forall (discovered base) (list_to_map found : gmap string profile) /\
    forall name, is_Some ((list_to_map found : gmap string profile) !! name) <->
      name ∈ names /\ is_file (path_join (path_join base name) PROFILE_FILE) = true.
Proof.
  unfold discover_profiles. destruct (read_dir base) as [names|]; [|done].
  destruct (discover_each base names) as [l|] eqn:Ed; [|done]. apply discover_each_spec in Ed as [Hn Hf].
  destruct l as [|q l]; [done|]. intros [= <-] Hnd. set (found := merge_sort key_le (q :: l)) in *.
  assert (Hp : found ≡ₚ q :: l) by apply merge_sort_Permutation. clearbody found.
  assert (Hdom : forall name, is_Some ((list_to_map found : gmap string profile) !! name) <-> name ∈ (q :: l).*1).
  { intros name. rewrite <- Hp, <- elem_of_dom, dom_list_to_map_L. apply elem_of_list_to_set. }
  exists names. split_and!; [done|..].
  - intros He. destruct (proj2 (Hdom q.1)) as [p Hq]; [apply list_elem_of_here|]. by rewrite He, lookup_empty in Hq.
  - intros name p Hl%elem_of_list_to_map_2. rewrite Hp in Hl. rewrite Forall_forall in Hf. by apply (Hf (name, p)).
  - intros name. rewrite Hdom, Hn, list_elem_of_filter. tauto.
Qed.

(** A configuration that loads is the profiles written in the file and, beside
    them, the ones discovered, under names of their own. *)
Lemma from_toml_str_sources raw path parent ps :
  from_toml_str raw path parent = Ok ps ->
  exists from_dir inline found, parse_config raw = Ok (from_dir, inline) /\ from_directory parent from_dir found /\
    found ##ₘ inline /\ ps = found ∪ inline /\ map_Forall (fun _ p => well_formed p) ps.
Proof.
  unfold from_toml_str. destruct (parse_config raw) as [[from_dir inline]|] eqn:Ep; [|done].
  intros H. exists from_dir, inline.
  destruct from_dir as [d|].
  - destruct (discover_profiles _ _) as [found|] eqn:Ed; [|done].
    destruct (add_discovered _ _ _ _) as [ps'|] eqn:Ea; [|done].
    pose proof (validate_exact path ps') as Hv. destruct (validate path ps'); [|done]. injection H as <-.
    apply add_discovered_spec in Ea as (Hnd & Hdis & ->). exists (list_to_map found).
    split_and!; [done| |done..]. by eapply discover_profiles_spec.
  - pose proof (validate_exact path inline) as Hv. destruct (validate path inline); [|done]. injection H as <-.
    exists ∅. split_and!; [done|done|apply map_disjoint_empty_l|by rewrite (left_id_L ∅ (∪))|done].
Qed.

(** C37: a configuration that loads boots. Its profiles are exactly the ones
    written in the file and the ones found in the profile directory it names, one
    for each entry with a profile file there, with no name in both; each has a
    command line of at least one word or a file for it, a timeout, if it has
    one, that is a positive number, and supported guest; and its disks have
    distinct ids, so a boot that adds disks under other names is never refused
    for an id. *)
Theorem loaded_profiles_boot raw path parent ps name p :
  from_toml_str raw path parent = Ok ps -> ps !! name = Some p ->
  (exists from_dir inline found, parse_config raw = Ok (from_dir, inline) /\ from_directory parent from_dir found /\
     found ##ₘ inline /\ ps = found ∪ inline) /\
  well_formed p /\
  (forall read cl, resolve_cmdline read p = Ok cl -> cmdline_file p = None -> split_whitespace cl <> []) /\
  (forall boot, NoDup (disk_ids (disks p) ++ ids boot) ->
     resolve_disks (disks p) boot = Ok (profile_disks (disks p) ++ boot)).
Proof.
  intros H Hp. apply from_toml_str_sources in H as (from_dir & inline & found & H1 & H2 & H3 & Hu & H4).
  assert (Hw : well_formed p) by apply (H4 _ _ Hp). split_and!; [eauto 10|done| |].
  - intros read cl. unfold resolve_cmdline. intros Hcl Hf. rewrite Hf in Hcl. injection Hcl as <-.
    rewrite split_spaced by apply split_whitespace_solid. destruct (wf_cmdline _ Hw) as [|[? ?]]; congruence.
  - intros boot Hnd. unfold resolve_disks. pose proof (add_boot_disks_spec boot _ (wf_ids _ Hw)) as Ha.
    destruct (add_boot_disks _ boot) as [all|id]; [by destruct Ha as [-> _]|].
    destruct Ha as [[] _]. unfold ids. by rewrite fmap_app.
Qed.
End sources.

(** * The order of a directory does not matter *)

Definition same_dir (a b : result (list string) string) : Prop :=
  match a, b with
  | Ok l, Ok k => l ≡ₚ k
  | Err e, Err e' => e = e'
  | _, _ => False
  end.

(** One file system read twice: only the order of the names differs. *)
Record same_tree (F1 F2 : Files) : Prop := {
  same_read_dir d : same_dir (read_dir (Files:=F1) d) (read_dir (Files:=F2) d);
  same_is_file f : is_file (Files:=F1) f = is_file (Files:=F2) f;
  same_read f : read_to_string (Files:=F1) f = read_to_string (Files:=F2) f;
  same_parse raw : parse_profile (Files:=F1) raw = parse_profile (Files:=F2) raw;
}.

Lemma kernels_same F1 F2 modules l k :
  same_tree F1 F2 -> l ≡ₚ k -> kernels_of (F:=F1) modules l ≡ₚ kernels_of (F:=F2) modules k.
Proof.
  intros HF Hp. unfold kernels_of. rewrite Hp. clear Hp l. induction k as [|r k IH]; simpl; [done|].
  apply Permutation_app; [clear IH|done]. pose proof (same_read_dir _ _ HF (path_join modules r)) as Hd. unfold same_dir in Hd.
  destruct (read_dir (Files:=F1) _), (read_dir (Files:=F2) _); try done. by rewrite Hd.
Qed.

Lemma discover_each_same F1 F2 base names :
  same_tree F1 F2 -> discover_each (F:=F1) base names = discover_each (F:=F2) base names.
Proof.
  intros HF. induction names as [|name names IH]; cbn [discover_each]; [done|].
  rewrite (same_is_file _ _ HF), (same_read _ _ HF), IH. destruct (negb _); [done|].
  destruct (read_to_string _) as [raw|]; [|done]. by rewrite (same_parse _ _ HF).
Qed.

Lemma discover_each_Permutation `{F : Files} base names names' found :
  names ≡ₚ names' -> discover_each base names = Ok found ->
  exists found', discover_each base names' = Ok found' /\ found ≡ₚ found'.
Proof.
  intros Hp. revert found. induction Hp as [|x l l' Hp IH|x y l|l1 l2 l3 Hp1 IH1 Hp2 IH2]; intros found.
  - intros [= <-]. by exists [].
  - cbn [discover_each]. destruct (negb _); [apply IH|]. destruct (read_to_string _); [|done].
    destruct (parse_profile _); [|done]. destruct (discover_each base l) as [f|]; [|done]. intros [= <-].
    destruct (IH f eq_refl) as (f' & -> & Hf). eexists. split; [done|by rewrite Hf].
  - cbn [discover_each]. intros H1.
    repeat match type of H1 with context [match ?x with _ => _ end] =>
        lazymatch x with context [match _ with _ => _ end] => fail | _ => destruct x end end; simplify_eq;
      (eexists; split; [first [eassumption|reflexivity]|]; first [reflexivity|apply Permutation_swap]).
  - intros H1. destruct (IH1 _ H1) as (f2 & H2 & ?). destruct (IH2 _ H2) as (f3 & H3 & ?).
    exists f3. split; [done|]. by etransitivity.
Qed.

(** Sorting by name leaves no choice when the names are distinct. *)
Lemma sort_by_name_unique {A} (l k : list (string * A)) :
  NoDup l.*1 -> l ≡ₚ k -> merge_sort key_le l = merge_sort key_le k.
Proof.
  intros Hn Hp. apply (StronglySorted_unique_strong key_le); [|apply StronglySorted_merge_sort; apply _..|by rewrite !merge_sort_Permutation].
  intros [a x] [b y]. rewrite !merge_sort_Permutation, <- Hp. unfold key_le. simpl. intros Hx Hy Hab Hba.
  assert (a = b) as <- by (by apply (anti_symm String.le)). f_equal.
  apply list_elem_of_lookup in Hx as [i Hi], Hy as [j Hj].
  assert (i = j); [|by simplify_eq]. apply (NoDup_lookup l.*1 i j a Hn); by rewrite list_lookup_fmap, ?Hi, ?Hj.
Qed.

(** A run does not depend on the order in which directories are read.
    The kernel of a profile is the same, as is the error when there is none or
    more than one, and the profiles discovered are the same list. *)
Lemma directory_order_free F1 F2 :
  same_tree F1 F2 -> (forall d names, read_dir (Files:=F1) d = Ok names -> NoDup names) ->
  (forall p, resolve_kernel (F:=F1) p = resolve_kernel (F:=F2) p) /\
  (forall base path found, discover_profiles (F:=F1) base path = Ok found ->
     discover_profiles (F:=F2) base path = Ok found /\ StronglySorted String.le found.*1 /\ NoDup found.*1).
Proof.
  intros HF Hdistinct. split.
  - intros p. unfold resolve_kernel. destruct (decide _); [done|]. destruct (root p) as [r|]; [|done].
    pose proof (same_read_dir _ _ HF (path_join r "usr/lib/modules")) as Hd. unfold same_dir in Hd. cbv zeta.
    destruct (read_dir (Files:=F1) _) as [l|e], (read_dir (Files:=F2) _) as [k|e']; try done; [|by subst].
    pose proof (merge_sort_unique pair_le _ _ (kernels_same F1 F2 (path_join r "usr/lib/modules") _ _ HF Hd)) as Hm.
    by rewrite Hm.
  - intros base path found. unfold discover_profiles.
    pose proof (same_read_dir _ _ HF base) as Hd. unfold same_dir in Hd.
    destruct (read_dir (Files:=F1) base) as [l|e] eqn:El; [|done]. apply Hdistinct in El.
    destruct (read_dir (Files:=F2) base) as [k|e']; [|done].
    destruct (discover_each (F:=F1) base l) as [f|e] eqn:E; [|done].
    assert (Hn : NoDup f.*1).
    { apply discover_each_spec in E as [-> _]. by apply NoDup_filter. }
    rewrite (discover_each_same F1 F2) in E by done.
    destruct (discover_each_Permutation _ _ _ _ Hd E) as (f' & -> & Hf).
    destruct f as [|q f]; [done|]. intros [= <-].
    assert (Hf' : f' <> []) by (intros ->; by apply Permutation_nil_r in Hf).
    destruct f' as [|q' f']; [done|]. split_and!.
    + by rewrite (sort_by_name_unique (q :: f) (q' :: f')).
    + assert (Hs : StronglySorted key_le (merge_sort key_le (q :: f))) by (apply StronglySorted_merge_sort; apply _).
      induction Hs as [|x g ? IH Hx]; [constructor|]. simpl. constructor; [done|]. by apply Forall_fmap.
    + by rewrite merge_sort_Permutation.
Qed.

(** * Build outputs agree *)

Lemma replace_head pat new s : pat <> [] -> replace pat new (pat ++ s) = new ++ replace pat new s.
Proof.
  intros Hp. unfold replace. destruct pat as [|b pat]; [done|]. cbn [app length replace_from].
  assert (strip_prefix (b :: pat) (b :: pat ++ s) = Some s) as -> by (by apply strip_prefix_spec).
  f_equal. rewrite length_app.
  assert (Hfuel : forall n s, (length s <= n)%nat -> replace_from n (b :: pat) new s = replace_from (length s) (b :: pat) new s); [|by apply Hfuel; lia].
  clear s. intros n. induction n as [n IH] using lt_wf_ind. intros s Hn. destruct n as [|n]; [destruct s; [done|simpl in Hn; lia]|].
  destruct s as [|c s]; [cbn; by destruct new|]. cbn [length replace_from] in *.
  destruct (strip_prefix (b :: pat) (c :: s)) as [rest|] eqn:E.
  - apply strip_prefix_spec, (f_equal length) in E. rewrite length_app in E. simpl in E. f_equal.
    rewrite (IH n) by lia. symmetry. apply IH; lia.
  - f_equal. apply IH; lia.
Qed.

Lemma rebase_out base rest : rebase_path base ("{out}" +:+ rest) = "{out}" +:+ rest.
Proof.
  unfold rebase_path. assert (begins_with "{out}" ("{out}" +:+ rest) = true) as -> by (by destruct rest).
  by rewrite orb_true_r.
Qed.

(** A path that starts in the output directory expands to a path there, from
    wherever the profile came. *)
Lemma out_path_expands env name base p rest :
  kernel p = "{out}" +:+ rest ->
  kernel (expand env name (rebase base p)) = out_dir env name p +:+ sub_out (out_dir env name p) rest.
Proof.
  intros Hk.
  assert (kernel (rebase base p) = "{out}" +:+ rest) as Hr by (by cbn; rewrite Hk, rebase_out).
  change (kernel (expand env name (rebase base p))) with (sub_out (out_dir env name p) (kernel (rebase base p))).
  rewrite Hr. unfold sub_out. rewrite bytes_of_app. change (bytes_of "{out}") with OUT.
  rewrite replace_head by done. by rewrite text_app, text_bytes_of.
Qed.

(** * Examples *)

Definition demo_profile : profile :=
  Profile "{out}/vmlinuz" "" None [DiskSpec None "/root.img" true false] "quiet" None "peios" true None
    (Some (S754_finite false 1 1)) (Some "make --out {out}") None None.

#[local] Instance demo_files : Files := {
  read_dir d := if decide (d = "/cfg/profiles") then Ok ["b"; "README"; "a"]
                else if decide (d = "/r/usr/lib/modules") then Ok ["6.1"; "6.2"]
                else if decide (d = "/r/usr/lib/modules/6.2") then Ok ["build"; "vmlinuz-6.2"]
                else Err "not found";
  is_file f := bool_decide (f = "/cfg/profiles/a/profile.provium.toml") || bool_decide (f = "/cfg/profiles/b/profile.provium.toml");
  read_to_string f := Ok "";
  parse_profile raw := Ok demo_profile;
  parse_config raw := Ok (Some "profiles", {["c" := demo_profile]});
}.

Example demo_kernel :
  resolve_kernel (Profile "" "" (Some "/r") [] "" None "peios" true None None None None None) =
  Ok "/r/usr/lib/modules/6.2/vmlinuz-6.2".
Proof. vm_compute. reflexivity. Qed.

Definition demo_config : gmap string profile :=
  match from_toml_str "" "/cfg/provium.toml" "/cfg" with Ok ps => ps | Err _ => ∅ end.

Lemma demo_config_loads : from_toml_str "" "/cfg/provium.toml" "/cfg" = Ok demo_config.
Proof. vm_compute. reflexivity. Qed.

Lemma loaded_profiles_boot_witness :
  from_toml_str "" "/cfg/provium.toml" "/cfg" = Ok demo_config /\ keys demo_config = ["a"; "b"; "c"] /\
  (exists p, demo_config !! "a" = Some p /\ well_formed p /\
     resolve_disks (disks p) [AttachedDisk "data" "/d" false true] =
     Ok (profile_disks (disks p) ++ [AttachedDisk "data" "/d" false true])).
Proof.
  split; [apply demo_config_loads|]. split; [vm_compute; reflexivity|].
  destruct (demo_config !! "a") as [p|] eqn:E; [|vm_compute in E; discriminate E].
  destruct (loaded_profiles_boot "" "/cfg/provium.toml" "/cfg" demo_config "a" p demo_config_loads E)
    as (_ & Hw & _ & Hb).
  exists p. split; [done|]. split; [done|]. apply Hb.
  assert (disks p = disks demo_profile) as -> by (vm_compute in E; by injection E as <-).
  by apply (bool_decide_unpack _).
Defined.

Definition demo_files_rev : Files := {|
  read_dir d := match read_dir d with Ok l => Ok (reverse l) | Err e => Err e end;
  is_file := is_file; read_to_string := read_to_string; parse_profile := parse_profile; parse_config := parse_config |}.

Lemma directory_order_free_witness :
  same_tree demo_files demo_files_rev /\
  (exists found, discover_profiles (F:=demo_files) "/cfg/profiles" "" = Ok found /\
     discover_profiles (F:=demo_files_rev) "/cfg/profiles" "" = Ok found /\ found.*1 = ["a"; "b"]).
Proof.
  assert (HF : same_tree demo_files demo_files_rev).
  { split; try done. intros d. simpl. unfold same_dir. repeat case_match; simplify_eq; done || (symmetry; apply reverse_Permutation). }
  assert (Hn : forall d names, read_dir (Files:=demo_files) d = Ok names -> NoDup names).
  { intros d names. simpl. repeat case_match; intros; simplify_eq; by apply (bool_decide_unpack _). }
  split; [done|]. destruct (directory_order_free demo_files demo_files_rev HF Hn) as [_ Hd].
  destruct (discover_profiles (F:=demo_files) "/cfg/profiles" "") as [found|] eqn:E; [|vm_compute in E; discriminate E].
  exists found. split; [done|]. split; [by apply Hd|]. vm_compute in E. injection E as <-. reflexivity.
Defined.

(** A discovered profile with a relative [build_out]: its build runs in the
    profile's directory and is told to write to [out] there, while the kernel is
    looked for in [out] under provium's own directory. *)
Example relative_build_out_splits :
  let p := Profile "{out}/vmlinuz" "" None [] "quiet" None "peios" true None None (Some "make --out {out}") (Some "out") None in
  let q := expand (fun _ => None) "a" (rebase "/cfg/profiles/a" (set_dir "/cfg/profiles/a" p)) in
  build_dir q = Some "/cfg/profiles/a" /\ build q = Some "make --out out" /\ kernel q = "out/vmlinuz".
Proof. vm_compute. auto. Qed.
