(* ===== verification/Bridge.v ===== *)
(** Bridges, [src/provium-host/src/bridge.rs]: the recorded network graph and
    the [ip], [tc] and [nft] commands that put it on the host, with the plan of
    [src/provium-host/src/bridge_realize.rs]. *)
From Stdlib Require Import Ascii.
From stdpp Require Import pretty sorting.
From S2P Require Import Prelude Names.

Open Scope string_scope.
Open Scope list_scope.
Open Scope Z_scope.

(** * Names *)

(** [str::contains]. *)
Definition contains (sub s : string) : bool :=
  match String.index 0 sub s with Some _ => true | None => false end.

Definition is_ascii_alphanumeric (c : Ascii.ascii) : bool :=
  let n := Ascii.N_of_ascii c in
  ((48 <=? n) && (n <=? 57) || (65 <=? n) && (n <=? 90) || (97 <=? n) && (n <=? 122))%N.

Definition name_char (c : Ascii.ascii) : bool := is_ascii_alphanumeric c || (c =? "_")%char.

(** [.chars().filter(..).collect()]; the bytes of a character outside ASCII
    all fail the test, as the character does. *)
Fixpoint cleaned (s : string) : string :=
  match s with
  | EmptyString => EmptyString
  | String c s => if name_char c then String c (cleaned s) else cleaned s
  end.

Definition FNV_OFFSET : Z := 14695981039346656037.
Definition FNV_PRIME : Z := 1099511628211.

(** FNV-1a over [a], a colon and [b], in 64 bits. *)
Definition fnv1a_64 (a b : string) : Z :=
  foldl (fun h c => wrap u64_max (Z.lxor h (Z.of_N (Ascii.N_of_ascii c)) * FNV_PRIME)) FNV_OFFSET
    (String.list_ascii_of_string (a +:+ ":" +:+ b)).

Definition hex_digit (d : Z) : Ascii.ascii :=
  nth (Z.to_nat d) (String.list_ascii_of_string "0123456789abcdef") "0"%char.

(** [{:0nx}] of a number below [16^n]. *)
Fixpoint hex (n : nat) (h : Z) (acc : string) : string :=
  match n with
  | O => acc
  | S n' => hex n' (Z.shiftr h 4) (String (hex_digit (Z.land h 15)) acc)
  end.

Definition tap_name_for_vm_on_bridge (vm bridge : string) : string :=
  let c := cleaned vm in
  "tap-" +:+ String.substring 0 (Nat.min (String.length c) 4) c +:+
  hex 7 (Z.land (fnv1a_64 vm bridge) 268435455) "".

(** The single-bridge form. *)
Definition tap_name_for_vm (vm : string) : string :=
  let c := cleaned vm in "tap-" +:+ String.substring 0 (Nat.min (String.length c) 10) c.

(** One underscore for each character that is not an ASCII letter or digit;
    the continuation bytes of one character give nothing of their own. *)
Fixpoint sanitize_nft_name (s : string) : string :=
  match s with
  | EmptyString => EmptyString
  | String c s =>
      let n := Ascii.N_of_ascii c in
      if is_ascii_alphanumeric c then String c (sanitize_nft_name s)
      else if ((128 <=? n) && (n <? 192))%N then sanitize_nft_name s
      else String "_" (sanitize_nft_name s)
  end.

Definition table_for (bridge : string) : string := "provium_" +:+ sanitize_nft_name bridge.
Definition uplink_table_for (bridge : string) : string := "provium_uplink_" +:+ sanitize_nft_name bridge.

Definition canonical_pair (a b : string) : string * string :=
  if decide (String.le a b) then (a, b) else (b, a).

(** * The recorded graph *)

Record impairment := Impairment { di_latency : Z; di_drop : Z; di_bps : Z }.

(** [BridgeInner], with the name and the capture counter of [Bridge]. *)
Record bridge := Bridge {
  br_name : string;
  attached : gset string;
  partitions : gset (string * string);  (* ordered pairs, both ways *)
  latency_ms : Z;
  drop_rate_pct : Z;
  bandwidth_bps : Z;
  directional : gmap (string * string) impairment;  (* by (from, to) *)
  fully_partitioned : bool;
  routed_to : gset string;
  isolated : gset string;
  realized : bool;
  realized_taps : gset string;
  realized_netem : option (Z * Z);  (* latency and drop *)
  realized_directional : gmap string (Z * Z * Z);  (* latency, drop and rate by VM *)
  directional_partitions : gset (string * string);  (* (from, to) *)
  uplink_realized : bool;
  uplink_enabled : bool;
  captures : Z;  (* the capture counter beside the inner state *)
}.

Definition set_attached (x : gset string) (b : bridge) : bridge :=
  Bridge (br_name b) x (partitions b) (latency_ms b) (drop_rate_pct b) (bandwidth_bps b) (directional b)
    (fully_partitioned b) (routed_to b) (isolated b) (realized b) (realized_taps b) (realized_netem b)
    (realized_directional b) (directional_partitions b) (uplink_realized b) (uplink_enabled b) (captures b).
Definition set_partitions (x : gset (string * string)) (b : bridge) : bridge :=
  Bridge (br_name b) (attached b) x (latency_ms b) (drop_rate_pct b) (bandwidth_bps b) (directional b)
    (fully_partitioned b) (routed_to b) (isolated b) (realized b) (realized_taps b) (realized_netem b)
    (realized_directional b) (directional_partitions b) (uplink_realized b) (uplink_enabled b) (captures b).
Definition set_latency_ms (x : Z) (b : bridge) : bridge :=
  Bridge (br_name b) (attached b) (partitions b) x (drop_rate_pct b) (bandwidth_bps b) (directional b)
    (fully_partitioned b) (routed_to b) (isolated b) (realized b) (realized_taps b) (realized_netem b)
    (realized_directional b) (directional_partitions b) (uplink_realized b) (uplink_enabled b) (captures b).
Definition set_drop_rate_pct (x : Z) (b : bridge) : bridge :=
  Bridge (br_name b) (attached b) (partitions b) (latency_ms b) x (bandwidth_bps b) (directional b)
    (fully_partitioned b) (routed_to b) (isolated b) (realized b) (realized_taps b) (realized_netem b)
    (realized_directional b) (directional_partitions b) (uplink_realized b) (uplink_enabled b) (captures b).
Definition set_bandwidth_bps (x : Z) (b : bridge) : bridge :=
  Bridge (br_name b) (attached b) (partitions b) (latency_ms b) (drop_rate_pct b) x (directional b)
    (fully_partitioned b) (routed_to b) (isolated b) (realized b) (realized_taps b) (realized_netem b)
    (realized_directional b) (directional_partitions b) (uplink_realized b) (uplink_enabled b) (captures b).
Definition set_directional (x : gmap (string * string) impairment) (b : bridge) : bridge :=
  Bridge (br_name b) (attached b) (partitions b) (latency_ms b) (drop_rate_pct b) (bandwidth_bps b) x
    (fully_partitioned b) (routed_to b) (isolated b) (realized b) (realized_taps b) (realized_netem b)
    (realized_directional b) (directional_partitions b) (uplink_realized b) (uplink_enabled b) (captures b).
Definition set_fully_partitioned (x : bool) (b : bridge) : bridge :=
  Bridge (br_name b) (attached b) (partitions b) (latency_ms b) (drop_rate_pct b) (bandwidth_bps b)
    (directional b) x (routed_to b) (isolated b) (realized b) (realized_taps b) (realized_netem b)
    (realized_directional b) (directional_partitions b) (uplink_realized b) (uplink_enabled b) (captures b).
Definition set_routed_to (x : gset string) (b : bridge) : bridge :=
  Bridge (br_name b) (attached b) (partitions b) (latency_ms b) (drop_rate_pct b) (bandwidth_bps b)
    (directional b) (fully_partitioned b) x (isolated b) (realized b) (realized_taps b) (realized_netem b)
    (realized_directional b) (directional_partitions b) (uplink_realized b) (uplink_enabled b) (captures b).
Definition set_isolated (x : gset string) (b : bridge) : bridge :=
  Bridge (br_name b) (attached b) (partitions b) (latency_ms b) (drop_rate_pct b) (bandwidth_bps b)
    (directional b) (fully_partitioned b) (routed_to b) x (realized b) (realized_taps b) (realized_netem b)
    (realized_directional b) (directional_partitions b) (uplink_realized b) (uplink_enabled b) (captures b).
Definition set_realized (x : bool) (b : bridge) : bridge :=
  Bridge (br_name b) (attached b) (partitions b) (latency_ms b) (drop_rate_pct b) (bandwidth_bps b)
    (directional b) (fully_partitioned b) (routed_to b) (isolated b) x (realized_taps b) (realized_netem b)
    (realized_directional b) (directional_partitions b) (uplink_realized b) (uplink_enabled b) (captures b).
Definition set_realized_taps (x : gset string) (b : bridge) : bridge :=
  Bridge (br_name b) (attached b) (partitions b) (latency_ms b) (drop_rate_pct b) (bandwidth_bps b)
    (directional b) (fully_partitioned b) (routed_to b) (isolated b) (realized b) x (realized_netem b)
    (realized_directional b) (directional_partitions b) (uplink_realized b) (uplink_enabled b) (captures b).
Definition set_realized_netem (x : option (Z * Z)) (b : bridge) : bridge :=
  Bridge (br_name b) (attached b) (partitions b) (latency_ms b) (drop_rate_pct b) (bandwidth_bps b)
    (directional b) (fully_partitioned b) (routed_to b) (isolated b) (realized b) (realized_taps b) x
    (realized_directional b) (directional_partitions b) (uplink_realized b) (uplink_enabled b) (captures b).
Definition set_realized_directional (x : gmap string (Z * Z * Z)) (b : bridge) : bridge :=
  Bridge (br_name b) (attached b) (partitions b) (latency_ms b) (drop_rate_pct b) (bandwidth_bps b)
    (directional b) (fully_partitioned b) (routed_to b) (isolated b) (realized b) (realized_taps b)
    (realized_netem b) x (directional_partitions b) (uplink_realized b) (uplink_enabled b) (captures b).
Definition set_directional_partitions (x : gset (string * string)) (b : bridge) : bridge :=
  Bridge (br_name b) (attached b) (partitions b) (latency_ms b) (drop_rate_pct b) (bandwidth_bps b)
    (directional b) (fully_partitioned b) (routed_to b) (isolated b) (realized b) (realized_taps b)
    (realized_netem b) (realized_directional b) x (uplink_realized b) (uplink_enabled b) (captures b).
Definition set_uplink_realized (x : bool) (b : bridge) : bridge :=
  Bridge (br_name b) (attached b) (partitions b) (latency_ms b) (drop_rate_pct b) (bandwidth_bps b)
    (directional b) (fully_partitioned b) (routed_to b) (isolated b) (realized b) (realized_taps b)
    (realized_netem b) (realized_directional b) (directional_partitions b) x (uplink_enabled b) (captures b).
Definition set_uplink_enabled (x : bool) (b : bridge) : bridge :=
  Bridge (br_name b) (attached b) (partitions b) (latency_ms b) (drop_rate_pct b) (bandwidth_bps b)
    (directional b) (fully_partitioned b) (routed_to b) (isolated b) (realized b) (realized_taps b)
    (realized_netem b) (realized_directional b) (directional_partitions b) (uplink_realized b) x (captures b).
Definition set_captures (x : Z) (b : bridge) : bridge :=
  Bridge (br_name b) (attached b) (partitions b) (latency_ms b) (drop_rate_pct b) (bandwidth_bps b)
    (directional b) (fully_partitioned b) (routed_to b) (isolated b) (realized b) (realized_taps b)
    (realized_netem b) (realized_directional b) (directional_partitions b) (uplink_realized b) (uplink_enabled
    b) x.

Definition bridge_new (name : string) : bridge :=
  Bridge name ∅ ∅ 0 0 0 ∅ false ∅ ∅ false ∅ None ∅ ∅ false false 0.

Definition members (b : bridge) : list string := in_order (attached b).

Definition is_partitioned (x y : string) (b : bridge) : bool :=
  fully_partitioned b || bool_decide (canonical_pair x y ∈ partitions b).

Definition no_impairment : impairment := Impairment 0 0 0.
Definition directional_of (from to : string) (b : bridge) : impairment :=
  default no_impairment (directional b !! (from, to)).

(** A pair whose three axes are back to zero is dropped. *)
Definition gc_directional_entry (m : gmap (string * string) impairment) (from to : string) : gmap (string * string) impairment :=
  match m !! (from, to) with
  | Some d => if (di_latency d =? 0) && (di_drop d =? 0) && (di_bps d =? 0) then delete (from, to) m else m
  | None => m
  end.

Definition set_axis (f : impairment -> impairment) (from to : string) (b : bridge) : bridge :=
  set_directional (gc_directional_entry (<[(from, to) := f (directional_of from to b)]> (directional b)) from to) b.

(** [collapsed_directional_for]: the largest value of each axis over the pairs
    that start at [vm]. *)
Definition collapse (acc : option (Z * Z * Z)) (d : impairment) : option (Z * Z * Z) :=
  let '(l, p, r) := default (0, 0, 0) acc in
  Some (Z.max l (di_latency d), Z.max p (di_drop d), Z.max r (di_bps d)).

Definition collapsed_directional_for (vm : string) (b : bridge) : option (Z * Z * Z) :=
  match foldl (fun acc kd => if decide (kd.1.1 = vm) then collapse acc kd.2 else acc) None (map_to_list (directional b)) with
  | Some (l, p, r) => if (0 <? l) || (0 <? p) || (0 <? r) then Some (l, p, r) else None
  | None => None
  end.

Definition mentions (vm : string) (p : string * string) : Prop := p.1 = vm \/ p.2 = vm.
#[export] Instance mentions_dec vm p : Decision (mentions vm p).
Proof. unfold mentions. apply _. Defined.

(** What [detach] and [reset] clear under the lock. *)
Definition forget_vm (vm : string) (b : bridge) : bridge :=
  set_attached (attached b ∖ {[vm]})
  (set_isolated (isolated b ∖ {[vm]})
  (set_partitions (filter (fun p => ~ mentions vm p) (partitions b))
  (set_directional_partitions (filter (fun p => ~ mentions vm p) (directional_partitions b))
  (set_directional (filter (fun kd => ~ mentions vm kd.1) (directional b))
  (set_realized_taps (realized_taps b ∖ {[vm]}) b))))).

Definition clear_impairments (b : bridge) : bridge :=
  set_partitions ∅ (set_directional_partitions ∅ (set_latency_ms 0 (set_drop_rate_pct 0 (set_bandwidth_bps 0
    (set_directional ∅ (set_fully_partitioned false b)))))).

(** * The host *)

Record net_op := NetOp { program : string; args : list string }.

#[export] Instance net_op_eq_dec : EqDecision net_op.
Proof. solve_decision. Defined.

(** How a command ends: not started, exit status 0, or another with the
    trimmed text of its standard error. *)
Inductive cmd_output := NotStarted (e : string) | Success | Failure (stderr : string).

(** The host: running a command, writing a file, the process's user, and the
    words [ip -4 route show default] prints when it succeeds. *)
Class Host (H : Type) := {
  exec : net_op -> H -> H * cmd_output;
  write_file : string -> string -> H -> H;
  getuid : H -> string;
  default_route : H -> option (list string);
}.

(** The word after the first [dev]. *)
Fixpoint upstream_of (tokens : list string) : option string :=
  match tokens with
  | [] => None
  | t :: rest => if decide (t = "dev") then head rest else upstream_of rest
  end.

Section operations.
Context {H : Type} `{!Host H}.

(** A method: it may change the bridge and the host, and may fail. *)
Definition io (A : Type) : Type := bridge * H -> (bridge * H) * result A string.
#[export] Instance io_ret : MRet io := fun A a s => (s, Ok a).
#[export] Instance io_bind : MBind io := fun A B f m s =>
  match m s with (s', Ok a) => f a s' | (s', Err e) => (s', Err e) end.

Definition get : io bridge := fun s => (s, Ok s.1).
Definition fail {A} (e : string) : io A := fun s => (s, Err e).
Definition modify (f : bridge -> bridge) : io () := fun s => ((f s.1, s.2), Ok ()).

(** [let _ = ..]. *)
Definition attempt (m : io ()) : io () := fun s => ((m s).1, Ok ()).

(** [.is_ok()]. *)
Definition succeeds (m : io ()) : io bool := fun s => ((m s).1, Ok (is_ok (m s).2)).

(** An error whose text has one of these is taken for success. *)
Definition tolerate (texts : list string) (m : io ()) : io () := fun s =>
  match m s with
  | (s', Err e) => if existsb (fun t => contains t e) texts then (s', Ok ()) else (s', Err e)
  | r => r
  end.

Definition when (c : bool) (m : io ()) : io () := if c then m else mret ().

Fixpoint for_each {A} (f : A -> io ()) (l : list A) : io () :=
  match l with
  | [] => mret ()
  | x :: l => f x;; for_each f l
  end.

Definition run_cmd (prog : string) (argv : list string) : io () := fun s =>
  match exec (NetOp prog argv) s.2 with
  | (h, Success) => ((s.1, h), Ok ())
  | (h, NotStarted e) => ((s.1, h), Err e)
  | (h, Failure stderr) => ((s.1, h), Err (prog +:+ " " +:+ String.concat " " argv +:+ ": " +:+ stderr))
  end.

Definition run_ip (argv : list string) : io () := run_cmd "ip" argv.
Definition run_tc (argv : list string) : io () := run_cmd "tc" argv.

(** * Commands for a link *)

Definition netem_clauses (lat drop : Z) : list string :=
  (if 0 <? lat then ["delay"; pretty lat +:+ "ms"] else []) ++
  (if 0 <? drop then ["loss"; pretty drop +:+ "%"] else []).

Definition netem_root (dev verb : string) (lat drop : Z) : list string :=
  ["qdisc"; verb; "dev"; dev; "root"; "netem"] ++ netem_clauses lat drop.

Definition install_netem_root (tap : string) (lat drop : Z) : io () := run_tc (netem_root tap "add" lat drop).

Definition htb_root (tap : string) : list string :=
  ["qdisc"; "add"; "dev"; tap; "root"; "handle"; "1:"; "htb"; "default"; "10"].
Definition htb_class (tap : string) (bps : Z) : list string :=
  ["class"; "add"; "dev"; tap; "parent"; "1:"; "classid"; "1:10"; "htb"; "rate"; pretty bps +:+ "bit";
   "ceil"; pretty bps +:+ "bit"; "burst"; pretty (Z.max (bps / 800) 1500)].
Definition netem_child (tap : string) (lat drop : Z) : list string :=
  ["qdisc"; "add"; "dev"; tap; "parent"; "1:10"; "handle"; "10:"; "netem"] ++ netem_clauses lat drop.

Definition install_htb_with_optional_netem (tap : string) (lat drop bps : Z) : io () :=
  run_tc (htb_root tap);;
  run_tc (htb_class tap bps);;
  when ((0 <? lat) || (0 <? drop)) (run_tc (netem_child tap lat drop)).

Definition netem_target (b : bridge) : option (Z * Z) :=
  if (0 <? latency_ms b) || (0 <? drop_rate_pct b) then Some (latency_ms b, drop_rate_pct b) else None.

(** The interface of the bridge and the machine's TAP on it. *)
Definition realize_for_vm (vm : string) : io string :=
  b ← get;
  let name := br_name b in
  let tap := tap_name_for_vm_on_bridge vm name in
  let current_netem := realized_netem b in
  let target_netem := netem_target b in
  when (negb (realized b))
    (tolerate ["File exists"] (run_ip ["link"; "add"; name; "type"; "bridge"]);;
     run_ip ["link"; "set"; "dev"; name; "up"]);;
  (if decide (current_netem = target_netem) then mret ()
   else match target_netem with
        | Some (lat, drop) => run_tc (netem_root name (if current_netem is Some _ then "change" else "add") lat drop)
        | None => when (bool_decide (is_Some current_netem)) (attempt (run_tc ["qdisc"; "del"; "dev"; name; "root"]))
        end);;
  when (bool_decide (vm ∉ realized_taps b))
    (tolerate ["File exists"; "busy"]
       (fun s => run_ip ["tuntap"; "add"; "dev"; tap; "mode"; "tap"; "user"; getuid s.2] s);;
     run_ip ["link"; "set"; "dev"; tap; "master"; name];;
     run_ip ["link"; "set"; "dev"; tap; "up"]);;
  let target := collapsed_directional_for vm b in
  let current := realized_directional b !! vm in
  (if decide (current = target) then mret ()
   else
     when (bool_decide (is_Some current)) (attempt (run_tc ["qdisc"; "del"; "dev"; tap; "root"]));;
     match target with
     | Some (lat, drop, bps) =>
         if 0 <? bps then install_htb_with_optional_netem tap lat drop bps else install_netem_root tap lat drop
     | None => mret ()
     end);;
  modify (fun b =>
    set_realized true (set_realized_netem target_netem (set_realized_taps ({[vm]} ∪ realized_taps b)
      (set_realized_directional
         (match target with Some v => <[vm := v]> (realized_directional b) | None => delete vm (realized_directional b) end) b))));;
  mret tap.

Definition refresh_netem : io () :=
  b ← get;
  let name := br_name b in
  let lat := latency_ms b in
  let drop := drop_rate_pct b in
  if negb (realized b) then mret ()
  else if bool_decide (realized_netem b = None) && (lat =? 0) && (drop =? 0) then mret ()
  else
    attempt (run_cmd "tc" ["qdisc"; "del"; "dev"; name; "root"]);;
    if (lat =? 0) && (drop =? 0) then modify (set_realized_netem None)
    else run_cmd "tc" (netem_root name "add" lat drop).

Definition refresh_bandwidth : io () :=
  b ← get;
  let name := br_name b in
  let bps := bandwidth_bps b in
  let shaped := (0 <? latency_ms b) || (0 <? drop_rate_pct b) in
  if negb (realized b) then mret ()
  else if bps =? 0 then
    attempt (run_cmd "tc" ["qdisc"; "del"; "dev"; name; "root"]);;
    when shaped (attempt refresh_netem)
  else if shaped then mret ()
  else
    run_cmd "tc" ["qdisc"; "replace"; "dev"; name; "root"; "handle"; "1:"; "tbf"; "rate"; pretty bps +:+ "bit";
                  "burst"; pretty (Z.max (bps / 800) 1500); "limit"; pretty (Z.max (bps / 8) 1500)].

(** * Partitions on the host *)

Definition quote : string := String "034"%char "".

Definition drop_rule (io : string * string) : string :=
  "iifname " +:+ quote +:+ io.1 +:+ quote +:+ " oifname " +:+ quote +:+ io.2 +:+ quote +:+ " drop".

(** The (in, out) pairs of the rules, in the order of the loops. *)
Definition cut_pairs (b : bridge) : list (string * string) :=
  let tap := fun vm => tap_name_for_vm_on_bridge vm (br_name b) in
  let taps := tap <$> in_order (realized_taps b) in
  if fully_partitioned b then
    x ← taps; y ← taps; if decide (x = y) then [] else [(x, y)]
  else
    (p ← pairs_in_order (partitions b); [(tap p.1, tap p.2); (tap p.2, tap p.1)]) ++
    (p ← pairs_in_order (directional_partitions b); [(tap p.1, tap p.2)]) ++
    (v ← in_order (isolated b); other ← taps;
     if decide (other = tap v) then [] else [(tap v, other); (other, tap v)]).

Definition refresh_partitions : io () :=
  b ← get;
  let table := table_for (br_name b) in
  if negb (realized b) then mret ()
  else
    attempt (run_cmd "nft" ["delete"; "table"; "bridge"; table]);;
    if negb (fully_partitioned b) && bool_decide (partitions b = ∅) &&
       bool_decide (directional_partitions b = ∅) && bool_decide (isolated b = ∅)
    then mret ()
    else
      run_cmd "nft" ["add"; "table"; "bridge"; table];;
      run_cmd "nft" ["add"; "chain"; "bridge"; table; "forward"; "{ type filter hook forward priority 0 ; }"];;
      for_each (fun io => run_cmd "nft" ["add"; "rule"; "bridge"; table; "forward"; drop_rule io]) (cut_pairs b).

Definition refresh_directional : io () :=
  b ← get;
  if negb (realized b) then mret ()
  else for_each (fun vm => realize_for_vm vm;; mret ()) (in_order (realized_taps b)).

(** * Operations *)

Definition attach (vm : string) : io () := modify (fun b => set_attached ({[vm]} ∪ attached b) b).

Definition detach (vm : string) : io () :=
  b ← get;
  modify (forget_vm vm);;
  when (realized b && bool_decide (vm ∈ realized_taps b))
    (attempt (run_ip ["link"; "del"; "dev"; tap_name_for_vm_on_bridge vm (br_name b)]));;
  attempt refresh_partitions.

Definition unplug (vm : string) : io bool :=
  b ← get;
  if negb (bool_decide (vm ∈ realized_taps b)) then mret false
  else
    run_ip ["link"; "set"; "dev"; tap_name_for_vm_on_bridge vm (br_name b); "nomaster"];;
    mret true.

Definition replug (vm : string) : io bool :=
  b ← get;
  let tap := tap_name_for_vm_on_bridge vm (br_name b) in
  if negb (bool_decide (vm ∈ realized_taps b)) then mret false
  else
    run_ip ["link"; "set"; "dev"; tap; "master"; br_name b];;
    run_ip ["link"; "set"; "dev"; tap; "up"];;
    mret true.

(** A change of the graph, then the rules again. *)
Definition recut (f : bridge -> bridge) : io () := modify f;; attempt refresh_partitions.

Definition partition (x y : string) : io () :=
  recut (fun b => set_partitions ({[canonical_pair x y]} ∪ partitions b) b).
Definition unpartition (x y : string) : io () :=
  recut (fun b => set_partitions (partitions b ∖ {[canonical_pair x y]}) b).
Definition partition_directional (from to : string) : io () :=
  recut (fun b => set_directional_partitions ({[(from, to)]} ∪ directional_partitions b) b).
Definition unpartition_directional (from to : string) : io () :=
  recut (fun b => set_directional_partitions (directional_partitions b ∖ {[(from, to)]}) b).
Definition partition_all : io () := recut (set_fully_partitioned true).
Definition restore_all : io () := recut (set_fully_partitioned false).
Definition isolate (vm : string) : io () := recut (fun b => set_isolated ({[vm]} ∪ isolated b) b).
Definition unisolate (vm : string) : io () := recut (fun b => set_isolated (isolated b ∖ {[vm]}) b).

Definition reset : io () :=
  modify clear_impairments;;
  attempt refresh_partitions;;
  attempt refresh_netem;;
  attempt refresh_bandwidth;;
  attempt refresh_directional.

Definition route (other : string) : io () := modify (fun b => set_routed_to ({[other]} ∪ routed_to b) b).

Definition add_latency (ms : Z) : io () := modify (set_latency_ms ms);; attempt refresh_netem.
Definition drop_rate (pct : Z) : io () := modify (set_drop_rate_pct (Z.min pct 100));; attempt refresh_netem.
Definition bandwidth_limit (bps : Z) : io () := modify (set_bandwidth_bps bps);; attempt refresh_bandwidth.

Definition add_directional_latency (from to : string) (ms : Z) : io () :=
  modify (set_axis (fun d => Impairment ms (di_drop d) (di_bps d)) from to);; attempt refresh_directional.
Definition directional_drop_rate (from to : string) (pct : Z) : io () :=
  modify (set_axis (fun d => Impairment (di_latency d) (Z.min pct 100) (di_bps d)) from to);; attempt refresh_directional.
Definition set_directional_bandwidth (from to : string) (bps : Z) : io () :=
  modify (set_axis (fun d => Impairment (di_latency d) (di_drop d) bps) from to);; attempt refresh_directional.

Definition masquerade (verb upstream : string) : list string :=
  ["-t"; "nat"; verb; "POSTROUTING"; "-o"; upstream; "-j"; "MASQUERADE"].

Definition default_upstream_iface : io (option string) := fun s => (s, Ok (default_route s.2 ≫= upstream_of)).

Definition install_uplink (name table upstream : string) : io () :=
  (fun s => ((s.1, write_file "/proc/sys/net/ipv4/ip_forward" "1" s.2), Ok ()));;
  ok_table ← succeeds (run_cmd "nft" ["add"; "table"; "ip"; table]);
  ok ← (if ok_table : bool
        then succeeds (run_cmd "nft" ["add"; "chain"; "ip"; table; "postrouting"; "{ type nat hook postrouting priority 100 ; }"])
        else mret false);
  if ok : bool then
    run_cmd "nft" ["add"; "rule"; "ip"; table; "postrouting";
      "oifname " +:+ quote +:+ upstream +:+ quote +:+ " iifname " +:+ quote +:+ name +:+ quote +:+ " masquerade"]
  else run_cmd "iptables" (masquerade "-A" upstream).

Definition refresh_uplink : io () :=
  b ← get;
  let want := uplink_enabled b in
  let table := uplink_table_for (br_name b) in
  if eqb want (uplink_realized b) then mret ()
  else
    upstream ← default_upstream_iface;
    match upstream with
    | None => modify (set_uplink_realized want)
    | Some upstream =>
        (if want then install_uplink (br_name b) table upstream
         else
           attempt (run_cmd "iptables" (masquerade "-D" upstream));;
           attempt (run_cmd "nft" ["delete"; "table"; "ip"; table]));;
        modify (set_uplink_realized want)
    end.

Definition enable_uplink : io () := modify (set_uplink_enabled true);; refresh_uplink.
Definition disable_uplink : io () := modify (set_uplink_enabled false);; refresh_uplink.

(** The counter of a [CaptureGuard], a [usize]. *)
Definition register_capture : io () := modify (fun b => set_captures (wrap u64_max (captures b + 1)) b).
Definition drop_capture : io () := modify (fun b => set_captures (wrap u64_max (captures b - 1)) b).

(** A command whose error is remembered if it is the first. *)
Definition first_error (err : option string) (m : io ()) : io (option string) := fun s =>
  match m s with
  | (s', Err e) => (s', Ok (Some (default e err)))
  | (s', Ok _) => (s', Ok err)
  end.

Fixpoint delete_taps (name : string) (vms : list string) (err : option string) : io (option string) :=
  match vms with
  | [] => mret err
  | vm :: vms =>
      err ← first_error err (run_ip ["link"; "del"; "dev"; tap_name_for_vm_on_bridge vm name]);
      delete_taps name vms err
  end.

Definition unrealize : io () :=
  b ← get;
  let name := br_name b in
  modify (fun b => set_realized_taps ∅ (set_realized false (set_uplink_realized false
    (set_realized_netem None (set_realized_directional ∅ b)))));;
  attempt (run_cmd "nft" ["delete"; "table"; "bridge"; table_for name]);;
  when (uplink_realized b)
    (attempt (run_cmd "nft" ["delete"; "table"; "ip"; uplink_table_for name]);;
     upstream ← default_upstream_iface;
     match upstream with
     | Some upstream => attempt (run_cmd "iptables" (masquerade "-D" upstream))
     | None => mret ()
     end);;
  err ← delete_taps name (in_order (realized_taps b)) None;
  err ← (if realized b then first_error err (run_ip ["link"; "del"; "dev"; name]) else mret err);
  match err with Some e => fail e | None => mret () end.
End operations.

(** * The plan *)

Definition plan_ip (argv : list string) : net_op := NetOp "ip" argv.
Definition plan_tc (argv : list string) : net_op := NetOp "tc" argv.

Definition plan_taps (b : bridge) : list net_op :=
  vm ← members b;
  let tap := tap_name_for_vm_on_bridge vm (br_name b) in
  [plan_ip ["tuntap"; "add"; "dev"; tap; "mode"; "tap"];
   plan_ip ["link"; "set"; "dev"; tap; "master"; br_name b];
   plan_ip ["link"; "set"; "dev"; tap; "up"]].

Definition plan_netem (b : bridge) : list net_op :=
  if (0 <? latency_ms b) || (0 <? drop_rate_pct b)
  then [plan_tc (netem_root (br_name b) "add" (latency_ms b) (drop_rate_pct b))] else [].

Definition plan_shape (vm : string) (b : bridge) : list net_op :=
  let tap := tap_name_for_vm_on_bridge vm (br_name b) in
  match collapsed_directional_for vm b with
  | None => []
  | Some (lat, drop, bps) =>
      if (lat =? 0) && (drop =? 0) && (bps =? 0) then []
      else if 0 <? bps then
        [plan_tc (htb_root tap); plan_tc (htb_class tap bps)] ++
        (if (0 <? lat) || (0 <? drop) then [plan_tc (netem_child tap lat drop)] else [])
      else [plan_tc (netem_root tap "add" lat drop)]
  end.

Definition plan_for (b : bridge) : string * list net_op :=
  (br_name b,
   [plan_ip ["link"; "add"; br_name b; "type"; "bridge"]; plan_ip ["link"; "set"; "dev"; br_name b; "up"]] ++
   plan_taps b ++ plan_netem b ++ (vm ← members b; plan_shape vm b)).
