(* ===== verification/BridgeNet.v ===== *)
(** What a bridge promises: interface names that fit, rules that cut exactly
    the recorded partitions, and a plan that is the commands of the
    realisation. *)
From Stdlib Require Import Ascii.
From stdpp Require Import pretty sorting.
From S2P Require Import Prelude Names Bridge.

Open Scope string_scope.
Open Scope list_scope.
Open Scope Z_scope.

(** * Interface names *)

Definition tap_char (c : Ascii.ascii) : bool := name_char c || (c =? "-")%char.

(** What the kernel takes for the name of an interface: 1 to 15 bytes, here of
    letters, digits, underscores and dashes. *)
Definition valid_ifname (s : string) : Prop :=
  (1 <= String.length s <= 15)%nat /\ Forall (fun c => tap_char c = true) (String.list_ascii_of_string s).

Lemma list_ascii_app s t :
  String.list_ascii_of_string (s +:+ t) = String.list_ascii_of_string s ++ String.list_ascii_of_string t.
Proof. induction s as [|c s IH]; [done|]. apply (f_equal (cons c) IH). Qed.

Lemma string_length_app s t : String.length (s +:+ t) = (String.length s + String.length t)%nat.
Proof. induction s as [|c s IH]; [done|]. apply (f_equal S IH). Qed.

Lemma cleaned_chars s : Forall (fun c => tap_char c = true) (String.list_ascii_of_string (cleaned s)).
Proof.
  induction s as [|c s IH]; cbn; [constructor|]. destruct (name_char c) eqn:E; [|done].
  constructor; [unfold tap_char; by rewrite E|done].
Qed.

Lemma substring_chars (P : Ascii.ascii -> Prop) n s :
  Forall P (String.list_ascii_of_string s) -> Forall P (String.list_ascii_of_string (String.substring 0 n s)).
Proof.
  revert n. induction s as [|c s IH]; intros [|n]; cbn; try done; intros Hs; [constructor..|].
  inversion Hs; subst. constructor; auto.
Qed.

Lemma substring_length n s : (String.length (String.substring 0 n s) <= n)%nat.
Proof. revert n. induction s as [|c s IH]; intros [|n]; cbn; try lia. specialize (IH n). lia. Qed.

Lemma hex_digit_char d : 0 <= d < 16 -> tap_char (hex_digit d) = true.
Proof.
  intros Hd. assert (H : exists n : nat, d = Z.of_nat n /\ (n < 16)%nat) by (exists (Z.to_nat d); lia).
  destruct H as (n & -> & Hn). do 16 (destruct n as [|n]; [reflexivity|]). lia.
Qed.

Lemma land_15 h : 0 <= Z.land h 15 < 16.
Proof. change 15 with (Z.ones 4). rewrite Z.land_ones by lia. apply Z.mod_pos_bound. lia. Qed.

Lemma hex_chars n h acc :
  Forall (fun c => tap_char c = true) (String.list_ascii_of_string acc) ->
  Forall (fun c => tap_char c = true) (String.list_ascii_of_string (hex n h acc)).
Proof.
  revert h acc. induction n as [|n IH]; intros h acc Hacc; [done|]. cbn [hex]. apply IH. constructor; [|done].
  apply hex_digit_char, land_15.
Qed.

Lemma hex_length n h acc : String.length (hex n h acc) = (n + String.length acc)%nat.
Proof. revert h acc. induction n as [|n IH]; intros h acc; [done|]. cbn [hex]. rewrite IH. simpl. lia. Qed.

Lemma tap_name_chars vm bridge :
  Forall (fun c => tap_char c = true) (String.list_ascii_of_string (tap_name_for_vm_on_bridge vm bridge)).
Proof.
  unfold tap_name_for_vm_on_bridge. rewrite !list_ascii_app, !Forall_app. split_and!.
  - by repeat constructor.
  - apply substring_chars, cleaned_chars.
  - apply hex_chars. constructor.
Qed.

(** The TAP of any machine on any bridge, whatever their names hold, has a
    name the kernel accepts for an interface: at most 15 bytes, letters,
    digits, underscores and dashes only; and so has the single-bridge form. *)
Lemma tap_names_fit vm bridge :
  valid_ifname (tap_name_for_vm_on_bridge vm bridge) /\ valid_ifname (tap_name_for_vm vm).
Proof.
  split; split; [|apply tap_name_chars| |].
  - unfold tap_name_for_vm_on_bridge. rewrite !string_length_app, hex_length.
    pose proof (substring_length (Nat.min (String.length (cleaned vm)) 4) (cleaned vm)). simpl. lia.
  - unfold tap_name_for_vm. rewrite string_length_app.
    pose proof (substring_length (Nat.min (String.length (cleaned vm)) 10) (cleaned vm)). simpl. lia.
  - unfold tap_name_for_vm. rewrite list_ascii_app, Forall_app. split; [by repeat constructor|].
    apply substring_chars, cleaned_chars.
Qed.

(** * Calls and what they keep *)

Inductive bridge_call :=
| CAttach (vm : string) | CDetach (vm : string) | CUnplug (vm : string) | CReplug (vm : string)
| CPartition (x y : string) | CUnpartition (x y : string)
| CPartitionDir (from to : string) | CUnpartitionDir (from to : string)
| CPartitionAll | CRestoreAll | CIsolate (vm : string) | CUnisolate (vm : string) | CReset
| CRoute (other : string) | CLatency (ms : Z) | CDropRate (pct : Z) | CBandwidth (bps : Z)
| CLatencyDir (from to : string) (ms : Z) | CDropRateDir (from to : string) (pct : Z)
| CBandwidthDir (from to : string) (bps : Z) | CRealize (vm : string)
| CEnableUplink | CDisableUplink | CRegisterCapture | CDropCapture | CUnrealize.

(** The calls that end with the rules being written again. *)
Definition cuts_again (c : bridge_call) : bool :=
  match c with
  | CDetach _ | CPartition _ _ | CUnpartition _ _ | CPartitionDir _ _ | CUnpartitionDir _ _
  | CPartitionAll | CRestoreAll | CIsolate _ | CUnisolate _ | CReset => true
  | _ => false
  end.

Section calls.
Context {H : Type} `{!Host H}.

#[local] Abbreviation io := (Bridge.io (H:=H)).

Definition ignore {A} (m : io A) : io () := fun s => ((m s).1, Ok ()).

(** Whatever a call returns, the next one may come. *)
Definition do_call (c : bridge_call) : io () :=
  match c with
  | CAttach vm => attach vm | CDetach vm => detach vm
  | CUnplug vm => ignore (unplug vm) | CReplug vm => ignore (replug vm)
  | CPartition x y => partition x y | CUnpartition x y => unpartition x y
  | CPartitionDir from to => partition_directional from to
  | CUnpartitionDir from to => unpartition_directional from to
  | CPartitionAll => partition_all | CRestoreAll => restore_all
  | CIsolate vm => isolate vm | CUnisolate vm => unisolate vm | CReset => reset
  | CRoute other => route other | CLatency ms => add_latency ms | CDropRate pct => drop_rate pct
  | CBandwidth bps => bandwidth_limit bps
  | CLatencyDir from to ms => add_directional_latency from to ms
  | CDropRateDir from to pct => directional_drop_rate from to pct
  | CBandwidthDir from to bps => set_directional_bandwidth from to bps
  | CRealize vm => ignore (realize_for_vm vm)
  | CEnableUplink => enable_uplink | CDisableUplink => disable_uplink
  | CRegisterCapture => register_capture | CDropCapture => drop_capture
  | CUnrealize => unrealize
  end.

Definition do_calls (cs : list bridge_call) (s : bridge * H) : bridge * H := foldl (fun s c => (do_call c s).1) s cs.

(** A property of the bridge and the host that a method keeps, whether it
    succeeds or fails. *)
Definition keeps (P : bridge * H -> Prop) {A} (m : io A) : Prop := forall s, P s -> P (m s).1.

Section keeps.
Context (P : bridge * H -> Prop).

Lemma keeps_ret {A} (x : A) : keeps P (mret x : io A).
Proof. by intros s. Qed.

Lemma keeps_bind {A B} (m : io A) (f : A -> io B) :
  keeps P m -> (forall x, keeps P (f x)) -> keeps P (m ≫= f).
Proof.
  intros Hm Hf s Hs. unfold mbind, io_bind. specialize (Hm s Hs).
  destruct (m s) as [s' [x|e]]; [by apply Hf|done].
Qed.

Lemma keeps_bind_get {B} (f : bridge -> io B) :
  (forall s, P s -> P (f s.1 s).1) -> keeps P (get ≫= f).
Proof. intros Hf s Hs. by apply Hf. Qed.

Lemma keeps_attempt (m : io ()) : keeps P m -> keeps P (attempt m).
Proof. intros Hm s Hs. by apply Hm. Qed.
Lemma keeps_succeeds (m : io ()) : keeps P m -> keeps P (succeeds m).
Proof. intros Hm s Hs. by apply Hm. Qed.
Lemma keeps_ignore {A} (m : io A) : keeps P m -> keeps P (ignore m).
Proof. intros Hm s Hs. by apply Hm. Qed.
Lemma keeps_tolerate texts (m : io ()) : keeps P m -> keeps P (tolerate texts m).
Proof.
  intros Hm s Hs. specialize (Hm s Hs). unfold tolerate.
  destruct (m s) as [s' [x|e]]; [done|]. by destruct (existsb _ texts).
Qed.
Lemma keeps_when c (m : io ()) : (c = true -> keeps P m) -> keeps P (when c m).
Proof. intros Hm. destruct c; [by apply Hm|apply keeps_ret]. Qed.
Lemma keeps_for_each {A} (f : A -> io ()) l : (forall x, x ∈ l -> keeps P (f x)) -> keeps P (for_each f l).
Proof.
  induction l as [|x l IH]; intros Hf; cbn [for_each]; [apply keeps_ret|].
  apply keeps_bind; [apply Hf; by left|]. intros _. apply IH. intros y Hy. apply Hf. by right.
Qed.
Lemma keeps_first_error err (m : io ()) : keeps P m -> keeps P (first_error err m).
Proof. intros Hm s Hs. specialize (Hm s Hs). unfold first_error. by destruct (m s) as [s' [x|e]]. Qed.
Lemma keeps_fail {A} e : keeps P (fail (A:=A) e).
Proof. by intros s. Qed.
End keeps.

End calls.

(** Walks down a method to the steps that touch the bridge or the host. *)
Ltac keep :=
  repeat match goal with
  | |- forall _, _ => intros ?
  | |- keeps _ (let _ := _ in _) => cbv zeta
  | |- keeps _ (_ ≫= _) => apply keeps_bind
  | |- keeps _ (mret _) => apply keeps_ret
  | |- keeps _ (fail _) => apply keeps_fail
  | |- keeps _ (attempt _) => apply keeps_attempt
  | |- keeps _ (succeeds _) => apply keeps_succeeds
  | |- keeps _ (ignore _) => apply keeps_ignore
  | |- keeps _ (tolerate _ _) => apply keeps_tolerate
  | |- keeps _ (when _ _) => apply keeps_when
  | |- keeps _ (for_each _ _) => apply keeps_for_each
  | |- keeps _ (first_error _ _) => apply keeps_first_error
  | |- keeps _ (if ?x then _ else _) => destruct x
  | |- keeps _ (match ?x with _ => _ end) => destruct x
  end.

(** * The graph is well formed *)

Section graph.
Context {H : Type} `{!Host H}.
#[local] Abbreviation io := (Bridge.io (H:=H)).

(** Pairs are stored once, the smaller name first. *)
Definition graph_ok (b : bridge) : Prop := forall p, p ∈ partitions b -> String.le p.1 p.2.

Lemma canonical_pair_le x y : String.le (canonical_pair x y).1 (canonical_pair x y).2.
Proof. unfold canonical_pair. destruct (decide (String.le x y)) as [?|Hn]; [done|]. by destruct (total String.le x y). Qed.

Lemma canonical_pair_cases x y : canonical_pair x y = (x, y) \/ canonical_pair x y = (y, x).
Proof. unfold canonical_pair. destruct (decide _); auto. Qed.

Lemma in_partitions x y b :
  graph_ok b -> (canonical_pair x y ∈ partitions b <-> (x, y) ∈ partitions b \/ (y, x) ∈ partitions b).
Proof.
  intros Hok. split.
  - destruct (canonical_pair_cases x y) as [->| ->]; auto.
  - unfold canonical_pair. intros [Hp|Hp]; pose proof (Hok _ Hp) as Hle; simpl in Hle.
    + by rewrite decide_True.
    + destruct (decide (String.le x y)) as [Hle'|]; [|done]. assert (x = y) as -> by (by apply (anti_symm String.le)). done.
Qed.

Definition ok (s : bridge * H) : Prop := graph_ok s.1.

Lemma keeps_ok_cmd prog argv : keeps ok (run_cmd prog argv).
Proof. intros [b h] Hs. unfold run_cmd. by destruct (exec _ _) as [h' []]. Qed.
Lemma keeps_ok_modify f : (forall b, graph_ok b -> graph_ok (f b)) -> keeps ok (modify f).
Proof. intros Hf s Hs. by apply Hf. Qed.
Lemma keeps_ok_pure {A} (f : bridge * H -> (bridge * H) * result A string) :
  (forall s, (f s).1.1 = s.1) -> keeps ok (f : io A).
Proof. intros Hf s Hs. unfold ok. by rewrite Hf. Qed.

Ltac keep_ok := keep; first [by apply keeps_ok_cmd | by apply keeps_ok_pure | by apply keeps_ok_modify | by intros ? ?; apply keeps_ok_cmd | idtac].

Lemma realize_for_vm_ok vm : keeps ok (realize_for_vm vm).
Proof. unfold realize_for_vm, run_ip, run_tc, install_htb_with_optional_netem, install_netem_root, run_tc; keep_ok. Qed.
Lemma refresh_netem_ok : keeps ok refresh_netem.
Proof. unfold refresh_netem; keep_ok. Qed.
Lemma refresh_bandwidth_ok : keeps ok refresh_bandwidth.
Proof. unfold refresh_bandwidth; keep_ok. apply refresh_netem_ok. Qed.
Lemma refresh_partitions_ok : keeps ok refresh_partitions.
Proof. unfold refresh_partitions; keep_ok. Qed.
Lemma refresh_directional_ok : keeps ok refresh_directional.
Proof. unfold refresh_directional; keep_ok. apply realize_for_vm_ok. Qed.
Lemma refresh_uplink_ok : keeps ok refresh_uplink.
Proof. unfold refresh_uplink, install_uplink; keep_ok. Qed.

Lemma forget_vm_ok vm b : graph_ok b -> graph_ok (forget_vm vm b).
Proof. intros Hok p Hp. apply Hok. simpl in Hp. by apply elem_of_filter in Hp as [_ ?]. Qed.

Lemma delete_taps_ok name vms err : keeps ok (delete_taps name vms err).
Proof. revert err. induction vms as [|vm vms IH]; intros err; cbn [delete_taps]; unfold run_ip; keep_ok. apply IH. Qed.

Lemma unrealize_ok : keeps ok unrealize.
Proof. unfold unrealize, run_ip; keep_ok. apply delete_taps_ok. Qed.

Lemma do_call_ok c : keeps ok (do_call c).
Proof.
  destruct c; cbn [do_call];
    unfold attach, detach, unplug, replug, partition, unpartition, partition_directional, unpartition_directional,
      partition_all, restore_all, isolate, unisolate, reset, route, add_latency, drop_rate, bandwidth_limit,
      add_directional_latency, directional_drop_rate, set_directional_bandwidth, enable_uplink, disable_uplink,
      register_capture, drop_capture, recut, run_ip; keep_ok;
    auto using realize_for_vm_ok, refresh_netem_ok, refresh_bandwidth_ok, refresh_partitions_ok, refresh_directional_ok,
      refresh_uplink_ok, unrealize_ok.
  - apply keeps_ok_modify. auto using forget_vm_ok.
  - apply keeps_ok_modify. intros b Hok p [->%elem_of_singleton|Hp]%elem_of_union; [apply canonical_pair_le|by apply Hok].
  - apply keeps_ok_modify. intros b Hok p [Hp _]%elem_of_difference. by apply Hok.
Qed.

Lemma do_calls_ok cs s : ok s -> ok (do_calls cs s).
Proof. revert s. induction cs as [|c cs IH]; intros s Hs; [done|]. apply IH, do_call_ok, Hs. Qed.
End graph.

(** * Rules *)

(** nft: which tables the bridge family has, and the rules of each one's
    [forward] chain in order. Where it works, that is where it is installed and
    this process may use it, which stays so, a chain that is there is left alone
    and a rule goes to the end; where it does not, whatever its commands do or
    leave undone. No other command touches the tables. *)
Class Nft (H : Type) `{!Host H} := {
  tables : H -> gmap string (list string);
  works : H -> Prop;
  nft_other op h : program op <> "nft" \/ args op !! 2%nat <> Some "bridge" -> tables (exec op h).1 = tables h;
  nft_works op h : works h -> works (exec op h).1;
  nft_delete t h : works h -> tables (exec (NetOp "nft" ["delete"; "table"; "bridge"; t]) h).1 = delete t (tables h);
  nft_add_table t h : works h ->
    (exec (NetOp "nft" ["add"; "table"; "bridge"; t]) h).2 = Success /\
    tables (exec (NetOp "nft" ["add"; "table"; "bridge"; t]) h).1 = tables h ∪ {[t := []]};
  nft_add_chain t h hook : works h -> is_Some (tables h !! t) ->
    (exec (NetOp "nft" ["add"; "chain"; "bridge"; t; "forward"; hook]) h).2 = Success /\
    tables (exec (NetOp "nft" ["add"; "chain"; "bridge"; t; "forward"; hook]) h).1 = tables h;
  nft_add_rule t h rs rule : works h -> tables h !! t = Some rs ->
    (exec (NetOp "nft" ["add"; "rule"; "bridge"; t; "forward"; rule]) h).2 = Success /\
    tables (exec (NetOp "nft" ["add"; "rule"; "bridge"; t; "forward"; rule]) h).1 = <[t := rs ++ [rule]]> (tables h);
}.

Section rules.
Context {H : Type} `{!Host H} `{!Nft H}.
#[local] Abbreviation io := (Bridge.io (H:=H)).

(** The rules the host applies to what crosses a bridge. *)
Definition rules_of (name : string) (h : H) : list string := default [] (tables h !! table_for name).

(** A frame that comes in from one machine's TAP and would leave by another's
    meets a rule that drops it. *)
Definition dropped (v w name : string) (h : H) : Prop :=
  drop_rule (tap_name_for_vm_on_bridge v name, tap_name_for_vm_on_bridge w name) ∈ rules_of name h.

Definition in_step (s : bridge * H) : Prop :=
  realized s.1 = true -> rules_of (br_name s.1) s.2 = drop_rule <$> cut_pairs s.1.

Lemma run_cmd_success prog argv (s : bridge * H) :
  (exec (NetOp prog argv) s.2).2 = Success ->
  run_cmd prog argv s = ((s.1, (exec (NetOp prog argv) s.2).1), Ok ()).
Proof. unfold run_cmd. destruct (exec _ _) as [h r]. simpl. by intros ->. Qed.

Lemma io_bind_ok {A B} (m : io A) (f : A -> io B) s s' x : m s = (s', Ok x) -> (m ≫= f) s = f x s'.
Proof. unfold mbind, io_bind. by intros ->. Qed.

Lemma bind_attempt {B} (m : io ()) (f : () -> io B) s : (attempt m ≫= f) s = f () (m s).1.
Proof. reflexivity. Qed.
Lemma bind_modify {B} (g : bridge -> bridge) (f : () -> io B) s : (modify g ≫= f) s = f () (g s.1, s.2).
Proof. reflexivity. Qed.

Lemma attempt_run prog argv (s : bridge * H) :
  attempt (run_cmd prog argv) s = ((s.1, (exec (NetOp prog argv) s.2).1), Ok ()).
Proof. unfold attempt, run_cmd. by destruct (exec _ _) as [h []]. Qed.

Lemma add_rules t rs (l : list (string * string)) b h :
  works h -> tables h !! t = Some rs ->
  exists h', for_each (fun p => run_cmd "nft" ["add"; "rule"; "bridge"; t; "forward"; drop_rule p]) l (b, h) = ((b, h'), Ok ()) /\
    tables h' !! t = Some (rs ++ (drop_rule <$> l)).
Proof.
  revert rs h. induction l as [|p l IH]; intros rs h Hw Ht; cbn [for_each].
  { exists h. by rewrite app_nil_r. }
  destruct (nft_add_rule t h rs (drop_rule p) Hw Ht) as [Hr Htab].
  erewrite io_bind_ok by (apply (run_cmd_success _ _ (b, h)); exact Hr). simpl.
  destruct (IH (rs ++ [drop_rule p]) (exec (NetOp "nft" ["add"; "rule"; "bridge"; t; "forward"; drop_rule p]) h).1) as (h' & -> & Hh').
  { by apply nft_works. }
  { rewrite Htab. by apply lookup_insert_eq. }
  exists h'. split; [done|]. by rewrite Hh', <- app_assoc.
Qed.

Lemma nothing_to_cut b :
  negb (fully_partitioned b) && bool_decide (partitions b = ∅) &&
  bool_decide (directional_partitions b = ∅) && bool_decide (isolated b = ∅) = true -> cut_pairs b = [].
Proof.
  rewrite !andb_true_iff, negb_true_iff, !bool_decide_eq_true. intros (((Hf & Hp) & Hd) & Hi).
  unfold cut_pairs. by rewrite Hf, Hp, Hd, Hi.
Qed.

(** Once the bridge is on the host, writing the rules again where nft works
    succeeds and leaves exactly the rules of the graph. *)
Lemma refresh_partitions_run b h :
  works h -> exists h', refresh_partitions (b, h) = ((b, h'), Ok ()) /\ in_step (b, h').
Proof.
  intros Hw. unfold refresh_partitions. erewrite io_bind_ok by done. simpl.
  destruct (realized b) eqn:Hreal; simpl; [|exists h; split; [done|]; by unfold in_step; simpl; rewrite Hreal].
  erewrite io_bind_ok by apply attempt_run. simpl.
  set (t := table_for (br_name b)). set (h1 := (exec _ h).1).
  assert (Hw1 : works h1) by by apply nft_works.
  assert (Hdel : tables h1 = delete t (tables h)) by by apply nft_delete.
  destruct (negb _ && _ && _ && _) eqn:Hn.
  { exists h1. split; [done|]. intros _. unfold rules_of; simpl. rewrite (nothing_to_cut _ Hn), Hdel.
    by rewrite lookup_delete_eq. }
  destruct (nft_add_table t h1 Hw1) as [Hr2 Ht2].
  erewrite io_bind_ok by (apply (run_cmd_success _ _ (b, h1)); exact Hr2). simpl.
  set (h2 := (exec _ h1).1) in *. assert (Hw2 : works h2) by by apply nft_works.
  assert (Hl2 : tables h2 !! t = Some []).
  { rewrite Ht2, Hdel, lookup_union_r by by rewrite lookup_delete_eq. by apply lookup_singleton_eq. }
  destruct (nft_add_chain t h2 "{ type filter hook forward priority 0 ; }") as [Hr3 Ht3]; [done|by rewrite Hl2|].
  erewrite io_bind_ok by (apply (run_cmd_success _ _ (b, h2)); exact Hr3). simpl.
  destruct (add_rules t [] (cut_pairs b) b (exec (NetOp "nft" ["add"; "chain"; "bridge"; t; "forward"; "{ type filter hook forward priority 0 ; }"]) h2).1)
    as (h4 & -> & Hh4).
  { by apply nft_works. }
  { by rewrite Ht3. }
  exists h4. split; [done|]. intros _. unfold rules_of; simpl. fold t. by rewrite Hh4.
Qed.

(** * Rules and the graph *)

Lemma quote_split a b x y :
  Forall (fun c => tap_char c = true) (String.list_ascii_of_string a) ->
  Forall (fun c => tap_char c = true) (String.list_ascii_of_string b) ->
  a +:+ quote +:+ x = b +:+ quote +:+ y -> a = b /\ x = y.
Proof.
  revert b. induction a as [|c a IH]; intros [|d b] Ha Hb Heq.
  - by injection Heq.
  - injection Heq as <- _. by inversion Hb.
  - injection Heq as -> _. by inversion Ha.
  - inversion Ha; inversion Hb; subst. injection Heq as -> Heq. destruct (IH b) as [-> ->]; auto.
Qed.

Definition tap_chars (s : string) : Prop := Forall (fun c => tap_char c = true) (String.list_ascii_of_string s).

Lemma drop_rule_inj i o i' o' :
  tap_chars i -> tap_chars o -> tap_chars i' -> tap_chars o' ->
  drop_rule (i, o) = drop_rule (i', o') -> (i, o) = (i', o').
Proof.
  intros Hi Ho Hi' Ho' Heq. unfold drop_rule in Heq. cbn [fst snd] in Heq.
  apply (inj (String.append "iifname ")), (inj (String.append quote)) in Heq.
  apply quote_split in Heq as [-> Heq]; [|done..].
  apply (inj (String.append " oifname ")), (inj (String.append quote)) in Heq.
  by apply quote_split in Heq as [-> _].
Qed.

(** The partition a caller asked for: the whole bridge, the pair, the
    direction, or one of the two alone. *)
Definition cut (b : bridge) (v w : string) : Prop :=
  fully_partitioned b = true \/ canonical_pair v w ∈ partitions b \/ (v, w) ∈ directional_partitions b \/
  v ∈ isolated b \/ w ∈ isolated b.

(** The machines a bridge has heard of. *)
Definition known (b : bridge) : gset string :=
  realized_taps b ∪ isolated b ∪
  set_map fst (partitions b) ∪ set_map snd (partitions b) ∪
  set_map fst (directional_partitions b) ∪ set_map snd (directional_partitions b).

(** No two of them hash to one TAP name. *)
Definition no_tap_shared (b : bridge) : Prop :=
  NoDup ((fun vm => tap_name_for_vm_on_bridge vm (br_name b)) <$> elements (known b)).

Lemma tap_inj b v w :
  no_tap_shared b -> v ∈ known b -> w ∈ known b ->
  tap_name_for_vm_on_bridge v (br_name b) = tap_name_for_vm_on_bridge w (br_name b) -> v = w.
Proof.
  intros Hnd Hv%elem_of_elements Hw%elem_of_elements Heq.
  apply list_elem_of_lookup in Hv as [i Hi], Hw as [j Hj].
  assert (i = j); [|by simplify_eq]. eapply (NoDup_lookup _ _ _ _ Hnd); by rewrite list_lookup_fmap, ?Hi, ?Hj; simpl; rewrite ?Heq.
Qed.

Lemma known_pair b p : p ∈ partitions b -> p.1 ∈ known b /\ p.2 ∈ known b.
Proof. intros Hp. unfold known. split; rewrite !elem_of_union, !elem_of_map; eauto 10. Qed.
Lemma known_directional b p : p ∈ directional_partitions b -> p.1 ∈ known b /\ p.2 ∈ known b.
Proof. intros Hp. unfold known. split; rewrite !elem_of_union, !elem_of_map; eauto 10. Qed.
Lemma known_isolated b v : v ∈ isolated b -> v ∈ known b.
Proof. intros Hv. unfold known. rewrite !elem_of_union. tauto. Qed.
Lemma known_tap b v : v ∈ realized_taps b -> v ∈ known b.
Proof. intros Hv. unfold known. rewrite !elem_of_union. tauto. Qed.

Lemma elem_of_taps b x :
  x ∈ (fun vm => tap_name_for_vm_on_bridge vm (br_name b)) <$> in_order (realized_taps b) <->
  exists v, v ∈ realized_taps b /\ x = tap_name_for_vm_on_bridge v (br_name b).
Proof.
  rewrite list_elem_of_fmap. split; intros (v & H1 & H2); exists v.
  - by rewrite elem_of_in_order in H2.
  - by rewrite elem_of_in_order.
Qed.

(** The pairs as the loops find them. *)
Lemma elem_of_cut_pairs b x y :
  let tap := fun vm => tap_name_for_vm_on_bridge vm (br_name b) in
  (x, y) ∈ cut_pairs b <->
  if fully_partitioned b then
    exists v w, v ∈ realized_taps b /\ w ∈ realized_taps b /\ x = tap v /\ y = tap w /\ x <> y
  else
    (exists p, p ∈ partitions b /\ (x = tap p.1 /\ y = tap p.2 \/ x = tap p.2 /\ y = tap p.1)) \/
    (exists p, p ∈ directional_partitions b /\ x = tap p.1 /\ y = tap p.2) \/
    (exists v w, v ∈ isolated b /\ w ∈ realized_taps b /\ tap w <> tap v /\
       (x = tap v /\ y = tap w \/ x = tap w /\ y = tap v)).
Proof.
  intros tap. unfold cut_pairs. cbv zeta. destruct (fully_partitioned b).
  - rewrite list_elem_of_bind. split.
    + intros (x' & Hin & (v & Hv & ->)%elem_of_taps). apply list_elem_of_bind in Hin as (y' & Hin & (w & Hw & ->)%elem_of_taps).
      destruct (decide _) as [|Hne]; [by apply not_elem_of_nil in Hin|].
      apply list_elem_of_singleton in Hin as [= -> ->]. eauto 10.
    + intros (v & w & Hv & Hw & -> & -> & Hne). exists (tap v). split; [|apply elem_of_taps; eauto].
      apply list_elem_of_bind. exists (tap w). split; [|apply elem_of_taps; eauto].
      rewrite decide_False by done. by left.
  - rewrite !elem_of_app, !list_elem_of_bind. f_equiv; [|f_equiv].
    + f_equiv; intros p. rewrite elem_of_pairs_in_order, !elem_of_cons, elem_of_nil. unfold tap. split.
      * intros [[[= -> ->]|[[= -> ->]|[]]] Hp]; auto.
      * intros [Hp [[-> ->]|[-> ->]]]; auto.
    + f_equiv; intros p. rewrite elem_of_pairs_in_order, list_elem_of_singleton. unfold tap. split.
      * intros [[= -> ->] Hp]; auto.
      * intros [Hp [-> ->]]; auto.
    + split.
      * intros (v & Hin & Hv%elem_of_in_order). apply list_elem_of_bind in Hin as (other & Hin & (w & Hw & ->)%elem_of_taps).
        destruct (decide _) as [|Hne]; [by apply not_elem_of_nil in Hin|].
        rewrite !elem_of_cons, elem_of_nil in Hin. exists v, w. unfold tap. split_and!; auto.
        destruct Hin as [[= -> ->]|[[= -> ->]|[]]]; auto.
      * intros (v & w & Hv & Hw & Hne & Hxy). exists v. rewrite elem_of_in_order. split; [|done].
        apply list_elem_of_bind. exists (tap w). split; [|apply elem_of_taps; eauto].
        rewrite decide_False by done. rewrite !elem_of_cons. destruct Hxy as [[-> ->]|[-> ->]]; auto.
Qed.

Lemma cut_pairs_exact b v w :
  graph_ok b -> no_tap_shared b -> v ∈ realized_taps b -> w ∈ realized_taps b -> v <> w ->
  let tap := fun vm => tap_name_for_vm_on_bridge vm (br_name b) in
  (tap v, tap w) ∈ cut_pairs b <-> cut b v w.
Proof.
  intros Hok Hinj Hv Hw Hne tap. pose proof (tap_inj b) as Htap. fold tap in Htap.
  pose proof (known_tap _ _ Hv) as Kv. pose proof (known_tap _ _ Hw) as Kw.
  rewrite elem_of_cut_pairs. unfold cut. destruct (fully_partitioned b) eqn:Hf.
  { split; [by left|]. intros _. exists v, w. split_and!; auto; intros Heq; by apply Hne, Htap. }
  rewrite (in_partitions v w b Hok). split.
  - intros [(p & Hp & Hxy)|[(p & Hp & Hx & Hy)|(v' & w' & Hv' & Hw' & _ & Hxy)]]; right.
    + left. destruct (known_pair _ _ Hp). destruct p as [p1 p2], Hxy as [[Hx Hy]|[Hx Hy]]; simpl in *;
        apply Htap in Hx, Hy; auto; subst; auto.
    + right; left. destruct (known_directional _ _ Hp). destruct p as [p1 p2]. simpl in *.
      apply Htap in Hx, Hy; auto; subst; auto.
    + right; right. pose proof (known_isolated _ _ Hv'). pose proof (known_tap _ _ Hw').
      destruct Hxy as [[Hx Hy]|[Hx Hy]]; apply Htap in Hx, Hy; auto; subst; auto.
  - intros [?|[[Hp|Hp]|[Hp|[Hi|Hi]]]]; [done|left|left|right; left|right; right|right; right].
    + exists (v, w). auto.
    + exists (w, v). auto.
    + exists (v, w). auto.
    + exists v, w. split_and!; auto; intros Heq; by apply Hne, Htap.
    + exists w, v. split_and!; auto; intros Heq; by apply Hne, Htap.
Qed.

(** A bridge whose rules are those of its graph drops exactly what the graph cuts. *)
Lemma in_step_exact b h v w :
  in_step (b, h) -> graph_ok b -> realized b = true -> no_tap_shared b ->
  v ∈ realized_taps b -> w ∈ realized_taps b -> v <> w ->
  (dropped v w (br_name b) h <-> cut b v w).
Proof.
  intros Hstep Hok Hreal Hinj Hv Hw Hne. unfold dropped. unfold in_step in Hstep. simpl in Hstep. rewrite Hstep by done.
  rewrite <- (cut_pairs_exact b v w) by done. rewrite list_elem_of_fmap. split; [|by eauto].
  intros ([x y] & Heq & Hin). assert (Hc : tap_chars x /\ tap_chars y).
  { apply elem_of_cut_pairs in Hin. destruct (fully_partitioned b).
    - destruct Hin as (? & ? & _ & _ & -> & -> & _). split; apply tap_name_chars.
    - destruct Hin as [(? & _ & [[-> ->]|[-> ->]])|[(? & _ & -> & ->)|(? & ? & _ & _ & _ & [[-> ->]|[-> ->]])]];
        split; apply tap_name_chars. }
  destruct Hc. apply drop_rule_inj in Heq; [|by apply tap_name_chars..|done|done]. by simplify_eq.
Qed.

(** * Every call that writes the rules *)

Lemma refresh_in_step s : works s.2 -> in_step (refresh_partitions s).1.
Proof. destruct s as [b h]. intros Hw. destruct (refresh_partitions_run b h Hw) as (h' & -> & Hs). exact Hs. Qed.

Lemma attempt_refresh_in_step s : works s.2 -> in_step (attempt refresh_partitions s).1.
Proof. exact (refresh_in_step s). Qed.

Lemma detach_in_step vm s : works s.2 -> in_step (detach vm s).1.
Proof.
  intros Hw. unfold detach. erewrite io_bind_ok by done. erewrite io_bind_ok by done.
  destruct (_ && _); cbn [when]; [|erewrite io_bind_ok by done; by apply attempt_refresh_in_step].
  erewrite io_bind_ok by apply attempt_run. by apply attempt_refresh_in_step, nft_works.
Qed.

(** What the rules depend on, apart from the host's tables. *)
Definition cut_view (b : bridge) :=
  (br_name b, fully_partitioned b, partitions b, directional_partitions b, isolated b, realized b, realized_taps b).

Definition frozen (b0 : bridge) (t : gmap string (list string)) (s : bridge * H) : Prop :=
  cut_view s.1 = cut_view b0 /\ tables s.2 = t.

Lemma frozen_in_step b0 h0 s : frozen b0 (tables h0) s -> in_step (b0, h0) -> in_step s.
Proof.
  intros [Hv Ht] Hs Hr. unfold cut_view in Hv. injection Hv as H1 H2 H3 H4 H5 H6 H7.
  unfold in_step, rules_of, cut_pairs in *. simpl in *.
  rewrite Ht, H1, H2, H3, H4, H5, H7. apply Hs. by rewrite <- H6.
Qed.

Lemma keeps_frozen_cmd b0 t prog argv : prog <> "nft" -> keeps (frozen b0 t) (run_cmd prog argv).
Proof.
  intros Hp [b h] [Hv Ht]. pose proof (nft_other (NetOp prog argv) h (or_introl Hp)) as Ho.
  unfold run_cmd. simpl. destruct (exec _ h) as [h' []]; (split; [done|]); simpl in *; congruence.
Qed.

Ltac keep_frozen :=
  keep; first [by apply keeps_frozen_cmd | by intros ? ?; apply keeps_frozen_cmd | by intros ? | idtac].

Lemma realize_for_vm_frozen b0 t vm :
  realized b0 = true -> vm ∈ realized_taps b0 -> keeps (frozen b0 t) (realize_for_vm vm).
Proof.
  intros Hr Hvm. unfold realize_for_vm, install_htb_with_optional_netem, install_netem_root, run_ip, run_tc; keep_frozen.
  intros [b h] [Hv Ht]. split; [|done]. unfold cut_view in *. simpl in *.
  injection Hv as H1 H2 H3 H4 H5 H6 H7. replace ({[vm]} ∪ realized_taps b) with (realized_taps b) by set_solver.
  congruence.
Qed.

Lemma refresh_netem_frozen b0 t : keeps (frozen b0 t) refresh_netem.
Proof. unfold refresh_netem; keep_frozen. Qed.
Lemma refresh_bandwidth_frozen b0 t : keeps (frozen b0 t) refresh_bandwidth.
Proof. unfold refresh_bandwidth; keep_frozen. apply refresh_netem_frozen. Qed.
Lemma refresh_directional_frozen b0 t : keeps (frozen b0 t) refresh_directional.
Proof.
  unfold refresh_directional. apply keeps_bind_get. intros s Hs. destruct (realized s.1) eqn:Hr; [|done]. cbn [negb].
  apply keeps_for_each; [|done]. intros vm Hvm%elem_of_in_order. apply keeps_bind; [|intros ?; apply keeps_ret].
  pose proof Hs as [Hv _]. unfold cut_view in Hv. injection Hv as _ _ _ _ _ H6 H7.
  apply realize_for_vm_frozen; [congruence|by rewrite <- H7].
Qed.

Lemma reset_tail_frozen b0 t :
  keeps (frozen b0 t) (attempt refresh_netem;; attempt refresh_bandwidth;; attempt refresh_directional).
Proof. keep; [apply refresh_netem_frozen|apply refresh_bandwidth_frozen|apply refresh_directional_frozen]. Qed.

Lemma frozen_here s : frozen s.1 (tables s.2) s.
Proof. by split. Qed.

Lemma reset_in_step s : works s.2 -> in_step (reset s).1.
Proof.
  intros Hw. unfold reset. rewrite bind_modify, bind_attempt.
  pose proof (refresh_in_step (clear_impairments s.1, s.2) Hw) as Hs.
  set (s1 := (refresh_partitions (clear_impairments s.1, s.2)).1) in *. clearbody s1.
  eapply (frozen_in_step s1.1 s1.2); [apply reset_tail_frozen, frozen_here|]. by destruct s1.
Qed.

Lemma do_call_in_step c s : cuts_again c = true -> works s.2 -> in_step (do_call c s).1.
Proof.
  destruct c; try done; intros _ Hw; cbn [do_call];
    first [by apply detach_in_step | by apply reset_in_step | by apply (attempt_refresh_in_step (_, _))].
Qed.

End rules.

(** * A host *)

(** The tables of the bridge family, the root qdisc of each interface by its
    text, how many commands were run, and how many of nft's are refused first. *)
Record kernel := Kernel { k_tables : gmap string (list string); k_qdiscs : gmap string (list string); k_ran : nat; k_refused : nat }.

Definition nft_run (argv : list string) (k : kernel) : kernel * cmd_output :=
  let '(Kernel t q n r) := k in
  let n := S n in
  match r with S r => (Kernel t q n r, Failure "Operation not permitted") | O =>
  match argv with
  | [a; b; c; x] =>
      if decide ([a; b; c] = ["delete"; "table"; "bridge"]) then
        (Kernel (delete x t) q n r, if t !! x is Some _ then Success else Failure "No such file or directory")
      else if decide ([a; b; c] = ["add"; "table"; "bridge"]) then (Kernel (t ∪ {[x := []]}) q n r, Success)
      else (Kernel t q n r, Failure "syntax error")
  | [a; b; c; x; d; text] =>
      if decide ([a; b; c; d] = ["add"; "rule"; "bridge"; "forward"]) then
        match t !! x with
        | Some rs => (Kernel (<[x := rs ++ [text]]> t) q n r, Success)
        | None => (Kernel t q n r, Failure "No such file or directory")
        end
      else if decide ([a; b; c; d] = ["add"; "chain"; "bridge"; "forward"]) then
        (Kernel t q n r, if t !! x is Some _ then Success else Failure "No such file or directory")
      else (Kernel t q n r, Failure "syntax error")
  | _ => (Kernel t q n r, Failure "syntax error")
  end end.

(** [tc] on root qdiscs; a second root, or a change of none, is refused. *)
Definition tc_run (argv : list string) (k : kernel) : kernel * cmd_output :=
  let '(Kernel t q n r) := k in
  let n := S n in
  match argv with
  | a :: verb :: c :: dev :: root :: rest =>
      if decide ([a; c; root] = ["qdisc"; "dev"; "root"]) then
        match q !! dev with
        | Some _ =>
            if decide (verb = "add") then (Kernel t q n r, Failure "Error: Exclusivity flag on, cannot modify.")
            else if decide (verb = "del") then (Kernel t (delete dev q) n r, Success)
            else (Kernel t (<[dev := rest]> q) n r, Success)
        | None =>
            if decide (verb = "del" \/ verb = "change") then (Kernel t q n r, Failure "Error: Cannot find qdisc.")
            else (Kernel t (<[dev := rest]> q) n r, Success)
        end
      else (Kernel t q n r, Success)
  | _ => (Kernel t q n r, Failure "syntax error")
  end.

(** A link that goes takes its qdiscs along. *)
Definition ip_run (argv : list string) (k : kernel) : kernel * cmd_output :=
  let '(Kernel t q n r) := k in
  match argv with
  | [a; b; c; dev] => (Kernel t (if decide ([a; b; c] = ["link"; "del"; "dev"]) then delete dev q else q) (S n) r, Success)
  | _ => (Kernel t q (S n) r, Success)
  end.

#[export] Instance kernel_host : Host kernel := {|
  exec op k :=
    if decide (program op = "nft") then nft_run (args op) k
    else if decide (program op = "tc") then tc_run (args op) k
    else if decide (program op = "ip") then ip_run (args op) k
    else (k, NotStarted "No such file or directory");
  write_file _ _ k := k;
  getuid _ := "1000";
  default_route _ := Some ["default"; "via"; "10.0.0.1"; "dev"; "eth0"];
|}.

Lemma tc_run_same argv k : k_tables (tc_run argv k).1 = k_tables k /\ k_refused (tc_run argv k).1 = k_refused k.
Proof. destruct k as [t q n r]. unfold tc_run. by repeat case_match. Qed.
Lemma ip_run_same argv k : k_tables (ip_run argv k).1 = k_tables k /\ k_refused (ip_run argv k).1 = k_refused k.
Proof. destruct k as [t q n r]. unfold ip_run. by repeat case_match. Qed.

Lemma nft_run_other argv k : argv !! 2%nat <> Some "bridge" -> k_tables (nft_run argv k).1 = k_tables k.
Proof.
  destruct k as [t q n [|r]]; [|done]. intros Hne. unfold nft_run.
  destruct argv as [|a [|b [|c [|x [|d [|text [|z argv]]]]]]]; try done; simpl in Hne;
    repeat (destruct (decide _) as [Heq|]; [by injection Heq; intros; subst|]); done.
Qed.
Lemma nft_run_works argv k : k_refused k = 0%nat -> k_refused (nft_run argv k).1 = 0%nat.
Proof. destruct k as [t q n r]. cbn. intros ->. unfold nft_run. by repeat case_match. Qed.

#[export] Instance kernel_nft : Nft kernel.
Proof.
  refine {| tables := k_tables; works := fun k => k_refused k = 0%nat |}.
  - intros [prog argv] k [Hp|Ha]; unfold exec; simpl in *.
    + rewrite decide_False by done.
      repeat destruct (decide _); try done; by (apply tc_run_same || apply ip_run_same).
    + repeat destruct (decide _); auto using nft_run_other; by (apply tc_run_same || apply ip_run_same).
  - intros [prog argv] k Hk; unfold exec; simpl in *. repeat destruct (decide _); auto using nft_run_works.
    + by rewrite (proj2 (tc_run_same argv k)).
    + by rewrite (proj2 (ip_run_same argv k)).
  - by intros t [tabs q n r] [= ->].
  - by intros t [tabs q n r] [= ->].
  - intros t [tabs q n r] hook [= ->] [rs Hrs]. simpl in *. by rewrite Hrs.
  - intros t [tabs q n r] rs rule [= ->] Hrs. simpl in *. by rewrite Hrs.
Defined.

Definition idle : kernel := Kernel ∅ ∅ 0 0.

Definition on_lan (cs : list bridge_call) : bridge * kernel := do_calls cs (bridge_new "lan", idle).

Definition up (vm : string) : list bridge_call := [CAttach vm; CRealize vm].

Definition demo_cuts : list bridge_call := up "a" ++ up "b" ++ up "c" ++ [CPartition "b" "a"; CIsolate "c"; CUnisolate "c"].

(** The commands of the first cut are refused. *)
Definition first_refused : kernel := Kernel ∅ ∅ 0 3.


(** Where nft does not work the graph is changed all the same, nothing is said,
    and nothing is cut. *)
Example refused_cut_reported :
  let s := do_calls (up "a" ++ up "b" ++ [CPartition "a" "b"]) (bridge_new "lan", Kernel ∅ ∅ 0 100) in
  is_partitioned "a" "b" s.1 = true /\ rules_of "lan" s.2 = [] /\
  (do_call (CPartition "a" "b") (do_calls (up "a" ++ up "b") (bridge_new "lan", Kernel ∅ ∅ 0 100))).2 = Ok ().
Proof. by vm_compute. Qed.

(** What the rules are there. *)
Example demo_rules :
  let s := on_lan (demo_cuts ++ [CPartitionDir "c" "a"]) in
  length (rules_of "lan" s.2) = 3%nat /\
  bool_decide (drop_rule (tap_name_for_vm_on_bridge "b" "lan", tap_name_for_vm_on_bridge "a" "lan") ∈ rules_of "lan" s.2) = true /\
  bool_decide (drop_rule (tap_name_for_vm_on_bridge "a" "lan", tap_name_for_vm_on_bridge "c" "lan") ∈ rules_of "lan" s.2) = false.
Proof. by vm_compute. Qed.

(** * Where the host and the graph part *)

(** A partition set before the machines boot is not put on the host when they do. *)
Example boot_installs_no_rules :
  let s := on_lan ([CAttach "a"; CAttach "b"; CPartition "a" "b"] ++ up "a" ++ up "b") in
  realized_taps s.1 = {["a"; "b"]} /\ is_partitioned "a" "b" s.1 = true /\ rules_of "lan" s.2 = [].
Proof. by vm_compute. Qed.

(** A machine that boots after [partition_all] is not cut off. *)
Example late_machine_not_cut :
  let s := on_lan (up "a" ++ up "b" ++ [CPartitionAll] ++ up "c") in
  is_partitioned "a" "c" s.1 = true /\
  bool_decide (drop_rule (tap_name_for_vm_on_bridge "a" "lan", tap_name_for_vm_on_bridge "c" "lan") ∈ rules_of "lan" s.2) = false.
Proof. by vm_compute. Qed.

(** [refresh_netem] never records the qdisc it adds: a latency taken back
    later stays on the host ... *)
Example latency_outlives_its_removal :
  let s := on_lan (up "a" ++ [CLatency 50; CLatency 0]) in
  latency_ms s.1 = 0 /\ k_qdiscs s.2 !! "lan" = Some ["netem"; "delay"; "50ms"].
Proof. by vm_compute. Qed.

(** ... and the next machine to boot adds a second root qdisc and fails. *)
Example boot_after_latency_fails :
  let s := on_lan (up "a" ++ [CLatency 50; CAttach "b"]) in
  (realize_for_vm "b" s).2 = Err "tc qdisc add dev lan root netem delay 50ms: Error: Exclusivity flag on, cannot modify.".
Proof. by vm_compute. Qed.

(** [detach] deletes a machine's TAP and keeps the record of its qdisc: the
    same impairment after the machine came back is not put on the new TAP. *)
Example impairment_lost_after_detach :
  let tap := tap_name_for_vm_on_bridge "a" "lan" in
  let before := on_lan (up "a" ++ [CLatencyDir "a" "b" 10]) in
  let after := do_calls ([CDetach "a"; CAttach "a"; CLatencyDir "a" "b" 10; CRealize "a"]) before in
  k_qdiscs before.2 !! tap = Some ["netem"; "delay"; "10ms"] /\
  collapsed_directional_for "a" after.1 = Some (10, 0, 0) /\ k_qdiscs after.2 !! tap = None.
Proof. by vm_compute. Qed.

(** [restore_all] lifts [partition_all] only; a directional partition is not
    reported. *)
Example restore_all_keeps_pairs :
  let s := on_lan (up "a" ++ up "b" ++ [CPartition "a" "b"; CPartitionAll; CRestoreAll]) in
  is_partitioned "a" "b" s.1 = true /\ length (rules_of "lan" s.2) = 2%nat.
Proof. by vm_compute. Qed.
Example directional_not_reported :
  let s := on_lan (up "a" ++ up "b" ++ [CPartitionDir "a" "b"]) in
  is_partitioned "a" "b" s.1 = false /\ length (rules_of "lan" s.2) = 1%nat.
Proof. by vm_compute. Qed.

(** Two machines may hash to one TAP. *)
Example taps_can_collide : tap_name_for_vm_on_bridge "node60399" "lan" = tap_name_for_vm_on_bridge "node129982" "lan".
Proof. by vm_compute. Qed.
