(* ===== verification/BridgePlan.v ===== *)
(** The plan of a bridge against its realisation: [bridge_realize.rs] says the
    two must emit the same commands. *)
From stdpp Require Import pretty sorting.
From S2P Require Import Prelude Names Bridge.

Open Scope string_scope.
Open Scope list_scope.
Open Scope Z_scope.

(** A host that runs every command and keeps them. *)
Record transcript := Transcript { t_uid : string; t_ran : list net_op }.

#[export] Instance transcript_host : Host transcript := {|
  exec op t := (Transcript (t_uid t) (t_ran t ++ [op]), Success);
  write_file _ _ t := t;
  getuid := t_uid;
  default_route _ := None;
|}.

(** The realisation of every member, in order. *)
Definition realize_members : Bridge.io (H:=transcript) () :=
  b ← get; for_each (fun vm => realize_for_vm vm;; mret ()) (members b).

(** The realisation hands a TAP to the process's user; the plan does not. *)
Definition unowned (op : net_op) : net_op :=
  if decide (program op = "ip" /\ head (args op) = Some "tuntap") then NetOp (program op) (take 6 (args op)) else op.

(** * Running commands on a transcript *)

Definition says {A} (m : Bridge.io (H:=transcript) A) (b : bridge) (uid : string) (out : list net_op) (b' : bridge) (x : A) : Prop :=
  forall ran, exists ops, m (b, Transcript uid ran) = ((b', Transcript uid (ran ++ ops)), Ok x) /\ unowned <$> ops = out.

Lemma says_ret {A} (x : A) b uid : says (mret x) b uid [] b x.
Proof. intros ran. exists []. by rewrite app_nil_r. Qed.

Lemma says_bind {A B} (m : Bridge.io A) (f : A -> Bridge.io B) b uid o1 o2 b1 b2 x y :
  says m b uid o1 b1 x -> says (f x) b1 uid o2 b2 y -> says (m ≫= f) b uid (o1 ++ o2) b2 y.
Proof.
  intros Hm Hf ran. destruct (Hm ran) as (ops1 & E1 & <-). destruct (Hf (ran ++ ops1)) as (ops2 & E2 & <-).
  exists (ops1 ++ ops2). unfold mbind, io_bind. rewrite E1, E2, <- app_assoc, fmap_app. done.
Qed.

Lemma says_get {B} (f : bridge -> Bridge.io B) b uid o b' y : says (f b) b uid o b' y -> says (get ≫= f) b uid o b' y.
Proof. intros Hf ran. apply Hf. Qed.

Lemma says_modify f b uid : says (modify f) b uid [] (f b) ().
Proof. intros ran. exists []. by rewrite app_nil_r. Qed.

Lemma says_cmd prog argv b uid : says (run_cmd prog argv) b uid [unowned (NetOp prog argv)] b ().
Proof. intros ran. exists [NetOp prog argv]. done. Qed.

Lemma says_tolerate texts m b uid o b' : says m b uid o b' () -> says (tolerate texts m) b uid o b' ().
Proof. intros Hm ran. destruct (Hm ran) as (ops & E & Ho). exists ops. unfold tolerate. by rewrite E. Qed.

Lemma says_when (c : bool) m b uid o : (c = true -> says m b uid o b ()) -> says (when c m) b uid (if c then o else []) b ().
Proof. destruct c; intros Hm; [by apply Hm|apply says_ret]. Qed.

Lemma says_uid (f : string -> list string) b uid o :
  (forall u, unowned (NetOp "ip" (f u)) = o) -> says (fun s => run_ip (f (getuid s.2)) s) b uid [o] b ().
Proof. intros Ho ran. exists [NetOp "ip" (f uid)]. split; [done|]. simpl. by rewrite Ho. Qed.

Lemma unowned_other prog argv : head argv <> Some "tuntap" -> unowned (NetOp prog argv) = NetOp prog argv.
Proof. intros Hne. unfold unowned. simpl. by rewrite decide_False by tauto. Qed.

(** * One machine *)

Definition plan_tap (vm : string) (b : bridge) : list net_op :=
  let tap := tap_name_for_vm_on_bridge vm (br_name b) in
  [plan_ip ["tuntap"; "add"; "dev"; tap; "mode"; "tap"];
   plan_ip ["link"; "set"; "dev"; tap; "master"; br_name b];
   plan_ip ["link"; "set"; "dev"; tap; "up"]].

Definition plan_link (b : bridge) : list net_op :=
  [plan_ip ["link"; "add"; br_name b; "type"; "bridge"]; plan_ip ["link"; "set"; "dev"; br_name b; "up"]].

(** What the realisation of [vm] leaves in the record. *)
Definition realized_with (vm : string) (b : bridge) : bridge :=
  set_realized true (set_realized_netem (netem_target b) (set_realized_taps ({[vm]} ∪ realized_taps b)
    (set_realized_directional
       (match collapsed_directional_for vm b with
        | Some v => <[vm := v]> (realized_directional b)
        | None => delete vm (realized_directional b)
        end) b))).

Lemma shape_says vm b uid tap :
  tap = tap_name_for_vm_on_bridge vm (br_name b) ->
  says (match collapsed_directional_for vm b with
        | Some (lat, drop, bps) =>
            if 0 <? bps then install_htb_with_optional_netem tap lat drop bps else install_netem_root tap lat drop
        | None => mret ()
        end) b uid (plan_shape vm b) b ().
Proof.
  intros ->. unfold plan_shape. destruct (collapsed_directional_for vm b) as [[[lat drop] bps]|] eqn:E; [|apply says_ret].
  assert (Hpos : (lat =? 0) && (drop =? 0) && (bps =? 0) = false).
  { unfold collapsed_directional_for in E. case_match; [|done]. destruct p as [[l d] r].
    destruct (_ || _ || _) eqn:Hp; simplify_eq. destruct (Z.eqb_spec lat 0), (Z.eqb_spec drop 0), (Z.eqb_spec bps 0); subst; done. }
  rewrite Hpos. destruct (0 <? bps).
  - unfold install_htb_with_optional_netem, run_tc.
    eapply (says_bind _ _ _ _ [_]); [apply says_cmd|]. eapply (says_bind _ _ _ _ [_]); [apply says_cmd|].
    apply says_when. intros _. apply says_cmd.
  - apply says_cmd.
Qed.

Lemma realize_says vm b uid :
  realized_netem b = (if realized b then netem_target b else None) ->
  vm ∉ realized_taps b -> realized_directional b !! vm = None ->
  says (realize_for_vm vm) b uid
    ((if realized b then [] else plan_link b ++ plan_netem b) ++ plan_tap vm b ++ plan_shape vm b)
    (realized_with vm b) (tap_name_for_vm_on_bridge vm (br_name b)).
Proof.
  intros Hnetem Htap Hdir. unfold realize_for_vm. apply says_get. cbv zeta.
  set (tap := tap_name_for_vm_on_bridge vm (br_name b)).
  replace ((if realized b then [] else plan_link b ++ plan_netem b) ++ plan_tap vm b ++ plan_shape vm b)
    with ((if negb (realized b) then plan_link b else []) ++ (if realized b then [] else plan_netem b) ++
          (if bool_decide (vm ∉ realized_taps b) then plan_tap vm b else []) ++ plan_shape vm b ++ [] ++ []).
  2:{ rewrite bool_decide_true by done. rewrite !app_nil_r. destruct (realized b); simpl; by rewrite <- ?app_assoc. }
  eapply says_bind; [apply says_when; intros _; apply (says_bind _ _ _ _ [_] [_] b b () ());
                     [apply says_tolerate, says_cmd|apply says_cmd]|].
  eapply says_bind.
  { instantiate (1 := ()). instantiate (1 := b). rewrite Hnetem. unfold plan_netem, netem_target. destruct (realized b).
    - rewrite decide_True by done. apply says_ret.
    - destruct (_ || _); [|rewrite decide_True by done; apply says_ret]. rewrite decide_False by done.
      unfold run_tc. rewrite <- (unowned_other "tc") by done. apply says_cmd. }
  eapply says_bind.
  { apply says_when. intros _. eapply (says_bind _ _ _ _ [_] [_; _]).
    - apply says_tolerate.
      apply (says_uid (fun u => ["tuntap"; "add"; "dev"; tap; "mode"; "tap"; "user"; u])). reflexivity.
    - apply (says_bind _ _ _ _ [_] [_] b b () ()); apply says_cmd. }
  eapply says_bind.
  { rewrite Hdir. instantiate (1 := ()). instantiate (1 := b). destruct (decide _) as [Heq|_].
    - unfold plan_shape. rewrite <- Heq. apply says_ret.
    - change (plan_shape vm b) with ([] ++ plan_shape vm b). eapply says_bind; [apply says_ret|]. by apply shape_says. }
  eapply says_bind; [apply says_modify|apply says_ret].
Qed.

(** * All machines *)

Lemma says_discard {A} (m : Bridge.io (H:=transcript) A) b uid o b' x : says m b uid o b' x -> says (m;; mret ()) b uid o b' ().
Proof. intros Hm. rewrite <- (app_nil_r o). eapply says_bind; [exact Hm|apply says_ret]. Qed.

Definition realized_all (vms : list string) (b : bridge) : bridge := foldl (fun b vm => realized_with vm b) b vms.

Lemma realized_all_taps vms b : realized_taps (realized_all vms b) = list_to_set vms ∪ realized_taps b.
Proof.
  revert b. induction vms as [|vm vms IH]; intros b; cbn [realized_all foldl]; [set_solver|].
  unfold realized_all in IH. rewrite IH. simpl. set_solver.
Qed.

Lemma rest_says vms b uid :
  realized b = true -> realized_netem b = netem_target b -> NoDup vms ->
  (forall vm, vm ∈ vms -> (vm ∉ realized_taps b) /\ realized_directional b !! vm = None) ->
  says (for_each (fun vm => realize_for_vm vm;; mret ()) vms) b uid
    (vm ← vms; plan_tap vm b ++ plan_shape vm b) (realized_all vms b) ().
Proof.
  revert b. induction vms as [|vm vms IH]; intros b Hr Hn Hnd Hfresh; [apply says_ret|].
  apply NoDup_cons in Hnd as [Hvm Hnd]. destruct (Hfresh vm) as [Ht Hd]; [by left|].
  cbn [for_each realized_all foldl]. rewrite bind_cons.
  eapply (says_bind _ _ _ _ _ _ (realized_with vm b)).
  - eapply says_discard. rewrite <- (app_nil_l (plan_tap vm b ++ _)). pose proof (realize_says vm b uid) as Hs.
    rewrite Hr in Hs. apply Hs; auto.
  - apply (IH (realized_with vm b)); auto. intros v Hv. assert (v <> vm) by congruence.
    destruct (Hfresh v) as [Hvt Hvd]; [by right|]. split; [simpl; set_solver|].
    simpl. destruct (collapsed_directional_for vm b); [by rewrite lookup_insert_ne by done|by rewrite lookup_delete_ne by done].
Qed.

Lemma split_blocks {A} (vms : list A) (f g : A -> list net_op) :
  (vm ← vms; f vm ++ g vm) ≡ₚ (vm ← vms; f vm) ++ (vm ← vms; g vm).
Proof.
  induction vms as [|vm vms IH]; [done|]. rewrite !bind_cons, IH.
  rewrite <- !app_assoc. f_equiv. rewrite !app_assoc. f_equiv. apply Permutation_app_comm.
Qed.

(** The plan is the realisation. For a bridge with members and nothing on
    the host yet, realising its members one after the other runs exactly the
    commands of the plan, apart from the owner of the TAPs: the link and the
    whole-bridge impairment once and first, then each machine's TAP and its
    own shaping together. *)
Lemma plan_is_realization uid b :
  realized b = false -> realized_taps b = ∅ -> realized_netem b = None -> realized_directional b = ∅ -> attached b <> ∅ ->
  exists b' ran, realize_members (b, Transcript uid []) = ((b', Transcript uid ran), Ok ()) /\
    unowned <$> ran ≡ₚ (plan_for b).2 /\
    unowned <$> ran = plan_link b ++ plan_netem b ++ (vm ← members b; plan_tap vm b ++ plan_shape vm b) /\
    realized b' = true /\ realized_taps b' = attached b.
Proof.
  intros Hr Ht Hn Hd Hne. destruct (in_order_spec (attached b)) as [Hnd Hset]. fold (members b) in *.
  destruct (members b) as [|vm vms] eqn:Hm; [by rewrite <- Hset in Hne|].
  assert (Hsay : says realize_members b uid (plan_link b ++ plan_netem b ++ (vm ← vm :: vms; plan_tap vm b ++ plan_shape vm b))
                   (realized_all (vm :: vms) b) ()).
  { unfold realize_members. apply says_get. rewrite Hm, bind_cons. cbn [for_each]. apply NoDup_cons in Hnd as [Hvm Hnd].
    replace (plan_link b ++ _) with (((plan_link b ++ plan_netem b) ++ plan_tap vm b ++ plan_shape vm b) ++
      (vm ← vms; plan_tap vm b ++ plan_shape vm b)) by by rewrite <- !app_assoc.
    eapply says_bind; [eapply says_discard; pose proof (realize_says vm b uid) as Hs; rewrite Hr in Hs; apply Hs|].
    - by rewrite Hn.
    - rewrite Ht. set_solver.
    - by rewrite Hd.
    - apply (rest_says vms (realized_with vm b)); auto. intros v Hv. assert (v <> vm) by congruence. split.
      + simpl. rewrite Ht. set_solver.
      + simpl. rewrite Hd. destruct (collapsed_directional_for vm b); [by rewrite lookup_insert_ne by done|by rewrite lookup_delete_ne by done]. }
  destruct (Hsay []) as (ran & Hrun & Hran). exists (realized_all (vm :: vms) b), ran.
  split; [exact Hrun|]. rewrite Hran. split_and!; [|done| |].
  - unfold plan_for. cbn [snd]. unfold plan_taps. rewrite Hm.
    change ([_; _] ++ ?rest) with (plan_link b ++ rest). f_equiv.
    change (plan_netem b ++ (vm ← vm :: vms; plan_tap vm b ++ plan_shape vm b) ≡ₚ
            (vm ← vm :: vms; plan_tap vm b) ++ plan_netem b ++ (vm ← vm :: vms; plan_shape vm b)).
    rewrite split_blocks, !app_assoc. f_equiv. apply Permutation_app_comm.
  - clear. cbn [realized_all foldl]. generalize (realized_with vm b) (eq_refl : realized (realized_with vm b) = true).
    induction vms as [|v vms IH]; intros b0 Hb; [done|]. by apply IH.
  - rewrite realized_all_taps, Ht, Hset. set_solver.
Qed.

Definition demo_bridge : bridge :=
  Bridge "lan" {["a"; "b"]} ∅ 20 0 0 {[("b", "a") := Impairment 0 5 1000000]} false ∅ ∅ false ∅ None ∅ ∅ false false 0.

Lemma plan_is_realization_witness :
  exists b' ran, realize_members (demo_bridge, Transcript "1000" []) = ((b', Transcript "1000" ran), Ok ()) /\
    unowned <$> ran ≡ₚ (plan_for demo_bridge).2 /\ length (plan_for demo_bridge).2 = 12%nat /\
    realized_taps b' = attached demo_bridge.
Proof.
  destruct (plan_is_realization "1000" demo_bridge) as (b' & ran & H1 & H2 & _ & _ & H3).
  - reflexivity.
  - reflexivity.
  - reflexivity.
  - reflexivity.
  - intros H. assert (Ha : bool_decide (attached demo_bridge = ∅) = true) by by apply bool_decide_eq_true. by vm_compute in Ha.
  - exists b', ran. split; [exact H1|]. split; [exact H2|]. split; [vm_compute; reflexivity|exact H3].
Defined.
