(* ===== verification/Barrier.v ===== *)
(** The named rendezvous of a lab, [BarrierState] of
    [src/provium-host/src/lab.rs]: arriving, waiting, and being let through. *)
From S2P Require Import Prelude.

Open Scope list_scope.
Open Scope Z_scope.

(** * The barrier *)

Record barrier_inner := BarrierInner { arrived : Z; generation : Z; expected : option Z }.

Definition barrier_new : barrier_inner := BarrierInner 0 0 None.

(** How a turn under the lock ends: [arrive] returns, or its thread goes to
    sleep on the condition variable, having noted the generation. *)
Inductive turn := Returns (released : bool) | Sleeps (my_generation : Z).

Definition roll_back (my : Z) (g : barrier_inner) : barrier_inner :=
  if (generation g =? my) && (0 <? arrived g)
  then BarrierInner (arrived g - 1) (generation g) (expected g) else g.

(** The head of the loop: [now >= deadline]. *)
Definition check_deadline (my : Z) (past : bool) (g : barrier_inner) : barrier_inner * turn :=
  if past then (roll_back my g, Returns false) else (g, Sleeps my).

(** [arrive] up to its first sleep. *)
Definition arrive (target : Z) (past : bool) (g : barrier_inner) : barrier_inner * turn :=
  let count g :=
    let my := generation g in
    let g1 := BarrierInner (arrived g + 1) (generation g) (expected g) in
    if target <=? arrived g1
    then (BarrierInner 0 (wrap u64_max (generation g1 + 1)) (expected g1), Returns true)
    else check_deadline my past g1 in
  match expected g with
  | None => count (BarrierInner (arrived g) (generation g) (Some target))
  | Some prev => if prev =? target then count g else (g, Returns false)
  end.

(** A turn after a sleep, ended by a notification, the timeout or nothing at
    all. *)
Definition woken (my : Z) (timed_out past : bool) (g : barrier_inner) : barrier_inner * turn :=
  if negb (generation g =? my) then (g, Returns true)
  else if timed_out then (roll_back my g, Returns false)
  else check_deadline my past g.

(** * Callers *)

(** The barrier, the callers asleep on it by the generation they noted, and,
    for the statements, how often it opened and how many callers returned
    [true]. *)
Record rendezvous := Rendezvous { bar : barrier_inner; asleep : list Z; opened : Z; let_through : Z }.

Definition rendezvous_new : rendezvous := Rendezvous barrier_new [] 0 0.

Definition opens (g g' : barrier_inner) : Z := if generation g =? generation g' then 0 else 1.

(** A turn's effect on the callers. *)
Definition settle (s : rendezvous) (others : list Z) (r : barrier_inner * turn) : rendezvous :=
  Rendezvous r.1
    (match r.2 with Sleeps my => my :: others | Returns _ => others end)
    (opened s + opens (bar s) r.1)
    (let_through s + match r.2 with Returns true => 1 | _ => 0 end).

Inductive step : rendezvous -> rendezvous -> Prop :=
| step_arrive s target past :
    in_width u64_max target -> step s (settle s (asleep s) (arrive target past (bar s)))
| step_woken s l my l' timed_out past :
    asleep s = l ++ my :: l' -> step s (settle s (l ++ l') (woken my timed_out past (bar s))).

(** The number of callers a round takes; a target of zero lets each caller
    through on its own. *)
Definition quota (g : barrier_inner) : Z := Z.max 1 (default 1 (expected g)).

(** Callers of the round in progress, and of rounds that are over. *)
Definition current (s : rendezvous) : list Z := filter (fun my => my = generation (bar s)) (asleep s).
Definition late (s : rendezvous) : list Z := filter (fun my => my <> generation (bar s)) (asleep s).

Record accounted (s : rendezvous) : Prop := {
  acc_generation : generation (bar s) = opened s;
  acc_past : Forall (fun my => 0 <= my <= opened s) (asleep s);
  acc_arrived : arrived (bar s) = zlen (current s);
  acc_room : arrived (bar s) < quota (bar s);
  acc_fresh : expected (bar s) = None -> asleep s = [] /\ opened s = 0 /\ let_through s = 0;
  acc_width : quota (bar s) <= u64_max;
  acc_total : let_through s + zlen (late s) = quota (bar s) * opened s;
}.

(** The generation is a 64-bit counter, so the accounts hold as long as it has
    not gone round. *)
Definition ok (s : rendezvous) : Prop := 0 <= opened s /\ (opened s <= u64_max -> accounted s).

Lemma ok_new : ok rendezvous_new.
Proof. split; [done|]. intros _. split; try done; simpl; try lia; constructor. Qed.

Lemma zlen_Permutation {A} (l k : list A) : l ≡ₚ k -> zlen l = zlen k.
Proof. unfold zlen. by intros ->. Qed.

Lemma wrap_next n : 0 <= n -> n + 1 <= u64_max -> wrap u64_max (n + 1) = n + 1.
Proof. intros. apply wrap_small. unfold in_width. lia. Qed.

Section counts.
Context (g : Z).
#[local] Abbreviation cur l := (zlen (filter (fun my => my = g) l)).
#[local] Abbreviation old l := (zlen (filter (fun my => my <> g) l)).

Lemma counts_split l : zlen l = cur l + old l.
Proof.
  induction l as [|x l IH]; [done|]. rewrite !filter_cons, zlen_cons.
  destruct (decide (x = g)), (decide (x <> g)); try done; rewrite zlen_cons; lia.
Qed.

Lemma counts_remove l my l' :
  cur (l ++ my :: l') = cur (l ++ l') + (if decide (my = g) then 1 else 0) /\
  old (l ++ my :: l') = old (l ++ l') + (if decide (my = g) then 0 else 1).
Proof.
  rewrite !filter_app, !filter_cons, !zlen_app.
  destruct (decide (my = g)), (decide (my <> g)); try done; rewrite zlen_cons; lia.
Qed.

Lemma counts_cons my l :
  cur (my :: l) = cur l + (if decide (my = g) then 1 else 0) /\
  old (my :: l) = old l + (if decide (my = g) then 0 else 1).
Proof. apply (counts_remove [] my l). Qed.

Lemma counts_past l : Forall (fun my => 0 <= my < g) l -> cur l = 0 /\ old l = zlen l.
Proof.
  intros Hl. assert (cur l = 0); [|pose proof (counts_split l); lia].
  induction Hl as [|x l Hx Hl IH]; [done|]. rewrite filter_cons. destruct (decide (x = g)); [lia|done].
Qed.
End counts.

Lemma roll_back_here my g :
  generation g = my -> 0 < arrived g -> roll_back my g = BarrierInner (arrived g - 1) (generation g) (expected g).
Proof. intros <- ?. unfold roll_back. rewrite Z.eqb_refl. by assert ((0 <? arrived g) = true) as -> by lia. Qed.

Lemma opens_same g g' : generation g' = generation g -> opens g g' = 0.
Proof. intros E. unfold opens. by rewrite E, Z.eqb_refl. Qed.

Lemma opens_nonneg g g' : 0 <= opens g g'.
Proof. unfold opens. by destruct (_ =? _). Qed.

Lemma count_arrival s target past :
  accounted s -> in_width u64_max target -> default target (expected (bar s)) = target ->
  let s' := settle s (asleep s) (arrive target past (bar s)) in
  0 <= opened s -> opened s' <= u64_max -> accounted s'.
Proof.
  intros [Hg Hp Ha Hr Hf Hw Ht] Ht64 He s' H0 Hlim.
  assert (Hq : quota (BarrierInner (arrived (bar s)) (generation (bar s)) (Some target)) = Z.max 1 target) by done.
  assert (Hroom : arrived (bar s) < Z.max 1 target /\ let_through s + zlen (late s) = Z.max 1 target * opened s).
  { unfold quota in *. destruct (expected (bar s)) as [prev|] eqn:Ex; simpl in *; [by subst prev|].
    destruct (Hf eq_refl) as (Has & Ho & Hl). unfold late, current in *. rewrite Has in *. simpl in *.
    rewrite Ha, Ho, Hl, !filter_nil. change (zlen (@nil Z)) with 0. lia. }
  destruct Hroom as [Hroom Htot].
  assert (Harr : arrive target past (bar s) =
    if target <=? arrived (bar s) + 1
    then (BarrierInner 0 (wrap u64_max (generation (bar s) + 1)) (Some target), Returns true)
    else check_deadline (generation (bar s)) past (BarrierInner (arrived (bar s) + 1) (generation (bar s)) (Some target))).
  { unfold arrive. destruct (expected (bar s)) as [prev|] eqn:Ex; simpl in *; [|done].
    subst prev. by rewrite Z.eqb_refl. }
  assert (Hnn : 0 <= arrived (bar s)) by (rewrite Ha; apply zlen_nonneg).
  assert (Hmax : Z.max 1 target <= u64_max) by (unfold in_width, u64_max in *; lia).
  unfold s' in *. rewrite Harr in *. clear Harr s'.
  destruct (target <=? arrived (bar s) + 1) eqn:Efull; [|destruct past].
  - unfold settle, opens in *. simpl in *. rewrite Hg in *.
    destruct (opened s =? wrap u64_max (opened s + 1)) eqn:Eo; [|].
    { exfalso. apply Z.eqb_eq in Eo. unfold wrap in Eo. destruct (decide (opened s + 1 <= u64_max)).
      - rewrite Z.mod_small in Eo by lia. lia.
      - assert (opened s + 1 = u64_max + 1) as E1 by lia. rewrite E1, Z_mod_same_full in Eo. unfold u64_max in *. lia. }
    rewrite wrap_next in * by lia.
    assert (Hlt : Forall (fun my => 0 <= my < opened s + 1) (asleep s)).
    { eapply Forall_impl; [exact Hp|]. simpl. lia. }
    destruct (counts_past _ _ Hlt) as [Hc Ho]. pose proof (counts_split (opened s) (asleep s)) as Hsp.
    unfold current, late in *. rewrite Hg in *.
    split; unfold current, late, quota; simpl; try done; try lia.
    eapply Forall_impl; [exact Hp|]. simpl. lia.
  - unfold settle, check_deadline in *. rewrite roll_back_here in * by (simpl; lia).
    unfold current, late in *. simpl in *.
    split; unfold current, late, quota; simpl; rewrite ?opens_same, ?Z.add_0_r by done; try done; lia.
  - unfold settle, check_deadline in *. simpl in *.
    destruct (counts_cons (generation (bar s)) (generation (bar s)) (asleep s)) as [Hc Ho].
    rewrite decide_True in Hc, Ho by done. unfold current, late in *.
    split; unfold current, late, quota; simpl; rewrite ?opens_same, ?Z.add_0_r by done; try done; try lia.
    constructor; [lia|done].
Qed.

Lemma step_ok s s' : ok s -> step s s' -> ok s'.
Proof.
  intros [H0 Hs] Hstep.
  assert (Hmono : opened s <= opened s').
  { destruct Hstep; unfold settle; cbn [opened]; match goal with |- context [opens ?a ?b] => pose proof (opens_nonneg a b) end; lia. }
  split; [lia|]. intros Hlim. specialize (Hs ltac:(lia)).
  destruct Hstep as [s target past Htw|s l my l' timed_out past Has].
  - destruct (decide (default target (expected (bar s)) = target)) as [He|Hne]; [by apply count_arrival|].
    destruct (expected (bar s)) as [prev|] eqn:Ex; [|done]. simpl in Hne.
    assert (arrive target past (bar s) = (bar s, Returns false)) as ->.
    { unfold arrive. rewrite Ex. by assert ((prev =? target) = false) as -> by lia. }
    destruct Hs. split; unfold settle, current, late in *; simpl in *; rewrite ?opens_same, ?Z.add_0_r by done; done.
  - pose proof (counts_remove (generation (bar s)) l my l') as [Hc Ho].
    destruct Hs as [Hg Hp Ha Hr Hf Hw Ht]. unfold current, late in *. rewrite Has in *.
    apply Forall_app in Hp as [Hp1 [Hp2 Hp3]%Forall_cons].
    assert (Hp' : Forall (fun my => 0 <= my <= opened s) (l ++ l')) by (by apply Forall_app).
    assert (Hex : expected (bar s) <> None).
    { intros E. destruct (Hf E) as [E' _]. by destruct l. }
    assert (Hback : my = generation (bar s) -> accounted (settle s (l ++ l') (roll_back my (bar s), Returns false))).
    { intros Hmy. rewrite decide_True in Hc, Ho by done. pose proof (zlen_nonneg (filter (fun my => my = generation (bar s)) (l ++ l'))).
      rewrite roll_back_here by (done || lia).
      split; unfold settle, current, late, quota in *; simpl; rewrite ?opens_same, ?Z.add_0_r by done; try done; lia. }
    unfold woken, check_deadline. destruct (generation (bar s) =? my) eqn:Eg; simpl.
    + apply Z.eqb_eq in Eg. destruct timed_out; [by apply Hback|]. destruct past; [by apply Hback|].
      destruct (counts_cons (generation (bar s)) my (l ++ l')) as [Hc' Ho'].
      split; unfold settle, current, late, quota in *; simpl; rewrite ?opens_same, ?Z.add_0_r by done; try done; try lia.
      by constructor.
    + apply Z.eqb_neq in Eg. rewrite decide_False in Hc, Ho by done.
      split; unfold settle, current, late, quota in *; simpl; rewrite ?opens_same, ?Z.add_0_r by done; try done; lia.
Qed.

(** * Promises *)

(** C39: a barrier lets callers through in full rounds. However the callers
    arrive, time out and wake, for as many rounds as the 64-bit counter tells
    apart: every round that opened took exactly the count given at the first
    arrival, the callers let through and those of past rounds still asleep; the
    callers of the round in progress are exactly the sleeping ones that noted
    it, so one that timed out leaves no trace; the next arrival opens the
    barrier exactly when it completes the round; and a caller whose round has
    opened returns true at its next turn even if its time is over. *)
Theorem barrier_rounds_exact s target past :
  rtc step rendezvous_new s -> opened s <= u64_max -> expected (bar s) = Some target ->
  let_through s + zlen (late s) = Z.max 1 target * opened s /\
  arrived (bar s) = zlen (current s) /\ arrived (bar s) < Z.max 1 target <= u64_max /\
  ((arrive target past (bar s)).2 = Returns true <-> arrived (bar s) + 1 = Z.max 1 target) /\
  (forall my timed_out, my ∈ late s -> woken my timed_out past (bar s) = (bar s, Returns true)).
Proof.
  intros Hrun Hlim He.
  assert (Hok : ok s) by (eapply (rtc_invariant ok step); [apply step_ok|apply ok_new|done]).
  destruct Hok as [H0 Hacc]. destruct (Hacc Hlim) as [Hg Hp Ha Hr Hf Hw Ht].
  assert (Hq : quota (bar s) = Z.max 1 target) by (unfold quota; by rewrite He).
  rewrite Hq in *. pose proof (zlen_nonneg (current s)). split_and!; [done..| |].
  - unfold arrive. rewrite He, Z.eqb_refl. simpl. unfold check_deadline.
    destruct (target <=? arrived (bar s) + 1) eqn:E; [split; [lia|done]|].
    destruct past; simpl; split; try done; lia.
  - intros my timed_out Hmy. apply list_elem_of_filter in Hmy as [Hne _].
    unfold woken. by assert ((generation (bar s) =? my) = false) as -> by lia.
Qed.

(** Three callers for a count of two: one gives up, two meet, and the first of
    them wakes after its time is over. *)
Definition demo_meeting : rendezvous :=
  let s1 := settle rendezvous_new [] (arrive 2 true barrier_new) in
  let s2 := settle s1 [] (arrive 2 false (bar s1)) in
  let s3 := settle s2 (asleep s2) (arrive 2 false (bar s2)) in
  s3.

Lemma barrier_rounds_exact_witness :
  rtc step rendezvous_new demo_meeting /\ opened demo_meeting = 1 /\ let_through demo_meeting = 1 /\
  woken 0 true true (bar demo_meeting) = (bar demo_meeting, Returns true).
Proof.
  assert (Hrun : rtc step rendezvous_new demo_meeting).
  { unfold demo_meeting. eapply rtc_l; [apply (step_arrive _ 2 true); done|].
    eapply rtc_l; [apply (step_arrive _ 2 false); done|]. eapply rtc_l; [apply (step_arrive _ 2 false); done|]. apply rtc_refl. }
  split; [done|]. split; [done|]. split; [done|].
  apply (barrier_rounds_exact demo_meeting 2 true Hrun); [done|done|]. by apply (bool_decide_unpack _).
Defined.
