(* ===== verification/Lab.v ===== *)
(** Labs, [src/provium-host/src/lab.rs]: the tree of machines, bridges and
    sub-labs, membership, flat names, and batch operations. *)
From Stdlib Require Import Ascii.
From S2P Require Import Prelude Names Pool Claims Cpio VmOpts Vm Bridge Profile Barrier.

Open Scope string_scope.
Open Scope list_scope.
Open Scope Z_scope.

(** * Data *)

(** What a member's entry in the failures says. *)
Inductive member_failure := MemberError (e : vm_error) | ThreadPanicked.

Inductive lab_error :=
| DuplicateVmName (name : string)
| UnknownVm (name : string)
| UnknownProfile (name : string)
| DuplicateBridgeName (name : string)
| UnknownBridge (name : string)
| RestoreFailed (name e : string)
| ClaimAlreadyHeld
| ClaimExceedsBudget
| ClaimRefused (e : acquire_error)
| LabBootRefused (e : reserve_error)
| ReservedName (name : string)
| BatchFailed (action : string) (failures : gmap string member_failure).

(** Handles: what a clone copies, and the name of the state the clones share. *)
Record vm := VmHandle { vm_name : string; profile_name : string; vm_opts : boot_opts; vm_pool : bool; vm_ref : Z }.
Record bridge_handle := BridgeHandle { bh_name : string; bh_ref : Z }.
Record lab := LabHandle { lab_name : string; lab_pool : bool; lab_ref : Z }.

Record lab_inner := LabInner {
  vms : gmap string vm;
  sub_labs : gmap string lab;
  bridges : gmap string bridge_handle;
  barriers : gmap string barrier_inner;
  boot_reservations : list hold;
}.

Definition lab_inner_new : lab_inner := LabInner ∅ ∅ ∅ ∅ [].

(** The shared states, and the next name for one. *)
Record world := World {
  labs : gmap Z lab_inner;
  machines : gmap Z (vm_inner * registry);
  networks : gmap Z bridge;
  next_ref : Z;
}.

Definition inner (w : world) (l : lab) : lab_inner := default lab_inner_new (labs w !! lab_ref l).

Definition set_inner (l : lab) (i : lab_inner) (w : world) : world :=
  World (<[lab_ref l := i]> (labs w)) (machines w) (networks w) (next_ref w).

Definition set_vms (x : gmap string vm) (i : lab_inner) : lab_inner :=
  LabInner x (sub_labs i) (bridges i) (barriers i) (boot_reservations i).
Definition set_sub_labs (x : gmap string lab) (i : lab_inner) : lab_inner :=
  LabInner (vms i) x (bridges i) (barriers i) (boot_reservations i).
Definition set_bridges (x : gmap string bridge_handle) (i : lab_inner) : lab_inner :=
  LabInner (vms i) (sub_labs i) x (barriers i) (boot_reservations i).
Definition set_barriers (x : gmap string barrier_inner) (i : lab_inner) : lab_inner :=
  LabInner (vms i) (sub_labs i) (bridges i) x (boot_reservations i).
Definition set_boot_reservations (x : list hold) (i : lab_inner) : lab_inner :=
  LabInner (vms i) (sub_labs i) (bridges i) (barriers i) x.

(** The states behind the handles. *)
Definition vm_state_of (w : world) (v : vm) : option vm_state := (fun m => state m.1) <$> machines w !! vm_ref v.
Definition stream_count (w : world) (v : vm) : Z :=
  match machines w !! vm_ref v with Some (_, r) => Z.of_nat (size (open_streams r)) | None => 0 end.
Definition capture_count (w : world) (b : bridge_handle) : Z :=
  match networks w !! bh_ref b with Some n => captures n | None => 0 end.

(** * Construction *)

(** [Lab::new_with_pool_and_events]. *)
Definition lab_new (name : string) (pool : bool) (w : world) : world * lab :=
  let l := LabHandle name pool (next_ref w) in
  (World (<[next_ref w := lab_inner_new]> (labs w)) (machines w) (networks w) (next_ref w + 1), l).

Definition RESERVED_LAB_NAMES : list string := ["vm_fixture"; "lab_fixture"; "pack"; "unpack"].

Definition check_reserved_name (name : string) : result () lab_error :=
  if bool_decide (name ∈ RESERVED_LAB_NAMES) then Err (ReservedName name) else Ok ().

(** * Membership *)

(** The state of a new bridge is made before the lock is taken, and dropped if
    the name is in use. *)
Definition create_bridge (l : lab) (name : string) (w : world) : world * result bridge_handle lab_error :=
  match check_reserved_name name with
  | Err e => (w, Err e)
  | Ok _ =>
      let i := inner w l in
      match bridges i !! name with
      | Some _ => (w, Err (DuplicateBridgeName name))
      | None =>
          let b := BridgeHandle name (next_ref w) in
          (set_inner l (set_bridges (<[name := b]> (bridges i)) i)
             (World (labs w) (machines w) (<[next_ref w := bridge_new name]> (networks w)) (next_ref w + 1)), Ok b)
      end
  end.

Definition get_bridge (w : world) (l : lab) (name : string) : result bridge_handle lab_error :=
  match bridges (inner w l) !! name with Some b => Ok b | None => Err (UnknownBridge name) end.

Definition bridge_names (w : world) (l : lab) : list string := keys (bridges (inner w l)).

Definition include_vm (l : lab) (v : vm) (w : world) : world * result () lab_error :=
  let name := vm_name v in
  match check_reserved_name name with
  | Err e => (w, Err e)
  | Ok _ =>
      let i := inner w l in
      match vms i !! name with
      | Some _ => (w, Err (DuplicateVmName name))
      | None => (set_inner l (set_vms (<[name := v]> (vms i)) i) w, Ok ())
      end
  end.

Definition include_bridge (l : lab) (b : bridge_handle) (w : world) : world * result () lab_error :=
  let name := bh_name b in
  match check_reserved_name name with
  | Err e => (w, Err e)
  | Ok _ =>
      let i := inner w l in
      match bridges i !! name with
      | Some _ => (w, Err (DuplicateBridgeName name))
      | None => (set_inner l (set_bridges (<[name := b]> (bridges i)) i) w, Ok ())
      end
  end.

Definition include_sub_lab (l sub : lab) (w : world) : world * result () lab_error :=
  let name := lab_name sub in
  match check_reserved_name name with
  | Err e => (w, Err e)
  | Ok _ =>
      let i := inner w l in
      match sub_labs i !! name with
      | Some _ => (w, Err (DuplicateVmName ("sub-lab `" +:+ name +:+ "`")))
      | None => (set_inner l (set_sub_labs (<[name := sub]> (sub_labs i)) i) w, Ok ())
      end
  end.

Definition remove_vm (l : lab) (name : string) (w : world) : world * option vm :=
  let i := inner w l in (set_inner l (set_vms (delete name (vms i)) i) w, vms i !! name).
Definition remove_bridge (l : lab) (name : string) (w : world) : world * option bridge_handle :=
  let i := inner w l in (set_inner l (set_bridges (delete name (bridges i)) i) w, bridges i !! name).
Definition remove_sub_lab (l : lab) (name : string) (w : world) : world * option lab :=
  let i := inner w l in (set_inner l (set_sub_labs (delete name (sub_labs i)) i) w, sub_labs i !! name).

Definition members (w : world) (l : lab) : list (string * string) :=
  let i := inner w l in
  ((fun n => ("vm", n)) <$> keys (vms i)) ++ ((fun n => ("bridge", n)) <$> keys (bridges i)) ++
  ((fun n => ("lab", n)) <$> keys (sub_labs i)).

(** [create_vm]; the state of the machine goes with it if the name is in use. *)
Definition create_vm (config : gmap string profile) (l : lab) (name prof : string) (opts : boot_opts) (w : world)
  : world * result vm lab_error :=
  match check_reserved_name name with
  | Err e => (w, Err e)
  | Ok _ =>
      match config !! prof with
      | None => (w, Err (UnknownProfile prof))
      | Some _ =>
          let i := inner w l in
          match vms i !! name with
          | Some _ => (w, Err (DuplicateVmName name))
          | None =>
              let v := VmHandle name prof opts (lab_pool l) (next_ref w) in
              (set_inner l (set_vms (<[name := v]> (vms i)) i)
                 (World (labs w) (<[next_ref w := (vm_new, registry_new)]> (machines w)) (networks w) (next_ref w + 1)), Ok v)
          end
      end
  end.

(** [restore_vm]: the backend has restored a machine, or failed to. A machine
    restored under a name in use is dropped with its handle. *)
Definition restore_vm (config : gmap string profile) (l : lab) (name prof : string) (opts : boot_opts)
    (backend : result (Z * Z) string) (w : world) : world * result vm lab_error :=
  match config !! prof with
  | None => (w, Err (UnknownProfile prof))
  | Some _ =>
      match backend with
      | Err e => (w, Err (RestoreFailed name e))
      | Ok (cid, inst) =>
          let i := inner w l in
          match vms i !! name with
          | Some _ => (w, Err (DuplicateVmName name))
          | None =>
              let v := VmHandle name prof opts false (next_ref w) in
              (set_inner l (set_vms (<[name := v]> (vms i)) i)
                 (World (labs w) (<[next_ref w := (from_running cid inst, registry_new)]> (machines w)) (networks w) (next_ref w + 1)), Ok v)
          end
      end
  end.

Definition get_vm (w : world) (l : lab) (name : string) : result vm lab_error :=
  match vms (inner w l) !! name with Some v => Ok v | None => Err (UnknownVm name) end.
Definition vm_names (w : world) (l : lab) : list string := keys (vms (inner w l)).
Definition lab_vms (w : world) (l : lab) : list vm := values (vms (inner w l)).

(** * Sub-labs *)

(** [sub_lab]: the sub-lab takes no pool of its own, and takes the place of
    one already there under the name. *)
Definition sub_lab (l : lab) (name : string) (w : world) : world * lab :=
  let '(w1, s) := lab_new name false w in
  let i := inner w1 l in
  (set_inner l (set_sub_labs (<[name := s]> (sub_labs i)) i) w1, s).

Definition sub_lab_checked (l : lab) (name : string) (w : world) : world * result lab lab_error :=
  match check_reserved_name name with
  | Err e => (w, Err e)
  | Ok _ => let '(w1, s) := sub_lab l name w in (w1, Ok s)
  end.

Definition sub_lab_names (w : world) (l : lab) : list string := keys (sub_labs (inner w l)).
Definition get_sub_lab (w : world) (l : lab) (name : string) : option lab := sub_labs (inner w l) !! name.

(** A name is looked for in a lab and then in the scopes around it. *)
Definition lookup_vm (w : world) (l : lab) (parents : list lab) (name : string) : option vm :=
  head (omap (fun l => vms (inner w l) !! name) (l :: parents)).
Definition lookup_bridge (w : world) (l : lab) (parents : list lab) (name : string) : option bridge_handle :=
  head (omap (fun l => bridges (inner w l) !! name) (l :: parents)).
Definition lookup_sub_lab (w : world) (l : lab) (parents : list lab) (name : string) : option lab :=
  head (omap (fun l => sub_labs (inner w l) !! name) (l :: parents)).

(** Fixtures land at the bottom of the scopes. *)
Definition fixture_lab (l : lab) (parents : list lab) : lab := default l (last parents).

(** * Flat names *)

Definition under (prefix name : string) : string := if decide (prefix = "") then name else prefix +:+ "/" +:+ name.

(** [gather_into] with the depth it may descend; [None] if that is not enough. *)
Fixpoint gather (fuel : nat) (w : world) (l : lab) (prefix : string) : option (list (string * vm)) :=
  match fuel with
  | O => None
  | S fuel =>
      let i := inner w l in
      deeper ← mapM (fun s => gather fuel w s.2 (under prefix s.1)) (map_walk (sub_labs i));
      Some (((fun v => (under prefix v.1, v.2)) <$> map_walk (vms i)) ++ concat deeper)
  end.

Definition collect_all_vms (fuel : nat) (w : world) (l : lab) : option (list (string * vm)) := gather fuel w l "".

Fixpoint open_stream_total (fuel : nat) (w : world) (l : lab) : option Z :=
  match fuel with
  | O => None
  | S fuel =>
      let i := inner w l in
      from_subs ← mapM (open_stream_total fuel w) (values (sub_labs i));
      Some (lsum (stream_count w) (values (vms i)) + lsum (capture_count w) (values (bridges i)) + lsum id from_subs)
  end.

(** [str::split('/')]: always at least one part. *)
Fixpoint split_slash (s : string) : list string :=
  match s with
  | EmptyString => [""]
  | String c s =>
      if (c =? "/")%char then "" :: split_slash s
      else match split_slash s with p :: ps => String c p :: ps | [] => [String c ""] end
  end.

Definition split_sub_lab_path (flat : string) : list string * string :=
  let parts := split_slash flat in (removelast parts, List.last parts "").

Fixpoint descend_or_create (l : lab) (parts : list string) (w : world) : world * lab :=
  match parts with
  | [] => (w, l)
  | p :: parts =>
      match get_sub_lab w l p with
      | Some existing => descend_or_create existing parts w
      | None => let '(w1, s) := sub_lab l p w in descend_or_create s parts w1
      end
  end.

(** * Barriers *)

(** The first turn of [barrier]; later ones are [Barrier.woken]. *)
Definition barrier (l : lab) (name : string) (count : Z) (past : bool) (w : world) : world * turn :=
  let i := inner w l in
  let '(b, t) := arrive count past (default barrier_new (barriers i !! name)) in
  (set_inner l (set_barriers (<[name := b]> (barriers i)) i) w, t).

(** * Batch operations *)

(** How the thread of one member ended. *)
Inductive joined := Finished (name : string) (r : result () vm_error) | Panicked.

Definition failure (m : gmap string member_failure) (j : joined) : gmap string member_failure :=
  match j with
  | Finished _ (Ok _) => m
  | Finished name (Err e) => <[name := MemberError e]> m
  | Panicked => <["<panicked>" := ThreadPanicked]> m
  end.

Definition batch (action : string) (joins : list joined) : result () lab_error :=
  let failures := foldl failure ∅ joins in
  if decide (failures = ∅) then Ok () else Err (BatchFailed action failures).

(** What the members still to be booted will need together. *)
Definition add_due (w : world) (needed : resource_amount) (v : string * vm) : resource_amount :=
  if decide (vm_state_of w v.2 = Some Created)
  then saturating_add needed (boot_amount (vm_opts v.2)) else needed.

Definition boot_needed (w : world) (all : list (string * vm)) : resource_amount := foldl (add_due w) ra_zero all.

(** The reservation before the threads start: nothing to pay, or a turn of
    [reserve], whose refusal ends the call. *)
Inductive boot_turn := BootGo (h : option hold) | BootStop (e : lab_error) | BootParked (ticket : Z).

Definition boot_reserve (now : Z) (pool : option pool_state) (acc : account) (needed : resource_amount)
    (sink : option wait_sink) : option pool_state * account * option wait_sink * boot_turn :=
  match pool with
  | None => (None, acc, sink, BootGo None)
  | Some s =>
      if is_zero needed then (Some s, acc, sink, BootGo None)
      else
        match reserve now s (Some acc) needed sink with
        | (s', acc', sink', Held h) => (Some s', default acc acc', sink', BootGo (Some h))
        | (s', acc', sink', ReserveFailed e) => (Some s', default acc acc', sink', BootStop (LabBootRefused e))
        | (s', acc', sink', ReserveParked k) => (Some s', default acc acc', sink', BootParked k)
        end
  end.

(** After the threads: the hold is kept with the lab, or dropped. *)
Definition boot_finish (l : lab) (h : option hold) (joins : list joined) (w : world)
  : world * result () lab_error * list hold :=
  match batch "boot" joins with
  | Ok _ =>
      match h with
      | Some h => (set_inner l (set_boot_reservations (boot_reservations (inner w l) ++ [h]) (inner w l)) w, Ok (), [])
      | None => (w, Ok (), [])
      end
  | Err e => (w, Err e, match h with Some h => [h] | None => [] end)
  end.

(** [shutdown] after its threads; every hold is dropped. *)
Definition shutdown_finish (l : lab) (joins : list joined) (w : world) : world * result () lab_error * list hold :=
  (set_inner l (set_boot_reservations [] (inner w l)) w, batch "shutdown" joins, boot_reservations (inner w l)).

(** The thread of one member on its own: what its machine becomes and how the
    thread ends. [launch] is what the backend gives; the clone it boots has no
    pool. The name is the flat one in the report, the machine's own in the error. *)
Definition boot_member (flat name : string) (recorded : list disk_attachment) (launch : result (Z * Z) vmm_error)
    (i : vm_inner) : vm_inner * joined :=
  if decide (state i = Created) then
    let i1 := foldl (fun i a => attach_disk_record a i) (take_overrides i) recorded in
    match launch with
    | Err e => (i1, Finished flat (Err (VVmm e)))
    | Ok (cid, inst) =>
        match install name "boot" cid inst None true i1 with
        | (i', Ret r) => (i', Finished flat r)
        | (i', Panic _) => (i', Panicked)
        end
    end
  else (i, Finished flat (Err (WrongState name (state i) "boot"))).

(** * Claims *)

Definition lab_claim_error (e : acquire_error) : lab_error :=
  match e with ExceedsTotal _ _ => ClaimExceedsBudget | _ => ClaimRefused e end.

(** [claim] for a file with an owner, its first turn with the pool. *)
Definition lab_claim (now : Z) (s : pool_state) (a : account) (amt : resource_amount) (sink : option wait_sink)
  : pool_state * account * option wait_sink * option (result () lab_error) * option reservation :=
  if claim_taken a then (s, a, sink, Some (Err ClaimAlreadyHeld), None)
  else
    match acquire_inner now s (acc_owner a) amt sink with
    | (s', sink', Parked _) => (s', a, sink', None, None)
    | (s', sink', Refused e) =>
        (s', a, sink',
         Some (Err match acc_owner a with Some _ => lab_claim_error e | None => ClaimExceedsBudget end), None)
    | (s', sink', Granted r) =>
        let '(a', taken_now, dropped) := set_claim a r amt in
        (s', a', sink', Some (if taken_now : bool then Ok () else Err ClaimAlreadyHeld), dropped)
    end.

Definition note_claim_taken (a : account) : account * result () lab_error :=
  let '(a', fresh) := mark_claim_taken a in (a', if fresh : bool then Ok () else Err ClaimAlreadyHeld).
