(* ===== verification/LabTree.v ===== *)
(** The tree of labs: its walks end, every machine has a flat name that leads
    back to it, and what joint boots are charged. *)
From Stdlib Require Import Ascii.
From S2P Require Import Prelude Names Pool Claims Cpio VmOpts Vm Bridge Profile Barrier Lab.

Open Scope string_scope.
Open Scope list_scope.
Open Scope Z_scope.

(** * Steps *)

(** A handle of a lab that exists. *)
Definition real (w : world) (l : lab) : Prop := is_Some (labs w !! lab_ref l).

(** One lab directly under another, by the states they share. *)
Definition child (w : world) (r1 r2 : Z) : Prop :=
  exists i name s, labs w !! r1 = Some i /\ sub_labs i !! name = Some s /\ lab_ref s = r2.

(** What threads with handles may do. A lab is included only where it does not
    contain the lab it goes under. *)
Inductive lab_step (config : gmap string profile) (w : world) : world -> Prop :=
| LNew name pool : lab_step config w (lab_new name pool w).1
| LCreateBridge l name : real w l -> lab_step config w (create_bridge l name w).1
| LIncludeVm l v : real w l -> lab_step config w (include_vm l v w).1
| LIncludeBridge l b : real w l -> lab_step config w (include_bridge l b w).1
| LIncludeSubLab l s : real w l -> real w s -> ~ rtc (child w) (lab_ref s) (lab_ref l) ->
    lab_step config w (include_sub_lab l s w).1
| LRemoveVm l name : real w l -> lab_step config w (remove_vm l name w).1
| LRemoveBridge l name : real w l -> lab_step config w (remove_bridge l name w).1
| LRemoveSubLab l name : real w l -> lab_step config w (remove_sub_lab l name w).1
| LCreateVm l name prof opts : real w l -> lab_step config w (create_vm config l name prof opts w).1
| LRestoreVm l name prof opts backend : real w l -> lab_step config w (restore_vm config l name prof opts backend w).1
| LSubLab l name : real w l -> lab_step config w (sub_lab_checked l name w).1
| LDescend l parts : real w l -> lab_step config w (descend_or_create l parts w).1
| LBarrier l name count past : real w l -> lab_step config w (barrier l name count past w).1
| LBoot l h joins : real w l -> lab_step config w (boot_finish l h joins w).1.1
| LShutdown l joins : real w l -> lab_step config w (shutdown_finish l joins w).1.1
| LMachines ms : lab_step config w (World (labs w) ms (networks w) (next_ref w))
| LNetworks ns : lab_step config w (World (labs w) (machines w) ns (next_ref w)).

Definition world_new : world := World ∅ ∅ ∅ 0.

(** * The tree is well founded *)

Record tree_ok (w : world) : Prop := {
  tree_acc : forall r, Acc (fun s r => child w r s) r;
  tree_real : forall r1 r2, child w r1 r2 -> is_Some (labs w !! r2);
  tree_fresh : forall r, is_Some (labs w !! r) -> r < next_ref w;
}.

(** One more edge, to where it does not close a circle. *)
Lemma acc_more (E E' : Z -> Z -> Prop) r1 r2 :
  (forall r, Acc (fun s r => E r s) r) ->
  (forall a b, E' a b -> E a b \/ a = r1 /\ b = r2) -> ~ rtc E r2 r1 ->
  forall r, Acc (fun s r => E' r s) r.
Proof.
  intros Hacc Hmore Hno.
  assert (Hr2 : forall r, rtc E r2 r -> Acc (fun s r => E' r s) r).
  { intros r. induction (Hacc r) as [r _ IH]. intros Hr. constructor. intros s Hs.
    destruct (Hmore _ _ Hs) as [He|[-> _]]; [|done]. apply IH; [done|]. by eapply rtc_r. }
  intros r. induction (Hacc r) as [r _ IH]. constructor. intros s Hs.
  destruct (Hmore _ _ Hs) as [He|[_ ->]]; [by apply IH|]. apply Hr2, rtc_refl.
Qed.

(** What an operation on one lab's state does to the tree. *)
Lemma tree_ok_same w w' :
  tree_ok w -> (forall a b, child w' a b -> child w a b) ->
  (forall r, is_Some (labs w' !! r) <-> is_Some (labs w !! r)) -> next_ref w <= next_ref w' -> tree_ok w'.
Proof.
  intros [Hacc Hreal Hfresh] Hc Hl Hn. split.
  - intros r. induction (Hacc r) as [r _ IH]. constructor. intros s Hs. by apply IH, Hc.
  - intros r1 r2 H. apply Hl. eapply Hreal. by apply Hc.
  - intros r Hr%Hl. apply Hfresh in Hr. lia.
Qed.

Lemma real_inner w l i : labs w !! lab_ref l = Some i -> inner w l = i.
Proof. unfold inner. by intros ->. Qed.

(** Writing back a state whose sub-labs were there already. *)
Lemma tree_ok_write w l i' ms ns n :
  tree_ok w -> real w l -> sub_labs i' ⊆ sub_labs (inner w l) -> next_ref w <= n ->
  tree_ok (set_inner l i' (World (labs w) ms ns n)).
Proof.
  intros Hok [i Hi] Hsub Hn. rewrite (real_inner _ _ _ Hi) in Hsub. apply (tree_ok_same w); [done| | |done].
  - intros a b (j & name & s & Hj & Hs & Hb). simpl in Hj. apply lookup_insert_Some in Hj as [[<- <-]|[Hne Hj]].
    + exists i, name, s. split; [done|]. split; [|done]. by eapply lookup_weaken.
    + by exists j, name, s.
  - intros r. simpl. destruct (decide (lab_ref l = r)) as [<-|Hne]; [rewrite lookup_insert_eq|by rewrite lookup_insert_ne].
    rewrite Hi. split; by eexists.
Qed.

Lemma tree_ok_new name pool w : tree_ok w -> tree_ok (lab_new name pool w).1 /\ ~ is_Some (labs w !! next_ref w).
Proof.
  intros [Hacc Hreal Hfresh].
  assert (Hno : ~ is_Some (labs w !! next_ref w)) by (intros H%Hfresh; lia).
  split; [|done].
  assert (Hc : forall a b, child (lab_new name pool w).1 a b -> child w a b).
  { intros a b (j & n & s & Hj & Hs & Hb). simpl in Hj. apply lookup_insert_Some in Hj as [[<- <-]|[Hne Hj]]; [done|].
    by exists j, n, s. }
  split.
  - intros r. induction (Hacc r) as [r _ IH]. constructor. intros s Hs. by apply IH, Hc.
  - intros r1 r2 H%Hc%Hreal. simpl. destruct (decide (next_ref w = r2)) as [<-|]; [done|by rewrite lookup_insert_ne].
  - intros r Hr. simpl in *. destruct (decide (next_ref w = r)) as [<-|Hne]; [lia|].
    rewrite lookup_insert_ne in Hr by done. apply Hfresh in Hr. lia.
Qed.

(** A lab put under another. *)
Lemma tree_ok_link w l s name :
  tree_ok w -> real w l -> real w s -> ~ rtc (child w) (lab_ref s) (lab_ref l) ->
  tree_ok (set_inner l (set_sub_labs (<[name := s]> (sub_labs (inner w l))) (inner w l)) w).
Proof.
  intros [Hacc Hreal Hfresh] [i Hi] Hs Hno. rewrite (real_inner _ _ _ Hi).
  set (w' := set_inner _ _ _).
  assert (Hc : forall a b, child w' a b -> child w a b \/ a = lab_ref l /\ b = lab_ref s).
  { intros a b (j & n & t & Hj & Ht & Hb). unfold w' in Hj. simpl in Hj.
    apply lookup_insert_Some in Hj as [[<- <-]|[Hne Hj]]; [|left; by exists j, n, t].
    simpl in Ht. apply lookup_insert_Some in Ht as [[<- <-]|[Hne Ht]]; [by right|left; by exists i, n, t]. }
  assert (Hl : forall r, is_Some (labs w' !! r) <-> is_Some (labs w !! r)).
  { intros r. simpl. destruct (decide (lab_ref l = r)) as [<-|Hne]; [rewrite lookup_insert_eq|by rewrite lookup_insert_ne].
    rewrite Hi. split; by eexists. }
  split.
  - by apply (acc_more (child w) _ (lab_ref l) (lab_ref s)).
  - intros r1 r2 H. apply Hl. destruct (Hc _ _ H) as [H'|[_ ->]]; [by eapply Hreal|done].
  - intros r Hr%Hl. by apply Hfresh.
Qed.

Lemma rtc_child_start w a b : rtc (child w) a b -> a = b \/ is_Some (labs w !! a).
Proof. intros H. destruct H as [|a b c (i & ? & ? & Hi & _) _]; [by left|right; by exists i]. Qed.

Lemma sub_lab_ok w l name : tree_ok w -> real w l -> tree_ok (sub_lab l name w).1 /\ real (sub_lab l name w).1 (sub_lab l name w).2.
Proof.
  intros Hok Hl. destruct (tree_ok_new name false w Hok) as [Hok1 Hno]. unfold sub_lab. simpl in *.
  assert (Hne : lab_ref l <> next_ref w) by (intros E; apply Hno; rewrite <- E; apply Hl).
  split; [|unfold real; simpl; rewrite lookup_insert_ne by done; rewrite lookup_insert_eq; by eexists].
  apply (tree_ok_link (lab_new name false w).1 l (LabHandle name false (next_ref w))); [done| | |].
  - unfold real. simpl. by rewrite lookup_insert_ne.
  - unfold real. simpl. rewrite lookup_insert_eq. by eexists.
  - simpl. intros Hr. inversion Hr as [|a b c (i & n & s & Hi & Hs & _) _]; subst; [done|].
    simpl in Hi. rewrite lookup_insert_eq in Hi. by injection Hi as <-.
Qed.

Lemma descend_ok parts w l : tree_ok w -> real w l ->
  tree_ok (descend_or_create l parts w).1 /\ real (descend_or_create l parts w).1 (descend_or_create l parts w).2.
Proof.
  revert w l. induction parts as [|p parts IH]; intros w l Hok Hl; [done|]. cbn [descend_or_create].
  destruct (get_sub_lab w l p) as [s|] eqn:E.
  - apply IH; [done|]. destruct Hl as [i Hi]. unfold get_sub_lab in E. rewrite (real_inner _ _ _ Hi) in E.
    apply (tree_real _ Hok (lab_ref l)). by exists i, p, s.
  - destruct (sub_lab_ok w l p Hok Hl) as [Hok1 Hs]. destruct (sub_lab l p w) as [w1 s]. by apply IH.
Qed.

(** The same without a change of the other states. *)
Lemma tree_ok_set w l i' : tree_ok w -> real w l -> sub_labs i' ⊆ sub_labs (inner w l) -> tree_ok (set_inner l i' w).
Proof. intros Hok Hl Hs. destruct w as [ls ms ns n]. by apply (tree_ok_write (World ls ms ns n)); [| |  |simpl; lia]. Qed.

Lemma lab_step_ok config w w' : tree_ok w -> lab_step config w w' -> tree_ok w'.
Proof.
  intros Hok Hstep.
  destruct Hstep as [name pool|l name Hl|l v Hl|l b Hl|l s Hl Hs Hno|l name Hl|l name Hl|l name Hl|l name prof opts Hl
    |l name prof opts backend Hl|l name Hl|l parts Hl|l name count past Hl|l h joins Hl|l joins Hl|ms|ns].
  - by apply tree_ok_new.
  - unfold create_bridge. destruct (check_reserved_name name); [|done]. destruct (bridges _ !! name); [done|].
    apply tree_ok_write; [done..|lia].
  - unfold include_vm. destruct (check_reserved_name _); [|done]. destruct (vms _ !! _); [done|]. by apply tree_ok_set.
  - unfold include_bridge. destruct (check_reserved_name _); [|done]. destruct (bridges _ !! _); [done|]. by apply tree_ok_set.
  - unfold include_sub_lab. destruct (check_reserved_name _); [|done]. destruct (sub_labs _ !! _); [done|].
    by apply tree_ok_link.
  - by apply tree_ok_set.
  - by apply tree_ok_set.
  - apply tree_ok_set; [done..|]. apply delete_subseteq.
  - unfold create_vm. destruct (check_reserved_name _); [|done]. destruct (config !! prof); [|done].
    destruct (vms _ !! _); [done|]. apply tree_ok_write; [done..|lia].
  - unfold restore_vm. destruct (config !! prof); [|done]. destruct backend as [[cid inst]|]; [|done].
    destruct (vms _ !! _); [done|]. apply tree_ok_write; [done..|lia].
  - unfold sub_lab_checked. destruct (check_reserved_name _); [|done].
    pose proof (sub_lab_ok w l name Hok Hl) as [? _]. by destruct (sub_lab l name w).
  - by apply descend_ok.
  - unfold barrier. destruct (arrive _ _ _). by apply tree_ok_set.
  - unfold boot_finish. destruct (batch _ _); [|done]. destruct h; [|done]. by apply tree_ok_set.
  - by apply tree_ok_set.
  - by apply (tree_ok_same w).
  - by apply (tree_ok_same w).
Qed.

(** * Walks end *)

Lemma mapM_mono {A B} (f g : A -> option B) l out :
  (forall x y, x ∈ l -> f x = Some y -> g x = Some y) -> mapM f l = Some out -> mapM g l = Some out.
Proof.
  intros Hfg Hm. apply mapM_Some in Hm. apply mapM_Some.
  induction Hm as [|x y l k Hxy Hm IH]; constructor.
  - apply Hfg; [left|done].
  - apply IH. intros z t Hz. apply Hfg. by right.
Qed.

Lemma gather_mono n m w l prefix out : (n <= m)%nat -> gather n w l prefix = Some out -> gather m w l prefix = Some out.
Proof.
  revert m l prefix out. induction n as [|n IH]; intros m l prefix out Hle; [done|].
  destruct m as [|m]; [lia|]. cbn [gather]. intros (d & Hd & [= <-])%bind_Some.
  apply bind_Some. exists d. split; [|done]. eapply mapM_mono; [|exact Hd].
  intros [k s] y _ Hy. apply (IH m); [lia|done].
Qed.

(** One depth is enough for a list of walks that each end. *)
Lemma mapM_fuel {A B} (f : nat -> A -> option B) (l : list A) :
  (forall n m x y, (n <= m)%nat -> f n x = Some y -> f m x = Some y) ->
  (forall x, x ∈ l -> exists n, is_Some (f n x)) -> exists n, is_Some (mapM (f n) l).
Proof.
  intros Hmono. induction l as [|x l IH]; intros Hl; [by exists O, []|].
  destruct (Hl x) as (n1 & y & Hy); [left|]. destruct IH as (n2 & k & Hk); [intros z Hz; apply Hl; by right|].
  exists (Nat.max n1 n2), (y :: k). cbn [mapM]. apply bind_Some. exists y. split; [eapply Hmono; [|exact Hy]; lia|].
  apply bind_Some. exists k. split; [|done]. eapply mapM_mono; [|exact Hk]. intros z t _ Hz. eapply Hmono; [|exact Hz]. lia.
Qed.

Lemma child_of w l name s : (name, s) ∈ map_walk (sub_labs (inner w l)) -> child w (lab_ref l) (lab_ref s).
Proof.
  intros Hs%elem_of_map_walk. unfold inner in Hs. destruct (labs w !! lab_ref l) as [i|] eqn:E; [|done].
  by exists i, name, s.
Qed.

Lemma gather_ends w : (forall r, Acc (fun s r => child w r s) r) ->
  forall r l prefix, lab_ref l = r -> exists n, is_Some (gather n w l prefix).
Proof.
  intros Hacc r. induction (Hacc r) as [r _ IH]. intros l prefix <-.
  destruct (mapM_fuel (fun n s => gather n w s.2 (under prefix s.1)) (map_walk (sub_labs (inner w l)))) as (n & d & Hd).
  - intros n m [k s] y Hle. by apply gather_mono.
  - intros [k s] Hks. apply (IH (lab_ref s)); [by apply (child_of w l k)|done].
  - exists (S n). cbn [gather]. rewrite Hd. by eexists.
Qed.

Lemma streams_mono n m w l out : (n <= m)%nat -> open_stream_total n w l = Some out -> open_stream_total m w l = Some out.
Proof.
  revert m l out. induction n as [|n IH]; intros m l out Hle; [done|].
  destruct m as [|m]; [lia|]. cbn [open_stream_total]. intros (d & Hd & [= <-])%bind_Some.
  apply bind_Some. exists d. split; [|done]. eapply mapM_mono; [|exact Hd].
  intros s y _ Hy. apply (IH m); [lia|done].
Qed.

Lemma streams_end w : (forall r, Acc (fun s r => child w r s) r) ->
  forall r l, lab_ref l = r -> exists n, is_Some (open_stream_total n w l).
Proof.
  intros Hacc r. induction (Hacc r) as [r _ IH]. intros l <-.
  destruct (mapM_fuel (fun n => open_stream_total n w) (values (sub_labs (inner w l)))) as (n & d & Hd).
  - intros n m s y Hle. by apply streams_mono.
  - intros s Hs. unfold values in Hs. apply list_elem_of_fmap in Hs as ([k s'] & -> & Hks).
    apply (IH (lab_ref s')); [by apply (child_of w l k)|done].
  - exists (S n). cbn [open_stream_total]. rewrite Hd. by eexists.
Qed.

(** * What a walk gives *)

(** A lab at the end of a path of names. *)
Inductive at_path (w : world) : lab -> list string -> lab -> Prop :=
| at_here l : at_path w l [] l
| at_below l name s path l' :
    sub_labs (inner w l) !! name = Some s -> at_path w s path l' -> at_path w l (name :: path) l'.

Definition flat (prefix : string) (path : list string) (name : string) : string := under (foldl under prefix path) name.

Lemma gather_spec n w l prefix out full v :
  gather n w l prefix = Some out ->
  (full, v) ∈ out <->
  exists path l' name, at_path w l path l' /\ vms (inner w l') !! name = Some v /\ full = flat prefix path name.
Proof.
  revert l prefix out. induction n as [|n IH]; intros l prefix out; [done|].
  cbn [gather]. intros (d & Hd & [= <-])%bind_Some. rewrite elem_of_app. apply mapM_Some in Hd. split.
  - intros [Hin|Hin].
    + apply list_elem_of_fmap in Hin as ([name v'] & [= -> ->] & Hv%elem_of_map_walk). exists [], l, name. split_and!; [constructor|done|done].
    + apply list_elem_of_In, in_concat in Hin as (k & Hk%list_elem_of_In & Hin%list_elem_of_In).
      apply list_elem_of_lookup in Hk as [j Hj]. destruct (Forall2_lookup_r _ _ _ _ _ Hd Hj) as ([name s] & Hs & Hg).
      apply (IH _ _ _ Hg) in Hin. destruct Hin as (path & l1 & nm & Hp & Hv & ->).
      exists (name :: path), l1, nm. split_and!; [|done|done]. eapply at_below; [|done].
      apply elem_of_map_walk. by eapply list_elem_of_lookup_2.
  - intros (path & l' & name & Hp & Hv & ->). destruct Hp as [|l nm s path l' Hs Hp].
    + left. apply list_elem_of_fmap. exists (name, v). by rewrite elem_of_map_walk.
    + right. apply elem_of_map_walk, list_elem_of_lookup in Hs as [j Hj].
      destruct (Forall2_lookup_l _ _ _ _ _ Hd Hj) as (k & Hk & Hg).
      apply list_elem_of_In, in_concat. exists k. split; [by eapply list_elem_of_In, list_elem_of_lookup_2|].
      apply list_elem_of_In, (IH _ _ _ Hg). by exists path, l', name.
Qed.

(** * Flat names lead back *)

Definition no_slash (s : string) : Prop := Forall (fun c => c <> "/"%char) (String.list_ascii_of_string s).
Definition clean (s : string) : Prop := s <> "" /\ no_slash s.

(** No member has a name that is empty or holds a slash. *)
Definition names_clean (w : world) : Prop :=
  forall r i name, labs w !! r = Some i ->
    is_Some (vms i !! name) \/ is_Some (sub_labs i !! name) -> clean name.

Lemma split_slash_ne s : split_slash s <> [].
Proof. destruct s as [|c s]; [done|]. cbn [split_slash]. destruct (c =? "/")%char; [done|]. by destruct (split_slash s). Qed.

Lemma split_slash_app a b : split_slash (a +:+ "/" +:+ b) = split_slash a ++ split_slash b.
Proof.
  induction a as [|c a IH]; [done|]. change (String c a +:+ "/" +:+ b) with (String c (a +:+ "/" +:+ b)).
  cbn [split_slash]. rewrite IH. destruct (c =? "/")%char; [done|].
  pose proof (split_slash_ne a). by destruct (split_slash a).
Qed.

Lemma split_slash_none s : no_slash s -> split_slash s = [s].
Proof.
  unfold no_slash. induction s as [|c s IH]; [done|]. cbn [String.list_ascii_of_string split_slash].
  intros [Hc Hs]%Forall_cons. rewrite IH by done. by apply Ascii.eqb_neq in Hc as ->.
Qed.

Lemma split_flat prefix path name :
  prefix <> "" -> Forall clean path -> clean name ->
  split_slash (flat prefix path name) = split_slash prefix ++ path ++ [name].
Proof.
  intros Hp Hpath [_ Hname]. revert prefix Hp. unfold flat.
  induction Hpath as [|p path [Hpne Hp] Hpath IH]; intros prefix Hprefix; simpl.
  - unfold under. rewrite decide_False by done. by rewrite split_slash_app, (split_slash_none name).
  - rewrite IH.
    + unfold under. rewrite decide_False by done. by rewrite split_slash_app, (split_slash_none p), <- app_assoc.
    + unfold under. rewrite decide_False by done. by destruct prefix.
Qed.

Lemma split_flat_root path name :
  Forall clean path -> clean name -> split_sub_lab_path (flat "" path name) = (path, name).
Proof.
  intros Hpath Hname. unfold split_sub_lab_path.
  assert (split_slash (flat "" path name) = path ++ [name]) as ->.
  { destruct Hpath as [|p path [Hpne Hp] Hpath].
    - unfold flat. simpl. by rewrite split_slash_none by apply Hname.
    - change (flat "" (p :: path) name) with (flat p path name).
      by rewrite split_flat, (split_slash_none p). }
  by rewrite removelast_last, last_last.
Qed.

Lemma at_path_clean w l path l' :
  names_clean w -> at_path w l path l' ->
  Forall clean path /\ (forall name v, vms (inner w l') !! name = Some v -> clean name) /\
  descend_or_create l path w = (w, l').
Proof.
  intros Hc Hp. induction Hp as [l|l name s path l' Hs Hp IH].
  - split_and!; [constructor| |done]. intros name v Hv. unfold inner in Hv.
    destruct (labs w !! lab_ref l) as [i|] eqn:E; [|done]. apply (Hc _ _ _ E). left. by eexists.
  - destruct IH as (IH1 & IH2 & IH3). split_and!; [|done|].
    + constructor; [|done]. unfold inner in Hs. destruct (labs w !! lab_ref l) as [i|] eqn:E; [|done].
      apply (Hc _ _ _ E). right. by eexists.
    + cbn [descend_or_create]. unfold get_sub_lab. by rewrite Hs.
Qed.

(** Flat names lead back to their machines. Whatever was done to the labs
    of a file, short of putting a lab under itself, the walk over a lab ends,
    as does the count of its open streams; it finds exactly the machines at the
    end of some path of sub-labs. If no name is empty or holds a slash, the
    parts of a flat name are that path and the machine's name, following them
    changes nothing and finds that machine, and no flat name is given twice. *)
Lemma flat_names_resolve config w l :
  rtc (lab_step config) world_new w ->
  exists n out streams,
    collect_all_vms n w l = Some out /\ open_stream_total n w l = Some streams /\
    (forall full v, (full, v) ∈ out <->
       exists path l' name, at_path w l path l' /\ vms (inner w l') !! name = Some v /\ full = flat "" path name) /\
    (names_clean w ->
       (forall full v, (full, v) ∈ out ->
          let '(path, name) := split_sub_lab_path full in
          exists l', descend_or_create l path w = (w, l') /\ get_vm w l' name = Ok v) /\
       (forall full v v', (full, v) ∈ out -> (full, v') ∈ out -> v = v')).
Proof.
  intros Hrun.
  assert (Hok : tree_ok w).
  { eapply (rtc_invariant tree_ok (lab_step config)); [intros; by eapply lab_step_ok| |done].
    split; [|intros r1 r2 (i & ? & ? & Hi & _); done|intros r [? Hr]; done].
    intros r. constructor. intros s (i & ? & ? & Hi & _). done. }
  destruct (gather_ends w (tree_acc w Hok) _ l "" eq_refl) as (n1 & out & Hout).
  destruct (streams_end w (tree_acc w Hok) _ l eq_refl) as (n2 & st & Hst).
  exists (Nat.max n1 n2), out, st. split; [eapply gather_mono; [|exact Hout]; lia|].
  split; [eapply streams_mono; [|exact Hst]; lia|].
  assert (Hspec : forall full v, (full, v) ∈ out <->
       exists path l' name, at_path w l path l' /\ vms (inner w l') !! name = Some v /\ full = flat "" path name).
  { intros full v. by eapply gather_spec. }
  split; [done|]. intros Hc.
  assert (Hback : forall full v, (full, v) ∈ out ->
          let '(path, name) := split_sub_lab_path full in
          exists l', descend_or_create l path w = (w, l') /\ get_vm w l' name = Ok v).
  { intros full v (path & l' & name & Hp & Hv & ->)%Hspec. destruct (at_path_clean _ _ _ _ Hc Hp) as (Hcp & Hcn & Hd).
    rewrite split_flat_root by eauto. exists l'. split; [done|]. unfold get_vm. by rewrite Hv. }
  split; [done|]. intros full v v' Hv%Hback Hv'%Hback. destruct (split_sub_lab_path full) as [path name].
  destruct Hv as (l1 & Hd & Hg), Hv' as (l2 & Hd' & Hg'). rewrite Hd in Hd'. injection Hd' as <-. congruence.
Qed.

(** * Joint boots *)

Definition due (w : world) (all : list (string * vm)) : list vm :=
  filter (fun v => vm_state_of w v = Some Created) all.*2.

Definition sized (v : vm) : Prop := 0 <= (sizing (vm_opts v)).1 /\ 0 <= (sizing (vm_opts v)).2.

Lemma boot_amount_nonneg v : sized v -> 0 <= memory_bytes (boot_amount (vm_opts v)) /\ 0 <= cpus (boot_amount (vm_opts v)).
Proof.
  unfold sized, boot_amount. destruct (sizing (vm_opts v)) as [m c]. simpl. intros [Hm Hc]. split; [|done].
  unfold sat_add, VMM_OVERHEAD_BYTES, u64_max. lia.
Qed.

(** The saturating sum of what each machine still to be booted would reserve
    on its own. *)
Lemma boot_needed_sum w all : Forall sized all.*2 ->
  boot_needed w all =
  RA (Z.min u64_max (lsum (fun v => memory_bytes (boot_amount (vm_opts v))) (due w all)))
     (Z.min u32_max (lsum (fun v => cpus (boot_amount (vm_opts v))) (due w all))).
Proof.
  intros Hall.
  assert (Hgen : forall m c, 0 <= m <= u64_max -> 0 <= c <= u32_max ->
    foldl (add_due w) (RA m c) all =
    RA (Z.min u64_max (m + lsum (fun v => memory_bytes (boot_amount (vm_opts v))) (due w all)))
       (Z.min u32_max (c + lsum (fun v => cpus (boot_amount (vm_opts v))) (due w all)))).
  2:{ unfold boot_needed, ra_zero. rewrite Hgen by (unfold u64_max, u32_max; lia). by rewrite !Z.add_0_l. }
  unfold due. induction all as [|[name v] all IH]; intros m c Hm Hc; cbn [foldl fmap list_fmap].
  - simpl. f_equal; lia.
  - simpl in Hall. apply Forall_cons in Hall as [Hv Hall]. rewrite filter_cons. unfold add_due at 2. simpl snd.
    destruct (decide (vm_state_of w v = Some Created)) as [Hst|Hst]; [|by apply IH].
    destruct (boot_amount_nonneg v Hv) as [H1 H2]. unfold saturating_add at 1. cbn [memory_bytes cpus].
    rewrite IH by (done || (unfold sat_add, u64_max, u32_max in *; lia)).
    assert (0 <= lsum (fun v => memory_bytes (boot_amount (vm_opts v))) (filter (fun v => vm_state_of w v = Some Created) all.*2) /\
            0 <= lsum (fun v => cpus (boot_amount (vm_opts v))) (filter (fun v => vm_state_of w v = Some Created) all.*2)) as [? ?].
    { split; apply lsum_nonneg; intros x [_ Hx]%list_elem_of_filter; rewrite Forall_forall in Hall; by apply boot_amount_nonneg, Hall. }
    unfold lsum in *. cbn [foldr]. unfold sat_add. f_equal; lia.
Qed.

Lemma acquire_granted now s o amt sink s' sink' r :
  acquire_inner now s o amt sink = (s', sink', Granted r) -> r = Reservation amt o.
Proof. unfold acquire_inner, acquire_poll. intros. repeat case_match; simplify_eq/=; done. Qed.

Lemma reserve_held now s a amt sink s' a' sink' h :
  reserve now s (Some a) amt sink = (s', a', sink', Held h) -> hold_amount h = amt.
Proof.
  unfold reserve, slice. intros H.
  destruct (budget a) as [b|] eqn:Eb.
  - destruct (negb _); simplify_eq/=. done.
  - destruct (acc_owner a); destruct (acquire_inner _ _ _ _ _) as [[s1 k1] []] eqn:E; simplify_eq/=;
      try (apply acquire_granted in E; by subst).
Qed.

Lemma failures_none joins m :
  foldl failure m joins = ∅ <-> m = ∅ /\ Forall (fun j => exists name, j = Finished name (Ok ())) joins.
Proof.
  revert m. induction joins as [|j joins IH]; intros m; cbn [foldl].
  - split; [by intros ->|by intros [-> _]].
  - rewrite IH, Forall_cons. destruct j as [name [[]|e]|]; cbn [failure].
    + split; [intros [-> ?]; eauto|intros (-> & _ & ?); done].
    + split; [intros [E _]; by apply insert_non_empty in E|]. by intros (_ & [? ?] & _).
    + split; [intros [E _]; by apply insert_non_empty in E|]. by intros (_ & [? ?] & _).
Qed.

Lemma batch_ok action joins : batch action joins = Ok () <-> Forall (fun j => exists name, j = Finished name (Ok ())) joins.
Proof.
  unfold batch. destruct (decide _) as [E|E]; rewrite failures_none in E.
  - split; [intros _; apply E|done].
  - split; [done|]. intros H. by destruct E.
Qed.

(** Every failure is reported under the member's name. *)
Lemma failures_named joins m name :
  NoDup (omap (fun j => match j with Finished n _ => Some n | Panicked => None end) joins) ->
  name <> "<panicked>" -> m !! name = None ->
  forall e, foldl failure m joins !! name = Some (MemberError e) <-> Finished name (Err e) ∈ joins.
Proof.
  revert m. induction joins as [|j joins IH]; intros m Hnd Hne Hm e; cbn [foldl].
  { rewrite Hm. split; [done|by intros ?%elem_of_nil]. }
  rewrite elem_of_cons. destruct j as [n r|]; cbn [omap list_omap] in Hnd; cbn [failure].
  - apply NoDup_cons in Hnd as [Hn Hnd]. destruct r as [[]|e'].
    + rewrite IH by done. split; [auto|by intros [[=]|?]].
    + destruct (decide (n = name)) as [->|Hnn].
      * assert (Hkeep : foldl failure (<[name := MemberError e']> m) joins !! name = Some (MemberError e')).
        { assert (Hg : forall m, m !! name = Some (MemberError e') -> foldl failure m joins !! name = Some (MemberError e')).
          2:{ apply Hg. by rewrite lookup_insert_eq. }
          clear IH. induction joins as [|j joins IH]; intros m' Hm'; [done|]. cbn [foldl].
          destruct j as [n' r'|]; cbn [omap list_omap] in Hn, Hnd.
          - apply not_elem_of_cons in Hn as [Hnn Hn]. apply NoDup_cons in Hnd as [_ Hnd]. apply IH; [done|done|].
            destruct r' as [[]|e'']; cbn [failure]; [done|by rewrite lookup_insert_ne].
          - apply IH; [done|done|]. cbn [failure]. by rewrite lookup_insert_ne. }
        rewrite Hkeep. split.
        -- intros [= ->]. by left.
        -- intros [[= ->]|Hin]; [done|]. destruct Hn. apply list_elem_of_omap. by exists (Finished name (Err e)).
      * rewrite IH by (done || by rewrite lookup_insert_ne). split; [auto|]. intros [[=]|?]; [congruence|done].
  - rewrite IH by (done || by rewrite lookup_insert_ne). split; [auto|by intros [[=]|?]].
Qed.

Definition opt_hold (h : option hold) : list hold := match h with Some h => [h] | None => [] end.

(** A joint boot pays for the machines it starts and no more. Its request
    is the sum, capped at the width of the counters, of what each machine still
    to be booted would reserve on its own, those already up adding nothing; what
    it is granted is that amount; the reservation stays with the lab exactly
    when every thread succeeded and goes back to the pool otherwise; every
    member that failed is named with its error; and a shutdown gives back every
    reservation of the lab however its threads ended. *)
Lemma lab_boot_charges now pool acc sink w l out h pool' acc' sink' joins :
  Forall sized out.*2 ->
  boot_reserve now (Some pool) acc (boot_needed w out) sink = (pool', acc', sink', BootGo h) ->
  let needed := RA (Z.min u64_max (lsum (fun v => memory_bytes (boot_amount (vm_opts v))) (due w out)))
                   (Z.min u32_max (lsum (fun v => cpus (boot_amount (vm_opts v))) (due w out))) in
  let '(w1, r, dropped) := boot_finish l h joins w in
  (hold_amount <$> opt_hold h) = (if is_zero needed then [] else [needed]) /\
  boot_reservations (inner w1 l) ++ dropped = boot_reservations (inner w l) ++ opt_hold h /\
  (dropped = [] \/ r <> Ok ()) /\
  (r = Ok () <-> Forall (fun j => exists name, j = Finished name (Ok ())) joins) /\
  (forall failures name e, r = Err (BatchFailed "boot" failures) ->
     NoDup (omap (fun j => match j with Finished n _ => Some n | Panicked => None end) joins) -> name <> "<panicked>" ->
     failures !! name = Some (MemberError e) <-> Finished name (Err e) ∈ joins) /\
  (forall joins', let '(w2, _, back) := shutdown_finish l joins' w1 in
     boot_reservations (inner w2 l) = [] /\ back = boot_reservations (inner w1 l)).
Proof.
  intros Hs Hr needed. rewrite boot_needed_sum in Hr by done. fold needed in Hr.
  assert (Hamt : (hold_amount <$> opt_hold h) = if is_zero needed then [] else [needed]).
  { unfold boot_reserve in Hr. destruct (is_zero needed); [by simplify_eq|].
    destruct (reserve _ _ _ _ _) as [[[s1 a1] k1] t] eqn:E. destruct t; simplify_eq. simpl.
    apply reserve_held in E. by rewrite E. }
  assert (Hset : forall x w, boot_reservations (inner (set_inner l (set_boot_reservations x (inner w l)) w) l) = x).
  { intros x w0. unfold inner at 1. simpl. by rewrite lookup_insert_eq. }
  unfold boot_finish. destruct (batch "boot" joins) as [[]|e] eqn:Eb.
  - destruct h as [h|]; split_and!; try done; rewrite ?Hset, ?app_nil_r; try done; try (by left);
      try (split; [intros _; by apply (batch_ok "boot")|done]); intros joins'; unfold shutdown_finish; by rewrite !Hset.
  - split_and!; try done; [by right| |].
    + split; [done|]. intros Hall%(batch_ok "boot"). congruence.
    + intros failures name e' [= ->] Hnd Hne. unfold batch in Eb. destruct (decide _); [done|]. injection Eb as <-.
      by apply failures_named.
Qed.

(** * Examples *)

Definition demo_config : gmap string profile :=
  {["peios" := Profile "/k" "/i" None [] "quiet" None "peios" true None None None None None]}.

Definition root_lab : lab := LabHandle "provium" true 0.
Definition dc1 : lab := LabHandle "dc1" false 2.

(** A machine [top] in the root and [web] in the sub-lab [dc1]. *)
Definition demo_ops : list (world -> world) :=
  [fun w => (lab_new "provium" true w).1;
   fun w => (create_vm demo_config root_lab "top" "peios" boot_opts_default w).1;
   fun w => (sub_lab_checked root_lab "dc1" w).1;
   fun w => (create_vm demo_config dc1 "web" "peios" boot_opts_default w).1].

Definition demo_world : world := foldl (fun w f => f w) world_new demo_ops.

Lemma demo_world_steps : rtc (lab_step demo_config) world_new demo_world.
Proof.
  eapply rtc_l; [apply (LNew _ _ "provium" true)|].
  eapply rtc_l; [apply (LCreateVm _ _ root_lab "top" "peios" boot_opts_default); by eexists|].
  eapply rtc_l; [apply (LSubLab _ _ root_lab "dc1"); by eexists|].
  eapply rtc_l; [apply (LCreateVm _ _ dc1 "web" "peios" boot_opts_default); by eexists|].
  apply rtc_refl.
Qed.

Lemma no_slash_check s : forallb (fun c => negb (c =? "/")%char) (String.list_ascii_of_string s) = true -> no_slash s.
Proof.
  unfold no_slash. induction (String.list_ascii_of_string s) as [|c l IH]; simpl; [constructor|].
  rewrite andb_true_iff, negb_true_iff. intros [Hc Hl]. constructor; [by apply Ascii.eqb_neq|auto].
Qed.

Lemma demo_names_clean : names_clean demo_world.
Proof.
  intros r i name Hi Hn.
  assert (Hnm : name = "top" \/ name = "web" \/ name = "dc1").
  { apply elem_of_map_to_list in Hi. vm_compute in Hi. 
    repeat (apply elem_of_cons in Hi as [[= -> ->]|Hi]); [..|by apply elem_of_nil in Hi].
    all: destruct Hn as [[? Hn]|[? Hn]]; apply elem_of_map_to_list in Hn; vm_compute in Hn;
      repeat (apply elem_of_cons in Hn as [[= -> _]|Hn]); auto; by apply elem_of_nil in Hn. }
  destruct Hnm as [->|[->| ->]]; (split; [done|by apply no_slash_check]).
Qed.

Lemma flat_names_resolve_witness :
  rtc (lab_step demo_config) world_new demo_world /\
  exists n out v, collect_all_vms n demo_world root_lab = Some out /\ ("dc1/web", v) ∈ out /\
    split_sub_lab_path "dc1/web" = (["dc1"], "web") /\ vm_ref v = 3.
Proof.
  split; [apply demo_world_steps|].
  destruct (flat_names_resolve demo_config demo_world root_lab demo_world_steps) as (n & out & st & Hc & _ & Hspec & Hclean).
  destruct (Hclean demo_names_clean) as [Hback _].
  exists n, out, (VmHandle "web" "peios" boot_opts_default false 3). split; [done|]. split; [|done].
  apply Hspec. exists ["dc1"], dc1, "web". split; [|done]. eapply at_below; [|constructor]. done.
Defined.

(** The root and the sub-lab both have something to boot. *)
Lemma lab_boot_charges_witness :
  let out := default [] (collect_all_vms 3 demo_world root_lab) in
  Forall sized out.*2 /\
  boot_needed demo_world out = RA (2 * (512 + 100) * 1024 * 1024) 2 /\
  exists h pool' acc' sink', boot_reserve 0 (Some (pool_new (RA (4 * 1024 * 1024 * 1024) 4))) (Account (Some 1) false None)
      (boot_needed demo_world out) None = (pool', acc', sink', BootGo (Some h)) /\
    (boot_finish root_lab (Some h) [Finished "top" (Ok ()); Finished "dc1/web" (Ok ())] demo_world).1.2 = Ok () /\
    hold_amount h = RA (2 * (512 + 100) * 1024 * 1024) 2.
Proof.
  cbv zeta.
  assert (Hsized : Forall sized (default [] (collect_all_vms 3 demo_world root_lab)).*2).
  { vm_compute. repeat constructor; discriminate. }
  split; [exact Hsized|]. split; [vm_compute; reflexivity|].
  destruct (boot_reserve _ _ _ _ _) as [[[pool' acc'] sink'] t] eqn:E.
  destruct t as [[h|]|e|k]; [|vm_compute in E; discriminate E..].
  pose proof (lab_boot_charges 0 _ _ _ demo_world root_lab _ (Some h) _ _ _
                [Finished "top" (Ok ()); Finished "dc1/web" (Ok ())] Hsized E) as Hx.
  cbv zeta in Hx. destruct (boot_finish _ _ _ _) as [[w1 r] dropped] eqn:Eb.
  destruct Hx as (Hamt & _ & _ & Hr & _).
  exists h, pool', acc', sink'. split; [|split].
  - reflexivity.
  - rewrite Eb. apply Hr. repeat constructor; by eexists.
  - assert (H1 : [hold_amount h] = [RA (2 * (512 + 100) * 1024 * 1024) 2])
      by (etransitivity; [exact Hamt|vm_compute; reflexivity]).
    by injection H1.
Defined.

(** A lab included in itself: the walk over it never ends. *)
Definition looped : world := (include_sub_lab root_lab root_lab (lab_new "provium" true world_new).1).1.

Lemma self_include_never_ends n prefix : gather n looped root_lab prefix = None.
Proof.
  revert prefix. induction n as [|n IH]; intros prefix; [done|].
  change (gather (S n) looped root_lab prefix) with
    (deeper ← (y ← gather n looped root_lab (under prefix "provium"); k ← Some []; Some (y :: k));
     Some (((fun v : string * vm => (under prefix v.1, v.2)) <$> []) ++ concat deeper)).
  by rewrite IH.
Qed.

(** A second sub-lab under a name takes the first one's place: what is in the
    first is out of reach of every batch operation. *)
Example sub_lab_replaced :
  let w := (sub_lab_checked root_lab "dc1" demo_world).1 in
  collect_all_vms 3 w root_lab = Some [("top", VmHandle "top" "peios" boot_opts_default true 1)] /\
  is_Some (machines w !! 3).
Proof. split; [vm_compute; reflexivity|by eexists]. Qed.

(** Nothing keeps a slash out of a name: two machines of one lab, one flat
    name, and one of them restored in the place of the other. *)
Example slash_names_collide :
  let w := (create_vm demo_config root_lab "dc1/web" "peios" boot_opts_default demo_world).1 in
  (fst <$> default [] (collect_all_vms 3 w root_lab)) = ["dc1/web"; "top"; "dc1/web"].
Proof. vm_compute. reflexivity. Qed.

(** A second joint boot: the machine that is up refuses to boot again, so the
    call fails, and the reservation for the one it did start is dropped. *)
Example second_boot_unaccounted h :
  let '(up, j1) := boot_member "top" "top" [] (Ok (3, 1)) (from_running 3 1) in
  let '(new, j2) := boot_member "dc1/web" "web" [] (Ok (4, 2)) vm_new in
  let '(_, r, dropped) := boot_finish root_lab (Some h) [j1; j2] demo_world in
  state up = Booted /\ state new = Booted /\ Vm.boot_reservation new = None /\ dropped = [h] /\
  r = Err (BatchFailed "boot" {["top" := MemberError (WrongState "top" Booted "boot")]}).
Proof. vm_compute. auto. Qed.
