(* ===== verification/LabSnap.v ===== *)
(** Whole-lab snapshots, [lab_snapshot] and [lab_restore] of
    [src/provium-host/src/lab.rs]: what is written down and what comes back. *)
From Stdlib Require Import Ascii.
From stdpp Require Import sorting pretty.
From S2P Require Import Prelude Names Pool Claims Cpio Qmp VmOpts Vm Bridge BridgeNet Profile Barrier Lab.

Open Scope string_scope.
Open Scope list_scope.
Open Scope Z_scope.

(** * The metadata *)

Record lab_snapshot_directional := LabSnapshotDirectional {
  sd_from : string; sd_to : string; sd_latency : Z; sd_drop : Z; sd_bps : Z }.

Record lab_snapshot_bridge := LabSnapshotBridge {
  sb_name : string;
  sb_members : list string;
  sb_latency : Z;
  sb_drop : Z;
  sb_bps : Z;
  sb_uplink : bool;
  sb_routes : list string;
  sb_isolated : list string;
  sb_partitions : list (string * string);
  sb_directional_partitions : list (string * string);
  sb_directional : list lab_snapshot_directional;
  sb_fully : bool;
}.

Record lab_snapshot_entry := LabSnapshotEntry { se_vm : string; se_profile : string; se_path : string }.
Record lab_snapshot_meta := LabSnapshotMeta { meta_vms : list lab_snapshot_entry; meta_bridges : list lab_snapshot_bridge }.

(** * Capturing a bridge *)

Fixpoint pairs_of (ms : list string) : list (string * string) :=
  match ms with
  | [] => []
  | a :: rest => ((fun c => (a, c)) <$> rest) ++ pairs_of rest
  end.

(** [directional_pairs]: by the order of the pairs. *)
Definition directional_pairs (b : bridge) : list (string * string * impairment) :=
  omap (fun k => (fun d => (k, d)) <$> directional b !! k) (pairs_in_order (dom (directional b))).

Definition impaired (d : impairment) : bool := (0 <? di_latency d) || (0 <? di_drop d) || (0 <? di_bps d).

Definition capture_bridge (name : string) (b : bridge) : lab_snapshot_bridge :=
  let ms := Bridge.members b in
  LabSnapshotBridge name ms (latency_ms b) (drop_rate_pct b) (bandwidth_bps b) (uplink_enabled b)
    (in_order (routed_to b))
    (filter (fun m => m ∈ isolated b) ms)
    (if fully_partitioned b then [] else filter (fun p => is_partitioned p.1 p.2 b = true) (pairs_of ms))
    (pairs_in_order (directional_partitions b))
    ((fun kd => LabSnapshotDirectional kd.1.1 kd.1.2 (di_latency kd.2) (di_drop kd.2) (di_bps kd.2)) <$>
       filter (fun kd => impaired kd.2 = true) (directional_pairs b))
    (fully_partitioned b).

(** * Restoring a bridge *)

Definition opt_call (c : bool) (call : bridge_call) : list bridge_call := if c then [call] else [].

Definition directional_calls (d : lab_snapshot_directional) : list bridge_call :=
  opt_call (0 <? sd_latency d) (CLatencyDir (sd_from d) (sd_to d) (sd_latency d)) ++
  opt_call (0 <? sd_drop d) (CDropRateDir (sd_from d) (sd_to d) (sd_drop d)) ++
  opt_call (0 <? sd_bps d) (CBandwidthDir (sd_from d) (sd_to d) (sd_bps d)).

(** The step that re-applies the impairments, the uplink, the routes, the
    isolation and the partitions. *)
Definition reapply (s : lab_snapshot_bridge) : list bridge_call :=
  opt_call (0 <? sb_latency s) (CLatency (sb_latency s)) ++
  opt_call (0 <? sb_drop s) (CDropRate (sb_drop s)) ++
  opt_call (0 <? sb_bps s) (CBandwidth (sb_bps s)) ++
  (CRoute <$> sb_routes s) ++
  (CIsolate <$> sb_isolated s) ++
  ((fun p => CPartition p.1 p.2) <$> sb_partitions s) ++
  ((fun p => CPartitionDir p.1 p.2) <$> sb_directional_partitions s) ++
  (d ← sb_directional s; directional_calls d) ++
  opt_call (sb_fully s) CPartitionAll ++
  opt_call (sb_uplink s) CEnableUplink.

(** Everything a restore calls on one bridge, from the attachments on. *)
Definition restore_calls (s : lab_snapshot_bridge) : list bridge_call :=
  (CAttach <$> sb_members s) ++ (CRealize <$> sb_members s) ++ reapply s.

(** * The whole lab *)

(** [name.replace('/', "_")]. *)
Fixpoint safe_name (s : string) : string :=
  match s with
  | EmptyString => EmptyString
  | String c s => String (if (c =? "/")%char then "_"%char else c) (safe_name s)
  end.

Definition snap_path (dir name : string) : string := path_join dir (safe_name name +:+ ".snap").

(** The threads joined in order; the first error is the call's. *)
Fixpoint join_all {A E} (rs : list (result A E)) : result (list A) E :=
  match rs with
  | [] => Ok []
  | Ok a :: rs => match join_all rs with Ok l => Ok (a :: l) | Err e => Err e end
  | Err e :: _ => Err e
  end.

Definition snapshot_entry (dir : string) (v : string * vm) (taken : result () string) : result lab_snapshot_entry lab_error :=
  match taken with
  | Err e => Err (RestoreFailed v.1 e)
  | Ok _ => Ok (LabSnapshotEntry v.1 (profile_name v.2) (snap_path dir v.1))
  end.

Definition newline : string := String (ascii_of_nat 10) "".

(** What is said of the streams of the lab's own machines. *)
Definition streams_detail (w : world) (l : lab) (streams : Z) : string :=
  foldl (fun acc v =>
           match machines w !! vm_ref v with
           | Some (_, r) => foldl (fun acc m => acc +:+ "  - " +:+ format_stream_meta m +:+ newline) acc (streams_snapshot r)
           | None => acc
           end) ("lab:snapshot: " +:+ pretty streams +:+ " stream(s) still open" +:+ newline) (lab_vms w l)
  +:+ "  Close streams before snapshotting.".

(** [lab_snapshot] of a lab whose members are [all] and whose open streams are
    [streams]. [taken] is how the snapshot of each machine ends, and [written]
    how the metadata file is written. Pausing and resuming the machines around
    it is best effort. *)
Definition lab_snapshot (dir : string) (w : world) (l : lab) (all : list (string * vm)) (streams : Z)
    (created : result () string) (taken : list (result () string)) (written : result () string)
  : result lab_snapshot_meta lab_error :=
  match created with
  | Err e => Err (RestoreFailed "snapshot" e)
  | Ok _ =>
      if 0 <? streams then Err (RestoreFailed "lab" (streams_detail w l streams))
      else
        match join_all (zip_with (snapshot_entry dir) all taken) with
        | Err e => Err e
        | Ok entries =>
            let meta := LabSnapshotMeta entries
              (omap (fun nb => capture_bridge nb.1 <$> networks w !! bh_ref nb.2) (map_walk (bridges (inner w l)))) in
            match written with Err e => Err (RestoreFailed "snapshot meta" e) | Ok _ => Ok meta end
        end
  end.

(** The refusal of names in use, which builds the missing sub-labs. *)
Fixpoint preflight (l : lab) (entries : list lab_snapshot_entry) (w : world) : world * result () lab_error :=
  match entries with
  | [] => (w, Ok ())
  | e :: entries =>
      let '(path, leaf) := split_sub_lab_path (se_vm e) in
      let '(w1, target) := descend_or_create l path w in
      match vms (inner w1 target) !! leaf with
      | Some _ => (w1, Err (DuplicateVmName (se_vm e)))
      | None => preflight l entries w1
      end
  end.

Section host.
Context {H : Type} `{!Host H}.

(** Calls on the state behind a bridge handle. *)
Definition on_bridge (b : bridge_handle) (cs : list bridge_call) (s : world * H) : world * H :=
  match networks s.1 !! bh_ref b with
  | None => s
  | Some n =>
      let r := do_calls cs (n, s.2) in
      (World (labs s.1) (machines s.1) (<[bh_ref b := r.1]> (networks s.1)) (next_ref s.1), r.2)
  end.

(** Calls on the bridge under a name, if it is there. *)
Definition on_named (l : lab) (name : string) (cs : list bridge_call) (s : world * H) : world * H :=
  match get_bridge s.1 l name with Ok b => on_bridge b cs s | Err _ => s end.

Fixpoint restore_bridges (l : lab) (bs : list lab_snapshot_bridge) (s : world * H) : (world * H) * result () lab_error :=
  match bs with
  | [] => (s, Ok ())
  | b :: bs =>
      match (match get_bridge s.1 l (sb_name b) with
             | Ok _ => (s.1, Ok ())
             | Err _ => match create_bridge l (sb_name b) s.1 with
                        | (w1, Ok _) => (w1, Ok ())
                        | (w1, Err e) => (w1, Err e)
                        end
             end) with
      | (w1, Err e) => ((w1, s.2), Err e)
      | (w1, Ok _) => restore_bridges l bs (on_named l (sb_name b) (CAttach <$> sb_members b) (w1, s.2))
      end
  end.

(** The network cards of a restored machine: the bridges whose members have its
    flat name. *)
Definition restored_nics (w : world) (l : lab) (flat leaf : string) (bs : list lab_snapshot_bridge) : list nic_attachment :=
  (fun b => NicAttachment (sb_name b)
              (match get_bridge w l (sb_name b) with Ok h => Some (bh_name h) | Err _ => None end)
              (leaf +:+ "-" +:+ sb_name b) None) <$> filter (fun b => flat ∈ sb_members b) bs.

Definition restored_opts (nics : list nic_attachment) : boot_opts :=
  BootOpts None None None None [] None None None nics [].

(** The threads that restore the machines, each one's backend ending as given;
    they touch different machines, and the results are joined in order. *)
Fixpoint restore_members (config : gmap string profile) (l : lab) (bs : list lab_snapshot_bridge)
    (entries : list (lab_snapshot_entry * result (Z * Z) string)) (w : world) : world * list (result vm lab_error) :=
  match entries with
  | [] => (w, [])
  | (e, backend) :: entries =>
      let '(path, leaf) := split_sub_lab_path (se_vm e) in
      let '(w1, target) := descend_or_create l path w in
      let '(w2, r) := restore_vm config target leaf (se_profile e) (restored_opts (restored_nics w1 l (se_vm e) leaf bs)) backend w1 in
      let '(w3, rs) := restore_members config l bs entries w2 in
      (w3, r :: rs)
  end.

(** [VmmError]'s texts, and those of the errors [Vm::resume] gives, which are
    these two alone. *)
Definition show_vmm_error (show_qmp : qmp_error -> string) (e : vmm_error) : string :=
  match e with
  | Unimplemented what => "VMM operation not yet implemented: " +:+ what
  | VmmIo k => "VMM I/O: " +:+ k
  | VmmQmp e => "QMP: " +:+ show_qmp e
  | MissingProfilePath field path => "missing path `" +:+ path +:+ "` (profile field `" +:+ field +:+ "`)"
  | KernelSource why => "kernel: " +:+ why
  | MissingDisk id path => "disk `" +:+ id +:+ "`: no image at `" +:+ path +:+ "` (provium does not create one)"
  | DiskConflict id => "disk id `" +:+ id +:+ "` is already attached by the profile; give the boot's disk a different id"
  | AgentOverlay why => "agent overlay: " +:+ why
  end.
Definition show_resume_error (show_qmp : qmp_error -> string) (e : vm_error) : string :=
  match e with
  | WrongState vm st action => format_wrong_state vm st action
  | VVmm e => "vmm: " +:+ show_vmm_error show_qmp e
  | _ => ""
  end.

(** The threads that resume the restored machines; [answer] is what a backend
    says, if [Vm::resume] asks it. *)
Fixpoint resume_vms (answer : vm -> result () vmm_error) (vs : list vm) (ms : gmap Z (vm_inner * registry))
  : gmap Z (vm_inner * registry) * list (outcome ()) :=
  match vs with
  | [] => (ms, [])
  | v :: vs =>
      let '(i, g) := default (vm_new, registry_new) (ms !! vm_ref v) in
      let '(i', o) := resume (vm_name v) (answer v) i in
      let '(ms', os) := resume_vms answer vs (<[vm_ref v := (i', g)]> ms) in
      (ms', o :: os)
  end.

Definition resume_joined (show_qmp : qmp_error -> string) (o : outcome ()) : result () lab_error :=
  match o with
  | Ret (Ok _) => Ok ()
  | Ret (Err e) => Err (RestoreFailed "lab" ("resume after restore: " +:+ show_resume_error show_qmp e))
  | Panic _ => Err (RestoreFailed "lab" "resume thread panicked")
  end.

Definition resume_results (show_qmp : qmp_error -> string) (os : list (outcome ())) : result () lab_error :=
  match join_all (resume_joined show_qmp <$> os) with Err e => Err e | Ok _ => Ok () end.

(** [backends k] is how the backend of the [k]th machine's restore ends. *)
Definition restore_machines (config : gmap string profile) (l : lab) (meta : lab_snapshot_meta)
    (backends : nat -> result (Z * Z) string) (s : world * H) : (world * H) * result (list vm) lab_error :=
  match preflight l (meta_vms meta) s.1 with
  | (w1, Err e) => ((w1, s.2), Err e)
  | (w1, Ok _) =>
      match restore_bridges l (meta_bridges meta) (w1, s.2) with
      | (s2, Err e) => (s2, Err e)
      | (s2, Ok _) =>
          let '(w3, restored) :=
            restore_members config l (meta_bridges meta) (imap (fun k e => (e, backends k)) (meta_vms meta)) s2.1 in
          ((w3, s2.2), join_all restored)
      end
  end.

Definition lab_restore (show_qmp : qmp_error -> string) (config : gmap string profile) (l : lab) (meta : lab_snapshot_meta)
    (backends : nat -> result (Z * Z) string) (answer : vm -> result () vmm_error) (s : world * H)
  : (world * H) * result () lab_error :=
  match restore_machines config l meta backends s with
  | (s3, Err e) => (s3, Err e)
  | (s3, Ok vs) =>
      let s4 := foldl (fun s b => on_named l (sb_name b) (CRealize <$> sb_members b) s) s3 (meta_bridges meta) in
      let s5 := foldl (fun s b => on_named l (sb_name b) (reapply b) s) s4 (meta_bridges meta) in
      let '(ms, os) := resume_vms answer vs (machines s5.1) in
      ((World (labs s5.1) ms (networks s5.1) (next_ref s5.1), s5.2), resume_results show_qmp os)
  end.
End host.

(** * What the calls record *)

(** A bridge as recorded, without what is on the host and without captures. *)
Definition recorded (b : bridge) : bridge :=
  set_realized false (set_realized_taps ∅ (set_realized_netem None (set_realized_directional ∅
    (set_uplink_realized false (set_captures 0 b))))).

(** What a call of a restore records. *)
Definition effect (c : bridge_call) (b : bridge) : bridge :=
  match c with
  | CAttach vm => set_attached ({[vm]} ∪ attached b) b
  | CLatency ms => set_latency_ms ms b
  | CDropRate pct => set_drop_rate_pct (Z.min pct 100) b
  | CBandwidth bps => set_bandwidth_bps bps b
  | CRoute other => set_routed_to ({[other]} ∪ routed_to b) b
  | CIsolate vm => set_isolated ({[vm]} ∪ isolated b) b
  | CPartition x y => set_partitions ({[canonical_pair x y]} ∪ partitions b) b
  | CPartitionDir from to => set_directional_partitions ({[(from, to)]} ∪ directional_partitions b) b
  | CLatencyDir from to ms => set_axis (fun d => Impairment ms (di_drop d) (di_bps d)) from to b
  | CDropRateDir from to pct => set_axis (fun d => Impairment (di_latency d) (Z.min pct 100) (di_bps d)) from to b
  | CBandwidthDir from to bps => set_axis (fun d => Impairment (di_latency d) (di_drop d) bps) from to b
  | CPartitionAll => set_fully_partitioned true b
  | CEnableUplink => set_uplink_enabled true b
  | _ => b
  end.

Definition restores (c : bridge_call) : Prop :=
  match c with
  | CAttach _ | CLatency _ | CDropRate _ | CBandwidth _ | CRoute _ | CIsolate _ | CPartition _ _ | CPartitionDir _ _
  | CLatencyDir _ _ _ | CDropRateDir _ _ _ | CBandwidthDir _ _ _ | CPartitionAll | CEnableUplink | CRealize _ => True
  | _ => False
  end.

Section recorded.
Context {H : Type} `{!Host H}.
#[local] Abbreviation io := (Bridge.io (H:=H)).

Definition records (r : bridge) (s : bridge * H) : Prop := recorded s.1 = r.

Lemma records_cmd r prog argv : keeps (records r) (run_cmd prog argv).
Proof. intros [b h] Hs. unfold run_cmd. by destruct (exec _ _) as [h' []]. Qed.
Lemma records_modify r f : (forall b, recorded (f b) = recorded b) -> keeps (records r) (modify f).
Proof. intros Hf s Hs. unfold records in *. simpl. by rewrite Hf. Qed.
Lemma records_pure {A} r (f : bridge * H -> (bridge * H) * result A string) :
  (forall s, (f s).1.1 = s.1) -> keeps (records r) (f : io A).
Proof. intros Hf s Hs. unfold records. by rewrite Hf. Qed.

Ltac keep_recorded :=
  keep; match goal with
        | |- keeps _ (run_cmd _ _) => apply records_cmd
        | |- keeps _ (modify _) => apply records_modify; reflexivity
        | |- keeps _ (fun s => run_cmd _ _ s) => intros ? ?; apply records_cmd; assumption
        | |- _ => first [apply records_pure; reflexivity | idtac]
        end.

Lemma realize_records r vm : keeps (records r) (realize_for_vm vm).
Proof. unfold realize_for_vm, run_ip, run_tc, install_htb_with_optional_netem, install_netem_root, run_tc; keep_recorded. Qed.
Lemma netem_records r : keeps (records r) refresh_netem.
Proof. unfold refresh_netem; keep_recorded. Qed.
Lemma bandwidth_records r : keeps (records r) refresh_bandwidth.
Proof. unfold refresh_bandwidth; keep_recorded. apply netem_records. Qed.
Lemma partitions_records r : keeps (records r) refresh_partitions.
Proof. unfold refresh_partitions; keep_recorded. Qed.
Lemma directional_records r : keeps (records r) refresh_directional.
Proof. unfold refresh_directional; keep_recorded. apply realize_records. Qed.
Lemma uplink_records r : keeps (records r) refresh_uplink.
Proof. unfold refresh_uplink, install_uplink; keep_recorded. Qed.

(** A change of the graph, then something that leaves it alone. *)
Lemma modify_then (f : bridge -> bridge) (m : io ()) s :
  (forall r, keeps (records r) m) -> recorded ((modify f;; m) s).1.1 = recorded (f s.1).
Proof. intros Hm. exact (Hm (recorded (f s.1)) (f s.1, s.2) eq_refl). Qed.

Lemma attempt_records (m : io ()) : (forall r, keeps (records r) m) -> forall r, keeps (records r) (attempt m).
Proof. intros Hm r. apply keeps_attempt, Hm. Qed.

Lemma call_effect c s : restores c -> recorded (do_call c s).1.1 = recorded (effect c s.1).
Proof.
  destruct c; try (by intros []); intros _; cbn [do_call effect];
    unfold Bridge.partition, partition_directional, partition_all, isolate, recut, add_latency, drop_rate, bandwidth_limit,
      add_directional_latency, directional_drop_rate, set_directional_bandwidth, enable_uplink, attach, route;
    try (apply modify_then; try apply attempt_records; auto using netem_records, bandwidth_records, partitions_records,
           directional_records, uplink_records); try done;
    try exact (modify_then _ _ s (attempt_records _ partitions_records)).
  match goal with vm : string |- _ => exact (keeps_ignore (records (recorded s.1)) (realize_for_vm vm) (realize_records _ vm) s eq_refl) end.
Qed.

Lemma recorded_effect c b : recorded (effect c b) = effect c (recorded b).
Proof. by destruct c. Qed.

Lemma calls_effect cs s : Forall restores cs ->
  recorded (do_calls cs s).1 = foldl (fun b c => effect c b) (recorded s.1) cs.
Proof.
  revert s. induction cs as [|c cs IH]; intros s Hcs; [done|]. apply Forall_cons in Hcs as [Hc Hcs].
  change (do_calls (c :: cs) s) with (do_calls cs (do_call c s).1). rewrite IH by done. cbn [foldl].
  by rewrite call_effect, recorded_effect.
Qed.
End recorded.

(** * Restoring what was captured *)

#[local] Abbreviation effects b cs := (foldl (fun b c => effect c b) b cs).

Lemma effects_attach b l : effects b (CAttach <$> l) = set_attached (list_to_set l ∪ attached b) b.
Proof.
  revert b. induction l as [|x l IH]; intros b; simpl.
  - destruct b. unfold set_attached. simpl. f_equal. set_solver.
  - rewrite IH. unfold set_attached. simpl. f_equal. set_solver.
Qed.
Lemma effects_realize b l : effects b (CRealize <$> l) = b.
Proof. induction l as [|x l IH]; [done|]. simpl. apply IH. Qed.
Lemma effects_route b l : effects b (CRoute <$> l) = set_routed_to (list_to_set l ∪ routed_to b) b.
Proof.
  revert b. induction l as [|x l IH]; intros b; simpl.
  - destruct b. unfold set_routed_to. simpl. f_equal. set_solver.
  - rewrite IH. unfold set_routed_to. simpl. f_equal. set_solver.
Qed.
Lemma effects_isolate b l : effects b (CIsolate <$> l) = set_isolated (list_to_set l ∪ isolated b) b.
Proof.
  revert b. induction l as [|x l IH]; intros b; simpl.
  - destruct b. unfold set_isolated. simpl. f_equal. set_solver.
  - rewrite IH. unfold set_isolated. simpl. f_equal. set_solver.
Qed.
Lemma effects_partition_dir b l :
  effects b ((fun p => CPartitionDir p.1 p.2) <$> l) = set_directional_partitions (list_to_set l ∪ directional_partitions b) b.
Proof.
  revert b. induction l as [|[x y] l IH]; intros b; simpl.
  - destruct b. unfold set_directional_partitions. simpl. f_equal. set_solver.
  - rewrite IH. unfold set_directional_partitions. simpl. f_equal. set_solver.
Qed.
Lemma effects_partition b l : Forall (fun p => String.le p.1 p.2) l ->
  effects b ((fun p => CPartition p.1 p.2) <$> l) = set_partitions (list_to_set l ∪ partitions b) b.
Proof.
  intros Hl. revert b. induction Hl as [|[x y] l Hxy Hl IH]; intros b; simpl.
  - destruct b. unfold set_partitions. simpl. f_equal. set_solver.
  - rewrite IH. unfold set_partitions. simpl. simpl in Hxy. f_equal. unfold canonical_pair. rewrite decide_True by done. set_solver.
Qed.
Definition sane (d : impairment) : Prop :=
  0 <= di_latency d /\ 0 <= di_drop d <= 100 /\ 0 <= di_bps d /\ impaired d = true.

(** Setting an axis of a pair that stays impaired. *)
Lemma set_axis_keep f from to b d :
  f (directional_of from to b) = d -> 0 < di_latency d \/ 0 < di_drop d \/ 0 < di_bps d ->
  set_axis f from to b = set_directional (<[(from, to) := d]> (directional b)) b.
Proof.
  intros <- Hpos. unfold set_axis, gc_directional_entry. rewrite lookup_insert_eq.
  set (v := f _) in *.
  assert ((di_latency v =? 0) && (di_drop v =? 0) && (di_bps v =? 0) = false) as ->; [|done].
  destruct (di_latency v =? 0) eqn:E1, (di_drop v =? 0) eqn:E2, (di_bps v =? 0) eqn:E3; simpl; try done. lia.
Qed.

Lemma directional_of_here b from to d m : directional_of from to (set_directional (<[(from, to) := d]> m) b) = d.
Proof. unfold directional_of. simpl. by rewrite lookup_insert_eq. Qed.

Lemma effects_one_directional b from to d :
  directional b !! (from, to) = None -> sane d ->
  effects b (directional_calls (LabSnapshotDirectional from to (di_latency d) (di_drop d) (di_bps d))) =
  set_directional (<[(from, to) := d]> (directional b)) b.
Proof.
  intros Hnone (Hl & Hd & Hb & Hi). destruct d as [lat drop bps]. unfold impaired in Hi. simpl in *.
  unfold directional_calls, opt_call. cbn [sd_latency sd_drop sd_bps sd_from sd_to].
  assert (Hmin : Z.min drop 100 = drop) by lia.
  assert (H0 : directional_of from to b = Impairment 0 0 0) by (unfold directional_of; by rewrite Hnone).
  destruct (0 <? lat) eqn:E1, (0 <? drop) eqn:E2, (0 <? bps) eqn:E3; try done; cbn [app foldl effect];
    repeat (erewrite (set_axis_keep _ from to); [|rewrite ?directional_of_here, ?H0, ?Hmin; cbn [di_latency di_drop di_bps]; reflexivity|cbn [di_latency di_drop di_bps]; lia]);
    rewrite ?directional_of_here, ?H0, ?Hmin; cbn [di_latency di_drop di_bps];
    unfold set_directional; simpl; rewrite ?insert_insert_eq; repeat (f_equal; try lia).
Qed.

Lemma effects_directional b (l : list (string * string * impairment)) :
  NoDup l.*1 -> Forall (fun kd => sane kd.2 /\ directional b !! kd.1 = None) l ->
  effects b (d ← (fun kd => LabSnapshotDirectional kd.1.1 kd.1.2 (di_latency kd.2) (di_drop kd.2) (di_bps kd.2)) <$> l;
             directional_calls d) =
  set_directional (list_to_map l ∪ directional b) b.
Proof.
  revert b. induction l as [|[[from to] d] l IH]; intros b Hnd Hl; cbn [fmap list_fmap mbind list_bind].
  - destruct b. unfold set_directional. simpl. f_equal. by rewrite (left_id_L ∅ (∪)).
  - apply Forall_cons in Hl as [[Hs Hn] Hl]. apply NoDup_cons in Hnd as [Hnin Hnd]. simpl in *.
    rewrite foldl_app, effects_one_directional by done. rewrite IH; [|done|].
    + unfold set_directional. simpl. f_equal.
      rewrite <- insert_union_l, insert_union_r; [done|]. by apply not_elem_of_list_to_map.
    + rewrite Forall_forall in *. intros [k d'] Hin. destruct (Hl _ Hin) as [? Hk]. split; [done|]. simpl in *.
      rewrite lookup_insert_ne; [done|]. intros <-. apply Hnin. apply list_elem_of_fmap. by exists (from, to, d').
Qed.

Lemma in_order_sorted s : StronglySorted String.le (in_order s).
Proof. unfold in_order. apply StronglySorted_merge_sort; apply _. Qed.

Lemma elem_of_pairs_of l a c : StronglySorted String.le l -> NoDup l ->
  (a, c) ∈ pairs_of l <-> a ∈ l /\ c ∈ l /\ a <> c /\ String.le a c.
Proof.
  intros Hs. induction Hs as [|x l Hs IH Hx]; intros Hnd; cbn [pairs_of].
  - split; [by intros ?%elem_of_nil|by intros [?%elem_of_nil _]].
  - apply NoDup_cons in Hnd as [Hn Hnd]. rewrite Forall_forall in Hx.
    rewrite elem_of_app, list_elem_of_fmap, IH, !elem_of_cons by done. split.
    + intros [(c' & [= -> ->] & Hc)|(? & ? & ? & ?)]; [|auto]. split_and!; auto. by intros ->.
    + intros ([->|Ha] & [->|Hc] & Hne & Hle); [done|left; by exists c| |by right].
      destruct Hn. by rewrite <- (anti_symm String.le a x Hle (Hx _ Ha)).
Qed.

Lemma directional_pairs_spec b k d : (k, d) ∈ directional_pairs b <-> directional b !! k = Some d.
Proof.
  unfold directional_pairs. rewrite list_elem_of_omap. split.
  - intros (k' & _ & (d' & Hd & [= -> ->])%fmap_Some). done.
  - intros Hd. exists k. split; [|by rewrite Hd]. apply elem_of_pairs_in_order, elem_of_dom. by exists d.
Qed.

Lemma directional_pairs_keys b : NoDup (directional_pairs b).*1.
Proof.
  unfold directional_pairs.
  assert (Hnd : NoDup (pairs_in_order (dom (directional b)))).
  { unfold pairs_in_order. rewrite merge_sort_Permutation. apply NoDup_elements. }
  induction Hnd as [|k l Hn Hnd IH]; [constructor|]. cbn [omap list_omap].
  destruct (directional b !! k) as [d|]; [|done]. simpl. constructor; [|done].
  intros ([k' d'] & -> & Hin)%list_elem_of_fmap. apply list_elem_of_omap in Hin as (k2 & Hk2 & (d2 & _ & [= -> ->])%fmap_Some).
  done.
Qed.

(** A bridge every part of which a snapshot can express. *)
Record expressible (b : bridge) : Prop := {
  ex_pairs : forall p, p ∈ partitions b -> String.le p.1 p.2 /\ p.1 <> p.2 /\ p.1 ∈ attached b /\ p.2 ∈ attached b;
  ex_isolated : isolated b ⊆ attached b;
  ex_latency : 0 <= latency_ms b;
  ex_drop : 0 <= drop_rate_pct b <= 100;
  ex_bps : 0 <= bandwidth_bps b;
  ex_directional : map_Forall (fun _ d => sane d) (directional b);
}.

Lemma filter_all {A} (P : A -> Prop) `{!forall x, Decision (P x)} l : Forall P l -> filter P l = l.
Proof. intros Hl. induction Hl as [|x l Hx Hl IH]; [done|]. by rewrite filter_cons, decide_True, IH. Qed.

Lemma captured_isolated b : expressible b ->
  list_to_set (filter (fun m => m ∈ isolated b) (Bridge.members b)) = isolated b.
Proof.
  intros Hb. apply set_eq. intros x. rewrite elem_of_list_to_set, list_elem_of_filter. unfold Bridge.members.
  rewrite elem_of_in_order. pose proof (ex_isolated _ Hb). set_solver.
Qed.

Lemma captured_partitions b : expressible b -> fully_partitioned b = false ->
  let ps := filter (fun p => is_partitioned p.1 p.2 b = true) (pairs_of (Bridge.members b)) in
  Forall (fun p => String.le p.1 p.2) ps /\ list_to_set ps = partitions b.
Proof.
  intros Hb Hf ps. destruct (in_order_spec (attached b)) as [Hnd _].
  assert (Hps : forall p, p ∈ ps <-> p ∈ partitions b).
  { intros [a c]. unfold ps. rewrite list_elem_of_filter. unfold Bridge.members.
    rewrite (elem_of_pairs_of _ a c (in_order_sorted _) Hnd), !elem_of_in_order. simpl.
    unfold is_partitioned. rewrite Hf, orb_false_l, bool_decide_eq_true. split.
    - intros (Hin & _ & _ & _ & Hle). unfold canonical_pair in Hin. by rewrite decide_True in Hin.
    - intros Hin. destruct (ex_pairs _ Hb _ Hin) as (Hle & Hne & Ha & Hc). simpl in *. split_and!; try done.
      unfold canonical_pair. by rewrite decide_True. }
  split.
  - apply Forall_forall. intros p Hp%Hps. by apply (ex_pairs _ Hb).
  - apply set_eq. intros p. by rewrite elem_of_list_to_set, Hps.
Qed.

Lemma captured_directional b : expressible b ->
  let l := filter (fun kd => impaired kd.2 = true) (directional_pairs b) in
  NoDup l.*1 /\ Forall (fun kd => sane kd.2) l /\ list_to_map l = directional b.
Proof.
  intros Hb l.
  assert (Hl : l = directional_pairs b).
  { unfold l. apply filter_all, Forall_forall. intros [k d] Hd%directional_pairs_spec. by apply (ex_directional _ Hb) in Hd as (_ & _ & _ & ?). }
  rewrite Hl. pose proof (directional_pairs_keys b) as Hnd. split_and!; [done| |].
  - apply Forall_forall. intros [k d] Hd%directional_pairs_spec. by apply (ex_directional _ Hb) in Hd.
  - apply map_eq. intros k. apply option_eq. intros d. rewrite <- elem_of_list_to_map by done. apply directional_pairs_spec.
Qed.

(** What a restore leaves of the partitions: a bridge that was cut as a whole
    comes back without the pairs cut on their own. *)
Definition restored_view (b : bridge) : bridge :=
  recorded (if fully_partitioned b then set_partitions ∅ b else b).

Lemma restore_calls_restore s : Forall restores (restore_calls s).
Proof.
  unfold restore_calls, reapply, opt_call. rewrite !Forall_app, !Forall_fmap.
  split_and!; try (by apply Forall_true); repeat case_match; repeat constructor.
  apply Forall_forall. intros c (d & Hc & _)%list_elem_of_bind. unfold directional_calls, opt_call in Hc.
  rewrite !elem_of_app in Hc. repeat case_match; set_solver.
Qed.

(** A number that is re-applied only when it is set comes back all the same. *)
Lemma effects_latency ms b : 0 <= ms -> latency_ms b = 0 ->
  foldl (fun b c => effect c b) b (opt_call (0 <? ms) (CLatency ms)) = set_latency_ms ms b.
Proof.
  intros Hms Hb. unfold opt_call. destruct (Z.ltb_spec 0 ms); [done|]. replace ms with 0 by lia.
  destruct b; simpl in Hb |- *. by subst.
Qed.
Lemma effects_drop pct b : 0 <= pct <= 100 -> drop_rate_pct b = 0 ->
  foldl (fun b c => effect c b) b (opt_call (0 <? pct) (CDropRate pct)) = set_drop_rate_pct pct b.
Proof.
  intros Hp Hb. unfold opt_call. destruct (Z.ltb_spec 0 pct); simpl; [by rewrite Z.min_l by lia|].
  replace pct with 0 by lia. destruct b; simpl in Hb |- *. by subst.
Qed.
Lemma effects_bandwidth bps b : 0 <= bps -> bandwidth_bps b = 0 ->
  foldl (fun b c => effect c b) b (opt_call (0 <? bps) (CBandwidth bps)) = set_bandwidth_bps bps b.
Proof.
  intros Hbps Hb. unfold opt_call. destruct (Z.ltb_spec 0 bps); [done|]. replace bps with 0 by lia.
  destruct b; simpl in Hb |- *. by subst.
Qed.

(** A bridge comes back as it was. If what is recorded of a bridge can be
    expressed - its cut pairs and isolated machines are members, its numbers
    are in range - then capturing it and restoring the capture into a new
    bridge of its name, whatever the host's commands do, records the same
    members, impairments, routes, isolation, uplink and partitions; only the
    pairs cut one by one under a cut of the whole bridge are gone. *)
Lemma bridge_snapshot_round_trip {H} `{!Host H} (b : bridge) (h : H) :
  expressible b ->
  recorded (do_calls (restore_calls (capture_bridge (br_name b) b)) (bridge_new (br_name b), h)).1 = restored_view b.
Proof.
  intros Hb. rewrite calls_effect by apply restore_calls_restore. cbn [fst].
  destruct (captured_directional b Hb) as (Hnd & Hsane & Hmap).
  pose proof (captured_isolated b Hb) as Hiso.
  destruct (in_order_spec (attached b)) as [_ Hatt]. fold (Bridge.members b) in Hatt.
  destruct (in_order_spec (routed_to b)) as [_ Hroutes].
  assert (Hdp : list_to_set (pairs_in_order (directional_partitions b)) = directional_partitions b).
  { apply set_eq. intros p. by rewrite elem_of_list_to_set, elem_of_pairs_in_order. }
  assert (Hp : exists ps, sb_partitions (capture_bridge (br_name b) b) = ps /\ Forall (fun p => String.le p.1 p.2) ps /\
                 list_to_set ps = if fully_partitioned b then ∅ else partitions b).
  { eexists. split; [done|]. simpl. destruct (fully_partitioned b) eqn:Ef; [by split; [constructor|]|]. by apply captured_partitions. }
  destruct Hp as (ps & Hps & Hle & Hset).
  unfold restore_calls, reapply. rewrite Hps. unfold capture_bridge. cbn [sb_members sb_latency sb_drop sb_bps sb_uplink sb_routes sb_isolated sb_directional_partitions sb_directional sb_fully].
  rewrite !foldl_app, effects_attach, effects_realize, effects_route, effects_isolate, effects_partition by done.
  rewrite effects_partition_dir, effects_directional; [|done|].
  2:{ apply Forall_forall. intros kd Hkd. rewrite Forall_forall in Hsane. split; [by apply Hsane|].
      unfold opt_call. by repeat case_match. }
  rewrite Hatt, Hroutes, Hiso, Hset, Hdp, Hmap. unfold restored_view.
  destruct Hb as [_ _ Hlat Hdrop Hbps _].
  destruct b as [nm att par lat drp bps dir full rt iso re retap renet redir dp upr upe cap]. simpl in *.
  unfold recorded. cbn [fst bridge_new].
  rewrite effects_latency, effects_drop, effects_bandwidth by (done || lia).
  destruct full, upe; cbn; rewrite !(right_id_L ∅ (∪)); reflexivity.
Qed.

(** * Examples *)

Definition demo_lan : bridge :=
  set_isolated {["c"]} (set_partitions {[("a", "b")]} (set_directional {[("a", "c") := Impairment 5 0 1000]}
    (set_latency_ms 20 (set_routed_to {["wan"]} (set_attached {["a"; "b"; "c"]} (bridge_new "lan")))))).

Lemma demo_lan_expressible : expressible demo_lan.
Proof.
  split; simpl; try lia.
  - intros p ->%elem_of_singleton. simpl. split_and!; [by apply (bool_decide_unpack _)|done|apply (bool_decide_unpack _); vm_compute; exact I|apply (bool_decide_unpack _); vm_compute; exact I].
  - apply (bool_decide_unpack _). vm_compute. exact I.
  - intros k d [<- <-]%lookup_singleton_Some. done.
Qed.

Lemma bridge_snapshot_round_trip_witness :
  expressible demo_lan /\
  recorded (do_calls (restore_calls (capture_bridge (br_name demo_lan) demo_lan)) (bridge_new (br_name demo_lan), idle)).1 =
  restored_view demo_lan.
Proof.
  split; [apply demo_lan_expressible|].
  apply (bridge_snapshot_round_trip demo_lan idle demo_lan_expressible).
Defined.

(** A pair cut before the whole bridge was is whole again once a restored
    bridge is healed with [restore_all]. *)
Example pair_lost_under_full_cut :
  let b := set_fully_partitioned true demo_lan in
  let again := (do_calls (restore_calls (capture_bridge "lan" b)) (bridge_new "lan", idle)).1 in
  is_partitioned "a" "b" (set_fully_partitioned false b) = true /\
  is_partitioned "a" "b" (set_fully_partitioned false again) = false.
Proof. vm_compute. auto. Qed.

(** Two machines with snapshots in one file. *)
Example snapshot_file_shared : snap_path "/snap" "dc1/web" = snap_path "/snap" "dc1_web".
Proof. reflexivity. Qed.

(** A bridge's members are known by their own names and a snapshot's machines
    by flat ones, so a machine of a sub-lab comes back without its cards. *)
Example sub_lab_cards_lost w l :
  restored_nics w l "dc1/web" "web" [capture_bridge "lan" (set_attached {["web"]} (bridge_new "lan"))] = [].
Proof. reflexivity. Qed.
