(* ===== verification/LabRestore.v ===== *)
(** Restoring a whole lab puts every machine of the snapshot back under its
    flat name, and then reports an error, because it resumes machines that run. *)
From S2P Require Import Prelude Names Pool Claims Cpio Qmp VmOpts Vm Bridge BridgeNet Profile Barrier Lab LabTree LabSnap.

Open Scope string_scope.
Open Scope list_scope.
Open Scope Z_scope.

(** * A world that only grows *)

Definition machines_fresh (w : world) : Prop := forall r, is_Some (machines w !! r) -> r < next_ref w.

Record grows (w w' : world) : Prop := {
  gr_labs : forall r i, labs w !! r = Some i ->
    exists i', labs w' !! r = Some i' /\ sub_labs i ⊆ sub_labs i' /\ vms i ⊆ vms i';
  gr_machines : machines w ⊆ machines w';
  gr_next : next_ref w <= next_ref w';
}.

#[export] Instance grows_refl : Reflexive grows.
Proof. intros w. split; [|done|lia]. intros r i Hi. by exists i. Qed.

#[export] Instance grows_trans : Transitive grows.
Proof.
  intros w1 w2 w3 [L1 M1 N1] [L2 M2 N2]. split; [|by etransitivity|lia].
  intros r i Hi. destruct (L1 _ _ Hi) as (i2 & Hi2 & ? & ?). destruct (L2 _ _ Hi2) as (i3 & Hi3 & ? & ?).
  exists i3. split_and!; [done|by etransitivity..].
Qed.

(** The lab at the end of a path, if it is there. *)
Fixpoint follow (w : world) (l : lab) (path : list string) : option lab :=
  match path with
  | [] => Some l
  | p :: path => match get_sub_lab w l p with Some s => follow w s path | None => None end
  end.

Lemma grows_sub_lab w w' l p s : grows w w' -> get_sub_lab w l p = Some s -> get_sub_lab w' l p = Some s.
Proof.
  intros Hg. unfold get_sub_lab, inner. destruct (labs w !! lab_ref l) as [i|] eqn:E; [|done].
  destruct (gr_labs _ _ Hg _ _ E) as (i' & -> & Hs & _). simpl. intros H. by eapply lookup_weaken.
Qed.

Lemma grows_vm w w' l n v : grows w w' -> vms (inner w l) !! n = Some v -> vms (inner w' l) !! n = Some v.
Proof.
  intros Hg. unfold inner. destruct (labs w !! lab_ref l) as [i|] eqn:E; [|done].
  destruct (gr_labs _ _ Hg _ _ E) as (i' & -> & _ & Hv). simpl. intros H. by eapply lookup_weaken.
Qed.

Lemma grows_follow w w' l path t : grows w w' -> follow w l path = Some t -> follow w' l path = Some t.
Proof.
  intros Hg. revert l. induction path as [|p path IH]; intros l; cbn [follow]; [done|].
  destruct (get_sub_lab w l p) as [s|] eqn:E; [|done]. by rewrite (grows_sub_lab _ _ _ _ _ Hg E); eauto.
Qed.

Lemma follow_descend w l path t : follow w l path = Some t -> descend_or_create l path w = (w, t).
Proof.
  revert l. induction path as [|p path IH]; intros l; cbn [follow descend_or_create]; [by intros [= ->]|].
  destruct (get_sub_lab w l p); [apply IH|done].
Qed.

(** * Every step of a restore lets the world grow *)

Lemma grows_write w l i' ms ns n :
  real w l -> sub_labs (inner w l) ⊆ sub_labs i' -> vms (inner w l) ⊆ vms i' -> machines w ⊆ ms -> next_ref w <= n ->
  grows w (set_inner l i' (World (labs w) ms ns n)).
Proof.
  intros [i Hi] Hs Hv Hm Hn. rewrite (real_inner _ _ _ Hi) in Hs, Hv. split; [|done|done].
  intros r j Hj. simpl. destruct (decide (lab_ref l = r)) as [<-|Hne].
  - rewrite lookup_insert_eq. exists i'. by simplify_eq.
  - rewrite lookup_insert_ne by done. by exists j.
Qed.

Lemma real_grows w w' l : grows w w' -> real w l -> real w' l.
Proof. intros Hg [i Hi]. destruct (gr_labs _ _ Hg _ _ Hi) as (i' & Hi' & _). by exists i'. Qed.

Lemma real_below w l : tree_ok w -> real w l -> lab_ref l <> next_ref w.
Proof. intros Hok Hl E. pose proof (tree_fresh _ Hok _ Hl). lia. Qed.

Lemma sub_lab_grows w l p : tree_ok w -> real w l -> get_sub_lab w l p = None ->
  grows w (sub_lab l p w).1 /\ get_sub_lab (sub_lab l p w).1 l p = Some (sub_lab l p w).2 /\
  machines (sub_lab l p w).1 = machines w /\ next_ref w <= next_ref (sub_lab l p w).1.
Proof.
  intros Hok Hl Hnone. pose proof (real_below w l Hok Hl) as Hne.
  destruct Hl as [i Hi]. unfold sub_lab, get_sub_lab in *. simpl.
  assert (Hin : inner (World (<[next_ref w:=lab_inner_new]> (labs w)) (machines w) (networks w) (next_ref w + 1)) l = i).
  { unfold inner. simpl. by rewrite lookup_insert_ne, Hi by done. }
  rewrite Hin. rewrite (real_inner _ _ _ Hi) in Hnone. split_and!; [|unfold inner; simpl; rewrite lookup_insert_eq; simpl; by rewrite lookup_insert_eq|done|lia].
  split; [|done|simpl; lia]. intros r j Hj. simpl. destruct (decide (lab_ref l = r)) as [<-|Hr].
  - rewrite lookup_insert_eq. simplify_eq. eexists. split; [done|]. simpl. split; [|done]. by apply insert_subseteq.
  - rewrite lookup_insert_ne by done. rewrite lookup_insert_ne; [by exists j|].
    intros <-. pose proof (tree_fresh _ Hok _ (ex_intro _ _ Hj)). lia.
Qed.

Lemma descend_grows parts w l :
  tree_ok w -> real w l ->
  let r := descend_or_create l parts w in
  grows w r.1 /\ follow r.1 l parts = Some r.2 /\ machines r.1 = machines w.
Proof.
  revert w l. induction parts as [|p parts IH]; intros w l Hok Hl; cbn [descend_or_create follow]; [done|].
  destruct (get_sub_lab w l p) as [s|] eqn:E.
  - assert (Hs : real w s).
    { destruct Hl as [i Hi]. unfold get_sub_lab in E. rewrite (real_inner _ _ _ Hi) in E.
      apply (tree_real _ Hok (lab_ref l)). by exists i, p, s. }
    destruct (IH w s Hok Hs) as (Hg & Hf & Hm). cbv zeta. by rewrite (grows_sub_lab _ _ _ _ _ Hg E).
  - destruct (sub_lab_ok w l p Hok Hl) as [Hok1 Hs1]. destruct (sub_lab_grows w l p Hok Hl E) as (Hg1 & Hin & Hm1 & _).
    destruct (sub_lab l p w) as [w1 s]. simpl in *. destruct (IH w1 s Hok1 Hs1) as (Hg & Hf & Hm).
    rewrite (grows_sub_lab _ _ _ _ _ Hg Hin). split_and!; [by etransitivity|done|by rewrite Hm].
Qed.

(** What every part of a restore keeps. *)
Definition sound (w : world) (l : lab) : Prop := tree_ok w /\ machines_fresh w /\ real w l.

Lemma descend_sound parts w l : sound w l ->
  let r := descend_or_create l parts w in sound r.1 l /\ grows w r.1 /\ real r.1 r.2 /\ follow r.1 l parts = Some r.2.
Proof.
  intros (Hok & Hm & Hl) r. destruct (descend_ok parts w l Hok Hl) as [Hok' Hr].
  destruct (descend_grows parts w l Hok Hl) as (Hg & Hf & Hms). split_and!; [|done..]. split_and!; [done| |by eapply real_grows].
  unfold r in *. intros x Hx. rewrite Hms in Hx. apply Hm in Hx. pose proof (gr_next _ _ Hg). lia.
Qed.

Lemma preflight_sound l entries w : sound w l -> sound (preflight l entries w).1 l /\ grows w (preflight l entries w).1.
Proof.
  revert w. induction entries as [|e entries IH]; intros w Hs; cbn [preflight]; [done|].
  destruct (split_sub_lab_path (se_vm e)) as [path leaf].
  destruct (descend_sound path w l Hs) as (Hs1 & Hg1 & _). destruct (descend_or_create l path w) as [w1 t]. simpl in *.
  destruct (vms (inner w1 t) !! leaf); [done|]. destruct (IH w1 Hs1) as [? ?]. split; [done|by etransitivity].
Qed.

Lemma restore_vm_sound config l t name prof opts backend w :
  sound w l -> real w t ->
  let r := restore_vm config t name prof opts backend w in
  sound r.1 l /\ grows w r.1 /\
  (forall v, r.2 = Ok v -> vms (inner r.1 t) !! name = Some v /\ profile_name v = prof /\ vm_opts v = opts /\
     vm_state_of r.1 v = Some Booted).
Proof.
  intros (Hok & Hm & Hl) Ht. unfold restore_vm. destruct (config !! prof); [|done]. destruct backend as [[cid inst]|]; [|done].
  destruct (vms (inner w t) !! name) eqn:E; [done|]. cbv zeta.
  assert (Hnew : machines w !! next_ref w = None).
  { destruct (machines w !! next_ref w) as [m|] eqn:En; [|done]. pose proof (Hm (next_ref w) (ex_intro _ _ En)). lia. }
  assert (Hg : grows w (set_inner t (set_vms (<[name := VmHandle name prof opts false (next_ref w)]> (vms (inner w t))) (inner w t))
                (World (labs w) (<[next_ref w := (from_running cid inst, registry_new)]> (machines w)) (networks w) (next_ref w + 1)))).
  { apply grows_write; simpl; [done|done|by apply insert_subseteq|by apply insert_subseteq|lia]. }
  split_and!; [|done|].
  - split_and!; [|intros r Hr; simpl in *|by eapply real_grows].
    + apply tree_ok_write; [done|done|done|simpl; lia].
    + destruct (decide (next_ref w = r)) as [<-|Hne]; [lia|]. rewrite lookup_insert_ne in Hr by done. apply Hm in Hr. lia.
  - intros v [= <-]. unfold inner at 1. simpl. rewrite lookup_insert_eq. simpl. rewrite lookup_insert_eq.
    split_and!; try done. unfold vm_state_of. simpl. by rewrite lookup_insert_eq.
Qed.

Lemma join_all_Ok {A E} (rs : list (result A E)) l : join_all rs = Ok l -> forall r, r ∈ rs -> exists a, r = Ok a.
Proof.
  revert l. induction rs as [|[a|e] rs IH]; intros l; cbn [join_all]; [by intros _ r ?%elem_of_nil| |done].
  destruct (join_all rs) as [k|]; [|done]. intros _ r [->|Hr]%elem_of_cons; [by eexists|by apply (IH k)].
Qed.

Lemma join_all_length {A E} (rs : list (result A E)) l : join_all rs = Ok l -> length l = length rs.
Proof.
  revert l. induction rs as [|[a|e] rs IH]; intros l; cbn [join_all]; [by intros [= <-]| |done].
  destruct (join_all rs) as [k|]; [|done]. intros [= <-]. csimpl. by rewrite (IH k).
Qed.

Lemma join_all_in {A E} (rs : list (result A E)) l : join_all rs = Ok l -> forall a, a ∈ l -> Ok a ∈ rs.
Proof.
  revert l. induction rs as [|[a|e] rs IH]; intros l; cbn [join_all]; [by intros [= <-] a ?%elem_of_nil| |done].
  destruct (join_all rs) as [k|]; [|done]. intros [= <-] x [->|Hx]%elem_of_cons; [by left|]. right. by apply (IH k).
Qed.

(** A machine of the snapshot, back in its place and running. *)
Definition back (w : world) (l : lab) (e : lab_snapshot_entry) : Prop :=
  let '(path, leaf) := split_sub_lab_path (se_vm e) in
  exists target v, follow w l path = Some target /\ vms (inner w target) !! leaf = Some v /\
    profile_name v = se_profile e /\ vm_state_of w v = Some Booted.

Lemma grows_state w w' v st : grows w w' -> vm_state_of w v = Some st -> vm_state_of w' v = Some st.
Proof.
  intros Hg. unfold vm_state_of. destruct (machines w !! vm_ref v) as [m|] eqn:E; [|done].
  by rewrite (lookup_weaken _ _ _ _ E (gr_machines _ _ Hg)).
Qed.

Lemma back_grows w w' l e : grows w w' -> back w l e -> back w' l e.
Proof.
  intros Hg. unfold back. destruct (split_sub_lab_path (se_vm e)) as [path leaf].
  intros (t & v & Hf & Hv & Hp & Hs). exists t, v.
  split_and!; [by eapply grows_follow|by eapply grows_vm|done|by eapply grows_state].
Qed.

Lemma restore_members_back config l bs entries w :
  sound w l ->
  let r := restore_members config l bs entries w in
  sound r.1 l /\ grows w r.1 /\ length r.2 = length entries /\
  (forall v, Ok v ∈ r.2 -> vm_state_of r.1 v = Some Booted) /\
  ((forall x, x ∈ r.2 -> exists v, x = Ok v) -> forall e backend, (e, backend) ∈ entries -> back r.1 l e).
Proof.
  revert w. induction entries as [|[e backend] entries IH]; intros w Hs; cbn [restore_members].
  { split_and!; [done|done|done|by intros ? ?%elem_of_nil|]. by intros _ ? ? ?%elem_of_nil. }
  destruct (split_sub_lab_path (se_vm e)) as [path leaf] eqn:Ep.
  destruct (descend_sound path w l Hs) as (Hs1 & Hg1 & Ht & Hf).
  destruct (descend_or_create l path w) as [w1 t]. cbn [fst snd] in *.
  set (opts := restored_opts _).
  destruct (restore_vm_sound config l t leaf (se_profile e) opts backend w1 Hs1 Ht) as (Hs2 & Hg2 & Hok).
  destruct (restore_vm config t leaf (se_profile e) opts backend w1) as [w2 rv]. cbn [fst snd] in *.
  destruct (IH w2 Hs2) as (Hs3 & Hg3 & Hn & Hrun & Hback).
  destruct (restore_members config l bs entries w2) as [w3 rs]. cbn [fst snd] in *.
  split_and!; [done|by etransitivity; [|etransitivity]|csimpl; congruence| |].
  { intros v [<-|Hv]%elem_of_cons; [|by apply Hrun]. destruct (Hok v eq_refl) as (_ & _ & _ & Hst). by eapply grows_state. }
  intros Hall e' b' [[= -> ->]|Hin]%elem_of_cons.
  - destruct (Hall rv) as [v ->]; [by left|]. destruct (Hok v eq_refl) as (Hv & Hp & _ & Hst).
    apply (back_grows w2); [done|]. unfold back. rewrite Ep. exists t, v.
    split_and!; [by eapply grows_follow|done..].
  - eapply Hback; [|done]. intros x Hx. apply Hall. by right.
Qed.

Section host.
Context {H : Type} `{!Host H}.

Lemma on_named_same l name cs (s : world * H) :
  labs (on_named l name cs s).1 = labs s.1 /\ machines (on_named l name cs s).1 = machines s.1 /\
  next_ref (on_named l name cs s).1 = next_ref s.1.
Proof. unfold on_named, on_bridge. destruct (get_bridge _ _ _); [|done]. by destruct (networks s.1 !! _). Qed.

Lemma same_grows w w' l : labs w' = labs w -> machines w' = machines w -> next_ref w' = next_ref w -> sound w l ->
  sound w' l /\ grows w w'.
Proof.
  intros Hl Hm Hn (Hok & Hf & Hr). split; [|split; rewrite ?Hl, ?Hm, ?Hn; try done; intros r i Hi; by exists i].
  split_and!; [|intros r; rewrite Hm, Hn; apply Hf|unfold real in *; by rewrite Hl].
  apply (tree_ok_same w); [done| |by intros; rewrite Hl|by rewrite Hn].
  intros a b (i & n & s & Hi & ?). rewrite Hl in Hi. by exists i, n, s.
Qed.

Lemma on_named_sound l l' name cs (s : world * H) : sound s.1 l' ->
  sound (on_named l name cs s).1 l' /\ grows s.1 (on_named l name cs s).1.
Proof. destruct (on_named_same l name cs s) as (H1 & H2 & H3). by apply same_grows. Qed.

Lemma on_each_sound l (f : lab_snapshot_bridge -> list bridge_call) bs (s : world * H) : sound s.1 l ->
  let s' := foldl (fun s b => on_named l (sb_name b) (f b) s) s bs in sound s'.1 l /\ grows s.1 s'.1.
Proof.
  revert s. induction bs as [|b bs IH]; intros s Hs; cbn [foldl]; [done|].
  destruct (on_named_sound l l (sb_name b) (f b) s Hs) as [Hs1 Hg1]. destruct (IH _ Hs1) as [Hs2 Hg2].
  split; [done|by etransitivity].
Qed.

Lemma create_bridge_sound l name w : sound w l ->
  sound (create_bridge l name w).1 l /\ grows w (create_bridge l name w).1.
Proof.
  intros (Hok & Hm & Hl). unfold create_bridge. destruct (check_reserved_name name); [|done].
  destruct (bridges _ !! name); [done|].
  assert (Hg : grows w (set_inner l (set_bridges (<[name := BridgeHandle name (next_ref w)]> (bridges (inner w l))) (inner w l))
     (World (labs w) (machines w) (<[next_ref w := bridge_new name]> (networks w)) (next_ref w + 1)))).
  { apply grows_write; simpl; done || lia. }
  split; [|done]. split_and!; [|intros r Hr; simpl in *; apply Hm in Hr; lia|by eapply real_grows].
  apply tree_ok_write; simpl; done || lia.
Qed.

Lemma restore_bridges_sound l bs (s : world * H) : sound s.1 l ->
  sound (restore_bridges l bs s).1.1 l /\ grows s.1 (restore_bridges l bs s).1.1.
Proof.
  revert s. induction bs as [|b bs IH]; intros s Hs; cbn [restore_bridges]; [done|].
  assert (Hmade : exists w1 r, (match get_bridge s.1 l (sb_name b) with
             | Ok _ => (s.1, Ok ())
             | Err _ => match create_bridge l (sb_name b) s.1 with (w1, Ok _) => (w1, Ok ()) | (w1, Err e) => (w1, Err e) end
             end) = (w1, r) /\ sound w1 l /\ grows s.1 w1).
  { destruct (get_bridge _ _ _); [by eexists _, _|]. destruct (create_bridge_sound l (sb_name b) s.1 Hs) as [? ?].
    destruct (create_bridge l (sb_name b) s.1) as [w1 []]; by eexists _, _. }
  destruct Hmade as (w1 & r & -> & Hs1 & Hg1). destruct r as [[]|e]; [|done].
  destruct (on_named_sound l l (sb_name b) (CAttach <$> sb_members b) (w1, s.2) Hs1) as [Hs2 Hg2].
  destruct (IH _ Hs2) as [Hs3 Hg3]. split; [done|]. by etransitivity; [|etransitivity].
Qed.

Lemma restore_machines_back config l meta backends (w : world) (h : H) :
  sound w l ->
  let '((w', h'), r) := restore_machines config l meta backends (w, h) in
  sound w' l /\ grows w w' /\
  (forall vs, r = Ok vs -> length vs = length (meta_vms meta) /\ (forall e, e ∈ meta_vms meta -> back w' l e) /\
     forall v, v ∈ vs -> vm_state_of w' v = Some Booted).
Proof.
  intros Hs. unfold restore_machines. cbn [fst snd].
  destruct (preflight_sound l (meta_vms meta) w Hs) as [Hs1 Hg1].
  destruct (preflight l (meta_vms meta) w) as [w1 [[]|e]]; cbn [fst snd] in *; [|done].
  destruct (restore_bridges_sound l (meta_bridges meta) (w1, h) Hs1) as [Hs2 Hg2].
  destruct (restore_bridges l (meta_bridges meta) (w1, h)) as [[w2 h2] [[]|e]]; cbn [fst snd] in *;
    [|split_and!; [done|by etransitivity|done]].
  destruct (restore_members_back config l (meta_bridges meta) (imap (fun k e => (e, backends k)) (meta_vms meta)) w2 Hs2)
    as (Hs3 & Hg3 & Hn & Hrun & Hback).
  destruct (restore_members _ _ _ _ _) as [w3 rs]. cbn [fst snd] in *.
  split_and!; [done|by etransitivity; [|etransitivity]|]. intros vs Ej. split_and!.
  - by rewrite <- (length_imap (fun k e => (e, backends k)) (meta_vms meta)), <- Hn, (join_all_length _ _ Ej).
  - intros e [i Hi]%list_elem_of_lookup. apply (Hback (join_all_Ok _ _ Ej) e (backends i)).
    apply (list_elem_of_lookup_2 _ i). by rewrite list_lookup_imap, Hi.
  - intros v Hv. by apply Hrun, (join_all_in _ _ Ej).
Qed.

(** Machines that run are not resumed: nothing changes, and each says so. *)
Lemma resume_running answer vs ms :
  (forall v, v ∈ vs -> exists i g, ms !! vm_ref v = Some (i, g) /\ state i = Booted) ->
  resume_vms answer vs ms = (ms, (fun v => Ret (Err (WrongState (vm_name v) Booted "resume"))) <$> vs).
Proof.
  induction vs as [|v vs IH]; intros Hb; cbn [resume_vms]; [done|].
  destruct (Hb v) as (i & g & Hi & Hst); [by left|]. rewrite Hi. cbn [default from_option id].
  unfold resume at 1. rewrite Hst. unfold wrong_state. rewrite Hst, (insert_id _ _ _ Hi), IH; [done|].
  intros u Hu. apply Hb. by right.
Qed.

Definition resume_refused (v : vm) : lab_error :=
  RestoreFailed "lab" ("resume after restore: " +:+ format_wrong_state (vm_name v) Booted "resume").

(** What follows the restore of the machines changes neither labs nor machines
    but the bridges, and its result is known. *)
Lemma lab_restore_after show_qmp config l meta backends answer (w w3 : world) (h h3 : H) r3 :
  sound w l -> restore_machines config l meta backends (w, h) = ((w3, h3), r3) ->
  let r := lab_restore show_qmp config l meta backends answer (w, h) in
  grows w3 r.1.1 /\
  r.2 = match r3 with Err e => Err e | Ok [] => Ok () | Ok (v :: _) => Err (resume_refused v) end.
Proof.
  intros Hs Hr. unfold lab_restore. pose proof (restore_machines_back config l meta backends w h Hs) as Hb.
  rewrite Hr in Hb |- *. destruct Hb as (Hs3 & Hg3 & Hb). destruct r3 as [vs|e]; [|done].
  destruct (Hb vs eq_refl) as (_ & _ & Hrun).
  destruct (on_each_sound l (fun b => CRealize <$> sb_members b) (meta_bridges meta) (w3, h3) Hs3) as [Hs4 Hg4].
  set (s4 := foldl _ (w3, h3) _) in *.
  destruct (on_each_sound l reapply (meta_bridges meta) s4 Hs4) as [_ Hg5].
  destruct (foldl _ s4 _) as [w5 h5]. cbn [fst snd] in *.
  assert (Hg : grows w3 w5) by (by etransitivity).
  rewrite resume_running.
  2:{ intros v Hv. pose proof (grows_state _ _ v Booted Hg (Hrun v Hv)) as Hst. unfold vm_state_of in Hst.
      destruct (machines w5 !! vm_ref v) as [[i g]|]; [|done]. injection Hst as Hst. eauto. }
  destruct w5 as [ls ms ns n]. split; [done|]. by destruct vs.
Qed.

Lemma lab_restore_ok show_qmp config l meta backends answer (w : world) (h : H) :
  sound w l -> (lab_restore show_qmp config l meta backends answer (w, h)).2 = Ok () -> meta_vms meta = [].
Proof.
  intros Hs Hr. pose proof (restore_machines_back config l meta backends w h Hs) as Hb.
  destruct (restore_machines config l meta backends (w, h)) as [[w3 h3] r3] eqn:E.
  destruct (lab_restore_after show_qmp _ _ _ _ answer _ _ _ _ _ Hs E) as [_ Hs2]. rewrite Hr in Hs2.
  destruct r3 as [[|v vs]|e]; try done. destruct Hb as (_ & _ & Hb). destruct (Hb [] eq_refl) as [Hl _]. by apply nil_length_inv.
Qed.

(** C38: what a lab restore does, and what it says. Until its machines run
    again an error of an earlier step is its result; once they all do, every
    machine of the snapshot is running under its flat name with its profile, in
    the sub-lab its name leads to. But as soon as there is one machine the
    restore then ends in an error nevertheless, because it resumes the machines
    and a restored machine is not paused; it returns without an error for a
    snapshot without machines only. Whatever happens, the machines and sub-labs
    that were there before are still there. *)
Theorem lab_restore_brings_back show_qmp config l meta backends answer (w : world) (h : H) :
  sound w l ->
  let '((w', _), r) := lab_restore show_qmp config l meta backends answer (w, h) in
  grows w w' /\
  match (restore_machines config l meta backends (w, h)).2 with
  | Err e => r = Err e
  | Ok vs =>
      (forall e, e ∈ meta_vms meta -> back w' l e) /\ length vs = length (meta_vms meta) /\
      r = match vs with [] => Ok () | v :: _ => Err (resume_refused v) end
  end /\
  (r = Ok () -> meta_vms meta = []).
Proof.
  intros Hs. pose proof (restore_machines_back config l meta backends w h Hs) as Hb.
  pose proof (lab_restore_ok show_qmp config l meta backends answer w h Hs) as Hok.
  destruct (restore_machines _ _ _ _ _) as [[w3 h3] r3] eqn:E.
  destruct (lab_restore_after show_qmp _ _ _ _ answer _ _ _ _ _ Hs E) as [Hg Hr].
  destruct (lab_restore _ _ _ _ _ _ _) as [[w' h'] r]. cbn [fst snd] in *. destruct Hb as (_ & Hg3 & Hb).
  split_and!; [by etransitivity| |done]. destruct r3 as [vs|e]; [|done]. destruct (Hb vs eq_refl) as (Hlen & Hback & _).
  split_and!; [by intros e He; eapply back_grows; [|apply Hback]|done|by destruct vs].
Qed.
End host.

(** * Examples *)

Definition empty_lab : world := (lab_new "provium" true world_new).1.

Definition demo_meta : lab_snapshot_meta :=
  LabSnapshotMeta [LabSnapshotEntry "top" "peios" "/snap/top.snap"; LabSnapshotEntry "dc1/web" "peios" "/snap/dc1_web.snap"]
    [capture_bridge "lan" (set_latency_ms 20 (set_attached {["top"]} (bridge_new "lan")))].

Lemma empty_lab_sound : sound empty_lab root_lab.
Proof.
  split_and!; [|by intros r [? ?]|by eexists]. apply (lab_step_ok demo_config world_new); [|apply LNew].
  split; [|intros r1 r2 (i & ? & ? & Hi & _); done|intros r [? Hr]; done].
  intros r. constructor. intros s (i & ? & ? & Hi & _). done.
Qed.

Definition demo_backends (k : nat) : result (Z * Z) string := Ok (3 + Z.of_nat k, 1 + Z.of_nat k).
Definition demo_answer (v : vm) : result () vmm_error := Ok ().
Definition no_text (e : qmp_error) : string := "".

Lemma lab_restore_brings_back_witness :
  sound empty_lab root_lab /\
  (let '((w', _), r) := lab_restore no_text demo_config root_lab demo_meta demo_backends demo_answer (empty_lab, idle) in
   r = Err (RestoreFailed "lab" "resume after restore: vm `top`: VM is in an unexpected state for this op (cannot resume)") /\
   back w' root_lab (LabSnapshotEntry "dc1/web" "peios" "/snap/dc1_web.snap")).
Proof.
  split; [apply empty_lab_sound|].
  pose proof (lab_restore_brings_back no_text demo_config root_lab demo_meta demo_backends demo_answer
                empty_lab idle empty_lab_sound) as Hx.
  destruct (lab_restore _ _ _ _ _ _ _) as [[w' h'] r]. destruct Hx as (_ & Hx & _).
  destruct (restore_machines demo_config root_lab demo_meta demo_backends (empty_lab, idle)).2 as [vs|e] eqn:E; vm_compute in E; [|discriminate E].
  injection E as <-. destruct Hx as (Hback & _ & ->). split; [reflexivity|]. apply Hback. right. left.
Defined.

(** A refused restore has built the sub-labs of the names before the clash. *)
Example refused_restore_leaves_sub_labs :
  let w := (create_vm demo_config root_lab "top" "peios" boot_opts_default empty_lab).1 in
  let meta := LabSnapshotMeta [LabSnapshotEntry "dc1/web" "peios" ""; LabSnapshotEntry "top" "peios" ""] [] in
  let '((w', _), r) := lab_restore no_text demo_config root_lab meta demo_backends demo_answer (w, idle) in
  r = Err (DuplicateVmName "top") /\ sub_lab_names w' root_lab = ["dc1"].
Proof. vm_compute. auto. Qed.
