(* ===== verification/Fixture.v ===== *)
(** The fixture cache, [src/provium-host/src/fixture.rs]: what a source refers
    to, the key that stands for a fixture and all it was built from, and what
    eviction throws away; with the walk over the references of
    [lua/lab_ud.rs]. *)
From S2P Require Import Prelude Text Wire.

Open Scope list_scope.
Open Scope Z_scope.

(** * References in a source *)

Definition name_byte (b : byte) : bool := alphanumeric b || bool_decide (b = x5f).

(** The byte before [pos] does not belong to a longer name. *)
Definition boundary (source : bytes) (pos : nat) : bool :=
  match pos with
  | O => true
  | S p => match source !! p with Some prev => negb (name_byte prev) | None => true end
  end.

(** A string literal at the front: what is between its quotes. *)
Definition literal (s : bytes) : option bytes :=
  match s with
  | q :: body => if bool_decide (q = x22 \/ q = x27) then (fun e => take e body) <$> find_bytes [q] body else None
  | [] => None
  end.

(** What follows a marker: white space, a parenthesis, white space, a literal. *)
Definition quoted_arg (after : bytes) : option bytes :=
  match trim_start after with
  | x28 :: args => literal (trim_start args)
  | _ => None
  end.

(** The loop from [idx]; [fuel] bounds its rounds, each of which moves on. *)
Fixpoint scan_from (fuel : nat) (marker source : bytes) (idx : nat) : list (nat * bytes) :=
  match fuel with
  | O => []
  | S fuel =>
      match find_bytes marker (drop idx source) with
      | None => []
      | Some found =>
          let abs := (idx + found)%nat in
          let next := scan_from fuel marker source (abs + length marker)%nat in
          if negb (boundary source abs) then next
          else match quoted_arg (drop (abs + length marker) source) with
               | Some name => (abs, name) :: next
               | None => next
               end
      end
  end.

Definition scan_quoted_arg_with_pos (marker source : bytes) : list (nat * bytes) :=
  scan_from (S (length source)) marker source 0.

(** [sort_by_key], which is stable. *)
Fixpoint insert_by_key (h : nat * bytes) (l : list (nat * bytes)) : list (nat * bytes) :=
  match l with
  | [] => [h]
  | k :: l => if decide (h.1 <= k.1)%nat then h :: k :: l else k :: insert_by_key h l
  end.

Definition sort_by_pos (l : list (nat * bytes)) : list (nat * bytes) := foldr insert_by_key [] l.

Definition scan_fixture_deps (source : bytes) : list bytes :=
  (sort_by_pos (scan_quoted_arg_with_pos (str "vm_fixture") source ++
                scan_quoted_arg_with_pos (str "lab_fixture") source)).*2.

Definition scan_require_deps (source : bytes) : list bytes :=
  (scan_quoted_arg_with_pos (str "require") source).*2.

(** The end of the literal that opened with [quote]; a backslash takes the
    next byte along. *)
Fixpoint skip_literal (quote : byte) (s : bytes) : bytes :=
  match s with
  | [] => []
  | c :: rest =>
      if decide (c = x5c) then match rest with [] => [] | _ :: rest => skip_literal quote rest end
      else if decide (c = quote) then rest
      else skip_literal quote rest
  end.

(** How many bytes before the parenthesis that closes [depth] open ones. *)
Fixpoint close_from (fuel : nat) (depth : Z) (s : bytes) : option nat :=
  match fuel with
  | O => None
  | S fuel =>
      match s with
      | [] => None
      | c :: rest =>
          if bool_decide (c = x22 \/ c = x27) then
            let rest' := skip_literal c rest in
            (fun n => (length s - length rest' + n)%nat) <$> close_from fuel depth rest'
          else if decide (c = x28) then S <$> close_from fuel (depth + 1) rest
          else if decide (c = x29) then
            if depth - 1 =? 0 then Some 0%nat else S <$> close_from fuel (depth - 1) rest
          else S <$> close_from fuel depth rest
      end
  end.

Definition find_matching_close_paren (source : bytes) (start : nat) : option nat :=
  (fun n => (start + n)%nat) <$> close_from (S (length source)) 1 (drop start source).

Definition has_auto_dep_false (args : bytes) : bool :=
  match find_bytes (str "auto_dep") args with
  | None => false
  | Some i =>
      match trim_start (drop (i + 8) args) with
      | x3d :: rest =>
          match strip_prefix (str "false") (trim_start rest) with
          | Some (c :: _) => negb (name_byte c)
          | Some [] => true
          | None => false
          end
      | _ => false
      end
  end.

Fixpoint scan_push_from (fuel : nat) (source : bytes) (idx : nat) : list (nat * bytes) :=
  match fuel with
  | O => []
  | S fuel =>
      match find_bytes (str "push_file") (drop idx source) with
      | None => []
      | Some found =>
          let abs := (idx + found)%nat in
          let past := scan_push_from fuel source (abs + 9)%nat in
          if negb (boundary source abs) then past
          else
            match trim_start (drop (abs + 9) source) with
            | x28 :: args =>
                let start := (length source - length args)%nat in
                match find_matching_close_paren source start with
                | None => past
                | Some close =>
                    let next := scan_push_from fuel source close in
                    if has_auto_dep_false (take (close - start) (drop start source)) then next
                    else
                      match trim_start args with
                      | q :: body =>
                          if bool_decide (q = x22 \/ q = x27) then
                            match find_bytes [q] body with
                            | Some e => (abs, take e body) :: next
                            | None => next
                            end
                          else past
                      | [] => past
                      end
                end
            | _ => past
            end
      end
  end.

Definition scan_push_file_calls (source : bytes) : list (nat * bytes) := scan_push_from (S (length source)) source 0.

Definition scan_external_file_deps (source : bytes) : list bytes :=
  (sort_by_pos (scan_push_file_calls source ++ scan_quoted_arg_with_pos (str "depends_on_file") source)).*2.

Example scans :
  scan_fixture_deps (str "local b = provium:lab_fixture( 'cluster' ) provium:vm_fixture('base') my_vm_fixture('no')") =
    [str "cluster"; str "base"] /\
  scan_external_file_deps (str "vm:push_file('a)b', '/x') vm:push_file('big', '/d', {auto_dep = false}) lab:depends_on_file('t')") =
    [str "a)b"; str "t"].
Proof. by vm_compute. Qed.

(** A call without parentheses is a call to Lua and none to the scanner. *)
Example bare_require_missed : scan_require_deps (str "local h = require 'helpers.net'") = [].
Proof. by vm_compute. Qed.

(** * What the scanner finds *)

(** The reference: a call of [marker] at [pos]. *)
Definition call_at (marker source : bytes) (pos : nat) : option bytes :=
  if prefixed marker (drop pos source) && boundary source pos
  then quoted_arg (drop (pos + length marker) source) else None.

Definition calls_between (marker source : bytes) (from len : nat) : list (nat * bytes) :=
  omap (fun pos => pair pos <$> call_at marker source pos) (seq from len).

Lemma calls_between_app marker source i n m :
  calls_between marker source i (n + m) = calls_between marker source i n ++ calls_between marker source (i + n) m.
Proof. unfold calls_between. by rewrite seq_app, omap_app. Qed.

Lemma calls_between_nil marker source i n :
  (forall j, (i <= j < i + n)%nat -> call_at marker source j = None) -> calls_between marker source i n = [].
Proof.
  revert i. induction n as [|n IH]; intros i Hno; [done|].
  unfold calls_between. cbn [seq omap list_omap]. rewrite (Hno i) by lia. apply IH. intros j Hj. apply Hno. lia.
Qed.

(** Markers are made of name bytes, so nothing starts inside one. *)
Lemma inside_marker marker source abs j :
  Forall (fun b => name_byte b = true) marker -> prefixed marker (drop abs source) = true ->
  (abs < j < abs + length marker)%nat -> boundary source j = false.
Proof.
  intros Hm [rest Hs]%prefixed_spec Hj. destruct j as [|p]; [lia|]. cbn [boundary].
  assert (Hp : source !! p = marker !! (p - abs)%nat).
  { replace (source !! p) with (drop abs source !! (p - abs)%nat) by (rewrite lookup_drop; f_equal; lia).
    rewrite Hs, lookup_app_l by lia. done. }
  destruct (lookup_lt_is_Some_2 marker (p - abs)%nat) as [b Hb]; [lia|].
  rewrite Hp, Hb. rewrite Forall_lookup in Hm. by rewrite (Hm _ _ Hb).
Qed.

Lemma scan_from_exact marker source fuel idx :
  marker <> [] -> Forall (fun b => name_byte b = true) marker ->
  (idx <= length source)%nat -> (length source - idx < fuel)%nat ->
  scan_from fuel marker source idx = calls_between marker source idx (length source - idx).
Proof.
  intros Hne Hm. revert idx. induction fuel as [|fuel IH]; intros idx Hidx Hfuel; [lia|]. cbn [scan_from].
  destruct (find_bytes marker (drop idx source)) as [found|] eqn:Hf.
  2:{ rewrite calls_between_nil; [done|]. intros j Hj. unfold call_at.
      pose proof (find_bytes_None _ _ (j - idx) Hf) as Hn. rewrite drop_drop in Hn.
      replace (idx + (j - idx))%nat with j in Hn by lia. by rewrite Hn. }
  apply find_bytes_Some in Hf as (Hat & Hlen & Hbefore). rewrite drop_drop in Hat.
  set (abs := (idx + found)%nat) in *. set (m := length marker).
  assert (Hm1 : (1 <= m)%nat) by (destruct marker; [done|simpl in *; lia]).
  assert (Hroom : (abs + m <= length source)%nat).
  { apply prefixed_spec in Hat as [rest Hs]. apply (f_equal length) in Hs. rewrite length_drop, length_app in Hs. fold m in Hs. lia. }
  replace (length source - idx)%nat with (found + (1 + ((m - 1) + (length source - (abs + m)))))%nat by (unfold abs in *; lia).
  rewrite !calls_between_app.
  rewrite (calls_between_nil _ _ idx found).
  2:{ intros j Hj. unfold call_at. specialize (Hbefore (j - idx)%nat). rewrite drop_drop in Hbefore.
      replace (idx + (j - idx))%nat with j in Hbefore by lia. by rewrite Hbefore by lia. }
  fold abs. rewrite (calls_between_nil _ _ (abs + 1) (m - 1)).
  2:{ intros j Hj. unfold call_at. rewrite (inside_marker marker source abs j) by (done || (fold m; lia)). by rewrite andb_false_r. }
  replace (abs + 1 + (m - 1))%nat with (abs + m)%nat by lia.
  rewrite <- IH by lia. unfold calls_between, call_at. cbn [seq omap list_omap]. rewrite Hat. fold m. simpl.
  destruct (boundary source abs); simpl; [|done]. by destruct (quoted_arg (drop (abs + m) source)).
Qed.

Lemma scan_calls_exact marker source :
  marker <> [] -> Forall (fun b => name_byte b = true) marker ->
  scan_quoted_arg_with_pos marker source = calls_between marker source 0 (length source).
Proof.
  intros Hne Hm. unfold scan_quoted_arg_with_pos. rewrite scan_from_exact by (done || lia). by rewrite Nat.sub_0_r.
Qed.

Lemma calls_between_pos marker source i n h : h ∈ calls_between marker source i n -> (i <= h.1 < i + n)%nat /\ call_at marker source h.1 = Some h.2.
Proof.
  unfold calls_between. intros (pos & Hin & Hc)%list_elem_of_omap. apply elem_of_seq in Hin.
  destruct (call_at marker source pos) as [name|] eqn:E; [|done]. injection Hc as <-. done.
Qed.

(** Sorting two scans by position interleaves them. *)
Lemma insert_by_key_first h l : (forall k, k ∈ l -> (h.1 <= k.1)%nat) -> insert_by_key h l = h :: l.
Proof. destruct l as [|k l]; [done|]. intros Hh. simpl. rewrite decide_True; [done|]. apply Hh. by left. Qed.

Lemma insert_by_key_pass h k l : (k.1 < h.1)%nat -> insert_by_key h (k :: l) = k :: insert_by_key h l.
Proof. intros Hk. simpl. rewrite decide_False; [done|lia]. Qed.

Definition either_at (m1 m2 source : bytes) (pos : nat) : option bytes :=
  match call_at m1 source pos with Some n => Some n | None => call_at m2 source pos end.

Definition either_between (m1 m2 source : bytes) (from len : nat) : list (nat * bytes) :=
  omap (fun pos => pair pos <$> either_at m1 m2 source pos) (seq from len).

Lemma either_between_pos m1 m2 source i n h : h ∈ either_between m1 m2 source i n -> (i <= h.1)%nat.
Proof.
  unfold either_between. intros (pos & Hin & Hc)%list_elem_of_omap. apply elem_of_seq in Hin.
  destruct (either_at _ _ _ pos); [|done]. injection Hc as <-. simpl. lia.
Qed.

Lemma elem_of_insert_by_key x h l : x ∈ insert_by_key h l <-> x = h \/ x ∈ l.
Proof.
  induction l as [|k l IH]; cbn [insert_by_key]; [rewrite list_elem_of_singleton, elem_of_nil; tauto|].
  destruct (decide _); rewrite ?elem_of_cons, ?IH, ?elem_of_cons; tauto.
Qed.

Lemma elem_of_sort_by_pos x l : x ∈ sort_by_pos l <-> x ∈ l.
Proof.
  induction l as [|h l IH]; cbn [sort_by_pos foldr]; [done|].
  rewrite elem_of_insert_by_key, elem_of_cons. fold (sort_by_pos l). by rewrite IH.
Qed.

Lemma sort_by_pos_first h l1 l2 :
  (forall k, k ∈ l1 -> (h.1 < k.1)%nat) -> (forall k, k ∈ l2 -> (h.1 <= k.1)%nat) ->
  sort_by_pos (l1 ++ h :: l2) = h :: sort_by_pos (l1 ++ l2).
Proof.
  intros H1 H2. induction l1 as [|k l1 IH]; cbn [sort_by_pos foldr app].
  - fold (sort_by_pos l2). apply insert_by_key_first. intros k Hk. rewrite elem_of_sort_by_pos in Hk. auto.
  - fold (sort_by_pos (l1 ++ h :: l2)). fold (sort_by_pos (l1 ++ l2)). rewrite IH by (intros; apply H1; by right).
    apply insert_by_key_pass, H1. by left.
Qed.

Lemma calls_between_S marker source i n :
  calls_between marker source i (S n) =
  match call_at marker source i with Some x => [(i, x)] | None => [] end ++ calls_between marker source (S i) n.
Proof. unfold calls_between. cbn [seq omap list_omap]. by destruct (call_at marker source i). Qed.

Lemma merge_scans m1 m2 source i n :
  (forall pos x, call_at m1 source pos = Some x -> call_at m2 source pos = None) ->
  sort_by_pos (calls_between m1 source i n ++ calls_between m2 source i n) = either_between m1 m2 source i n.
Proof.
  intros Hex. revert i. induction n as [|n IH]; intros i; [done|].
  rewrite !calls_between_S. unfold either_between. cbn [seq omap list_omap]. fold (either_between m1 m2 source (S i) n).
  unfold either_at at 1. rewrite <- IH.
  assert (Hpos : forall m k, k ∈ calls_between m source (S i) n -> (i < k.1)%nat) by (intros m k Hk; apply calls_between_pos in Hk; lia).
  destruct (call_at m1 source i) as [x|] eqn:E1; simpl.
  - rewrite (Hex _ _ E1). cbn [app]. apply (sort_by_pos_first (i, x) []).
    + intros k Hk. by apply not_elem_of_nil in Hk.
    + intros k [Hk|Hk]%elem_of_app; apply Hpos in Hk; simpl; lia.
  - destruct (call_at m2 source i) as [y|]; [|done]. cbn [app]. apply (sort_by_pos_first (i, y)).
    + intros k Hk. by apply (Hpos m1).
    + intros k Hk. apply Hpos in Hk. simpl. lia.
Qed.

Lemma call_at_byte m source pos x : call_at m source pos = Some x -> m <> [] -> source !! pos = head m.
Proof.
  unfold call_at. destruct (prefixed m (drop pos source)) eqn:E; [|done]. intros _ Hne.
  apply prefixed_spec in E as [rest Hs]. destruct m as [|b m]; [done|].
  rewrite <- (Nat.add_0_r pos), <- lookup_drop, Hs. done.
Qed.

(** The references of a fixture are found where they are made. The scan of
    a source gives exactly the quoted arguments of the calls of [vm_fixture]
    and [lab_fixture] in it, one for each position where one of the two names
    stands on its own and is followed by a parenthesis and a literal, in the
    order of the source; the scan for [require] does the same. *)
Lemma scans_are_exact source :
  scan_fixture_deps source = (either_between (str "vm_fixture") (str "lab_fixture") source 0 (length source)).*2 /\
  scan_require_deps source = (calls_between (str "require") source 0 (length source)).*2.
Proof.
  split.
  - unfold scan_fixture_deps. rewrite !scan_calls_exact by (done || by repeat constructor). rewrite merge_scans; [done|].
    intros pos x Hx. apply call_at_byte in Hx; [|done].
    destruct (call_at (str "lab_fixture") source pos) as [y|] eqn:Hy; [|done].
    apply call_at_byte in Hy; [|done]. rewrite Hx in Hy. done.
  - unfold scan_require_deps. rewrite scan_calls_exact by (done || by repeat constructor). done.
Qed.

(** * The key *)


Definition SNAPSHOT_LAYOUT_VERSION : Z := 1.

(** What a file's metadata says: its length, and the nanoseconds since 1970
    when it was last written if there are any. *)
Definition file_stat : Type := Z * option Z.

(** One folded path. *)
Definition fold_path (label path : bytes) (stat : option file_stat) : bytes :=
  x7c :: label ++ [x3d] ++ path ++
  match stat with
  | Some (len, modified) =>
      x40 :: le_bytes 8 len ++ match modified with Some ns => x3a :: le_bytes 16 ns | None => [] end
  | None => []
  end.

Definition dep_mark : bytes := str "|dep=".

(** What is hashed, in the order of the updates. *)
Definition key_input (source : bytes) (deps : list bytes) (paths : list (bytes * bytes * option file_stat)) : bytes :=
  source ++ str "|protocol=" ++ le_bytes 4 PROTOCOL_VERSION ++
  str "|qemu-layout=" ++ le_bytes 4 SNAPSHOT_LAYOUT_VERSION ++
  (dep ← deps; dep_mark ++ dep) ++
  (p ← paths; fold_path p.1.1 p.1.2 p.2).

(** * Walking the references *)

(** The regular files: [Some None] is one that cannot be read. *)
Definition file_tree : Type := bytes -> option (option bytes).

(** [Path::join]. *)
Definition join (root rel : bytes) : bytes :=
  match rel with
  | x2f :: _ => rel
  | _ => match last root with
         | None => rel
         | Some x2f => root ++ rel
         | Some _ => root ++ x2f :: rel
         end
  end.

Fixpoint drop_while (f : byte -> bool) (s : bytes) : bytes :=
  match s with b :: s' => if f b then drop_while f s' else s | [] => [] end.

(** [Path::parent] of the path of a file: what is before the last separators. *)
Definition parent (path : bytes) : bytes :=
  let up := drop_while (fun b => negb (Byte.eqb b x2f)) (reverse path) in
  match drop_while (fun b => Byte.eqb b x2f) up with
  | [] => if decide (up = []) then [] else [x2f]
  | dir => reverse dir
  end.

Definition is_file (fs : file_tree) (path : bytes) : bool := bool_decide (is_Some (fs path)).

Section walk.
Context (roots : list bytes) (cwd : bytes) (fs : file_tree).

Definition locate_fixture (name : bytes) : option bytes :=
  snd <$> list_find (fun p => is_file fs p = true)
    ((fun root => join root (name ++ str ".fixture.lua")) <$> (if decide (roots = []) then [cwd] else roots)).

(** [module.replace('.', "/")]. *)
Definition module_path (module : bytes) : bytes := (fun b => if decide (b = x2e) then x2f else b) <$> module.

Definition locate_helper (module : bytes) : option bytes :=
  let rel := module_path module in
  snd <$> list_find (fun p => is_file fs p = true)
    (root ← roots; [join root (rel ++ str ".lua"); join (join root rel) (str "init.lua")]).

Definition text_of (source : bytes) : bytes := if utf8_valid source then source else [].

(** The references of a source in the order of the two loops, each with the
    mark it leaves in [seen] and the file it stands for. *)
Definition refs_of (fixture_mark require_mark source : bytes) : list (bytes * option bytes) :=
  ((fun d => (fixture_mark ++ d, locate_fixture d)) <$> scan_fixture_deps (text_of source)) ++
  ((fun m => (require_mark ++ m, locate_helper m)) <$> scan_require_deps (text_of source)).

(** A file that was reached, what it held, and those it refers to first. *)
#[warnings="-register-all"]
Inductive dep_node := DepNode (path source : bytes) (deps : list dep_node).

(** One loop over the references of a source, [rec] walking a file. *)
Fixpoint visit (rec : bytes -> list bytes -> option (list dep_node * list bytes))
    (refs : list (bytes * option bytes)) (seen : list bytes) : option (list dep_node * list bytes) :=
  match refs with
  | [] => Some ([], seen)
  | (mark, located) :: refs =>
      if decide (mark ∈ seen) then visit rec refs seen
      else
        let seen := seen ++ [mark] in
        match located with
        | None => visit rec refs seen
        | Some path =>
            match mjoin (fs path) with
            | None => visit rec refs seen
            | Some source =>
                '(nested, seen) ← rec source seen;
                '(rest, seen) ← visit rec refs seen;
                Some (DepNode path source nested :: rest, seen)
            end
        end
  end.

(** [None] when [fuel] files deep is not deep enough. *)
Fixpoint walk (fixture_mark require_mark : bytes) (fuel : nat) (source : bytes) (seen : list bytes)
    : option (list dep_node * list bytes) :=
  match fuel with
  | O => None
  | S fuel => visit (walk fixture_mark require_mark fuel) (refs_of fixture_mark require_mark source) seen
  end.
End walk.

Section keys.
Context (hash : bytes -> bytes).

(** [compute_key_with_deps], from the leaves up. *)
Fixpoint node_key (n : dep_node) : bytes :=
  match n with DepNode _ source deps => hash (key_input source (node_key <$> deps) []) end.

(** What the keys below a node are the hashes of. *)
Fixpoint node_inputs (n : dep_node) : list bytes :=
  match n with
  | DepNode _ source deps => key_input source (node_key <$> deps) [] :: flat_map node_inputs deps
  end.
End keys.

Fixpoint node_sources (n : dep_node) : list bytes :=
  match n with DepNode _ source deps => source :: flat_map node_sources deps end.

(** * One fixture *)

(** Where a fixture is looked up and what its machines boot. *)
Record setup := Setup {
  roots : list bytes; cwd : bytes; kernels : list bytes; initrds : list bytes }.

(** The host: regular files, metadata, and [fs::canonicalize]. *)
Record world := World {
  files : file_tree; metadata : bytes -> option file_stat; canonical : bytes -> option bytes }.

Definition resolve_dep_keys (c : setup) (w : world) (fuel : nat) (source : bytes) : option (list dep_node) :=
  fst <$> walk (roots c) (cwd c) (files w) [] (str "require::") fuel source [].

(** The external files of one source, relative ones under its directory. *)
Definition own_externals (w : world) (dir source : bytes) : list bytes :=
  (fun raw => let path := join dir raw in default path (canonical w path)) <$> scan_external_file_deps (text_of source).

Fixpoint node_externals (w : world) (n : dep_node) : list bytes :=
  match n with
  | DepNode path source deps => own_externals w (parent path) source ++ flat_map (node_externals w) deps
  end.

(** The first of each. *)
Fixpoint dedupe (kept out : list bytes) : list bytes :=
  match out with
  | [] => kept
  | p :: out => dedupe (if decide (p ∈ kept) then kept else kept ++ [p]) out
  end.

Definition resolve_external_deps (c : setup) (w : world) (fuel : nat) (fixture_path source : bytes) : option (list bytes) :=
  '(nodes, _) ← walk (roots c) (cwd c) (files w) (str "ext::fixture::") (str "ext::require::") fuel source [];
  Some (dedupe [] (own_externals w (parent fixture_path) source ++ flat_map (node_externals w) nodes)).

Definition labelled (w : world) (label : bytes) (paths : list bytes) : list (bytes * bytes * option file_stat) :=
  (fun p => (label, p, metadata w p)) <$> paths.

Definition folded (c : setup) (w : world) (externals : list bytes) : list (bytes * bytes * option file_stat) :=
  labelled w (str "kernel") (kernels c) ++ labelled w (str "initrd") (initrds c) ++ labelled w (str "external") externals.

(** The key of the fixture file [fixture_path] holding [source]. *)
Definition fixture_key (hash : bytes -> bytes) (c : setup) (w : world) (fuel : nat) (fixture_path source : bytes) : option bytes :=
  nodes ← resolve_dep_keys c w fuel source;
  externals ← resolve_external_deps c w fuel fixture_path source;
  Some (hash (key_input source (node_key hash <$> nodes) (folded c w externals))).

(** * The input of the hash can be read back *)

Definition layout_tail : bytes :=
  le_bytes 4 PROTOCOL_VERSION ++ str "|qemu-layout=" ++ le_bytes 4 SNAPSHOT_LAYOUT_VERSION.

(** A source that does not look like the input of a key itself. *)
Definition plain_source (source : bytes) : Prop := find_bytes (str "|protocol=") source = None.
#[export] Instance plain_source_dec source : Decision (plain_source source).
Proof. unfold plain_source. apply _. Defined.

(** A path that keeps clear of the two bytes that follow a path. *)
Definition plain_path (path : bytes) : Prop := (x7c ∉ path) /\ (x40 ∉ path).

Lemma cut_at_marker c m s1 s2 r1 r2 :
  c ∉ m -> find_bytes (c :: m) s1 = None -> find_bytes (c :: m) s2 = None ->
  s1 ++ (c :: m) ++ r1 = s2 ++ (c :: m) ++ r2 -> s1 = s2 /\ r1 = r2.
Proof.
  intros Hc H1 H2 Heq.
  assert (Hfind : forall s r, find_bytes (c :: m) s = None -> find_bytes (c :: m) (s ++ (c :: m) ++ r) = Some (length s)).
  { clear -Hc. intros s r. induction s as [|b s IH]; intros Hs.
    - assert (Hp : prefixed (c :: m) ((c :: m) ++ r) = true) by (apply prefixed_spec; by eexists).
      cbn [app]. cbn [app] in Hp. cbn [find_bytes]. by rewrite Hp.
    - cbn [find_bytes] in Hs. destruct (prefixed (c :: m) (b :: s)) eqn:Ep; [done|].
      destruct (find_bytes (c :: m) s) eqn:Es; [done|]. specialize (IH eq_refl).
      change ((b :: s) ++ (c :: m) ++ r) with (b :: (s ++ (c :: m) ++ r)). cbn [find_bytes]. rewrite IH.
      destruct (prefixed (c :: m) (b :: (s ++ (c :: m) ++ r))) eqn:Ep2; [|done]. exfalso.
      apply prefixed_spec in Ep2 as [rest Hr]. change (b :: s ++ (c :: m) ++ r) with ((b :: s) ++ c :: (m ++ r)) in Hr.
      apply app_eq_inv in Hr as [(k & Hk1 & Hk2)|(k & Hk1 & Hk2)].
      + assert (prefixed (c :: m) (b :: s) = true) by (apply prefixed_spec; eauto). congruence.
      + destruct k as [|d k].
        * rewrite app_nil_r in Hk1. assert (prefixed (c :: m) (b :: s) = true) by (apply prefixed_spec; exists []; by rewrite app_nil_r, Hk1). congruence.
        * injection Hk2 as <- _. injection Hk1 as _ Hm. apply Hc. rewrite Hm. apply elem_of_app. right. by left. }
  pose proof (Hfind s1 r1 H1) as E1. pose proof (Hfind s2 r2 H2) as E2. rewrite Heq, E2 in E1. injection E1 as Hl.
  apply app_inj_1 in Heq as [-> Heq]; [|done]. split; [done|]. by apply app_inv_head in Heq.
Qed.

(** The rest of an input after the keys: it ends there or a path follows. *)
Definition no_dep (t : bytes) : Prop := prefixed dep_mark t = false.

Lemma deps_inj ds1 ds2 t1 t2 :
  Forall (fun d => length d = 64%nat) ds1 -> Forall (fun d => length d = 64%nat) ds2 -> no_dep t1 -> no_dep t2 ->
  (d ← ds1; dep_mark ++ d) ++ t1 = (d ← ds2; dep_mark ++ d) ++ t2 -> ds1 = ds2 /\ t1 = t2.
Proof.
  intros H1. revert ds2. induction H1 as [|d1 ds1 Hd1 H1 IH]; intros [|d2 ds2] H2 Ht1 Ht2 Heq.
  - done.
  - exfalso. unfold no_dep in Ht1. cbn [mbind list_bind app] in Heq. rewrite Heq, <- app_assoc, <- app_assoc in Ht1.
    assert (prefixed dep_mark (dep_mark ++ d2 ++ mbind (fun d => dep_mark ++ d) ds2 ++ t2) = true) by (apply prefixed_spec; by eexists).
    congruence.
  - exfalso. unfold no_dep in Ht2. cbn [mbind list_bind app] in Heq. rewrite <- Heq, <- app_assoc, <- app_assoc in Ht2.
    assert (prefixed dep_mark (dep_mark ++ d1 ++ mbind (fun d => dep_mark ++ d) ds1 ++ t1) = true) by (apply prefixed_spec; by eexists).
    congruence.
  - inversion H2; subst. rewrite !bind_cons, <- !app_assoc in Heq. apply app_inv_head in Heq.
    apply app_inj_1 in Heq as [-> Heq]; [|congruence].
    destruct (IH ds2) as [-> ->]; auto.
Qed.

(** Nothing, or the start of another path. *)
Definition path_next (t : bytes) : Prop := match t with [] => True | b :: _ => b = x7c end.

Lemma upto_inj (stop : byte -> Prop) p1 p2 t1 t2 :
  (forall b, b ∈ p1 -> ~ stop b) -> (forall b, b ∈ p2 -> ~ stop b) ->
  match t1 with [] => True | b :: _ => stop b end -> match t2 with [] => True | b :: _ => stop b end ->
  p1 ++ t1 = p2 ++ t2 -> p1 = p2 /\ t1 = t2.
Proof.
  revert p2. induction p1 as [|a p1 IH]; intros [|b p2] H1 H2 Ht1 Ht2 Heq; cbn [app] in Heq.
  - done.
  - subst t1. exfalso. apply (H2 b); [by left|done].
  - subst t2. exfalso. apply (H1 a); [by left|done].
  - injection Heq as -> Heq. destruct (IH p2) as [-> ->]; auto; intros x Hx; [apply H1|apply H2]; by right.
Qed.

Definition stat_ok (stat : option file_stat) : Prop :=
  match stat with
  | Some (len, modified) => in_width u64_max len /\ match modified with Some ns => 0 <= ns < 256 ^ 16 | None => True end
  | None => True
  end.

Lemma le_bytes_inj n x y : 0 <= x < 256 ^ Z.of_nat n -> 0 <= y < 256 ^ Z.of_nat n -> le_bytes n x = le_bytes n y -> x = y.
Proof. intros Hx Hy Heq. rewrite <- (of_le_bytes_le_small n x), <- (of_le_bytes_le_small n y), Heq by done. done. Qed.

Lemma cons_tail {A} (x y : A) l k : x :: l = y :: k -> l = k.
Proof. congruence. Qed.

Lemma fold_path_inj l1 p1 s1 l2 p2 s2 t1 t2 :
  x3d ∉ l1 -> x3d ∉ l2 -> plain_path p1 -> plain_path p2 -> stat_ok s1 -> stat_ok s2 -> path_next t1 -> path_next t2 ->
  fold_path l1 p1 s1 ++ t1 = fold_path l2 p2 s2 ++ t2 -> (l1, p1, s1) = (l2, p2, s2) /\ t1 = t2.
Proof.
  intros Hl1 Hl2 [Hp1 Hp1'] [Hp2 Hp2'] Hs1 Hs2 Ht1 Ht2 Heq. unfold fold_path in Heq. cbn [app] in Heq.
  apply cons_tail in Heq. rewrite <- !app_assoc in Heq.
  apply (upto_inj (fun b => b = x3d)) in Heq as [-> Heq]; [|by intros b Hb ->..|done|done].
  cbn [app] in Heq. apply cons_tail in Heq.
  assert (Hstop : forall p : bytes, x7c ∉ p -> x40 ∉ p -> forall b, b ∈ p -> ~ (b = x7c \/ b = x40)) by (intros p H7 H4 b Hb [->| ->]; done).
  rewrite <- !app_assoc in Heq.
  apply (upto_inj (fun b => b = x7c \/ b = x40)) in Heq as [-> Heq]; [|by apply Hstop..| |].
  2:{ destruct s1 as [[len m]|]; cbn [app]; [by right|]. destruct t1; [done|by left]. }
  2:{ destruct s2 as [[len m]|]; cbn [app]; [by right|]. destruct t2; [done|by left]. }
  destruct s1 as [[len1 m1]|], s2 as [[len2 m2]|]; cbn [app] in Heq.
  - apply cons_tail in Heq. rewrite <- !app_assoc in Heq.
    apply app_inj_1 in Heq as [Hlen Heq]; [|by rewrite !length_le_bytes].
    destruct Hs1 as [Hw1 Hm1], Hs2 as [Hw2 Hm2]. apply le_bytes_inj in Hlen as ->; [|unfold in_width, u64_max in *; simpl; lia..].
    destruct m1 as [n1|], m2 as [n2|]; cbn [app] in Heq.
    + apply cons_tail in Heq. apply app_inj_1 in Heq as [Hn ->]; [|by rewrite !length_le_bytes].
      by apply le_bytes_inj in Hn as ->.
    + subst t2. done.
    + subst t1. done.
    + by subst.
  - subst t2. done.
  - subst t1. done.
  - by subst.
Qed.

Definition plain_entry (e : bytes * bytes * option file_stat) : Prop :=
  (x3d ∉ e.1.1) /\ plain_path e.1.2 /\ stat_ok e.2.

Lemma paths_next (l : list (bytes * bytes * option file_stat)) : path_next (p ← l; fold_path p.1.1 p.1.2 p.2).
Proof. by destruct l as [|p l]. Qed.

Lemma paths_inj ps1 ps2 :
  Forall plain_entry ps1 -> Forall plain_entry ps2 ->
  (p ← ps1; fold_path p.1.1 p.1.2 p.2) = (p ← ps2; fold_path p.1.1 p.1.2 p.2) -> ps1 = ps2.
Proof.
  intros H1. revert ps2. induction H1 as [|[[l1 p1] s1] ps1 (Hl1 & Hp1 & Hs1) H1 IH]; intros [|[[l2 p2] s2] ps2] H2 Heq; [done..|].
  inversion H2 as [|? ? (Hl2 & Hp2 & Hs2) H2']; subst. rewrite !bind_cons in Heq. cbn [fst snd] in *.
  apply fold_path_inj in Heq as [-> Heq]; auto using paths_next. f_equal. by apply IH.
Qed.

Definition kinds_of_path : list bytes := [str "kernel"; str "initrd"; str "external"].

Lemma paths_no_dep (ps : list (bytes * bytes * option file_stat)) :
  Forall (fun e => e.1.1 ∈ kinds_of_path) ps -> no_dep (p ← ps; fold_path p.1.1 p.1.2 p.2).
Proof.
  destruct ps as [|[[l p] s] ps]; [done|]. intros Hk. inversion Hk as [|? ? Hl _]; subst. simpl in Hl.
  rewrite bind_cons. unfold fold_path, kinds_of_path in *. cbn [fst snd].
  rewrite !elem_of_cons, elem_of_nil in Hl. by destruct Hl as [->|[->|[->|[]]]].
Qed.

Lemma key_input_inj s1 ds1 ps1 s2 ds2 ps2 :
  plain_source s1 -> plain_source s2 ->
  Forall (fun d => length d = 64%nat) ds1 -> Forall (fun d => length d = 64%nat) ds2 ->
  Forall (fun e => e.1.1 ∈ kinds_of_path) ps1 -> Forall (fun e => e.1.1 ∈ kinds_of_path) ps2 ->
  key_input s1 ds1 ps1 = key_input s2 ds2 ps2 ->
  s1 = s2 /\ ds1 = ds2 /\ (Forall plain_entry ps1 -> Forall plain_entry ps2 -> ps1 = ps2).
Proof.
  intros Hs1 Hs2 Hd1 Hd2 Hk1 Hk2 Heq. unfold key_input in Heq.
  change (str "|protocol=") with (x7c :: str "protocol=") in Heq.
  apply cut_at_marker in Heq as [-> Heq]; [|by apply (bool_decide_unpack _)|done|done].
  do 3 apply app_inv_head in Heq.
  apply deps_inj in Heq as [-> Heq]; auto using paths_no_dep. eauto using paths_inj.
Qed.

(** * The same keys, the same files *)

Section tracks.
Context (hash : bytes -> bytes).

(** SHA-256 in hexadecimal. *)
Hypothesis hash_length : forall input, length (hash input) = 64%nat.

(** No two of these inputs have one hash. *)
Definition no_collision (inputs : list bytes) : Prop :=
  forall p q, p ∈ inputs -> q ∈ inputs -> hash p = hash q -> p = q.

(** Two hosts with the same files, apart from what is in them. *)
Definition same_files (fs1 fs2 : file_tree) : Prop :=
  forall p, (fs1 p = None <-> fs2 p = None) /\ (fs1 p = Some None <-> fs2 p = Some None).

Lemma keys_length (ns : list dep_node) : Forall (fun d => length d = 64%nat) (node_key hash <$> ns).
Proof. apply Forall_fmap, Forall_true. intros [p s ds]. apply hash_length. Qed.

Section two_worlds.
Context (rs : list bytes) (dir : bytes) (fs1 fs2 : file_tree) (Hsame : same_files fs1 fs2) (fm rm : bytes).

Lemma same_is_file p : is_file fs1 p = is_file fs2 p.
Proof.
  destruct (Hsame p) as [Hn _]. unfold is_file. apply bool_decide_ext. rewrite <- !not_eq_None_Some. tauto.
Qed.

Lemma same_find (ps : list bytes) :
  list_find (fun p => is_file fs1 p = true) ps = list_find (fun p => is_file fs2 p = true) ps.
Proof. induction ps as [|p ps IH]; [done|]. cbn [list_find]. rewrite IH. by rewrite same_is_file. Qed.

Lemma same_refs source : refs_of rs dir fs1 fm rm source = refs_of rs dir fs2 fm rm source.
Proof.
  unfold refs_of. f_equal; apply list_fmap_ext; intros i x _; unfold locate_fixture, locate_helper; by rewrite same_find.
Qed.

(** The inputs and the sources of two walks. *)
Definition agree_on (ns1 ns2 : list dep_node) : Prop :=
  no_collision (flat_map (node_inputs hash) ns1 ++ flat_map (node_inputs hash) ns2) /\
  Forall plain_source (flat_map node_sources ns1) /\ Forall plain_source (flat_map node_sources ns2).

Lemma agree_on_tail n1 ns1 n2 ns2 : agree_on (n1 :: ns1) (n2 :: ns2) -> agree_on ns1 ns2.
Proof.
  unfold agree_on. cbn [flat_map]. rewrite !Forall_app. intros (Hc & [_ H1] & [_ H2]). split_and!; auto.
  intros p q Hp Hq. apply Hc; revert Hp Hq; rewrite !elem_of_app; tauto.
Qed.

Lemma agree_on_head p1 s1 ds1 ns1 p2 s2 ds2 ns2 :
  agree_on (DepNode p1 s1 ds1 :: ns1) (DepNode p2 s2 ds2 :: ns2) ->
  node_key hash (DepNode p1 s1 ds1) = node_key hash (DepNode p2 s2 ds2) ->
  s1 = s2 /\ node_key hash <$> ds1 = node_key hash <$> ds2 /\ agree_on ds1 ds2.
Proof.
  unfold agree_on. cbn [flat_map node_inputs node_sources node_key app]. rewrite !Forall_cons, !Forall_app.
  intros (Hc & (P1 & Q1 & _) & (P2 & Q2 & _)) Heq. apply Hc in Heq; [|by left|].
  2:{ right. rewrite !elem_of_app. right. by left. }
  apply key_input_inj in Heq as (-> & Hk & _); auto using keys_length. split_and!; auto.
  intros p q Hp Hq. apply Hc; right; revert Hp Hq; rewrite !elem_of_app; [intros [?|?] _|intros _ [?|?]];
    first [tauto | right; right; rewrite ?elem_of_app; tauto].
Qed.

Lemma visit_same (rec1 rec2 : bytes -> list bytes -> option (list dep_node * list bytes)) refs seen ns1 ns2 seen1 seen2 :
  (forall source seen ns1 ns2 seen1 seen2, rec1 source seen = Some (ns1, seen1) -> rec2 source seen = Some (ns2, seen2) ->
     agree_on ns1 ns2 -> node_key hash <$> ns1 = node_key hash <$> ns2 -> ns1 = ns2 /\ seen1 = seen2) ->
  visit fs1 rec1 refs seen = Some (ns1, seen1) -> visit fs2 rec2 refs seen = Some (ns2, seen2) ->
  agree_on ns1 ns2 -> node_key hash <$> ns1 = node_key hash <$> ns2 -> ns1 = ns2 /\ seen1 = seen2.
Proof.
  intros Hrec. revert seen ns1 ns2. induction refs as [|[mark located] refs IH]; intros seen ns1 ns2; cbn [visit].
  { by intros [= <- <-] [= <- <-]. }
  destruct (decide (mark ∈ seen)); [by apply IH|]. destruct located as [path|]; [|by apply IH].
  destruct (Hsame path) as [Hn Hu].
  destruct (fs1 path) as [[src1|]|] eqn:E1, (fs2 path) as [[src2|]|] eqn:E2; simpl;
    try (by apply IH); try (by destruct Hn as [Hn1 Hn2]; first [by specialize (Hn1 eq_refl) | by specialize (Hn2 eq_refl)]);
    try (by destruct Hu as [Hu1 Hu2]; first [by specialize (Hu1 eq_refl) | by specialize (Hu2 eq_refl)]).
  destruct (rec1 src1 _) as [[d1 sn1]|] eqn:R1; [|done]. destruct (rec2 src2 _) as [[d2 sn2]|] eqn:R2; [|done]. simpl.
  destruct (visit fs1 rec1 refs sn1) as [[r1 t1]|] eqn:V1; [|done].
  destruct (visit fs2 rec2 refs sn2) as [[r2 t2]|] eqn:V2; [|done]. simpl.
  intros [= <- <-] [= <- <-] Hagree Hkeys. rewrite !fmap_cons in Hkeys.
  pose proof (f_equal head Hkeys) as Hk1. pose proof (f_equal tail Hkeys) as Hk2. cbn [head tail] in Hk1, Hk2.
  destruct (agree_on_head _ _ _ _ _ _ _ _ Hagree) as (-> & Hd & Hag); [congruence|].
  destruct (Hrec _ _ _ _ _ _ R1 R2 Hag Hd) as [-> ->].
  destruct (IH _ _ _ V1 V2 (agree_on_tail _ _ _ _ Hagree) Hk2) as [-> ->]. done.
Qed.

Lemma walk_same fuel1 fuel2 source seen ns1 ns2 seen1 seen2 :
  walk rs dir fs1 fm rm fuel1 source seen = Some (ns1, seen1) ->
  walk rs dir fs2 fm rm fuel2 source seen = Some (ns2, seen2) ->
  agree_on ns1 ns2 -> node_key hash <$> ns1 = node_key hash <$> ns2 -> ns1 = ns2 /\ seen1 = seen2.
Proof.
  revert fuel2 source seen ns1 ns2 seen1 seen2. induction fuel1 as [|fuel1 IH]; intros [|fuel2]; cbn [walk]; try done.
  intros source seen ns1 ns2 seen1 seen2. rewrite <- same_refs. apply visit_same. intros ? ? ? ? ? ?. apply IH.
Qed.
End two_worlds.
End tracks.

(** * The walk ends *)

Section total.
Context (rs : list bytes) (dir : bytes) (fs : file_tree) (fm rm : bytes).

(** The marks the sources on the host can leave: finitely many, as its files are. *)
Context (marks : gset bytes).
Hypothesis marks_all : forall path source, fs path = Some (Some source) -> forall m l, (m, l) ∈ refs_of rs dir fs fm rm source -> m ∈ marks.

Definition unseen (seen : list bytes) : nat := size (marks ∖ (list_to_set seen : gset bytes)).

Lemma unseen_push seen mark : mark ∈ marks -> mark ∉ seen -> (unseen (seen ++ [mark]) < unseen seen)%nat.
Proof.
  intros Hm Hs. unfold unseen. apply subset_size. split.
  - intros x. rewrite list_to_set_app_L, !elem_of_difference, elem_of_union. tauto.
  - intros Hsub. assert (Hx : mark ∈ marks ∖ (list_to_set (seen ++ [mark]) : gset bytes)).
    { apply Hsub. rewrite elem_of_difference, elem_of_list_to_set. done. }
    apply elem_of_difference in Hx as [_ Hx]. apply Hx, elem_of_list_to_set, elem_of_app. right. by left.
Qed.

Lemma unseen_mono seen seen' : seen ⊆ seen' -> (unseen seen' <= unseen seen)%nat.
Proof.
  intros Hs. unfold unseen. apply subseteq_size. intros x. rewrite !elem_of_difference, !elem_of_list_to_set. intros [? Hn].
  split; [done|]. intros Hx. by apply Hn, Hs.
Qed.

Lemma visit_total rec fuel refs seen :
  (forall path source seen, fs path = Some (Some source) -> (unseen seen < fuel)%nat ->
     exists ns seen', rec source seen = Some (ns, seen') /\ seen ⊆ seen') ->
  (forall m l, (m, l) ∈ refs -> m ∈ marks) -> (unseen seen <= fuel)%nat ->
  exists ns seen', visit fs rec refs seen = Some (ns, seen') /\ seen ⊆ seen'.
Proof.
  intros Hrec. revert seen. induction refs as [|[mark located] refs IH]; intros seen Hrefs Hseen; cbn [visit]; [eauto|].
  assert (Hrefs' : forall m l, (m, l) ∈ refs -> m ∈ marks) by (intros m l Hin; apply (Hrefs m l); by right).
  destruct (decide (mark ∈ seen)) as [|Hnew]; [by apply IH|].
  pose proof (unseen_push seen mark ltac:(apply (Hrefs mark located); by left) Hnew) as Hless.
  assert (Hskip : exists ns seen', visit fs rec refs (seen ++ [mark]) = Some (ns, seen') /\ seen ⊆ seen').
  { destruct (IH (seen ++ [mark])) as (ns & seen' & E & Hsub); auto; [lia|]. exists ns, seen'. split; [done|].
    intros x Hx. apply Hsub, elem_of_app. by left. }
  destruct located as [path|]; [|done]. destruct (fs path) as [[source|]|] eqn:Ef; [|done..]. simpl.
  destruct (Hrec path source (seen ++ [mark]) Ef) as (nested & s1 & -> & Hs1); [lia|]. simpl.
  destruct (IH s1) as (rest & s2 & -> & Hs2); auto.
  { pose proof (unseen_mono _ _ Hs1). lia. }
  simpl. do 2 eexists. split; [done|]. intros x Hx. apply Hs2, Hs1, elem_of_app. by left.
Qed.

(** As many levels as there are marks are deep enough, cycles and all. *)
Lemma walk_total fuel source seen :
  (forall m l, (m, l) ∈ refs_of rs dir fs fm rm source -> m ∈ marks) -> (unseen seen < fuel)%nat ->
  exists ns seen', walk rs dir fs fm rm fuel source seen = Some (ns, seen') /\ seen ⊆ seen'.
Proof.
  revert source seen. induction fuel as [|fuel IH]; intros source seen Hsrc Hfuel; [lia|]. cbn [walk].
  apply (visit_total _ fuel); [|done|lia]. intros path src seen' Hf Hu. apply IH; [|done]. by apply (marks_all path).
Qed.
End total.

(** * The key of a fixture *)

Section key_theorem.
Context (hash : bytes -> bytes).

Lemma labelled_inj w1 w2 label ps1 ps2 t1 t2 :
  length ps1 = length ps2 -> labelled w1 label ps1 ++ t1 = labelled w2 label ps2 ++ t2 ->
  ps1 = ps2 /\ (forall p, p ∈ ps1 -> metadata w1 p = metadata w2 p) /\ t1 = t2.
Proof.
  intros Hl Heq. unfold labelled in Heq. apply app_inj_1 in Heq as [Heq ->]; [|by rewrite !length_fmap].
  clear Hl. revert ps2 Heq. induction ps1 as [|p ps1 IH]; intros [|q ps2] Heq; try done.
  - split_and!; [done| |done]. intros p Hp. by apply not_elem_of_nil in Hp.
  - rewrite !fmap_cons in Heq. injection Heq as -> Hm Heq. destruct (IH _ Heq) as (-> & Hall & _).
    split_and!; [done| |done]. intros x [->|Hx]%elem_of_cons; auto.
Qed.

Lemma folded_kinds c w ext : Forall (fun e : bytes * bytes * option file_stat => e.1.1 ∈ kinds_of_path) (folded c w ext).
Proof.
  unfold folded, labelled, kinds_of_path. rewrite !Forall_app, !Forall_fmap.
  split_and!; apply Forall_true; intros x; simpl; rewrite !elem_of_cons; tauto.
Qed.

(** C32: a stale fixture is a cache miss. Take a fixture and the same host at
    two times, with the same files there but whatever in them. If both times
    give one cache key, and the hash has no collision among the inputs that
    were hashed, then the fixture, every fixture and helper it reaches through
    references, directly or not, and the metadata of every kernel, initrd and
    external file are the same: an edit to any of them changes the key. (The
    sources do not spell the key's own marker, and the paths hold no bar and
    no at sign.) *)
Theorem cache_key_tracks_edits c w1 w2 fuel1 fuel2 path1 path2 s1 s2 ns1 ns2 ext1 ext2 :
  (forall input, length (hash input) = 64%nat) ->
  same_files (files w1) (files w2) ->
  resolve_dep_keys c w1 fuel1 s1 = Some ns1 -> resolve_dep_keys c w2 fuel2 s2 = Some ns2 ->
  resolve_external_deps c w1 fuel1 path1 s1 = Some ext1 -> resolve_external_deps c w2 fuel2 path2 s2 = Some ext2 ->
  no_collision hash (key_input s1 (node_key hash <$> ns1) (folded c w1 ext1) ::
                     key_input s2 (node_key hash <$> ns2) (folded c w2 ext2) ::
                     flat_map (node_inputs hash) ns1 ++ flat_map (node_inputs hash) ns2) ->
  Forall plain_source (s1 :: flat_map node_sources ns1) -> Forall plain_source (s2 :: flat_map node_sources ns2) ->
  Forall plain_entry (folded c w1 ext1) -> Forall plain_entry (folded c w2 ext2) ->
  fixture_key hash c w1 fuel1 path1 s1 = fixture_key hash c w2 fuel2 path2 s2 ->
  s1 = s2 /\ ns1 = ns2 /\ ext1 = ext2 /\
  forall p, p ∈ kernels c ++ initrds c ++ ext1 -> metadata w1 p = metadata w2 p.
Proof.
  intros Hlen Hsame Hn1 Hn2 He1 He2 Hcoll [P1 Q1]%Forall_cons [P2 Q2]%Forall_cons Hf1 Hf2 Hkey.
  unfold fixture_key in Hkey. rewrite Hn1, Hn2, He1, He2 in Hkey. simpl in Hkey. injection Hkey as Hkey.
  apply Hcoll in Hkey; [|by left|right; by left].
  apply key_input_inj in Hkey as (-> & Hk & Hfold); auto using keys_length, folded_kinds. specialize (Hfold Hf1 Hf2).
  split; [done|]. unfold resolve_dep_keys in Hn1, Hn2.
  destruct (walk _ _ (files w1) _ _ _ _ _) as [[m1 t1]|] eqn:W1; [|done].
  destruct (walk _ _ (files w2) _ _ _ _ _) as [[m2 t2]|] eqn:W2; [|done]. simplify_eq/=.
  destruct (walk_same hash Hlen _ _ _ _ Hsame _ _ _ _ _ _ _ _ _ _ W1 W2) as [-> _]; [|done|].
  { split_and!; auto. intros p q Hp Hq. apply Hcoll; right; by right. }
  split; [done|]. unfold folded in Hfold.
  apply labelled_inj in Hfold as (_ & Hker & Hfold); [|done].
  apply labelled_inj in Hfold as (_ & Hini & Hfold); [|done].
  rewrite <- (app_nil_r (labelled w1 _ _)), <- (app_nil_r (labelled w2 _ _)) in Hfold.
  apply labelled_inj in Hfold as (-> & Hext & _).
  2:{ apply (f_equal length) in Hfold. rewrite !length_app in Hfold. unfold labelled in Hfold. rewrite !length_fmap in Hfold. simpl in Hfold. lia. }
  split; [done|]. intros p [Hp|[Hp|Hp]%elem_of_app]%elem_of_app; auto.
Qed.
End key_theorem.

Lemma no_collision_Forall hash l : Forall (fun p => Forall (fun q => hash p = hash q -> p = q) l) l -> no_collision hash l.
Proof.
  rewrite Forall_forall. intros Hall p q Hp Hq. specialize (Hall p Hp). rewrite Forall_forall in Hall. by apply Hall.
Qed.

Definition demo_hash (input : bytes) : bytes :=
  le_bytes 64 (foldl (fun h b => Z.land (Z.lxor h (byte_to_Z b) * 1099511628211) u64_max) 14695981039346656037 input).

Definition demo_files (helper other : bytes) : file_tree := fun p =>
  if decide (p = str "t/base.fixture.lua") then Some (Some (str "return provium:vm('b', 'p'):boot():snapshot()"))
  else if decide (p = str "t/h/net.lua") then Some (Some helper)
  else if decide (p = str "t/other.lua") then Some (Some other)
  else None.

Definition demo_source : bytes := str "local n = require('h.net') local b = provium:vm_fixture('base') b:push_file('x.conf', '/x') return b:snapshot()".

Definition demo_setup : setup := Setup [str "t"] (str "/") [str "/boot/k"] [str "/boot/i"].

Definition demo_world (helper other : bytes) : world :=
  World (demo_files helper other) (fun p => if decide (p = str "/boot/k") then Some (4096, Some 7) else None) (fun _ => None).

(** A helper that requires itself, and the key of a fixture that uses it. *)
Definition demo_helper : bytes := str "require('h.net')".
Definition demo_nodes (w : world) : list dep_node := default [] (resolve_dep_keys demo_setup w 5 demo_source).
Definition demo_key (w : world) : option bytes := fixture_key demo_hash demo_setup w 5 (str "t/f.fixture.lua") demo_source.

Example edits_change_the_key :
  length (demo_nodes (demo_world demo_helper [])) = 2%nat /\
  resolve_external_deps demo_setup (demo_world demo_helper []) 5 (str "t/f.fixture.lua") demo_source = Some [str "t/x.conf"] /\
  demo_key (demo_world demo_helper []) = demo_key (demo_world demo_helper (str "edited")) /\
  demo_key (demo_world demo_helper []) <> demo_key (demo_world (str "edited") []).
Proof. split_and!; by vm_compute. Qed.

Lemma cache_key_tracks_edits_witness :
  demo_nodes (demo_world demo_helper []) = demo_nodes (demo_world demo_helper (str "edited")).
Proof.
  destruct (cache_key_tracks_edits demo_hash demo_setup (demo_world demo_helper []) (demo_world demo_helper (str "edited")) 5 5
    (str "t/f.fixture.lua") (str "t/f.fixture.lua") demo_source demo_source
    (demo_nodes (demo_world demo_helper [])) (demo_nodes (demo_world demo_helper (str "edited")))
    [str "t/x.conf"] [str "t/x.conf"]) as (_ & H & _).
  - intros input. apply length_le_bytes.
  - intros p. unfold files, demo_world, demo_files. repeat destruct (decide _); done.
  - vm_compute; reflexivity.
  - vm_compute; reflexivity.
  - vm_compute; reflexivity.
  - vm_compute; reflexivity.
  - apply no_collision_Forall, (bool_decide_unpack _). vm_compute. exact I.
  - apply (bool_decide_unpack _). vm_compute. exact I.
  - apply (bool_decide_unpack _). vm_compute. exact I.
  - repeat constructor; try (apply (bool_decide_unpack _); vm_compute; exact I); vm_compute; done.
  - repeat constructor; try (apply (bool_decide_unpack _); vm_compute; exact I); vm_compute; done.
  - vm_compute; reflexivity.
  - exact H.
Defined.

(** * Eviction *)

(** An entry of the cache directory: a snapshot file or a lab directory, its
    size as counted, and when it was last used. *)
Record entry := Entry { e_path : bytes; e_lab : bool; e_size : Z; e_atime : Z }.

(** A directory entry as [read_dir] shows it: its name, its metadata if there
    is any, and the sizes of the files inside. *)
Record dirent := Dirent { d_path : bytes; d_dir : bool; d_len : Z; d_atime : option Z; d_inner : list Z }.

Definition ends_with (suffix s : bytes) : bool := prefixed (reverse suffix) (reverse s).

(** The file name's extension, if its last part has one. *)
Definition has_extension (ext path : bytes) : bool :=
  ends_with (x2e :: ext) path && negb (ends_with (x2f :: x2e :: ext) path) && negb (bool_decide (path = x2e :: ext)).

Definition entry_of (d : dirent) : option entry :=
  let is_lab := d_dir d && ends_with (str ".lab") (d_path d) in
  if is_lab || has_extension (str "snap") (d_path d) then
    Some (Entry (d_path d) is_lab
            (if is_lab then foldl (sat_add u64_max) 0 (d_inner d) else d_len d) (default 0 (d_atime d)))
  else None.

Fixpoint insert_by_atime (e : entry) (l : list entry) : list entry :=
  match l with
  | [] => [e]
  | k :: l => if e_atime e <=? e_atime k then e :: k :: l else k :: insert_by_atime e l
  end.

Definition sort_by_atime (l : list entry) : list entry := foldr insert_by_atime [] l.

Record eviction_report := EvictionReport { evicted_count : Z; evicted_bytes : Z; kept_bytes : Z }.

Section eviction.
(** Whether an entry can be removed. *)
Context (removable : entry -> bool) (max_bytes : Z).

(** The loop, oldest first, with the entries it removed. *)
Fixpoint evict_loop (entries : list entry) (r : eviction_report) : eviction_report * list entry :=
  match entries with
  | [] => (r, [])
  | e :: rest =>
      if kept_bytes r <=? max_bytes then (r, [])
      else if removable e then
        let '(r', gone) := evict_loop rest
          (EvictionReport (evicted_count r + 1) (evicted_bytes r + e_size e) (sat_sub (kept_bytes r) (e_size e))) in
        (r', e :: gone)
      else evict_loop rest r
  end.

Definition total_size (l : list entry) : Z := lsum e_size l.

(** [None]: there is no cache directory. *)
Definition evict_to (dir : option (list dirent)) : eviction_report * list entry :=
  match dir with
  | None => (EvictionReport 0 0 0, [])
  | Some ds =>
      let entries := omap entry_of ds in
      let total := total_size entries in
      if total <=? max_bytes then (EvictionReport 0 0 total, [])
      else evict_loop (sort_by_atime entries) (EvictionReport 0 0 total)
  end.
End eviction.

(** The lock file that goes with an entry. *)
Definition lock_of (e : entry) : bytes :=
  if e_lab e then e_path e ++ str ".lock" else take (length (e_path e) - 4) (e_path e) ++ str "lock".

(** ** What eviction leaves *)

Lemma insert_by_atime_Permutation e l : insert_by_atime e l ≡ₚ e :: l.
Proof.
  induction l as [|k l IH]; cbn [insert_by_atime]; [done|]. destruct (_ <=? _); [done|].
  rewrite IH. apply Permutation_swap.
Qed.

Lemma sort_by_atime_Permutation l : sort_by_atime l ≡ₚ l.
Proof. induction l as [|e l IH]; [done|]. cbn [sort_by_atime foldr]. rewrite insert_by_atime_Permutation. by f_equiv. Qed.

Definition older (e k : entry) : Prop := e_atime e <= e_atime k.

Lemma insert_by_atime_sorted e l : StronglySorted older l -> StronglySorted older (insert_by_atime e l).
Proof.
  induction l as [|k l IH]; intros Hs; cbn [insert_by_atime]; [by repeat constructor|].
  apply StronglySorted_inv in Hs as [Hs Hk]. destruct (Z.leb_spec (e_atime e) (e_atime k)) as [Hle|Hgt].
  - constructor; [by constructor|]. constructor; [done|]. eapply Forall_impl; [done|]. intros x Hx. unfold older in *. simpl in *. lia.
  - constructor; [by apply IH|]. rewrite insert_by_atime_Permutation. constructor; [unfold older; lia|done].
Qed.

Lemma sort_by_atime_sorted l : StronglySorted older (sort_by_atime l).
Proof. induction l as [|e l IH]; [constructor|]. by apply insert_by_atime_sorted. Qed.

Lemma total_size_Permutation l k : l ≡ₚ k -> total_size l = total_size k.
Proof. unfold total_size, lsum. induction 1; simpl; lia. Qed.

Lemma total_size_app l k : total_size (l ++ k) = total_size l + total_size k.
Proof. induction l as [|e l IH]; [done|]. cbn. unfold total_size, lsum in *. lia. Qed.

Lemma total_size_filter (P : entry -> Prop) `{!forall e, Decision (P e)} l :
  Forall (fun e => 0 <= e_size e) l -> total_size (filter P l) <= total_size l.
Proof.
  induction 1 as [|e l He Hl IH]; [done|]. rewrite filter_cons. unfold total_size, lsum in *.
  destruct (decide _); simpl; lia.
Qed.

Section eviction_proofs.
Context (removable : entry -> bool) (max_bytes : Z).

(** The loop takes a prefix of what can be removed, no longer than needed. *)
Lemma evict_loop_spec l r r' gone :
  Forall (fun e => 0 <= e_size e) l -> total_size (filter (fun e => removable e = true) l) <= kept_bytes r ->
  evict_loop removable max_bytes l r = (r', gone) ->
  exists kept, filter (fun e => removable e = true) l = gone ++ kept /\
    r' = EvictionReport (evicted_count r + zlen gone) (evicted_bytes r + total_size gone) (kept_bytes r - total_size gone) /\
    (max_bytes < kept_bytes r' -> kept = []) /\
    (forall pre e, gone = pre ++ [e] -> max_bytes < kept_bytes r - total_size pre).
Proof.
  intros Hs. revert r r' gone. induction Hs as [|e l He Hl IH]; intros r r' gone Hk; cbn [evict_loop].
  { intros [= <- <-]. exists []. split_and!; [done| |done|].
    - destruct r. unfold zlen, total_size, lsum; simpl. f_equal; lia.
    - intros pre e0 Hp. by destruct pre. }
  rewrite filter_cons in *. destruct (Z.leb_spec (kept_bytes r) max_bytes) as [Hle|Hgt].
  { intros [= <- <-]. eexists. split_and!; [by rewrite app_nil_l| |lia|].
    - destruct r. unfold zlen, total_size, lsum; simpl. f_equal; lia.
    - intros pre e0 Hp. by destruct pre. }
  destruct (removable e) eqn:Er.
  - rewrite decide_True in * by done. unfold total_size, lsum in Hk. simpl in Hk. fold (lsum e_size) in Hk.
    pose proof (lsum_nonneg e_size (filter (fun e => removable e = true) l)) as Hpos.
    assert (0 <= lsum e_size (filter (fun e => removable e = true) l)).
    { apply Hpos. intros x [_ Hx]%list_elem_of_filter. rewrite Forall_forall in Hl. by apply Hl. }
    rewrite sat_sub_exact by (unfold lsum in *; lia).
    destruct (evict_loop _ _ _ _) as [r1 gone1] eqn:E. intros [= <- <-].
    apply IH in E as (kept & Hf & -> & Hall & Hmin); [|unfold total_size, lsum in *; simpl; lia].
    exists kept. split_and!; [by rewrite Hf| |exact Hall|].
    + simpl. rewrite zlen_cons. unfold total_size, lsum. simpl. f_equal; lia.
    + intros pre e0 Hp. destruct pre as [|x pre]; [unfold total_size, lsum; simpl; lia|].
      injection Hp as -> Hp. specialize (Hmin pre e0 Hp). unfold total_size, lsum in *. simpl in *. lia.
  - rewrite decide_False in * by congruence. by apply IH.
Qed.

(** Eviction drops the least recently used entries and no more than it
    must. What goes is a run of the removable entries, oldest first; the report
    counts exactly what went and what stays; either the rest fits the budget
    or nothing removable is left; and the last entry to go was still needed. *)
Lemma eviction_is_lru ds r gone :
  Forall (fun e => 0 <= e_size e) (omap entry_of ds) ->
  evict_to removable max_bytes (Some ds) = (r, gone) ->
  let entries := omap entry_of ds in
  exists kept,
    filter (fun e => removable e = true) entries ≡ₚ gone ++ kept /\
    StronglySorted older (gone ++ kept) /\
    r = EvictionReport (zlen gone) (total_size gone) (total_size entries - total_size gone) /\
    (max_bytes < kept_bytes r -> kept = []) /\
    (forall pre e, gone = pre ++ [e] -> max_bytes < total_size entries - total_size pre).
Proof.
  intros Hs Hev entries. unfold evict_to in Hev. fold entries in Hev, Hs.
  assert (Hperm : filter (fun e => removable e = true) (sort_by_atime entries) ≡ₚ filter (fun e => removable e = true) entries)
    by by rewrite sort_by_atime_Permutation.
  assert (Hsort : StronglySorted older (filter (fun e => removable e = true) (sort_by_atime entries)))
    by apply sorted_filter, sort_by_atime_sorted.
  assert (Hsize : total_size (sort_by_atime entries) = total_size entries) by apply total_size_Permutation, sort_by_atime_Permutation.
  destruct (Z.leb_spec (total_size entries) max_bytes) as [Hle|Hgt].
  - injection Hev as <- <-. exists (filter (fun e => removable e = true) (sort_by_atime entries)).
    rewrite app_nil_l. split_and!; [by symmetry|done| | |].
    + change (total_size []) with 0. by rewrite Z.sub_0_r.
    + simpl. lia.
    + intros pre e Hp. by destruct pre.
  - assert (Hs' : Forall (fun e => 0 <= e_size e) (sort_by_atime entries)) by by rewrite sort_by_atime_Permutation.
    apply evict_loop_spec in Hev as (kept & Hf & -> & Hall & Hmin); [|done|].
    2:{ simpl. rewrite <- Hsize. by apply total_size_filter. }
    exists kept. rewrite <- Hf. split_and!; [by symmetry|done|done|exact Hall|exact Hmin].
Qed.
End eviction_proofs.

Definition demo_dir : list dirent :=
  [Dirent (str "/c/new.snap") false 40 (Some 9) []; Dirent (str "/c/old.lab") true 7 (Some 2) [30; 20];
   Dirent (str "/c/old.lab.lock") false 9 (Some 1) []; Dirent (str "/c/mid.snap") false 25 (Some 5) [];
   Dirent (str "/c/stuck.snap") false 10 None []].

Definition demo_removable (e : entry) : bool := negb (e_atime e =? 0).

Lemma eviction_is_lru_witness :
  let '(r, gone) := evict_to demo_removable 60 (Some demo_dir) in
  e_path <$> gone = [str "/c/old.lab"; str "/c/mid.snap"] /\ kept_bytes r = 50 /\
  exists kept, filter (fun e => demo_removable e = true) (omap entry_of demo_dir) ≡ₚ gone ++ kept.
Proof.
  destruct (evict_to demo_removable 60 (Some demo_dir)) as [r gone] eqn:E.
  destruct (eviction_is_lru demo_removable 60 demo_dir r gone) as (kept & Hp & _).
  - apply (bool_decide_unpack _). vm_compute. exact I.
  - exact E.
  - vm_compute in E. injection E as <- <-. split; [reflexivity|]. split; [reflexivity|]. exists kept. exact Hp.
Defined.
