(* ===== verification/FixtureCache.v ===== *)
(** Processes that ask for one fixture at once, and those that collect the cache
    when they start: the cache protocol of [build_or_resume_fixture] and
    [build_or_resume_lab_fixture] in [src/provium-host/src/lua/lab_ud.rs] over the
    build lock and the eviction of [src/provium-host/src/fixture.rs]. *)
From S2P Require Import Prelude.

Open Scope list_scope.

(** * The cache directory *)

(** Where a process is. A lock file is known by its inode: the open file, not
    the path, is what [flock] locks. *)
Inductive pc :=
| Looks                                  (* is there an entry *)
| Tries                                  (* there is: does it restore *)
| Removes | Unlinks                      (* a machine's entry did not: away with it, and with its lock file *)
| Opens (corrupt : bool)                 (* the lock file, made if it is not there *)
| Waits (ino : nat) (corrupt : bool)     (* for the lock *)
| Holds (ino : nat) (corrupt : bool)     (* tries again an entry that did not restore *)
| Evicts (ino : nat)
| Rechecks (ino : nat)
| Builds (ino : nat)
| Restores (ino : nat)
| Done (ok : bool)
| Collects | CollectsLock.               (* [evict_to] at startup: an entry away, then its lock file *)

(** Whether there is an entry, the lock file's inode if there is one, who holds
    which inode's lock, the next new inode, the processes, and how often an
    entry was installed, one that was there was removed, and the lock file was
    unlinked. *)
Record cache := Cache {
  entry : bool; lock_file : option nat; locks : gmap nat nat; next_ino : nat; procs : list pc;
  installs : nat; removals : nat; unlinks : nat }.

(** A turn of process [i]; [good] tells how what it tries ends: a restore, a
    build, or the removal of a file. *)
Record turn := Turn { who : nat; good : bool }.

Definition at_pc (i : nat) (p : pc) (s : cache) : cache :=
  Cache (entry s) (lock_file s) (locks s) (next_ino s) (<[i := p]> (procs s)) (installs s) (removals s) (unlinks s).
Definition set_locks (l : gmap nat nat) (s : cache) : cache :=
  Cache (entry s) (lock_file s) l (next_ino s) (procs s) (installs s) (removals s) (unlinks s).

Definition remove_entry (s : cache) : cache :=
  Cache false (lock_file s) (locks s) (next_ino s) (procs s) (installs s)
    (if entry s then S (removals s) else removals s) (unlinks s).
Definition unlink_lock (s : cache) : cache :=
  Cache (entry s) None (locks s) (next_ino s) (procs s) (installs s) (removals s)
    (if lock_file s is Some _ then S (unlinks s) else unlinks s).
(** The rename that puts what was built in place of what is there. *)
Definition install (s : cache) : cache :=
  Cache true (lock_file s) (locks s) (next_ino s) (procs s) (S (installs s))
    (if entry s then S (removals s) else removals s) (unlinks s).

(** [acquire_build_lock]: open or create, then lock. *)
Definition open_lock (i : nat) (corrupt : bool) (s : cache) : cache :=
  match lock_file s with
  | Some ino => at_pc i (Waits ino corrupt) s
  | None => Cache (entry s) (Some (next_ino s)) (locks s) (S (next_ino s)) (<[i := Waits (next_ino s) corrupt]> (procs s))
              (installs s) (removals s) (unlinks s)
  end.

(** The end of [BuildLock]. *)
Definition leave (i ino : nat) (ok : bool) (s : cache) : cache := at_pc i (Done ok) (set_locks (delete ino (locks s)) s).

(** [lab]: the fixture is a whole lab. A lab's entry that does not restore is
    tried again and evicted under the lock; a machine's is removed at once,
    with its lock file. *)
Definition cache_step (lab : bool) (t : turn) (s : cache) : option cache :=
  let i := who t in
  match procs s !! i with
  | None => None
  | Some p =>
      match p with
      | Looks => Some (at_pc i (if entry s then Tries else Opens false) s)
      | Tries => Some (at_pc i (if good t then Done true else if lab then Opens true else Removes) s)
      | Removes => Some (at_pc i Unlinks (if good t then remove_entry s else s))
      | Unlinks => Some (at_pc i (Opens false) (if good t then unlink_lock s else s))
      | Opens corrupt => Some (open_lock i corrupt s)
      | Waits ino corrupt =>
          if locks s !! ino is Some _ then None
          else Some (at_pc i (Holds ino corrupt) (set_locks (<[ino := i]> (locks s)) s))
      | Holds ino corrupt =>
          Some (if corrupt then if good t then leave i ino true s else at_pc i (Evicts ino) s
                else at_pc i (Rechecks ino) s)
      | Evicts ino => Some (at_pc i (Rechecks ino) (if good t then remove_entry s else s))
      | Rechecks ino => Some (at_pc i (if entry s then Restores ino else Builds ino) s)
      | Builds ino => Some (if good t then at_pc i (Restores ino) (install s) else leave i ino false s)
      | Restores ino => Some (leave i ino (good t) s)
      | Done _ => None
      | Collects => Some (if entry s && good t then at_pc i CollectsLock (remove_entry s) else at_pc i (Done true) s)
      | CollectsLock => Some (at_pc i (Done true) (if good t then unlink_lock s else s))
      end
  end.

(** [n] processes ask and [m] start. *)
Definition cache_start (there : bool) (n m : nat) : cache :=
  Cache there None ∅ 0 (replicate n Looks ++ replicate m Collects) 0 0 0.

(** * Who is inside *)

Definition inside (p : pc) : option nat :=
  match p with
  | Holds ino _ | Evicts ino | Rechecks ino | Builds ino | Restores ino => Some ino
  | _ => None
  end.
Definition waits_on (p : pc) : option nat := match p with Waits ino _ => Some ino | _ => inside p end.

Definition is_building (p : pc) : bool := match p with Builds _ => true | _ => false end.
Definition builders (s : cache) : nat := length (filter (fun p => is_building p = true) (procs s)).

(** Each inode was made when the lock file was not there; who is inside holds
    the lock of its own. *)
Record cache_ok (s : cache) : Prop := {
  ok_file : forall ino, lock_file s = Some ino -> (ino < next_ino s)%nat;
  ok_waits : forall i p ino, procs s !! i = Some p -> waits_on p = Some ino -> (ino < next_ino s)%nat;
  ok_inside : forall i p ino, procs s !! i = Some p -> inside p = Some ino -> locks s !! ino = Some i;
  ok_inodes : (next_ino s + (if lock_file s is Some _ then 0 else 1) <= unlinks s + 1)%nat;
}.

Lemma ok_move s i p q :
  cache_ok s -> procs s !! i = Some p ->
  (forall ino, waits_on q = Some ino -> (ino < next_ino s)%nat) ->
  (forall ino, inside q = Some ino -> locks s !! ino = Some i) ->
  cache_ok (at_pc i q s).
Proof.
  intros [H1 H2 H3 H4] Hi Hw Hin. split; simpl; auto.
  - intros j p' ino [(<- & <- & _)|[_ Hj]]%list_lookup_insert_Some; eauto.
  - intros j p' ino [(<- & <- & _)|[_ Hj]]%list_lookup_insert_Some; eauto.
Qed.

(** From one place under the lock to another, or out of any place. *)
Lemma ok_on s i p q :
  cache_ok s -> procs s !! i = Some p -> waits_on q = None \/ (inside q = inside p /\ waits_on q = inside q) -> cache_ok (at_pc i q s).
Proof.
  intros Hok Hi Hq. pose proof Hok as [_ H2 H3 _]. eapply ok_move; [done|done|..]; intros ino Hino.
  - destruct Hq as [Hq|[Hq Hw]]; [congruence|]. apply (H2 i p); [done|]. rewrite Hw, Hq in Hino. by destruct p.
  - destruct Hq as [Hq|[Hq Hw]]; [by destruct q|]. apply (H3 i p); [done|]. congruence.
Qed.

(** What is done to the entry does not matter to the locks. *)
Lemma ok_entry s s' :
  cache_ok s -> lock_file s' = lock_file s -> locks s' = locks s -> next_ino s' = next_ino s -> procs s' = procs s -> unlinks s' = unlinks s ->
  cache_ok s'.
Proof. intros [H1 H2 H3 H4] E1 E2 E3 E4 E5. split; rewrite ?E1, ?E2, ?E3, ?E4, ?E5; auto. Qed.

Lemma ok_unlink s : cache_ok s -> cache_ok (unlink_lock s).
Proof.
  intros [H1 H2 H3 H4]. split; simpl; [done|done|done|]. destruct (lock_file s); lia.
Qed.

Lemma ok_leave s i p ino ok : cache_ok s -> procs s !! i = Some p -> inside p = Some ino -> cache_ok (leave i ino ok s).
Proof.
  intros [H1 H2 H3 H4] Hi Hp. unfold leave. split; simpl; auto.
  - intros j q k [(_ & <- & _)|[_ Hj]]%list_lookup_insert_Some; [done|eauto].
  - intros j q k [(_ & <- & _)|[Hne Hj]]%list_lookup_insert_Some Hq; [done|].
    pose proof (H3 _ _ _ Hj Hq). pose proof (H3 _ _ _ Hi Hp). rewrite lookup_delete_ne; [done|congruence].
Qed.

Lemma cache_step_ok lab t s s' : cache_ok s -> cache_step lab t s = Some s' -> cache_ok s'.
Proof.
  intros Hok Hstep. unfold cache_step in Hstep. destruct (procs s !! who t) as [p|] eqn:Hi; [|done].
  set (i := who t) in *.
  assert (Hrem : cache_ok (if good t then remove_entry s else s)) by (destruct (good t); [by eapply ok_entry|done]).
  assert (Hunl : cache_ok (if good t then unlink_lock s else s)) by (destruct (good t); [by apply ok_unlink|done]).
  assert (Hprem : procs (if good t then remove_entry s else s) = procs s) by by destruct (good t).
  assert (Hpunl : procs (if good t then unlink_lock s else s) = procs s) by by destruct (good t).
  destruct p as [| | | |c|ino c|ino c|ino|ino|ino|ino|ok| |]; [..|done| |]; try (injection Hstep as <-).
  - eapply ok_on; [done..|]. left. by destruct (entry s).
  - eapply ok_on; [done..|]. left. by destruct (good t), lab.
  - eapply ok_on; [done|by rewrite Hprem|by left].
  - eapply ok_on; [done|by rewrite Hpunl|by left].
  - unfold open_lock. pose proof Hok as [H1 H2 H3 H4]. destruct (lock_file s) as [ino|] eqn:Hl.
    + eapply ok_move; [done..| |done]. intros k [= <-]. by apply H1.
    + split; simpl; [intros k [= <-]; lia| | |lia].
      * intros j q k [(_ & <- & _)|[_ Hj]]%list_lookup_insert_Some Hq; [injection Hq as <-; lia|]. pose proof (H2 _ _ _ Hj Hq). lia.
      * intros j q k [(_ & <- & _)|[_ Hj]]%list_lookup_insert_Some Hq; [done|eauto].
  - destruct (locks s !! ino) eqn:Hk; [done|]. injection Hstep as <-. pose proof Hok as [H1 H2 H3 H4].
    split; simpl; auto.
    + intros j q k [(_ & <- & _)|[_ Hj]]%list_lookup_insert_Some Hq; [|eauto]. injection Hq as <-. by eapply H2.
    + intros j q k [(<- & <- & _)|[Hne Hj]]%list_lookup_insert_Some Hq.
      * injection Hq as <-. apply lookup_insert_eq.
      * pose proof (H3 _ _ _ Hj Hq). rewrite lookup_insert_ne; [done|congruence].
  - destruct c; [destruct (good t); [by eapply ok_leave|]|]; (eapply ok_on; [done..|]; by right).
  - eapply ok_on; [done|by rewrite Hprem|by right].
  - eapply ok_on; [done..|]. right. by destruct (entry s).
  - destruct (good t); [|by eapply ok_leave]. eapply ok_on; [by eapply (ok_entry s)|done|by right].
  - by eapply ok_leave.
  - destruct (entry s && good t); (eapply ok_on; [|done|by left]); [by apply (ok_entry s)|done].
  - eapply ok_on; [done|by rewrite Hpunl|by left].
Qed.

(** ** Counting the builders *)

Lemma builders_bound s : cache_ok s -> (builders s <= next_ino s)%nat.
Proof.
  intros [_ H2 H3 _].
  set (f := fun p => match p with Builds ino => Some ino | _ => None end).
  assert (Hlen : forall ps, length (omap f ps) = length (filter (fun p => is_building p = true) ps)).
  { induction ps as [|p ps IH]; [done|]. rewrite filter_cons. by destruct p; csimpl; rewrite ?IH. }
  unfold builders. rewrite <- Hlen.
  assert (Hb : forall k ino, omap f (procs s) !! k = Some ino -> ino ∈ seq 0 (next_ino s)).
  { intros k ino Hk%list_elem_of_lookup_2. apply list_elem_of_omap in Hk as (p & Hp & Hf). apply list_elem_of_lookup in Hp as [i Hi].
    apply elem_of_seq. destruct p; try done. injection Hf as ->. pose proof (H2 _ _ ino Hi eq_refl). lia. }
  assert (Hnd : NoDup (omap f (procs s))).
  { assert (Hin : forall i p ino, procs s !! i = Some p -> f p = Some ino -> locks s !! ino = Some i).
    { intros i p ino Hi Hf. destruct p; try done. injection Hf as ->. by eapply H3. }
    clear -Hin. revert Hin. generalize (locks s). induction (procs s) as [|p ps IH] using rev_ind; intros ls Hin; [constructor|].
    rewrite omap_app. apply NoDup_app. split_and!.
    - apply (IH ls). intros i q ino Hi. apply (Hin i). by apply lookup_app_l_Some.
    - intros ino Hino. apply list_elem_of_omap in Hino as (q & Hq & Hf). apply list_elem_of_lookup in Hq as [i Hi].
      csimpl. destruct (f p) as [ino'|] eqn:Hp; [|apply not_elem_of_nil]. intros ->%list_elem_of_singleton.
      pose proof (Hin i q ino' (lookup_app_l_Some _ _ _ _ Hi) Hf) as L1.
      pose proof (Hin (length ps) p ino' (list_lookup_middle _ _ _ _ eq_refl) Hp) as L2. apply lookup_lt_Some in Hi.
      rewrite L1 in L2. injection L2. lia.
    - csimpl. destruct (f p); [apply NoDup_singleton|constructor]. }
  transitivity (length (seq 0 (next_ino s))); [|by rewrite length_seq]. apply submseteq_length, NoDup_submseteq; [done|].
  intros ino Hi. apply list_elem_of_lookup in Hi as [k Hk]. by eapply Hb.
Qed.

Lemma builder_there s : (0 < builders s)%nat -> exists i ino, procs s !! i = Some (Builds ino).
Proof.
  unfold builders. destruct (filter _ (procs s)) as [|p ps] eqn:Hf; [simpl; lia|]. intros _.
  assert (Hp : p ∈ filter (fun p => is_building p = true) (procs s)) by (rewrite Hf; apply list_elem_of_here).
  apply list_elem_of_filter in Hp as [Hb Hp]. apply list_elem_of_lookup in Hp as [i Hi]. destruct p; try done. eauto.
Qed.

(** ** Accounting for the entries *)

Definition b2n (b : bool) : nat := if b then 1 else 0.

(** While the lock file stays, only one is inside: what it finds missing stays
    missing until it has built it. *)
Record sheltered (there : bool) (s : cache) : Prop := {
  sh_ok : cache_ok s;
  sh_balance : (installs s + b2n there = removals s + b2n (entry s))%nat;
  sh_builds : unlinks s = 0%nat -> forall i ino, procs s !! i = Some (Builds ino) -> entry s = false;
}.

Lemma one_inside s i j p q a b :
  cache_ok s -> unlinks s = 0%nat -> procs s !! i = Some p -> procs s !! j = Some q -> inside p = Some a -> inside q = Some b -> i = j.
Proof.
  intros [H1 H2 H3 H4] Hu Hi Hj Hp Hq.
  assert (Hw : forall r k, inside r = Some k -> waits_on r = Some k) by (by intros []).
  pose proof (H2 _ _ _ Hi (Hw _ _ Hp)). pose proof (H2 _ _ _ Hj (Hw _ _ Hq)). destruct (lock_file s); [|lia].
  assert (a = b) as -> by lia. pose proof (H3 _ _ _ Hi Hp). pose proof (H3 _ _ _ Hj Hq). congruence.
Qed.

Lemma unlinks_step lab t s s' : cache_step lab t s = Some s' -> (unlinks s <= unlinks s')%nat.
Proof.
  unfold cache_step. destruct (procs s !! who t) as [p|]; [|done].
  destruct p; intros [= <-] || (repeat case_match; intros; simplify_eq); simpl; repeat case_match; simpl; try lia.
  all: unfold open_lock, at_pc, leave; repeat case_match; simpl; lia.
Qed.

Lemma remove_balance there s : (installs s + b2n there = removals s + b2n (entry s))%nat ->
  (installs (remove_entry s) + b2n there = removals (remove_entry s) + b2n (entry (remove_entry s)))%nat.
Proof. simpl. destruct (entry s); simpl; lia. Qed.

Lemma balance_step lab there t s s' : cache_step lab t s = Some s' ->
  (installs s + b2n there = removals s + b2n (entry s))%nat -> (installs s' + b2n there = removals s' + b2n (entry s'))%nat.
Proof.
  intros Hstep Hb. pose proof (remove_balance there s Hb) as Hr. unfold cache_step in Hstep.
  destruct (procs s !! who t) as [p|]; [|done].
  assert (Hopen : forall i c, installs (open_lock i c s) = installs s /\ removals (open_lock i c s) = removals s /\ entry (open_lock i c s) = entry s)
    by (intros; unfold open_lock; by destruct (lock_file s)).
  destruct p; try done; try (injection Hstep as <-).
  all: try (by destruct (good t)); try done.
  - by destruct (Hopen (who t) corrupt) as (-> & -> & ->).
  - destruct (locks s !! ino); [done|]. by injection Hstep as <-.
  - by destruct corrupt, (good t).
  - destruct (good t); [|done]. simpl. destruct (entry s); simpl in *; lia.
  - by destruct (entry s && good t).
Qed.

Lemma builds_step lab t s s' :
  cache_ok s -> cache_step lab t s = Some s' -> unlinks s' = 0%nat ->
  (forall i ino, procs s !! i = Some (Builds ino) -> entry s = false) ->
  forall i ino, procs s' !! i = Some (Builds ino) -> entry s' = false.
Proof.
  intros Hok Hstep Hu Hb j k Hj. pose proof (unlinks_step _ _ _ _ Hstep) as Hle. assert (Hu0 : unlinks s = 0%nat) by lia.
  unfold cache_step in Hstep. destruct (procs s !! who t) as [p|] eqn:Hi; [|done]. set (i := who t) in *.
  assert (Hstay : forall q e, procs s' = <[i := q]> (procs s) -> entry s' = e -> (e = false \/ e = entry s) -> (forall n, q = Builds n -> e = false) -> entry s' = false).
  { intros q e Hps He Hee Hq. rewrite Hps in Hj. rewrite He. apply list_lookup_insert_Some in Hj as [(<- & -> & _)|[_ Hj]]; [by eapply Hq|].
    destruct Hee as [->| ->]; [done|by eapply Hb]. }
  destruct p as [| | | |c|ino c|ino c|ino|ino|ino|ino|ok| |]; try done; try (injection Hstep as <-).
  - eapply Hstay; [done..|by right|]. by destruct (entry s).
  - eapply Hstay; [done..|by right|]. by destruct (good t), lab.
  - eapply Hstay; [by destruct (good t)|done|by destruct (good t); auto|done].
  - eapply Hstay; [by destruct (good t)|done|by destruct (good t); auto|done].
  - unfold open_lock in *. destruct (lock_file s); (eapply Hstay; [done..|by right|done]).
  - destruct (locks s !! ino); [done|]. injection Hstep as <-. eapply Hstay; [done..|by right|done].
  - destruct c; [destruct (good t)|]; (eapply Hstay; [done..|by right|done]).
  - eapply Hstay; [by destruct (good t)|done|by destruct (good t); auto|done].
  - eapply Hstay; [done..|by right|]. simpl. by destruct (entry s).
  - destruct (good t).
    + exfalso. simpl in Hj. apply list_lookup_insert_Some in Hj as [(_ & ? & _)|[Hne Hj]]; [done|].
      apply Hne. by eapply (one_inside s).
    + eapply Hstay; [done..|by right|done].
  - eapply Hstay; [done..|by right|done].
  - destruct (entry s && good t); (eapply Hstay; [done..|by auto|done]).
  - eapply Hstay; [by destruct (good t)|done|by destruct (good t); auto|done].
Qed.

Lemma sheltered_step lab there t s s' : sheltered there s -> cache_step lab t s = Some s' -> sheltered there s'.
Proof.
  intros [Hok Hb Hs] Hstep. split; [by eapply cache_step_ok|by eapply balance_step|].
  intros Hu. eapply builds_step; [done..|]. apply Hs. pose proof (unlinks_step _ _ _ _ Hstep). lia.
Qed.

(** ** Who makes files go, and who waits *)

(** Nobody is where a lock file is unlinked. *)
Definition never_unlinks (p : pc) : bool := match p with Removes | Unlinks | Collects | CollectsLock => false | _ => true end.
(** Nor where an entry is removed. *)
Definition never_removes (p : pc) : bool := match p with Evicts _ => false | _ => never_unlinks p end.
Definition everyone (f : pc -> bool) (s : cache) : Prop := forall i p, procs s !! i = Some p -> f p = true.

Lemma everyone_move f s s' i q :
  everyone f s -> procs s' = <[i := q]> (procs s) -> f q = true -> everyone f s'.
Proof. intros Hf E Hq j r. rewrite E. intros [(_ & <- & _)|[_ Hr]]%list_lookup_insert_Some; eauto. Qed.

Lemma lab_keeps_lock t s s' :
  everyone never_unlinks s -> cache_step true t s = Some s' -> everyone never_unlinks s' /\ unlinks s' = unlinks s.
Proof.
  intros Hn Hstep. unfold cache_step in Hstep. destruct (procs s !! who t) as [p|] eqn:Hi; [|done]. pose proof (Hn _ _ Hi) as Hp.
  pose proof (fun s1 q => everyone_move never_unlinks s s1 (who t) q Hn) as Hmove.
  destruct p; try done; try (injection Hstep as <-).
  - split; [|done]. eapply Hmove; [done|]. by destruct (entry s).
  - split; [|done]. eapply Hmove; [done|]. by destruct (good t).
  - unfold open_lock. destruct (lock_file s); (split; [eapply Hmove; done|done]).
  - destruct (locks s !! ino); [done|]. injection Hstep as <-. split; [eapply Hmove; done|done].
  - destruct corrupt; [destruct (good t)|]; (split; [eapply Hmove; done|done]).
  - destruct (good t); (split; [eapply Hmove; done|done]).
  - split; [|done]. eapply Hmove; [done|]. by destruct (entry s).
  - destruct (good t); (split; [eapply Hmove; done|done]).
  - split; [eapply Hmove; done|done].
Qed.

(** What is tried succeeds and nobody collects: nothing goes. *)
Lemma good_keeps lab t s s' :
  good t = true -> everyone never_removes s -> (forall i ino, procs s !! i = Some (Builds ino) -> entry s = false) ->
  cache_step lab t s = Some s' ->
  everyone never_removes s' /\ unlinks s' = unlinks s /\ removals s' = removals s.
Proof.
  intros Ht Hn Hb Hstep. unfold cache_step in Hstep. destruct (procs s !! who t) as [p|] eqn:Hi; [|done]. pose proof (Hn _ _ Hi) as Hp.
  pose proof (fun s1 q => everyone_move never_removes s s1 (who t) q Hn) as Hmove. rewrite Ht in Hstep.
  destruct p; try done; try (injection Hstep as <-).
  - split_and!; [|done..]. eapply Hmove; [done|]. by destruct (entry s).
  - split_and!; [eapply Hmove; done|done..].
  - unfold open_lock. destruct (lock_file s); (split_and!; [eapply Hmove; done|done..]).
  - destruct (locks s !! ino); [done|]. injection Hstep as <-. split_and!; [eapply Hmove; done|done..].
  - destruct corrupt; (split_and!; [eapply Hmove; done|done..]).
  - split_and!; [|done..]. eapply Hmove; [done|]. by destruct (entry s).
  - split_and!; [eapply Hmove; done|done|]. simpl. by rewrite (Hb _ _ Hi).
  - split_and!; [eapply Hmove; done|done..].
Qed.

(** A lock is held by one who is inside. *)
Definition held (s : cache) : Prop :=
  forall ino i, locks s !! ino = Some i -> exists p, procs s !! i = Some p /\ inside p = Some ino.

Lemma held_stay s s' i p q :
  held s -> procs s !! i = Some p -> procs s' = <[i := q]> (procs s) -> locks s' = locks s -> inside q = inside p -> held s'.
Proof.
  intros Hh Hi Hps Hls Hq ino j. rewrite Hls, Hps. intros (r & Hr & Hin)%Hh. destruct (decide (j = i)) as [->|Hne].
  - exists q. split; [apply list_lookup_insert_eq; by eapply lookup_lt_Some|congruence].
  - exists r. by rewrite list_lookup_insert_ne.
Qed.

Lemma held_leave s i p ino ok : cache_ok s -> held s -> procs s !! i = Some p -> inside p = Some ino -> held (leave i ino ok s).
Proof.
  intros [_ _ H3 _] Hh Hi Hp k j. simpl. intros [Hne (r & Hr & Hin)%Hh]%lookup_delete_Some. exists r. split; [|done].
  rewrite list_lookup_insert_ne; [done|]. intros <-. congruence.
Qed.

Lemma held_step lab t s s' : cache_ok s -> held s -> cache_step lab t s = Some s' -> held s'.
Proof.
  intros Hok Hh Hstep. unfold cache_step in Hstep. destruct (procs s !! who t) as [p|] eqn:Hi; [|done].
  pose proof (fun q s1 => held_stay s s1 (who t) p q Hh Hi) as Hstay.
  destruct p; try done; try (injection Hstep as <-).
  - eapply Hstay; [done..|]. by destruct (entry s).
  - eapply Hstay; [done..|]. by destruct (good t), lab.
  - destruct (good t); eapply Hstay; done.
  - destruct (good t); eapply Hstay; done.
  - unfold open_lock. destruct (lock_file s); eapply Hstay; done.
  - destruct (locks s !! ino) eqn:Hk; [done|]. injection Hstep as <-. intros k j. simpl.
    intros [[<- <-]|[Hne (r & Hr & Hin)%Hh]]%lookup_insert_Some.
    + exists (Holds ino corrupt). split; [apply list_lookup_insert_eq; by eapply lookup_lt_Some|done].
    + exists r. split; [|done]. rewrite list_lookup_insert_ne; [done|]. intros <-. rewrite Hi in Hr. by injection Hr as <-.
  - destruct corrupt; [destruct (good t); [by eapply held_leave|]|]; eapply Hstay; done.
  - destruct (good t); eapply Hstay; done.
  - eapply Hstay; [done..|]. by destruct (entry s).
  - destruct (good t); [eapply Hstay; done|by eapply held_leave].
  - by eapply held_leave.
  - destruct (entry s && good t); eapply Hstay; done.
  - destruct (good t); eapply Hstay; done.
Qed.

Definition is_done (p : pc) : bool := match p with Done _ => true | _ => false end.

(** Who waits waits for one who can go on. *)
Lemma someone_moves lab s i p :
  held s -> procs s !! i = Some p -> is_done p = false -> exists t s', cache_step lab t s = Some s'.
Proof.
  intros Hh Hi Hp. destruct (match p with Waits ino _ => locks s !! ino | _ => None end) as [j|] eqn:Hw.
  - destruct p; try done. destruct (Hh _ _ Hw) as (q & Hj & Hq). exists (Turn j true). unfold cache_step. simpl. rewrite Hj.
    destruct q; try done; eauto.
  - exists (Turn i true). unfold cache_step. simpl. rewrite Hi. destruct p; try done; eauto. rewrite Hw. eauto.
Qed.

(** ** Every run ends *)

Definition rank (p : pc) : nat :=
  match p with
  | Looks | Collects => 0 | Tries | CollectsLock => 1 | Removes => 2 | Unlinks => 3 | Opens _ => 4 | Waits _ _ => 5
  | Holds _ _ => 6 | Evicts _ => 7 | Rechecks _ => 8 | Builds _ => 9 | Restores _ => 10 | Done _ => 11
  end.

Lemma step_moves lab t s s' : cache_step lab t s = Some s' ->
  exists p q, procs s !! who t = Some p /\ procs s' = <[who t := q]> (procs s) /\ (rank p < rank q)%nat.
Proof.
  intros Hstep. unfold cache_step in Hstep. destruct (procs s !! who t) as [p|] eqn:Hi; [|done]. exists p.
  destruct p; try done; try (injection Hstep as <-).
  - eexists. split_and!; [done..|]. simpl. destruct (entry s); simpl; lia.
  - eexists. split_and!; [done..|]. simpl. destruct (good t), lab; simpl; lia.
  - eexists. split_and!; [done|by destruct (good t)|]. simpl; lia.
  - eexists. split_and!; [done|by destruct (good t)|]. simpl; lia.
  - unfold open_lock. destruct (lock_file s); (eexists; split_and!; [done..|]; simpl; lia).
  - destruct (locks s !! ino); [done|]. injection Hstep as <-. eexists. split_and!; [done..|]. simpl; lia.
  - destruct corrupt; [destruct (good t)|]; (eexists; split_and!; [done..|]; simpl; lia).
  - eexists. split_and!; [done|by destruct (good t)|]. simpl; lia.
  - eexists. split_and!; [done..|]. simpl. destruct (entry s); simpl; lia.
  - destruct (good t); (eexists; split_and!; [done..|]; simpl; lia).
  - eexists. split_and!; [done..|]. simpl; lia.
  - destruct (entry s && good t); (eexists; split_and!; [done..|]; simpl; lia).
  - eexists. split_and!; [done|by destruct (good t)|]. simpl; lia.
Qed.

Definition progress (s : cache) : nat := sum_list_with rank (procs s).

Lemma sum_insert {A} (f : A -> nat) l i x y :
  l !! i = Some x -> (sum_list_with f (<[i := y]> l) + f x = sum_list_with f l + f y)%nat.
Proof. revert i. induction l as [|a l IH]; intros [|i]; simpl; [done..| |]; [intros [= ->]; lia|]. intros Hi. specialize (IH _ Hi). lia. Qed.

Lemma progress_step lab t s s' : cache_step lab t s = Some s' ->
  (progress s < progress s')%nat /\ length (procs s') = length (procs s).
Proof.
  intros (p & q & Hp & Hps & Hr)%step_moves. unfold progress. rewrite Hps, length_insert. split; [|done].
  pose proof (sum_insert rank _ _ _ q Hp). lia.
Qed.

Lemma progress_bound s : (progress s <= 11 * length (procs s))%nat.
Proof.
  unfold progress. induction (procs s) as [|p ps IH]; [done|]. simpl. assert (rank p <= 11)%nat by (destruct p; simpl; lia). lia.
Qed.

Lemma run_length lab ts s s' :
  run_labels (cache_step lab) ts s = Some s' -> (length ts + progress s <= 11 * length (procs s))%nat.
Proof.
  revert s. induction ts as [|t ts IH]; intros s; simpl; [intros _; apply progress_bound|].
  destruct (cache_step lab t s) as [s1|] eqn:Hs; [|done]. intros Hrun%IH. destruct (progress_step _ _ _ _ Hs) as [? E]. rewrite E in Hrun. lia.
Qed.

(** * The accounts of a fixture *)

(** All of the above at once. *)
Record accounts (lab there : bool) (m : nat) (s : cache) : Prop := {
  ac_shelter : sheltered there s;
  ac_held : held s;
  ac_lab : lab = true -> m = 0%nat -> everyone never_unlinks s /\ unlinks s = 0%nat;
}.

Lemma start_everyone f there n m : f Looks = true -> (m = 0%nat \/ f Collects = true) -> everyone f (cache_start there n m).
Proof. intros Hl Hc i p [[-> _]%lookup_replicate|[_ [-> Hj]%lookup_replicate]]%lookup_app_Some; [done|]. destruct Hc; [lia|done]. Qed.

Lemma start_accounts lab there n m : accounts lab there m (cache_start there n m).
Proof.
  assert (Hw : everyone (fun p => bool_decide (waits_on p = None /\ inside p = None)) (cache_start there n m))
    by (apply start_everyone; [done|by right]).
  split; [split; [split|..]| |]; try done.
  - intros i p ino [Hp _]%Hw%bool_decide_eq_true. congruence.
  - intros i p ino [_ Hp]%Hw%bool_decide_eq_true. congruence.
  - intros _ i ino Hi%Hw. done.
  - intros _ ->. split; [|done]. apply start_everyone; auto.
Qed.

Lemma accounts_step lab there m t s s' : accounts lab there m s -> cache_step lab t s = Some s' -> accounts lab there m s'.
Proof.
  intros [Hsh Hh Hl] Hstep. split; [by eapply sheltered_step|by eapply held_step; [apply Hsh|..]|].
  intros -> Hm. destruct (Hl eq_refl Hm) as [Hn <-]. by eapply lab_keeps_lock.
Qed.

Lemma run_accounts lab there n m ts s :
  run_labels (cache_step lab) ts (cache_start there n m) = Some s -> accounts lab there m s.
Proof.
  intros Hrun. apply (run_labels_invariant (cache_step lab) (fun _ => True) (accounts lab there m) ts (cache_start there n m));
    [|by apply Forall_true|apply start_accounts|done].
  intros t s1 s2 _. apply accounts_step.
Qed.

Lemma good_run lab there n ts s :
  Forall (fun t => good t = true) ts -> run_labels (cache_step lab) ts (cache_start there n 0) = Some s ->
  unlinks s = 0%nat /\ removals s = 0%nat.
Proof.
  intros Hgood Hrun.
  enough (accounts lab there 0 s /\ everyone never_removes s /\ unlinks s = 0%nat /\ removals s = 0%nat) by tauto.
  apply (run_labels_invariant (cache_step lab) (fun t => good t = true)
    (fun s => accounts lab there 0 s /\ everyone never_removes s /\ unlinks s = 0%nat /\ removals s = 0%nat) ts (cache_start there n 0)); [|done| |done].
  - intros t s1 s2 Ht (Hac & Hn & Hu & Hr) Hstep.
    destruct (good_keeps lab t s1 s2 Ht Hn (sh_builds _ _ (ac_shelter _ _ _ _ Hac) Hu) Hstep) as (Hn' & Hu' & Hr').
    split_and!; [by eapply accounts_step|done|congruence..].
  - split_and!; [apply start_accounts|apply start_everyone; auto|done..].
Qed.

(** C34: how often a fixture is built. However many processes ask for it, and
    collect the cache at startup, however what each tries ends, and however
    their turns interleave: every run ends, and nobody is stuck before; as many
    build at once as lock files were unlinked, and one more; each installation
    but the first of a missing entry comes after an entry was removed or
    replaced; and while no lock file has been unlinked at most one builds, and
    only while there is no entry. For labs with nobody collecting no lock file
    is ever unlinked, and when all that is tried succeeds nothing is removed, so
    that the entry is installed at most once. *)
Theorem fixture_builds_accounted lab there n m ts s :
  run_labels (cache_step lab) ts (cache_start there n m) = Some s ->
  (length ts <= 11 * (n + m))%nat /\
  (forall i p, procs s !! i = Some p -> is_done p = false -> exists t s', cache_step lab t s = Some s') /\
  (builders s <= unlinks s + 1)%nat /\
  (installs s + b2n there = removals s + b2n (entry s))%nat /\
  (unlinks s = 0%nat -> (0 < builders s)%nat -> builders s = 1%nat /\ entry s = false) /\
  (lab = true -> m = 0%nat -> unlinks s = 0%nat) /\
  (Forall (fun t => good t = true) ts -> m = 0%nat -> unlinks s = 0%nat /\ (installs s + b2n there <= 1)%nat).
Proof.
  intros Hrun. pose proof (run_accounts _ _ _ _ _ _ Hrun) as [[Hok Hb Hs] Hh Hl].
  pose proof (builders_bound s Hok) as Hn. pose proof (ok_inodes s Hok) as Hi. split_and!.
  - pose proof (run_length _ _ _ _ Hrun) as Hlen. unfold cache_start in Hlen. simpl in Hlen.
    rewrite length_app, !length_replicate in Hlen. lia.
  - intros i p. by apply someone_moves.
  - destruct (lock_file s); lia.
  - done.
  - intros Hu Hpos. destruct (lock_file s); [|lia]. split; [lia|].
    destruct (builder_there s Hpos) as (i & ino & Hb'). by eapply Hs.
  - intros Hlab Hm. by apply Hl.
  - intros Hg ->. destruct (good_run _ _ _ _ _ Hg Hrun) as [Hu Hr]. split; [done|]. destruct (entry s); simpl in Hb; lia.
Qed.

Definition turns (l : list nat) : list turn := (fun i => Turn i true) <$> l.

(** Three processes and a missing lab; the first fails to build it. *)
Definition demo_turns : list turn := turns [0; 1; 2; 0; 1; 0; 0; 0]%nat ++ [Turn 0 false] ++ turns [2; 1; 1; 1; 1; 1; 2; 2; 2]%nat.

Lemma fixture_builds_accounted_witness :
  exists s, run_labels (cache_step true) demo_turns (cache_start false 3 0) = Some s /\
    procs s = [Done false; Done true; Restores 0] /\ installs s = 1%nat /\ (builders s <= unlinks s + 1)%nat.
Proof.
  eexists. split; [vm_compute; reflexivity|]. split; [reflexivity|]. split; [reflexivity|].
  refine (proj1 (proj2 (proj2 (fixture_builds_accounted true false 3 0 demo_turns _ _)))). vm_compute; reflexivity.
Defined.

(** A machine's entry that does not restore takes its lock file along: of two
    processes that saw it, one locks the file there is, the other removes that
    file and locks a new one, and both build. *)
Example bad_entry_built_twice :
  exists s, run_labels (cache_step false) ([Turn 0 true; Turn 1 true; Turn 0 false; Turn 1 false] ++ turns [0; 0; 0; 0; 0; 0; 1; 1; 1; 1; 1; 1]%nat)
      (cache_start true 2 0) = Some s /\ builders s = 2%nat.
Proof. eexists. split; [vm_compute; reflexivity|done]. Qed.

(** And one that looked before another had built throws the new entry away. *)
Example fresh_entry_thrown_away :
  exists s, run_labels (cache_step false) ([Turn 0 true; Turn 1 true; Turn 0 false; Turn 1 false] ++ turns [0; 0; 0; 0; 0; 0; 0; 0; 1]%nat)
      (cache_start true 2 0) = Some s /\ installs s = 1%nat /\ entry s = false.
Proof. eexists. split; [vm_compute; reflexivity|by split]. Qed.

(** A run that collects the cache when it starts takes the lock from under
    those who wait for it: two build a lab at once. *)
Example collection_lets_two_build :
  exists s, run_labels (cache_step true) ([Turn 0 true; Turn 0 false] ++ turns [0; 0; 2; 2]%nat ++ [Turn 0 false] ++ turns [0; 0; 1; 1; 1; 1; 1]%nat)
      (cache_start true 2 1) = Some s /\ builders s = 2%nat.
Proof. eexists. split; [vm_compute; reflexivity|done]. Qed.

(** A lab that holds a machine never restores ([LabRestore]): each process that
    asks for it builds it anew, and gets an error. *)
Example lab_with_machine_built_each_time :
  let ask i := [Turn i true; Turn i false; Turn i true; Turn i true; Turn i false; Turn i true; Turn i true; Turn i true; Turn i false] in
  exists s, run_labels (cache_step true) (ask 0%nat ++ ask 1%nat) (cache_start true 2 0) = Some s /\
    procs s = [Done false; Done false] /\ installs s = 2%nat.
Proof. eexists. split; [vm_compute; reflexivity|by split]. Qed.
