(* ===== verification/CliArgs.v ===== *)
(** What the command line and the host's own files say in numbers: the argument
    parsers of [src/provium-host/src/bin/provium.rs], its defaults for the pool,
    and the readers of [scheduler/psi.rs] and [scheduler/preflight.rs]. *)
From Stdlib Require Import SpecFloat.
From stdpp Require Import pretty.
From S2P Require Import Prelude Text Numbers Pool.

Open Scope list_scope.
Open Scope Z_scope.

(** * Arguments *)

Inductive arg_error :=
| ExpectedKeyValue (raw : bytes)
| BadSize (s : bytes)
| SizeOverflows (s : bytes)
| BadTimeoutArg (s : bytes)
| NoTimeoutUnit (s : bytes)
| TimeoutOverflows (s : bytes).

Definition EQUALS : byte := "="%byte.

(** [str::split_once] at one byte. *)
Fixpoint split_once (c : byte) (s : bytes) : option (bytes * bytes) :=
  match s with
  | [] => None
  | b :: rest =>
      if decide (b = c) then Some ([], rest)
      else kv ← split_once c rest; Some (b :: kv.1, kv.2)
  end.

Definition parse_kv (raw : bytes) : result (bytes * bytes) arg_error :=
  match split_once EQUALS raw with
  | Some (k, v) => if decide (k = []) then Err (ExpectedKeyValue raw) else Ok (k, v)
  | None => Err (ExpectedKeyValue raw)
  end.

Definition strip_suffix (p s : bytes) : option bytes := reverse <$> strip_prefix (reverse p) (reverse s).

(** [u64::checked_mul]. *)
Definition checked_mul (max a b : Z) : option Z := if a * b <=? max then Some (a * b) else None.

(** The multiplier the last character of a size asks for. *)
Definition size_unit (b : byte) : option Z :=
  if decide (b = "K"%byte \/ b = "k"%byte) then Some 1024
  else if decide (b = "M"%byte \/ b = "m"%byte) then Some (1024 * 1024)
  else if decide (b = "G"%byte \/ b = "g"%byte) then Some (1024 * 1024 * 1024)
  else if decide (b = "T"%byte \/ b = "t"%byte) then Some (1024 ^ 4)
  else None.

Definition size_parts (s : bytes) : bytes * Z :=
  match last s ≫= size_unit with
  | Some m => (take (length s - 1) s, m)
  | None => (s, 1)
  end.

Definition parse_size (raw : bytes) : result Z arg_error :=
  let s := trim raw in
  let (num, multiplier) := size_parts s in
  match parse_u64 num with
  | None => Err (BadSize s)
  | Some n => match checked_mul u64_max n multiplier with Some x => Ok x | None => Err (SizeOverflows s) end
  end.

(** Milliseconds, rounded up to whole seconds. *)
Definition whole_seconds (ms : spec_float) : Z :=
  Z.max (f64_ceil_as_u64 (f64_div ms (f64_of_Z 1000))) (if f64_lt (f64_of_Z 0) ms then 1 else 0).

Definition timeout_unit (s : bytes) : option (bytes * Z) :=
  match strip_suffix (bytes_of "s") s with
  | Some num => Some (trim num, 1)
  | None =>
      match strip_suffix (bytes_of "m") s with
      | Some num => Some (trim num, 60)
      | None => num ← strip_suffix (bytes_of "h") s; Some (trim num, 3600)
      end
  end.

Definition parse_timeout_arg (raw : bytes) : result Z arg_error :=
  let s := trim raw in
  match parse_u64 s with
  | Some n => Ok n
  | None =>
      match strip_suffix (bytes_of "ms") s with
      | Some stripped =>
          match parse_f64 (trim stripped) with
          | Some ms => Ok (whole_seconds ms)
          | None => Err (BadTimeoutArg s)
          end
      | None =>
          match timeout_unit s with
          | None => Err (NoTimeoutUnit s)
          | Some (num, unit_secs) =>
              match parse_u64 num with
              | None => Err (BadTimeoutArg s)
              | Some n => match checked_mul u64_max n unit_secs with Some x => Ok x | None => Err (TimeoutOverflows s) end
              end
          end
      end
  end.

Inductive file_timeout := Disabled | Wall (seconds : Z).

(** The timeout of every file of the run. *)
Definition run_timeout (secs : Z) : file_timeout := if secs =? 0 then Disabled else Wall secs.

(** * Lines of a file *)

Definition NEWLINE : byte := x0a.
Definition RETURN : byte := x0d.

Definition line_of (cur : bytes) : bytes :=
  match last cur with
  | Some b => if decide (b = RETURN) then take (length cur - 1) cur else cur
  | None => cur
  end.

(** [str::lines]: a final line break opens no further line. *)
Fixpoint lines_from (cur s : bytes) : list bytes :=
  match s with
  | [] => match cur with [] => [] | _ => [cur] end
  | b :: rest => if decide (b = NEWLINE) then line_of cur :: lines_from [] rest else lines_from (cur ++ [b]) rest
  end.
Definition lines (s : bytes) : list bytes := lines_from [] s.

(** * The pool's size *)

Definition DEFAULT_POOL_MEMORY_BYTES : Z := 8 * 1024 * 1024 * 1024.
Definition DEFAULT_POOL_CPUS : Z := 8.

Definition EIGHT_TENTHS : spec_float := f64_of_ratio false 8 10.

Fixpoint mem_total (ls : list bytes) : Z :=
  match ls with
  | [] => DEFAULT_POOL_MEMORY_BYTES
  | line :: ls =>
      match rest ← strip_prefix (bytes_of "MemTotal:") line; n ← head (split_whitespace rest); parse_u64 n with
      | None => mem_total ls
      | Some kb =>
          if kb =? 0 then DEFAULT_POOL_MEMORY_BYTES
          else f64_as_u64 (f64_mul (f64_of_Z (Z.min u64_max (kb * 1024))) EIGHT_TENTHS)
      end
  end.

(** [meminfo] is [/proc/meminfo], if it could be read. *)
Definition detected_pool_memory_bytes (meminfo : option bytes) : Z :=
  match meminfo with None => DEFAULT_POOL_MEMORY_BYTES | Some s => mem_total (lines s) end.

(** [n] is what [sysconf] said, an [i64]. *)
Definition detected_pool_cpus (n : Z) : Z := if 0 <? n then wrap u32_max n else DEFAULT_POOL_CPUS.

(** [f64::clamp], which lets NaN through. *)
Definition f64_clamp (x lo hi : spec_float) : spec_float :=
  let x := if f64_lt x lo then lo else x in if f64_lt hi x then hi else x.

(** [f64::round], halves away from zero. *)
Definition f64_round (x : spec_float) : spec_float :=
  match x with
  | S754_finite s m e =>
      if 0 <=? e then x
      else let v := (2 * Z.pos m + 2 ^ (- e)) / (2 * 2 ^ (- e)) in
           if v =? 0 then S754_zero s else f64_of_Z (if s then - v else v)
  | _ => x
  end.

Definition pool_cpus (base : Z) (raw_overcommit : spec_float) : Z :=
  let overcommit := f64_clamp raw_overcommit (f64_of_ratio false 1 2) (f64_of_Z 8) in
  let x := f64_clamp (f64_round (f64_mul (f64_of_Z base) overcommit)) (f64_of_Z 1) (f64_of_Z u32_max) in
  as_unsigned u32_max x (truncated x).

Definition pool_total (mem : option bytes) (cpus : option Z) (overcommit : spec_float)
    (meminfo : option bytes) (sysconf : Z) : result resource_amount arg_error :=
  match match mem with Some s => parse_size s | None => Ok (detected_pool_memory_bytes meminfo) end with
  | Err e => Err e
  | Ok m => Ok (RA m (pool_cpus (match cpus with Some n => n | None => detected_pool_cpus sysconf end) overcommit))
  end.

(** * Pressure *)

Fixpoint some_avg10 (tokens : list bytes) : option (option spec_float) :=
  match tokens with
  | [] => None
  | t :: ts => match strip_prefix (bytes_of "avg10=") t with Some v => Some (parse_f64 v) | None => some_avg10 ts end
  end.

Fixpoint first_some_line (ls : list bytes) : option spec_float :=
  match ls with
  | [] => None
  | line :: ls =>
      match rest ← strip_prefix (bytes_of "some ") line; some_avg10 (split_whitespace rest) with
      | Some v => v
      | None => first_some_line ls
      end
  end.

Definition read_some_avg10_at (body : option bytes) : option spec_float := s ← body; first_some_line (lines s).

(** One turn of the monitor: what it sets the flag to. *)
Definition psi_turn (threshold : spec_float) (memory cpu : option bytes) : bool :=
  let read body := match read_some_avg10_at body with Some x => x | None => f64_of_Z 0 end in
  f64_lt threshold (read memory) || f64_lt threshold (read cpu).

(** * Capabilities *)

Definition CAP_NET_ADMIN_BIT : Z := Z.shiftl 1 12.

Fixpoint effective_caps (ls : list bytes) : option Z :=
  match ls with
  | [] => None
  | line :: ls =>
      match rest ← strip_prefix (bytes_of "CapEff:") line; from_str_radix u64_max 16 (trim rest) with
      | Some v => Some v
      | None => effective_caps ls
      end
  end.

(** Whether [check_net_admin] accepts, given [/proc/self/status]. *)
Definition check_net_admin (status : option bytes) : bool :=
  match status ≫= (fun s => effective_caps (lines s)) with
  | Some mask => negb (Z.land mask CAP_NET_ADMIN_BIT =? 0)
  | None => true
  end.

(** * What is written is what is meant *)

(** Letters and digits are no white space, from either end. *)
Definition no_alphanumeric (e : list Z) : bool :=
  match e with x :: _ => negb (alphanumeric (byte_of_Z x)) && (0 <=? x) && (x <? 256) | [] => false end.

Lemma strip_alphanumeric ws n s :
  Forall (fun e => no_alphanumeric e = true) ws -> Forall (fun b => alphanumeric b = true) s -> strip ws n s = s.
Proof.
  intros Hws Hs. destruct n as [|n]; [done|]. cbn [strip]. rewrite (proj2 (find_None _ _)); [done|].
  intros e He. rewrite Forall_forall in Hws. specialize (Hws e He).
  unfold starts_with. apply bool_decide_eq_false. intros E. destruct e as [|x e]; [done|].
  destruct s as [|b s]; [done|]. simpl in E. injection E as Hx _. apply Forall_cons in Hs as [Hb _].
  simpl in Hws. rewrite <- Hx, byte_of_to_Z, Hb in Hws. done.
Qed.

Lemma trim_alphanumeric s : Forall (fun b => alphanumeric b = true) s -> trim s = s.
Proof.
  intros Hs. unfold trim. rewrite (strip_alphanumeric white_space); [|refine (bool_decide_unpack _ _); vm_compute; exact I|done].
  rewrite strip_alphanumeric; [by rewrite reverse_involutive|refine (bool_decide_unpack _ _); vm_compute; exact I|by apply Forall_reverse].
Qed.

Lemma digit_alphanumeric b d : digit 10 b = Some d -> alphanumeric b = true /\ 0 <= d < 10 /\ byte_to_Z b = 48 + d.
Proof.
  unfold digit, alphanumeric. pose proof (byte_to_Z_range b).
  destruct (in_range 48 57 b) eqn:E; [simpl|].
  - unfold in_range in E. apply andb_true_iff in E as [?%Z.leb_le ?%Z.leb_le].
    destruct (Z.ltb_spec (byte_to_Z b - 48) 10); [|done]. intros [= <-]. split_and!; [done|lia..].
  - destruct (in_range 97 122 b) eqn:E1.
    { unfold in_range in E1. apply andb_true_iff in E1 as [?%Z.leb_le _]. destruct (Z.ltb_spec (byte_to_Z b - 87) 10); [lia|done]. }
    destruct (in_range 65 90 b) eqn:E2; [|done].
    unfold in_range in E2. apply andb_true_iff in E2 as [?%Z.leb_le _]. destruct (Z.ltb_spec (byte_to_Z b - 55) 10); [lia|done].
Qed.

Lemma digits_alphanumeric acc ds n : value_from 10 acc ds = Some n -> Forall (fun b => exists d, digit 10 b = Some d) ds.
Proof.
  revert acc. induction ds as [|b ds IH]; intros acc; [constructor|]. simpl.
  destruct (digit 10 b) as [d|] eqn:E; [|done]. intros H. constructor; [by exists d|by apply (IH _ H)].
Qed.

(** The text of a number with a unit behind it. *)
Definition written (n : Z) (unit : string) : bytes := bytes_of (pretty n) ++ bytes_of unit.

Lemma written_digits n : 0 <= n ->
  bytes_of (pretty n) <> [] /\ Forall (fun b => exists d, digit 10 b = Some d) (bytes_of (pretty n)).
Proof. intros Hn. destruct (pretty_value n Hn) as (ds & -> & Hne & Hv). split; [done|by apply (digits_alphanumeric _ _ _ Hv)]. Qed.

Lemma trim_written n unit :
  0 <= n -> Forall (fun b => alphanumeric b = true) (bytes_of unit) -> trim (written n unit) = written n unit.
Proof.
  intros Hn Hu. apply trim_alphanumeric, Forall_app. split; [|done].
  eapply Forall_impl; [apply written_digits, Hn|]. intros b [d Hd]. by apply digit_alphanumeric in Hd as [? _].
Qed.

Lemma parse_written n : 0 <= n -> parse_u64 (bytes_of (pretty n)) = if n <=? u64_max then Some n else None.
Proof.
  intros Hn. unfold parse_u64. rewrite from_str_radix_spec by (unfold u64_max; lia). unfold numeral, unsigned.
  destruct (pretty_value n Hn) as (ds & -> & Hne & Hv). destruct ds as [|b ds]; [done|].
  destruct (decide (b = PLUS)) as [->|]; [done|]. by rewrite Hv.
Qed.

(** A unit behind the digits is no digit, so the whole is no number. *)
Lemma parse_with_unit n c : 0 <= n -> digit 10 c = None -> parse_u64 (bytes_of (pretty n) ++ [c]) = None.
Proof.
  intros Hn Hc. unfold parse_u64. rewrite from_str_radix_spec by (unfold u64_max; lia). unfold numeral, unsigned.
  destruct (pretty_value n Hn) as (ds & -> & Hne & Hv). destruct ds as [|b ds]; [done|]. cbn [app].
  destruct (decide (b = PLUS)) as [->|]; [done|].
  change (b :: ds ++ [c]) with ((b :: ds) ++ [c]). rewrite value_from_app, Hv. simpl. by rewrite Hc.
Qed.

(** The units of a size, and of a timeout but milliseconds. *)
Definition size_units : list (string * Z) :=
  [("", 1); ("K", 1024); ("k", 1024); ("M", 1024 ^ 2); ("m", 1024 ^ 2); ("G", 1024 ^ 3); ("g", 1024 ^ 3);
   ("T", 1024 ^ 4); ("t", 1024 ^ 4)].
Definition timeout_units : list (string * Z) := [("", 1); ("s", 1); ("m", 60); ("h", 3600)].

Lemma size_unit_digit c : size_unit c <> None -> digit 10 c = None /\ alphanumeric c = true.
Proof. unfold size_unit. intros H. repeat case_decide; destruct_or?; subst; done. Qed.

Lemma size_parts_letter (n : Z) c m : size_unit c = Some m -> size_parts (bytes_of (pretty n) ++ [c]) = (bytes_of (pretty n), m).
Proof. intros Hc. unfold size_parts. rewrite last_snoc. simpl. rewrite Hc, length_app. f_equal. apply take_app_length'. simpl. lia. Qed.

Lemma size_parts_unit n unit m : 0 <= n -> (unit, m) ∈ size_units ->
  size_parts (written n unit) = (bytes_of (pretty n), m) /\ Forall (fun b => alphanumeric b = true) (bytes_of unit).
Proof.
  intros Hn Hu. destruct (written_digits n Hn) as [Hne Hds]. unfold written.
  unfold size_units in Hu. apply elem_of_cons in Hu as [[= -> ->]|Hu].
  - change (bytes_of "") with (@nil byte). rewrite (right_id_L [] (++)). split; [|constructor]. unfold size_parts.
    destruct (last (bytes_of (pretty n))) as [c|] eqn:E; [|by apply last_None in E]. simpl.
    apply last_Some in E as [l E]. rewrite E in Hds. apply Forall_app in Hds as [_ [Hc _]%Forall_cons].
    destruct (size_unit c) eqn:Ec; [|done]. destruct (size_unit_digit c) as [Hd _]; [congruence|].
    destruct Hc as [d Hd']. congruence.
  - rewrite !elem_of_cons, elem_of_nil in Hu.
    destruct_or?; simplify_eq; (split; [by apply size_parts_letter|by repeat constructor]).
Qed.

Lemma strip_suffix_spec p s rest : strip_suffix p s = Some rest <-> s = rest ++ p.
Proof.
  unfold strip_suffix. rewrite fmap_Some. setoid_rewrite strip_prefix_spec. split.
  - intros (t & Hs & ->). apply (f_equal reverse) in Hs. by rewrite reverse_involutive, reverse_app, reverse_involutive in Hs.
  - intros ->. exists (reverse rest). by rewrite reverse_app, reverse_involutive.
Qed.

Lemma strip_suffix_same p s : strip_suffix p (s ++ p) = Some s.
Proof. by apply strip_suffix_spec. Qed.

(** A text that ends in another character has not this suffix. *)
Lemma strip_suffix_other p s b c : c <> b -> strip_suffix (p ++ [b]) (s ++ [c]) = None.
Proof.
  intros Hne. destruct (strip_suffix _ _) as [rest|] eqn:E; [|done].
  apply strip_suffix_spec in E. rewrite (assoc_L (++)) in E. apply app_inj_tail in E as [_ ?]. done.
Qed.

Lemma strip_suffix_digits n p b : 0 <= n -> digit 10 b = None -> strip_suffix (p ++ [b]) (bytes_of (pretty n)) = None.
Proof.
  intros Hn Hb. destruct (strip_suffix _ _) as [rest|] eqn:E; [|done]. apply strip_suffix_spec in E.
  destruct (written_digits n Hn) as [_ Hds]. rewrite E, (assoc_L (++)) in Hds.
  apply Forall_app in Hds as [_ [[d Hd] _]%Forall_cons]. congruence.
Qed.

Lemma trim_digits n : 0 <= n -> trim (bytes_of (pretty n)) = bytes_of (pretty n).
Proof. intros Hn. generalize (trim_written n "" Hn). unfold written. change (bytes_of "") with (@nil byte). rewrite (right_id_L [] (++)). auto. Qed.

Lemma timeout_unit_spec n unit m : 0 <= n -> (unit, m) ∈ timeout_units ->
  exists e, parse_timeout_arg (written n unit) = if n * m <=? u64_max then Ok (n * m) else Err e.
Proof.
  intros Hn Hu. unfold timeout_units in Hu. rewrite !elem_of_cons, elem_of_nil in Hu.
  unfold parse_timeout_arg, timeout_unit.
  destruct Hu as [[= -> ->]|Hu].
  { rewrite trim_written by (done || constructor). unfold written. change (bytes_of "") with (@nil byte).
    rewrite (right_id_L [] (++)), parse_written by done. rewrite Z.mul_1_r. destruct (Z.leb_spec n u64_max); [by exists (BadTimeoutArg [])|].
    pose proof (strip_suffix_digits n ["m"%byte] "s"%byte Hn eq_refl : strip_suffix (bytes_of "ms") _ = None) as ->.
    pose proof (strip_suffix_digits n [] "s"%byte Hn eq_refl : strip_suffix (bytes_of "s") _ = None) as ->.
    pose proof (strip_suffix_digits n [] "m"%byte Hn eq_refl : strip_suffix (bytes_of "m") _ = None) as ->.
    pose proof (strip_suffix_digits n [] "h"%byte Hn eq_refl : strip_suffix (bytes_of "h") _ = None) as ->.
    by eexists. }
  assert (Hms : forall c, strip_suffix (bytes_of "ms") (bytes_of (pretty n) ++ [c]) = None).
  { intros c. change (bytes_of "ms") with ((["m"%byte]) ++ ["s"%byte]). destruct (decide (c = "s"%byte)) as [->|Hc]; [|by apply strip_suffix_other].
    destruct (strip_suffix _ _) as [rest|] eqn:E; [|done]. apply strip_suffix_spec in E. rewrite (assoc_L (++)) in E.
    apply app_inj_tail in E as [E _]. destruct (written_digits n Hn) as [_ Hds]. rewrite E in Hds.
    apply Forall_app in Hds as [_ [[d Hd] _]%Forall_cons]. done. }
  assert (Hrest : exists e : arg_error, match (if n <=? u64_max then Some n else None) with
      | None => Err (BadTimeoutArg (written n unit))
      | Some x => match checked_mul u64_max x m with Some y => Ok y | None => Err (TimeoutOverflows (written n unit)) end
      end = if n * m <=? u64_max then Ok (n * m) else Err e).
  { assert (1 <= m) by (destruct_or?; simplify_eq; lia). unfold checked_mul. destruct (Z.leb_spec n u64_max).
    - exists (TimeoutOverflows (written n unit)). by destruct (Z.leb_spec (n * m) u64_max).
    - exists (BadTimeoutArg (written n unit)). by rewrite (proj2 (Z.leb_gt _ _)) by nia. }
  destruct Hrest as [e He]. exists e. rewrite <- He. clear He e.
  destruct_or?; simplify_eq; (rewrite trim_written by (done || by repeat constructor)); unfold written.
  - pose proof (parse_with_unit n "s"%byte Hn eq_refl : parse_u64 (_ ++ bytes_of "s") = None) as ->.
    pose proof (Hms "s"%byte : strip_suffix _ (_ ++ bytes_of "s") = None) as ->.
    rewrite strip_suffix_same. simpl. by rewrite trim_digits, parse_written by done.
  - pose proof (parse_with_unit n "m"%byte Hn eq_refl : parse_u64 (_ ++ bytes_of "m") = None) as ->.
    pose proof (Hms "m"%byte : strip_suffix _ (_ ++ bytes_of "m") = None) as ->.
    pose proof (strip_suffix_other [] (bytes_of (pretty n)) "s"%byte "m"%byte ltac:(done) : strip_suffix (bytes_of "s") (_ ++ bytes_of "m") = None) as ->.
    rewrite strip_suffix_same. simpl. by rewrite trim_digits, parse_written by done.
  - pose proof (parse_with_unit n "h"%byte Hn eq_refl : parse_u64 (_ ++ bytes_of "h") = None) as ->.
    pose proof (Hms "h"%byte : strip_suffix _ (_ ++ bytes_of "h") = None) as ->.
    pose proof (strip_suffix_other [] (bytes_of (pretty n)) "s"%byte "h"%byte ltac:(done) : strip_suffix (bytes_of "s") (_ ++ bytes_of "h") = None) as ->.
    pose proof (strip_suffix_other [] (bytes_of (pretty n)) "m"%byte "h"%byte ltac:(done) : strip_suffix (bytes_of "m") (_ ++ bytes_of "h") = None) as ->.
    rewrite strip_suffix_same. simpl. by rewrite trim_digits, parse_written by done.
Qed.

Lemma size_unit_spec n unit m : 0 <= n -> (unit, m) ∈ size_units ->
  exists e, parse_size (written n unit) = if n * m <=? u64_max then Ok (n * m) else Err e.
Proof.
  intros Hn Hu. destruct (size_parts_unit n unit m Hn Hu) as [Hp Ha].
  assert (1 <= m) by (unfold size_units in Hu; rewrite !elem_of_cons, elem_of_nil in Hu; destruct_or?; simplify_eq; lia).
  unfold parse_size. rewrite trim_written, Hp, parse_written by done. unfold checked_mul. destruct (Z.leb_spec n u64_max).
  - exists (SizeOverflows (written n unit)). by destruct (Z.leb_spec (n * m) u64_max).
  - exists (BadSize (written n unit)). by rewrite (proj2 (Z.leb_gt _ _)) by nia.
Qed.

Lemma parse_size_width raw x : parse_size raw = Ok x -> in_width u64_max x.
Proof.
  unfold parse_size. destruct (size_parts (trim raw)) as [num m] eqn:E.
  assert (0 <= m).
  { revert E. unfold size_parts. destruct (last _ ≫= size_unit) as [k|] eqn:Ek; intros [= _ <-]; [|lia].
    apply bind_Some in Ek as (c & _ & Hc). revert Hc. unfold size_unit. repeat case_decide; intros [= <-]; lia. }
  destruct (parse_u64 num) as [n|] eqn:Hn; [|done]. apply parse_u64_width in Hn as [? _]. unfold checked_mul.
  destruct (Z.leb_spec (n * m) u64_max); [|done]. intros [= <-]. split; nia.
Qed.

Lemma parse_timeout_width raw x : parse_timeout_arg raw = Ok x -> in_width u64_max x.
Proof.
  unfold parse_timeout_arg. destruct (parse_u64 (trim raw)) as [n|] eqn:Hn; [intros [= <-]; by apply parse_u64_width in Hn|].
  destruct (strip_suffix (bytes_of "ms") _).
  - destruct (parse_f64 _) as [ms|]; [|done]. intros [= <-]. unfold whole_seconds, f64_ceil_as_u64.
    pose proof (as_unsigned_width u64_max (f64_div ms (f64_of_Z 1000)) (rounded_up (f64_div ms (f64_of_Z 1000))) ltac:(unfold u64_max; lia)) as [? ?].
    unfold in_width, u64_max in *. destruct (f64_lt _ ms); lia.
  - destruct (timeout_unit (trim raw)) as [[num m]|] eqn:E; [|done].
    assert (0 <= m).
    { revert E. unfold timeout_unit. destruct (strip_suffix (bytes_of "s") _); [intros [= _ <-]; lia|].
      destruct (strip_suffix (bytes_of "m") _); [intros [= _ <-]; lia|].
      destruct (strip_suffix (bytes_of "h") _); [intros [= _ <-]; lia|done]. }
    destruct (parse_u64 num) as [n|] eqn:En; [|done]. apply parse_u64_width in En as [? _]. unfold checked_mul.
    destruct (Z.leb_spec (n * m) u64_max); [|done]. intros [= <-]. split; nia.
Qed.

(** A length of time in milliseconds is never rounded down to none. *)
Lemma some_milliseconds ms : f64_lt (f64_of_Z 0) ms = true -> 1 <= whole_seconds ms.
Proof. intros H. unfold whole_seconds. rewrite H. lia. Qed.

(** C40: an argument means what it says. A number written out with a unit of
    sizes or of times is read as that many of the unit, exactly when the
    product fits in 64 bits; what is read never wraps, and a timeout of some
    milliseconds never becomes the zero that switches timeouts off. *)
Theorem arguments_exact :
  (forall n unit m, 0 <= n -> (unit, m) ∈ size_units ->
     exists e, parse_size (written n unit) = if n * m <=? u64_max then Ok (n * m) else Err e) /\
  (forall n unit m, 0 <= n -> (unit, m) ∈ timeout_units ->
     exists e, parse_timeout_arg (written n unit) = if n * m <=? u64_max then Ok (n * m) else Err e) /\
  (forall raw x, parse_size raw = Ok x \/ parse_timeout_arg raw = Ok x -> in_width u64_max x) /\
  (forall raw text ms, parse_u64 (trim raw) = None -> trim raw = text ++ bytes_of "ms" ->
     parse_f64 (trim text) = Some ms -> f64_lt (f64_of_Z 0) ms = true ->
     exists secs, parse_timeout_arg raw = Ok secs /\ run_timeout secs = Wall secs).
Proof.
  split_and!; [apply size_unit_spec|apply timeout_unit_spec|intros raw x [?%parse_size_width|?%parse_timeout_width]; done|].
  intros raw s ms Hn Hs Hms Hpos. exists (whole_seconds ms). unfold parse_timeout_arg.
  rewrite Hn, Hs, strip_suffix_same, Hms. split; [done|]. apply some_milliseconds in Hpos.
  unfold run_timeout. destruct (Z.eqb_spec (whole_seconds ms) 0); [lia|done].
Qed.

Lemma arguments_exact_witness :
  parse_size (written 2 "G") = Ok 2147483648 /\ parse_timeout_arg (written 10 "m") = Ok 600 /\
  (exists e, parse_size (written 16777216 "T") = Err e) /\ (exists secs, parse_timeout_arg (bytes_of " 500ms") = Ok secs /\ run_timeout secs = Wall secs).
Proof.
  destruct arguments_exact as (H1 & H2 & _ & H4). split_and!.
  - by destruct (H1 2 "G" (1024 ^ 3)) as [e ->]; [lia|set_solver|].
  - by destruct (H2 10 "m" 60) as [e ->]; [lia|set_solver|].
  - destruct (H1 16777216 "T" (1024 ^ 4)) as [e ->]; [lia|set_solver|]. by exists e.
  - apply (H4 _ (bytes_of "500") (f64_of_Z 500)); vm_compute; reflexivity.
Defined.

(** A negative time in milliseconds is taken, and is no timeout at all; in
    seconds it is refused. *)
Example negative_timeout_disables :
  option_map run_timeout (match parse_timeout_arg (bytes_of "-5000ms") with Ok x => Some x | _ => None end) = Some Disabled /\
  parse_timeout_arg (bytes_of "-5s") = Err (BadTimeoutArg (bytes_of "-5s")).
Proof. vm_compute. done. Qed.

(** An overcommit factor that is no number passes the clamp: the pool has no
    processor, and nothing is said. *)
Example overcommit_not_a_number :
  parse_f64 (bytes_of "nan") = Some S754_nan /\ pool_cpus 8 S754_nan = 0 /\
  pool_cpus 8 (f64_of_Z 100) = 64 /\ pool_cpus 1 (f64_of_ratio false 1 10) = 1 /\ pool_cpus 3 (f64_of_ratio false 3 2) = 5.
Proof. vm_compute. done. Qed.

Example memory_share :
  detected_pool_memory_bytes (Some (bytes_of "MemFree: 1 kB" ++ [NEWLINE] ++ bytes_of "MemTotal:       65812296 kB")) = 53913432883 /\
  detected_pool_memory_bytes (Some (bytes_of "MemTotal: 0 kB")) = DEFAULT_POOL_MEMORY_BYTES /\
  detected_pool_memory_bytes None = DEFAULT_POOL_MEMORY_BYTES.
Proof. vm_compute. done. Qed.

Example pressure_read :
  psi_turn (f64_of_Z 10) (Some (bytes_of "some avg10=12.50 avg60=0.00 total=1")) None = true /\
  psi_turn (f64_of_Z 10) (Some (bytes_of "some avg10=10.00 avg60=9.00" ++ [NEWLINE] ++ bytes_of "full avg10=50.00")) None = false.
Proof. vm_compute. done. Qed.

Example net_admin_bit :
  check_net_admin (Some (bytes_of "CapEff:" ++ [x09] ++ bytes_of "0000000000001000")) = true /\
  check_net_admin (Some (bytes_of "CapEff: 0000000000000fff")) = false /\ check_net_admin (Some (bytes_of "none")) = true.
Proof. vm_compute. done. Qed.

Example key_values :
  parse_kv (bytes_of "spec=PSD-123=base") = Ok (bytes_of "spec", bytes_of "PSD-123=base") /\
  parse_kv (bytes_of "=v") = Err (ExpectedKeyValue (bytes_of "=v")).
Proof. vm_compute. done. Qed.
