(* ===== verification/Cli.v ===== *)
(** A run of the test files from the command line,
    [src/provium-host/src/bin/provium.rs]: discovery, what is run again after a
    failure, and what is watched. *)
From stdpp Require Import sorting pretty.
From S2P Require Import Prelude Text Numbers CliArgs Dispatch.

Open Scope string_scope.
Open Scope list_scope.
Open Scope Z_scope.

(** * Paths *)

(** A [Path] as [==], [cmp] and [hash] see it: by its components. Names are
    valid UTF-8, so [to_string_lossy] is the identity on them. *)
Inductive component := RootDir | CurDir | ParentDir | Normal (name : string).
Definition path : Type := list component.

#[export] Instance component_eq_dec : EqDecision component.
Proof. solve_decision. Defined.

Definition rank (c : component) : Z := match c with RootDir => 0 | CurDir => 1 | ParentDir => 2 | Normal _ => 3 end.
Definition component_le (c d : component) : Prop :=
  rank c < rank d \/ (rank c = rank d /\ match c, d with Normal a, Normal b => String.le a b | _, _ => True end).

Fixpoint path_le (p q : path) : Prop :=
  match p, q with
  | [], _ => True
  | _ :: _, [] => False
  | c :: p, d :: q => component_le c d /\ (c = d -> path_le p q)
  end.

#[export] Instance component_le_dec : RelDecision component_le.
Proof. intros c d. unfold component_le. destruct c, d; apply _. Defined.
Fixpoint path_le_decide (p q : path) : Decision (path_le p q).
Proof.
  refine (match p, q with
          | [], _ => left I
          | _ :: _, [] => right (fun H => H)
          | c :: p, d :: q =>
              match decide (component_le c d) with
              | left H1 => match decide (c = d) with
                           | left H2 => match path_le_decide p q with left H3 => left _ | right H3 => right _ end
                           | right H2 => left _
                           end
              | right H1 => right _
              end
          end); simpl; clear path_le_decide; tauto.
Defined.
#[export] Instance path_le_dec : RelDecision path_le := path_le_decide.

Definition file_name (p : path) : option string := match last p with Some (Normal n) => Some n | _ => None end.

Definition is_test_file (p : path) : bool :=
  match file_name p with
  | Some n => if strip_suffix (bytes_of ".test.lua") (bytes_of n) is Some _ then true else false
  | None => false
  end.

Fixpoint path_strip_prefix (root p : path) : option path :=
  match root, p with
  | [], _ => Some p
  | c :: root, d :: p => if decide (c = d) then path_strip_prefix root p else None
  | _ :: _, [] => None
  end.

Definition component_text (c : component) : string :=
  match c with RootDir => "" | CurDir => "." | ParentDir => ".." | Normal n => n end.
Fixpoint path_text (p : path) : string :=
  match p with
  | [] => ""
  | [RootDir] => "/"
  | [c] => component_text c
  | c :: p => component_text c +:+ "/" +:+ path_text p
  end.

Definition contains (sub s : bytes) : bool := if find_bytes sub s is Some _ then true else false.

Definition filter_matches (filter : option string) (p root : path) : bool :=
  match filter with
  | Some f => contains (bytes_of f) (bytes_of (path_text (default p (path_strip_prefix root p))))
  | None => true
  end.

(** * The file system a run looks at *)

(** [entries] is the walk below a directory in its order, links not followed,
    unreadable entries dropped; the flag says which are files. *)
Class Tree := {
  is_file : path -> bool;
  entries : path -> list (path * bool);
  canonicalize : path -> option path;
  mtime : path -> option Z;
}.

Section run.
Context {T : Tree}.

Definition discover_root (flt : option string) (root : path) : list path :=
  if is_file root && is_test_file root
  then (if filter_matches flt root root then [root] else [])
  else filter (fun p => filter_matches flt p root = true)
         (filter (fun e : path * bool => e.2 && is_test_file e.1 = true) (entries root)).*1.

Definition discover_test_files (roots : list path) (flt : option string) : list path :=
  merge_sort path_le (roots ≫= discover_root flt).

(** * Running again what failed *)

(** What the state file says; a file that cannot be read or parsed says nothing. *)
Definition load_rerun_failed (state : option (list path)) : list path := default [] state.

(** [save_rerun_failed], only called when something failed. *)
Definition save_rerun_failed (failed : list path) : list path :=
  (fun p => default p (canonicalize p)) <$> failed.

Record select_args := SelectArgs {
  sa_roots : list path; sa_filter : option string; sa_rerun_failed : bool; sa_since : option path }.

Inductive selection := NothingToRerun | Selected (ps : list path).

Definition newer_than (since : option path) (ps : list path) : list path :=
  match since ≫= mtime with
  | Some threshold => filter (fun p => match mtime p with Some t => threshold <? t | None => false end = true) ps
  | None => ps
  end.

Definition select (a : select_args) (state : option (list path)) : selection :=
  let discovered := discover_test_files (sa_roots a) (sa_filter a) in
  if sa_rerun_failed a then
    match load_rerun_failed state with
    | [] => NothingToRerun
    | failed => Selected (newer_than (sa_since a) (filter (fun p => p ∈ failed) discovered))
    end
  else Selected (newer_than (sa_since a) discovered).

(** The state a run leaves: a clean run leaves the one before. *)
Definition state_after (state : option (list path)) (results : list (path * dispatched_file)) : option (list path) :=
  match (filter (fun r => passed r.2 = false) results).*1 with
  | [] => state
  | failed => Some (save_rerun_failed failed)
  end.

(** * Watching *)

Definition stamped (p : path) : option (path * Z) := t ← mtime p; Some (p, t).
Definition stamp_le (x y : path * Z) : Prop := path_le x.1 y.1 /\ (x.1 = y.1 -> x.2 <= y.2).
#[export] Instance stamp_le_dec : RelDecision stamp_le.
Proof. intros x y. unfold stamp_le. apply _. Defined.

Definition mtimes_of (ps : list path) : list (path * Z) := merge_sort stamp_le (omap stamped ps).
End run.

(** One turn of [watch_loop] after its sleep: [before] is what the last turn
    kept, [T] the tree now and [T'] the tree once the run is over. It says
    whether there is a run, and what is kept. *)
Definition watch_turn (T T' : Tree) (roots : list path) (flt : option string) (before : list (path * Z)) : bool * list (path * Z) :=
  if decide (mtimes_of (T:=T) (discover_test_files (T:=T) roots flt) = before) then (false, before)
  else (true, mtimes_of (T:=T') (discover_test_files (T:=T') roots flt)).

(** * The order of paths *)

#[export] Instance component_le_total : Total component_le.
Proof.
  intros c d. unfold component_le. destruct c as [| | |a], d as [| | |b]; simpl; try lia.
  destruct (total String.le a b); auto.
Qed.
#[export] Instance component_le_trans : Transitive component_le.
Proof.
  intros c d e. unfold component_le. destruct c as [| | |x], d as [| | |y], e as [| | |z]; simpl; try lia.
  intros [|[_ H1]] [|[_ H2]]; try lia. right. split; [done|]. by transitivity y.
Qed.
Lemma component_le_antisym c d : component_le c d -> component_le d c -> c = d.
Proof.
  unfold component_le. destruct c as [| | |x], d as [| | |y]; simpl; try lia; try done.
  intros [|[_ H1]] [|[_ H2]]; try lia. f_equal. by apply (anti_symm String.le).
Qed.

#[export] Instance path_le_total : Total path_le.
Proof.
  intros p. induction p as [|c p IH]; intros [|d q]; simpl; auto.
  destruct (decide (c = d)) as [->|Hne].
  - destruct (total component_le d d) as [Hd|Hd], (IH q); auto.
  - destruct (total component_le c d); [left|right]; (split; [done|]); congruence.
Qed.
#[export] Instance path_le_trans : Transitive path_le.
Proof.
  intros p. induction p as [|c p IH]; intros [|d q] [|e r]; simpl; try done.
  intros [H1 H2] [H3 H4]. split; [by transitivity d|]. intros ->.
  pose proof (component_le_antisym _ _ H1 H3) as ->. apply (IH q); auto.
Qed.

(** * Discovery *)

Section discovery.
Context {T : Tree}.

(** What a root brings in: itself if it is a test file, else the test files below it. *)
Definition reached (root p : path) : Prop :=
  is_test_file p = true /\
  ((is_file root = true /\ p = root) \/
   (~ (is_file root = true /\ is_test_file root = true) /\ (p, true) ∈ entries root)).

Lemma elem_of_discover_root flt root p :
  p ∈ discover_root flt root <-> reached root p /\ filter_matches flt p root = true.
Proof.
  unfold discover_root, reached. destruct (is_file root) eqn:Ef, (is_test_file root) eqn:Et; cbn [andb].
  1: { destruct (filter_matches flt root root) eqn:Em.
       - rewrite list_elem_of_singleton. split; [intros ->; auto|]. intros [[? [[_ ->]|[[] _]]] _]; auto.
       - split; [by intros ?%elem_of_nil|]. intros [[? [[_ ->]|[[] _]]] ?]; auto. congruence. }
  all: rewrite list_elem_of_filter; setoid_rewrite list_elem_of_fmap; setoid_rewrite list_elem_of_filter; split.
  all: try (intros [Hm ([q b] & -> & Hb & He)]; simpl in *; apply andb_true_iff in Hb as [-> Hq]; split; [|done];
            split; [done|]; right; split; [intros [? ?]; congruence|done]).
  all: intros [[Ht [[Hf ->]|[_ He]]] Hm]; try congruence; (split; [done|]; exists (p, true); simpl; rewrite Ht; done).
Qed.

(** Discovery finds every test file once for every root that reaches it,
    those the filter lets through and nothing else, in the order of paths. *)
Lemma discovery_exact roots flt :
  StronglySorted path_le (discover_test_files roots flt) /\
  (forall p, p ∈ discover_test_files roots flt <->
     exists root, root ∈ roots /\ reached root p /\ filter_matches flt p root = true) /\
  ((forall root, root ∈ roots -> NoDup (entries root).*1) -> NoDup roots ->
   (forall r1 r2 p, r1 ∈ roots -> r2 ∈ roots -> reached r1 p -> reached r2 p -> r1 = r2) ->
   NoDup (discover_test_files roots flt)).
Proof.
  split_and!.
  - apply StronglySorted_merge_sort; apply _.
  - intros p. unfold discover_test_files. rewrite merge_sort_Permutation, list_elem_of_bind.
    setoid_rewrite elem_of_discover_root. naive_solver.
  - intros Hent Hnd Hone. unfold discover_test_files. rewrite merge_sort_Permutation.
    induction Hnd as [|r rs Hr Hnd IH]; cbn; [constructor|]. apply NoDup_app. split_and!.
    + unfold discover_root. destruct (_ && _); [destruct (filter_matches _ _ _); [apply NoDup_singleton|constructor]|].
      apply NoDup_filter. eapply sublist_NoDup; [apply Hent; left|]. apply fmap_sublist, sublist_filter.
    + intros p [Hp _]%elem_of_discover_root (r' & [Hp' _]%elem_of_discover_root & Hr')%list_elem_of_bind.
      assert (r = r') as <- by (apply (Hone r r' p); [left|right| |]; done). done.
    + apply IH; [intros r' Hr'; apply Hent; by right|]. intros r1 r2 p H1 H2. apply Hone; by right.
Qed.
End discovery.

(** * Running again *)

Section rerun.
Context {T : Tree}.

Definition failed_paths (results : list (path * dispatched_file)) : list path :=
  (filter (fun r => passed r.2 = false) results).*1.

Lemma failed_paths_sub results : failed_paths results ⊆ results.*1.
Proof. apply sublist_subseteq, fmap_sublist, sublist_filter. Qed.

Lemma state_after_failed state results : failed_paths results <> [] ->
  state_after state results = Some (save_rerun_failed (failed_paths results)).
Proof. unfold state_after, failed_paths. by destruct (filter _ _).*1. Qed.

Lemma save_canonical ps : Forall (fun p => canonicalize p = Some p) ps -> save_rerun_failed ps = ps.
Proof. intros Hps. unfold save_rerun_failed. induction Hps as [|p ps Hp Hps IH]; [done|]. rewrite fmap_cons, Hp. f_equal. exact IH. Qed.

Lemma filter_agree {A} (P Q : A -> Prop) `{!forall x, Decision (P x), !forall x, Decision (Q x)} (l : list A) :
  (forall x, x ∈ l -> P x <-> Q x) -> filter P l = filter Q l.
Proof.
  induction l as [|x l IH]; intros Hx; [done|]. rewrite !filter_cons.
  rewrite IH by (intros y Hy; apply Hx; by right). specialize (Hx x (list_elem_of_here _ _)).
  destruct (decide (P x)), (decide (Q x)); tauto.
Qed.

Lemma newer_than_filter since (P : path -> Prop) `{!forall x, Decision (P x)} ps :
  newer_than since (filter P ps) = filter P (newer_than since ps).
Proof.
  unfold newer_than. destruct (since ≫= mtime); [|done]. rewrite !list_filter_filter.
  apply filter_agree. tauto.
Qed.

(** [--rerun-failed] runs what failed. After a run over files that were
    found under their canonical paths, the same command with the flag selects
    exactly the files that did not pass, in the same order; a run in which
    everything passed leaves the list of an earlier run in place. *)
Lemma rerun_runs_failures a state results :
  sa_rerun_failed a = false ->
  select a state = Selected results.*1 ->
  Forall (fun p => canonicalize p = Some p) results.*1 -> NoDup results.*1 ->
  (failed_paths results <> [] ->
   select (SelectArgs (sa_roots a) (sa_filter a) true (sa_since a)) (state_after state results) = Selected (failed_paths results)) /\
  (failed_paths results = [] -> state_after state results = state).
Proof.
  intros Ha Hsel Hcan Hnd. split.
  2: { unfold state_after, failed_paths. by intros ->. }
  intros Hf. rewrite state_after_failed by done.
  pose proof (failed_paths_sub results) as Hsub.
  rewrite save_canonical by (rewrite Forall_forall in Hcan |- *; eauto).
  unfold select in *. rewrite Ha in Hsel. injection Hsel as Hsel. cbn [sa_rerun_failed sa_roots sa_filter sa_since load_rerun_failed].
  change (load_rerun_failed (Some ?l)) with l. destruct (failed_paths results) as [|f fs] eqn:Efs; [done|]. f_equal.
  rewrite newer_than_filter, Hsel, <- Efs. clear Hsel Hcan Hf Efs f fs Hsub. unfold failed_paths.
  induction results as [|[p d] rs IH]; [done|]. cbn [fmap list_fmap] in *. apply NoDup_cons in Hnd as [Hp Hnd].
  rewrite !filter_cons. cbn [snd fst].
  assert (Hmem : forall ps, p ∉ ps -> (filter (fun q => q ∈ ps) rs.*1) = filter (fun q => q ∈ p :: ps) rs.*1).
  { intros ps Hps. apply filter_agree. intros q Hq. rewrite elem_of_cons. split; [auto|]. intros [->|]; [by destruct Hp|done]. }
  assert (Hnot : p ∉ (filter (fun r : path * dispatched_file => passed r.2 = false) rs).*1).
  { intros Hin. by apply Hp, (failed_paths_sub rs). }
  destruct (decide (passed d = false)) as [Hd|Hd]; cbn [fmap list_fmap fst].
  - rewrite decide_True by left. f_equal. rewrite <- Hmem by done. by apply IH.
  - rewrite decide_False by done. by apply IH.
Qed.

(** Paths found under a relative root never match: what is kept of them is
    absolute. *)
Lemma rerun_misses_relative a state results :
  (forall p q, canonicalize p = Some q -> head q = Some RootDir) ->
  Forall (fun p => head p <> Some RootDir /\ canonicalize p <> None) (discover_test_files (sa_roots a) (sa_filter a)) ->
  results.*1 ⊆ discover_test_files (sa_roots a) (sa_filter a) -> failed_paths results <> [] ->
  select (SelectArgs (sa_roots a) (sa_filter a) true None) (state_after state results) = Selected [].
Proof.
  intros Habs Hrel Hsub Hf. rewrite state_after_failed by done. unfold select. cbn [sa_rerun_failed sa_roots sa_filter sa_since].
  change (load_rerun_failed (Some ?l)) with l. destruct (save_rerun_failed _) as [|f fs] eqn:Es.
  { by destruct (failed_paths results). }
  rewrite <- Es. clear f fs Es. f_equal. unfold newer_than. simpl.
  rewrite Forall_forall in Hrel. pose proof (failed_paths_sub results) as Hsub'.
  assert (Hnone : forall l, l ⊆ discover_test_files (sa_roots a) (sa_filter a) ->
            filter (fun p => p ∈ save_rerun_failed (failed_paths results)) l = []).
  { induction l as [|p l IH]; intros Hl; [done|]. rewrite filter_cons, decide_False; [apply IH; set_solver|].
    unfold save_rerun_failed. intros (q & Hp & Hq)%list_elem_of_fmap.
    destruct (Hrel p) as [Hh _]; [apply Hl; left|]. destruct (Hrel q) as [_ Hc]; [by apply Hsub, Hsub'|].
    destruct (canonicalize q) as [q'|] eqn:Eq; [|done]. apply Habs in Eq. simpl in Hp. congruence. }
  by apply Hnone.
Qed.
End rerun.

(** * Watching *)

Lemma watch_turn_runs T T' roots flt before :
  (watch_turn T T' roots flt before).1 = true <-> mtimes_of (T:=T) (discover_test_files (T:=T) roots flt) <> before.
Proof. unfold watch_turn. by destruct (decide _). Qed.

(** What was edited while a run was under way is taken for seen. *)
Lemma edit_during_run_missed T T' T'' roots flt before :
  (watch_turn T T' roots flt before).1 = true ->
  (watch_turn T' T'' roots flt (watch_turn T T' roots flt before).2).1 = false.
Proof. unfold watch_turn. destruct (decide _); [done|]. intros _. simpl. by rewrite decide_True. Qed.

(** * Examples *)

Definition at_root (names : list string) : path := RootDir :: (Normal <$> names).
Definition demo_tests : path := at_root ["w"; "tests"].
Definition demo_files : list path := [at_root ["w"; "tests"; "b.test.lua"]; at_root ["w"; "tests"; "a.test.lua"]].

(** Two tests below [/w/tests], seen from [/w]. *)
Definition demo_tree : Tree := {|
  is_file p := bool_decide (p ∈ demo_files \/ p ∈ (fun q => drop 2 q) <$> demo_files);
  entries p := if decide (p = demo_tests) then (demo_tests, false) :: ((fun q => (q, true)) <$> demo_files)
               else if decide (p = [Normal "tests"]) then (fun q => (drop 2 q, true)) <$> demo_files else [];
  canonicalize p := Some (match p with RootDir :: _ => p | _ => at_root ["w"] ++ p end);
  mtime p := if decide (p ∈ demo_files) then Some 5 else None;
|}.

Definition demo_outcome (status : test_status) : dispatched_file :=
  DispatchedFile "t" InTime (FileOutcome "t" None [TestOutcome "x" status None []]).

Definition demo_results : list (path * dispatched_file) :=
  [(at_root ["w"; "tests"; "a.test.lua"], demo_outcome TPassed); (at_root ["w"; "tests"; "b.test.lua"], demo_outcome TFailed)].

Example discovered_in_order :
  discover_test_files (T:=demo_tree) [demo_tests] None = demo_results.*1 /\
  discover_test_files (T:=demo_tree) [demo_tests] (Some "b.") = [at_root ["w"; "tests"; "b.test.lua"]] /\
  path_le (at_root ["a"; "b"]) (at_root ["a-b"]).
Proof. split_and!; [vm_compute; reflexivity..|by refine (bool_decide_unpack _ _)]. Qed.

Lemma discovery_exact_witness : NoDup (discover_test_files (T:=demo_tree) [demo_tests] None).
Proof.
  apply (discovery_exact (T:=demo_tree) [demo_tests] None).
  - intros root ->%list_elem_of_singleton. refine (bool_decide_unpack _ _). vm_compute. exact I.
  - refine (bool_decide_unpack _ _). vm_compute. exact I.
  - intros r1 r2 p ->%list_elem_of_singleton ->%list_elem_of_singleton. done.
Defined.

Lemma rerun_runs_failures_witness :
  select (T:=demo_tree) (SelectArgs [demo_tests] None true None) (state_after (T:=demo_tree) None demo_results) =
  Selected [at_root ["w"; "tests"; "b.test.lua"]].
Proof.
  destruct (rerun_runs_failures (T:=demo_tree) (SelectArgs [demo_tests] None false None) None demo_results) as [H _].
  - reflexivity.
  - vm_compute. reflexivity.
  - refine (bool_decide_unpack _ _). vm_compute. exact I.
  - refine (bool_decide_unpack _ _). vm_compute. exact I.
  - etransitivity; [apply H; vm_compute; discriminate|vm_compute; reflexivity].
Defined.

(** Named by a relative root, nothing is run again. *)
Example relative_rerun_runs_nothing :
  let results := [([Normal "tests"; Normal "a.test.lua"], demo_outcome TPassed); ([Normal "tests"; Normal "b.test.lua"], demo_outcome TFailed)] in
  select (T:=demo_tree) (SelectArgs [[Normal "tests"]] None false None) None = Selected results.*1 /\
  select (T:=demo_tree) (SelectArgs [[Normal "tests"]] None true None) (state_after (T:=demo_tree) None results) = Selected [].
Proof. vm_compute. done. Qed.

(** A test file named on its own is no match for any filter but the empty one,
    though the filter is part of its name. *)
Example filter_misses_named_file :
  discover_test_files (T:=demo_tree) [at_root ["w"; "tests"; "b.test.lua"]] (Some "b.test") = [] /\
  discover_test_files (T:=demo_tree) [at_root ["w"; "tests"; "b.test.lua"]] None <> [].
Proof. vm_compute. done. Qed.

(** Roots that overlap run a file once for each. *)
Example overlapping_roots_run_twice :
  length (discover_test_files (T:=demo_tree) [demo_tests; at_root ["w"; "tests"; "b.test.lua"]] None) = 3%nat.
Proof. vm_compute. done. Qed.
