(* ===== verification/CliReport.v ===== *)
(** What a run tells its user, [src/provium-host/src/bin/provium.rs]: the lines
    of a file, the summary, the progress reporter, the exit code, and the sinks
    the event stream goes to. *)
From Stdlib Require Import SpecFloat.
From stdpp Require Import pretty.
From S2P Require Import Prelude Names Text Numbers CliArgs Dispatch.

Open Scope string_scope.
Open Scope list_scope.
Open Scope Z_scope.

(** * One file *)

Definition status_is (s : test_status) (t : test_outcome) : bool :=
  match s, to_status t with TPassed, TPassed | TFailed, TFailed | TSkipped, TSkipped => true | _, _ => false end.
Definition count_status (s : test_status) (o : file_outcome) : Z := zlen (filter (fun t => status_is s t = true) (fo_tests o)).

(** [FileOutcome::summary]: passed, failed, skipped. *)
Definition summary (o : file_outcome) : Z * Z * Z := (count_status TPassed o, count_status TFailed o, count_status TSkipped o).

Definition status_label (r : dispatched_file) : string :=
  let '(_, f, _) := summary (df_outcome r) in
  if decide (df_timeout r = TimedOutFile) then "TIME" else if 0 <? f then "FAIL" else "PASS".

Definition test_lines (verbose : bool) (t : test_outcome) : list string :=
  match to_status t with
  | TFailed =>
      ("    FAIL " +:+ to_name t) ::
      match to_message t with
      | Some msg => (fun line => "        " +:+ text line) <$> lines (bytes_of msg)
      | None => []
      end
  | TSkipped => if verbose then ["    SKIP " +:+ to_name t +:+ " (" +:+ default "" (to_message t) +:+ ")"] else []
  | TPassed => if verbose then ["    PASS " +:+ to_name t] else []
  end.

Definition progress_prefix (progress : option (Z * Z)) : string :=
  match progress with Some (i, n) => "[" +:+ pretty i +:+ "/" +:+ pretty n +:+ "] " | None => "" end.

(** The lines of [print_file_outcome]. *)
Definition print_file_outcome (r : dispatched_file) (verbose quiet : bool) (progress : option (Z * Z)) : list string :=
  let prefix := progress_prefix progress in
  match chunk_error (df_outcome r) with
  | Some err => [prefix +:+ "FAIL " +:+ df_path r; "  chunk_error: " +:+ err]
  | None =>
      let '(p, f, s) := summary (df_outcome r) in
      (if negb quiet || (0 <? f) || bool_decide (df_timeout r = TimedOutFile)
       then [prefix +:+ status_label r +:+ " " +:+ df_path r +:+ " (" +:+ pretty p +:+ " passed, " +:+ pretty f +:+ " failed, "
             +:+ pretty s +:+ " skipped)"]
       else []) ++
      (fo_tests (df_outcome r) ≫= test_lines verbose)
  end.

(** * The run *)

Record tally := Tally { t_files : Z; t_passed : Z; t_failed : Z; t_skipped : Z; t_errored : Z }.

Definition count_file (t : tally) (r : dispatched_file) : tally :=
  let '(p, f, s) := summary (df_outcome r) in
  let err := bool_decide (is_Some (chunk_error (df_outcome r))) || bool_decide (df_timeout r = TimedOutFile) in
  Tally (t_files t + 1) (t_passed t + p) (t_failed t + f) (t_skipped t + s) (t_errored t + (if err then 1 else 0)).

Definition summary_counts (results : list dispatched_file) : tally := foldl count_file (Tally 0 0 0 0 0) results.

(** [Duration::as_secs_f64]. *)
Definition as_secs_f64 (ns : Z) : spec_float :=
  SFadd 53 1024 (f64_of_Z (ns / 1000000000)) (f64_div (f64_of_Z (ns mod 1000000000)) (f64_of_Z 1000000000)).

(** The line of [print_summary], after its empty line. *)
Definition print_summary (results : list dispatched_file) (elapsed_ns : Z) : string :=
  let t := summary_counts results in
  pretty (t_files t) +:+ " file(s); " +:+ pretty (t_passed t) +:+ " passed, " +:+ pretty (t_failed t) +:+ " failed, "
  +:+ pretty (t_skipped t) +:+ " skipped"
  +:+ (if 0 <? t_errored t then ", " +:+ pretty (t_errored t) +:+ " file(s) errored" else "")
  +:+ "; " +:+ fixed2 (as_secs_f64 elapsed_ns) +:+ "s".

(** * The progress reporter *)

Record progress := Progress {
  pg_done : Z;
  pg_vms : Z;
  pg_tests : Z;
  pg_given : gmap nat Z;
  pg_printed : list (nat * Z);
  pg_position : Z;
}.

Definition progress_start : progress := Progress 0 0 0 ∅ [] 0.

Inductive progress_event := VmSpawned | VmShutdown | TestPassed | TestFailed | TestSkipped | OtherEvent.

(** [AtomicI64] wraps. *)
Definition wrap_i64 (x : Z) : Z := (x + 2 ^ 63) mod 2 ^ 64 - 2 ^ 63.

Definition emit (e : progress_event) (p : progress) : progress :=
  match e with
  | VmSpawned => Progress (pg_done p) (wrap_i64 (pg_vms p + 1)) (pg_tests p) (pg_given p) (pg_printed p) (pg_position p)
  | VmShutdown => Progress (pg_done p) (wrap_i64 (pg_vms p - 1)) (pg_tests p) (pg_given p) (pg_printed p) (pg_position p)
  | TestPassed | TestFailed | TestSkipped =>
      Progress (pg_done p) (pg_vms p) (wrap u64_max (pg_tests p + 1)) (pg_given p) (pg_printed p) (pg_position p)
  | OtherEvent => p
  end.

(** The bar's text, of the numbers as they are loaded. *)
Definition refresh_message (vms tests : Z) : string :=
  let vms := Z.max vms 0 in
  if tests =? 0 then (if vms =? 0 then "booting" else "booting · " +:+ pretty vms +:+ " vms")
  else pretty vms +:+ " vms · " +:+ pretty tests +:+ " tests".

(** [on_file_done] of a runner's thread: the counter under its lock, then the
    lines, then the bar, each on its own. *)
Inductive progress_label := CountFile (file : nat) | PrintFile (file : nat) | MoveBar (file : nat) | Event (e : progress_event).

Definition progress_step (l : progress_label) (p : progress) : option progress :=
  match l with
  | CountFile i =>
      match pg_given p !! i with
      | Some _ => None
      | None => Some (Progress (pg_done p + 1) (pg_vms p) (pg_tests p) (<[i := pg_done p + 1]> (pg_given p)) (pg_printed p) (pg_position p))
      end
  | PrintFile i =>
      idx ← pg_given p !! i;
      if decide (i ∈ (pg_printed p).*1) then None
      else Some (Progress (pg_done p) (pg_vms p) (pg_tests p) (pg_given p) (pg_printed p ++ [(i, idx)]) (pg_position p))
  | MoveBar i =>
      if decide (i ∈ (pg_printed p).*1) then
        idx ← pg_given p !! i;
        Some (Progress (pg_done p) (pg_vms p) (pg_tests p) (pg_given p) (pg_printed p) idx)
      else None
  | Event e => Some (emit e p)
  end.

(** * Where events go *)

Inductive sink :=
| SaveEvents (path : string) (truncate : bool)
| EventsStdout
| CoverageFile
| EventsSocket (path : string).
Inductive event_sink := NoSink | OneSink (s : sink) | ManySinks (ss : list sink).

Record sink_args := SinkArgs {
  save_events : option string; events_stdout : bool; coverage : bool; events_socket : option string; watch : bool }.

Definition build_event_sink (a : sink_args) : event_sink :=
  let sinks :=
    match save_events a with Some p => [SaveEvents p (watch a)] | None => [] end ++
    (if events_stdout a then [EventsStdout] else []) ++
    (if coverage a && bool_decide (save_events a = None) then [CoverageFile] else []) ++
    match events_socket a with Some p => [EventsSocket p] | None => [] end in
  match sinks with [] => NoSink | [s] => OneSink s | _ => ManySinks sinks end.

(** The sinks of the runs a command makes: [run] hands [--watch] to
    [watch_loop] before it builds any, and the loop clears the flag. *)
Definition clear_watch (a : sink_args) : sink_args :=
  SinkArgs (save_events a) (events_stdout a) (coverage a) (events_socket a) false.
Definition sinks_of_run (a : sink_args) : event_sink :=
  if watch a then build_event_sink (clear_watch a) else build_event_sink a.

(** * Sizes for people *)

Definition UNITS : list string := ["B"; "KiB"; "MiB"; "GiB"; "TiB"].

Fixpoint scale_down (units : list string) (v : spec_float) : spec_float * string :=
  match units with
  | [] => (v, "")
  | [u] => (v, u)
  | u :: rest => if f64_lt v (f64_of_Z 1024) then (v, u) else scale_down rest (f64_div v (f64_of_Z 1024))
  end.

Definition human_bytes (n : Z) : string := let (v, u) := scale_down UNITS (f64_of_Z n) in fixed2 v +:+ u.

(** [rerun_state_path]. *)
Definition rerun_state_path (env : string -> option string) : string :=
  match env "PROVIUM_RERUN_STATE" with
  | Some p => p
  | None => match env "HOME" with
            | Some home => path_join home ".cache/provium/rerun.json"
            | None => "/tmp/provium-rerun.json"
            end
  end.

(** * The report and the verdict *)

Lemma count_status_zero s o : count_status s o = 0 <-> Forall (fun t => status_is s t = false) (fo_tests o).
Proof.
  unfold count_status. split.
  - intros Hz%zlen_zero. apply Forall_forall. intros t Ht. destruct (status_is s t) eqn:E; [|done].
    assert (Hin : t ∈ filter (fun t => status_is s t = true) (fo_tests o)) by (apply list_elem_of_filter; auto).
    rewrite Hz in Hin. by apply elem_of_nil in Hin.
  - intros Hall. induction Hall as [|t ts Ht Hall IH]; [done|]. rewrite filter_cons, decide_False by congruence. done.
Qed.

Lemma no_failure o : all_succeeded o = true <-> chunk_error o = None /\ count_status TFailed o = 0.
Proof.
  unfold all_succeeded. rewrite andb_true_iff, bool_decide_eq_true, count_status_zero, List.forallb_forall, Forall_forall.
  split; intros [? H]; (split; [done|]); intros t Ht; specialize (H t);
    rewrite <- ?list_elem_of_In in H; rewrite <- ?list_elem_of_In in Ht; specialize (H Ht);
    unfold status_is, succeeded in *; by destruct (to_status t).
Qed.

Lemma passed_spec r : passed r = true <->
  df_timeout r = InTime /\ chunk_error (df_outcome r) = None /\ count_status TFailed (df_outcome r) = 0.
Proof. unfold passed. by rewrite andb_true_iff, bool_decide_eq_true, no_failure. Qed.

Lemma count_status_nonneg s o : 0 <= count_status s o.
Proof. apply zlen_nonneg. Qed.

Lemma append_empty (s : string) : s +:+ "" = s.
Proof. induction s as [|c s IH]; [done|]. exact (f_equal (String c) IH). Qed.

(** The word a file is reported under. *)
Definition label (r : dispatched_file) : string :=
  match chunk_error (df_outcome r) with Some _ => "FAIL" | None => status_label r end.

Lemma label_passed r : label r = "PASS" <-> passed r = true.
Proof.
  rewrite passed_spec. unfold label, status_label, summary. pose proof (count_status_nonneg TFailed (df_outcome r)).
  destruct (chunk_error (df_outcome r)); [split; [done|by intros (_ & ? & _)]|].
  destruct (decide _) as [->|Hd]; [split; [done|by intros (? & _)]|].
  destruct (df_timeout r) eqn:E; [|done]. destruct (Z.ltb_spec 0 (count_status TFailed (df_outcome r))).
  - split; [done|]. intros (_ & _ & ?). lia.
  - split; [intros _; split_and!; [done..|lia]|done].
Qed.

Lemma quiet_tests ts : Forall (fun t => status_is TFailed t = false) ts -> ts ≫= test_lines false = [].
Proof.
  intros Hf. induction Hf as [|t ts Hx Hf IH]; [done|]. rewrite bind_cons, IH.
  unfold test_lines. unfold status_is in Hx. by destruct (to_status t).
Qed.

(** The report says what the verdict is. A file that did not pass has a
    line of its own under FAIL or TIME whatever the flags, one that passed is
    never reported under anything but PASS, and with [--quiet] not at all. *)
Lemma report_matches_verdict r verbose quiet progress :
  let out := print_file_outcome r verbose quiet progress in
  (forall line ls, out = line :: ls -> passed r = false \/ quiet = false ->
     exists rest, line = progress_prefix progress +:+ label r +:+ " " +:+ df_path r +:+ rest) /\
  (passed r = false \/ quiet = false -> out <> []) /\
  (label r = "PASS" <-> passed r = true) /\
  (passed r = true -> quiet = true -> verbose = false -> out = []).
Proof.
  cbv zeta. split_and!; [| |apply label_passed|].
  - intros line ls. unfold print_file_outcome, label.
    destruct (chunk_error (df_outcome r)) eqn:Ec; [intros [= <- _] _; exists ""; by rewrite append_empty|].
    unfold summary. intros Hout Hp.
    assert (Hc : negb quiet || (0 <? count_status TFailed (df_outcome r)) || bool_decide (df_timeout r = TimedOutFile) = true).
    { destruct Hp as [Hp| ->]; [|done]. apply not_true_iff_false in Hp. rewrite passed_spec in Hp.
      pose proof (count_status_nonneg TFailed (df_outcome r)).
      destruct (Z.ltb_spec 0 (count_status TFailed (df_outcome r))); [by rewrite orb_true_r|].
      destruct (df_timeout r) eqn:E; [|by rewrite orb_true_r]. destruct Hp. split_and!; [done..|lia]. }
    rewrite Hc in Hout. injection Hout as <- _. eexists. reflexivity.
  - intros Hp. unfold print_file_outcome. destruct (chunk_error (df_outcome r)) eqn:Ec; [done|]. unfold summary.
    destruct (negb quiet || _ || _) eqn:Hc; [done|]. exfalso.
    apply orb_false_iff in Hc as [[Hq Hf]%orb_false_iff Ht]. apply negb_false_iff in Hq. apply Z.ltb_ge in Hf.
    destruct Hp as [Hp| ->]; [|done]. apply not_true_iff_false in Hp. apply Hp. apply passed_spec.
    pose proof (count_status_nonneg TFailed (df_outcome r)). apply bool_decide_eq_false in Ht.
    split_and!; [by destruct (df_timeout r)|done|lia].
  - intros (Ht & Hc & Hf)%passed_spec -> ->. unfold print_file_outcome. rewrite Hc. unfold summary. rewrite Hf, Ht. simpl.
    apply quiet_tests. by apply count_status_zero.
Qed.

Lemma report_matches_verdict_witness :
  let r := DispatchedFile "a" InTime (FileOutcome "a" None [TestOutcome "t" TFailed (Some "x") []]) in
  print_file_outcome r false true None <> [] /\ label r <> "PASS".
Proof.
  destruct (report_matches_verdict (DispatchedFile "a" InTime (FileOutcome "a" None [TestOutcome "t" TFailed (Some "x") []])) false true None)
    as (_ & H1 & H2 & _).
  split; [apply H1; by left|]. vm_compute. discriminate.
Defined.

(** * The summary and the exit code *)

Definition file_errored (r : dispatched_file) : bool :=
  bool_decide (is_Some (chunk_error (df_outcome r))) || bool_decide (df_timeout r = TimedOutFile).

Lemma summary_foldl rs t :
  let u := foldl count_file t rs in
  t_files u = t_files t + zlen rs /\
  t_failed u = t_failed t + lsum (fun r => count_status TFailed (df_outcome r)) rs /\
  t_errored u = t_errored t + lsum (fun r => if file_errored r then 1 else 0) rs.
Proof.
  revert t. induction rs as [|r rs IH]; intros t; simpl; [rewrite zlen_nil; lia|].
  destruct (IH (count_file t r)) as (H1 & H2 & H3). unfold count_file, summary in *. cbn [t_files t_failed t_errored] in *.
  rewrite H1, H2, H3, zlen_cons. fold (file_errored r). lia.
Qed.

Lemma lsum_zero {A} (f : A -> Z) l : (forall x, 0 <= f x) -> lsum f l = 0 <-> Forall (fun x => f x = 0) l.
Proof.
  intros Hf. induction l as [|x l IH]; simpl; [done|]. rewrite Forall_cons.
  assert (0 <= lsum f l) by (apply lsum_nonneg; auto). specialize (Hf x).
  split; [intros ?; split; [lia|]; apply IH; lia|]. intros [-> ->%IH]. done.
Qed.

Lemma passed_counts r : passed r = true <-> count_status TFailed (df_outcome r) = 0 /\ (if file_errored r then 1 else 0) = 0.
Proof.
  rewrite passed_spec. unfold file_errored. destruct (chunk_error (df_outcome r)), (df_timeout r); simpl; naive_solver.
Qed.

(** The command succeeds when the summary shows nothing wrong. However the
    results are rendered, the exit code is zero exactly if the summary counts
    no failed test and no errored file and the coverage tool, where it was
    asked for, succeeded; the summary counts every file. *)
Lemma exit_matches_summary streamed fail_fast ds tool :
  zlen ds <= u32_max -> (forall code, tool = Some (ToolCode code) -> - 2 ^ 31 <= code < 2 ^ 31) ->
  let t := summary_counts ds in
  t_files t = zlen ds /\
  (exit_code (run_result_code (failed_count streamed fail_fast ds) tool) = 0 <->
   t_failed t = 0 /\ t_errored t = 0 /\ (tool = None \/ tool = Some (ToolCode 0))).
Proof.
  intros Hlen Hcode. destruct (summary_foldl ds (Tally 0 0 0 0 0)) as (H1 & H2 & H3).
  unfold summary_counts. cbv zeta. split; [exact H1|]. rewrite H2, H3. simpl t_failed. simpl t_errored. rewrite !Z.add_0_l.
  rewrite !lsum_zero by (intros r; try destruct (file_errored r); (apply count_status_nonneg || lia)).
  assert (Hall : Forall (fun d => passed d = true) ds <->
            Forall (fun r => count_status TFailed (df_outcome r) = 0) ds /\ Forall (fun r => (if file_errored r then 1 else 0) = 0) ds).
  { rewrite <- Forall_and. apply Forall_iff. intros r. apply passed_counts. }
  assert (Hass : forall A B C : Prop, A /\ B /\ C <-> (A /\ B) /\ C) by tauto.
  rewrite Hass, <- Hall. by apply exit_zero.
Qed.

Lemma exit_matches_summary_witness :
  let ds := [DispatchedFile "a" TimedOutFile (FileOutcome "a" None [])] in
  t_files (summary_counts ds) = 1 /\ exit_code (run_result_code (failed_count true false ds) None) <> 0.
Proof.
  destruct (exit_matches_summary true false [DispatchedFile "a" TimedOutFile (FileOutcome "a" None [])] None) as [H1 H2];
    [vm_compute; discriminate|done|]. split; [exact H1|]. intros (_ & H & _)%H2. vm_compute in H. discriminate.
Defined.

Example summary_line :
  print_summary [DispatchedFile "a" TimedOutFile (FileOutcome "a" None []);
                 DispatchedFile "b" InTime (FileOutcome "b" None [TestOutcome "t" TPassed None []])] 1234567890 =
  "2 file(s); 1 passed, 0 failed, 0 skipped, 1 file(s) errored; 1.23s".
Proof. vm_compute. reflexivity. Qed.

Example sizes_for_people : human_bytes 1023 = "1023.00B" /\ human_bytes 1536 = "1.50KiB" /\ human_bytes (5 * 1024 ^ 4) = "5.00TiB" /\
  human_bytes (3000 * 1024 ^ 4) = "3000.00TiB".
Proof. vm_compute. done. Qed.

(** * Progress in any order *)

Definition progress_ok (p : progress) : Prop :=
  pg_done p = Z.of_nat (size (pg_given p)) /\
  (forall i idx, pg_given p !! i = Some idx -> 1 <= idx <= pg_done p) /\
  (forall i j idx, pg_given p !! i = Some idx -> pg_given p !! j = Some idx -> i = j) /\
  (forall n, 1 <= n <= pg_done p -> exists i, pg_given p !! i = Some n) /\
  (forall i idx, (i, idx) ∈ pg_printed p -> pg_given p !! i = Some idx) /\
  NoDup (pg_printed p).*1 /\ (pg_position p = 0 \/ 1 <= pg_position p <= pg_done p).

Lemma progress_step_ok l p p' : progress_ok p -> progress_step l p = Some p' -> progress_ok p'.
Proof.
  intros (Hd & Hr & Hinj & Hsur & Hpr & Hnd & Hpos). destruct l as [i|i|i|e]; simpl.
  - destruct (pg_given p !! i) eqn:Ei; [done|]. intros [= <-]. unfold progress_ok; simpl.
    assert (0 <= pg_done p) by lia. split_and!.
    + rewrite map_size_insert_None by done. lia.
    + intros j idx [[-> <-]|[_ Hj%Hr]]%lookup_insert_Some; lia.
    + intros j k idx [[-> <-]|[Hj1 Hj]]%lookup_insert_Some [[-> E]|[Hk1 Hk]]%lookup_insert_Some; try done.
      * apply Hr in Hk. lia.
      * apply Hr in Hj. lia.
      * by apply (Hinj j k idx).
    + intros n Hn. destruct (decide (n = pg_done p + 1)) as [->|Hne]; [exists i; apply lookup_insert_eq|].
      destruct (Hsur n) as [j Hj]; [lia|]. exists j. rewrite lookup_insert_ne; [done|]. congruence.
    + intros j idx Hj%Hpr. rewrite lookup_insert_ne; [done|]. congruence.
    + done.
    + lia.
  - destruct (pg_given p !! i) as [idx|] eqn:Ei; [|done]. simpl. destruct (decide _) as [|Hni]; [done|]. intros [= <-].
    unfold progress_ok; simpl. split_and!; try done.
    + intros j k [Hj|[= -> ->]%list_elem_of_singleton]%elem_of_app; [by apply Hpr|done].
    + rewrite fmap_app. apply NoDup_app. split_and!; [done| |apply NoDup_singleton].
      intros j Hj ->%list_elem_of_singleton. done.
  - destruct (decide _) as [|]; [|done]. destruct (pg_given p !! i) as [idx|] eqn:Ei; [|done]. intros [= <-].
    unfold progress_ok; simpl. split_and!; try done. right. by apply (Hr i).
  - intros [= <-]. unfold progress_ok. destruct e; simpl; done.
Qed.

(** Every file gets a number of its own. Whatever order the runners'
    threads finish, print and move the bar in, the numbers given are one to the
    count of finished files, each to one file; a line printed carries its
    file's number, no file is printed twice, and the bar never passes the
    count. *)
Lemma progress_numbers_exact ls p : run_labels progress_step ls progress_start = Some p ->
  pg_done p = Z.of_nat (size (pg_given p)) /\
  (forall n, 1 <= n <= pg_done p <-> exists i, pg_given p !! i = Some n) /\
  (forall i j n, pg_given p !! i = Some n -> pg_given p !! j = Some n -> i = j) /\
  NoDup (pg_printed p).*1 /\ NoDup (pg_printed p).*2 /\ 0 <= pg_position p <= pg_done p.
Proof.
  intros Hrun.
  assert (Hok : progress_ok p).
  { apply (run_labels_invariant progress_step (fun _ => True) progress_ok ls progress_start); [|by apply Forall_true| |done].
    - intros l s s' _. apply progress_step_ok.
    - unfold progress_ok. simpl. split_and!; try done; try (intros ? ? []%elem_of_nil); try (by left); try constructor.
      all: intros; lia || set_solver. }
  destruct Hok as (Hd & Hr & Hinj & Hsur & Hpr & Hnd & Hpos). split_and!; try done; [|..|lia|lia].
  - intros n. split; [apply Hsur|]. by intros [i Hi%Hr].
  - clear Hd Hr Hsur Hpos Hrun. induction (pg_printed p) as [|[i n] l IH]; [constructor|].
    cbn in *. apply NoDup_cons in Hnd as [Hi Hnd]. apply NoDup_cons. split.
    + intros ([j m] & -> & Hj)%list_elem_of_fmap. apply Hi. apply list_elem_of_fmap. exists (j, m). split; [|done].
      simpl. apply (Hinj i j m); apply Hpr; [left|by right].
    + apply IH; [|done]. intros j m Hj. apply Hpr. by right.
Qed.

(** Two files that finish together: the second one's line may come first, and
    the bar may end behind. *)
Definition demo_labels : list progress_label :=
  [CountFile 0; CountFile 1; PrintFile 1; MoveBar 1; PrintFile 0; MoveBar 0; Event VmShutdown; Event TestPassed].

Lemma progress_numbers_exact_witness :
  exists p, run_labels progress_step demo_labels progress_start = Some p /\ pg_done p = 2 /\ NoDup (pg_printed p).*2.
Proof.
  destruct (run_labels progress_step demo_labels progress_start) as [p|] eqn:E; [|discriminate E].
  exists p. destruct (progress_numbers_exact demo_labels p E) as (_ & _ & _ & _ & H & _). split_and!; [done| |exact H].
  vm_compute in E. injection E as <-. reflexivity.
Defined.

Example bar_moves_back :
  (fun p => (pg_printed p, pg_position p, refresh_message (pg_vms p) (pg_tests p))) <$> run_labels progress_step demo_labels progress_start =
  Some ([(1%nat, 2); (0%nat, 1)], 1, "0 vms · 1 tests").
Proof. vm_compute. reflexivity. Qed.

(** * The event log under [--watch] *)

(** The log is meant to start afresh with every run of a watch, and no run that
    is made ever truncates it. *)
Lemma watch_never_truncates a p : sinks_of_run a <> OneSink (SaveEvents p true) /\
  (forall ss, sinks_of_run a = ManySinks ss -> SaveEvents p true ∉ ss).
Proof.
  assert (Hclear : forall b, watch b = false -> build_event_sink b <> OneSink (SaveEvents p true) /\
            (forall ss, build_event_sink b = ManySinks ss -> SaveEvents p true ∉ ss)).
  { intros b Hb. unfold build_event_sink. rewrite Hb.
    destruct (save_events b), (events_stdout b), (coverage b), (events_socket b); simpl;
      (split; [congruence|intros ss; first [intros [= <-]|done]; set_solver]). }
  unfold sinks_of_run. destruct (watch a) eqn:Ew; by apply Hclear.
Qed.
