(* ===== verification/Events.v ===== *)
(** The event stream of a run: the records of
    [src/provium-protocol/src/events.rs] and the sinks of
    [src/provium-host/src/scheduler/events.rs], from the log shared under a file
    lock to the socket that fans frames out. *)
From Stdlib Require Import SpecFloat.
From S2P Require Import Prelude Frame Pool Dispatch.

Open Scope list_scope.
Open Scope Z_scope.

(** * Events *)

#[warnings="-register-all"]
Inductive meta_value :=
| MNull
| MBool (b : bool)
| MInt (i : Z)
| MFloat (f : spec_float)
| MStr (s : string)
| MBytes (b : bytes)
| MArray (a : list meta_value)
| MMap (m : gmap string meta_value).

Definition meta_map : Type := gmap string meta_value.

Record test_result := TestResult { tr_path : string; tr_name : string; tr_duration_ns : Z; tr_meta : meta_map }.

Inductive event :=
| FileDiscovered (path : string) (fixture_refs : list string) (declared_claim : option resource_amount)
| FileDispatched (path : string) (reservation : resource_amount)
| FileBlocked (path : string) (waiting_for : resource_amount) (reason : string)
| FileCompleted (path : string) (status : file_status) (duration_ns : Z)
| TestStarted (path name : string) (meta : meta_map)
| TestSkipped (path name reason : string) (meta : meta_map)
| TestPassed (t : test_result)
| TestFailed (t : test_result) (reason console_excerpt : string)
| VmSpawned (file vm_name profile : string) (memory_bytes cid : Z)
| VmShutdown (file vm_name : string) (duration_ns : Z)
| PoolState (used available : resource_amount)
| ClaimAcquired (path : string) (amount : resource_amount)
| ClaimReleased (path : string) (amount : resource_amount)
| FixtureBuildStarted (path : string)
| FixtureBuildDone (path : string) (duration_ns snapshot_bytes : Z)
| FixtureBuildWaiting (path held_by_file : string)
| FixtureCacheHit (path : string).

Record event_frame := EventFrame { ts : Z; ef_event : event }.

(** [now_ns]: the clock as nanoseconds since the epoch, if it is not before it. *)
Definition i64_max : Z := 2 ^ 63 - 1.
Definition now_ns (since_epoch : option Z) : Z := match since_epoch with Some ns => Z.min i64_max ns | None => 0 end.

(** * The log: [LockedFile] *)

(** What one [write] of the loop returns; a write of no bytes ends it. *)
Inductive write_call := WroteSome (n : nat) | WriteInterrupted | WriteStops.

(** A frame under way, by the process that holds the lock on the file: what of
    it is out, and whether the loop has ended. *)
Record writing := Writing { wr_who : nat; wr_frame : bytes; wr_cursor : nat; wr_stopped : bool }.

(** A frame that was written, as far as it got. *)
Record written := Written { wn_who : nat; wn_frame : bytes; wn_out : nat }.

Record log_file := LogFile { lf_content : bytes; lf_holder : option writing; lf_history : list written }.

Definition log_empty : log_file := LogFile [] None [].

(** Processes that append to one file; [flock] lets one in at a time, and a
    process whose [flock] fails writes nothing. *)
Inductive log_label := Lock (who : nat) (frame : bytes) | LockFails (who : nat) | Write (c : write_call) | Unlock.

Definition wr_done (w : writing) : bool := wr_stopped w || (length (wr_frame w) <=? wr_cursor w)%nat.

Definition log_step (l : log_label) (f : log_file) : option log_file :=
  match l, lf_holder f with
  | Lock who frame, None => Some (LogFile (lf_content f) (Some (Writing who frame 0 false)) (lf_history f))
  | LockFails _, _ => Some f
  | Write c, Some w =>
      if wr_done w then None
      else match c with
           | WroteSome n =>
               if (0 <? n)%nat && (wr_cursor w + n <=? length (wr_frame w))%nat
               then Some (LogFile (lf_content f ++ take n (drop (wr_cursor w) (wr_frame w)))
                            (Some (Writing (wr_who w) (wr_frame w) (wr_cursor w + n) false)) (lf_history f))
               else None
           | WriteInterrupted => Some f
           | WriteStops => Some (LogFile (lf_content f) (Some (Writing (wr_who w) (wr_frame w) (wr_cursor w) true)) (lf_history f))
           end
  | Unlock, Some w =>
      if wr_done w
      then Some (LogFile (lf_content f) None (lf_history f ++ [Written (wr_who w) (wr_frame w) (wr_cursor w)]))
      else None
  | _, _ => None
  end.

(** [write_all] returns success to the process exactly then. *)
Definition whole (w : written) : bool := (length (wn_frame w) <=? wn_out w)%nat.

Definition out_of (w : written) : bytes := take (wn_out w) (wn_frame w).
Definition in_progress (h : option writing) : bytes := match h with Some w => take (wr_cursor w) (wr_frame w) | None => [] end.

Definition log_ok (f : log_file) : Prop :=
  lf_content f = concat (out_of <$> lf_history f) ++ in_progress (lf_holder f) /\
  Forall (fun w => (wn_out w <= length (wn_frame w))%nat) (lf_history f) /\
  (forall w, lf_holder f = Some w -> (wr_cursor w <= length (wr_frame w))%nat).

Lemma log_step_ok l f f' : log_ok f -> log_step l f = Some f' -> log_ok f'.
Proof.
  intros (Hc & Hh & Hw). unfold log_step, log_ok.
  destruct l as [who frame|who|c|], (lf_holder f) as [w|] eqn:Eh; try done; try (by intros [= <-]; simpl; rewrite ?Eh).
  - intros [= <-]. simpl. split_and!; [by rewrite Hc|done|]. intros w [= <-]. simpl. lia.
  - destruct (wr_done w) eqn:Ed; [done|]. destruct c as [n| |].
    + destruct ((0 <? n)%nat && _) eqn:En; [|done]. intros [= <-]. simpl. apply andb_true_iff in En as [_ Hn%Nat.leb_le].
      split_and!; [|done|]; [|by intros w' [= <-]]. rewrite Hc. simpl. by rewrite <- (assoc_L (++)), take_take_drop.
    + intros [= <-]. by rewrite Eh.
    + intros [= <-]. simpl. split_and!; [done..|]. intros w' [= <-]. simpl. by apply Hw.
  - destruct (wr_done w) eqn:Ed; [|done]. intros [= <-]. simpl. split_and!.
    + rewrite Hc, fmap_app, concat_app. simpl. unfold out_of. simpl. by rewrite !(right_id_L [] (++)).
    + apply Forall_app. split; [done|]. constructor; [|constructor]. by apply Hw.
    + done.
Qed.

Lemma log_runs_ok ls f : run_labels log_step ls log_empty = Some f -> log_ok f.
Proof.
  apply (run_labels_invariant log_step (fun _ => True)); [|by apply Forall_true|].
  - intros l s1 s2 _. apply log_step_ok.
  - unfold log_ok, log_empty. simpl. split_and!; [done|constructor|done].
Qed.

(** Between writes the log is the frames one behind the other, in the order
    the lock was taken; only a write that failed leaves less than its frame. *)
Lemma log_never_interleaves ls f : run_labels log_step ls log_empty = Some f -> lf_holder f = None ->
  Forall (fun w => whole w = true) (lf_history f) -> lf_content f = concat (wn_frame <$> lf_history f).
Proof.
  intros (Hc & Hh & _)%log_runs_ok Hn Hwhole. rewrite Hc, Hn. simpl. rewrite (right_id_L [] (++)). f_equal.
  clear Hc Hn. induction Hwhole as [|w ws Hw Hws IH]; [done|]. apply Forall_cons in Hh as [Hl Hh].
  rewrite !fmap_cons, IH by done. f_equal. unfold out_of. apply take_ge. by apply Nat.leb_le.
Qed.

(** A write that fails half way, on a full disk say, leaves its half in the
    log, and the frames after it are appended to that. *)
Example failed_write_tears_log :
  (fun f => (lf_content f, whole <$> lf_history f)) <$>
    run_labels log_step [Lock 0 [x01; x02]; Write (WroteSome 1); Write WriteStops; Unlock; Lock 1 [x03]; Write (WroteSome 1); Unlock] log_empty =
  Some ([x01; x03], [false; true]).
Proof. vm_compute. reflexivity. Qed.

(** * The socket: [UnixSocketSink] *)

Section fanout.
(** The message pack encoding of a frame. *)
Context (encode : event_frame -> option bytes).

(** A client is the write half of its connection, with how much it takes
    before a write fails or times out. *)
Record fanout := Fanout { fo_clients : list (nat * writer); fo_dropped : list (nat * writer) }.

Definition send (m : event_frame) (c : nat * writer) : (nat * writer) * bool :=
  let (w, r) := write_frame encode c.2 m DEFAULT_MAX_FRAME_BYTES in ((c.1, w), is_ok r).

(** [retain_mut]: clients keep their order, and those that failed are closed. *)
Definition emit_to_clients (m : event_frame) (f : fanout) : fanout :=
  let sent := send m <$> fo_clients f in
  Fanout (filter (fun r => r.2 = true) sent).*1 (fo_dropped f ++ (filter (fun r => r.2 = false) sent).*1).

(** A connection is published once its write timeout is installed. *)
Inductive fanout_label := Accepted (id : nat) (w : writer) (timeout_set : bool) | Emitted (m : event_frame).

Definition fanout_step (l : fanout_label) (f : fanout) : fanout :=
  match l with
  | Accepted id w timeout_set => if timeout_set then Fanout (fo_clients f ++ [(id, w)]) (fo_dropped f) else f
  | Emitted m => emit_to_clients m f
  end.

Fixpoint fanout_run (ls : list fanout_label) (f : fanout) : fanout :=
  match ls with [] => f | l :: ls => fanout_run ls (fanout_step l f) end.

(** The frames of a list of events. *)
Definition frames (ms : list event_frame) : bytes := concat ((fun m => match encode m with Some p => frame_of p | None => [] end) <$> ms).

Definition emitted (ls : list fanout_label) : list event_frame :=
  omap (fun l => match l with Emitted m => Some m | _ => None end) ls.

Lemma frames_app a b : frames (a ++ b) = frames a ++ frames b.
Proof. unfold frames. by rewrite fmap_app, concat_app. Qed.

Lemma send_spec m c c' b : send m c = (c', b) ->
  c'.1 = c.1 /\
  if b then out c'.2 = out c.2 ++ frames [m] else exists k, out c'.2 = out c.2 ++ take k (frames [m]).
Proof.
  unfold send. destruct (write_frame encode c.2 m DEFAULT_MAX_FRAME_BYTES) as [w r] eqn:E. intros [= <- <-].
  split; [done|]. unfold frames. simpl. rewrite (right_id_L [] (++)).
  apply write_frame_outcome in E. destruct r as [u|[k| |got exp|len mx| |]]; simpl in E |- *; try done.
  - destruct E as (p & -> & _ & ->). done.
  - destruct E as (p & sent & -> & -> & q & ->). exists (length sent). by rewrite take_app_length.
  - destruct E as (-> & _). exists 0%nat. by rewrite take_0, (right_id_L [] (++)).
  - destruct E as (-> & _). exists 0%nat. by rewrite take_0, (right_id_L [] (++)).
Qed.

(** What a client has received, against the events since it was published:
    all of them while it is connected, and a part of them, cut off somewhere,
    once it was dropped. *)
Definition received (id : nat) (got : bytes) (joined : bytes) (ms : list event_frame) (connected : bool) : Prop :=
  if connected then got = joined ++ frames ms else exists k, got = joined ++ take k (frames ms).

Lemma in_sent_connected m f c : c ∈ (filter (fun r : (nat * writer) * bool => r.2 = true) (send m <$> fo_clients f)).*1 ->
  exists c0, c0 ∈ fo_clients f /\ send m c0 = (c, true).
Proof.
  intros ([c1 b] & -> & [Hb (c0 & Hc & Hin)%list_elem_of_fmap]%list_elem_of_filter)%list_elem_of_fmap.
  simpl in Hb. subst b. by exists c0.
Qed.
Lemma in_sent_dropped m f c : c ∈ (filter (fun r : (nat * writer) * bool => r.2 = false) (send m <$> fo_clients f)).*1 ->
  exists c0, c0 ∈ fo_clients f /\ send m c0 = (c, false).
Proof.
  intros ([c1 b] & -> & [Hb (c0 & Hc & Hin)%list_elem_of_fmap]%list_elem_of_filter)%list_elem_of_fmap.
  simpl in Hb. subst b. by exists c0.
Qed.

Lemma fanout_received ls f0 :
  (forall c, c ∈ fo_clients (fanout_run ls f0) ->
     (exists c0, c0 ∈ fo_clients f0 /\ c0.1 = c.1 /\ out c.2 = out c0.2 ++ frames (emitted ls)) \/
     exists before w after, ls = before ++ Accepted c.1 w true :: after /\ out c.2 = out w ++ frames (emitted after)) /\
  (forall c, c ∈ fo_dropped (fanout_run ls f0) ->
     c ∈ fo_dropped f0 \/
     (exists c0 k, c0 ∈ fo_clients f0 /\ c0.1 = c.1 /\ out c.2 = out c0.2 ++ take k (frames (emitted ls))) \/
     exists before w after k, ls = before ++ Accepted c.1 w true :: after /\ out c.2 = out w ++ take k (frames (emitted after))).
Proof.
  revert f0. induction ls as [|l ls IH]; intros f0.
  { split; intros c Hc; left; [|done]. exists c. unfold frames. simpl. by rewrite (right_id_L [] (++)). }
  destruct (IH (fanout_step l f0)) as [IH1 IH2]. split.
  - intros c Hc. destruct (IH1 c Hc) as [(c0 & Hin & Hid & Hout)|(b & w & a & -> & Hout)]; [|right; by exists (l :: b), w, a].
    destruct l as [id w ts|m]; simpl in Hin.
    + destruct ts; [|left; by exists c0]. simpl in Hin. apply elem_of_app in Hin as [Hin|Hin]; [left; by exists c0|].
      apply list_elem_of_singleton in Hin as ->. simpl in *. subst id. right. by exists [], w, ls.
    + apply in_sent_connected in Hin as (c1 & Hin & Hs). apply send_spec in Hs as [Hid' Hs].
      left. exists c1. split_and!; [done|congruence|]. change (emitted (Emitted m :: ls)) with ([m] ++ emitted ls).
      by rewrite Hout, Hs, frames_app, (assoc_L (++)).
  - intros c Hc. destruct (IH2 c Hc) as [Hin|[(c0 & k & Hin & Hid & Hout)|(b & w & a & k & -> & Hout)]];
      [| |right; right; by exists (l :: b), w, a, k].
    + destruct l as [id w ts|m]; simpl in Hin; [left; by destruct ts|].
      apply elem_of_app in Hin as [Hin|Hin]; [by left|]. apply in_sent_dropped in Hin as (c1 & Hin & Hs).
      apply send_spec in Hs as [Hid (k & Hs)]. right. left. exists c1, (k `min` length (frames [m]))%nat.
      split_and!; [done..|]. change (emitted (Emitted m :: ls)) with ([m] ++ emitted ls). rewrite Hs, frames_app. f_equal.
      rewrite take_app_le by lia. destruct (Nat.min_spec k (length (frames [m]))) as [[? ->]|[? ->]]; [done|]. by rewrite !take_ge by lia.
    + destruct l as [id w ts|m]; simpl in Hin.
      * destruct ts; [|right; left; by exists c0, k]. simpl in Hin. apply elem_of_app in Hin as [Hin|Hin]; [right; left; by exists c0, k|].
        apply list_elem_of_singleton in Hin as ->. simpl in *. subst id. right. right. by exists [], w, ls, k.
      * apply in_sent_connected in Hin as (c1 & Hin & Hs). apply send_spec in Hs as [Hid' Hs].
        right. left. exists c1, (length (frames [m]) + k)%nat. split_and!; [done|congruence|].
        change (emitted (Emitted m :: ls)) with ([m] ++ emitted ls). by rewrite Hout, Hs, frames_app, <- (assoc_L (++)), take_app_add.
Qed.
End fanout.

(** * Socket paths *)

(** What the file system has under a path is known by its device and inode.
    A [bind] that succeeds makes a new inode. *)
Record sock_world := SockWorld { sw_paths : gmap string Z; sw_next : Z }.

Record socket_sink := SocketSink { ss_path : string; ss_inode : Z; ss_owners : nat }.

(** [UnixSocketSink::bind]: what is there is removed, the listener bound, and
    what it made recorded. *)
Definition bind_socket (path : string) (w : sock_world) : sock_world * socket_sink :=
  (SockWorld (<[path := sw_next w]> (sw_paths w)) (sw_next w + 1), SocketSink path (sw_next w) 1).

Definition clone_sink (s : socket_sink) : socket_sink := SocketSink (ss_path s) (ss_inode s) (S (ss_owners s)).

(** Dropping one owner; the last one stops the listener and takes the path
    away, if it is still its own. *)
Definition drop_sink (s : socket_sink) (w : sock_world) : sock_world * option socket_sink :=
  match ss_owners s with
  | S (S n) => (w, Some (SocketSink (ss_path s) (ss_inode s) (S n)))
  | _ => (if decide (sw_paths w !! ss_path s = Some (ss_inode s))
          then SockWorld (delete (ss_path s) (sw_paths w)) (sw_next w) else w, None)
  end.

(** The cache of [--events-socket]: one sink per canonical path. [sinks] are
    those alive, by inode. *)
Record sock_state := SockState { sk_world : sock_world; sk_sinks : gmap Z socket_sink; sk_cache : gmap string Z }.

Inductive sock_label := Bind (path : string) | Clone (inode : Z) | Drop (inode : Z) | Cached (canonical : string).

Definition add_sink (s : socket_sink) (w : sock_world) (cache : gmap string Z) (st : sock_state) : sock_state :=
  SockState w (<[ss_inode s := s]> (sk_sinks st)) cache.

Definition sock_step (l : sock_label) (st : sock_state) : option sock_state :=
  match l with
  | Bind path => let (w, s) := bind_socket path (sk_world st) in Some (add_sink s w (sk_cache st) st)
  | Clone i => s ← sk_sinks st !! i; Some (SockState (sk_world st) (<[i := clone_sink s]> (sk_sinks st)) (sk_cache st))
  | Drop i =>
      s ← sk_sinks st !! i;
      let (w, s') := drop_sink s (sk_world st) in
      Some (SockState w (match s' with Some s' => <[i := s']> (sk_sinks st) | None => delete i (sk_sinks st) end) (sk_cache st))
  | Cached canonical =>
      match i ← sk_cache st !! canonical; s ← sk_sinks st !! i; Some (i, s) with
      | Some (i, s) => Some (SockState (sk_world st) (<[i := clone_sink s]> (sk_sinks st)) (sk_cache st))
      | None =>
          let (w, s) := bind_socket canonical (sk_world st) in
          Some (add_sink (clone_sink s) w (<[canonical := ss_inode s]> (sk_cache st)) st)
      end
  end.

Definition sock_start : sock_state := SockState (SockWorld ∅ 0) ∅ ∅.

Definition sock_ok (st : sock_state) : Prop :=
  (forall i s, sk_sinks st !! i = Some s -> ss_inode s = i /\ i < sw_next (sk_world st) /\ (1 <= ss_owners s)%nat) /\
  (forall p i, sw_paths (sk_world st) !! p = Some i ->
     i < sw_next (sk_world st) /\ exists s, sk_sinks st !! i = Some s /\ ss_path s = p).

Lemma add_sink_ok path n cache st : sock_ok st -> (1 <= n)%nat ->
  sock_ok (SockState (SockWorld (<[path := sw_next (sk_world st)]> (sw_paths (sk_world st))) (sw_next (sk_world st) + 1))
             (<[sw_next (sk_world st) := SocketSink path (sw_next (sk_world st)) n]> (sk_sinks st)) cache).
Proof.
  intros [H1 H2] Hn. split; simpl.
  - intros i s [[<- <-]|[Hne Hi]]%lookup_insert_Some; [simpl; split_and!; (done || lia)|].
    apply H1 in Hi as (? & ? & ?). split_and!; (done || lia).
  - intros p i [[<- <-]|[Hne Hi]]%lookup_insert_Some.
    + split; [lia|]. eexists. by rewrite lookup_insert_eq.
    + apply H2 in Hi as (Hlt & s & Hs & Hp). split; [lia|]. exists s. rewrite lookup_insert_ne by lia. done.
Qed.

Lemma sock_step_ok l st st' : sock_ok st -> sock_step l st = Some st' -> sock_ok st'.
Proof.
  intros Hok. assert (Hclone : forall i s, sk_sinks st !! i = Some s ->
    sock_ok (SockState (sk_world st) (<[i := clone_sink s]> (sk_sinks st)) (sk_cache st))).
  { destruct Hok as [H1 H2]. intros i s Hi. split; simpl.
    - intros j s' [[<- <-]|[Hne Hj]]%lookup_insert_Some; [|by apply H1]. apply H1 in Hi as (? & ? & ?). simpl. split_and!; (done || lia).
    - intros p j (Hlt & s' & Hs & Hp)%H2. split; [done|]. destruct (decide (i = j)) as [<-|Hne].
      + eexists. rewrite lookup_insert_eq. split; [done|]. simpl. congruence.
      + exists s'. by rewrite lookup_insert_ne. }
  destruct l as [path|i|i|canonical]; simpl.
  - intros [= <-]. apply add_sink_ok; [done|lia].
  - destruct (sk_sinks st !! i) as [s|] eqn:Ei; [|done]. intros [= <-]. by apply Hclone.
  - destruct (sk_sinks st !! i) as [s|] eqn:Ei; [|done]. simpl. destruct Hok as [H1 H2].
    pose proof (H1 i s Ei) as (Hino & Hlt & Hpos). unfold drop_sink.
    destruct (ss_owners s) as [|[|n]] eqn:En; [lia| |].
    + intros [= <-]. split; simpl.
      * intros j s' [Hne Hj]%lookup_delete_Some. case_decide; simpl; by apply H1.
      * intros p j Hp. assert (Hpj : sw_paths (sk_world st) !! p = Some j /\ j <> i).
        { case_decide as Hd; simpl in Hp.
          - apply lookup_delete_Some in Hp as [Hne Hp]. split; [done|]. intros ->.
            apply H2 in Hp as (_ & s' & Hs' & <-). congruence.
          - split; [done|]. intros ->. pose proof (H2 p i Hp) as (_ & s' & Hs' & Hps). apply Hd. congruence. }
        destruct Hpj as [(Hlj & s' & Hs' & Hps)%H2 Hne]. split; [by case_decide|]. exists s'. by rewrite lookup_delete_ne.
    + intros [= <-]. split; simpl.
      * intros j s' [[<- <-]|[Hne Hj]]%lookup_insert_Some; [simpl; split_and!; (done || lia)|by apply H1].
      * intros p j (Hlj & s' & Hs' & Hps)%H2. split; [done|]. destruct (decide (i = j)) as [<-|Hne].
        -- eexists. rewrite lookup_insert_eq. split; [done|]. simpl. congruence.
        -- exists s'. by rewrite lookup_insert_ne.
  - destruct (i ← sk_cache st !! canonical; s ← sk_sinks st !! i; Some (i, s)) as [[i s]|] eqn:E.
    + intros [= <-]. apply bind_Some in E as (j & _ & E). apply bind_Some in E as (s' & Hs & [= -> ->]). by apply Hclone.
    + intros [= <-]. apply add_sink_ok; [done|lia].
Qed.

(** However sinks are bound, shared and dropped, whatever stands under a path
    belongs to a sink that is alive and was bound there: a sink never takes
    another's socket away, and the last owner takes its own. *)
Lemma sockets_owned ls st : run_labels sock_step ls sock_start = Some st ->
  forall p i, sw_paths (sk_world st) !! p = Some i -> exists s, sk_sinks st !! i = Some s /\ ss_path s = p.
Proof.
  intros Hrun. assert (Hok : sock_ok st).
  { revert Hrun. apply (run_labels_invariant sock_step (fun _ => True)); [|by apply Forall_true|].
    - intros l s1 s2 _. apply sock_step_ok.
    - split; simpl; intros ? ? Hx; by rewrite lookup_empty in Hx. }
  intros p i (_ & Hs)%(proj2 Hok). done.
Qed.

Lemma drop_keeps_others s w p i : sw_paths w !! p = Some i -> i <> ss_inode s -> sw_paths (drop_sink s w).1 !! p = Some i.
Proof.
  intros Hp Hne. unfold drop_sink. destruct (ss_owners s) as [|[|n]]; simpl; try done; case_decide as Hd; simpl; try done;
    (rewrite lookup_delete_ne; [done|]; intros <-; congruence).
Qed.

(** A replacement keeps its socket when the listener before it is dropped. *)
Example replacement_survives :
  (fun st => (sw_paths (sk_world st) !! "s", size (sk_sinks st))) <$>
    run_labels sock_step [Bind "s"; Bind "s"; Drop 0] sock_start = Some (Some 1, 1%nat) /\
  (fun st => sw_paths (sk_world st) !! "s") <$> run_labels sock_step [Bind "s"; Bind "s"; Drop 0; Drop 1] sock_start = Some None /\
  (fun st => size (sk_sinks st)) <$> run_labels sock_step [Cached "s"; Cached "s"; Drop 0] sock_start = Some 1%nat.
Proof. vm_compute. done. Qed.
