(* ===== verification/TestFramework.v ===== *)
(** What a test file's Lua code sees: the registry, the context [t] of a test,
    [wait_until] and the order in which resources are closed
    ([src/provium-host/src/lua/test_framework.rs]). *)
From Stdlib Require Import SpecFloat.
From stdpp Require Import sorting.
From S2P Require Import Prelude Text Numbers Dispatch.

Open Scope string_scope.
Open Scope list_scope.
Open Scope Z_scope.

(** * Registration *)

Section registry.
Context {meta fn : Type}.

Record registered := Registered { r_name : string; r_meta : meta; r_fn : fn }.

(** What follows the name in a call of [test]; [no_meta] is the empty table. *)
Inductive test_args := OnlyFn (f : fn) | MetaFn (m : meta) (f : fn) | OtherArgs.

(** The registry and the reason of [todo]. *)
Record suite := Suite { sregistered : list registered; file_skipped : option string }.

Definition suite_new : suite := Suite [] None.

Definition test (no_meta : meta) (name : string) (args : test_args) (s : suite) : result suite string :=
  if existsb (fun r => bool_decide (r_name r = name)) (sregistered s)
  then Err ("test: duplicate name `" +:+ name +:+ "` in this file")
  else
    match args with
    | OnlyFn f => Ok (Suite (sregistered s ++ [Registered name no_meta f]) (file_skipped s))
    | MetaFn m f => Ok (Suite (sregistered s ++ [Registered name m f]) (file_skipped s))
    | OtherArgs => Err "test(name, [meta,] fn): bad arguments"
    end.

Definition todo (reason : option string) (s : suite) : suite := Suite (sregistered s) (Some (default "todo" reason)).

(** A refused call changes nothing, and an accepted one appends under a name
    that was free: names stay distinct. *)
Lemma test_names no_meta name args s s' : test no_meta name args s = Ok s' ->
  NoDup (r_name <$> sregistered s) ->
  (r_name <$> sregistered s') = (r_name <$> sregistered s) ++ [name] /\ NoDup (r_name <$> sregistered s').
Proof.
  unfold test. destruct (existsb _ _) eqn:E; [done|]. intros Hs Hd.
  assert (Hfree : name ∉ r_name <$> sregistered s).
  { intros (r & -> & Hr)%list_elem_of_fmap. apply not_true_iff_false in E. apply E, existsb_exists.
    exists r. split; [by apply list_elem_of_In|by apply bool_decide_eq_true_2]. }
  assert (Hnames : (r_name <$> sregistered s') = (r_name <$> sregistered s) ++ [name]).
  { destruct args; try done; injection Hs as <-; simpl; by rewrite fmap_app. }
  split; [done|]. rewrite Hnames. apply NoDup_app. split_and!; [done| |apply NoDup_singleton].
  by intros x Hx ->%list_elem_of_singleton.
Qed.
End registry.
Arguments registered : clear implicits.
Arguments suite : clear implicits.

(** * The context of a test *)

Definition SKIP_SENTINEL : string := "__PROVIUM_SKIP__".

Record t_ctx := TCtx {
  t_name : string;
  t_outcome : string;
  skip_reason : option string;
  t_log : list string;
  t_failed : bool;
  failed_msg : option string }.

Definition make_t (name : string) : t_ctx := TCtx name "pass" None [] false None.

(** How a function of a test ends. A panic of the host, whose payload is text or
    something else, is a Lua error of its own kind: the state is made with
    [Lua::new], whose [catch_rust_panics] leaves Lua's [pcall] as it is, so
    [pcall] catches it like any error and only a panic nobody caught comes out. *)
Inductive ended := Returned | Raised (message : string) | Panicking (payload : option string).

(** What a test does with its context, argument values and the position of the
    calling line included. [Raise] is any other error, [HostPanic] a host function
    that panics. *)
#[warnings="-register-all"]
Inductive call :=
| Assert (at_line : string) (cond : bool) (msg : option string)
| AssertEq (at_line : string) (same : bool) (shown_a shown_b : string) (msg : option string)
| AssertNeq (at_line : string) (same : bool) (shown_a shown_b : string) (msg : option string)
| AssertContains (at_line : string) (haystack needle : option string) (msg : option string)
| AssertRaises (at_line : string) (f : list call) (msg : option string)
| FailCall (at_line : string) (msg : option string)
| SkipCall (at_line : string) (reason : option string)
| LogCall (shown : string)
| Pcall (f : list call)
| Raise (message : string)
| HostPanic (payload : option string).

Definition mark_fail (msg : string) (t : t_ctx) : t_ctx :=
  if t_failed t then t else TCtx (t_name t) (t_outcome t) (skip_reason t) (t_log t) true (Some msg).

(** [error(m, 2)] after the mark. *)
Definition fail_with (at_line m : string) (t : t_ctx) : t_ctx * ended := (mark_fail m t, Raised (at_line +:+ m)).

Definition run_all (run : call -> t_ctx -> t_ctx * ended) : list call -> t_ctx -> t_ctx * ended :=
  fix go cs t :=
    match cs with
    | [] => (t, Returned)
    | c :: cs => match run c t with (t, Returned) => go cs t | r => r end
    end.

Fixpoint run_call (c : call) (t : t_ctx) : t_ctx * ended :=
  match c with
  | Assert at_line cond msg => if cond then (t, Returned) else fail_with at_line (default "assertion failed" msg) t
  | AssertEq at_line same a b msg =>
      if same then (t, Returned) else fail_with at_line (default "assert_eq failed" msg +:+ ": " +:+ a +:+ " ~= " +:+ b) t
  | AssertNeq at_line same a b msg =>
      if same then fail_with at_line (default "assert_neq failed" msg +:+ ": " +:+ a +:+ " == " +:+ b) t else (t, Returned)
  | AssertContains at_line haystack needle msg =>
      match haystack, needle with
      | Some h, Some n =>
          match find_bytes (bytes_of n) (bytes_of h) with
          | Some _ => (t, Returned)
          | None => fail_with at_line (default "assert_contains failed" msg +:+ ": " +:+ n +:+ " not found in: " +:+ h) t
          end
      | _, _ => fail_with at_line "assert_contains: both arguments must be strings (slice 2 limit)" t
      end
  | AssertRaises at_line f msg =>
      match run_all run_call f t with
      | (t', Returned) => fail_with at_line (default "assert_raises" msg +:+ ": expected to raise") t'
      | (t', Raised _) | (t', Panicking _) =>
          (TCtx (t_name t') (t_outcome t') (skip_reason t') (t_log t') (t_failed t) (failed_msg t), Returned)
      end
  | FailCall at_line msg => fail_with at_line (default "explicit failure (t:fail)" msg) t
  | SkipCall at_line reason =>
      (TCtx (t_name t) "skip" reason (t_log t) (t_failed t) (failed_msg t), Raised (at_line +:+ SKIP_SENTINEL))
  | LogCall shown => (TCtx (t_name t) (t_outcome t) (skip_reason t) (t_log t ++ [shown]) (t_failed t) (failed_msg t), Returned)
  | Pcall f => ((run_all run_call f t).1, Returned)
  | Raise message => (t, Raised message)
  | HostPanic payload => (t, Panicking payload)
  end.

Definition run_calls : list call -> t_ctx -> t_ctx * ended := run_all run_call.

(** * What a context keeps *)

(** Nothing a test does takes back a failure, a skip or a line of its log. *)
Record keeps_marks (t t' : t_ctx) : Prop := {
  km_name : t_name t' = t_name t;
  km_skip : t_outcome t = "skip" -> t_outcome t' = "skip";
  km_failed : t_failed t = true -> t_failed t' = true /\ failed_msg t' = failed_msg t;
  km_log : t_log t `prefix_of` t_log t';
}.

#[export] Instance keeps_marks_refl : Reflexive keeps_marks.
Proof. by intros t. Qed.

#[export] Instance keeps_marks_trans : Transitive keeps_marks.
Proof.
  intros t1 t2 t3 [N1 S1 F1 L1] [N2 S2 F2 L2]. split; [by rewrite N2| by auto| |by etransitivity].
  intros H. destruct (F1 H) as [H2 M1]. destruct (F2 H2) as [H3 M2]. by rewrite M2.
Qed.

Lemma mark_fail_keeps m t : keeps_marks t (mark_fail m t) /\ t_failed (mark_fail m t) = true /\ t_outcome (mark_fail m t) = t_outcome t.
Proof. unfold mark_fail. destruct (t_failed t) eqn:E; [done|]. split_and!; [|done..]. by split; simpl; rewrite ?E. Qed.

Lemma fail_with_keeps at_line m t : keeps_marks t (fail_with at_line m t).1.
Proof. apply mark_fail_keeps. Qed.

#[export] Hint Resolve fail_with_keeps : core.

(** Induction on calls and the functions inside them. *)
Section call_ind.
Context (P : call -> Prop).
Context (HA : forall l c m, P (Assert l c m)) (HE : forall l s a b m, P (AssertEq l s a b m))
        (HN : forall l s a b m, P (AssertNeq l s a b m)) (HC : forall l h n m, P (AssertContains l h n m))
        (HR : forall l f m, Forall P f -> P (AssertRaises l f m)) (HF : forall l m, P (FailCall l m))
        (HS : forall l r, P (SkipCall l r)) (HL : forall s, P (LogCall s)) (HP : forall f, Forall P f -> P (Pcall f))
        (HX : forall m, P (Raise m)) (HY : forall p, P (HostPanic p)).

Fixpoint call_nested (c : call) : P c :=
  let all := fix all (cs : list call) : Forall P cs :=
    match cs with [] => Forall_nil_2 _ | c :: cs => Forall_cons_2 _ _ _ (call_nested c) (all cs) end in
  match c with
  | Assert l c m => HA l c m | AssertEq l s a b m => HE l s a b m | AssertNeq l s a b m => HN l s a b m
  | AssertContains l h n m => HC l h n m | AssertRaises l f m => HR l f m (all f) | FailCall l m => HF l m
  | SkipCall l r => HS l r | LogCall s => HL s | Pcall f => HP f (all f) | Raise m => HX m | HostPanic p => HY p
  end.
End call_ind.

Lemma run_all_keeps cs : Forall (fun c => forall t, keeps_marks t (run_call c t).1) cs ->
  forall t, keeps_marks t (run_all run_call cs t).1.
Proof.
  induction 1 as [|c cs Hc _ IH]; intros t; cbn [run_all]; [done|].
  specialize (Hc t). destruct (run_call c t) as [t1 [| |]]; simpl in *; [by etransitivity|done|done].
Qed.

Lemma run_call_keeps c t : keeps_marks t (run_call c t).1.
Proof.
  revert t. induction c as [l c m|l s a b m|l s a b m|l h n m|l f m IH|l m|l r|s|f IH|m|p] using call_nested; intros t; cbn [run_call].
  - by destruct c.
  - by destruct s.
  - by destruct s.
  - destruct h, n; try done. by destruct (find_bytes _ _).
  - pose proof (run_all_keeps f IH t) as K. destruct (run_all run_call f t) as [t' [|x|p]]; simpl in *.
    { etransitivity; [exact K|exact (proj1 (mark_fail_keeps _ _))]. }
    all: destruct K as [N S F L]; split; done.
  - done.
  - by split.
  - split; try done. by exists [s].
  - exact (run_all_keeps f IH t).
  - done.
  - done.
Qed.

Lemma run_calls_keeps cs t : keeps_marks t (run_calls cs t).1.
Proof. apply run_all_keeps, Forall_forall. intros c _. apply run_call_keeps. Qed.

Lemma run_calls_app a b t : run_calls (a ++ b) t =
  match run_calls a t with (t', Returned) => run_calls b t' | r => r end.
Proof.
  revert t. induction a as [|c a IH]; intros t; [done|]. unfold run_calls in *. cbn [app run_all].
  destruct (run_call c t) as [t' [| |]]; [apply IH|done..].
Qed.

(** A context starts with no mark, and only a call that failed sets one: a body
    whose assertions all hold ends with none. *)
Fixpoint clean_call (c : call) : bool :=
  match c with
  | Assert _ cond _ => cond
  | AssertEq _ same _ _ _ => same
  | AssertNeq _ same _ _ _ => negb same
  | AssertContains _ (Some h) (Some n) _ => bool_decide (is_Some (find_bytes (bytes_of n) (bytes_of h)))
  | LogCall _ => true
  | Pcall f => forallb clean_call f
  | _ => false
  end.

Definition logged (more : list string) (t : t_ctx) : t_ctx :=
  TCtx (t_name t) (t_outcome t) (skip_reason t) (t_log t ++ more) (t_failed t) (failed_msg t).

Lemma logged_nil t : logged [] t = t.
Proof. unfold logged. rewrite (right_id_L [] (++)). by destruct t. Qed.

Definition passes (c : call) : Prop := forall t, exists more, run_call c t = (logged more t, Returned).

Lemma run_all_passes cs : Forall passes cs -> forall t, exists more, run_calls cs t = (logged more t, Returned).
Proof.
  induction 1 as [|c cs Hc _ IH]; intros t; [exists []; by rewrite logged_nil|]. unfold run_calls in *. cbn [run_all].
  destruct (Hc t) as [m1 ->]. destruct (IH (logged m1 t)) as [m2 ->]. exists (m1 ++ m2). unfold logged. simpl. by rewrite (assoc_L (++)).
Qed.

Lemma clean_call_passes c : clean_call c = true -> passes c.
Proof.
  assert (Hsame : forall t, exists more, (t, Returned) = (logged more t, Returned)) by (intros t; exists []; by rewrite logged_nil).
  induction c as [l c m|l s a b m|l s a b m|l h n m|l f m IH|l m|l r|s|f IH|m|p] using call_nested; unfold passes; cbn [clean_call run_call]; try done.
  - by intros -> t.
  - by intros -> t.
  - by destruct s.
  - destruct h, n; try done. by destruct (find_bytes _ _).
  - intros _ t. by exists [s].
  - intros Hf t. assert (Hall : Forall passes f).
    { rewrite forallb_forall in Hf. rewrite Forall_forall in *. intros c Hc. apply IH; [done|]. by apply Hf, list_elem_of_In. }
    destruct (run_all_passes f Hall t) as [more Hr]. unfold run_calls in Hr. rewrite Hr. by exists more.
Qed.

Lemma clean_calls_pass cs t : forallb clean_call cs = true -> exists more, run_calls cs t = (logged more t, Returned).
Proof.
  intros Hf. apply run_all_passes, Forall_forall. intros c Hc. apply clean_call_passes.
  rewrite forallb_forall in Hf. by apply Hf, list_elem_of_In.
Qed.

(** * Closing resources *)

Inductive resource_kind := KStream | KProc | KFile | KWorker | KBridge | KVm | KOther (kind : string).

#[export] Instance resource_kind_eq_dec : EqDecision resource_kind.
Proof. solve_decision. Defined.

Definition close_prio (k : resource_kind) : Z :=
  match k with KStream => 1 | KProc => 2 | KFile => 3 | KWorker => 4 | KBridge => 5 | KVm => 6 | KOther _ => 99 end.

Section scopes.
Context {ud : Type}.

(** The registered resources; what is not a userdata is [None]. *)
Abbreviation resource := (option ud * resource_kind)%type.

Record scopes := Scopes { test_scope : list resource; file_scope : list resource }.

Definition register_resource (in_test : bool) (r : resource) (s : scopes) : scopes :=
  if in_test then Scopes (test_scope s ++ [r]) (file_scope s) else Scopes (test_scope s) (file_scope s ++ [r]).

(** The entries that are sorted, and the order they are sorted by. *)
Abbreviation entry := ((Z * nat) * resource)%type.
Definition entry_le (a b : entry) : Prop := a.1.1 < b.1.1 \/ (a.1.1 = b.1.1 /\ (a.1.2 <= b.1.2)%nat).

#[export] Instance entry_le_dec a b : Decision (entry_le a b).
Proof. unfold entry_le. apply _. Defined.
#[export] Instance entry_le_trans : Transitive entry_le.
Proof. intros a b c. unfold entry_le. lia. Qed.
#[export] Instance entry_le_total : Total entry_le.
Proof. intros a b. unfold entry_le. lia. Qed.

Definition entries_of (rs : list resource) : list entry := imap (fun i r => ((close_prio r.2, i), r)) rs.

(** What is closed, in order. *)
Definition close_scope (rs : list resource) : list resource :=
  filter (fun r => is_Some r.1) (merge_sort entry_le (entries_of rs)).*2.

Definition close_test_scope (s : scopes) : scopes * list resource := (Scopes [] (file_scope s), close_scope (test_scope s)).

Definition close_file_scope (s : scopes) : scopes * list resource :=
  (Scopes [] [], close_scope (test_scope s) ++ close_scope (file_scope s)).

(** [a] is closed before [b]. *)
Definition closes_before (rs : list resource) (i j : nat) : Prop :=
  exists a b, rs !! i = Some a /\ rs !! j = Some b /\
    (close_prio a.2 < close_prio b.2 \/ (close_prio a.2 = close_prio b.2 /\ (i < j)%nat)).

Lemma entries_of_lookup rs e : e ∈ entries_of rs <-> exists i r, rs !! i = Some r /\ e = ((close_prio r.2, i), r).
Proof.
  unfold entries_of. rewrite list_elem_of_lookup. setoid_rewrite list_lookup_imap_Some. split.
  - intros (i & r & Hr & ->). by exists i, r.
  - intros (i & r & Hr & ->). by exists i, r.
Qed.

Lemma entries_of_snd rs : (entries_of rs).*2 = rs.
Proof. unfold entries_of. apply list_eq. intros i. rewrite list_lookup_fmap, list_lookup_imap.
by destruct (rs !! i).
Qed.

(** Every registered resource is closed once, streams before processes before
    files before workers before bridges before machines, and those of one kind
    in the order they were registered. *)
Lemma close_order rs :
  close_scope rs ≡ₚ filter (fun r => is_Some r.1) rs /\
  exists sorted : list entry, close_scope rs = filter (fun r => is_Some r.1) sorted.*2 /\ sorted ≡ₚ entries_of rs /\
    StronglySorted (fun a b => closes_before rs a.1.2 b.1.2) sorted.
Proof.
  assert (Hp : merge_sort entry_le (entries_of rs) ≡ₚ entries_of rs) by apply merge_sort_Permutation.
  split.
  { unfold close_scope. rewrite <- (entries_of_snd rs) at 2. apply filter_Permutation. by apply fmap_Permutation. }
  exists (merge_sort entry_le (entries_of rs)). split_and!; [done..|].
  assert (Hs : StronglySorted entry_le (merge_sort entry_le (entries_of rs))) by (apply StronglySorted_merge_sort; apply _).
  assert (Hin : Forall (fun e => e ∈ entries_of rs) (merge_sort entry_le (entries_of rs))).
  { apply Forall_forall. intros e. by rewrite Hp. }
  assert (Hnd : NoDup (merge_sort entry_le (entries_of rs)).*1.*2).
  { rewrite Hp. assert ((entries_of rs).*1.*2 = seq 0 (length rs)) as ->; [|apply NoDup_seq].
    apply list_eq. intros i. rewrite !list_lookup_fmap. unfold entries_of. rewrite list_lookup_imap.
    destruct (rs !! i) eqn:E; simpl.
    - rewrite lookup_seq_lt; [done|]. by eapply lookup_lt_Some.
    - rewrite lookup_seq_ge; [done|]. by apply lookup_ge_None. }
  clear Hp. induction Hs as [|a l Hl IH Ha]; [constructor|].
  apply Forall_cons in Hin as [Hia Hil]. rewrite !fmap_cons in Hnd. apply NoDup_cons in Hnd as [Hna Hnd].
  constructor; [by apply IH|]. rewrite !Forall_forall in *. intros b Hb.
  specialize (Ha b Hb). specialize (Hil b Hb). apply entries_of_lookup in Hia as (i & x & Hx & ->), Hil as (j & y & Hy & ->).
  exists x, y. split_and!; [done..|]. unfold entry_le in Ha. simpl in *.
  assert (i <> j). { intros ->. apply Hna. apply list_elem_of_fmap. exists (close_prio y.2, j). split; [done|].
    apply list_elem_of_fmap. by exists ((close_prio y.2, j), y). }
  lia.
Qed.
End scopes.

Example closes_in_order :
  close_scope [(Some 0, KVm); (Some 1, KStream); (None, KProc); (Some 2, KOther "tap"); (Some 3, KStream)] =
  [(Some 1, KStream); (Some 3, KStream); (Some 0, KVm); (Some 2, KOther "tap")].
Proof. vm_compute. reflexivity. Qed.

(** * [wait_until] *)

(** A number of Lua, and what [tonumber] makes of digits with or without a point. *)
Inductive lua_num := LuaInt (i : Z) | LuaFloat (f : spec_float).

Definition as_float (n : lua_num) : spec_float := match n with LuaInt i => f64_of_Z i | LuaFloat f => f end.

Definition i64_wrap (x : Z) : Z := (x + 2 ^ 63) mod 2 ^ 64 - 2 ^ 63.

Definition times (n : lua_num) (k : Z) : lua_num :=
  match n with LuaInt i => LuaInt (i64_wrap (i * k)) | LuaFloat f => LuaFloat (f64_mul f (f64_of_Z k)) end.

Definition tonumber (s : bytes) : option lua_num :=
  match numeral 10 s with
  | Some n => if n <=? 2 ^ 63 - 1 then Some (LuaInt n) else LuaFloat <$> parse_f64 s
  | None => LuaFloat <$> parse_f64 s
  end.

(** Digits, perhaps a point and more digits, then letters to the end: the
    classes of the pattern are disjoint, so nothing is tried twice. *)
Definition letter (b : byte) : bool := in_range 65 90 b || in_range 97 122 b.

Definition number_and_unit (s : bytes) : option (bytes * bytes) :=
  let (whole, rest) := take_digits s in
  let (dot, rest) := match rest with b :: r => if decide (b = "."%byte) then ([b], r) else ([], rest) | [] => ([], []) end in
  let (frac, unit) := take_digits rest in
  if bool_decide (whole <> []) && bool_decide (unit <> []) && forallb letter unit then Some (whole ++ dot ++ frac, unit) else None.

Inductive duration_arg := DurNumber (n : lua_num) | DurString (s : bytes) | DurOther (type : string).
Inductive duration_error := NotADuration (type : string) | BadDuration (s : bytes) | BadDurationUnit (unit : bytes).

Definition parse_duration (v : duration_arg) : result lua_num duration_error :=
  match v with
  | DurNumber n => Ok n
  | DurOther type => Err (NotADuration type)
  | DurString s =>
      match number_and_unit s with
      | None => Err (BadDuration s)
      | Some (digits, unit) =>
          match tonumber digits with
          | None => Err (BadDuration s)
          | Some n =>
              if decide (unit = bytes_of "ms") then Ok (LuaFloat (f64_div (as_float n) (f64_of_Z 1000)))
              else if decide (unit = bytes_of "s") then Ok n
              else if decide (unit = bytes_of "m") then Ok (times n 60)
              else if decide (unit = bytes_of "h") then Ok (times n 3600)
              else Err (BadDurationUnit unit)
          end
      end
  end.

Example durations_read :
  parse_duration (DurString (bytes_of "10s")) = Ok (LuaInt 10) /\ parse_duration (DurString (bytes_of "1.5m")) = Ok (LuaFloat (f64_of_Z 90)) /\
  parse_duration (DurString (bytes_of "500ms")) = Ok (LuaFloat (f64_of_ratio false 1 2)) /\
  parse_duration (DurString (bytes_of "10")) = Err (BadDuration (bytes_of "10")) /\
  parse_duration (DurString (bytes_of "2d")) = Err (BadDurationUnit (bytes_of "d")) /\
  parse_duration (DurString (bytes_of ".5s")) = Err (BadDuration (bytes_of ".5s")).
Proof. vm_compute. done. Qed.

(** One turn: what the predicate does, [None] for a falsy value, and the clock after it. *)
Inductive turn {A : Type} := Answers (value : option A) (clock : spec_float) | Breaks (error : string).
Arguments turn : clear implicits.

Inductive wait_error := WaitBad (e : duration_error) | WaitBroke (error : string) | NotMet (desc : string) (timeout : lua_num).

Fixpoint wait_turns {A} (desc : string) (timeout : lua_num) (deadline : spec_float) (ts : list (turn A)) : option (result A wait_error) :=
  match ts with
  | [] => None
  | Breaks e :: _ => Some (Err (WaitBroke e))
  | Answers (Some v) _ :: _ => Some (Ok v)
  | Answers None clock :: ts =>
      if SFleb deadline clock then Some (Err (NotMet desc timeout)) else wait_turns desc timeout deadline ts
  end.

(** [timeout] and [interval] as given, [start] the clock before the first turn. *)
Definition wait_until {A} (timeout interval : option duration_arg) (desc : option string) (start : spec_float) (ts : list (turn A))
  : option (result A wait_error) :=
  match parse_duration (default (DurNumber (LuaInt 10)) timeout) with
  | Err e => Some (Err (WaitBad e))
  | Ok timeout =>
      match parse_duration (default (DurNumber (LuaFloat (f64_of_ratio false 1 10))) interval) with
      | Err e => Some (Err (WaitBad e))
      | Ok _ => wait_turns (default "condition" desc) timeout (SFadd 53 1024 start (as_float timeout)) ts
      end
  end.

(** The wait ends by the first turn after the deadline at the latest; the
    predicate is asked before the clock is looked at, so a condition that holds
    when the deadline passes is still seen; and a value returned is one the
    predicate gave. *)
Lemma wait_turns_ends {A} desc timeout deadline (ts : list (turn A)) v clock :
  Answers v clock ∈ ts -> SFleb deadline clock = true -> is_Some (wait_turns desc timeout deadline ts).
Proof.
  intros Hin Hd. induction ts as [|u ts IH]; [by apply elem_of_nil in Hin|]. apply elem_of_cons in Hin as [<-|Hin]; cbn [wait_turns].
  - destruct v; [by eexists|]. rewrite Hd. by eexists.
  - destruct u as [[x|] c|e]; [by eexists| |by eexists]. destruct (SFleb _ c); [by eexists|by apply IH].
Qed.

Lemma wait_turns_ok {A} desc timeout deadline (ts : list (turn A)) x :
  wait_turns desc timeout deadline ts = Some (Ok x) -> exists clock, Answers (Some x) clock ∈ ts.
Proof.
  induction ts as [|[[y|] c|e] ts IH]; cbn [wait_turns]; try done.
  - intros [= ->]. exists c. by left.
  - destruct (SFleb _ _); [done|]. intros (k & Hk)%IH. exists k. by right.
Qed.
