(* ===== verification/TestFilter.v ===== *)
(** Which tests of a file run, and for how long: the meta data of a test as the
    host reads it, the filters of the command line and the timeouts
    ([src/provium-host/src/lua/runner.rs], with the variable the filters travel
    in, set by [bin/provium.rs]). *)
From Stdlib Require Import SpecFloat.
From stdpp Require Import pretty.
From S2P Require Import Prelude Qmp Text Names Numbers Pool CliArgs Events.

Open Scope string_scope.
Open Scope list_scope.
Open Scope Z_scope.

(** * Values of Lua *)

(** A table is given by its elements at 1, 2, … up to its length, and by what
    walking its pairs yields; [None] is a pair whose key is no text. *)
#[warnings="-register-all"]
Inductive lua_value :=
| VNil
| VBool (b : bool)
| VInt (i : Z)
| VNumber (f : spec_float)
| VString (bs : bytes)
| VTable (items : list lua_value) (pairs : list (option (string * lua_value)))
| VOther.

Fixpoint lua_value_to_meta_value (v : lua_value) : meta_value :=
  match v with
  | VNil | VOther => MNull
  | VBool b => MBool b
  | VInt i => MInt i
  | VNumber f => MFloat f
  | VString bs => if utf8_valid bs then MStr (text bs) else MBytes bs
  | VTable items pairs =>
      match items with
      | _ :: _ => MArray (lua_value_to_meta_value <$> items)
      | [] =>
          MMap (foldl (fun m p => match p with Some (k, v) => <[k := lua_value_to_meta_value v]> m | None => m end) ∅ pairs)
      end
  end.

Definition lua_value_to_meta_map (v : lua_value) : meta_map :=
  match v with
  | VTable _ pairs =>
      foldl (fun m p => match p with Some (k, v) => <[k := lua_value_to_meta_value v]> m | None => m end) ∅ pairs
  | _ => ∅
  end.

(** * The filter *)

Record test_filter := TestFilter {
  include_slow : bool;
  tag : list string;
  no_tag : list string;
  tag_meta : list (string * string);
  no_tag_meta : list (string * string) }.

Definition filter_default : test_filter := TestFilter false [] [] [] [].

(** ** Through the environment *)

Definition as_array (v : json) : option (list json) := match v with JArr l => Some l | _ => None end.

Definition read_strings (field : string) (v : json) : list string :=
  match jget field v ≫= as_array with Some a => omap as_str a | None => [] end.

Definition read_pair (entry : json) : option (string * string) :=
  k ← jget "key" entry ≫= as_str; x ← jget "value" entry ≫= as_str; Some (k, x).

Definition read_kv (field : string) (v : json) : list (string * string) :=
  match jget field v ≫= as_array with Some a => omap read_pair a | None => [] end.

Definition filter_of_json (v : json) : test_filter :=
  TestFilter (default false (jget "include_slow" v ≫= as_bool)) (read_strings "tag" v) (read_strings "no_tag" v)
    (read_kv "tag_meta" v) (read_kv "no_tag_meta" v).

Definition kv_pairs (pairs : list (string * string)) : json :=
  JArr ((fun p => JObj [("key", JStr p.1); ("value", JStr p.2)]) <$> pairs).

Definition test_filter_json (f : test_filter) : json :=
  JObj [("include_slow", JBool (include_slow f)); ("no_tag", JArr (JStr <$> no_tag f)); ("no_tag_meta", kv_pairs (no_tag_meta f));
        ("tag", JArr (JStr <$> tag f)); ("tag_meta", kv_pairs (tag_meta f))].

Section environment.
(** The JSON library. *)
Context (to_string : json -> option string) (from_str : string -> option json).

(** The variable as the binary sets it. *)
Definition filter_variable (f : test_filter) : string := default "" (to_string (test_filter_json f)).

Definition from_env (var : option string) : test_filter :=
  let raw := default "" var in
  if decide (raw = "") then filter_default else filter_of_json (default JNull (from_str raw)).

Lemma omap_as_str (l : list string) : omap as_str (JStr <$> l) = l.
Proof. induction l as [|x l IH]; [done|]. rewrite fmap_cons. csimpl. by rewrite IH. Qed.

Lemma omap_read_pair (l : list (string * string)) :
  omap read_pair ((fun p : string * string => JObj [("key", JStr p.1); ("value", JStr p.2)]) <$> l) = l.
Proof. induction l as [|[k x] l IH]; [done|]. rewrite fmap_cons. csimpl. by rewrite IH. Qed.

(** What the flags say is what the runner filters by. *)
Lemma filter_travels f :
  (forall v, exists s, to_string v = Some s /\ s <> "" /\ from_str s = Some v) -> from_env (Some (filter_variable f)) = f.
Proof.
  intros Hjson. unfold from_env, filter_variable. destruct (Hjson (test_filter_json f)) as (s & -> & Hs & Hr). simpl.
  rewrite decide_False by done. rewrite Hr. cbn [default from_option id]. destruct f as [slow t nt tm ntm]. unfold filter_of_json, test_filter_json, read_strings, read_kv, kv_pairs.
  unfold jget. simpl. by rewrite ?omap_as_str, ?omap_read_pair.
Qed.
End environment.

(** ** What it lets through *)

Definition truthy (v : option meta_value) : bool :=
  match v with Some (MBool b) => b | Some (MInt n) => negb (n =? 0) | _ => false end.

Definition strings_in (l : list meta_value) : list string := omap (fun v => match v with MStr s => Some s | _ => None end) l.

Definition collect_tags (m : meta_map) : list string :=
  match m !! "tags" with Some (MStr s) => [s] | Some (MArray items) => strings_in items | _ => [] end.

Definition meta_field_contains (m : meta_map) (key wanted : string) : bool :=
  match m !! key with
  | Some (MStr s) => bool_decide (s = wanted)
  | Some (MArray items) => existsb (fun v => match v with MStr s => bool_decide (s = wanted) | _ => false end) items
  | _ => false
  end.

(** [{:?}] of a text, for the characters of ASCII; the others pass. *)
Definition debug_char (b : byte) : bytes :=
  if decide (b = x22 \/ b = x5c) then [x5c; b]
  else if decide (b = x0a) then bytes_of "\n" else if decide (b = x0d) then bytes_of "\r"
  else if decide (b = x09) then bytes_of "\t" else if decide (b = x00) then bytes_of "\0"
  else if in_range 0 31 b || in_range 127 127 b
       then bytes_of "\u{" ++ (if byte_to_Z b <? 16 then [] else [byte_of_Z (48 + byte_to_Z b / 16)]) ++
            [byte_of_Z (if byte_to_Z b mod 16 <? 10 then 48 + byte_to_Z b mod 16 else 87 + byte_to_Z b mod 16)] ++ bytes_of "}"
       else [b].

Definition debug_text (s : string) : string := text (x22 :: (bytes_of s ≫= debug_char) ++ [x22]).

Fixpoint comma_separated (l : list string) : string :=
  match l with [] => "" | [s] => s | s :: l => s +:+ ", " +:+ comma_separated l end.

Definition debug_texts (l : list string) : string := "[" +:+ comma_separated (debug_text <$> l) +:+ "]".

Example debug_texts_escape : bytes_of (debug_texts ["a"; text [x5c; x1f]]) = bytes_of "[" ++ [x22] ++ bytes_of "a" ++ [x22] ++ bytes_of ", " ++ [x22] ++ bytes_of "\\\u{1f}" ++ [x22] ++ bytes_of "]".
Proof. vm_compute. reflexivity. Qed.

(** [meta.skip] is a flag or the reason itself. *)
Definition declared_skip (m : meta_map) : option string :=
  match m !! "skip" with
  | Some (MBool true) => Some "skipped (meta.skip)"
  | Some (MInt n) => if n =? 0 then None else Some "skipped (meta.skip)"
  | Some (MStr s) => Some ("skipped: " +:+ s)
  | _ => None
  end.

Fixpoint excluded_by (m : meta_map) (pairs : list (string * string)) : option string :=
  match pairs with
  | [] => None
  | (k, v) :: pairs =>
      if meta_field_contains m k v then Some ("filtered: matched --no-tag-meta (" +:+ k +:+ "=" +:+ v +:+ ")") else excluded_by m pairs
  end.

Definition key_matches (m : meta_map) (pairs : list (string * string)) (k : string) : bool :=
  existsb (fun p : string * string => bool_decide (p.1 = k) && meta_field_contains m k p.2) pairs.

Fixpoint missing_key (m : meta_map) (pairs : list (string * string)) (keys : list string) : option string :=
  match keys with
  | [] => None
  | k :: keys =>
      if key_matches m pairs k then missing_key m pairs keys
      else Some ("filtered: did not match any --tag-meta " +:+ k +:+ "=…")
  end.

Definition overlap (tags wanted : list string) : bool := existsb (fun t => bool_decide (t ∈ wanted)) tags.

Definition should_skip (f : test_filter) (m : meta_map) : option string :=
  match declared_skip m with
  | Some reason => Some reason
  | None =>
      if negb (include_slow f) && truthy (m !! "slow") then Some "filtered: slow tests skipped (pass --include-slow)"
      else if bool_decide (no_tag f <> []) && overlap (collect_tags m) (no_tag f)
           then Some ("filtered: matched --no-tag (" +:+ debug_texts (no_tag f) +:+ ")")
      else if bool_decide (tag f <> []) && negb (overlap (collect_tags m) (tag f))
           then Some ("filtered: did not match --tag (" +:+ debug_texts (tag f) +:+ ")")
      else
        match excluded_by m (no_tag_meta f) with
        | Some reason => Some reason
        | None => missing_key m (tag_meta f) (in_order (list_to_set (tag_meta f).*1))
        end
  end.

(** ** What that means *)

(** The texts a field of the meta data holds. *)
Definition field_texts (m : meta_map) (key : string) : list string :=
  match m !! key with Some (MStr s) => [s] | Some (MArray items) => strings_in items | _ => [] end.

Lemma elem_of_strings_in s l : s ∈ strings_in l <-> MStr s ∈ l.
Proof.
  unfold strings_in. rewrite list_elem_of_omap. split.
  - intros (v & Hv & E). destruct v; try done. by injection E as ->.
  - intros H. by exists (MStr s).
Qed.

Lemma meta_field_contains_spec m k v : meta_field_contains m k v = true <-> v ∈ field_texts m k.
Proof.
  unfold meta_field_contains, field_texts. destruct (m !! k) as [[]|]; try (by split; [|intros ?%elem_of_nil]).
  - rewrite bool_decide_eq_true, list_elem_of_singleton. naive_solver.
  - rewrite existsb_exists, elem_of_strings_in. setoid_rewrite <- list_elem_of_In. split.
    + intros (x & Hx & E). destruct x; try done. by apply bool_decide_eq_true in E as ->.
    + intros H. exists (MStr v). split; [done|by apply bool_decide_eq_true].
Qed.

Lemma collect_tags_field m : collect_tags m = field_texts m "tags".
Proof. done. Qed.

Lemma overlap_spec tags wanted : overlap tags wanted = true <-> exists t, t ∈ tags /\ t ∈ wanted.
Proof.
  unfold overlap. rewrite existsb_exists. setoid_rewrite <- list_elem_of_In. by setoid_rewrite bool_decide_eq_true.
Qed.

Lemma excluded_by_spec m pairs : excluded_by m pairs = None <-> forall k v, (k, v) ∈ pairs -> v ∉ field_texts m k.
Proof.
  induction pairs as [|[k v] pairs IH]; cbn [excluded_by]; [by split; [intros _ ? ? ?%elem_of_nil|]|].
  destruct (meta_field_contains m k v) eqn:E.
  - split; [done|]. intros H. exfalso. apply (H k v); [by left|by apply meta_field_contains_spec].
  - rewrite IH. split.
    + intros H k' v' [[= -> ->]|Hin]%elem_of_cons; [|by apply H]. intros Hv%meta_field_contains_spec. congruence.
    + intros H k' v' Hin. apply H. by right.
Qed.

Lemma key_matches_spec m pairs k : key_matches m pairs k = true <-> exists v, (k, v) ∈ pairs /\ v ∈ field_texts m k.
Proof.
  unfold key_matches. rewrite existsb_exists. setoid_rewrite <- list_elem_of_In. split.
  - intros ([k' v] & Hin & [Hk%bool_decide_eq_true Hv%meta_field_contains_spec]%andb_true_iff). simpl in Hk. subst k'. by exists v.
  - intros (v & Hin & Hv%meta_field_contains_spec). exists (k, v). split; [done|]. apply andb_true_iff. by rewrite bool_decide_eq_true.
Qed.

Lemma missing_key_spec m pairs keys :
  missing_key m pairs keys = None <-> forall k, k ∈ keys -> exists v, (k, v) ∈ pairs /\ v ∈ field_texts m k.
Proof.
  induction keys as [|k keys IH]; cbn [missing_key]; [by split; [intros _ ? ?%elem_of_nil|]|].
  destruct (key_matches m pairs k) eqn:E.
  - apply key_matches_spec in E. rewrite IH. split; [intros H k' [->|Hin]%elem_of_cons; auto|intros H k' Hin; apply H; by right].
  - split; [done|]. intros H. specialize (H k ltac:(by left)). apply key_matches_spec in H. congruence.
Qed.

(** A test runs exactly when it is not declared skipped, is not slow unless slow
    tests are asked for, has none of the tags that are excluded and one of those
    that are wanted, and likewise for the other fields: none of the excluded
    values, and for every key that is asked for one of its values. *)
Record admitted (f : test_filter) (m : meta_map) : Prop := {
  ad_declared : declared_skip m = None;
  ad_slow : include_slow f = true \/ truthy (m !! "slow") = false;
  ad_no_tag : forall t, t ∈ field_texts m "tags" -> t ∉ no_tag f;
  ad_tag : tag f <> [] -> exists t, t ∈ field_texts m "tags" /\ t ∈ tag f;
  ad_no_meta : forall k v, (k, v) ∈ no_tag_meta f -> v ∉ field_texts m k;
  ad_meta : forall k v, (k, v) ∈ tag_meta f -> exists v', (k, v') ∈ tag_meta f /\ v' ∈ field_texts m k;
}.

Lemma filter_admits f m : should_skip f m = None <-> admitted f m.
Proof.
  unfold should_skip. destruct (declared_skip m) eqn:Ed; [split; [done|intros []; congruence]|].
  destruct (negb (include_slow f) && _) eqn:Es.
  { split; [done|]. intros [_ [H|H] _ _ _ _]; rewrite H in Es; simpl in Es; [done|by rewrite andb_false_r in Es]. }
  destruct (bool_decide (no_tag f <> []) && _) eqn:En.
  { split; [done|]. intros [_ _ H _ _ _]. apply andb_true_iff in En as [_ (t & Ht & Hn)%overlap_spec]. by apply H in Ht. }
  destruct (bool_decide (tag f <> []) && _) eqn:Et.
  { split; [done|]. intros [_ _ _ H _ _]. apply andb_true_iff in Et as [Hne%bool_decide_eq_true Ho].
    apply H in Hne. rewrite <- collect_tags_field in Hne. apply overlap_spec in Hne. by rewrite Hne in Ho. }
  destruct (excluded_by m (no_tag_meta f)) eqn:Ex.
  { split; [done|]. intros [_ _ _ _ H _]. by apply excluded_by_spec in H; rewrite H in Ex. }
  rewrite missing_key_spec. pose proof (proj1 (excluded_by_spec _ _) Ex) as Hex. split.
  - intros Hk. split; [done| | | |done|].
    + destruct (include_slow f); [by left|right]. by simpl in Es.
    + intros t Ht Hno. apply andb_false_iff in En as [Hne|Hov].
      * apply bool_decide_eq_false in Hne. apply Hne. intros E. rewrite E in Hno. by apply elem_of_nil in Hno.
      * apply not_true_iff_false in Hov. apply Hov, overlap_spec. by exists t.
    + intros Hne. apply andb_false_iff in Et as [Hf|Hov]; [by apply bool_decide_eq_false in Hf|].
      apply negb_false_iff, overlap_spec in Hov. done.
    + intros k v Hin. apply Hk, elem_of_in_order, elem_of_list_to_set, list_elem_of_fmap. by exists (k, v).
  - intros [_ _ _ _ _ H] k Hk. apply elem_of_in_order, elem_of_list_to_set, list_elem_of_fmap in Hk as ([k' v] & -> & Hin). by apply (H k' v).
Qed.

(** * Timeouts *)

Definition duration_units : list (bytes * spec_float) :=
  [(bytes_of "ms", f64_of_ratio false 1 1000); (bytes_of "s", f64_of_Z 1); (bytes_of "m", f64_of_Z 60); (bytes_of "h", f64_of_Z 3600)].

Fixpoint number_part (units : list (bytes * spec_float)) (s : bytes) : bytes * spec_float :=
  match units with
  | [] => (s, f64_of_Z 1)
  | (suffix, unit) :: units => match strip_suffix suffix s with Some num => (num, unit) | None => number_part units s end
  end.

Definition parse_duration_str (s : bytes) : option spec_float :=
  let (num, unit) := number_part duration_units (trim s) in
  n ← parse_f64 (trim num); Some (f64_mul n unit).

Definition positive (f : spec_float) : bool := f64_lt (f64_of_Z 0) f.

(** The duration of a number of seconds, if there is one; the errors of these
    functions are panics. *)
Definition timeout_of (secs : option spec_float) : result (option Z) string :=
  match secs with None => Ok None | Some x => match from_secs_f64 x with Ok ns => Ok (Some ns) | Err e => Err e end end.

Definition test_timeout_from_meta (m : meta_map) : result (option Z) string :=
  timeout_of
    match m !! "timeout" with
    | Some (MInt n) => if 0 <? n then Some (f64_of_Z n) else None
    | Some (MFloat f) => if positive f then Some f else None
    | Some (MStr s) => parse_duration_str (bytes_of s)
    | _ => None
    end.

(** [provium.timeout]. *)
Definition file_default_timeout (v : lua_value) : result (option Z) string :=
  match v with
  | VInt n => Ok (if 0 <? n then Some (n * 1000000000) else None)
  | VNumber f => timeout_of (if positive f then Some f else None)
  | VString s => timeout_of (if utf8_valid s then parse_duration_str s else None)
  | _ => Ok None
  end.

(** The deadline of a test: its own, or the file's. *)
Definition test_deadline (m : meta_map) (file_default : option Z) : result (option Z) string :=
  match test_timeout_from_meta m with
  | Ok None => Ok file_default
  | r => r
  end.

Lemma timeout_of_width x ns : timeout_of x = Ok (Some ns) -> duration_ok ns.
Proof. unfold timeout_of. destruct x as [x|]; [|done]. destruct (from_secs_f64 x) eqn:E; [|done]. intros [= <-]. by apply from_secs_width in E. Qed.

(** A deadline is a duration; a test without one of its own has the file's. *)
Lemma test_deadline_width m d ns : (forall k, d = Some k -> duration_ok k) -> test_deadline m d = Ok (Some ns) -> duration_ok ns.
Proof.
  intros Hd. unfold test_deadline. destruct (test_timeout_from_meta m) as [[x|]|] eqn:E; [|intros [= ->]; by apply Hd|done].
  intros [= <-]. by apply timeout_of_width in E.
Qed.

Example timeouts_read :
  (test_timeout_from_meta <$> ([{[ "timeout" := MInt 30 ]}; {[ "timeout" := MStr "500ms" ]}; {[ "timeout" := MStr "2h" ]};
                               {[ "timeout" := MInt (-1) ]}; {[ "timeout" := MStr "soon" ]}; {[ "timeout" := MStr "0.1" ]}] : list meta_map)) =
  [Ok (Some 30000000000); Ok (Some 500000000); Ok (Some 7200000000000); Ok None; Ok None; Ok (Some 100000000)].
Proof. vm_compute. reflexivity. Qed.

(** A number that is not positive is no timeout, but the same number in a text
    makes the host panic, before the test has begun. *)
Lemma timeout_text_panics :
  test_deadline {[ "timeout" := MInt (-5) ]} None = Ok None /\
  test_deadline {[ "timeout" := MStr "-5s" ]} None = Err is_negative /\ test_deadline {[ "timeout" := MStr "nan" ]} None = Err too_big_or_nan /\
  file_default_timeout (VString (bytes_of "inf")) = Err too_big_or_nan.
Proof. vm_compute. done. Qed.

Example meta_of_lua :
  let m := lua_value_to_meta_map (VTable [] [Some ("tags", VTable [VString (bytes_of "net"); VInt 3] []); None; Some ("slow", VBool true)]) in
  m !! "tags" = Some (MArray [MStr "net"; MInt 3]) /\ collect_tags m = ["net"] /\
  should_skip filter_default m = Some "filtered: slow tests skipped (pass --include-slow)" /\
  should_skip (TestFilter true ["net"; "disk"] [] [("tags", "net")] [("tags", "3")]) m = None.
Proof. vm_compute. done. Qed.
