(* ===== verification/Runner.v ===== *)
(** One test file from end to end: how the outcome of each test is settled, what
    is said about it on the event stream, and the restore between tests
    ([src/provium-host/src/lua/runner.rs]). *)
From stdpp Require Import pretty.
From S2P Require Import Prelude Text Numbers Names Pool Qmp Dispatch Events TestFramework TestFilter Cpio VmOpts Vm Bridge BridgeNet Profile Barrier Lab LabTree LabSnap LabRestore.

Open Scope string_scope.
Open Scope list_scope.
Open Scope Z_scope.

(** * Console excerpts *)

Definition MAX_PER_VM : nat := 4096.

(** The consoles of the root lab's machines, [None] where the read fails. *)
Definition excerpt (v : string * option bytes) : string :=
  match v.2 with
  | None | Some [] => ""
  | Some log =>
      let start := (length log - MAX_PER_VM)%nat in
      "---- vm " +:+ v.1 +:+ " (last " +:+ pretty (zlen log - Z.of_nat start) +:+ " bytes) ----" +:+ newline +:+
      text (from_utf8_lossy (drop start log)) +:+ newline
  end.

Definition collect_console_excerpts (consoles : list (string * option bytes)) : string :=
  foldl (fun out v => out +:+ excerpt v) "" consoles.

(** * One test *)

(** What a test meets: the calls its function makes, whether its watchdog fired
    before it was stopped, how long it took, the machines of its own lab when
    it is over, and the consoles of the file's. *)
Record test_run := TestRun {
  ru_calls : list call;
  ru_fired : bool;
  ru_elapsed_ns : Z;
  ru_scope : list (string * vm_state);
  ru_consoles : list (string * option bytes) }.

Definition elapsed_ns (ns : Z) : Z := if ns <=? u64_max then ns else u64_max.

Definition emit_scope_vm_shutdowns (vms : list (string * vm_state)) (file : string) : list Events.event :=
  omap (fun v => if decide (v.2 = Booted \/ v.2 = Paused) then Some (VmShutdown file v.1 0) else None) vms.

Definition panic_msg_to_string (payload : option string) : string := default "<non-string panic payload>" payload.

Definition poisoned {A} (r : registered lua_value A) : test_outcome :=
  TestOutcome (r_name r) TFailed (Some "failed-due-to-poisoned-state (earlier test panicked)") [].

Section runner.
(** How the Lua library shows the error that ends a function. *)
Context (show_error : string -> string).

Definition contains (pat s : string) : bool := bool_decide (is_Some (find_bytes (bytes_of pat) (bytes_of s))).

Definition classify_failure (t : t_ctx) (err : string) (name : string) : test_outcome :=
  let message := show_error err in
  if bool_decide (t_outcome t = "skip") || contains SKIP_SENTINEL message
  then TestOutcome name TSkipped (skip_reason t) (t_log t)
  else TestOutcome name TFailed (Some message) (t_log t).

(** What a function that did not panic comes to; [timed_out] is the deadline
    if the watchdog fired. *)
Definition classify (name : string) (timed_out : option Z) (t : t_ctx) (err : option string) : test_outcome :=
  match err, timed_out with
  | None, Some d => TestOutcome name TFailed (Some ("test timeout exceeded (" +:+ debug_duration d +:+ ")")) (t_log t)
  | None, None =>
      if decide (t_outcome t = "skip") then TestOutcome name TSkipped (skip_reason t) (t_log t)
      else if t_failed t then TestOutcome name TFailed (Some (default "assertion failed (caught by pcall)" (failed_msg t))) (t_log t)
      else TestOutcome name TPassed None (t_log t)
  | Some e, Some d =>
      TestOutcome name TFailed (Some ("test timeout exceeded (" +:+ debug_duration d +:+ "); op error: " +:+ show_error e)) (t_log t)
  | Some e, None => classify_failure t e name
  end.

(** The event of an outcome. *)
Definition outcome_event (path : string) (m : meta_map) (ns : Z) (consoles : list (string * option bytes)) (o : test_outcome) : Events.event :=
  match to_status o with
  | TPassed => TestPassed (TestResult path (to_name o) ns m)
  | TFailed => TestFailed (TestResult path (to_name o) ns m) (default "" (to_message o)) (collect_console_excerpts consoles)
  | TSkipped => TestSkipped path (to_name o) (default "" (to_message o)) m
  end.

Inductive test_end := Settled (o : test_outcome) | TestPanicked (o : test_outcome).
Definition outcome_of (e : test_end) : test_outcome := match e with Settled o | TestPanicked o => o end.

Definition run_test (path : string) (deadline : option Z) (r : registered lua_value test_run) : list Events.event * test_end :=
  let m := lua_value_to_meta_map (r_meta r) in
  let u := r_fn r in
  let started := TestStarted path (r_name r) m in
  let '(t, e) := run_calls (ru_calls u) (make_t (r_name r)) in
  let shutdowns := emit_scope_vm_shutdowns (ru_scope u) ("test:" +:+ r_name r) in
  match e with
  | Panicking p =>
      (started :: shutdowns, TestPanicked (TestOutcome (r_name r) TFailed (Some ("Rust panic: " +:+ panic_msg_to_string p)) (t_log t)))
  | _ =>
      let timed_out := if ru_fired u then deadline else None in
      let o := classify (r_name r) timed_out t match e with Raised message => Some message | _ => None end in
      (started :: outcome_event path m (elapsed_ns (ru_elapsed_ns u)) (ru_consoles u) o :: shutdowns, Settled o)
  end.

(** * The tests of a file *)

(** The events, the outcomes, and the panic the loop ends with, if the deadline
    of a test cannot be computed. *)
Fixpoint run_tests (path : string) (f : test_filter) (file_default : option Z) (rs : list (registered lua_value test_run))
  : list Events.event * list test_outcome * result () string :=
  match rs with
  | [] => ([], [], Ok ())
  | r :: rest =>
      let m := lua_value_to_meta_map (r_meta r) in
      match should_skip f m with
      | Some reason =>
          let '(es, os, e) := run_tests path f file_default rest in
          (TestSkipped path (r_name r) reason m :: es, TestOutcome (r_name r) TSkipped (Some reason) [] :: os, e)
      | None =>
          match test_deadline m file_default with
          | Err panic => ([], [], Err panic)
          | Ok d =>
              match run_test path d r with
              | (es1, TestPanicked o) => (es1, o :: (poisoned <$> rest), Ok ())
              | (es1, Settled o) => let '(es, os, e) := run_tests path f file_default rest in (es1 ++ es, o :: os, e)
              end
          end
      end
  end.

(** [todo]: every test is skipped and none is run. *)
Definition skip_all (path reason : string) (rs : list (registered lua_value test_run)) : list Events.event * list test_outcome :=
  ((fun r => TestSkipped path (r_name r) reason (lua_value_to_meta_map (r_meta r))) <$> rs,
   (fun r => TestOutcome (r_name r) TSkipped (Some reason) []) <$> rs).

(** * The whole file *)

(** How the chunk ends: not readable, an error, or what it registered, the two
    settings of the file, and what the lab holds then. *)
Record loaded := Loaded {
  ld_suite : suite lua_value test_run;
  ld_reset : lua_value;
  ld_timeout : lua_value;
  ld_streams : Z;
  ld_stream_metas : list stream_meta;
  ld_tempdir : result () string;
  ld_snapshot : result () string }.

Inductive chunk_end := ChunkUnreadable (e : string) | ChunkRaised (e : string) | ChunkLoaded (l : loaded).

Definition reset_requested (v : lua_value) : bool := match v with VBool b => b | _ => false end.

Definition stream_line (m : stream_meta) : string :=
  newline +:+ "  - " +:+ sm_kind m +:+ " (" +:+ sm_detail m +:+ ")" +:+
  (match creation_site m with Some (file, line) => " at " +:+ file +:+ ":" +:+ pretty line | None => "" end) +:+
  " opens a stream at file scope".

Definition streams_refused (file_name : option string) (metas : list stream_meta) : string :=
  foldl (fun msg m => msg +:+ stream_line m)
    (default "file.test.lua" file_name +:+ ": cannot use reset_between_tests with file-scope streams") metas +:+
  newline +:+ "  reset_between_tests would auto-snapshot after this stream is open" +:+
  newline +:+ "  Either move the stream into a test() block, or set reset_between_tests = false.".

(** The baseline of [reset_between_tests], if it is taken. *)
Inductive baseline_end := NoBaseline | BaselineTaken | BaselineRefused (message : string) | BaselineError (e : string).

Definition take_baseline (file_name : option string) (l : loaded) : baseline_end :=
  if negb (reset_requested (ld_reset l)) then NoBaseline
  else if 0 <? ld_streams l then BaselineRefused (streams_refused file_name (ld_stream_metas l))
  else
    match ld_tempdir l, ld_snapshot l with
    | Err e, _ => BaselineError e
    | Ok _, Err e => BaselineRefused ("reset_between_tests baseline snapshot failed: " +:+ e)
    | Ok _, Ok _ => BaselineTaken
    end.

Definition run_file_full (path : string) (file_name : option string) (f : test_filter) (c : chunk_end) : list Events.event * run_result :=
  match c with
  | ChunkUnreadable e => ([], RunOk (FileOutcome path (Some ("read: " +:+ e)) []))
  | ChunkRaised e => ([], RunOk (FileOutcome path (Some e) []))
  | ChunkLoaded l =>
      match file_default_timeout (ld_timeout l) with
      | Err panic => ([], RunPanic panic)
      | Ok file_default =>
          match take_baseline file_name l with
          | BaselineRefused message => ([], RunOk (FileOutcome path (Some message) []))
          | BaselineError e => ([], RunErr e)
          | _ =>
              let rs := sregistered (ld_suite l) in
              match file_skipped (ld_suite l) with
              | Some reason => let '(es, os) := skip_all path reason rs in (es, RunOk (FileOutcome path None os))
              | None =>
                  let '(es, os, e) := run_tests path f file_default rs in
                  (es, match e with Ok _ => RunOk (FileOutcome path None os) | Err panic => RunPanic panic end)
              end
          end
      end
  end.

(** * A mark is never lost *)

Lemma classify_name name d t e : to_name (classify name d t e) = name.
Proof. unfold classify, classify_failure. repeat case_match; done. Qed.

(** A test passes exactly when its function returns, in time, with neither mark
    set. *)
Lemma passed_exactly path d r es o : run_test path d r = (es, Settled o) ->
  to_status o = TPassed <->
  exists t, run_calls (ru_calls (r_fn r)) (make_t (r_name r)) = (t, Returned) /\
    (ru_fired (r_fn r) = true -> d = None) /\ t_outcome t <> "skip" /\ t_failed t = false.
Proof.
  unfold run_test. destruct (run_calls _ _) as [t [|m|p]] eqn:E; [| |done]; intros [= _ <-].
  - unfold classify. destruct (ru_fired (r_fn r)) eqn:Ef; [destruct d as [x|]|]; simpl.
    + split; [done|]. intros (t' & _ & H & _). by specialize (H eq_refl).
    + destruct (decide (t_outcome t = "skip")) as [Hs|Hs]; [split; [done|]; intros (t' & [= <-] & _ & H & _); done|].
      destruct (t_failed t) eqn:Et; [split; [done|]; intros (t' & [= <-] & _ & _ & H); congruence|]. split; [by exists t|done].
    + destruct (decide (t_outcome t = "skip")) as [Hs|Hs]; [split; [done|]; intros (t' & [= <-] & _ & H & _); done|].
      destruct (t_failed t) eqn:Et; [split; [done|]; intros (t' & [= <-] & _ & _ & H); congruence|]. split; [by exists t|done].
  - split; [|intros (t' & ? & _); done]. unfold classify, classify_failure.
    destruct (if ru_fired (r_fn r) then d else None); [done|]. by destruct (_ || _).
Qed.

(** * What the events say *)

Definition verdict_of (e : Events.event) : option (string * test_status) :=
  match e with
  | TestPassed t => Some (tr_name t, TPassed)
  | TestFailed t _ _ => Some (tr_name t, TFailed)
  | TestSkipped _ name _ _ => Some (name, TSkipped)
  | _ => None
  end.

Definition started_of (e : Events.event) : option string := match e with TestStarted _ name _ => Some name | _ => None end.

Lemma shutdowns_silent vms file :
  omap verdict_of (emit_scope_vm_shutdowns vms file) = [] /\ omap started_of (emit_scope_vm_shutdowns vms file) = [].
Proof.
  unfold emit_scope_vm_shutdowns. induction vms as [|v vms [IH1 IH2]]; [done|]. csimpl.
  destruct (decide _); [|done]. csimpl. by rewrite IH1, IH2.
Qed.

Lemma run_test_events path d r es e : run_test path d r = (es, e) ->
  omap started_of es = [r_name r] /\
  match e with
  | Settled o => omap verdict_of es = [(r_name r, to_status o)] /\ to_name o = r_name r
  | TestPanicked o => omap verdict_of es = [] /\ to_name o = r_name r /\ to_status o = TFailed
  end.
Proof.
  unfold run_test. destruct (run_calls _ _) as [t [|m|p]].
  3:{ intros [= <- <-]. destruct (shutdowns_silent (ru_scope (r_fn r)) ("test:" +:+ r_name r)) as [H1 H2]. csimpl. by rewrite H1, H2. }
  all: set (o := classify _ _ _ _); intros [= <- <-].
  all: destruct (shutdowns_silent (ru_scope (r_fn r)) ("test:" +:+ r_name r)) as [H1 H2].
  all: assert (Hn : to_name o = r_name r) by apply classify_name.
  all: clearbody o; unfold outcome_event; destruct (to_status o); csimpl; by rewrite ?H1, ?H2, Hn.
Qed.

(** C21: an assertion that failed is never lost. However a test ends, if one of
    the calls of its function, whatever that call caught, leaves the context
    marked as failed or as skipped, then the test is not reported as passed; no
    more is one that ends in a panic nobody caught. A test whose assertions all
    hold and that makes no other error passes, unless its time is over. *)
Theorem failed_assertion_never_passes path d r es e :
  run_test path d r = (es, e) ->
  to_name (outcome_of e) = r_name r /\
  (forall pre c post t1 t2 x,
     ru_calls (r_fn r) = pre ++ c :: post -> run_calls pre (make_t (r_name r)) = (t1, Returned) -> run_call c t1 = (t2, x) ->
     t_failed t2 = true \/ t_outcome t2 = "skip" -> to_status (outcome_of e) <> TPassed) /\
  (forall o, e = TestPanicked o -> to_status o = TFailed) /\
  (forallb clean_call (ru_calls (r_fn r)) = true -> (ru_fired (r_fn r) = true -> d = None) -> to_status (outcome_of e) = TPassed).
Proof.
  intros Hrun. pose proof (run_test_events _ _ _ _ _ Hrun) as (_ & He).
  assert (Hclean : forallb clean_call (ru_calls (r_fn r)) = true ->
    exists t, run_calls (ru_calls (r_fn r)) (make_t (r_name r)) = (t, Returned) /\ t_outcome t <> "skip" /\ t_failed t = false).
  { intros Hc. destruct (clean_calls_pass _ (make_t (r_name r)) Hc) as [more Hr]. by exists (logged more (make_t (r_name r))). }
  destruct e as [o|o]; cbn [outcome_of].
  2:{ destruct He as (_ & Hn & Hs). split_and!; [done|by rewrite Hs|by intros ? [= <-]|]. intros (t & Ht & _)%Hclean _.
      unfold run_test in Hrun. by rewrite Ht in Hrun. }
  pose proof (passed_exactly _ _ _ _ _ Hrun) as Hp. split_and!; [by destruct He| |done|].
  - intros pre c post t1 t2 x Hc Hpre Hcall Hmark (t & Ht & _ & Hs & Hf)%Hp.
    rewrite Hc, run_calls_app, Hpre in Ht. unfold run_calls in Ht. cbn [run_all] in Ht. rewrite Hcall in Ht.
    assert (Hk : keeps_marks t2 t).
    { destruct x; [|by injection Ht as ->..]. change (run_calls post t2 = (t, Returned)) in Ht.
      pose proof (run_calls_keeps post t2) as K. by rewrite Ht in K. }
    destruct Hmark as [Hm|Hm]; [|by apply Hs, (km_skip _ _ Hk)]. destruct (km_failed _ _ Hk Hm). congruence.
  - intros (t & Ht & Hs & Hf)%Hclean Hd. apply Hp. by exists t.
Qed.

(** * Every test is reported *)

End runner.

(** * The restore between tests *)

(** What reading the baseline's metadata gives, and the warnings that are all a
    failed restore leads to. *)
Inductive baseline_meta := MetaUnreadable (e : string) | MetaCorrupt (e : string) | MetaRead (m : lab_snapshot_meta).
Inductive warning := WarnRestore (e : lab_error) | WarnCorrupt (e : string) | WarnUnreadable (e : string).

Section restore.
Context {H : Type} `{!Host H}.

Definition restore_baseline (show_qmp : qmp_error -> string) (config : gmap string profile) (l : lab) (b : baseline_meta)
    (backends : nat -> result (Z * Z) string) (answer : vm -> result () vmm_error) (s : world * H) : (world * H) * option warning :=
  match b with
  | MetaUnreadable e => (s, Some (WarnUnreadable e))
  | MetaCorrupt e => (s, Some (WarnCorrupt e))
  | MetaRead m =>
      match lab_restore show_qmp config l m backends answer s with
      | (s', Ok _) => (s', None)
      | (s', Err e) => (s', Some (WarnRestore e))
      end
  end.

(** The labs have at least the members they had; what their machines are doing
    does not matter. *)
Definition members_kept (w w' : world) : Prop := forall r i, labs w !! r = Some i ->
  exists i', labs w' !! r = Some i' /\ sub_labs i ⊆ sub_labs i' /\ vms i ⊆ vms i'.

Lemma kept_vm w w' l name v : members_kept w w' -> vms (inner w l) !! name = Some v -> vms (inner w' l) !! name = Some v.
Proof.
  intros Hk. unfold inner. destruct (labs w !! lab_ref l) as [i|] eqn:E; [|done].
  destruct (Hk _ _ E) as (i' & -> & _ & Hv). simpl. intros Hi. by eapply lookup_weaken.
Qed.

Lemma kept_at_path w w' l path l' : members_kept w w' -> at_path w l path l' -> at_path w' l path l'.
Proof.
  intros Hk. induction 1 as [|l name s path l' Hs _ IH]; [constructor|]. eapply at_below; [|done]. revert Hs. unfold inner.
  destruct (labs w !! lab_ref l) as [i|] eqn:E; [|done]. destruct (Hk _ _ E) as (i' & -> & Hi & _). simpl. intros Hs. by eapply lookup_weaken.
Qed.

Lemma kept_write w l i' ms ns n : sub_labs (inner w l) ⊆ sub_labs i' -> vms (inner w l) ⊆ vms i' ->
  members_kept w (set_inner l i' (World (labs w) ms ns n)).
Proof.
  intros Hs Hv r i Hi. simpl. destruct (decide (lab_ref l = r)) as [<-|Hne].
  - rewrite lookup_insert_eq. unfold inner in Hs, Hv. rewrite Hi in Hs, Hv. by exists i'.
  - rewrite lookup_insert_ne by done. by exists i.
Qed.

Lemma create_vm_keeps config l name prof opts w : members_kept w (create_vm config l name prof opts w).1.
Proof.
  assert (Hrefl : members_kept w w) by (intros r i Hi; by exists i).
  unfold create_vm. repeat case_match; simplify_eq; simpl; try done.
  all: apply kept_write; simpl; [done|by apply insert_subseteq].
Qed.

Lemma follow_at_path w l path l' : at_path w l path l' -> follow w l path = Some l'.
Proof. induction 1 as [|l name s path l' Hs _ IH]; [done|]. cbn [follow]. unfold get_sub_lab. by rewrite Hs. Qed.

Lemma preflight_refuses w l e es path leaf target v :
  split_sub_lab_path (se_vm e) = (path, leaf) -> follow w l path = Some target -> vms (inner w target) !! leaf = Some v ->
  preflight l (e :: es) w = (w, Err (DuplicateVmName (se_vm e))).
Proof. intros Hsplit Hf Hv. cbn [preflight]. rewrite Hsplit, (follow_descend _ _ _ _ Hf). by rewrite Hv. Qed.

Lemma snapshot_first dir w l full v all streams created t taken written m :
  lab_snapshot dir w l ((full, v) :: all) streams created (t :: taken) written = Ok m ->
  exists es, meta_vms m = LabSnapshotEntry full (profile_name v) (snap_path dir full) :: es.
Proof.
  unfold lab_snapshot. destruct created, (0 <? streams); try done. cbn [zip_with join_all].
  destruct t as [u|e]; cbn [snapshot_entry]; [|done]. destruct (join_all _) as [es|]; [|done]. destruct written; [|done].
  intros [= <-]. by exists es.
Qed.

(** C35: the restore between tests restores nothing. From a baseline that holds
    a machine no restore ends well: each is a warning. And if no member of the
    lab had an empty name or one with a slash when the baseline was taken, then
    as long as the labs still have the members they had, which booting, running
    and even shutting down machines does not change, it is refused because the
    first machine's name is in use and leaves everything as the test left it. *)
Theorem reset_never_restores show_qmp config w0 l n full v all streams dir created t taken written m w (h : H) backends answer :
  sound w l ->
  collect_all_vms n w0 l = Some ((full, v) :: all) ->
  lab_snapshot dir w0 l ((full, v) :: all) streams created (t :: taken) written = Ok m ->
  let r := restore_baseline show_qmp config l (MetaRead m) backends answer (w, h) in
  (exists e, r.2 = Some (WarnRestore e)) /\
  (names_clean w0 -> members_kept w0 w -> r = ((w, h), Some (WarnRestore (DuplicateVmName full)))).
Proof.
  intros Hs Hall (es & Hes)%snapshot_first r. unfold r, restore_baseline. split.
  - pose proof (lab_restore_ok show_qmp config l m backends answer w h Hs) as Hok. rewrite Hes in Hok.
    destruct (lab_restore _ _ _ _ _ _ _) as [s' [[]|e]]; [by specialize (Hok eq_refl)|by exists e].
  - intros Hclean Hk. assert (Hin : (full, v) ∈ (full, v) :: all) by left.
    apply (gather_spec _ _ _ _ _ _ _ Hall) in Hin as (path & l' & name & Hp & Hv & Hfull).
    destruct (at_path_clean _ _ _ _ Hclean Hp) as (Hcp & Hcn & _). unfold lab_restore, restore_machines. rewrite Hes.
    rewrite (preflight_refuses w l _ es path name l' v); [done| | |].
    + simpl. rewrite Hfull. apply split_flat_root; [done|by eapply Hcn].
    + by eapply follow_at_path, kept_at_path.
    + by eapply kept_vm.
Qed.
End restore.

(** * Examples *)

Definition shown (e : string) : string := "runtime error: " +:+ e.

Definition body (cs : list call) : test_run := TestRun cs false 5 [("web", Booted); ("old", Dead)] [].
Definition plain (name : string) (cs : list call) : registered lua_value test_run := Registered name (VTable [] []) (body cs).

Definition swallowed : list call := [Pcall [AssertEq "t.lua:3: " false "1" "2" None; LogCall "not reached"]; LogCall "done"].

Lemma failed_assertion_never_passes_witness :
  let r := plain "swallowed" swallowed in
  exists es, run_test shown "t.lua" None r =
    (es, Settled (TestOutcome "swallowed" TFailed (Some "assert_eq failed: 1 ~= 2") ["done"])) /\
  TFailed <> TPassed.
Proof.
  cbv zeta. destruct (run_test shown "t.lua" None (plain "swallowed" swallowed)) as [es e] eqn:E.
  assert (He : e = Settled (TestOutcome "swallowed" TFailed (Some "assert_eq failed: 1 ~= 2") ["done"])).
  { apply (f_equal snd) in E. etransitivity; [symmetry; exact E|vm_compute; reflexivity]. }
  subst e. exists es. split; [done|].
  destruct (failed_assertion_never_passes shown _ _ _ _ _ E) as (_ & Hmark & _). cbn [outcome_of to_status] in Hmark.
  apply (Hmark [] (Pcall [AssertEq "t.lua:3: " false "1" "2" None; LogCall "not reached"]) [LogCall "done"]
           (make_t "swallowed") (mark_fail "assert_eq failed: 1 ~= 2" (make_t "swallowed")) Returned); [reflexivity..|]. left. reflexivity.
Defined.

(** What is expected to be raised leaves no mark. *)
Example expected_failure_passes :
  (run_test shown "t.lua" None (plain "raises" [AssertRaises "" [FailCall "" (Some "no")] None])).2 =
    Settled (TestOutcome "raises" TPassed None []).
Proof. vm_compute. reflexivity. Qed.

(** A panic that was caught is an error like any other: the test goes on, and
    even passes. *)
Lemma caught_panic_passes :
  (run_test shown "t.lua" None (plain "raises" [AssertRaises "" [HostPanic (Some "boom")] None; Pcall [HostPanic None]; LogCall "after"])).2 =
    Settled (TestOutcome "raises" TPassed None ["after"]).
Proof. vm_compute. reflexivity. Qed.

(** A skip that was caught hides a failure after it, and so does an error that
    quotes the sentinel. *)
Lemma skip_hides_failure :
  (run_test shown "t.lua" None (plain "a" [Pcall [SkipCall "t.lua:1: " (Some "later")]; Assert "t.lua:2: " false (Some "broken")])).2 =
    Settled (TestOutcome "a" TSkipped (Some "later") []) /\
  (run_test shown "t.lua" None (plain "b" [Raise ("unexpected output: " +:+ SKIP_SENTINEL)])).2 =
    Settled (TestOutcome "b" TSkipped None []).
Proof. vm_compute. done. Qed.

(** After a panic the tests that did not run have outcomes, and no event says
    that they or the one that panicked failed. *)
Lemma panic_is_silent :
  let '(es, os, _) := run_tests shown "t.lua" filter_default None [plain "a" [LogCall "x"]; plain "b" [HostPanic (Some "boom")]; plain "c" []] in
  (fun o => (to_name o, to_status o)) <$> os = [("a", TPassed); ("b", TFailed); ("c", TFailed)] /\
  omap verdict_of es = [("a", TPassed)] /\ omap started_of es = ["a"; "b"].
Proof. vm_compute. done. Qed.

Definition baseline_taken : result lab_snapshot_meta lab_error :=
  lab_snapshot "/tmp/base" demo_world root_lab (default [] (collect_all_vms 3 demo_world root_lab)) 0 (Ok ()) [Ok (); Ok ()] (Ok ()).

Definition late_world : world := (create_vm demo_config root_lab "late" "peios" boot_opts_default demo_world).1.

Lemma late_sound : sound late_world root_lab.
Proof.
  assert (Hok : tree_ok demo_world).
  { refine (rtc_ind_l (fun w => tree_ok w -> tree_ok demo_world) demo_world _ _ _ demo_world_steps _); [done| |].
    - intros x y Hxy _ IH Hx. apply IH. by eapply lab_step_ok.
    - split; [|intros r1 r2 (i & ? & ? & Hi & _); done|intros r [? Hr]; done].
      intros r. constructor. intros s (i & ? & ? & Hi & _). done. }
  split_and!; [|intros r Hr|by eexists].
  - apply (lab_step_ok demo_config demo_world); [done|]. apply LCreateVm. by eexists.
  - destruct Hr as [m Hr]. apply elem_of_map_to_list in Hr. vm_compute in Hr.
    repeat (apply elem_of_cons in Hr as [[= -> _]|Hr]; [done|]). by apply elem_of_nil in Hr.
Qed.

Lemma reset_never_restores_witness :
  let m := LabSnapshotMeta [LabSnapshotEntry "top" "peios" "/tmp/base/top.snap"; LabSnapshotEntry "dc1/web" "peios" "/tmp/base/dc1_web.snap"] [] in
  baseline_taken = Ok m /\
  restore_baseline no_text demo_config root_lab (MetaRead m) demo_backends demo_answer (late_world, idle) =
    ((late_world, idle), Some (WarnRestore (DuplicateVmName "top"))).
Proof.
  cbv zeta. split; [vm_compute; reflexivity|].
  refine (proj2 (reset_never_restores no_text demo_config demo_world root_lab 3 "top" (VmHandle "top" "peios" boot_opts_default true 1)
            [("dc1/web", VmHandle "web" "peios" boot_opts_default false 3)] 0 "/tmp/base" (Ok ()) (Ok ()) [Ok ()] (Ok ())
            _ late_world idle demo_backends demo_answer late_sound _ _) _ _).
  - vm_compute. reflexivity.
  - vm_compute. reflexivity.
  - exact demo_names_clean.
  - apply create_vm_keeps.
Defined.

(** The lab of a test is no member of the file's, so the watchdog of the test,
    which shuts the file's lab down, does not find the test's own machines. *)
Lemma watchdog_misses_test_machines :
  let '(w1, scope) := lab_new "test:boots" true demo_world in
  let '(w2, made) := create_vm demo_config scope "mine" "peios" boot_opts_default w1 in
  is_ok made = true /\ collect_all_vms 3 w2 scope <> Some [] /\
  fst <$> default [] (collect_all_vms 3 w2 root_lab) = ["top"; "dc1/web"].
Proof. vm_compute. done. Qed.
