(* ===== verification/QemuArgs.v ===== *)
(** The command lines QEMU is started with: [build_qemu_command] and its
    helpers in [src/provium-host/src/vmm/qemu.rs], and the kernel command line
    tokens of [vmm/agent_overlay.rs]. Arguments are byte strings. *)
From stdpp Require Import pretty.
From S2P Require Import Prelude Text Numbers Names Cpio VmOpts Bridge Qmp Vm DiskPorts.

Open Scope string_scope.
Open Scope list_scope.
Open Scope Z_scope.

(** * Kernel command lines *)

(** [u8::is_ascii_whitespace]. *)
Definition is_ascii_space (b : byte) : bool := bool_decide (b ∈ [x09; x0a; x0c; x0d; x20]).

(** [str::split_ascii_whitespace]. *)
Fixpoint ascii_words (s : bytes) : list bytes :=
  match s with
  | [] => []
  | b :: rest =>
      if is_ascii_space b then ascii_words rest
      else
        match rest with
        | [] => [[b]]
        | c :: _ =>
            if is_ascii_space c then [b] :: ascii_words rest
            else match ascii_words rest with w :: ws => (b :: w) :: ws | [] => [[b]] end
        end
  end.

(** [str::trim_end]. *)
Definition trim_end (s : bytes) : bytes := reverse (strip (reverse <$> white_space) (length s) (reverse s)).

Definition SERIAL_CONSOLE : bytes := bytes_of "console=ttyS0".

Definition ensure_serial_console (cmdline : bytes) : bytes :=
  if bool_decide (SERIAL_CONSOLE ∈ ascii_words cmdline) then cmdline
  else trim_end cmdline ++ [x20] ++ SERIAL_CONSOLE.

Definition OVERLAY_AGENT_PATH : bytes := bytes_of "/sbin/provium-agent".
Definition RDINIT : bytes := bytes_of "rdinit=".

Definition parse_rdinit (cmdline : bytes) : option bytes := head (omap (strip_prefix RDINIT) (ascii_words cmdline)).

Definition with_rdinit (cmdline : bytes) : bytes :=
  match parse_rdinit cmdline with
  | Some _ => cmdline
  | None => trim_end cmdline ++ [x20] ++ RDINIT ++ OVERLAY_AGENT_PATH
  end.

(** [cmdline_append]: after the line that won, if it says anything. *)
Definition append_extra (cmdline : bytes) (extra : option bytes) : bytes :=
  match trim <$> extra with
  | None | Some [] => cmdline
  | Some extra => trim_end cmdline ++ [x20] ++ extra
  end.

(** ** What the kernel reads *)

Lemma ascii_words_space b s : is_ascii_space b = true -> ascii_words (b :: s) = ascii_words s.
Proof. intros H. cbn [ascii_words]. by rewrite H. Qed.

Lemma ascii_words_ne b s : is_ascii_space b = false -> exists w ws, ascii_words (b :: s) = (b :: w) :: ws.
Proof.
  revert b. induction s as [|c s IH]; intros b Hb; cbn [ascii_words]; rewrite Hb; [by eexists [], []|].
  destruct (is_ascii_space c) eqn:Ec; [by eexists [], _|]. destruct (IH c Ec) as (w & ws & H). cbn [ascii_words] in H. rewrite Ec in H.
  rewrite H. by eexists _, _.
Qed.

Lemma ascii_words_app a s : ascii_words (a ++ x20 :: s) = ascii_words a ++ ascii_words s.
Proof.
  induction a as [|b a IH]; [by apply ascii_words_space|]. cbn [app ascii_words]. destruct (is_ascii_space b) eqn:Eb; [apply IH|].
  destruct a as [|c a]; cbn [app].
  - change (is_ascii_space x20) with true. cbn iota. by rewrite ascii_words_space.
  - destruct (is_ascii_space c) eqn:Ec; cbn [app] in IH; rewrite IH; [done|].
    destruct (ascii_words_ne c a Ec) as (w & ws & H). by rewrite H.
Qed.

Lemma ascii_words_word w : forallb (fun b => negb (is_ascii_space b)) w = true -> w <> [] -> ascii_words w = [w].
Proof.
  induction w as [|b w IH]; [done|]. cbn [forallb]. intros [Hb%negb_true_iff Hw]%andb_true_iff _. cbn [ascii_words]. rewrite Hb.
  destruct w as [|c w]; [done|]. rewrite (IH Hw) by done. cbn [forallb] in Hw. apply andb_true_iff in Hw as [->%negb_true_iff _]. done.
Qed.

(** Cutting off the end of a line may cut its last word short, and adds none. *)
Lemma ascii_words_prefix t r : exists ws rest, ascii_words (t ++ r) = ws ++ rest /\ Forall2 prefix (ascii_words t) ws.
Proof.
  induction t as [|b t IH]; [by exists [], (ascii_words r)|]. cbn [app]. destruct (is_ascii_space b) eqn:Eb.
  { rewrite !ascii_words_space by done. done. }
  destruct t as [|c t].
  - destruct (ascii_words_ne b r Eb) as (w & ws & H). exists [b :: w], ws. split; [done|]. cbn [ascii_words]. rewrite Eb.
    constructor; [by exists w|constructor].
  - cbn [app] in *. destruct (is_ascii_space c) eqn:Ec.
    + assert (Hs : forall x, ascii_words (b :: c :: x) = [b] :: ascii_words (c :: x)) by (intros x; cbn [ascii_words]; by rewrite Eb, Ec).
      rewrite !Hs. destruct IH as (ws & rest & -> & Hf). exists ([b] :: ws), rest. split; [done|by constructor].
    + assert (Hs : forall x v vs, ascii_words (c :: x) = v :: vs -> ascii_words (b :: c :: x) = (b :: v) :: vs).
      { intros x v vs H. cbn [ascii_words] in H |- *. rewrite Eb, Ec. rewrite Ec in H. by rewrite H. }
      destruct (ascii_words_ne c t Ec) as (w & ws & Hw), (ascii_words_ne c (t ++ r) Ec) as (w' & ws' & Hw').
      rewrite (Hs _ _ _ Hw), (Hs _ _ _ Hw'). rewrite Hw, Hw' in IH. destruct IH as (us & rest & E & Hf).
      inversion Hf as [|? u ? us' Hp Hf']; subst. injection E as <- ->. exists ((b :: c :: w') :: us'), rest.
      split; [done|]. constructor; [by apply prefix_cons|done].
Qed.

Lemma strip_suffix_of ws n s : exists k, strip ws n s = drop k s.
Proof.
  revert s. induction n as [|n IH]; intros s; cbn [strip]; [by exists 0%nat|]. destruct (find _ ws) as [w|]; [|by exists 0%nat].
  destruct (IH (drop (length w) s)) as [k ->]. rewrite drop_drop. by eexists.
Qed.

Lemma trim_end_prefix s : exists r, s = trim_end s ++ r.
Proof.
  unfold trim_end. destruct (strip_suffix_of (reverse <$> white_space) (length s) (reverse s)) as [k ->].
  exists (reverse (take k (reverse s))). rewrite <- reverse_app, take_drop. by rewrite reverse_involutive.
Qed.

Lemma strip_prefix_mono p w w' v : w `prefix_of` w' -> strip_prefix p w = Some v -> exists v', strip_prefix p w' = Some v'.
Proof.
  intros [r ->] ->%strip_prefix_spec. exists (v ++ r). apply strip_prefix_spec. by rewrite (assoc_L (++)).
Qed.

Lemma parse_rdinit_None s : parse_rdinit s = None <-> forall w, w ∈ ascii_words s -> strip_prefix RDINIT w = None.
Proof.
  unfold parse_rdinit. induction (ascii_words s) as [|w ws IH]; [by split; [intros _ ? ?%elem_of_nil|]|]. cbn [omap list_omap].
  destruct (strip_prefix RDINIT w) as [v|] eqn:E.
  - split; [done|]. intros H. specialize (H w ltac:(by left)). congruence.
  - rewrite IH. split; [intros H x [->|Hx]%elem_of_cons; auto|intros H x Hx; apply H; by right].
Qed.

Lemma parse_rdinit_trim s : parse_rdinit s = None -> parse_rdinit (trim_end s) = None.
Proof.
  destruct (trim_end_prefix s) as [r Hr]. rewrite !parse_rdinit_None. intros H w Hw.
  destruct (ascii_words_prefix (trim_end s) r) as (ws & rest & E & Hf). rewrite <- Hr in E.
  destruct (strip_prefix RDINIT w) as [v|] eqn:Ev; [|done]. apply list_elem_of_lookup in Hw as [i Hi].
  destruct (Forall2_lookup_l _ _ _ _ _ Hf Hi) as (w' & Hw' & Hp). destruct (strip_prefix_mono _ _ _ _ Hp Ev) as [v' Ev'].
  rewrite (H w') in Ev'; [done|]. rewrite E. apply elem_of_app. left. by eapply list_elem_of_lookup_2.
Qed.

(** The kernel logs to the serial port, and keeps the consoles it was given. *)
Lemma serial_console_there c :
  SERIAL_CONSOLE ∈ ascii_words (ensure_serial_console c) /\ ensure_serial_console (ensure_serial_console c) = ensure_serial_console c /\
  (SERIAL_CONSOLE ∉ ascii_words c -> ascii_words (ensure_serial_console c) = ascii_words (trim_end c) ++ [SERIAL_CONSOLE]).
Proof.
  assert (Hadd : ascii_words (trim_end c ++ [x20] ++ SERIAL_CONSOLE) = ascii_words (trim_end c) ++ [SERIAL_CONSOLE]).
  { change ([x20] ++ SERIAL_CONSOLE) with (x20 :: SERIAL_CONSOLE). by rewrite ascii_words_app. }
  assert (Hin : SERIAL_CONSOLE ∈ ascii_words (ensure_serial_console c)).
  { unfold ensure_serial_console. case_bool_decide as H; [done|]. rewrite Hadd. apply elem_of_app. right. by left. }
  split_and!; [done| |].
  - unfold ensure_serial_console at 1. by rewrite bool_decide_true.
  - intros H. unfold ensure_serial_console. by rewrite bool_decide_false.
Qed.

(** The first [rdinit=] of the line that is booted with names the agent unless
    the line named something itself. *)
Lemma with_rdinit_names c : parse_rdinit (with_rdinit c) = Some (default OVERLAY_AGENT_PATH (parse_rdinit c)).
Proof.
  unfold with_rdinit. destruct (parse_rdinit c) as [v|] eqn:E; [done|]. apply parse_rdinit_trim in E.
  change ([x20] ++ RDINIT ++ OVERLAY_AGENT_PATH) with (x20 :: RDINIT ++ OVERLAY_AGENT_PATH).
  unfold parse_rdinit in *. rewrite ascii_words_app, omap_app. by destruct (omap _ (ascii_words (trim_end c))).
Qed.

(** * Option strings *)

Definition COMMA : byte := x2c.

(** [opt_value_str]: a comma is doubled. *)
Definition opt_value (s : bytes) : bytes := s ≫= fun b => if decide (b = COMMA) then [COMMA; COMMA] else [b].

(** QEMU's rule for the value of an argument: options are split at a comma,
    and two commas are one that belongs to the option. *)
Definition push (b : byte) (os : list bytes) : list bytes := match os with o :: os => (b :: o) :: os | [] => [[b]] end.

Fixpoint options (s : bytes) : list bytes :=
  match s with
  | [] => [[]]
  | b :: rest =>
      if decide (b = COMMA) then
        match rest with
        | c :: rest' => if decide (c = COMMA) then push COMMA (options rest') else [] :: options rest
        | [] => [] :: options rest
        end
      else push b (options rest)
  end.

Definition option_value (key : bytes) (os : list bytes) : option bytes := head (omap (strip_prefix (key ++ bytes_of "=")) os).

Definition prepend (v : bytes) (os : list bytes) : list bytes := foldr push os v.

Lemma options_ne s : options s <> [].
Proof.
  assert (Hp : forall b os, push b os <> []) by (by intros b []).
  destruct s as [|b [|c s]]; cbn [options]; [done| |]; repeat case_decide; done || apply Hp.
Qed.

Lemma prepend_cons v o os : prepend v (o :: os) = (v ++ o) :: os.
Proof. induction v as [|b v IH]; [done|]. cbn [prepend foldr] in *. unfold prepend in IH. by rewrite IH. Qed.

Lemma options_value v rest : options (opt_value v ++ rest) = prepend v (options rest).
Proof.
  induction v as [|b v IH]; [done|]. unfold opt_value in *. cbn [mbind list_bind app]. case_decide as Hb.
  - subst b. cbn [app options]. rewrite !decide_True by done. cbn [prepend foldr]. f_equal. exact IH.
  - cbn [app options]. rewrite decide_False by done. cbn [prepend foldr]. f_equal. exact IH.
Qed.

Definition plain (s : bytes) : Prop := COMMA ∉ s.

Lemma opt_value_plain s : plain s -> opt_value s = s.
Proof.
  unfold plain, opt_value. induction s as [|b s IH]; [done|]. intros [Hb Hs]%not_elem_of_cons. cbn [mbind list_bind].
  rewrite decide_False by done. simpl. f_equal. by apply IH.
Qed.

(** The value of the first option, with what follows it. *)
Lemma options_cons v b rest : b <> COMMA -> options (opt_value v ++ COMMA :: b :: rest) = v :: options (b :: rest).
Proof.
  intros Hb. rewrite options_value. change (options (COMMA :: b :: rest)) with
    (if decide (b = COMMA) then push COMMA (options rest) else [] :: options (b :: rest)).
  rewrite decide_False by done. rewrite prepend_cons. by rewrite (right_id_L [] (++)).
Qed.

Lemma options_last v : options (opt_value v) = [v].
Proof. rewrite <- (right_id_L [] (++) (opt_value v)), options_value. cbn [options]. rewrite prepend_cons. by rewrite (right_id_L [] (++)). Qed.

(** * Values *)

(** [memory_to_qemu_arg]. *)
Definition memory_to_qemu_arg (n : Z) : bytes := bytes_of (pretty (Z.max 1 (n / (1024 * 1024))) +:+ "M").

Definition fnv1a (s : bytes) : Z :=
  foldl (fun h b => wrap u64_max (Z.lxor h (byte_to_Z b) * FNV_PRIME)) FNV_OFFSET s.

Definition hex2 (n : Z) : string := hex 2 (wrap u8_max n) "".

Definition nic_mac_for (nic : bytes) : bytes :=
  let h := fnv1a nic in
  bytes_of ("52:54:00:" +:+ hex2 (Z.shiftr h 16) +:+ ":" +:+ hex2 (Z.shiftr h 8) +:+ ":" +:+ hex2 h).

(** Broken-down time, as [gmtime_r] fills it in. *)
Record tm := Tm { tm_year : Z; tm_mon : Z; tm_mday : Z; tm_hour : Z; tm_min : Z; tm_sec : Z }.

(** [{:0w}] for what is not negative. *)
Definition zero_padded (width : nat) (n : Z) : string :=
  let s := pretty n in String.string_of_list_ascii (replicate (width - String.length s) (Ascii.ascii_of_nat 48)) +:+ s.

Section commands.
Context (gmtime : Z -> option tm).

Definition format_unix_ns_iso8601 (ns : Z) : option string :=
  if ns <? 0 then None
  else
    t ← gmtime (ns / 1000000000);
    let year := tm_year t + 1900 in
    if (1970 <=? year) && (year <=? 9999)
    then Some (zero_padded 4 year +:+ "-" +:+ zero_padded 2 (tm_mon t + 1) +:+ "-" +:+ zero_padded 2 (tm_mday t) +:+ "T" +:+
               zero_padded 2 (tm_hour t) +:+ ":" +:+ zero_padded 2 (tm_min t) +:+ ":" +:+ zero_padded 2 (tm_sec t))
    else None.

(** * The launch *)

(** [file] is already escaped for an option. *)
Record launch_disk := LaunchDisk { ld_id : bytes; ld_file : bytes; ld_readonly : bool; ld_mediated : bool }.

Record launch_nic := LaunchNic { ln_bridge : string; ln_id : bytes; ln_mac : option bytes }.

Record launch_plan := QemuLaunchPlan {
  qp_binary : bytes;
  qp_vm_name : string;
  qp_kernel : bytes;
  qp_initrd : bytes;
  qp_cmdline : bytes;
  qp_cid : Z;
  qp_memory_bytes : Z;
  qp_cpus : Z;
  qp_qmp_socket : bytes;
  qp_console_log : bytes;
  qp_console_socket : bytes;
  qp_nics : list launch_nic;
  qp_disks : list launch_disk;
  qp_ksm_enabled : bool;
  qp_rng_seed : option Z;
  qp_initial_time_ns : option Z;
  qp_incoming : option bytes }.

Record command := Command { program : bytes; arguments : list bytes }.

Definition number (n : Z) : bytes := bytes_of (pretty n).

Definition memory_object (mem : bytes) (ksm : bool) : list bytes :=
  [bytes_of "-object"; bytes_of "memory-backend-ram,id=mem,size=" ++ mem ++ bytes_of ",merge=" ++ bytes_of (if ksm then "on" else "off")].

Definition boot_args (kernel initrd cmdline : bytes) : list bytes :=
  [bytes_of "-kernel"; kernel; bytes_of "-initrd"; initrd; bytes_of "-append"; cmdline].

Definition machine_args (mem : bytes) (cpus : Z) : list bytes :=
  [bytes_of "-M"; bytes_of "q35,accel=kvm,memory-backend=mem"; bytes_of "-cpu"; bytes_of "host";
   bytes_of "-m"; mem; bytes_of "-smp"; number cpus; bytes_of "-nodefaults"; bytes_of "-no-reboot"].

Definition device (v : bytes) : list bytes := [bytes_of "-device"; v].

Definition nic_args (vm_name : string) (n : launch_nic) : list bytes :=
  [bytes_of "-netdev"; bytes_of "tap,id=" ++ ln_id n ++ bytes_of ",ifname=" ++ bytes_of (tap_name_for_vm_on_bridge vm_name (ln_bridge n)) ++
                       bytes_of ",script=no,downscript=no"] ++
  device (bytes_of "virtio-net-pci,netdev=" ++ ln_id n ++ bytes_of ",mac=" ++ default (nic_mac_for (ln_id n)) (ln_mac n)).

Definition drive_value (d : launch_disk) : bytes :=
  bytes_of "if=none,id=" ++ ld_id d ++ bytes_of "-node,format=raw,file=" ++ ld_file d ++
  (if ld_mediated d then bytes_of ",cache=none" else []) ++ (if ld_readonly d then bytes_of ",readonly=on" else []).

Definition port_value (name : bytes) (chassis : nat) : bytes :=
  bytes_of "pcie-root-port,id=" ++ name ++ bytes_of ",chassis=" ++ number (Z.of_nat chassis).

Definition blk_value (id : bytes) : bytes :=
  bytes_of "virtio-blk-pci,drive=" ++ id ++ bytes_of "-node,id=" ++ id ++ bytes_of ",bus=" ++ id ++ bytes_of "-port".

Definition disk_args (index : nat) (d : launch_disk) : list bytes :=
  [bytes_of "-drive"; drive_value d] ++ device (port_value (ld_id d ++ bytes_of "-port") (index + 1)) ++ device (blk_value (ld_id d)).

Definition port_args (disks : list launch_disk) : list bytes :=
  concat (imap (fun i name => device (port_value (bytes_of name) (length disks + i + 1))) (port_names (text <$> (ld_id <$> disks)))).

Definition build_qemu_command (p : launch_plan) : command :=
  let mem := memory_to_qemu_arg (qp_memory_bytes p) in
  Command (qp_binary p)
    (machine_args mem (qp_cpus p) ++ [bytes_of "-nographic"] ++
     boot_args (qp_kernel p) (qp_initrd p) (qp_cmdline p) ++ memory_object mem (qp_ksm_enabled p) ++
     device (bytes_of "vhost-vsock-pci,guest-cid=" ++ number (qp_cid p)) ++
     [bytes_of "-qmp"; bytes_of "unix:" ++ qp_qmp_socket p ++ bytes_of ",server=on,wait=off"] ++
     [bytes_of "-chardev"; bytes_of "socket,id=conserial0,path=" ++ qp_console_socket p ++ bytes_of ",server=on,wait=off,logfile=" ++
                           qp_console_log p ++ bytes_of ",logappend=on"] ++
     [bytes_of "-serial"; bytes_of "chardev:conserial0"] ++
     match qp_initial_time_ns p ≫= format_unix_ns_iso8601 with
     | Some iso => [bytes_of "-rtc"; bytes_of ("base=" +:+ iso +:+ ",clock=host")]
     | None => []
     end ++
     match qp_rng_seed p with
     | Some seed => [bytes_of "-fw_cfg"; bytes_of ("name=opt/provium/rng-seed,string=" +:+ hex 16 seed "")]
     | None => []
     end ++
     match qp_incoming p with Some snap => [bytes_of "-incoming"; bytes_of "file:" ++ snap] | None => [] end ++
     (qp_nics p ≫= nic_args (qp_vm_name p)) ++ concat (imap disk_args (qp_disks p)) ++ port_args (qp_disks p)).

(** * The console boot *)

Record interactive_plan := InteractiveLaunchPlan {
  ip_binary : bytes; ip_kernel : bytes; ip_initrd : bytes; ip_cmdline : bytes;
  ip_memory_bytes : Z; ip_cpus : Z; ip_cid : option Z; ip_ksm_enabled : bool; ip_extra_args : list bytes }.

Definition build_interactive_qemu_command (p : interactive_plan) : command :=
  let mem := memory_to_qemu_arg (ip_memory_bytes p) in
  Command (ip_binary p)
    (machine_args mem (ip_cpus p) ++ [bytes_of "-display"; bytes_of "none"] ++ memory_object mem (ip_ksm_enabled p) ++
     boot_args (ip_kernel p) (ip_initrd p) (ensure_serial_console (ip_cmdline p)) ++ [bytes_of "-serial"; bytes_of "mon:stdio"] ++
     match ip_cid p with Some cid => device (bytes_of "vhost-vsock-pci,guest-cid=" ++ number cid) | None => [] end ++
     ip_extra_args p).

(** * Reading it *)

(** The arguments are flags, three of them alone and the others with a value. *)
Definition alone : list bytes := [bytes_of "-nodefaults"; bytes_of "-no-reboot"; bytes_of "-nographic"].

Fixpoint read_args (l : list bytes) : list (bytes * bytes) :=
  match l with
  | [] => []
  | flag :: rest =>
      if bool_decide (flag ∈ alone) then read_args rest
      else match rest with v :: rest => (flag, v) :: read_args rest | [] => [] end
  end.

Definition values_of (flag : bytes) (l : list (bytes * bytes)) : list bytes :=
  omap (fun a => if decide (a.1 = flag) then Some a.2 else None) l.

(** Arguments that are read the same wherever they stand: complete pairs. *)
Definition complete (a : list bytes) : Prop := forall rest, read_args (a ++ rest) = read_args a ++ read_args rest.

Lemma complete_app a b : complete a -> complete b -> complete (a ++ b).
Proof. intros Ha Hb rest. by rewrite <- (assoc_L (++)), Ha, Hb, Ha, (assoc_L (++)). Qed.

Lemma complete_nil : complete [].
Proof. by intros rest. Qed.

Lemma complete_pair flag v : bool_decide (flag ∈ alone) = false -> complete [flag; v].
Proof. intros Hf rest. cbn [app read_args]. by rewrite Hf. Qed.

Lemma complete_alone flag : bool_decide (flag ∈ alone) = true -> complete [flag].
Proof. intros Hf rest. cbn [app read_args]. by rewrite Hf. Qed.

Lemma complete_concat l : Forall complete l -> complete (concat l).
Proof. induction 1; [apply complete_nil|by apply complete_app]. Qed.

Lemma read_concat l : Forall complete l -> read_args (concat l) = concat (read_args <$> l).
Proof. induction 1 as [|a l Ha _ IH]; [done|]. cbn [concat fmap list_fmap]. by rewrite Ha, IH. Qed.

Lemma values_app flag a b : values_of flag (a ++ b) = values_of flag a ++ values_of flag b.
Proof. apply omap_app. Qed.

Lemma values_concat flag l : values_of flag (concat l) = concat (values_of flag <$> l).
Proof. induction l as [|a l IH]; [done|]. cbn [concat fmap list_fmap]. by rewrite values_app, IH. Qed.

(** What stands before the cards and disks. *)
Definition head_args (p : launch_plan) : list (list bytes) :=
  let mem := memory_to_qemu_arg (qp_memory_bytes p) in
  [machine_args mem (qp_cpus p); [bytes_of "-nographic"]; boot_args (qp_kernel p) (qp_initrd p) (qp_cmdline p);
   memory_object mem (qp_ksm_enabled p); device (bytes_of "vhost-vsock-pci,guest-cid=" ++ number (qp_cid p));
   [bytes_of "-qmp"; bytes_of "unix:" ++ qp_qmp_socket p ++ bytes_of ",server=on,wait=off"];
   [bytes_of "-chardev"; bytes_of "socket,id=conserial0,path=" ++ qp_console_socket p ++ bytes_of ",server=on,wait=off,logfile=" ++
                         qp_console_log p ++ bytes_of ",logappend=on"];
   [bytes_of "-serial"; bytes_of "chardev:conserial0"];
   match qp_initial_time_ns p ≫= format_unix_ns_iso8601 with
   | Some iso => [bytes_of "-rtc"; bytes_of ("base=" +:+ iso +:+ ",clock=host")]
   | None => []
   end;
   match qp_rng_seed p with
   | Some seed => [bytes_of "-fw_cfg"; bytes_of ("name=opt/provium/rng-seed,string=" +:+ hex 16 seed "")]
   | None => []
   end;
   match qp_incoming p with Some snap => [bytes_of "-incoming"; bytes_of "file:" ++ snap] | None => [] end].

Lemma build_split p : arguments (build_qemu_command p) =
  concat (head_args p) ++ concat (nic_args (qp_vm_name p) <$> qp_nics p) ++ concat (imap disk_args (qp_disks p)) ++ port_args (qp_disks p).
Proof.
  unfold build_qemu_command, head_args. cbn [arguments concat]. rewrite (right_id_L [] (++)), <- !(assoc_L (++)).
  do 11 f_equal. f_equal. induction (qp_nics p) as [|n ns IH]; [done|]. cbn [mbind list_bind fmap list_fmap concat]. by rewrite IH.
Qed.

Lemma device_complete v : complete (device v).
Proof. by apply complete_pair. Qed.

Hint Resolve complete_app complete_nil device_complete : core.

Lemma head_complete p : Forall complete (head_args p).
Proof.
  unfold head_args. repeat (apply Forall_cons; split); try apply Forall_nil; auto.
  all: try (destruct (_ ≫= _)); try (destruct (qp_rng_seed p)); try (destruct (qp_incoming p)).
  all: first [done|by apply complete_pair|intros rest; reflexivity].
Qed.

Lemma nic_complete vm n : complete (nic_args vm n).
Proof. unfold nic_args. apply complete_app; [by apply complete_pair|done]. Qed.

Lemma disk_complete i d : complete (disk_args i d).
Proof. unfold disk_args. apply complete_app; [by apply complete_pair|apply complete_app; done]. Qed.

Definition DRIVE : bytes := bytes_of "-drive".
Definition DEVICE : bytes := bytes_of "-device".

Lemma head_values p :
  values_of DRIVE (concat (read_args <$> head_args p)) = [] /\
  values_of DEVICE (concat (read_args <$> head_args p)) = [bytes_of "vhost-vsock-pci,guest-cid=" ++ number (qp_cid p)].
Proof.
  rewrite !values_concat. unfold head_args.
  destruct (qp_initial_time_ns p ≫= format_unix_ns_iso8601), (qp_rng_seed p), (qp_incoming p); split; reflexivity.
Qed.

Lemma concat_imap_map {A B} (f : nat -> A -> list B) g l : (forall i x, f i x = g x) -> concat (imap f l) = concat (g <$> l).
Proof. intros H. revert f H. induction l as [|x l IH]; intros f H; [done|]. rewrite imap_cons. cbn [concat fmap list_fmap]. rewrite H, (IH (f ∘ S)); [done|]. intros i y. apply H. Qed.

Lemma concat_singles {A B} (f : A -> B) l : concat ((fun x => [f x]) <$> l) = f <$> l.
Proof. induction l as [|x l IH]; [done|]. cbn [fmap list_fmap concat] in *. by rewrite IH. Qed.

Lemma fmap_imap_eq {A B C} (g : B -> C) (f : nat -> A -> B) l : g <$> imap f l = imap (fun i x => g (f i x)) l.
Proof. apply list_eq. intros i. rewrite list_lookup_fmap, !list_lookup_imap. by destruct (l !! i). Qed.

Lemma imap_concat_complete {A} (f : nat -> A -> list bytes) l : (forall i x, complete (f i x)) -> Forall complete (imap f l).
Proof. intros H. apply Forall_lookup. intros i a Ha. apply list_lookup_imap_Some in Ha as (x & _ & ->). apply H. Qed.

(** The drives and devices of a launch, in order. *)
Lemma launch_values p :
  let a := read_args (arguments (build_qemu_command p)) in
  values_of DRIVE a = drive_value <$> qp_disks p /\
  values_of DEVICE a =
    [bytes_of "vhost-vsock-pci,guest-cid=" ++ number (qp_cid p)] ++
    ((fun n => bytes_of "virtio-net-pci,netdev=" ++ ln_id n ++ bytes_of ",mac=" ++ default (nic_mac_for (ln_id n)) (ln_mac n)) <$> qp_nics p) ++
    concat (imap (fun i d => [port_value (ld_id d ++ bytes_of "-port") (i + 1); blk_value (ld_id d)]) (qp_disks p)) ++
    imap (fun i name => port_value (bytes_of name) (length (qp_disks p) + i + 1)) (port_names (text <$> (ld_id <$> qp_disks p))).
Proof.
  cbv zeta. rewrite build_split.
  assert (Hn : Forall complete (nic_args (qp_vm_name p) <$> qp_nics p)) by (apply Forall_fmap, Forall_true; intros; apply nic_complete).
  assert (Hd : Forall complete (imap disk_args (qp_disks p))) by (apply imap_concat_complete, disk_complete).
  assert (Hp : Forall complete (imap (fun i name => device (port_value (bytes_of name) (length (qp_disks p) + i + 1))) (port_names (text <$> (ld_id <$> qp_disks p))))).
  { apply imap_concat_complete. done. }
  rewrite (complete_concat _ (head_complete p)), (complete_concat _ Hn), (complete_concat _ Hd).
  unfold port_args. rewrite (read_concat _ (head_complete p)), (read_concat _ Hn), (read_concat _ Hd), (read_concat _ Hp).
  rewrite !values_app. destruct (head_values p) as [-> ->].
  rewrite !values_concat, !fmap_imap_eq, <- !list_fmap_compose. split.
  - rewrite (concat_imap_map (fun i d => values_of DRIVE (read_args (disk_args i d))) (fun d => [drive_value d])) by done.
    rewrite (concat_imap_map (fun i (x : string) => values_of DRIVE (read_args (device (port_value (bytes_of x) (length (qp_disks p) + i + 1))))) (fun _ => [])) by done.
    assert (Hnil : forall {A} (l : list A), concat ((fun _ => []) <$> l) = [] :> list bytes) by (intros A l; by induction l).
    rewrite (Hnil _ (port_names _)).
    assert (concat (values_of DRIVE ∘ read_args ∘ nic_args (qp_vm_name p) <$> qp_nics p) = []) as -> by (by induction (qp_nics p)).
    rewrite (right_id_L [] (++)). cbn [app]. by rewrite concat_singles.
  - f_equal. f_equal; [|f_equal].
    + apply concat_singles.
    + clear. generalize (port_names (text <$> (ld_id <$> qp_disks p))). intros l. generalize (length (qp_disks p)). revert l.
      assert (H : forall (f : nat -> string -> bytes) l, concat (imap (fun i x => values_of DEVICE (read_args (device (f i x)))) l) = imap f l).
      { intros f l. revert f. induction l as [|x l IH]; intros f; [done|]. rewrite !imap_cons. cbn [concat]. rewrite <- (IH (f ∘ S)). done. }
      intros l k. apply (H (fun i name => port_value (bytes_of name) (k + i + 1))).
Qed.

(** * What the guest sees *)

Definition BLK : bytes := bytes_of "virtio-blk-pci".
Definition ROOT_PORT : bytes := bytes_of "pcie-root-port".
Definition KEY_ID : bytes := bytes_of "id".

(** The disk behind a block device: its id, and the file of the drive it names,
    read only or not and past the cache of the host or not, if there is such a
    drive and the bus it names is a port. *)
Definition guest_disk (a : list (bytes * bytes)) (dev : list bytes) : option (bytes * bytes * bool * bool) :=
  name ← option_value KEY_ID dev;
  wanted ← option_value (bytes_of "drive") dev;
  bus ← option_value (bytes_of "bus") dev;
  drive ← find (fun o => bool_decide (option_value KEY_ID o = Some wanted)) (options <$> values_of DRIVE a);
  port ← find (fun o => bool_decide (head o = Some ROOT_PORT) && bool_decide (option_value KEY_ID o = Some bus)) (options <$> values_of DEVICE a);
  file ← option_value (bytes_of "file") drive;
  Some (name, file, bool_decide (bytes_of "readonly=on" ∈ drive), bool_decide (bytes_of "cache=none" ∈ drive)).

(** In the order of the devices, which is the order the guest names them in. *)
Definition guest_disks (a : list (bytes * bytes)) : list (option (bytes * bytes * bool * bool)) :=
  guest_disk a <$> filter (fun o => head o = Some BLK) (options <$> values_of DEVICE a).

Definition device_ids (a : list (bytes * bytes)) : list bytes := omap (option_value KEY_ID) (options <$> values_of DEVICE a).

Lemma plain_const s : bool_decide (COMMA ∉ bytes_of s) = true -> plain (bytes_of s).
Proof. apply bool_decide_eq_true. Qed.

Lemma opt_value_app a b : opt_value (a ++ b) = opt_value a ++ opt_value b.
Proof. unfold opt_value. apply bind_app. Qed.

Lemma plain_app a b : plain (a ++ b) <-> plain a /\ plain b.
Proof. unfold plain. rewrite elem_of_app. tauto. Qed.

(** Options put together again. *)
Fixpoint join (o : bytes) (os : list bytes) : bytes :=
  match os with [] => opt_value o | o' :: os => opt_value o ++ COMMA :: join o' os end.

Definition starts_well (o : bytes) : Prop := exists b r, o = b :: r /\ b <> COMMA.

Lemma options_join o os : Forall starts_well os -> options (join o os) = o :: os.
Proof.
  intros Hos. revert o. induction Hos as [|o' os (b & r & -> & Hb) _ IH]; intros o; [apply options_last|].
  specialize (IH (b :: r)). cbn [join].
  assert (Hj : exists rest, join (b :: r) os = b :: rest).
  { unfold opt_value in *. destruct os; cbn [join]; unfold opt_value; cbn [mbind list_bind]; rewrite decide_False by done; by eexists. }
  destruct Hj as [rest Hj]. rewrite Hj in *. rewrite options_cons by done. by rewrite IH.
Qed.

Lemma starts_well_const s : match bytes_of s with b :: _ => bool_decide (b <> COMMA) | [] => false end = true -> forall r, starts_well (bytes_of s ++ r).
Proof. destruct (bytes_of s) as [|b l]; [done|]. intros Hb%bool_decide_eq_true r. by exists b, (l ++ r). Qed.

Lemma starts_well_word s : match bytes_of s with b :: _ => bool_decide (b <> COMMA) | [] => false end = true -> starts_well (bytes_of s).
Proof. intros H. rewrite <- (right_id_L [] (++) (bytes_of s)). by apply starts_well_const. Qed.

Hint Resolve starts_well_const starts_well_word : core.

Ltac well := repeat first [apply Forall_nil_2 | apply Forall_cons_2; [first [by apply starts_well_const | by apply starts_well_word] | ]].

Definition drive_of (id f : bytes) (ro med : bool) : list bytes :=
  [bytes_of "id=" ++ id ++ bytes_of "-node"; bytes_of "format=raw"; bytes_of "file=" ++ f] ++
  (if med then [bytes_of "cache=none"] else []) ++ (if ro then [bytes_of "readonly=on"] else []).

Lemma drive_options id f ro med : plain id ->
  options (drive_value (LaunchDisk id (opt_value f) ro med)) = bytes_of "if=none" :: drive_of id f ro med.
Proof.
  intros Hid. rewrite <- (options_join (bytes_of "if=none") (drive_of id f ro med)) by (unfold drive_of; destruct med, ro; cbn [app]; well).
  f_equal. unfold drive_value, drive_of. cbn [ld_id ld_file ld_readonly ld_mediated].
  destruct med, ro; cbn [app join]; rewrite !opt_value_app, (opt_value_plain id) by done; rewrite <- !(assoc_L (++)), ?(right_id_L [] (++)); reflexivity.
Qed.

Definition port_of (name : bytes) (chassis : nat) : list bytes := [bytes_of "id=" ++ name; bytes_of "chassis=" ++ number (Z.of_nat chassis)].

Lemma number_plain n : 0 <= n -> plain (number n).
Proof.
  intros Hn. unfold number, plain. destruct (pretty_value n Hn) as (ds & -> & _ & Hv). clear Hn.
  revert Hv. generalize 0. induction ds as [|d ds IH]; intros acc; [intros _ H%elem_of_nil; done|]. cbn [value_from].
  destruct (digit 10 d) as [x|] eqn:Ed; [|done]. intros Hv [<-|Hin]%elem_of_cons; [done|]. by apply (IH _ Hv).
Qed.

Lemma port_options name chassis : plain name -> options (port_value name chassis) = ROOT_PORT :: port_of name chassis.
Proof.
  intros Hn. rewrite <- (options_join ROOT_PORT (port_of name chassis)) by (unfold port_of; well).
  f_equal. unfold port_value, port_of. cbn [join]. rewrite !opt_value_app, (opt_value_plain name), (opt_value_plain (number _)) by (done || (apply number_plain; lia)).
  rewrite <- !(assoc_L (++)). reflexivity.
Qed.

Definition blk_of (id : bytes) : list bytes :=
  [bytes_of "drive=" ++ id ++ bytes_of "-node"; bytes_of "id=" ++ id; bytes_of "bus=" ++ id ++ bytes_of "-port"].

Lemma blk_options id : plain id -> options (blk_value id) = BLK :: blk_of id.
Proof.
  intros Hid. rewrite <- (options_join BLK (blk_of id)) by (unfold blk_of; well).
  f_equal. unfold blk_value, blk_of. cbn [join]. rewrite !opt_value_app, (opt_value_plain id) by done.
  rewrite <- !(assoc_L (++)). reflexivity.
Qed.

Lemma nic_head id rest : head (options (bytes_of "virtio-net-pci,netdev=" ++ id ++ rest)) = Some (bytes_of "virtio-net-pci").
Proof.
  change (bytes_of "virtio-net-pci,netdev=" ++ id ++ rest) with (opt_value (bytes_of "virtio-net-pci") ++ COMMA :: "n"%byte :: (bytes_of "etdev=" ++ id ++ rest)).
  by rewrite options_cons.
Qed.

Lemma find_exists {A} (P : A -> bool) l x : x ∈ l -> P x = true -> exists y, find P l = Some y.
Proof.
  induction 1 as [y l|y z l _ IH]; intros Hx; cbn [find]; [rewrite Hx; by eexists|]. destruct (P z); [by eexists|by apply IH].
Qed.

Lemma find_fmap_unique {A B} (f : A -> B) (P : B -> bool) l x :
  x ∈ l -> P (f x) = true -> (forall y, y ∈ l -> P (f y) = true -> y = x) -> find P (f <$> l) = Some (f x).
Proof.
  induction 1 as [y l|y z l Hy IH]; intros Hx Hu; cbn [fmap list_fmap find]; [by rewrite Hx|].
  destruct (P (f z)) eqn:E; [by rewrite (Hu z ltac:(by left) E)|]. apply IH; [done|]. intros w Hw. apply Hu. by right.
Qed.

(** A disk as it was asked for: its id, file, whether it is read only, and
    whether it is mediated. *)
Definition wanted_disk : Type := bytes * bytes * bool * bool.
Definition wd_id (d : wanted_disk) : bytes := d.1.1.1.
Definition wd_drive (d : wanted_disk) : list bytes := bytes_of "if=none" :: drive_of (wd_id d) d.1.1.2 d.1.2 d.2.
Definition launched (d : wanted_disk) : launch_disk := LaunchDisk (wd_id d) (opt_value d.1.1.2) d.1.2 d.2.

Lemma head_first v b rest : opt_value v = v -> b <> COMMA -> head (options (v ++ COMMA :: b :: rest)) = Some v.
Proof. intros Hv Hb. rewrite <- Hv at 1. by rewrite options_cons. Qed.

Lemma not_blk_port name c : head (options (port_value name c)) <> Some BLK.
Proof.
  unfold port_value. change (bytes_of "pcie-root-port,id=" ++ ?r) with (ROOT_PORT ++ COMMA :: "i"%byte :: bytes_of "d=" ++ r).
  by rewrite head_first.
Qed.

Lemma not_blk_vsock n : head (options (bytes_of "vhost-vsock-pci,guest-cid=" ++ n)) <> Some BLK.
Proof.
  change (bytes_of "vhost-vsock-pci,guest-cid=" ++ n) with (bytes_of "vhost-vsock-pci" ++ COMMA :: "g"%byte :: bytes_of "uest-cid=" ++ n).
  by rewrite head_first.
Qed.

Lemma filter_none {A} (P : A -> Prop) `{!forall x, Decision (P x)} l : Forall (fun x => ~ P x) l -> filter P l = [].
Proof. induction 1 as [|x l Hx _ IH]; [done|]. by rewrite filter_cons_False. Qed.

Lemma launch_blocks p ds : qp_disks p = launched <$> ds -> Forall (fun d => plain (wd_id d)) ds ->
  filter (fun o => head o = Some BLK) (options <$> values_of DEVICE (read_args (arguments (build_qemu_command p)))) =
    (fun d => BLK :: blk_of (wd_id d)) <$> ds.
Proof.
  intros Hp Hplain. destruct (launch_values p) as [_ ->]. rewrite !fmap_app, !filter_app, fmap_cons.
  rewrite (filter_none _ [options (_ ++ number _)]) by (constructor; [apply not_blk_vsock|constructor]).
  rewrite (filter_none _ (options <$> (_ <$> qp_nics p))).
  2:{ rewrite <- list_fmap_compose. apply Forall_fmap, Forall_true. intros n. unfold compose. by rewrite nic_head. }
  rewrite (filter_none _ (options <$> imap _ (port_names _))).
  2:{ rewrite fmap_imap_eq. apply Forall_lookup. intros i o Ho. apply list_lookup_imap_Some in Ho as (x & _ & ->). apply not_blk_port. }
  rewrite (right_id_L [] (++)). cbn [app]. rewrite Hp.
  enough (H : forall k, filter (fun o => head o = Some BLK) (options <$> concat (imap (fun i d => [port_value (ld_id d ++ bytes_of "-port") (i + k); blk_value (ld_id d)]) (launched <$> ds))) =
     (fun d => BLK :: blk_of (wd_id d)) <$> ds) by apply H.
  clear Hp. induction Hplain as [|d ds Hd _ IH]; intros k; [done|]. rewrite fmap_cons, imap_cons. cbn [concat]. rewrite fmap_app, filter_app.
  cbn [launched ld_id fmap list_fmap].
  rewrite filter_cons_False by apply not_blk_port. rewrite (blk_options (wd_id d)) by done.
  rewrite filter_cons_True by done. cbn [app filter list_filter]. f_equal.
  rewrite <- (IH (S k)). do 3 f_equal. apply imap_ext. intros i x _. unfold compose. by replace (S i + k)%nat with (i + S k)%nat by lia.
Qed.

Lemma drive_flags id f ro med :
  bool_decide (bytes_of "readonly=on" ∈ bytes_of "if=none" :: drive_of id f ro med) = ro /\
  bool_decide (bytes_of "cache=none" ∈ bytes_of "if=none" :: drive_of id f ro med) = med.
Proof.
  assert (Hno : forall x l, Forall (fun y => x <> y) l -> x ∉ (l : list bytes)).
  { intros x l Hl Hx. rewrite Forall_forall in Hl. by apply (Hl x). }
  split.
  - destruct ro; [apply bool_decide_eq_true_2|apply bool_decide_eq_false_2].
    + unfold drive_of. rewrite app_comm_cons. apply elem_of_app. right. apply elem_of_app. right. by left.
    + apply Hno. unfold drive_of. destruct med; cbn [app]; repeat constructor; discriminate.
  - destruct med; [apply bool_decide_eq_true_2|apply bool_decide_eq_false_2].
    + unfold drive_of. rewrite app_comm_cons. apply elem_of_app. right. apply elem_of_app. left. by left.
    + apply Hno. unfold drive_of. destruct ro; cbn [app]; repeat constructor; discriminate.
Qed.

Lemma nodup_fmap_inj {A B} (f : A -> B) l x y : NoDup (f <$> l) -> x ∈ l -> y ∈ l -> f x = f y -> x = y.
Proof.
  intros Hnd [i Hi]%list_elem_of_lookup [j Hj]%list_elem_of_lookup E.
  assert (i = j) as ->; [|congruence]. apply (NoDup_lookup (f <$> l) i j (f x) Hnd); rewrite list_lookup_fmap; [by rewrite Hi|rewrite Hj; simpl; by rewrite E].
Qed.

Lemma launch_drives p ds : qp_disks p = launched <$> ds -> Forall (fun d => plain (wd_id d)) ds ->
  options <$> values_of DRIVE (read_args (arguments (build_qemu_command p))) = wd_drive <$> ds.
Proof.
  intros Hp Hplain. destruct (launch_values p) as [-> _]. rewrite Hp, <- !list_fmap_compose. apply list_fmap_ext.
  intros j x Hx%list_elem_of_lookup_2. unfold compose, launched. apply drive_options. rewrite Forall_forall in Hplain. by apply Hplain.
Qed.

Lemma launch_port p ds i d : qp_disks p = launched <$> ds -> Forall (fun d => plain (wd_id d)) ds -> ds !! i = Some d ->
  (ROOT_PORT :: port_of (wd_id d ++ bytes_of "-port") (i + 1)) ∈ options <$> values_of DEVICE (read_args (arguments (build_qemu_command p))).
Proof.
  intros Hp Hplain Hi. destruct (launch_values p) as [_ ->]. apply list_elem_of_fmap. exists (port_value (wd_id d ++ bytes_of "-port") (i + 1)). split.
  - symmetry. apply port_options, plain_app. split; [|by apply plain_const].
    rewrite Forall_lookup in Hplain. by apply (Hplain i).
  - rewrite !elem_of_app. right. right. left. apply list_elem_of_In, in_concat.
    exists [port_value (wd_id d ++ bytes_of "-port") (i + 1); blk_value (wd_id d)]. split; [|by left].
    apply list_elem_of_In, (list_elem_of_lookup_2 _ i). rewrite list_lookup_imap, Hp, list_lookup_fmap, Hi. done.
Qed.

Lemma is_port id c : bool_decide (head (ROOT_PORT :: port_of (id ++ bytes_of "-port") c) = Some ROOT_PORT) &&
  bool_decide (option_value KEY_ID (ROOT_PORT :: port_of (id ++ bytes_of "-port") c) = Some (id ++ bytes_of "-port")) = true.
Proof. apply andb_true_iff. split; by apply bool_decide_eq_true_2. Qed.

(** QEMU attaches the disks that were asked for. Reading the command line
    of a launch the way QEMU does, options split at commas that are not
    doubled, the block devices are exactly the disks, in order; each finds its
    drive by name, with the file as it was given whatever commas are in it,
    read only exactly if it should be and past the host's cache exactly if it
    is mediated, and sits on a port that is there. *)
Lemma guest_sees_disks p (ds : list wanted_disk) :
  qp_disks p = launched <$> ds -> Forall (fun d => plain (wd_id d)) ds -> NoDup (wd_id <$> ds) ->
  guest_disks (read_args (arguments (build_qemu_command p))) = Some <$> ds.
Proof.
  intros Hp Hplain Hnd. unfold guest_disks. rewrite (launch_blocks p ds Hp Hplain). rewrite <- list_fmap_compose.
  apply list_fmap_ext. intros i d Hi. pose proof (list_elem_of_lookup_2 _ _ _ Hi) as Hd. unfold compose, guest_disk.
  change (option_value KEY_ID (BLK :: blk_of (wd_id d))) with (Some (wd_id d)).
  change (option_value (bytes_of "drive") (BLK :: blk_of (wd_id d))) with (Some (wd_id d ++ bytes_of "-node")).
  change (option_value (bytes_of "bus") (BLK :: blk_of (wd_id d))) with (Some (wd_id d ++ bytes_of "-port")).
  cbn [mbind option_bind]. rewrite (launch_drives p ds Hp Hplain).
  rewrite (find_fmap_unique wd_drive _ ds d Hd).
  - cbn [mbind option_bind]. destruct (find_exists (fun o => bool_decide (head o = Some ROOT_PORT) && bool_decide (option_value KEY_ID o = Some (wd_id d ++ bytes_of "-port")))
      _ _ (launch_port p ds i d Hp Hplain Hi) (is_port (wd_id d) (i + 1))) as [port ->].
    cbn [mbind option_bind]. change (option_value (bytes_of "file") (wd_drive d)) with (Some d.1.1.2). cbn [mbind option_bind].
    destruct (drive_flags (wd_id d) d.1.1.2 d.1.2 d.2) as [H1 H2]. unfold wd_drive. rewrite H1, H2. by destruct d as [[[]]].
  - by apply bool_decide_eq_true_2.
  - intros y Hy E%bool_decide_eq_true. change (option_value KEY_ID (wd_drive y)) with (Some (wd_id y ++ bytes_of "-node")) in E.
    injection E as E%app_inv_tail. by apply (nodup_fmap_inj wd_id ds).
Qed.


(** ** Names *)

Lemma insert_fresh_plain n used name : plain (bytes_of name) -> plain (bytes_of (insert_fresh n used name).2).
Proof.
  revert name. induction n as [|n IH]; intros name Hn; cbn [insert_fresh]; [done|]. destruct (decide (name ∈ used)); [|done].
  apply IH. rewrite bytes_of_app. apply plain_app. split; [done|by apply plain_const].
Qed.

Lemma port_names_plain ids name : name ∈ port_names ids -> plain (bytes_of name).
Proof.
  unfold port_names. generalize (used_names ids). generalize 0%N. induction PORT_COUNT as [|n IH]; intros i used; cbn [names_from]; [by intros ?%elem_of_nil|].
  destruct (insert_fresh _ _ _) as [used' x] eqn:E. intros [->|Hin]%elem_of_cons; [|by apply IH in Hin].
  pose proof (insert_fresh_plain (S (size used)) used ("provium-hotplug-" +:+ pretty i)) as H. rewrite E in H. apply H.
  rewrite bytes_of_app. apply plain_app. split; [by apply plain_const|].
  pose proof (number_plain (Z.of_N i) ltac:(lia)) as Hp. unfold number in Hp. destruct i; exact Hp.
Qed.

Definition launch_ids (ds : list wanted_disk) : list bytes :=
  ((fun d => wd_id d ++ bytes_of "-port") <$> ds) ++ (wd_id <$> ds) ++ (bytes_of <$> port_names (text <$> (wd_id <$> ds))).

Lemma vsock_no_id n : plain n -> option_value KEY_ID (options (bytes_of "vhost-vsock-pci,guest-cid=" ++ n)) = None.
Proof.
  intros Hn. assert (bytes_of "vhost-vsock-pci,guest-cid=" ++ n = join (bytes_of "vhost-vsock-pci") [bytes_of "guest-cid=" ++ n]) as ->.
  { cbn [join]. by rewrite opt_value_app, (opt_value_plain n). }
  rewrite options_join by well. reflexivity.
Qed.

Lemma nic_no_id id mac : plain id -> plain mac ->
  option_value KEY_ID (options (bytes_of "virtio-net-pci,netdev=" ++ id ++ bytes_of ",mac=" ++ mac)) = None.
Proof.
  intros Hi Hm.
  assert (bytes_of "virtio-net-pci,netdev=" ++ id ++ bytes_of ",mac=" ++ mac =
          join (bytes_of "virtio-net-pci") [bytes_of "netdev=" ++ id; bytes_of "mac=" ++ mac]) as ->.
  { cbn [join]. rewrite !opt_value_app, (opt_value_plain id), (opt_value_plain mac) by done. rewrite <- !(assoc_L (++)). reflexivity. }
  rewrite options_join by well. reflexivity.
Qed.

Lemma omap_none {A B} (f : A -> option B) l : Forall (fun x => f x = None) l -> omap f l = [].
Proof. induction 1 as [|x l Hx _ IH]; [done|]. cbn [omap list_omap]. by rewrite Hx. Qed.

Lemma hex_plain n h : plain (bytes_of (hex n h "")).
Proof.
  unfold plain. assert (H : forall acc, COMMA ∉ bytes_of acc -> COMMA ∉ bytes_of (hex n h acc)); [|by apply H, not_elem_of_nil].
  revert h. induction n as [|n IH]; intros h acc Hacc; [done|]. cbn [hex]. apply IH.
  change (bytes_of (String ?c ?s)) with (Ascii.byte_of_ascii c :: bytes_of s). apply not_elem_of_cons. split; [|done].
  unfold Bridge.hex_digit. pose proof (Z.land_nonneg h 15) as Hl.
  assert (Hr : 0 <= Z.land h 15 < 16). { change 15 with (Z.ones 4). rewrite Z.land_ones by lia. apply Z.mod_pos_bound. lia. }
  set (k := Z.to_nat _). assert (Hk : (k < 16)%nat) by (unfold k; lia). clearbody k.
  do 16 (destruct k as [|k]; [done|]). lia.
Qed.

Lemma nic_mac_plain id : plain (nic_mac_for id).
Proof.
  unfold nic_mac_for, hex2. rewrite !bytes_of_app. repeat (apply plain_app; split); first [apply hex_plain|by apply plain_const].
Qed.

Lemma concat_pairs {A B} (f g : A -> B) l : concat ((fun x => [f x; g x]) <$> l) ≡ₚ (f <$> l) ++ (g <$> l).
Proof. induction l as [|x l IH]; [done|]. rewrite !fmap_cons. cbn [concat app]. rewrite IH. by rewrite Permutation_middle. Qed.

Lemma launch_device_ids p ds : qp_disks p = launched <$> ds -> Forall (fun d => plain (wd_id d)) ds -> 0 <= qp_cid p ->
  Forall (fun n => plain (ln_id n) /\ plain (default [] (ln_mac n))) (qp_nics p) ->
  device_ids (read_args (arguments (build_qemu_command p))) ≡ₚ launch_ids ds.
Proof.
  intros Hp Hplain Hcid Hn. unfold device_ids. destruct (launch_values p) as [_ ->]. rewrite !fmap_app, !omap_app, fmap_cons.
  rewrite (omap_none _ [options (_ ++ number _)]) by (constructor; [by apply vsock_no_id, number_plain|constructor]).
  rewrite (omap_none _ (options <$> (_ <$> qp_nics p))).
  2:{ rewrite <- list_fmap_compose. apply Forall_fmap. eapply Forall_impl; [exact Hn|]. intros n [Hi Hm]. unfold compose. apply nic_no_id; [done|].
      destruct (ln_mac n); [done|apply nic_mac_plain]. }
  cbn [app]. unfold launch_ids. rewrite (assoc_L (++)), Hp.
  assert (Hids : ld_id <$> (launched <$> ds) = wd_id <$> ds) by (rewrite <- list_fmap_compose; by apply list_fmap_ext). rewrite Hids.
  apply Permutation_app.
  - rewrite <- concat_pairs. apply reflexive_eq. clear Hp Hids Hn.
    enough (H : forall k, omap (option_value KEY_ID) (options <$> concat (imap (fun i d => [port_value (ld_id d ++ bytes_of "-port") (i + k); blk_value (ld_id d)]) (launched <$> ds))) =
      concat ((fun d => [wd_id d ++ bytes_of "-port"; wd_id d]) <$> ds)) by apply H.
    induction Hplain as [|d ds Hd _ IH]; intros k; [done|]. rewrite fmap_cons, imap_cons. cbn [concat]. rewrite fmap_app, omap_app.
    cbn [launched ld_id fmap list_fmap]. rewrite (port_options (wd_id d ++ _)) by (apply plain_app; split; [done|by apply plain_const]).
    rewrite (blk_options (wd_id d)) by done.
    cbn [concat]. f_equal. rewrite <- (IH (S k)).
    do 3 f_equal. apply imap_ext. intros i x _. unfold compose. by replace (S i + k)%nat with (i + S k)%nat by lia.
  - apply reflexive_eq. rewrite fmap_imap_eq. generalize (length (launched <$> ds)).
    assert (Hpl : Forall (fun n => plain (bytes_of n)) (port_names (text <$> (wd_id <$> ds)))) by (apply Forall_forall; apply port_names_plain).
    intros k. enough (H : forall k', omap (option_value KEY_ID) (imap (fun i x => options (port_value (bytes_of x) (k' + i + 1))) (port_names (text <$> (wd_id <$> ds)))) =
      bytes_of <$> port_names (text <$> (wd_id <$> ds))) by apply H.
    induction Hpl as [|x l Hx _ IH]; intros k'; [done|]. rewrite imap_cons, fmap_cons. cbn [omap list_omap].
    rewrite (port_options (bytes_of x)) by done. change (option_value KEY_ID (ROOT_PORT :: port_of (bytes_of x) ?c)) with (Some (bytes_of x)). cbn iota. f_equal.
    rewrite <- (IH (S k')). f_equal. apply imap_ext. intros i y _. unfold compose. by replace (k' + S i + 1)%nat with (S k' + i + 1)%nat by lia.
Qed.

(** The names of the devices are distinct exactly if no disk is called like the
    port of another one; the names kept for later always are. *)
Lemma device_ids_unique p ds : qp_disks p = launched <$> ds -> Forall (fun d => plain (wd_id d)) ds -> 0 <= qp_cid p ->
  Forall (fun n => plain (ln_id n) /\ plain (default [] (ln_mac n))) (qp_nics p) -> NoDup (wd_id <$> ds) ->
  NoDup (device_ids (read_args (arguments (build_qemu_command p)))) <->
  forall d d', d ∈ ds -> d' ∈ ds -> wd_id d <> wd_id d' ++ bytes_of "-port".
Proof.
  intros Hp Hplain Hcid Hn Hnd. rewrite (launch_device_ids p ds) by done. unfold launch_ids.
  destruct (port_names_fresh (text <$> (wd_id <$> ds))) as (_ & Hpn & Hfresh).
  assert (Hf : forall d x, d ∈ ds -> x ∈ bytes_of <$> port_names (text <$> (wd_id <$> ds)) -> x <> wd_id d /\ x <> wd_id d ++ bytes_of "-port").
  { intros d x Hd (name & -> & Hname)%list_elem_of_fmap.
    destruct (Hfresh (text (wd_id d)) name) as (H1 & _ & H2); [apply list_elem_of_fmap_2; by apply list_elem_of_fmap_2|done|].
    assert (Hb : forall y, bytes_of name = y -> name = text y) by (intros y <-; by rewrite text_bytes_of).
    split; [intros E%Hb; done|]. intros E%Hb. rewrite text_app in E. done. }
  rewrite !NoDup_app. split.
  - intros (_ & Hd & _) d d' Hin Hin' E. apply (Hd (wd_id d)).
    + rewrite E. apply list_elem_of_fmap. by exists d'.
    + apply elem_of_app. left. by apply list_elem_of_fmap_2.
  - intros H. split_and!.
    + assert ((fun d => wd_id d ++ bytes_of "-port") <$> ds = (fun i => i ++ bytes_of "-port") <$> (wd_id <$> ds)) as -> by by rewrite <- list_fmap_compose.
      apply NoDup_fmap; [|done]. intros a b E. by apply app_inv_tail in E.
    + intros x (d' & -> & Hd')%list_elem_of_fmap [(d & E & Hd)%list_elem_of_fmap|Hx]%elem_of_app; [by apply (H d d')|]. by destruct (Hf d' _ Hd' Hx).
    + done.
    + intros x (d & -> & Hd)%list_elem_of_fmap Hx. by destruct (Hf d _ Hd Hx).
    + apply NoDup_fmap; [|done]. intros a b E. rewrite <- (text_bytes_of a), <- (text_bytes_of b). by f_equal.
Qed.
End commands.

(** * Examples *)

Definition no_calendar : Z -> option tm := fun _ => None.
Definition epoch : Z -> option tm := fun s => Some (Tm 70 0 1 (s / 3600) (s mod 3600 / 60) (s mod 60)).

Definition demo_disks : list wanted_disk :=
  [(bytes_of "data", bytes_of "/build,new/data.img", false, false); (bytes_of "log", bytes_of "nbd+unix:///?socket=/tmp/log.nbd.sock", true, true)].

Definition demo_plan (ds : list wanted_disk) : launch_plan :=
  QemuLaunchPlan (bytes_of "qemu-system-x86_64") "web" (bytes_of "/k") (bytes_of "/i") (bytes_of "quiet") 3 (512 * 1024 * 1024) 1
    (bytes_of "/tmp/qmp.sock") (bytes_of "/tmp/console.log") (bytes_of "/tmp/console.sock") [LaunchNic "lan" (bytes_of "web-lan") None]
    (launched <$> ds) true None (Some 1000000000) None.

Lemma guest_sees_disks_witness :
  guest_disks (read_args (arguments (build_qemu_command epoch (demo_plan demo_disks)))) = Some <$> demo_disks.
Proof.
  apply guest_sees_disks; [reflexivity| |].
  - repeat constructor; by apply plain_const.
  - repeat constructor; vm_compute; intros H; repeat (apply elem_of_cons in H as [H|H]; [discriminate H|]); by apply elem_of_nil in H.
Defined.

(** The comma of the path is doubled in the option. *)
Example drive_escapes : drive_value (launched (bytes_of "data", bytes_of "/a,b", true, false)) =
  bytes_of "if=none,id=data-node,format=raw,file=/a,,b,readonly=on".
Proof. vm_compute. reflexivity. Qed.

(** A comma in the id of a disk, which nothing refuses, is not: the drive has
    another name and an option that there is not. *)
Lemma comma_in_id_splits :
  options (drive_value (launched (bytes_of "a,b", bytes_of "/d", false, false))) =
    [bytes_of "if=none"; bytes_of "id=a"; bytes_of "b-node"; bytes_of "format=raw"; bytes_of "file=/d"].
Proof. vm_compute. reflexivity. Qed.

(** Two disks with ids of their own whose devices share a name. *)
Lemma port_name_taken :
  resolve_disks [DiskSpec (Some "a") "/a" false false; DiskSpec (Some "a-port") "/b" false false] [] =
    Ok [AttachedDisk "a" "/a" false false; AttachedDisk "a-port" "/b" false false] /\
  take 4 (device_ids (read_args (arguments (build_qemu_command no_calendar
    (demo_plan [(bytes_of "a", bytes_of "/a", false, false); (bytes_of "a-port", bytes_of "/b", false, false)]))))) =
    [bytes_of "a-port"; bytes_of "a"; bytes_of "a-port-port"; bytes_of "a-port"].
Proof. vm_compute. done. Qed.

(** The socket and log paths are not escaped. *)
Lemma comma_in_scratch_splits :
  options (bytes_of "socket,id=conserial0,path=" ++ bytes_of "/tmp/a,b/console.sock" ++ bytes_of ",server=on") =
    [bytes_of "socket"; bytes_of "id=conserial0"; bytes_of "path=/tmp/a"; bytes_of "b/console.sock"; bytes_of "server=on"].
Proof. vm_compute. reflexivity. Qed.

Example values_shown :
  memory_to_qemu_arg (512 * 1024 * 1024) = bytes_of "512M" /\ memory_to_qemu_arg 1 = bytes_of "1M" /\
  length (nic_mac_for (bytes_of "web-lan")) = 17%nat /\ take 9 (nic_mac_for (bytes_of "web-lan")) = bytes_of "52:54:00:" /\
  format_unix_ns_iso8601 epoch 3661000000000 = Some "1970-01-01T01:01:01" /\ format_unix_ns_iso8601 epoch (-1) = None.
Proof. vm_compute. done. Qed.

Example consoles :
  ensure_serial_console (bytes_of "console=hvc0 quiet ") = bytes_of "console=hvc0 quiet console=ttyS0" /\
  ensure_serial_console (bytes_of "console=ttyS0 quiet") = bytes_of "console=ttyS0 quiet" /\
  with_rdinit (bytes_of "quiet") = bytes_of "quiet rdinit=/sbin/provium-agent" /\
  append_extra (bytes_of "quiet") (Some (bytes_of " a b ")) = bytes_of "quiet a b" /\ append_extra (bytes_of "quiet ") (Some (bytes_of " ")) = bytes_of "quiet ".
Proof. vm_compute. done. Qed.
