(* ===== verification/QemuLaunch.v ===== *)
(** Starting QEMU and driving it: the agent overlay of
    [src/provium-host/src/vmm/agent_overlay.rs], the launch of
    [vmm/qemu.rs] with what it leaves behind when it fails, and the backend
    of a running machine. *)
From Stdlib Require Import SpecFloat.
From stdpp Require Import pretty.
From S2P Require Import Prelude Text Numbers Names Qmp Pool Cpio VmOpts Profile AgentClient Vm Dispatch QemuArgs.

Open Scope string_scope.
Open Scope list_scope.
Open Scope Z_scope.

(** * The agent overlay *)

(** The way up from the directory of the binary, six directories at most. *)
Fixpoint walk_up (hops : nat) (exists_ : string -> bool) (parent : string -> option string) (cur : string) : option string :=
  match hops with
  | O => None
  | S hops =>
      let candidate := path_join cur "dist/agent-overlay.cpio.gz" in
      if exists_ candidate then Some candidate else p ← parent cur; walk_up hops exists_ parent p
  end.

Definition locate_overlay (p : profile) (env : option string) (exe_dir : option string)
    (exists_ : string -> bool) (parent : string -> option string) : option string :=
  match agent_overlay_path p with
  | Some o => Some o
  | None =>
      match env with
      | Some ((String _ _) as path) => Some path
      | _ =>
          d ← exe_dir;
          let installed := path_join d "../share/provium/agent-overlay.cpio.gz" in
          if exists_ installed then Some installed else walk_up 6 exists_ parent d
      end
  end.

Record prepared := PreparedInitrd { pi_initrd : string; pi_cmdline : bytes; pi_injected : bool }.

Definition cmdline_pinned (existing : bytes) : vmm_error :=
  AgentOverlay ("profile cmdline already pins rdinit=" +:+ text existing +:+ "; either remove it or set inject_agent = false in this profile").

Definition overlay_missing : vmm_error :=
  AgentOverlay "could not find agent-overlay.cpio.gz — run scripts/build-overlay.sh, or set agent_overlay_path in the profile, or set inject_agent = false".

(** Files by path. *)
Abbreviation files := (gmap string bytes).

Section overlay.
Context (sha256 : bytes -> string).

Definition not_found : string := "No such file or directory (os error 2)".
Definition read_file (path : string) (fs : files) : result bytes string :=
  match fs !! path with Some b => Ok b | None => Err not_found end.

Definition cache_dir (cache_root : string) : string := path_join cache_root "agent-overlay-cache".
Definition merged_path (cache_root key : string) : string := path_join (cache_dir cache_root) (key +:+ ".cpio.gz").

(** The file is written under another name and put in place whole; [ended] is
    how that goes. *)
Definition write_cache_entry (ended : result () string) (path : string) (user overlay : bytes) (fs : files) : files * result () vmm_error :=
  match ended with
  | Err e => (fs, Err (AgentOverlay e))
  | Ok _ => (<[path := user ++ overlay]> fs, Ok ())
  end.

(** The agent a line names that is not the overlay's. *)
Definition pinned (cmdline : bytes) : option bytes :=
  match parse_rdinit cmdline with
  | Some existing => if decide (existing = OVERLAY_AGENT_PATH) then None else Some existing
  | None => None
  end.

Definition merge_initrd (cache_root : string) (made_dir published : result () string) (user_path overlay_path : string) (fs : files)
  : files * result string vmm_error :=
  match read_file user_path fs with
  | Err e => (fs, Err (AgentOverlay ("read user initrd `" +:+ user_path +:+ "`: " +:+ e)))
  | Ok user =>
      match read_file overlay_path fs with
      | Err e => (fs, Err (AgentOverlay ("read overlay `" +:+ overlay_path +:+ "`: " +:+ e)))
      | Ok overlay =>
          match made_dir with
          | Err e => (fs, Err (AgentOverlay ("create cache dir `" +:+ cache_dir cache_root +:+ "`: " +:+ e)))
          | Ok _ =>
              let path := merged_path cache_root (sha256 (user ++ overlay)) in
              match fs !! path with
              | Some _ => (fs, Ok path)
              | None => let (fs, r) := write_cache_entry published path user overlay fs in (fs, match r with Ok _ => Ok path | Err e => Err e end)
              end
          end
      end
  end.

Definition prepare_initrd (p : profile) (cmdline : bytes) (cache_root : string) (overlay : option string)
    (made_dir published : result () string) (fs : files) : files * result prepared vmm_error :=
  if negb (inject_agent p) then (fs, Ok (PreparedInitrd (initrd p) cmdline false))
  else
    match pinned cmdline with
    | Some existing => (fs, Err (cmdline_pinned existing))
    | None =>
        match overlay with
        | None => (fs, Err overlay_missing)
        | Some overlay =>
            if decide (initrd p = "") then (fs, Ok (PreparedInitrd overlay (with_rdinit cmdline) true))
            else
              match merge_initrd cache_root made_dir published (initrd p) overlay fs with
              | (fs, Ok path) => (fs, Ok (PreparedInitrd path (with_rdinit cmdline) true))
              | (fs, Err e) => (fs, Err e)
              end
        end
    end.

(** The entries of the cache are what their names say, if no two contents share
    a name. *)
Definition cache_sound (cache_root : string) (fs : files) : Prop :=
  forall b c, fs !! merged_path cache_root (sha256 b) = Some c -> c = b.

Definition no_collision (cache_root : string) : Prop :=
  forall a b, merged_path cache_root (sha256 a) = merged_path cache_root (sha256 b) -> a = b.

Lemma merge_initrd_spec root made_dir published user_path overlay_path fs fs' r :
  no_collision root -> cache_sound root fs -> merge_initrd root made_dir published user_path overlay_path fs = (fs', r) ->
  cache_sound root fs' /\ fs ⊆ fs' /\
  match r with
  | Err _ => fs' = fs
  | Ok path => exists u o, fs !! user_path = Some u /\ fs !! overlay_path = Some o /\ fs' !! path = Some (u ++ o)
  end.
Proof.
  intros Hinj Hs. unfold merge_initrd, read_file, write_cache_entry.
  destruct (fs !! user_path) as [u|] eqn:Eu; [|by intros [= <- <-]]. destruct (fs !! overlay_path) as [o|] eqn:Eo; [|by intros [= <- <-]].
  destruct made_dir as [_|e]; [|by intros [= <- <-]]. destruct (fs !! merged_path _ _) as [c|] eqn:Ec.
  - intros [= <- <-]. split_and!; [done..|]. exists u, o. split_and!; [done..|]. rewrite Ec. f_equal. by apply (Hs _ _ Ec).
  - destruct published as [_|e]; intros [= <- <-]; [|done]. split_and!.
    + intros b c. destruct (decide (merged_path root (sha256 (u ++ o)) = merged_path root (sha256 b))) as [E|E].
      * rewrite <- E, lookup_insert_eq. intros [= <-]. by apply Hinj.
      * rewrite lookup_insert_ne by done. apply Hs.
    + by apply insert_subseteq.
    + exists u, o. by rewrite lookup_insert_eq.
Qed.

(** What is booted with the agent is the agent's overlay on the machine's own
    initrd. However the cache was filled before, a launch that asks for the agent
    and gets an initrd has one whose bytes are those of the profile's initrd
    followed by those of the overlay, or the overlay as it is if the profile has
    none, and a command line whose first rdinit is the agent; a profile that
    does not ask for it gets its own initrd and line; no file that was there is
    changed, and after a failure none is there that was not. *)
Lemma overlay_is_appended p cmdline root overlay made_dir published fs fs' r :
  no_collision root -> cache_sound root fs ->
  prepare_initrd p cmdline root overlay made_dir published fs = (fs', r) ->
  cache_sound root fs' /\ fs ⊆ fs' /\
  match r with
  | Err _ => fs' = fs
  | Ok i =>
      pi_injected i = inject_agent p /\
      if pi_injected i then
        parse_rdinit (pi_cmdline i) = Some OVERLAY_AGENT_PATH /\
        exists o, overlay = Some o /\
          if decide (initrd p = "") then pi_initrd i = o
          else exists u b, fs !! initrd p = Some u /\ fs !! o = Some b /\ fs' !! pi_initrd i = Some (u ++ b)
      else pi_initrd i = initrd p /\ pi_cmdline i = cmdline
  end.
Proof.
  intros Hinj Hs. unfold prepare_initrd. destruct (inject_agent p) eqn:Ei; cbn [negb]; [|by intros [= <- <-]].
  destruct (pinned cmdline) as [e|] eqn:Ep; [by intros [= <- <-]|].
  assert (Hrd : parse_rdinit (with_rdinit cmdline) = Some OVERLAY_AGENT_PATH).
  { rewrite with_rdinit_names. unfold pinned in Ep. destruct (parse_rdinit cmdline) as [x|]; [|done].
    destruct (decide _) as [->|]; [done|done]. }
  destruct overlay as [o|]; [|by intros [= <- <-]]. destruct (decide (initrd p = "")) as [He|He].
  { intros [= <- <-]. split_and!; [done..|]. cbn [pi_injected pi_cmdline pi_initrd]. split; [done|]. by exists o. }
  destruct (merge_initrd root made_dir published (initrd p) o fs) as [fs1 r1] eqn:Em.
  apply (merge_initrd_spec _ _ _ _ _ _ _ _ Hinj Hs) in Em as (H1 & H2 & H3). destruct r1 as [path|e]; intros [= <- <-]; [|done].
  split_and!; [done..|]. cbn [pi_injected pi_cmdline pi_initrd]. split; [done|]. exists o. split; [done|]. destruct H3 as (u & b & ? & ? & ?). by exists u, b.
Qed.
End overlay.

(** * What is started *)

Definition scratch_of (scratch_root : string) (cid : Z) : string := path_join scratch_root ("vm-" +:+ pretty cid).

(** The line of the profile, or the boot's own, with what the boot adds. *)
Definition boot_cmdline (opts : boot_opts) (resolved : result bytes vmm_error) : result bytes vmm_error :=
  match (match cmdline_override opts with Some c => Ok (bytes_of c) | None => resolved end) with
  | Err e => Err e
  | Ok line => Ok (ensure_serial_console (append_extra line (bytes_of <$> cmdline_append opts)))
  end.

(** The files of the boot go after the overlay. *)
Definition injected_initrd (opts : boot_opts) (prepared_path scratch : string) (wrote : result () string) (fs : files) : files * result string vmm_error :=
  match bo_files opts with
  | [] => (fs, Ok prepared_path)
  | fl =>
      let path := path_join scratch "initrd-with-files.cpio.gz" in
      match (if decide (prepared_path = "") then Ok [] else read_file prepared_path fs) with
      | Err e => (fs, Err (VmmIo e))
      | Ok base =>
          match wrote with
          | Err e => (fs, Err (VmmIo e))
          | Ok _ => (<[path := base ++ build_segment fl]> fs, Ok path)
          end
      end
  end.

Definition socket_of (scratch id : string) : string := path_join scratch (id +:+ ".nbd.sock").
Definition qemu_url (socket : string) : bytes := bytes_of ("nbd+unix:///?socket=" +:+ socket).

Definition wanted (scratch : string) (d : attached_disk) : wanted_disk :=
  (bytes_of (ad_id d), if ad_mediated d then qemu_url (socket_of scratch (ad_id d)) else bytes_of (ad_path d), ad_readonly d, ad_mediated d).

Definition launch_disks (scratch : string) (ds : list attached_disk) : list launch_disk :=
  (fun d =>
     if ad_mediated d then LaunchDisk (bytes_of (ad_id d)) (opt_value (qemu_url (socket_of scratch (ad_id d)))) (ad_readonly d) true
     else LaunchDisk (bytes_of (ad_id d)) (opt_value (bytes_of (ad_path d))) (ad_readonly d) false) <$> ds.

Lemma launch_disks_wanted scratch ds : launch_disks scratch ds = launched <$> (wanted scratch <$> ds).
Proof. unfold launch_disks. rewrite <- list_fmap_compose. apply list_fmap_ext. intros i d _. unfold compose, launched, wanted. by destruct (ad_mediated d). Qed.

Record vmm_config := QemuVmmConfig {
  qemu_binary : string; agent_port : Z; scratch_root : string; config_agent_timeout : Z; ksm_enabled : bool }.

Definition launch_plan_of (c : vmm_config) (name kernel initrd : string) (cmdline : bytes) (cid : Z) (opts : boot_opts)
    (ds : list attached_disk) (incoming : option string) : launch_plan :=
  let scratch := scratch_of (scratch_root c) cid in
  QemuLaunchPlan (bytes_of (qemu_binary c)) name (bytes_of kernel) (bytes_of initrd) cmdline cid (sizing opts).1 (sizing opts).2
    (bytes_of (path_join scratch "qmp.sock")) (bytes_of (path_join scratch "console.log")) (bytes_of (path_join scratch "console.sock"))
    ((fun n => LaunchNic (bridge_name n) (bytes_of (nic_id n)) (bytes_of <$> mac n)) <$> nic_attachments opts)
    (launch_disks scratch ds) (ksm_enabled c) (rng_seed opts) (initial_time_ns opts) (bytes_of <$> incoming).

(** C26: QEMU attaches the disks of the boot. Whatever else the machine has and
    whatever is in the paths, commas included, the option string QEMU parses
    gives, for every disk of the boot in its order and no other, a block device
    whose drive has that image, or for a mediated disk the address of its server
    in the scratch directory, and the same write protection and caching; provided
    that ids are plain and none is another's. *)
Theorem plan_attaches_disks gmtime c name kernel initrd cmdline cid opts ds incoming :
  Forall (fun d => plain (bytes_of (ad_id d))) ds -> NoDup (ids ds) ->
  guest_disks (read_args (arguments (build_qemu_command gmtime (launch_plan_of c name kernel initrd cmdline cid opts ds incoming)))) =
    Some <$> (wanted (scratch_of (scratch_root c) cid) <$> ds).
Proof.
  intros Hplain Hnd. destruct (launch_values gmtime (launch_plan_of c name kernel initrd cmdline cid opts ds incoming)) as [_ _].
  apply guest_sees_disks.
  - apply launch_disks_wanted.
  - by apply Forall_fmap.
  - rewrite <- list_fmap_compose. assert (wd_id ∘ wanted (scratch_of (scratch_root c) cid) <$> ds = bytes_of <$> (ad_id <$> ds)) as -> by by rewrite <- list_fmap_compose.
    apply NoDup_fmap; [|done]. intros a b E. rewrite <- (text_bytes_of a), <- (text_bytes_of b). by f_equal.
Qed.

(** * Waiting *)

(** The three loops that wait look at the clock after each look at what they
    wait for; a turn is both. *)
Fixpoint poll {A B} (classify : A -> option B) (late : B) (deadline : Z) (turns : list (A * Z)) : option B :=
  match turns with
  | [] => None
  | (seen, now) :: turns =>
      match classify seen with
      | Some answer => Some answer
      | None => if deadline <=? now then Some late else poll classify late deadline turns
      end
  end.

Lemma poll_ends {A B} (classify : A -> option B) late deadline turns :
  Exists (fun t => deadline <= t.2) turns -> is_Some (poll classify late deadline turns).
Proof.
  induction 1 as [[s now] turns H|[s now] turns _ IH]; cbn [poll]; (destruct (classify s); [by eexists|]).
  - rewrite (proj2 (Z.leb_le _ _)) by done. by eexists.
  - destruct (deadline <=? now); [by eexists|done].
Qed.

(** What was seen before the deadline decides; the deadline alone never makes an
    answer that was there late. *)
Lemma poll_answer {A B} (classify : A -> option B) late deadline turns b :
  poll classify late deadline turns = Some b ->
  (exists s now, (s, now) ∈ turns /\ classify s = Some b) \/ (b = late /\ exists s now, (s, now) ∈ turns /\ deadline <= now).
Proof.
  induction turns as [|[s now] turns IH]; cbn [poll]; [done|]. destruct (classify s) as [x|] eqn:E.
  - intros [= ->]. left. exists s, now. split; [by left|done].
  - destruct (Z.leb_spec deadline now).
    + intros [= <-]. right. split; [done|]. exists s, now. split; [by left|done].
    + intros [(s' & n' & Hin & ?)|(? & s' & n' & Hin & ?)]%IH; [left|right; split; [done|]]; exists s', n'; (split; [by right|done]).
Qed.

Definition QMP_SOCKET_WAIT : Z := 5000000000.
Definition QMP_CONNECT_RETRY : Z := 3000000000.
Definition INCOMING_MIGRATION_TIMEOUT : Z := 60000000000.
Definition AGENT_BOOT_TIMEOUT : Z := 30000000000.

(** [wait_for_path]. *)
Definition wait_for_path (path : string) (timeout start : Z) (turns : list (bool * Z)) : option (result () string) :=
  poll (fun there : bool => if there then Some (Ok ()) else None)
    (Err ("path `" +:+ path +:+ "` did not appear within " +:+ debug_duration timeout)) (start + timeout) turns.

(** [wait_incoming_migration], on the answers to [query-status]. *)
Definition wait_incoming_migration (timeout start : Z) (turns : list (result string string * Z)) : option (result () string) :=
  poll (fun r => match r with
                 | Err e => Some (Err ("query-status failed: " +:+ e))
                 | Ok status => if decide (status = "inmigrate") then None else Some (Ok ())
                 end)
    (Err ("VM stuck in `inmigrate` state after " +:+ debug_duration timeout)) (start + timeout) turns.

Lemma wait_incoming_ends timeout start turns :
  Exists (fun t => start + timeout <= t.2) turns -> is_Some (wait_incoming_migration timeout start turns).
Proof. apply poll_ends. Qed.

Definition still_booting : client_error := Connect "still booting".
Definition no_response : client_error := Connect "agent did not respond".

(** [wait_for_agent]: the error of the time out is the one noted after the
    first ping, if there was a second. *)
Fixpoint wait_for_agent (last_err : option client_error) (deadline : Z) (pings : list (result () client_error * Z)) : option (result () client_error) :=
  match pings with
  | [] => None
  | (Ok _, _) :: _ => Some (Ok ())
  | (Err (Connect _ | ClientFrame _), now) :: pings =>
      if deadline <=? now then Some (Err (default no_response last_err)) else wait_for_agent (Some still_booting) deadline pings
  | (Err other, _) :: _ => Some (Err other)
  end.

Lemma wait_for_agent_ends last deadline pings : Exists (fun t => deadline <= t.2) pings -> is_Some (wait_for_agent last deadline pings).
Proof.
  intros H. revert last. induction H as [[r now] pings H|[r now] pings _ IH]; intros last; cbn [wait_for_agent];
    (destruct r as [|[]]; try by eexists); try (rewrite (proj2 (Z.leb_le _ _)) by done; by eexists).
  all: destruct (deadline <=? now); [by eexists|apply IH].
Qed.

(** The agent is reported up only if it answered. *)
Lemma wait_for_agent_up last deadline pings : wait_for_agent last deadline pings = Some (Ok ()) -> exists u now, (Ok u, now) ∈ pings.
Proof.
  revert last. induction pings as [|[[u|e] now] pings IH]; intros last; cbn [wait_for_agent]; [done| |].
  - intros _. exists u, now. by left.
  - destruct e; try done; destruct (deadline <=? now); try done; intros (u & n & Hin)%IH; exists u, n; by right.
Qed.

(** * The host *)

(** What a launch works on: the counter of the context identifiers, the scratch
    directories that exist, by identifier, and the children: the thread that
    made each, and whether it still runs. A child that was killed and not waited
    for is a zombie. *)
Inductive child_state := Running | Zombie.
#[export] Instance child_state_eq : EqDecision child_state.
Proof. solve_decision. Defined.
Record child := Child { ch_cid : Z; ch_thread : Z; ch_state : child_state }.
Record host := Host { next_cid : Z; dirs : gset Z; children : gmap Z child }.

Definition add_child (pid : Z) (c : child) (h : host) : host := Host (next_cid h) (dirs h) (<[pid := c]> (children h)).
Definition remove_dir (cid : Z) (h : host) : host := Host (next_cid h) (dirs h ∖ {[cid]}) (children h).

(** [kill_child]: a signal, and no wait. *)
Definition kill_child (pid : Z) (h : host) : host :=
  Host (next_cid h) (dirs h) (alter (fun c => Child (ch_cid c) (ch_thread c) Zombie) pid (children h)).

(** A thread that made children ends: they are sent the signal they asked for. *)
Definition thread_ends (t : Z) (h : host) : host :=
  Host (next_cid h) (dirs h) ((fun c => if decide (ch_thread c = t) then Child (ch_cid c) (ch_thread c) Zombie else c) <$> children h).

(** ** Identifiers *)

Inductive claim_end := Claimed (cid : Z) | ClaimFailed (e : string) | CidsExhausted.

Definition cid_panic : string := "vsock CID space exhausted (u32)".

(** The loop that takes the first identifier whose directory is not there yet;
    [created] is how creating that directory ends. *)
Fixpoint claim_cid (fuel : nat) (created : result () string) (h : host) : option (host * claim_end) :=
  match fuel with
  | O => None
  | S fuel =>
      let '(next, c) := allocate (next_cid h) in
      let h1 := Host next (dirs h) (children h) in
      match c with
      | None => Some (h1, CidsExhausted)
      | Some cid =>
          if decide (cid ∈ dirs h) then claim_cid fuel created h1
          else match created with
               | Err e => Some (h1, ClaimFailed e)
               | Ok _ => Some (Host next ({[cid]} ∪ dirs h) (children h), Claimed cid)
               end
      end
  end.

(** As many turns as there are directories, and one more, are enough. *)
Lemma claim_ends fuel created h :
  0 <= next_cid h -> (size (filter (fun c => (next_cid h <=? c)%Z = true) (dirs h)) < fuel)%nat -> is_Some (claim_cid fuel created h).
Proof.
  revert h. induction fuel as [|fuel IH]; intros h Hn Hf; [lia|]. cbn [claim_cid]. unfold allocate.
  destruct (Z.leb_spec (next_cid h) u32_max); [|by eexists]. destruct (decide (next_cid h ∈ dirs h)) as [Hin|]; [|destruct created; by eexists].
  assert (Hw : wrap u64_max (next_cid h + 1) = next_cid h + 1) by (apply wrap_small; unfold in_width, u64_max, u32_max in *; lia).
  rewrite Hw. apply IH; cbn [next_cid dirs]; [lia|]. eapply Nat.lt_le_trans; [|apply Nat.lt_succ_r; exact Hf].
  apply subset_size. split.
  - intros c. rewrite !elem_of_filter. intros [H1%Z.leb_le H2]. split; [apply Z.leb_le; lia|done].
  - intros Hsub. specialize (Hsub (next_cid h)). rewrite !elem_of_filter in Hsub. destruct Hsub as [H1%Z.leb_le _]; [split; [apply Z.leb_le; lia|done]|lia].
Qed.

Lemma claim_spec fuel created h h' e : claim_cid fuel created h = Some (h', e) ->
  children h' = children h /\ (0 <= next_cid h -> 0 <= next_cid h') /\
  match e with Claimed cid => (cid ∉ dirs h) /\ dirs h' = ({[cid]} ∪ dirs h) | _ => dirs h' = dirs h end.
Proof.
  revert h. induction fuel as [|fuel IH]; intros h; cbn [claim_cid]; [done|].
  assert (Hn : 0 <= next_cid h -> 0 <= (allocate (next_cid h)).1).
  { intros _. unfold allocate. destruct (_ <=? _); cbn [fst]; apply Z.mod_pos_bound; done. }
  destruct (allocate (next_cid h)) as [next [cid|]]; cbn [fst] in Hn; [|by intros [= <- <-]].
  destruct (decide (cid ∈ dirs h)) as [Hin|Hin].
  - intros (H1 & H2 & H3)%IH. split_and!; [done|auto|done].
  - destruct created; intros [= <- <-]; done.
Qed.

(** ** Attempts *)

(** What one attempt meets, in order: creating the root of the scratch
    directories, creating its own, the line of the
    profile, the overlay, the boot's files, a server for every mediated disk by
    its id, the child, its socket, and the monitor, with what QEMU said if it did
    not answer. *)
Record attempt := Attempt {
  at_root : result () string;
  at_created : result () string;
  at_cmdline : result () vmm_error;
  at_prepared : result () vmm_error;
  at_files : result () string;
  at_servers : list (string * result () string);
  at_spawned : result Z string;
  at_socket : result () string;
  at_qmp : result () (qmp_error * bytes) }.

Fixpoint start_servers (rs : list (string * result () string)) : result () vmm_error :=
  match rs with
  | [] => Ok ()
  | (id, Err e) :: _ => Err (VmmIo ("mediated disk `" +:+ id +:+ "`: " +:+ e))
  | (_, Ok _) :: rs => start_servers rs
  end.

(** Up to the child: nothing of the host is touched. *)
Definition before_spawn (a : attempt) : result () vmm_error :=
  let? _ := at_cmdline a in
  let? _ := at_prepared a in
  let? _ := match at_files a with Ok _ => Ok () | Err e => Err (VmmIo e) end in
  start_servers (at_servers a).

Definition CID_RETRY_ATTEMPTS : nat := 8.
Definition cid_taken : bytes := bytes_of "unable to set guest cid".

Section launch.
Context (show_qmp : qmp_error -> string) (show_client : client_error -> string).
(** The thread that launches. *)
Context (thread : Z).

Inductive attempt_end := Connected (pid : Z) | AttemptFailed (e : vmm_error) | CidTaken.

(** From the child to the monitor. [more] says whether another identifier may
    be tried. *)
Definition try_child (a : attempt) (more : bool) (cid : Z) (h : host) : host * attempt_end :=
  match at_spawned a with
  | Err e => (h, AttemptFailed (VmmIo e))
  | Ok pid =>
      let h1 := add_child pid (Child cid thread Running) h in
      match at_socket a with
      | Err e => (remove_dir cid (kill_child pid h1), AttemptFailed (VmmIo e))
      | Ok _ =>
          match at_qmp a with
          | Ok _ => (h1, Connected pid)
          | Err (e, said) =>
              let h2 := remove_dir cid (kill_child pid h1) in
              let said := trim said in
              if bool_decide (is_Some (find_bytes cid_taken said)) && more then (h2, CidTaken)
              else if decide (said = []) then (h2, AttemptFailed (VmmQmp e))
              else (h2, AttemptFailed (VmmIo ("QMP connect failed (" +:+ show_qmp e +:+ "); qemu said: " +:+ text said)))
          end
      end
  end.

(** How the loop over identifiers ends: [None] means that more attempts are
    needed than were given. *)
Inductive loop_end := LoopConnected (cid pid : Z) | LoopFailed (e : vmm_error) | LoopPanics (msg : string).

Fixpoint launch_loop (left : nat) (attempts : list attempt) (h : host) : option (host * loop_end) :=
  match attempts with
  | [] => None
  | a :: attempts =>
      match at_root a, claim_cid (S (size (dirs h))) (at_created a) h with
      | Err e, _ => Some (h, LoopFailed (VmmIo e))
      | Ok _, None => None
      | Ok _, Some (h, CidsExhausted) => Some (h, LoopPanics cid_panic)
      | Ok _, Some (h, ClaimFailed e) => Some (h, LoopFailed (VmmIo e))
      | Ok _, Some (h, Claimed cid) =>
          match before_spawn a with
          | Err e => Some (h, LoopFailed e)
          | Ok _ =>
              match try_child a (match left with O => false | S _ => true end) cid h with
              | (h, Connected pid) => Some (h, LoopConnected cid pid)
              | (h, AttemptFailed e) => Some (h, LoopFailed e)
              | (h, CidTaken) => launch_loop (pred left) attempts h
              end
          end
      end
  end.

(** ** Up to the agent *)

Definition newline : string := String (Ascii.ascii_of_nat 10) "".

(** The end of the guest's console, if there is anything in it. *)
Definition read_console_tail (log : option bytes) (max_bytes : nat) : option bytes :=
  match log with
  | None | Some [] => None
  | Some b => Some (from_utf8_lossy (drop (length b - max_bytes) b))
  end.

Definition console_block (tail : bytes) : string :=
  let body := newline +:+ "--- guest console (last bytes) ---" +:+ newline +:+ text tail in
  body +:+ (if bool_decide (last (bytes_of body) = Some x0a) then "" else newline) +:+ "--- end guest console ---".

(** What a restore meets: the clock when the wait for the migration starts, the
    answers to [query-status], and the end of the resume. *)
Record incoming := Incoming { in_started : Z; in_turns : list (result string string * Z); in_cont : result () string }.

(** What a machine meets once its monitor answers: the migration of a restored
    one, the log of its console, the profile's time out as seconds, the clock when
    the wait for the agent starts, and the pings. *)
Record bring_up := BringUp {
  bu_incoming : option incoming;
  bu_console : option bytes;
  bu_profile_timeout : option spec_float;
  bu_started : Z;
  bu_pings : list (result () client_error * Z) }.

(** A clock counts seconds in 64 bits. *)
Definition instant_max : Z := 2 ^ 63 * 1000000000 - 1.
Definition instant_panic : string := "overflow when adding duration to instant".

(** The boot's time out, the profile's, ours; the error is a panic. *)
Definition agent_deadline (opts_timeout : option Z) (profile_timeout : option spec_float) (ours : Z) : result Z string :=
  match opts_timeout with
  | Some ns => Ok ns
  | None => match profile_timeout with Some x => from_secs_f64 x | None => Ok ours end
  end.

(** When the wait for the agent ends, if it starts at all. *)
Definition agent_wait (opts_timeout : option Z) (ours : Z) (u : bring_up) : result Z string :=
  match agent_deadline opts_timeout (bu_profile_timeout u) ours with
  | Err panic => Err panic
  | Ok d => if instant_max <? bu_started u + d then Err instant_panic else Ok d
  end.

Definition tail_block (u : bring_up) : option string := console_block <$> read_console_tail (bu_console u) 4096.

(** The migration of a restored machine, and its resume. *)
Definition come_in (u : bring_up) : option (result () string) :=
  match bu_incoming u with
  | None => Some (Ok ())
  | Some i =>
      match wait_incoming_migration INCOMING_MIGRATION_TIMEOUT (in_started i) (in_turns i) with
      | None => None
      | Some (Err e) => Some (Err ("incoming migration did not complete: " +:+ e +:+ default "" (tail_block u)))
      | Some (Ok _) =>
          match in_cont i with
          | Err e => Some (Err ("cont after incoming migration failed: " +:+ e))
          | Ok _ => Some (Ok ())
          end
      end
  end.

Definition nothing_printed : string :=
  newline +:+ "(guest console.log was empty or unreadable — QEMU may have failed to spawn, or the kernel printed nothing before timeout)".

Definition abandon (cid pid : Z) (h : host) : host := remove_dir cid (kill_child pid h).

Inductive launch_end := Launched (cid pid : Z) | LaunchFailed (e : vmm_error) | LaunchPanics (msg : string).

Definition come_up (opts_timeout : option Z) (ours : Z) (u : bring_up) (cid pid : Z) (h : host) : option (host * launch_end) :=
  match come_in u with
  | None => None
  | Some (Err msg) => Some (abandon cid pid h, LaunchFailed (VmmIo msg))
  | Some (Ok _) =>
      match agent_wait opts_timeout ours u with
      | Err panic => Some (h, LaunchPanics panic)
      | Ok d =>
          match wait_for_agent None (bu_started u + d) (bu_pings u) with
          | None => None
          | Some (Ok _) => Some (h, Launched cid pid)
          | Some (Err e) =>
              Some (abandon cid pid h,
                    LaunchFailed (VmmIo ("agent did not come up within " +:+ debug_duration d +:+ ": " +:+ show_client e +:+
                                         default nothing_printed (tail_block u))))
          end
      end
  end.

(** What is checked before anything is started: the kernel, the files of the
    profile, the disks, and the bridges of the cards. *)
Definition validate_profile_paths (exists_ : string -> bool) (p : profile) (kernel : string) : result () vmm_error :=
  if negb (exists_ kernel) then Err (MissingProfilePath "kernel" kernel)
  else if bool_decide (initrd p <> "") && negb (exists_ (initrd p)) then Err (MissingProfilePath "initrd" (initrd p))
  else match cmdline_file p with
       | Some f => if exists_ f then Ok () else Err (MissingProfilePath "cmdline_file" f)
       | None => Ok ()
       end.

Fixpoint check_disk_files (exists_ : string -> bool) (ds : list attached_disk) : result () vmm_error :=
  match ds with
  | [] => Ok ()
  | d :: ds => if exists_ (ad_path d) then check_disk_files exists_ ds else Err (MissingDisk (ad_id d) (ad_path d))
  end.

Fixpoint realize_cards (rs : list (nic_attachment * result () string)) : result () vmm_error :=
  match rs with
  | [] => Ok ()
  | (n, r) :: rs => match bridge n, r with Some _, Err e => Err (VmmIo e) | _, _ => realize_cards rs end
  end.

Definition check_launch (exists_ : string -> bool) (p : profile) (kernel : result string string) (boot_disks : list attached_disk)
    (cards : list (nic_attachment * result () string)) : result (list attached_disk) vmm_error :=
  let? k := match kernel with Ok k => Ok k | Err e => Err (KernelSource e) end in
  let? _ := validate_profile_paths exists_ p k in
  let? ds := match resolve_disks (Profile.disks p) boot_disks with Ok ds => Ok ds | Err id => Err (DiskConflict id) end in
  let? _ := check_disk_files exists_ ds in
  let? _ := realize_cards cards in
  Ok ds.

(** [launch_or_restore]. *)
Definition launch_or_restore (checks : result (list attached_disk) vmm_error) (attempts : list attempt)
    (opts_timeout : option Z) (ours : Z) (u : bring_up) (h : host) : option (host * launch_end) :=
  match checks with
  | Err e => Some (h, LaunchFailed e)
  | Ok _ =>
      match launch_loop CID_RETRY_ATTEMPTS attempts h with
      | None => None
      | Some (h, LoopFailed e) => Some (h, LaunchFailed e)
      | Some (h, LoopPanics msg) => Some (h, LaunchPanics msg)
      | Some (h, LoopConnected cid pid) => come_up opts_timeout ours u cid pid h
      end
  end.
End launch.

(** ** What a launch leaves *)

Definition running_children (h : host) : gmap Z child := filter (fun p => ch_state p.2 = Running) (children h).

(** The children of the attempts. *)
Definition pids (attempts : list attempt) : list Z := omap (fun a => match at_spawned a with Ok pid => Some pid | Err _ => None end) attempts.

(** Did the attempt get as far as a child? *)
Definition reached_child (a : attempt) : bool := match before_spawn a, at_spawned a with Ok _, Ok _ => true | _, _ => false end.

(** The system gives no identifier of a process that is still there, a zombie
    included. *)
Definition fresh_pids (attempts : list attempt) (h : host) : Prop :=
  NoDup (pids attempts) /\ Forall (fun pid => children h !! pid = None) (pids attempts).

(** Nothing of before is touched, no more than [n] children were made, and of
    those [alive] runs. *)
Record only_added (n : nat) (alive : gmap Z child) (h h' : host) : Prop := {
  oa_kept : children h ⊆ children h';
  oa_few : (size (children h') <= size (children h) + n)%nat;
  oa_running : running_children h' = alive ∪ running_children h;
}.

Lemma only_added_refl n h h' : children h' = children h -> only_added n ∅ h h'.
Proof. intros E. split; unfold running_children; rewrite E; [done|lia|by rewrite (left_id_L ∅ (∪))]. Qed.

Lemma only_added_trans n m alive h h1 h2 : only_added n ∅ h h1 -> only_added m alive h1 h2 -> only_added (n + m) alive h h2.
Proof.
  intros [K1 F1 R1] [K2 F2 R2]. split; [by etrans|lia|]. rewrite R2, R1. by rewrite (left_id_L ∅ (∪)).
Qed.

Lemma only_added_alive pid c h : children h !! pid = None -> ch_state c = Running -> only_added 1 {[pid := c]} h (add_child pid c h).
Proof.
  intros Hf Hr. split; cbn [children add_child].
  - by apply insert_subseteq.
  - rewrite map_size_insert_None by done. lia.
  - unfold running_children; cbn [children add_child]. rewrite map_filter_insert_True by done. by rewrite insert_union_singleton_l.
Qed.

Lemma only_added_killed pid c h : children h !! pid = None -> only_added 1 ∅ h (kill_child pid (add_child pid c h)).
Proof.
  intros Hf.
  assert (E : children (kill_child pid (add_child pid c h)) = <[pid := Child (ch_cid c) (ch_thread c) Zombie]> (children h)).
  { cbn [children kill_child add_child]. by rewrite alter_insert_eq. }
  split; unfold running_children; rewrite E.
  - by apply insert_subseteq.
  - rewrite map_size_insert_None by done. lia.
  - rewrite map_filter_insert_False by done. rewrite delete_id by done. by rewrite (left_id_L ∅ (∪)).
Qed.

Lemma only_added_remove n alive h h' cid : only_added n alive h h' -> only_added n alive h (remove_dir cid h').
Proof. intros [? ? ?]. by split. Qed.

Lemma dirs_removed (ds : gset Z) cid : cid ∉ ds -> ({[cid]} ∪ ds) ∖ {[cid]} = ds.
Proof. set_solver. Qed.

(** One child, from a directory that was just made. *)
Lemma try_child_spec show_qmp thread a more cid h ds h' e :
  (forall pid, at_spawned a = Ok pid -> children h !! pid = None) -> cid ∉ ds -> dirs h = {[cid]} ∪ ds ->
  try_child show_qmp thread a more cid h = (h', e) ->
  next_cid h' = next_cid h /\
  match e with
  | Connected pid => at_spawned a = Ok pid /\ dirs h' = {[cid]} ∪ ds /\ only_added 1 {[pid := Child cid thread Running]} h h'
  | CidTaken => more = true /\ dirs h' = ds /\ only_added 1 ∅ h h' /\ exists pid, at_spawned a = Ok pid /\ children h' = <[pid := Child cid thread Zombie]> (children h)
  | AttemptFailed _ =>
      only_added 1 ∅ h h' /\ dirs h' = match at_spawned a with Ok _ => ds | Err _ => {[cid]} ∪ ds end
  end.
Proof.
  intros Hf Hc Hd. unfold try_child. destruct (at_spawned a) as [pid|e1]; [|intros [= <- <-]; split_and!; [done|by apply only_added_refl|done]].
  specialize (Hf pid eq_refl).
  assert (Hk : only_added 1 ∅ h (remove_dir cid (kill_child pid (add_child pid (Child cid thread Running) h))))
    by by apply only_added_remove, only_added_killed.
  assert (Hds : dirs (remove_dir cid (kill_child pid (add_child pid (Child cid thread Running) h))) = ds).
  { cbn [dirs remove_dir kill_child add_child]. rewrite Hd. by apply dirs_removed. }
  destruct (at_socket a) as [_|e1]; [|by intros [= <- <-]]. destruct (at_qmp a) as [_|[e1 said]].
  - intros [= <- <-]. split_and!; [done..|]. by apply only_added_alive.
  - destruct (bool_decide _ && more) eqn:Em.
    + intros [= <- <-]. apply andb_true_iff in Em as [_ ->]. split_and!; [done..|]. exists pid. split; [done|].
      cbn [children remove_dir kill_child add_child]. by rewrite alter_insert_eq.
    + destruct (decide _); by intros [= <- <-].
Qed.

Lemma fresh_head a attempts h pid : fresh_pids (a :: attempts) h -> at_spawned a = Ok pid -> children h !! pid = None.
Proof.
  intros [_ Hf] Ha. rewrite Forall_forall in Hf. apply Hf. apply list_elem_of_omap. exists a. split; [by left|]. by rewrite Ha.
Qed.

Lemma fresh_tail a attempts h h' pid c :
  fresh_pids (a :: attempts) h -> at_spawned a = Ok pid -> children h' = <[pid := c]> (children h) -> fresh_pids attempts h'.
Proof.
  intros [Hn Hf] Ha E. unfold fresh_pids, pids in *. cbn [omap list_omap] in Hn, Hf. rewrite Ha in Hn, Hf.
  apply NoDup_cons in Hn as [Hnot Hn]. apply Forall_cons in Hf as [_ Hf]. split; [done|]. rewrite Forall_forall in Hf |- *.
  intros x Hx. rewrite E, lookup_insert_ne; [by apply Hf|]. by intros ->.
Qed.

Definition loop_leaves (attempts : list attempt) (thread : Z) (left : nat) (h h' : host) (e : loop_end) : Prop :=
  match e with
  | LoopConnected cid pid =>
      (cid ∉ dirs h) /\ dirs h' = ({[cid]} ∪ dirs h) /\ children h !! pid = None /\ only_added (S left) {[pid := Child cid thread Running]} h h'
  | LoopFailed _ =>
      only_added (S left) ∅ h h' /\
      (dirs h' = dirs h \/ Exists (fun a => reached_child a = false) attempts /\ exists cid, (cid ∉ dirs h) /\ dirs h' = {[cid]} ∪ dirs h)
  | LoopPanics _ => only_added (S left) ∅ h h' /\ dirs h' = dirs h
  end.

Lemma only_added_more n m alive h h' : (n <= m)%nat -> only_added n alive h h' -> only_added m alive h h'.
Proof. intros Hn [? ? ?]. split; [done|lia|done]. Qed.

Lemma loop_leaves_next attempts thread left a h h1 h' e :
  only_added 1 ∅ h h1 -> dirs h1 = dirs h -> loop_leaves attempts thread left h1 h' e -> loop_leaves (a :: attempts) thread (S left) h h' e.
Proof.
  intros Ha Hd. unfold loop_leaves. rewrite Hd. assert (Ht : forall alive, only_added (S left) alive h1 h' -> only_added (S (S left)) alive h h').
  { intros alive H. apply (only_added_trans 1 (S left) _ _ _ _ Ha H). }
  destruct e as [cid pid|er|msg].
  - intros (? & ? & Hn & ?). split_and!; [done..| |by apply Ht]. apply (lookup_weaken_None _ (children h1)); [done|]. by destruct Ha.
  - intros [? [?|[? ?]]]; (split; [by apply Ht|]); [by left|right]. split; [by right|done].
  - intros [? ?]. auto.
Qed.

Lemma launch_loop_spec show_qmp thread left attempts h h' e :
  fresh_pids attempts h -> launch_loop show_qmp thread left attempts h = Some (h', e) -> loop_leaves attempts thread left h h' e.
Proof.
  revert left h. induction attempts as [|a attempts IH]; intros left h Hf; cbn [launch_loop]; [done|].
  destruct (at_root a) as [_|e1]; [|intros [= <- <-]; split; [by eapply only_added_more, (only_added_refl 0); [lia|]|by left]].
  destruct (claim_cid _ _ _) as [[h1 c]|] eqn:Ec; [|done]. apply claim_spec in Ec as (Hk & _ & Hd).
  assert (H0 : only_added (S left) ∅ h h1) by (by eapply only_added_more, (only_added_refl 0); [lia|]).
  destruct c as [cid|e1|]; [|intros [= <- <-]; split; [done|by left]|by intros [= <- <-]].
  destruct Hd as [Hc Hd]. destruct (before_spawn a) as [u|e1] eqn:Eb.
  2:{ intros [= <- <-]. split; [done|]. right. split; [left; unfold reached_child; by rewrite Eb|by exists cid]. }
  destruct (try_child _ _ _ _ _ _) as [h2 r] eqn:Et.
  assert (Hp : forall pid, at_spawned a = Ok pid -> children h1 !! pid = None) by (intros pid Ha; rewrite Hk; by eapply fresh_head).
  apply (try_child_spec _ _ _ _ _ _ (dirs h) _ _ Hp Hc Hd) in Et as [_ Et].
  assert (Hfrom : forall n alive, only_added n alive h1 h2 -> only_added (0 + n) alive h h2).
  { intros n alive. apply only_added_trans. by apply only_added_refl. }
  destruct r as [pid|e1|].
  - destruct Et as (Ha & Hd2 & Hk2). intros [= <- <-]. split_and!; [done..|by eapply fresh_head|]. apply (only_added_more 1); [lia|]. by apply (Hfrom 1%nat).
  - destruct Et as [Hk2 Hd2]. intros [= <- <-]. split; [apply (only_added_more 1); [lia|]; by apply (Hfrom 1%nat)|].
    destruct (at_spawned a) eqn:Ea; [by left|right]. split; [left; unfold reached_child; by rewrite Eb, Ea|by exists cid].
  - destruct left as [|left]; [by destruct Et|]. destruct Et as (_ & Hd2 & Hk2 & pid & Ha & E).
    intros H. apply IH in H; [|rewrite Hk in E; by eapply fresh_tail]. apply (loop_leaves_next _ _ _ _ _ h2); [by apply (Hfrom 1%nat)|done|done].
Qed.

(** Nine attempts decide. *)
Lemma launch_loop_ends show_qmp thread left attempts h :
  0 <= next_cid h -> (left < length attempts)%nat -> is_Some (launch_loop show_qmp thread left attempts h).
Proof.
  revert left h. induction attempts as [|a attempts IH]; intros left h Hn Hl; cbn [launch_loop length] in *; [lia|].
  destruct (at_root a); [|by eexists].
  destruct (claim_ends (S (size (dirs h))) (at_created a) h Hn) as [[h1 c] Ec].
  { apply Nat.lt_succ_r, subseteq_size. intros x. rewrite elem_of_filter. by intros [_ ?]. }
  rewrite Ec. apply claim_spec in Ec as (_ & H1 & _). destruct c; [|by eexists..]. destruct (before_spawn a); [|by eexists].
  destruct (try_child _ _ _ _ _ _) as [h2 r] eqn:Et. destruct r; [by eexists..|].
  assert (next_cid h2 = next_cid h1 /\ left <> 0%nat) as [E Hleft].
  { revert Et. unfold try_child. destruct (at_spawned a); [|done]. destruct (at_socket a); [|done]. destruct (at_qmp a) as [|[e1 said]]; [done|].
    destruct (bool_decide _ && _) eqn:Em; [|by destruct (decide _)]. intros [= <-]. split; [done|]. destruct left; [|done].
    by rewrite andb_false_r in Em. }
  apply IH; [rewrite E; auto|]. destruct left; cbn [pred]; lia.
Qed.

(** The waits of a launch last until their time outs. *)
Record patient (opts_timeout : option Z) (ours : Z) (u : bring_up) : Prop := {
  pa_incoming : forall i, bu_incoming u = Some i -> Exists (fun t => in_started i + INCOMING_MIGRATION_TIMEOUT <= t.2) (in_turns i);
  pa_pings : forall d, agent_wait opts_timeout ours u = Ok d -> Exists (fun t => bu_started u + d <= t.2) (bu_pings u);
}.

Lemma come_up_ends show_client opts_timeout ours u cid pid h : patient opts_timeout ours u -> is_Some (come_up show_client opts_timeout ours u cid pid h).
Proof.
  intros [Hi Hp]. unfold come_up, come_in. destruct (bu_incoming u) as [i|].
  - destruct (wait_incoming_ends _ _ _ (Hi i eq_refl)) as [r ->]. destruct r as [|]; [|by eexists]. destruct (in_cont i); [|by eexists].
    destruct (agent_wait _ _ _) as [d|]; [|by eexists]. destruct (wait_for_agent_ends None _ _ (Hp d eq_refl)) as [[] ->]; by eexists.
  - destruct (agent_wait _ _ _) as [d|]; [|by eexists]. destruct (wait_for_agent_ends None _ _ (Hp d eq_refl)) as [[] ->]; by eexists.
Qed.

Lemma abandon_spec n cid pid c h h' ds :
  only_added n {[pid := c]} h h' -> children h !! pid = None -> dirs h' = {[cid]} ∪ ds -> cid ∉ ds ->
  only_added n ∅ h (abandon cid pid h') /\ dirs (abandon cid pid h') = ds.
Proof.
  intros [Hk Hs Hr] Hn Hd Hc. split; [|unfold abandon; cbn [dirs remove_dir kill_child]; rewrite Hd; by apply dirs_removed].
  split; unfold abandon; cbn [children remove_dir kill_child].
  - apply map_subseteq_spec. intros x y Hx. rewrite lookup_alter_ne by (intros ->; congruence). by eapply lookup_weaken.
  - etrans; [|exact Hs]. rewrite <- !size_dom, dom_alter_L. done.
  - rewrite (left_id_L ∅ (∪)). transitivity (delete pid (running_children h')).
    + apply map_eq. intros x. apply option_eq. intros y. unfold running_children; cbn [children remove_dir kill_child].
      rewrite lookup_delete_Some, !map_lookup_filter_Some. destruct (decide (pid = x)) as [<-|Hx].
      * rewrite lookup_alter_eq. split; [|naive_solver]. intros [Hy Hst]. apply fmap_Some in Hy as (z & _ & ->). by cbn in Hst.
      * rewrite lookup_alter_ne by done. naive_solver.
    + rewrite Hr. rewrite <- insert_union_singleton_l, delete_insert_id; [done|]. unfold running_children. apply map_lookup_filter_None. by left.
Qed.

(** C22: what a launch leaves. A launch comes to an end: after nine attempts at
    most, as many children, and the time outs. The children there were are left
    alone. If the machine is up, it has answered a ping, its directory is one
    that was not there, and its child is the one running child there is more; if
    the launch failed, no running child is left, and no directory unless an
    attempt failed before it had a child; what panics before the machine is
    handed over leaves both only if it is the time out that cannot be counted. *)
Theorem launch_cleans_up show_qmp show_client thread checks attempts opts_timeout ours u h :
  0 <= next_cid h -> fresh_pids attempts h -> (CID_RETRY_ATTEMPTS < length attempts)%nat -> patient opts_timeout ours u ->
  exists h' e, launch_or_restore show_qmp show_client thread checks attempts opts_timeout ours u h = Some (h', e) /\
    children h ⊆ children h' /\ (size (children h') <= size (children h) + 9)%nat /\
    match e with
    | Launched cid pid =>
        (exists v now, (Ok v, now) ∈ bu_pings u) /\ (cid ∉ dirs h) /\ dirs h' = ({[cid]} ∪ dirs h) /\
        children h !! pid = None /\ running_children h' = {[pid := Child cid thread Running]} ∪ running_children h
    | LaunchFailed _ =>
        running_children h' = running_children h /\
        (dirs h' = dirs h \/ Exists (fun a => reached_child a = false) attempts /\ exists cid, (cid ∉ dirs h) /\ dirs h' = {[cid]} ∪ dirs h)
    | LaunchPanics _ =>
        running_children h' = running_children h /\ dirs h' = dirs h \/
        (exists msg, agent_wait opts_timeout ours u = Err msg) /\
        exists cid pid, (cid ∉ dirs h) /\ dirs h' = ({[cid]} ∪ dirs h) /\ running_children h' = {[pid := Child cid thread Running]} ∪ running_children h
    end.
Proof.
  intros Hn Hf Hl Hpa. unfold launch_or_restore. destruct checks as [ds|e0]; [|exists h, (LaunchFailed e0); split_and!; [done..|lia|done|by left]].
  destruct (launch_loop_ends show_qmp thread CID_RETRY_ATTEMPTS attempts h Hn Hl) as [[h1 e1] E]. rewrite E.
  apply launch_loop_spec in E; [|done]. unfold loop_leaves, CID_RETRY_ATTEMPTS in E. destruct e1 as [cid pid|e1|msg]; cbv beta iota.
  2:{ destruct E as [[K S' R] D]. exists h1, (LaunchFailed e1). split_and!; [done..|by rewrite R, (left_id_L ∅ (∪))|done]. }
  2:{ destruct E as [[K S' R] D]. exists h1, (LaunchPanics msg). split_and!; [done..|]. left. split; [by rewrite R, (left_id_L ∅ (∪))|done]. }
  destruct E as (Hc & Hd & Hfresh & Ho). destruct (abandon_spec _ _ _ _ _ _ _ Ho Hfresh Hd Hc) as [[AK AS AR] AD].
  rewrite (left_id_L ∅ (∪)) in AR. destruct Ho as [K S' R]. destruct (come_up_ends show_client _ _ _ cid pid h1 Hpa) as [[h2 e2] Eu]. exists h2, e2. rewrite Eu. split; [done|].
  unfold come_up in Eu. destruct (come_in u) as [[v|m]|]; [| |done]; [|by simplify_eq; split_and!; auto].
  destruct (agent_wait _ _ _) as [d|m]; [|simplify_eq; split_and!; [done..|right; eauto 8]].
  destruct (wait_for_agent _ _ _) as [[[]|m]|] eqn:Ew; [| |done]; simplify_eq; [|by split_and!; auto].
  split_and!; [done|done|by eapply wait_for_agent_up|done..].
Qed.

(** * Examples *)

(** ** An initrd *)

(** A name that gives the contents back. *)
Definition demo_sha (b : bytes) : string := "k" +:+ text b.

Lemma demo_path b : merged_path "/s" (demo_sha b) = text (bytes_of "/s/agent-overlay-cache/k" ++ b ++ bytes_of ".cpio.gz").
Proof.
  rewrite !text_app, !text_bytes_of. unfold merged_path, path_join, demo_sha. reflexivity.
Qed.

Lemma demo_no_collision : no_collision demo_sha "/s".
Proof.
  intros a b. rewrite !demo_path. intros E%(f_equal bytes_of). unfold text, bytes_of in E. rewrite !String.list_byte_of_string_of_list_byte in E.
  by apply app_inv_head, app_inv_tail in E.
Qed.

Definition boot_profile (initrd : string) (inject : bool) : profile :=
  Profile "/k" initrd None [] "quiet" None "peios" inject (Some "/o") None None None None.

Definition demo_initrds : files := <["/i" := bytes_of "user"]> (<["/o" := bytes_of "agent"]> ∅).

(** The profile's word first, the environment's unless it is empty, then what is
    installed beside the binary or built above it. *)
Example overlay_found :
  let p o := Profile "/k" "" None [] "" None "peios" true o None None None None in
  locate_overlay (p (Some "/mine")) (Some "/env") (Some "/bin") (fun _ => true) (fun _ => None) = Some "/mine" /\
  locate_overlay (p None) (Some "/env") (Some "/bin") (fun _ => true) (fun _ => None) = Some "/env" /\
  locate_overlay (p None) (Some "") (Some "/w/target") (fun f => bool_decide (f = "/w/dist/agent-overlay.cpio.gz")) (fun d => if decide (d = "/w/target") then Some "/w" else None) =
    Some "/w/dist/agent-overlay.cpio.gz".
Proof. split_and!; vm_compute; reflexivity. Qed.

(** A cold cache, then a warm one, whatever writing would have come to. *)
Example overlay_cold :
  let '(fs, r) := prepare_initrd demo_sha (boot_profile "/i" true) (bytes_of "quiet") "/s" (Some "/o") (Ok ()) (Ok ()) demo_initrds in
  r = Ok (PreparedInitrd "/s/agent-overlay-cache/kuseragent.cpio.gz" (bytes_of "quiet rdinit=/sbin/provium-agent") true) /\
  fs !! "/s/agent-overlay-cache/kuseragent.cpio.gz" = Some (bytes_of "useragent") /\
  (prepare_initrd demo_sha (boot_profile "/i" true) (bytes_of "quiet") "/s" (Some "/o") (Ok ()) (Err "No space left on device") fs).2 = r.
Proof. vm_compute. repeat split. Qed.

Lemma overlay_is_appended_witness :
  exists fs i, prepare_initrd demo_sha (boot_profile "/i" true) (bytes_of "quiet") "/s" (Some "/o") (Ok ()) (Ok ()) demo_initrds = (fs, Ok i) /\
    demo_initrds ⊆ fs /\ parse_rdinit (pi_cmdline i) = Some OVERLAY_AGENT_PATH.
Proof.
  destruct (prepare_initrd _ _ _ _ _ _ _ _) as [fs r] eqn:E. pose proof overlay_cold as Hc. rewrite E in Hc. destruct Hc as [-> _].
  apply (overlay_is_appended demo_sha _ _ _ _ _ _ _ _ _ demo_no_collision) in E.
  - destruct E as (_ & Hsub & _ & Hrd & _). eexists fs, _. split; [reflexivity|]. by split.
  - intros b c. rewrite demo_path. unfold demo_initrds. rewrite !lookup_insert_ne; [by rewrite lookup_empty|..].
    all: rewrite !text_app, text_bytes_of; discriminate.
Defined.

(** A line that pins another agent is refused, and one that names it after
    pinning the overlay's is not seen. *)
Example pinned_twice :
  pinned (bytes_of "rdinit=/init quiet") = Some (bytes_of "/init") /\
  pinned (bytes_of "rdinit=/sbin/provium-agent rdinit=/init") = None /\
  with_rdinit (bytes_of "rdinit=/sbin/provium-agent rdinit=/init") = bytes_of "rdinit=/sbin/provium-agent rdinit=/init".
Proof. split_and!; vm_compute; reflexivity. Qed.

(** ** Disks *)

Definition demo_config : vmm_config := QemuVmmConfig "qemu-system-x86_64" 1234 "/tmp/provium-qemu" AGENT_BOOT_TIMEOUT true.
Definition boot_disks : list attached_disk := [AttachedDisk "data" "/build,new/data.img" false false; AttachedDisk "log" "/log.img" true true].

Lemma plan_attaches_disks_witness :
  guest_disks (read_args (arguments (build_qemu_command no_calendar
    (launch_plan_of demo_config "web" "/k" "/i" (bytes_of "quiet") 5 boot_opts_default boot_disks None)))) =
  [Some (bytes_of "data", bytes_of "/build,new/data.img", false, false);
   Some (bytes_of "log", bytes_of "nbd+unix:///?socket=/tmp/provium-qemu/vm-5/log.nbd.sock", true, true)].
Proof.
  etransitivity; [apply plan_attaches_disks|vm_compute; reflexivity].
  - repeat constructor; by apply plain_const.
  - apply (bool_decide_unpack _). vm_compute. exact I.
Defined.

(** ** A launch *)

Definition fine (spawned : result Z string) (answer : result () (qmp_error * bytes)) : attempt :=
  Attempt (Ok ()) (Ok ()) (Ok ()) (Ok ()) (Ok ()) [] spawned (Ok ()) answer.

Definition taken : result () (qmp_error * bytes) :=
  Err (QIo "refused", bytes_of "qemu: -device vhost-vsock-pci: unable to set guest cid: Address in use").

(** A directory of an earlier run is there, the kernel holds the next identifier,
    and the one after it is free. *)
Definition demo_host : host := Host 3 {[3]} ∅.
Definition demo_attempts : list attempt := fine (Ok 100) taken :: fine (Ok 101) (Ok ()) :: replicate 7 (fine (Err "unused") (Ok ())).

Definition demo_up : bring_up := BringUp None None None 0 [(Err (Connect "refused"), 1000); (Ok (), 50000); (Err (Connect "late"), AGENT_BOOT_TIMEOUT)].

Definition demo_launch (u : bring_up) : option (host * launch_end) :=
  launch_or_restore (fun _ => "") (fun _ => "") 0 (Ok []) demo_attempts None AGENT_BOOT_TIMEOUT u demo_host.

Lemma demo_fresh : fresh_pids demo_attempts demo_host.
Proof. split; [apply (bool_decide_unpack _); vm_compute; exact I|repeat constructor]. Qed.

Example second_attempt :
  demo_launch demo_up = Some (Host 6 {[3; 5]} (<[100 := Child 4 0 Zombie]> {[101 := Child 5 0 Running]}), Launched 5 101).
Proof. vm_compute. reflexivity. Qed.

Lemma launch_cleans_up_witness :
  exists h' e, demo_launch demo_up = Some (h', e) /\ children demo_host ⊆ children h' /\ (size (children h') <= 0 + 9)%nat.
Proof.
  destruct (launch_cleans_up (fun _ => "") (fun _ => "") 0 (Ok []) demo_attempts None AGENT_BOOT_TIMEOUT demo_up demo_host) as (h' & e & H1 & H2 & H3 & _).
  - done.
  - exact demo_fresh.
  - unfold CID_RETRY_ATTEMPTS. cbn. lia.
  - split; [done|]. intros d [= <-]. right. right. left. cbn. lia.
  - by exists h', e.
Defined.

(** An attempt that fails before it has a child leaves its directory. *)
Lemma scratch_left :
  let a := Attempt (Ok ()) (Ok ()) (Ok ()) (Err (cmdline_pinned (bytes_of "/init"))) (Ok ()) [] (Ok 100) (Ok ()) (Ok ()) in
  launch_or_restore (fun _ => "") (fun _ => "") 0 (Ok []) [a] None AGENT_BOOT_TIMEOUT demo_up (Host 3 ∅ ∅) =
    Some (Host 4 {[3]} ∅, LaunchFailed (cmdline_pinned (bytes_of "/init"))).
Proof. vm_compute. reflexivity. Qed.

(** The time out of a profile that validation lets pass and the launch cannot
    count, 2 to the 70: the machine runs on with nobody to shut it down. *)
Lemma long_timeout_panics :
  positive_finite (S754_finite false (2 ^ 52) 18) = true /\
  exists msg, demo_launch (BringUp None None (Some (S754_finite false (2 ^ 52) 18)) 0 []) =
    Some (Host 6 {[3; 5]} (<[100 := Child 4 0 Zombie]> {[101 := Child 5 0 Running]}), LaunchPanics msg).
Proof. split; [vm_compute; reflexivity|]. eexists. vm_compute. reflexivity. Qed.

(** A machine that a worker thread launched does not outlive the worker. *)
Lemma worker_takes_machines :
  exists h pid, demo_launch demo_up = Some (h, Launched 5 pid) /\
    children (thread_ends 0 h) !! pid = Some (Child 5 0 Zombie).
Proof. eexists _, _. split; [vm_compute; reflexivity|]. vm_compute. reflexivity. Qed.

