(* ===== verification/QemuBackend.v ===== *)
(** The backend of a running QEMU, [QemuBackend] of
    [src/provium-host/src/vmm/qemu.rs]: its operations, how a machine is shut
    down, and what all the machines of a host are up to. *)
From S2P Require Import Prelude Text Names Pool Nbd Qmp QmpEvents VmOpts AgentClient Vm Dispatch DiskPorts QemuArgs QemuLaunch.

Open Scope string_scope.
Open Scope list_scope.
Open Scope Z_scope.

(** * [QemuBackend] *)

(** What is left of the monitor and of the child, the servers of the mediated
    disks, and the ports. *)
Record backend (M : Type) := QemuBackend {
  be_qmp : option M; be_child : option Z; be_mediated : list (string * Nbd.shared); be_ports : slots }.
Arguments QemuBackend {M}.
Arguments be_qmp {M}.
Arguments be_child {M}.
Arguments be_mediated {M}.
Arguments be_ports {M}.

Definition already_shut_down : vmm_error := Unimplemented "VM already shut down".

Definition POWER_BUTTON_TIMEOUT : Z := 60000000000.
Definition MIGRATION_TIMEOUT : Z := 60000000000.
Definition SHUTDOWN_GRACE : Z := 2000000000.

(** What a wait for an event sees: the log at its mark, the log as it starts,
    and its wake-ups. *)
Record watch := Watch { w_mark : event_log; w_log : event_log; w_wakes : list wake }.

Definition lift {A} (r : result A qmp_error) : result A vmm_error := match r with Ok a => Ok a | Err e => Err (VmmQmp e) end.

(** [Path::with_extension] of a path whose last component is a name. *)
Definition dot : byte := x2e.
Definition slash : byte := x2f.

Fixpoint before_last (c : byte) (bs : bytes) : option bytes :=
  match bs with
  | [] => None
  | b :: bs => match before_last c bs with Some pre => Some (b :: pre) | None => if decide (b = c) then Some [] else None end
  end.

Definition file_stem (name : bytes) : bytes := match before_last dot name with Some ((_ :: _) as stem) => stem | _ => name end.

Definition with_extension (path ext : bytes) : bytes :=
  match before_last slash path with
  | Some dir => dir ++ slash :: file_stem (drop (S (length dir)) path)
  | None => file_stem path
  end ++ dot :: ext.

Definition snapshot_tmp (path : string) : string := text (with_extension (bytes_of path) (bytes_of "snap.tmp")).

Definition rename_file (from to : string) (failed : option string) (fs : files) : files * result () string :=
  match failed, fs !! from with
  | Some e, _ => (fs, Err e)
  | None, None => (fs, Err not_found)
  | None, Some b => (<[to := b]> (delete from fs), Ok ())
  end.

Section operations.
Context {M : Type} `{!Monitor M} (exec : string -> json -> M -> M * result json qmp_error).

Implicit Types b : backend M.

Definition with_qmp {A} (op : M -> M * result A vmm_error) b : backend M * result A vmm_error :=
  match be_qmp b with
  | None => (b, Err already_shut_down)
  | Some q => let (q, r) := op q in (QemuBackend (Some q) (be_child b) (be_mediated b) (be_ports b), r)
  end.

Definition run (name : string) (args : json) (q : M) : M * result () vmm_error :=
  match exec name args q with
  | (q, Ok _) => (q, Ok ())
  | (q, Err e) => (q, Err (VmmQmp e))
  end.

Definition pause b := with_qmp (run "stop" JNull) b.
Definition resume b := with_qmp (run "cont" JNull) b.
Definition wakeup b := with_qmp (run "system_wakeup" JNull) b.
Definition set_link (netdev_id : string) (up : bool) b := with_qmp (run "set_link" (JObj [("name", JStr netdev_id); ("up", JBool up)])) b.
Definition detach_disk (disk_id : string) b := with_qmp (run "device_del" (JObj [("id", JStr disk_id)])) b.

Definition set_reboot (action : string) : M -> M * result () vmm_error := run "set-action" (JObj [("reboot", JStr action)]).
Definition end_reset_window b := with_qmp (set_reboot "shutdown") b.

Definition is_suspended b : backend M * result bool vmm_error :=
  with_qmp (fun q => let (q, r) := exec "query-status" JNull q in
                     (q, match lift (query_status r) with Ok s => Ok (bool_decide (s = "suspended")) | Err e => Err e end)) b.

(** A wait ends or is still on ([None]). *)
Definition RESET_EVENT_TIMEOUT : Z := 10000000000.

Definition reset (w : watch) b : option (backend M * result () vmm_error) :=
  match be_qmp b with
  | None => Some (b, Err already_shut_down)
  | Some q =>
      let done q r := Some (QemuBackend (Some q) (be_child b) (be_mediated b) (be_ports b), r) in
      match set_reboot "reset" q with
      | (q, Err e) => done q (Err e)
      | (q, Ok _) =>
          match run "system_reset" JNull q with
          | (q, Err e) => done q (Err e)
          | (q, Ok _) =>
              match wait_event "RESET" (fun _ => true) (event_mark (w_mark w)) RESET_EVENT_TIMEOUT (w_log w) (w_wakes w) with
              | None => None
              | Some r => done q (match lift r with Ok _ => Ok () | Err e => Err e end)
              end
          end
      end
  end.

Definition power_button (w : watch) b : option (backend M * result () vmm_error) :=
  match be_qmp b with
  | None => Some (b, Err already_shut_down)
  | Some q =>
      let (q, executed) := exec "system_powerdown" JNull q in
      match powerdown_and_wait (w_mark w) executed POWER_BUTTON_TIMEOUT (w_log w) (w_wakes w) with
      | None => None
      | Some r => Some (QemuBackend (Some q) (be_child b) (be_mediated b) (be_ports b), lift r)
      end
  end.

(** [image] is what QEMU has written by the end of the wait, and [renamed] why
    putting it in place fails, if it does. *)
Definition snapshot (path : string) (w : watch) (image : option bytes) (renamed : option string) (fs : files) b
  : option (files * (backend M * result () vmm_error)) :=
  match be_qmp b with
  | None => Some (fs, (b, Err already_shut_down))
  | Some q =>
      let tmp := snapshot_tmp path in
      let (q, executed) := exec "migrate" (JObj [("uri", JStr ("file:" +:+ tmp))]) q in
      let fs := match image with Some i => <[tmp := i]> fs | None => fs end in
      let b := QemuBackend (Some q) (be_child b) (be_mediated b) (be_ports b) in
      match executed with
      | Err e => Some (fs, (b, Err (VmmQmp e)))
      | Ok _ =>
          match wait_migration_completed (event_mark (w_mark w)) MIGRATION_TIMEOUT (w_log w) (w_wakes w) with
          | None => None
          | Some (Err e) => Some (delete tmp fs, (b, Err (VmmQmp e)))
          | Some (Ok _) =>
              match rename_file tmp path renamed fs with
              | (fs, Ok _) => Some (fs, (b, Ok ()))
              | (fs, Err e) => Some (delete tmp fs, (b, Err (VmmIo e)))
              end
          end
      end
  end.

(** ** Disks *)

Definition not_mediated (disk_id op : string) : vmm_error :=
  VmmIo ("disk `" +:+ disk_id +:+ "` is not mediated — `" +:+ op +:+ "` needs `mediated = true` on the disk when the VM boots").

Fixpoint first_server (disk_id : string) (ds : list (string * Nbd.shared)) : option (nat * Nbd.shared) :=
  match ds with
  | [] => None
  | (id, s) :: ds => if decide (id = disk_id) then Some (O, s) else '(i, s) ← first_server disk_id ds; Some (S i, s)
  end.

Definition mediated_disk (disk_id op : string) b : result (nat * Nbd.shared) vmm_error :=
  match first_server disk_id (be_mediated b) with Some x => Ok x | None => Err (not_mediated disk_id op) end.

Definition set_server (disk_id : string) (i : nat) (s : Nbd.shared) b : backend M :=
  QemuBackend (be_qmp b) (be_child b) (<[i := (disk_id, s)]> (be_mediated b)) (be_ports b).

Definition guest_sees : string := "a fault the guest can see".

Definition power_cut_disk (disk_id : string) b : backend M * result () vmm_error :=
  match mediated_disk disk_id "power_cut" b with
  | Err e => (b, Err e)
  | Ok (i, s) => (set_server disk_id i (Shared (power_cut (Nbd.state s)) (policy s) (io_count s)) b, Ok ())
  end.

Definition set_disk_policy (disk_id : string) (p : fault_policy) b : backend M * result () vmm_error :=
  match mediated_disk disk_id guest_sees b with
  | Err e => (b, Err e)
  | Ok (i, s) => (set_server disk_id i (set_policy s p) b, Ok ())
  end.

Definition disk_policy (disk_id : string) b : result fault_policy vmm_error :=
  match mediated_disk disk_id guest_sees b with Err e => Err e | Ok (_, s) => Ok (policy s) end.

Definition attach_disk (disk_id image : string) (readonly : bool) b : backend M * result () vmm_error :=
  match be_qmp b with
  | None => (b, Err already_shut_down)
  | Some q =>
      let '(ports, q, r) := attach disk_id image readonly (be_ports b) q in
      (QemuBackend (Some q) (be_child b) (be_mediated b) ports, r)
  end.
End operations.

(** * Shutting down *)

(** The child is waited for: it is there no more. *)
Definition reap (pid : Z) (h : host) : host := Host (next_cid h) (dirs h) (delete pid (children h)).

(** The turns of the loop that waits, each with what [try_wait] says and the
    clock; [None]: more are needed. *)
Fixpoint await_child (deadline : Z) (turns : list (result bool string * Z)) : option (result () string) :=
  match turns with
  | [] => None
  | (Err e, _) :: _ => Some (Err e)
  | (Ok true, _) :: _ => Some (Ok ())
  | (Ok false, now) :: turns => if deadline <=? now then Some (Ok ()) else await_child deadline turns
  end.

(** [shutdown]: at the deadline the child is killed and waited for. *)
Definition shutdown {M} (cid start : Z) (turns : list (result bool string * Z)) (b : backend M) (h : host)
  : option (backend M * host * result () vmm_error) :=
  let b' := QemuBackend None None (be_mediated b) (be_ports b) in
  match be_child b with
  | None => Some (b', remove_dir cid h, Ok ())
  | Some pid =>
      match await_child (start + SHUTDOWN_GRACE) turns with
      | None => None
      | Some (Err e) => Some (b', h, Err (VmmIo e))
      | Some (Ok _) => Some (b', remove_dir cid (reap pid h), Ok ())
      end
  end.

Lemma await_child_ends deadline turns : Exists (fun t => deadline <= t.2) turns -> is_Some (await_child deadline turns).
Proof.
  induction 1 as [[r now] turns H|[r now] turns _ IH]; cbn [await_child]; (destruct r as [[]|]; [by eexists| |by eexists]).
  - rewrite (proj2 (Z.leb_le _ _)) by done. by eexists.
  - destruct (deadline <=? now); [by eexists|done].
Qed.

(** What the launch hands over. *)
Definition launched_backend {M} (q : M) (pid : Z) (servers : list (string * Nbd.shared)) (disk_ids : list string) : backend M :=
  QemuBackend (Some q) (Some pid) servers (ports_new (port_names disk_ids)).

(** * The machines of a host *)

(** How far a launch and the machine it becomes are: its directory is made, its
    child is started, it is handed over, it was shut down and its handle is not
    dropped yet (with a child nobody waited for, if waiting failed), its child
    is left to nobody with its directory, or without it. *)
Inductive phase :=
| Making | Spawned (pid : Z) | Live (pid : Z) | Closing (unwaited : option Z) | Orphan (pid : Z) | Stray (pid : Z).

Definition pid_of (p : phase) : option Z :=
  match p with Making => None | Spawned pid | Live pid | Orphan pid | Stray pid => Some pid | Closing unwaited => unwaited end.

(** Whether its directory is still its own: after a shutdown that went well it
    is gone, and another process may have made it again. *)
Definition holds (p : phase) : Prop := p <> Closing None.

(** The launches by number, each with its identifier. [swept]: the identifiers
    whose directory was there when a shutdown was run a second time, by the drop
    of the handle, and was removed. *)
Record yard := Yard { on_host : host; owners : gmap nat (Z * phase); swept : gset Z }.

(** What happens on a host whose processes share the directories, and which
    launch does it; a thread that ends takes the children it made along. *)
Inductive yard_step : option nat -> yard -> yard -> Prop :=
| YCount i n h o w : yard_step (Some i) (Yard h o w) (Yard (Host n (dirs h) (children h)) o w)
| YClaim i cid h o w : o !! i = None -> cid ∉ dirs h ->
    yard_step (Some i) (Yard h o w) (Yard (Host (next_cid h) ({[cid]} ∪ dirs h) (children h)) (<[i := (cid, Making)]> o) w)
| YFail i cid h o w : o !! i = Some (cid, Making) -> yard_step (Some i) (Yard h o w) (Yard h (delete i o) w)
| YSpawn i cid pid t h o w : o !! i = Some (cid, Making) -> children h !! pid = None ->
    yard_step (Some i) (Yard h o w) (Yard (add_child pid (Child cid t Running) h) (<[i := (cid, Spawned pid)]> o) w)
| YAbandon i cid pid h o w : o !! i = Some (cid, Spawned pid) ->
    yard_step (Some i) (Yard h o w) (Yard (abandon cid pid h) (delete i o) w)
| YUp i cid pid h o w : o !! i = Some (cid, Spawned pid) -> yard_step (Some i) (Yard h o w) (Yard h (<[i := (cid, Live pid)]> o) w)
| YPanic i cid pid h o w : o !! i = Some (cid, Spawned pid) -> yard_step (Some i) (Yard h o w) (Yard h (<[i := (cid, Orphan pid)]> o) w)
| YShutdown i cid pid h o w : o !! i = Some (cid, Live pid) ->
    yard_step (Some i) (Yard h o w) (Yard (remove_dir cid (reap pid h)) (<[i := (cid, Closing None)]> o) w)
| YUnwaited i cid pid h o w : o !! i = Some (cid, Live pid) ->
    yard_step (Some i) (Yard h o w) (Yard h (<[i := (cid, Closing (Some pid))]> o) w)
| YDrop i cid unwaited h o w : o !! i = Some (cid, Closing unwaited) ->
    yard_step (Some i) (Yard h o w)
      (Yard (remove_dir cid h) (match unwaited with Some pid => <[i := (cid, Stray pid)]> o | None => delete i o end)
         (if decide (cid ∈ dirs h) then {[cid]} ∪ w else w))
| YDropLive i cid pid h o w : o !! i = Some (cid, Live pid) ->
    yard_step (Some i) (Yard h o w) (Yard (remove_dir cid (reap pid h)) (delete i o) w)
| YDropUnwaited i cid pid h o w : o !! i = Some (cid, Live pid) ->
    yard_step (Some i) (Yard h o w) (Yard h (<[i := (cid, Orphan pid)]> o) w)
| YExit i cid p pid h o w : o !! i = Some (cid, p) -> pid_of p = Some pid ->
    yard_step (Some i) (Yard h o w) (Yard (kill_child pid h) o w)
| YThread t h o w : yard_step None (Yard h o w) (Yard (thread_ends t h) o w).

Definition yard_any (y y' : yard) : Prop := exists a, yard_step a y y'.

(** Directories that were there before anything was started. *)
Definition yard_start (next : Z) (stale : gset Z) : yard := Yard (Host next stale ∅) ∅ ∅.

Record yard_ok (y : yard) : Prop := {
  yo_dirs : forall i cid p, owners y !! i = Some (cid, p) -> holds p -> cid ∈ dirs (on_host y) \/ cid ∈ swept y;
  yo_alone : forall i j cid p q, owners y !! i = Some (cid, p) -> owners y !! j = Some (cid, q) -> holds p -> holds q ->
    i = j \/ cid ∈ swept y;
  yo_owned : forall pid c, children (on_host y) !! pid = Some c -> ch_state c = Running ->
    exists i p, owners y !! i = Some (ch_cid c, p) /\ pid_of p = Some pid;
}.

Lemma yard_start_ok next stale : yard_ok (yard_start next stale).
Proof. by split; cbn; intros *; rewrite lookup_empty. Qed.

Lemma killed_running pid h x c : children (kill_child pid h) !! x = Some c -> ch_state c = Running -> x <> pid /\ children h !! x = Some c.
Proof.
  cbn [children kill_child]. destruct (decide (pid = x)) as [->|Hne].
  - rewrite lookup_alter_eq. intros (? & ? & ->)%fmap_Some. done.
  - rewrite lookup_alter_ne by done. auto.
Qed.

(** A launch goes, or comes to a phase, with the directories and children there
    are then: what remains to be seen is that of its own. *)
Lemma ok_change y i cid p (q : option phase) h' w' :
  yard_ok y -> owners y !! i = Some (cid, p) -> swept y ⊆ w' ->
  (forall d, d ∈ dirs (on_host y) -> d ∈ dirs h' \/ d ∈ w' \/
     (d = cid /\ forall r, q = Some r -> ~ holds r) /\ holds p) ->
  (forall r, q = Some r -> holds r -> holds p) ->
  (forall x c, children h' !! x = Some c -> ch_state c = Running ->
     children (on_host y) !! x = Some c /\ (pid_of p = Some x -> exists r, q = Some r /\ pid_of r = Some x)) ->
  yard_ok (Yard h' (match q with Some r => <[i := (cid, r)]> (owners y) | None => delete i (owners y) end) w').
Proof.
  intros [Hd Ha Hw] Hi Hs Hdirs Hq Hch.
  assert (Hold : forall j c r, (match q with Some r => <[i := (cid, r)]> (owners y) | None => delete i (owners y) end) !! j = Some (c, r) ->
    (j <> i /\ owners y !! j = Some (c, r)) \/ (j = i /\ c = cid /\ q = Some r)).
  { intros j c r. destruct q as [r'|].
    - intros [(<- & [= -> ->])|[Hne Hj]]%lookup_insert_Some; [by right|by left].
    - intros [Hne Hj]%lookup_delete_Some. by left. }
  split; cbn [on_host owners swept].
  - intros j c r Hj Hh. apply Hold in Hj as [(Hne & Hj)|(-> & -> & Hr)].
    + destruct (Hd _ _ _ Hj Hh) as [Hin|Hin]; [|right; by apply Hs].
      destruct (Hdirs _ Hin) as [?|[?|([-> _] & Hp)]]; [by left|by right|].
      destruct (Ha _ _ _ _ _ Hj Hi Hh Hp) as [->|?]; [done|right; by apply Hs].
    + destruct (Hd _ _ _ Hi (Hq _ Hr Hh)) as [Hin|Hin]; [|right; by apply Hs].
      destruct (Hdirs _ Hin) as [?|[?|([_ Hno] & _)]]; [by left|by right|]. by destruct (Hno _ Hr).
  - intros j k c r1 r2 Hj Hk H1 H2.
    apply Hold in Hj as [(Hnj & Hj)|(-> & -> & Hr1)]; apply Hold in Hk as [(Hnk & Hk)|(-> & Hc & Hr2)]; try subst c; auto.
    + destruct (Ha _ _ _ _ _ Hj Hk H1 H2); auto.
    + destruct (Ha _ _ _ _ _ Hj Hi H1 (Hq _ Hr2 H2)); auto.
    + destruct (Ha _ _ _ _ _ Hi Hk (Hq _ Hr1 H1) H2); auto.
  - intros x c Hx Hr. destruct (Hch x c Hx Hr) as [Hy Hmine]. destruct (Hw x c Hy Hr) as (j & r & Hj & Hp).
    destruct (decide (j = i)) as [->|Hne].
    + rewrite Hi in Hj. injection Hj as Hc <-. destruct (Hmine Hp) as (r' & -> & Hr'). exists i, r'. by rewrite lookup_insert_eq, Hc.
    + exists j, r. split; [|done]. destruct q; [by rewrite lookup_insert_ne|by rewrite lookup_delete_ne].
Qed.

Lemma yard_step_ok a y y' : yard_step a y y' -> yard_ok y -> yard_ok y'.
Proof.
  intros Hstep Hok. pose proof Hok as [Hd Ha Hw].
  assert (Hdead : forall pid h o w x c, children (kill_child pid h) !! x = Some c -> ch_state c = Running -> children (on_host (Yard h o w)) !! x = Some c /\ x <> pid).
  { intros pid h o w x c Hx Hr. by destruct (killed_running _ _ _ _ Hx Hr). }
  assert (Hreap : forall pid h o w x c, children (reap pid h) !! x = Some c -> children (on_host (Yard h o w)) !! x = Some c /\ x <> pid).
  { intros pid h o w x c Hx. cbn [children reap] in Hx. by apply lookup_delete_Some in Hx as [? ?]. }
  destruct Hstep as [i n h o w|i cid h o w Ho Hc|i cid h o w Ho|i cid pid t h o w Ho Hp|i cid pid h o w Ho|i cid pid h o w Ho|i cid pid h o w Ho
    |i cid pid h o w Ho|i cid pid h o w Ho|i cid u h o w Ho|i cid pid h o w Ho|i cid pid h o w Ho|i cid p pid h o w Ho Hp|t h o w]; cbn [on_host owners swept] in *.
  - by split.
  - assert (Hnew : forall j c p, <[i := (cid, Making)]> o !! j = Some (c, p) -> (j = i /\ c = cid) \/ o !! j = Some (c, p)).
    { intros j c p [(<- & [= <- <-])|[_ Hj]]%lookup_insert_Some; auto. }
    assert (Hothers : forall j p, o !! j = Some (cid, p) -> holds p -> cid ∈ w).
    { intros j p Hj Hh. by destruct (Hd _ _ _ Hj Hh). }
    split; cbn [on_host owners swept dirs children].
    + intros j c p [(-> & ->)|Hj]%Hnew Hh; [set_solver|]. destruct (Hd _ _ _ Hj Hh); set_solver.
    + intros j k c p q [(-> & ->)|Hj]%Hnew [(-> & Hcc)|Hk]%Hnew H1 H2; try subst c; eauto.
    + intros x c Hx Hr. destruct (Hw x c Hx Hr) as (j & p & Hj & Hp). exists j, p. split; [|done].
      rewrite lookup_insert_ne; [done|]. intros ->. congruence.
  - eapply (ok_change (Yard h o w) i cid Making None); try done; auto.
  - assert (Hok' : yard_ok (Yard h (<[i := (cid, Spawned pid)]> o) w)) by (eapply (ok_change (Yard h o w) i cid Making (Some (Spawned pid))); try done; auto).
    destruct Hok' as [Hd' Ha' Hw']. split; [exact Hd'|exact Ha'|]. cbn [on_host owners children add_child] in *.
    intros x c [(<- & <-)|[_ Hx]]%lookup_insert_Some Hr; [|by apply Hw'].
    exists i, (Spawned pid). by rewrite lookup_insert_eq.
  - eapply (ok_change (Yard h o w) i cid (Spawned pid) None); try done.
    + intros d Hin. cbn [dirs abandon remove_dir kill_child]. destruct (decide (d = cid)); [|set_solver]. right. right. by split_and!.
    + intros x c Hx Hr. apply (Hdead pid h o w) in Hx as [? ?]; [|done]. split; [done|]. intros [= <-]. done.
  - eapply (ok_change (Yard h o w) i cid (Spawned pid) (Some (Live pid))); try done; auto. intros x c Hx _. split; [done|]. intros [= <-]. by exists (Live pid).
  - eapply (ok_change (Yard h o w) i cid (Spawned pid) (Some (Orphan pid))); try done; auto. intros x c Hx _. split; [done|]. intros [= <-]. by exists (Orphan pid).
  - eapply (ok_change (Yard h o w) i cid (Live pid) (Some (Closing None))); try done.
    + intros d Hin. cbn [dirs reap remove_dir]. destruct (decide (d = cid)); [|set_solver]. right. right. split_and!; [done| |done]. intros r [= <-] Hh. by apply Hh.
    + intros x c Hx Hr. apply (Hreap pid h o w) in Hx as [? ?]. split; [done|]. intros [= <-]. done.
  - eapply (ok_change (Yard h o w) i cid (Live pid) (Some (Closing (Some pid)))); try done; auto. intros x c Hx _. split; [done|]. intros [= <-]. by exists (Closing (Some pid)).
  - set (w' := if decide (cid ∈ dirs h) then {[cid]} ∪ w else w).
    assert (Hsub : w ⊆ w') by (subst w'; destruct (decide _); set_solver).
    assert (Hdirs : forall d, d ∈ dirs h -> d ∈ dirs (remove_dir cid h) \/ d ∈ w').
    { intros d Hin. cbn [dirs remove_dir]. destruct (decide (d = cid)) as [->|]; [|set_solver]. right. subst w'. rewrite decide_True by done. set_solver. }
    destruct u as [pid|].
    + eapply (ok_change (Yard h o w) i cid (Closing (Some pid)) (Some (Stray pid))); try done.
      * intros d Hin. destruct (Hdirs d Hin); auto.
      * intros x c Hx _. split; [done|]. intros [= <-]. by exists (Stray pid).
    + eapply (ok_change (Yard h o w) i cid (Closing None) None); try done.
      intros d Hin. destruct (Hdirs d Hin); auto.
  - eapply (ok_change (Yard h o w) i cid (Live pid) None); try done.
    + intros d Hin. cbn [dirs reap remove_dir]. destruct (decide (d = cid)); [|set_solver]. right. right. by split_and!.
    + intros x c Hx Hr. apply (Hreap pid h o w) in Hx as [? ?]. split; [done|]. intros [= <-]. done.
  - eapply (ok_change (Yard h o w) i cid (Live pid) (Some (Orphan pid))); try done; auto. intros x c Hx _. split; [done|]. intros [= <-]. by exists (Orphan pid).
  - split; [exact Hd|exact Ha|]. intros x c Hx Hr. apply Hw; [|done]. by apply (Hdead pid h o w) in Hx as [? _].
  - split; [exact Hd|exact Ha|]. intros x c Hx Hr. cbn [on_host children thread_ends] in Hx.
    apply lookup_fmap_Some in Hx as (c0 & Hc & Hx). apply Hw; [|done]. destruct (decide _); subst c; done.
Qed.

Lemma yard_steps_ok y y' : rtc yard_any y y' -> yard_ok y -> yard_ok y'.
Proof. induction 1 as [|y1 y2 y3 [a H] _ IH]; [done|]. intros Hy. apply IH. by eapply yard_step_ok. Qed.

(** ** What the steps of one launch leave alone *)

(** Of children and directories that are not its own nothing goes, and what else
    runs is its own. *)
Record apart (i : nat) (K : gmap Z child) (D : gset Z) (O : gmap nat (Z * phase)) (y : yard) : Prop := {
  ap_children : K ⊆ children (on_host y);
  ap_dirs : D ⊆ dirs (on_host y);
  ap_owners : delete i (owners y) = O;
  ap_pid : forall cid p pid, owners y !! i = Some (cid, p) -> pid_of p = Some pid -> K !! pid = None;
  ap_cid : forall cid p, owners y !! i = Some (cid, p) -> cid ∉ D;
  ap_running : forall pid c, children (on_host y) !! pid = Some c -> ch_state c = Running ->
    K !! pid = Some c \/ exists cid p, owners y !! i = Some (cid, p) /\ pid_of p = Some pid;
}.

Lemma apart_same_owner i K D O y h' p' cid p w' :
  apart i K D O y -> owners y !! i = Some (cid, p) -> (forall pid, pid_of p' = Some pid -> K !! pid = None) ->
  K ⊆ children h' -> D ⊆ dirs h' ->
  (forall pid c, children h' !! pid = Some c -> ch_state c = Running -> pid_of p' = Some pid \/ children (on_host y) !! pid = Some c /\ pid_of p <> Some pid) ->
  apart i K D O (Yard h' (<[i := (cid, p')]> (owners y)) w').
Proof.
  intros [HK HD HO Hpid Hcid Hrun] Hi Hp' HK' HD' Hr. split; cbn [on_host owners]; try done.
  - by rewrite delete_insert_eq.
  - intros c q pid. rewrite lookup_insert_eq. intros [= <- <-]. auto.
  - intros c q. rewrite lookup_insert_eq. intros [= <- _]. eauto.
  - intros pid c Hc Hst. destruct (Hr pid c Hc Hst) as [Hm|[Ho Hne]]; [right; exists cid, p'; by rewrite lookup_insert_eq|].
    destruct (Hrun pid c Ho Hst) as [?|(c' & q & Hq & Hp)]; [by left|]. rewrite Hi in Hq. injection Hq as <- <-. done.
Qed.

Lemma apart_owner_gone i K D O y h' cid p w' :
  apart i K D O y -> owners y !! i = Some (cid, p) -> K ⊆ children h' -> D ⊆ dirs h' ->
  (forall pid c, children h' !! pid = Some c -> ch_state c = Running -> children (on_host y) !! pid = Some c /\ pid_of p <> Some pid) ->
  apart i K D O (Yard h' (delete i (owners y)) w').
Proof.
  intros [HK HD HO Hpid Hcid Hrun] Hi HK' HD' Hr. split; cbn [on_host owners]; try done.
  - by rewrite delete_delete_eq.
  - intros c q pid. by rewrite lookup_delete_eq.
  - intros c q. by rewrite lookup_delete_eq.
  - intros pid c Hc Hst. destruct (Hr pid c Hc Hst) as [Ho Hne].
    destruct (Hrun pid c Ho Hst) as [?|(c' & q & Hq & Hp)]; [by left|]. rewrite Hi in Hq. injection Hq as <- <-. done.
Qed.

Lemma kept_killed (K : gmap Z child) pid h : K ⊆ children h -> K !! pid = None -> K ⊆ children (kill_child pid h).
Proof. intros HK Hn. apply map_subseteq_spec. intros x c Hx. cbn [children kill_child]. rewrite lookup_alter_ne by congruence. by eapply lookup_weaken. Qed.

Lemma kept_reaped (K : gmap Z child) pid h : K ⊆ children h -> K !! pid = None -> K ⊆ children (reap pid h).
Proof. intros HK Hn. apply map_subseteq_spec. intros x c Hx. cbn [children reap]. rewrite lookup_delete_ne by congruence. by eapply lookup_weaken. Qed.

Lemma reaped_running pid h x c : children (reap pid h) !! x = Some c -> children h !! x = Some c /\ Some pid <> Some x.
Proof. intros Hx. cbn [children reap] in Hx. apply lookup_delete_Some in Hx as [? ?]. split; congruence. Qed.

Lemma own_step_apart i K D O y y' : yard_step (Some i) y y' -> apart i K D O y -> apart i K D O y'.
Proof.
  intros Hstep Hap. pose proof Hap as [HK HD HO Hpid Hcid Hrun].
  assert (Hkill : forall pid h x c, children (kill_child pid h) !! x = Some c -> ch_state c = Running -> children h !! x = Some c /\ Some pid <> Some x).
  { intros pid h x c Hx Hr. destruct (killed_running _ _ _ _ Hx Hr). split; congruence. }
  remember (Some i) as a eqn:Ea. destruct Hstep as [j n h o w|j cid h o w Ho Hc|j cid h o w Ho|j cid pid t h o w Ho Hp|j cid pid h o w Ho|j cid pid h o w Ho|j cid pid h o w Ho
    |j cid pid h o w Ho|j cid pid h o w Ho|j cid u h o w Ho|j cid pid h o w Ho|j cid pid h o w Ho|j cid p pid h o w Ho Hp|t h o w]; try (injection Ea as ->); cbn [on_host owners swept] in *.
  - by split.
  - split; cbn [on_host owners dirs children]; try done.
    + set_solver.
    + by rewrite delete_insert_eq.
    + intros c p pid. rewrite lookup_insert_eq. by intros [= <- <-].
    + intros c p. rewrite lookup_insert_eq. intros [= <- _]. set_solver.
    + intros pid c Hx Hr. destruct (Hrun pid c Hx Hr) as [?|(c' & q & Hq & _)]; [by left|congruence].
  - eapply (apart_owner_gone i K D O (Yard h o w)); try done.
  - eapply (apart_same_owner i K D O (Yard h o w)); try done.
    + intros x [= <-]. apply eq_None_not_Some. intros [c Hk]. by rewrite (lookup_weaken _ _ _ _ Hk HK) in Hp.
    + cbn [children add_child]. etrans; [exact HK|by apply insert_subseteq].
    + intros x c Hx Hr. cbn [children add_child] in Hx. apply lookup_insert_Some in Hx as [(<- & <-)|[Hne Hx]]; [by left|]. right. by split.
  - eapply (apart_owner_gone i K D O (Yard h o w)); try done.
    + apply kept_killed; [done|]. by eapply Hpid.
    + cbn [dirs abandon remove_dir kill_child]. pose proof (Hcid _ _ Ho). set_solver.
    + intros x c Hx Hr. by apply Hkill in Hx.
  - eapply (apart_same_owner i K D O (Yard h o w)); try done; [by intros x [= <-]; eapply Hpid|].
    intros x c Hx Hr. destruct (decide (x = pid)) as [->|]; [by left|right]. split; [done|]. cbn. congruence.
  - eapply (apart_same_owner i K D O (Yard h o w)); try done; [by intros x [= <-]; eapply Hpid|].
    intros x c Hx Hr. destruct (decide (x = pid)) as [->|]; [by left|right]. split; [done|]. cbn. congruence.
  - eapply (apart_same_owner i K D O (Yard h o w)); try done.
    + apply kept_reaped; [done|]. by eapply Hpid.
    + cbn [dirs remove_dir reap]. pose proof (Hcid _ _ Ho). set_solver.
    + intros x c Hx Hr. right. by apply (reaped_running pid h).
  - eapply (apart_same_owner i K D O (Yard h o w)); try done; [by intros x [= <-]; eapply Hpid|].
    intros x c Hx Hr. destruct (decide (x = pid)) as [->|]; [by left|right]. split; [done|]. cbn. congruence.
  - assert (HD' : D ⊆ dirs (remove_dir cid h)) by (cbn [dirs remove_dir]; pose proof (Hcid _ _ Ho); set_solver).
    destruct u as [pid|].
    + eapply (apart_same_owner i K D O (Yard h o w)); try done; [by intros x [= <-]; eapply Hpid|].
      intros x c Hx Hr. destruct (decide (x = pid)) as [->|]; [by left|right]. split; [done|]. cbn. congruence.
    + eapply (apart_owner_gone i K D O (Yard h o w)); try done.
  - eapply (apart_owner_gone i K D O (Yard h o w)); try done.
    + apply kept_reaped; [done|]. by eapply Hpid.
    + cbn [dirs remove_dir reap]. pose proof (Hcid _ _ Ho). set_solver.
    + intros x c Hx Hr. by apply (reaped_running pid h).
  - eapply (apart_same_owner i K D O (Yard h o w)); try done; [by intros x [= <-]; eapply Hpid|].
    intros x c Hx Hr. destruct (decide (x = pid)) as [->|]; [by left|right]. split; [done|]. cbn. congruence.
  - split; cbn [on_host owners dirs]; try done.
    + apply kept_killed; [done|]. by eapply Hpid.
    + intros x c Hx Hr. apply Hkill in Hx as [Hx _]; [|done]. auto.
  - done.
Qed.

(** What steps of one launch that had nothing do to a host. *)
Lemma own_steps_apart i h o w y' : o !! i = None -> rtc (yard_step (Some i)) (Yard h o w) y' ->
  children h ⊆ children (on_host y') /\ dirs h ⊆ dirs (on_host y') /\ delete i (owners y') = o /\
  (owners y' !! i = None -> running_children (on_host y') = running_children h) /\
  (forall cid p, owners y' !! i = Some (cid, p) -> cid ∉ dirs h).
Proof.
  intros Hi Hr. assert (Hap : apart i (children h) (dirs h) o y').
  { assert (H0 : apart i (children h) (dirs h) o (Yard h o w)).
    { split; cbn [on_host owners]; try done; [by apply delete_id|by rewrite Hi|by rewrite Hi|]. intros pid c Hc _. by left. }
    revert H0. induction Hr as [|y1 y2 y3 Hs _ IH]; [done|]. intros H1. apply IH. by eapply own_step_apart. }
  destruct Hap as [HK HD HO Hpid Hcid Hrun]. split_and!; [done..| |done].
  intros Hn. apply map_eq. intros x. apply option_eq. intros c. unfold running_children. rewrite !map_lookup_filter_Some. cbn.
  split; intros [Hx Hst]; (split; [|done]); [|by eapply lookup_weaken].
  destruct (Hrun x c Hx Hst) as [?|(cid & p & Hq & _)]; [done|congruence].
Qed.

(** ** A launch is a run of its own steps *)

Section launches.
Context (i : nat) (o : gmap nat (Z * phase)) (w : gset Z) (Hi : o !! i = None).
Abbreviation own := (rtc (yard_step (Some i))).
Abbreviation at_phase cid p := (<[i := (cid, p)]> o).

Lemma claim_steps fuel created h h' e : claim_cid fuel created h = Some (h', e) ->
  own (Yard h o w) (Yard h' (match e with Claimed cid => at_phase cid Making | _ => o end) w).
Proof using Hi.
  revert h. induction fuel as [|fuel IH]; intros h; cbn [claim_cid]; [done|]. destruct (allocate (next_cid h)) as [next [cid|]].
  - destruct (decide (cid ∈ dirs h)) as [Hin|Hin].
    + intros H%IH. eapply rtc_l; [|exact H]. constructor.
    + destruct created; intros [= <- <-]; (eapply rtc_l; [apply (YCount i next)|]); [|done]. apply rtc_once. by apply (YClaim i cid (Host next (dirs h) (children h))).
  - intros [= <- <-]. apply rtc_once. constructor.
Qed.

Lemma fail_step h cid : yard_step (Some i) (Yard h (at_phase cid Making) w) (Yard h o w).
Proof using Hi. pose proof (YFail i cid h _ w (lookup_insert_eq o i (cid, Making))) as H. by rewrite delete_insert_id in H. Qed.

Lemma abandon_step h cid pid : yard_step (Some i) (Yard h (at_phase cid (Spawned pid)) w) (Yard (abandon cid pid h) o w).
Proof using Hi. pose proof (YAbandon i cid pid h _ w (lookup_insert_eq o i (cid, Spawned pid))) as H. by rewrite delete_insert_id in H. Qed.

Lemma up_step h cid pid p : p = Live pid \/ p = Orphan pid ->
  yard_step (Some i) (Yard h (at_phase cid (Spawned pid)) w) (Yard h (at_phase cid p) w).
Proof using.
  intros Hp. pose proof (YUp i cid pid h _ w (lookup_insert_eq o i (cid, Spawned pid))) as Hu.
  pose proof (YPanic i cid pid h _ w (lookup_insert_eq o i (cid, Spawned pid))) as Hl.
  rewrite insert_insert_eq in Hu, Hl. by destruct Hp as [-> | ->].
Qed.

Lemma try_steps show_qmp thread a more cid h h' e :
  (forall pid, at_spawned a = Ok pid -> children h !! pid = None) ->
  try_child show_qmp thread a more cid h = (h', e) ->
  own (Yard h (at_phase cid Making) w) (Yard h' (match e with Connected pid => at_phase cid (Spawned pid) | _ => o end) w).
Proof using Hi.
  intros Hf. unfold try_child.
  destruct (at_spawned a) as [pid|e1]; [|intros [= <- <-]; apply rtc_once, fail_step].
  assert (Hs : yard_step (Some i) (Yard h (at_phase cid Making) w) (Yard (add_child pid (Child cid thread Running) h) (at_phase cid (Spawned pid)) w)).
  { pose proof (YSpawn i cid pid thread h _ w (lookup_insert_eq o i (cid, Making)) (Hf pid eq_refl)) as H. by rewrite insert_insert_eq in H. }
  assert (Ha : own (Yard h (at_phase cid Making) w) (Yard (abandon cid pid (add_child pid (Child cid thread Running) h)) o w)).
  { eapply rtc_l; [exact Hs|]. apply rtc_once, abandon_step. }
  destruct (at_socket a); [|by intros [= <- <-]]. destruct (at_qmp a) as [|[e1 said]]; [intros [= <- <-]; by apply rtc_once|].
  destruct (_ && _); [by intros [= <- <-]|]. destruct (decide _); by intros [= <- <-].
Qed.

Lemma loop_steps show_qmp thread left attempts h h' e :
  fresh_pids attempts h -> launch_loop show_qmp thread left attempts h = Some (h', e) ->
  own (Yard h o w) (Yard h' (match e with LoopConnected cid pid => at_phase cid (Spawned pid) | _ => o end) w).
Proof using Hi.
  revert left h. induction attempts as [|a attempts IH]; intros left h Hf; cbn [launch_loop]; [done|].
  destruct (at_root a); [|by intros [= <- <-]]. destruct (claim_cid _ _ _) as [[h1 c]|] eqn:Ec; [|done].
  pose proof (claim_steps _ _ _ _ _ Ec) as Hs. apply claim_spec in Ec as (Hk & _ & Hd). destruct c as [cid|e1|]; [|by intros [= <- <-]..].
  destruct Hd as [Hc Hd]. destruct (before_spawn a).
  2:{ intros [= <- <-]. eapply rtc_r; [exact Hs|]. apply fail_step. }
  destruct (try_child _ _ _ _ _ _) as [h2 r] eqn:Et.
  assert (Hp : forall pid, at_spawned a = Ok pid -> children h1 !! pid = None) by (intros pid Ha; rewrite Hk; by eapply fresh_head).
  pose proof (try_steps _ _ _ _ _ _ _ _ Hp Et) as Hs2. apply (try_child_spec _ _ _ _ _ _ (dirs h) _ _ Hp Hc Hd) in Et as [_ Et].
  destruct r as [pid|e1|]; [intros [= <- <-]; by etrans|intros [= <- <-]; by etrans|].
  destruct Et as (_ & Hd2 & _ & pid & Ha & E). intros H. apply IH in H as Hs3; [|rewrite Hk in E; by eapply fresh_tail].
  by do 2 (etrans; [eassumption|]).
Qed.
End launches.

(** C24: a launch is a run of the machine it becomes. Whatever a launch meets,
    what it does to the host is a sequence of steps of its own, among those of
    the machines of a host: it takes no child and no directory that was there
    before, nor another launch's place, and it ends with its machine live under
    an identifier nobody had; or, failed, with no place and no child that runs
    (a directory may stay, and the killed children are not waited for); or,
    panicked, so too or with its child left to nobody. *)
Theorem launch_refines show_qmp show_client thread checks attempts opts_timeout ours u h h' e i (o : gmap nat (Z * phase)) w :
  fresh_pids attempts h -> o !! i = None ->
  launch_or_restore show_qmp show_client thread checks attempts opts_timeout ours u h = Some (h', e) ->
  exists o', rtc (yard_step (Some i)) (Yard h o w) (Yard h' o' w) /\
    children h ⊆ children h' /\ dirs h ⊆ dirs h' /\ delete i o' = o /\
    match e with
    | Launched cid pid => cid ∉ dirs h /\ o' !! i = Some (cid, Live pid)
    | LaunchFailed _ => o' !! i = None /\ running_children h' = running_children h
    | LaunchPanics _ => (o' !! i = None /\ running_children h' = running_children h) \/
        exists cid pid, cid ∉ dirs h /\ o' !! i = Some (cid, Orphan pid)
    end.
Proof.
  intros Hf Hi E.
  assert (Hruns : exists o', rtc (yard_step (Some i)) (Yard h o w) (Yard h' o' w) /\
    match e with
    | Launched cid pid => o' !! i = Some (cid, Live pid)
    | LaunchFailed _ => o' !! i = None
    | LaunchPanics _ => o' !! i = None \/ exists cid pid, o' !! i = Some (cid, Orphan pid)
    end).
  { revert E. unfold launch_or_restore. destruct checks; [|intros [= <- <-]; by exists o].
    destruct (launch_loop _ _ _ _ _) as [[h1 r]|] eqn:El; [|done]. apply (loop_steps i o w Hi) in El as Hs; [|done].
    destruct r as [cid pid|er|msg]; [|intros [= <- <-]; by exists o|intros [= <- <-]; exists o; split; [done|by left]].
    assert (Hd : rtc (yard_step (Some i)) (Yard h o w) (Yard (abandon cid pid h1) o w)) by (eapply rtc_r; [exact Hs|by apply abandon_step]).
    assert (Hl : forall p, p = Live pid \/ p = Orphan pid -> rtc (yard_step (Some i)) (Yard h o w) (Yard h1 (<[i := (cid, p)]> o) w)).
    { intros p Hp. eapply rtc_r; [exact Hs|by apply up_step]. }
    unfold come_up. destruct (come_in u) as [[v|m]|]; [| |done]; [|intros [= <- <-]; by exists o].
    destruct (agent_wait _ _ _) as [d|m].
    - destruct (wait_for_agent _ _ _) as [[v'|m]|]; [| |done]; [|intros [= <- <-]; by exists o].
      intros [= <- <-]. eexists. split; [apply (Hl (Live pid)); by left|]. apply lookup_insert_eq.
    - intros [= <- <-]. eexists. split; [apply (Hl (Orphan pid)); by right|]. right. exists cid, pid. apply lookup_insert_eq. }
  destruct Hruns as (o' & Hr & He). exists o'. destruct (own_steps_apart _ _ _ _ _ Hi Hr) as (HK & HD & HO & Hrun & Hc). cbn [on_host owners] in *.
  split_and!; [done..|]. destruct e as [cid pid|er|msg]; [by split; [eapply Hc|]|by split; [|apply Hrun]|].
  destruct He as [He|(cid & pid & He)]; [left; by split; [|apply Hrun]|right; exists cid, pid; by split; [eapply Hc|]].
Qed.

(** A shutdown is a step too, it comes to an end, and nothing works after it;
    the handle is dropped next. *)
Lemma shutdown_refines {M} cid pid start turns (b : backend M) h i (o : gmap nat (Z * phase)) w :
  be_child b = Some pid -> o !! i = Some (cid, Live pid) -> Exists (fun t => start + SHUTDOWN_GRACE <= t.2) turns ->
  exists b' h' r, shutdown cid start turns b h = Some (b', h', r) /\ be_qmp b' = None /\ be_child b' = None /\
    let u := match r with Ok _ => None | Err _ => Some pid end in
    yard_step (Some i) (Yard h o w) (Yard h' (<[i := (cid, Closing u)]> o) w) /\
    shutdown cid start turns b' h' = Some (b', remove_dir cid h', Ok ()).
Proof.
  intros Hb Ho Ht. unfold shutdown at 1. rewrite Hb.
  destruct (await_child_ends _ _ Ht) as [[v|e] ->]; eexists _, _, _; (split; [reflexivity|]); split_and!; try done; by constructor.
Qed.

Lemma refused_after_shutdown {M A} (op : M -> M * result A vmm_error) (b : backend M) :
  be_qmp b = None -> with_qmp op b = (b, Err already_shut_down).
Proof. intros Hb. unfold with_qmp. by rewrite Hb. Qed.

(** C23: two machines have one context identifier only after a second cleanup.
    On a host that starts with no machine, with directories left by earlier
    runs, whose processes all make their directories under one root, whatever is
    launched, by however many launches and processes at once, and whatever
    fails, is killed, shut down or dropped: if two running children have one
    identifier, or one has no directory, then a shutdown that was run again by
    the drop of a handle had removed the directory of that identifier. Each
    running child belongs to the launch that is waiting for it, to its handle,
    to one whose wait failed, or to a launch that panicked; where none of these
    is left, no child runs. *)
Theorem machines_never_share next stale y :
  rtc yard_any (yard_start next stale) y ->
  (forall p1 c1 p2 c2, running_children (on_host y) !! p1 = Some c1 -> running_children (on_host y) !! p2 = Some c2 -> ch_cid c1 = ch_cid c2 ->
     p1 = p2 \/ ch_cid c1 ∈ swept y) /\
  (forall pid c, running_children (on_host y) !! pid = Some c -> (ch_cid c ∈ dirs (on_host y) \/ ch_cid c ∈ swept y) /\
     exists i p, owners y !! i = Some (ch_cid c, p) /\ p ∈ [Spawned pid; Live pid; Closing (Some pid); Orphan pid; Stray pid]) /\
  (map_Forall (fun _ x => pid_of x.2 = None) (owners y) -> running_children (on_host y) = ∅).
Proof.
  intros Hr. destruct (yard_steps_ok _ _ Hr (yard_start_ok next stale)) as [Hd Ha Hw].
  assert (Hrun : forall pid c, running_children (on_host y) !! pid = Some c -> exists i p, owners y !! i = Some (ch_cid c, p) /\ pid_of p = Some pid /\ holds p).
  { intros pid c [H1 H2]%map_lookup_filter_Some. destruct (Hw pid c H1 H2) as (i & p & Hi & Hp). exists i, p. split_and!; [done..|]. by intros ->. }
  split_and!.
  - intros p1 c1 p2 c2 (i & p & Hi & Hp & Hh)%Hrun (j & q & Hj & Hq & Hk)%Hrun E. rewrite <- E in Hj.
    destruct (Ha _ _ _ _ _ Hi Hj Hh Hk) as [<-|?]; [left|by right]. rewrite Hi in Hj. injection Hj as <-. congruence.
  - intros pid c (i & p & Hi & Hp & Hh)%Hrun. split; [by eapply Hd|]. exists i, p. split; [done|].
    destruct p as [|x|x|[x|]|x|x]; cbn in Hp; simplify_eq; set_solver.
  - intros Hall. apply map_eq. intros pid. rewrite lookup_empty. apply eq_None_not_Some. intros [c (i & p & Hi & Hp & _)%Hrun].
    apply Hall in Hi. cbn in Hi. congruence.
Qed.

(** A snapshot is whole or not there: what is under its name is what QEMU wrote,
    or what was there before; no other file but the temporary one changes, and
    that one stays only if QEMU refused to start. *)
Lemma snapshot_is_whole {M} (exec : string -> json -> M -> M * result json qmp_error) path w image renamed fs b fs' b' r :
  snapshot_tmp path <> path -> snapshot exec path w image renamed fs b = Some (fs', (b', r)) ->
  (match r with Ok _ => fs' !! path = (match image with Some _ => image | None => fs !! snapshot_tmp path end) /\ is_Some (fs' !! path) | Err _ => fs' !! path = fs !! path end) /\
  (forall f, f <> path -> f <> snapshot_tmp path -> fs' !! f = fs !! f).
Proof.
  intros Hne. unfold snapshot. destruct (be_qmp b) as [q|]; [|by intros [= <- <- <-]]. destruct (exec _ _ q) as [q' ex].
  set (fs1 := match image with Some i => <[snapshot_tmp path := i]> fs | None => fs end).
  assert (H1 : forall f, f <> snapshot_tmp path -> fs1 !! f = fs !! f) by (intros f Hf; unfold fs1; destruct image; [by rewrite lookup_insert_ne|done]).
  assert (H2 : fs1 !! snapshot_tmp path = match image with Some _ => image | None => fs !! snapshot_tmp path end) by (unfold fs1; destruct image; [by rewrite lookup_insert_eq|done]).
  clearbody fs1. destruct ex as [v|e]; [|intros [= <- <- <-]; split; auto].
  destruct (wait_migration_completed _ _ _ _) as [[u|e]|]; [| |done].
  2:{ intros [= <- <- <-]. split; [|intros f ? ?]; rewrite lookup_delete_ne by done; auto. }
  unfold rename_file. destruct renamed as [e|].
  { intros [= <- <- <-]. split; [|intros f ? ?]; rewrite lookup_delete_ne by done; auto. }
  destruct (fs1 !! snapshot_tmp path) as [i|] eqn:Ei; intros [= <- <- <-].
  - rewrite lookup_insert_eq, <- H2. split; [split; [done|by eexists]|]. intros f ? ?. rewrite lookup_insert_ne, lookup_delete_ne by done. auto.
  - split; [|intros f ? ?]; rewrite lookup_delete_ne by done; auto.
Qed.

(** * Examples *)

Example snapshot_beside : snapshot_tmp "/snaps/web.snap" = "/snaps/web.snap.tmp" /\ snapshot_tmp "/a.b/web" = "/a.b/web.snap.tmp".
Proof. split; vm_compute; reflexivity. Qed.

(** A monitor that writes down what it is asked. *)
Definition scribe : Type := list (string * json).
Definition note (refuses : string) (name : string) (args : json) (q : scribe) : scribe * result json qmp_error :=
  (q ++ [(name, args)], if decide (name = refuses) then Err (QCommand name "GenericError" "no") else Ok JNull).

Definition scribe_backend (servers : list (string * Nbd.shared)) : backend scribe := QemuBackend (Some []) (Some 101) servers [].
Definition quiet_log (es : list Qmp.event) : event_log := EventLog es false "".

Example what_is_sent :
  let sent {A} (op : backend scribe -> backend scribe * A) := be_qmp (op (scribe_backend [])).1 in
  sent (pause (note "")) = Some [("stop", JNull)] /\
  sent (resume (note "")) = Some [("cont", JNull)] /\
  sent (wakeup (note "")) = Some [("system_wakeup", JNull)] /\
  sent (end_reset_window (note "")) = Some [("set-action", JObj [("reboot", JStr "shutdown")])] /\
  sent (set_link (note "") "web-lan" false) = Some [("set_link", JObj [("name", JStr "web-lan"); ("up", JBool false)])] /\
  sent (detach_disk (note "") "data") = Some [("device_del", JObj [("id", JStr "data")])].
Proof. split_and!; reflexivity. Qed.

(** The reboot action is lifted first, and is not put back here. *)
Example reset_sends :
  (fun x => be_qmp x.1) <$> reset (note "") (Watch (quiet_log []) (quiet_log [demo_migration "reset" 1]) [NoBudget]) (scribe_backend []) =
    Some (Some [("set-action", JObj [("reboot", JStr "reset")]); ("system_reset", JNull)]).
Proof. reflexivity. Qed.

(** A snapshot QEMU refuses to start may leave what it wrote. *)
Example refused_snapshot :
  let r := snapshot (note "migrate") "/s/a.snap" (Watch (quiet_log []) (quiet_log []) []) (Some (bytes_of "half")) None ∅ (scribe_backend []) in
  (fun x => (x.1 !! "/s/a.snap.tmp", x.2.2)) <$> r = Some (Some (bytes_of "half"), Err (VmmQmp (QCommand "migrate" "GenericError" "no"))).
Proof. vm_compute. reflexivity. Qed.

Example other_disk :
  power_cut_disk "data" (scribe_backend []) = (scribe_backend [], Err (not_mediated "data" "power_cut")).
Proof. reflexivity. Qed.

Lemma launch_refines_witness :
  exists h' o', demo_launch demo_up = Some (h', Launched 5 101) /\
    rtc (yard_step (Some 7%nat)) (Yard demo_host ∅ ∅) (Yard h' o' ∅) /\ o' !! 7%nat = Some (5, Live 101).
Proof.
  destruct (launch_refines (fun _ => "") (fun _ => "") 0 (Ok []) demo_attempts None AGENT_BOOT_TIMEOUT demo_up demo_host _ _ 7 ∅ ∅ demo_fresh
    (lookup_empty _) second_attempt) as (o' & Hs & _ & _ & _ & _ & Ho).
  eexists _, o'. split; [exact second_attempt|]. by split.
Defined.

(** A launch that went well, and one that is under way. *)
Definition two_machines : yard :=
  Yard (Host 5 {[3; 4]} (<[101 := Child 4 1 Running]> (<[100 := Child 3 0 Running]> ∅))) (<[1%nat := (4, Spawned 101)]> (<[0%nat := (3, Live 100)]> ∅)) ∅.

Lemma two_machines_run : rtc yard_any (yard_start 3 ∅) two_machines.
Proof.
  eapply rtc_l; [exists (Some 0%nat); by apply (YClaim 0 3)|]. eapply rtc_l; [exists (Some 0%nat); by apply (YSpawn 0 3 100 0)|].
  eapply rtc_l; [exists (Some 0%nat); by apply (YUp 0 3 100)|].
  eapply rtc_l; [exists (Some 1%nat); apply (YClaim 1 4); [done|cbn [dirs add_child]; set_solver]|].
  eapply rtc_l; [exists (Some 1%nat); by apply (YSpawn 1 4 101 1)|].
  eapply rtc_l; [exists (Some 1%nat); apply (YCount 1 5)|]. apply reflexive_eq. unfold two_machines, add_child; cbn [next_cid dirs children]. f_equal; f_equal; set_solver.
Qed.

Lemma machines_never_share_witness :
  running_children (on_host two_machines) !! 101 = Some (Child 4 1 Running) /\ (4 ∈ dirs (on_host two_machines) \/ 4 ∈ swept two_machines).
Proof.
  assert (Hc : running_children (on_host two_machines) !! 101 = Some (Child 4 1 Running)) by (vm_compute; reflexivity).
  split; [done|]. apply (proj1 (proj2 (machines_never_share 3 ∅ _ two_machines_run)) 101 _ Hc).
Defined.

(** Waiting for a child fails, the drop of the handle removes its directory all
    the same, and the identifier goes to another launch while the child runs. *)
Lemma swept_identifier_shared :
  exists y, rtc yard_any (yard_start 3 ∅) y /\ swept y = {[3]} /\
    running_children (on_host y) !! 100 = Some (Child 3 0 Running) /\ running_children (on_host y) !! 101 = Some (Child 3 1 Running).
Proof.
  eexists. split.
  - eapply rtc_l; [exists (Some 0%nat); by apply (YClaim 0 3)|]. eapply rtc_l; [exists (Some 0%nat); by apply (YSpawn 0 3 100 0)|].
    eapply rtc_l; [exists (Some 0%nat); by apply (YUp 0 3 100)|]. eapply rtc_l; [exists (Some 0%nat); by apply (YUnwaited 0 3 100)|].
    eapply rtc_l; [exists (Some 0%nat); by apply (YDrop 0 3 (Some 100))|].
    eapply rtc_l; [exists (Some 1%nat); apply (YClaim 1 3); [done|cbn [dirs add_child remove_dir]; set_solver]|].
    eapply rtc_l; [exists (Some 1%nat); by apply (YSpawn 1 3 101 1)|]. reflexivity.
  - cbn [swept]. split; [|split; vm_compute; reflexivity]. rewrite decide_True by (cbn [dirs add_child]; set_solver). set_solver.
Qed.
