(* ===== verification/VmAgent.v ===== *)
(** What a machine handle asks of the agent in its guest, from
    [src/provium-host/src/vm.rs]: the operations on files, processes, workers,
    streams, the clock and the console, over the calls of the agent client; with
    what the handle keeps of them, the registry of open files and streams, the
    processes that were waited for, and the files of the workers. *)
From stdpp Require Import pretty.
From S2P Require Import Prelude Text Wire Pool VmOpts AgentClient Vm.

Open Scope string_scope.
Open Scope list_scope.
Open Scope Z_scope.

(** * The agent, as the handle meets it *)

(** A call is answered, with its result or an error of the connection, or it
    never is. *)
Class Agent (G : Type) := { ask : forall {A : Type}, call A -> G -> option (G * result A client_error) }.

(** A machine handle with its agent: the counter of streams, the guards of
    processes by a number of their own and whether they are consumed, and the
    files opened by workers, by their guards. *)
Record guest (G : Type) := Guest {
  g_vm : vm_inner; g_reg : registry; g_agent : G;
  g_streams : Z; g_consumed : list bool; g_worker_files : list (gset Z) }.
Arguments Guest {G}.
Arguments g_vm {G}.
Arguments g_reg {G}.
Arguments g_agent {G}.
Arguments g_streams {G}.
Arguments g_consumed {G}.
Arguments g_worker_files {G}.

(** [RunResult], [StatMeta]. *)
Record run_result := RunResult { rr_stdout : bytes; rr_stderr : bytes; rr_status : exit_status }.
Definition from_exec_ok (ok : exec_ok) : run_result := RunResult (stdout ok) (stderr ok) (status ok).
Definition run_ok (r : run_result) : bool := match rr_status r with Exited 0 => true | _ => false end.
Definition run_exit_code (r : run_result) : option Z := exit_code (rr_status r).

Record stat_meta := StatMeta { sm_size : Z; sm_mtime_ns : Z; sm_entry_type : entry_type; sm_perm : Z }.
Definition from_wire (m : file_metadata) : stat_meta := StatMeta (m_size m) (mtime_ns m) (m_type m) (perm m).

Record process := Process { pr_handle : process_handle; pr_guard : nat }.
Record worker := Worker { wk_of : worker_handle; wk_guard : nat }.
Record pending_worker_syscall := PendingWorkerSyscall { pw_handle : worker_handle; pw_id : Z }.

(** A session of a stream is known by its number. *)
Record tail_of_vm := VmTailSession { ts_id : Z }.

Definition READ_FILE_MAX_BYTES : Z := 96 * 1024 * 1024.

Definition errors {A B} (f : A -> B) (r : result A os_error) : result B vm_error :=
  match r with Ok a => Ok (f a) | Err e => Err (VOs e) end.

Definition run_result_of (r : exec_result) : result run_result vm_error := errors from_exec_ok r.

(** [collect] into a result: the first error wins. *)
Fixpoint collect_runs (rs : list exec_result) : result (list run_result) vm_error :=
  match rs with
  | [] => Ok []
  | r :: rs =>
      match run_result_of r with
      | Err e => Err e
      | Ok x => match collect_runs rs with Ok xs => Ok (x :: xs) | Err e => Err e end
      end
  end.

Section operations.
Context {G : Type} `{!Agent G} (name : string).

Implicit Types g : guest G.

Definition set_vm (i : vm_inner) g : guest G := Guest i (g_reg g) (g_agent g) (g_streams g) (g_consumed g) (g_worker_files g).
Definition set_reg (r : registry) g : guest G := Guest (g_vm g) r (g_agent g) (g_streams g) (g_consumed g) (g_worker_files g).
Definition set_agent (a : G) g : guest G := Guest (g_vm g) (g_reg g) a (g_streams g) (g_consumed g) (g_worker_files g).

(** What an operation is: it never ends, or it leaves the handle and returns, or
    panics. *)
Definition op (A : Type) : Type := guest G -> option (guest G * outcome A).

Definition done {A} (r : result A vm_error) : op A := fun g => Some (g, Ret r).
Definition and_then {A B} (x : op A) (f : A -> op B) : op B := fun g =>
  match x g with
  | None => None
  | Some (g, Ret (Ok a)) => f a g
  | Some (g, Ret (Err e)) => Some (g, Ret (Err e))
  | Some (g, Panic msg) => Some (g, Panic msg)
  end.

(** [with_client]: one call of the client, asked of a booted machine only; a
    connection that is gone marks the machine dead. *)
Definition with_client {A B} (action : string) (c : call A) (f : A -> result B vm_error) : op B := fun g =>
  let close_to (answer : result B vm_error) g :=
    let o := Vm.with_client name action answer (g_vm g) in
    (set_vm (if client_dead o then mark_dead_after_client (g_vm g) else g_vm g) g, o) in
  match state (g_vm g), running (g_vm g) with
  | Booted, Some _ =>
      match ask c (g_agent g) with
      | None => None
      | Some (a, r) => Some (close_to (match r with Ok x => f x | Err e => Err (VClient e) end) (set_agent a g))
      end
  | _, _ => Some (close_to (Err (VClient (Connect ""))) g)
  end.

(** ** Files *)

Definition unit_result (r : op_result ()) : result () vm_error := errors id r.

Definition listdir (path : string) : op (list dir_entry) := with_client "listdir" (AgentClient.listdir path) (errors id).
Definition mkdir (a : mkdir_args) : op () := with_client "mkdir" (AgentClient.mkdir a) unit_result.
Definition unlink (path : string) : op () := with_client "unlink" (AgentClient.unlink path) unit_result.
Definition rename (from to : string) : op () := with_client "rename" (AgentClient.rename (RenameArgs from to)) unit_result.
Definition seek (h : file_handle) (offset : Z) (whence : seek_whence) : op Z :=
  with_client "seek" (AgentClient.seek (SeekArgs h offset whence)) (errors id).
Definition ioctl_with_ptrs (h : file_handle) (cmd : Z) (data : bytes) (bufs : list bytes) (offsets : list Z) : op ioctl_ok :=
  with_client "ioctl" (AgentClient.ioctl (IoctlArgs h cmd data bufs offsets)) (errors id).
Definition ioctl (h : file_handle) (cmd : Z) (data : bytes) : op ioctl_ok := ioctl_with_ptrs h cmd data [] [].
Definition stat (path : string) : op stat_meta := with_client "stat" (AgentClient.stat (StatArgs path true)) (errors from_wire).
Definition write_file (path : string) (data : bytes) : op () :=
  with_client "write_file" (AgentClient.write_file (WriteFileArgs path data Replace None)) unit_result.
Definition read (h : file_handle) (max : Z) : op bytes := with_client "read" (AgentClient.read (ReadArgs h max)) (errors id).
Definition write (h : file_handle) (data : bytes) : op Z := with_client "write" (AgentClient.write (WriteArgs h data)) (errors id).

Definition too_big (path : string) (size : Z) : vm_error :=
  VOs (OsError 27 ("vm:read_file `" +:+ path +:+ "`: " +:+ pretty size +:+ " bytes exceeds " +:+ pretty (READ_FILE_MAX_BYTES / (1024 * 1024)) +:+
                   " MiB limit — use vm:tail_file or vm:open_file for chunked reads")).

Definition fetch_file (path : string) : op bytes := with_client "read_file" (AgentClient.read_file path) (errors id).

(** A size that cannot be had is no reason not to read. *)
Definition read_file (path : string) : op bytes := fun g =>
  match stat path g with
  | None => None
  | Some (g, Panic msg) => Some (g, Panic msg)
  | Some (g, Ret (Ok m)) => if READ_FILE_MAX_BYTES <? sm_size m then done (Err (too_big path (sm_size m))) g else fetch_file path g
  | Some (g, Ret (Err _)) => fetch_file path g
  end.

Definition on_reg (f : registry -> registry) g : guest G := set_reg (f (g_reg g)) g.

Definition open_file_with_perm (a : open_file_args) : op file_handle :=
  and_then (with_client "open_file" (AgentClient.open_file a) (errors id))
    (fun h g => done (Ok h) (on_reg (register_file (file_id h)) g)).
Definition open_file (path : string) (mode : open_mode) : op file_handle := open_file_with_perm (OpenFileArgs path mode None).

(** The handle is taken off the registry whatever the agent says. *)
Definition close (h : file_handle) : op () := fun g =>
  match with_client "close" (AgentClient.close h) unit_result g with
  | None => None
  | Some (g, Panic msg) => Some (g, Panic msg)
  | Some (g, o) => Some (on_reg (deregister_file (file_id h)) g, o)
  end.

(** ** Commands, system calls, the clock *)

Definition run (a : exec_args) : op run_result := with_client "run" (AgentClient.exec a) run_result_of.
Definition batch_run (items : list exec_args) : op (list run_result) := with_client "batch_run" (AgentClient.batch_exec items) collect_runs.
Definition batch_op (items : list host_message) : op (list agent_message) := with_client "batch_op" (AgentClient.batch_op items) Ok.

Definition syscall_with_bufs (a : syscall_args) : op syscall_result := with_client "syscall" (AgentClient.syscall a) Ok.
Definition syscall (nr : Z) (args : list Z) : op syscall_result := syscall_with_bufs (SyscallArgs nr args [] [] []).
Definition read_mem (addr len : Z) : op (op_result bytes) := with_client "read_mem" (AgentClient.read_mem (ReadMemArgs addr len)) Ok.

Definition clock_get : op Z := with_client "get_time" AgentClient.get_time (errors id).
Definition clock_set (ns : Z) : op () := with_client "set_time" (AgentClient.set_time ns) unit_result.
Definition clock_sleep (ns : Z) : op () := with_client "sleep_clock" (AgentClient.sleep_clock ns) unit_result.
Definition clock_advance (ns : Z) : op () := with_client "advance_clock" (AgentClient.advance_clock ns) unit_result.

(** ** Streams *)

Definition stream_of_kind (kind detail : string) : stream_meta := StreamMeta kind detail None None.

Definition wrap_tail_session_with_meta (m : stream_meta) : op tail_of_vm := fun g =>
  let id := g_streams g in
  Some (Guest (g_vm g) (register_stream id m (g_reg g)) (g_agent g) (wrap u64_max (id + 1)) (g_consumed g) (g_worker_files g), Ret (Ok (VmTailSession id))).
Definition wrap_tail_session : op tail_of_vm := wrap_tail_session_with_meta (stream_of_kind "stream" "").
Definition register_console_stream (m : stream_meta) : op tail_of_vm := wrap_tail_session_with_meta m.

Definition set_stream_meta (s : tail_of_vm) (m : stream_meta) g : guest G := on_reg (register_stream (ts_id s) m) g.
Definition drop_session (s : tail_of_vm) g : guest G := on_reg (drop_stream (ts_id s)) g.

Definition fd_stream (h : file_handle) : op tail_of_vm :=
  and_then (with_client "fd_stream" (fd_stream_call h) unit_result) (fun _ => wrap_tail_session).

Definition tail_file (path : string) (start : tail_start) : op tail_of_vm :=
  and_then (with_client "tail_file" (tail_file_call (TailFileArgs path start)) unit_result)
    (fun _ => wrap_tail_session_with_meta (stream_of_kind "tail_file" (quote +:+ path +:+ quote))).

(** ** Processes *)

Definition new_process (h : process_handle) : op process := fun g =>
  Some (Guest (g_vm g) (g_reg g) (g_agent g) (g_streams g) (g_consumed g ++ [false]) (g_worker_files g),
        Ret (Ok (Process h (length (g_consumed g))))).

Definition run_async (a : run_async_args) : op process :=
  and_then (with_client "run_async" (AgentClient.run_async a) (errors id)) new_process.

Definition consumed (p : process) g : bool := nth (pr_guard p) (g_consumed g) false.
Definition consume (p : process) g : guest G :=
  Guest (g_vm g) (g_reg g) (g_agent g) (g_streams g) (<[pr_guard p := true]> (g_consumed g)) (g_worker_files g).

Definition already_waited (p : process) : vm_error :=
  VOs (OsError 9 ("proc:wait: handle " +:+ show_u64 (process_id (pr_handle p)) +:+
                  " already waited on (proc:wait is one-shot — capture the result)")).

Definition wait_with_timeout (timeout_ms : option Z) (p : process) : op run_result := fun g =>
  if consumed p g then done (Err (already_waited p)) g
  else
    and_then (with_client "wait" (AgentClient.wait (WaitArgs (pr_handle p) timeout_ms)) Ok)
      (fun r g => done (errors from_exec_ok r) (consume p g)) g.
Definition wait (p : process) : op run_result := wait_with_timeout None p.

Definition pid (p : process) : op Z := with_client "get_pid" (AgentClient.get_pid (pr_handle p)) (errors id).
Definition kill (p : process) (signal : Z) : op () := with_client "kill" (AgentClient.kill (KillArgs (pr_handle p) signal)) unit_result.

Definition live_status (s : process_live_status) : string :=
  match s with Wire.Running => "running" | LiveExited => "exited" | Unknown => "exited" end.
Definition proc_status (p : process) : op string := with_client "proc_status" (AgentClient.proc_status (pr_handle p)) (errors live_status).
Definition stdin_write (p : process) (data : bytes) : op Z :=
  with_client "proc_stdin_write" (AgentClient.proc_stdin_write (ProcStdinWriteArgs (pr_handle p) data)) (errors id).
Definition close_stdin (p : process) : op () := with_client "proc_stdin_close" (AgentClient.proc_stdin_close (pr_handle p)) unit_result.

Definition channel_label (c : proc_stream_channel) : string :=
  match c with Stdout => "proc:stdout_stream" | Stderr => "proc:stderr_stream" end.
Definition proc_stream_channel (p : process) (c : proc_stream_channel) : op tail_of_vm :=
  and_then (with_client "proc_stream" (proc_stream_call (ProcStreamArgs (pr_handle p) c)) unit_result)
    (fun _ => wrap_tail_session_with_meta
       (stream_of_kind "proc_stream" (channel_label c +:+ "(handle=" +:+ show_u64 (process_id (pr_handle p)) +:+ ")"))).

(** Whatever it comes to. *)
Definition attempt {A} (x : op A) (k : op ()) : op () := fun g =>
  match x g with None => None | Some (g, Panic msg) => Some (g, Panic msg) | Some (g, Ret _) => k g end.

Definition SIGTERM : Z := 15.
(** The last clone of a process goes. *)
Definition process_dropped (p : process) : op () := fun g =>
  if consumed p g then done (Ok ()) g
  else attempt (with_client "kill_drop" (AgentClient.kill (KillArgs (pr_handle p) SIGTERM)) Ok)
         (attempt (with_client "wait_drop" (AgentClient.wait (WaitArgs (pr_handle p) (Some 2000))) Ok) (done (Ok ()))) g.

(** ** Workers *)

Definition spawn_worker : op worker :=
  and_then (with_client "spawn_worker" AgentClient.spawn_worker (errors id)) (fun h g =>
    Some (Guest (g_vm g) (g_reg g) (g_agent g) (g_streams g) (g_consumed g) (g_worker_files g ++ [∅]),
          Ret (Ok (Worker h (length (g_worker_files g)))))).

Definition files_of (w : worker) g : gset Z := nth (wk_guard w) (g_worker_files g) ∅.
Definition set_files_of (w : worker) (s : gset Z) g : guest G :=
  Guest (g_vm g) (g_reg g) (g_agent g) (g_streams g) (g_consumed g) (<[wk_guard w := s]> (g_worker_files g)).

(** The files of a worker leave the registry. *)
Definition drain_files (w : worker) g : guest G :=
  if decide (files_of w g = ∅) then g
  else set_files_of w ∅ (on_reg (fun r => Registry (Vm.open_files r ∖ files_of w g) (open_streams r)) g).

Definition worker_run (w : worker) (a : exec_args) : op run_result :=
  with_client "worker_exec" (AgentClient.worker_exec (WorkerExecArgs (wk_of w) a)) run_result_of.

Definition join (w : worker) : op Z :=
  and_then (with_client "worker_join" (AgentClient.worker_join (wk_of w)) Ok) (fun r g => done (errors id r) (drain_files w g)).

Definition worker_run_async (w : worker) (a : run_async_args) : op process :=
  and_then (with_client "worker_run_async" (AgentClient.worker_run_async (WorkerRunAsyncArgs (wk_of w) a)) (errors id)) new_process.

Definition worker_open_file (w : worker) (path : string) (mode : open_mode) : op file_handle :=
  and_then (with_client "worker_open_file" (AgentClient.worker_open_file (WorkerOpenFileArgs (wk_of w) (OpenFileArgs path mode None))) (errors id))
    (fun h g => done (Ok h) (set_files_of w ({[file_id h]} ∪ files_of w g) (on_reg (register_file (file_id h)) g))).

Definition worker_syscall_with_bufs (w : worker) (a : syscall_args) : op syscall_result :=
  with_client "worker_syscall" (AgentClient.worker_syscall (WorkerSyscallArgs (wk_of w) a)) Ok.
(** Six arguments: the first ones given, then zeros. *)
Definition pad_args (args : list Z) : list Z := take 6 (args ++ replicate 6 0).
Definition worker_syscall (w : worker) (nr : Z) (args : list Z) : op syscall_result :=
  worker_syscall_with_bufs w (SyscallArgs nr (pad_args args) [] [] []).

Definition begin_syscall_with_bufs (w : worker) (a : syscall_args) : op pending_worker_syscall :=
  with_client "worker_syscall_begin" (AgentClient.worker_syscall_begin (WorkerSyscallArgs (wk_of w) a)) (fun id => Ok (PendingWorkerSyscall (wk_of w) id)).
Definition finish (p : pending_worker_syscall) : op syscall_result :=
  with_client "worker_syscall_await" (AgentClient.worker_syscall_await (WorkerSyscallAwaitArgs (pw_handle p) (pw_id p))) Ok.
Definition worker_kill (w : worker) (signal : Z) : op Z :=
  with_client "worker_kill" (AgentClient.worker_kill (WorkerKillArgs (wk_of w) signal)) (errors id).

(** The last clone of a worker goes. *)
Definition worker_dropped (w : worker) : op () := fun g =>
  if decide (files_of w g = ∅) then done (Ok ()) g
  else attempt (with_client "worker_join_drop" (AgentClient.worker_join (wk_of w)) Ok) (fun g => done (Ok ()) (drain_files w g)) g.

(** ** The console *)

(** [log] is the file of the console, if the machine has one, as it is read;
    there is none without a machine. *)
Definition console_read (log : option (result bytes os_error)) g : result bytes vm_error :=
  match running (g_vm g), log with
  | Some _, Some r => errors id r
  | _, _ => Ok []
  end.

Definition no_console : vm_error := VOs (OsError 95 "console:write needs a bidirectional chardev (QEMU only)").
Definition prefixed (what : string) (e : os_error) : vm_error := VOs (OsError (errno e) (what +:+ os_message e)).

(** [connected], [bounded] and [written] are how the steps end, the second only
    with a time out. *)
Definition console_write_timeout (socket : bool) (timeout : option Z) (connected bounded written : result () os_error) (data : bytes) g : result Z vm_error :=
  if match running (g_vm g) with Some _ => socket | None => false end then
    match connected, (match timeout with Some _ => bounded | None => Ok () end), written with
    | Err e, _, _ => Err (prefixed "connect console socket: " e)
    | Ok _, Err e, _ => Err (prefixed "set console write timeout: " e)
    | Ok _, Ok _, Err e => Err (prefixed "write console: " e)
    | Ok _, Ok _, Ok _ => Ok (zlen data)
    end
  else Err no_console.
End operations.

(** * Requests *)

Inductive request :=
| QListdir (path : string) | QMkdir (a : mkdir_args) | QUnlink (path : string) | QRename (from to : string)
| QSeek (h : file_handle) (offset : Z) (whence : seek_whence)
| QIoctl (h : file_handle) (cmd : Z) (data : bytes) (bufs : list bytes) (offsets : list Z)
| QStat (path : string) | QWriteFile (path : string) (data : bytes) | QReadFile (path : string)
| QRead (h : file_handle) (max : Z) | QWrite (h : file_handle) (data : bytes)
| QOpen (a : open_file_args) | QClose (h : file_handle)
| QRun (a : exec_args) | QBatchRun (items : list exec_args) | QBatchOp (items : list host_message)
| QSyscall (a : syscall_args) | QReadMem (addr len : Z)
| QClockGet | QClockSet (ns : Z) | QClockSleep (ns : Z) | QClockAdvance (ns : Z)
| QConsoleStream (m : stream_meta) | QSetStream (s : tail_of_vm) (m : stream_meta) | QDropSession (s : tail_of_vm)
| QFdStream (h : file_handle) | QTail (path : string) (start : tail_start)
| QRunAsync (a : run_async_args) | QWait (timeout_ms : option Z) (p : process) | QPid (p : process) | QKill (p : process) (signal : Z)
| QStatus (p : process) | QStdinWrite (p : process) (data : bytes) | QCloseStdin (p : process)
| QProcStream (p : process) (c : Wire.proc_stream_channel) | QDropProcess (p : process)
| QSpawn | QWorkerRun (w : worker) (a : exec_args) | QJoin (w : worker) | QWorkerRunAsync (w : worker) (a : run_async_args)
| QWorkerOpen (w : worker) (path : string) (mode : open_mode) | QWorkerSyscall (w : worker) (a : syscall_args)
| QWorkerBegin (w : worker) (a : syscall_args) | QFinish (p : pending_worker_syscall)
| QWorkerKill (w : worker) (signal : Z) | QDropWorker (w : worker).

Section requests.
Context {G : Type} `{!Agent G} (name : string).

Definition void {A} (x : op (G := G) A) : op () := and_then x (fun _ => done (Ok ())).
Definition just (f : guest G -> guest G) : op () := fun g => Some (f g, Ret (Ok ())).

Definition perform (q : request) : op (G := G) () :=
  match q with
  | QListdir path => void (listdir name path)
  | QMkdir a => mkdir name a
  | QUnlink path => unlink name path
  | QRename from to => rename name from to
  | QSeek h offset whence => void (seek name h offset whence)
  | QIoctl h cmd data bufs offsets => void (ioctl_with_ptrs name h cmd data bufs offsets)
  | QStat path => void (stat name path)
  | QWriteFile path data => write_file name path data
  | QReadFile path => void (read_file name path)
  | QRead h max => void (read name h max)
  | QWrite h data => void (write name h data)
  | QOpen a => void (open_file_with_perm name a)
  | QClose h => close name h
  | QRun a => void (run name a)
  | QBatchRun items => void (batch_run name items)
  | QBatchOp items => void (batch_op name items)
  | QSyscall a => void (syscall_with_bufs name a)
  | QReadMem addr len => void (read_mem name addr len)
  | QClockGet => void (clock_get name)
  | QClockSet ns => clock_set name ns
  | QClockSleep ns => clock_sleep name ns
  | QClockAdvance ns => clock_advance name ns
  | QConsoleStream m => void (register_console_stream m)
  | QSetStream s m => just (set_stream_meta s m)
  | QDropSession s => just (drop_session s)
  | QFdStream h => void (fd_stream name h)
  | QTail path start => void (tail_file name path start)
  | QRunAsync a => void (run_async name a)
  | QWait t p => void (wait_with_timeout name t p)
  | QPid p => void (pid name p)
  | QKill p signal => kill name p signal
  | QStatus p => void (proc_status name p)
  | QStdinWrite p data => void (stdin_write name p data)
  | QCloseStdin p => close_stdin name p
  | QProcStream p c => void (proc_stream_channel name p c)
  | QDropProcess p => process_dropped name p
  | QSpawn => void (spawn_worker name)
  | QWorkerRun w a => void (worker_run name w a)
  | QJoin w => void (join name w)
  | QWorkerRunAsync w a => void (worker_run_async name w a)
  | QWorkerOpen w path mode => void (worker_open_file name w path mode)
  | QWorkerSyscall w a => void (worker_syscall_with_bufs name w a)
  | QWorkerBegin w a => void (begin_syscall_with_bufs name w a)
  | QFinish p => void (finish name p)
  | QWorkerKill w signal => void (worker_kill name w signal)
  | QDropWorker w => worker_dropped name w
  end.

(** One after the other, with their outcomes. *)
Fixpoint perform_all (qs : list request) (g : guest G) : option (guest G * list (outcome ())) :=
  match qs with
  | [] => Some (g, [])
  | q :: qs =>
      match perform q g with
      | None => None
      | Some (g, o) => match perform_all qs g with None => None | Some (g, os) => Some (g, o :: os) end
      end
  end.

(** Did the agent answer? *)
Definition answered {A} (o : outcome A) : bool :=
  match o with Ret (Err (VClient _)) | Ret (Err (WrongState _ _ _)) | Panic _ => false | Ret _ => true end.

(** ** What every operation keeps *)

(** A relation on handles that the building blocks of the operations keep. *)
Definition keeps {A} (R : guest G -> guest G -> Prop) (x : op A) : Prop := forall g g' o, x g = Some (g', o) -> R g g'.

Section relation.
Context (R : guest G -> guest G -> Prop) `{!PreOrder R}.

Lemma keeps_done {A} (r : result A vm_error) : keeps R (done r).
Proof. intros g g' o [= <- <-]. done. Qed.

Lemma keeps_and_then {A B} (x : op A) (f : A -> op B) : keeps R x -> (forall a, keeps R (f a)) -> keeps R (and_then x f).
Proof.
  intros Hx Hf g g' o. unfold and_then. destruct (x g) as [[g1 [[a|e]|msg]]|] eqn:E; [| | |done]; apply Hx in E.
  - intros H. etrans; [exact E|]. by eapply Hf.
  - by intros [= <- <-].
  - by intros [= <- <-].
Qed.

Lemma op_keeps_attempt {A} (x : op A) (k : op ()) : keeps R x -> keeps R k -> keeps R (attempt x k).
Proof.
  intros Hx Hk g g' o. unfold attempt. destruct (x g) as [[g1 [r|msg]]|] eqn:E; [| |done]; apply Hx in E.
  - intros H. etrans; [exact E|]. by eapply Hk.
  - by intros [= <- <-].
Qed.

Lemma keeps_void {A} (x : op A) : keeps R x -> keeps R (void x).
Proof. intros Hx. apply keeps_and_then; [done|]. intros a. apply keeps_done. Qed.
End relation.

Lemma with_client_inv {A B} action (c : call A) (f : A -> result B vm_error) g g' o :
  with_client name action c f g = Some (g', o) ->
  (exists i a r, ask c (g_agent g) = Some (a, r) /\ g' = set_vm i (set_agent a g) /\ o = Ret (match r with Ok x => f x | Err e => Err (VClient e) end)) \/
  (exists i, g' = set_vm i g) /\ answered o = false.
Proof.
  unfold with_client. destruct (state (g_vm g)) eqn:Es; try (intros [= <- <-]; right; split; [by eexists|unfold Vm.with_client; by rewrite Es]).
  destruct (running (g_vm g)) as [res|] eqn:Er.
  - destruct (ask c (g_agent g)) as [[a r]|] eqn:Ea; [|done]. intros [= <- <-]. left. eexists _, a, r. split; [done|].
    split; [reflexivity|]. unfold Vm.with_client. cbn [set_agent g_vm]. by rewrite Es, Er.
  - intros [= <- <-]. right. split; [by eexists|]. unfold Vm.with_client. by rewrite Es, Er.
Qed.

Lemma op_keeps_client {A B} (R : guest G -> guest G -> Prop) action (c : call A) (f : A -> result B vm_error) :
  (forall i a r g, ask c (g_agent g) = Some (a, r) -> R g (set_vm i (set_agent a g))) -> (forall i g, R g (set_vm i g)) ->
  keeps R (with_client name action c f).
Proof. intros H1 H2 g g' o H. apply with_client_inv in H as [(i & a & r & Ha & -> & _)|[[i ->] _]]; eauto. Qed.
End requests.

(** * Open files *)

(** Does a message open or close a file of the agent? *)
Definition touches_files (m : host_message) : bool :=
  match m with MOpenFile _ | MClose _ => true | MBatchOp items => existsb (fun i => match i with MOpenFile _ | MClose _ => true | _ => false end) items | _ => false end.

(** What the handle relies on: an answered open files the handle it answers with,
    an answered close takes it away, an open or a close that fails for the
    connection may have been done, a file opened for a worker is refused, and
    nothing else changes the files. *)
Class AgentFiles (G : Type) `{!Agent G} := { agent_files : G -> gset Z }.
Class AgentFilesLaws (G : Type) `{!Agent G, !AgentFiles G} : Prop := {
  open_law a s s' r : ask (AgentClient.open_file a) s = Some (s', r) ->
    match r with
    | Ok (Ok h) => agent_files s' = {[file_id h]} ∪ agent_files s
    | Ok (Err _) => agent_files s' = agent_files s
    | Err _ => agent_files s ⊆ agent_files s'
    end;
  close_law h s s' r : ask (AgentClient.close h) s = Some (s', r) ->
    match r with
    | Ok _ => agent_files s' = agent_files s ∖ {[file_id h]}
    | Err _ => agent_files s ∖ {[file_id h]} ⊆ agent_files s' /\ agent_files s' ⊆ agent_files s
    end;
  worker_open_law a s s' h : ask (AgentClient.worker_open_file a) s <> Some (s', Ok (Ok h));
  other_law {A} (c : call A) s s' r : touches_files (c_op c) = false -> ask c s = Some (s', r) -> agent_files s' = agent_files s;
}.

Section files.
Context {G : Type} `{!Agent G, !AgentFiles G, !AgentFilesLaws G} (name : string).
Implicit Types g : guest G.

Definition no_worker_files g : Prop := Forall (fun s => s = ∅) (g_worker_files g).

(** The files stay as they are, here and there. *)
Definition same_files g g' : Prop :=
  no_worker_files g ->
  no_worker_files g' /\ Vm.open_files (g_reg g') = Vm.open_files (g_reg g) /\ agent_files (g_agent g') = agent_files (g_agent g).

#[local] Instance same_files_preorder : PreOrder same_files.
Proof.
  split; [by intros g|]. intros g1 g2 g3 H12 H23 H1. destruct (H12 H1) as (H2 & E1 & E2). destruct (H23 H2) as (H3 & E3 & E4).
  split_and!; [done|congruence..].
Qed.

Lemma same_client {A B} action (c : call A) (f : A -> result B vm_error) :
  touches_files (c_op c) = false -> keeps same_files (with_client name action c f).
Proof. intros Hc. apply op_keeps_client; [|done]. intros i a r g Ha Hw. split_and!; [done..|]. by apply (other_law _ _ _ _ Hc) in Ha. Qed.

Lemma same_just (f : guest G -> guest G) :
  (forall g, g_worker_files (f g) = g_worker_files g /\ Vm.open_files (g_reg (f g)) = Vm.open_files (g_reg g) /\ g_agent (f g) = g_agent g) ->
  keeps same_files (just f).
Proof. intros Hf g g' o [= <- <-] Hw. destruct (Hf g) as (E1 & E2 & E3). unfold no_worker_files. by rewrite E1, E2, E3. Qed.

Lemma same_stream m : keeps same_files (wrap_tail_session_with_meta (G := G) m).
Proof. intros g g' o [= <- <-] Hw. done. Qed.
Lemma same_process h : keeps same_files (new_process (G := G) h).
Proof. intros g g' o [= <- <-] Hw. done. Qed.

Lemma files_of_none w g : no_worker_files g -> files_of w g = ∅.
Proof.
  intros Hw. unfold files_of. destruct (nth_in_or_default (wk_guard w) (g_worker_files g) ∅) as [Hin|]; [|done].
  unfold no_worker_files in Hw. rewrite Forall_forall in Hw. by apply Hw, list_elem_of_In.
Qed.

Lemma same_drain w : forall g, no_worker_files g -> drain_files w g = g.
Proof. intros g Hw. unfold drain_files. by rewrite decide_True by (by apply files_of_none). Qed.

Lemma same_stat path : keeps same_files (stat name path).
Proof. by apply same_client. Qed.
Lemma same_fetch path : keeps same_files (fetch_file name path).
Proof. by apply same_client. Qed.

Lemma same_read_file path : keeps same_files (read_file name path).
Proof.
  intros g g' o. unfold read_file. destruct (stat name path g) as [[g1 [[m|e]|msg]]|] eqn:E; [| | |done]; apply same_stat in E.
  - destruct (_ <? _); [by intros [= <- <-]|]. intros H%same_fetch. by etrans.
  - intros H%same_fetch. by etrans.
  - by intros [= <- <-].
Qed.

Lemma same_wait t p : keeps same_files (wait_with_timeout name t p).
Proof.
  intros g g' o. unfold wait_with_timeout. destruct (consumed p g); [by intros [= <- <-]|].
  apply keeps_and_then; [apply _|by apply same_client|]. intros r g1 g2 o1 [= <- <-] Hw. done.
Qed.

Lemma same_dropped p : keeps same_files (process_dropped name p).
Proof.
  intros g g' o. unfold process_dropped. destruct (consumed p g); [by intros [= <- <-]|].
  apply op_keeps_attempt; [apply _|by apply same_client|]. apply op_keeps_attempt; [apply _|by apply same_client|]. apply keeps_done, _.
Qed.

Lemma same_join w : keeps same_files (join name w).
Proof. apply keeps_and_then; [apply _|by apply same_client|]. intros r g g' o [= <- <-] Hw. rewrite same_drain by done. done. Qed.

Lemma same_worker_dropped w : keeps same_files (worker_dropped name w).
Proof. intros g g' o H Hw. unfold worker_dropped in H. rewrite decide_True in H by (by apply files_of_none). injection H as <- <-. done. Qed.

Lemma same_spawn : keeps same_files (spawn_worker (G := G) name).
Proof.
  apply keeps_and_then; [apply _|by apply same_client|]. intros h g g' o [= <- <-] Hw. split_and!; [|done..].
  unfold no_worker_files. cbn [g_worker_files]. apply Forall_app. split; [done|by repeat constructor].
Qed.

Lemma same_worker_open w path mode : keeps same_files (worker_open_file name w path mode).
Proof.
  intros g g' o. unfold worker_open_file, and_then.
  assert (Hs : keeps same_files (with_client name "worker_open_file" (AgentClient.worker_open_file (WorkerOpenFileArgs (wk_of w) (OpenFileArgs path mode None))) (errors id))) by by apply same_client.
  destruct (with_client _ _ _ _ g) as [[g1 [[h|e]|msg]]|] eqn:E; [| | |done].
  - apply with_client_inv in E as [(i & a & r & Ha & -> & Ho)|[_ Hno]]; [|done].
    destruct r as [[h'|]|]; try done. by apply worker_open_law in Ha.
  - apply Hs in E. by intros [= <- <-].
  - apply Hs in E. by intros [= <- <-].
Qed.

(** A request that opens or closes a file of the agent. *)
Definition file_request (q : request) : bool :=
  match q with QOpen _ | QClose _ => true | QBatchOp items => touches_files (MBatchOp items) | _ => false end.

Lemma same_request q : file_request q = false -> keeps same_files (perform name q).
Proof.
  intros Hq. destruct q; cbn [perform]; try done; try (apply keeps_void; [apply _|]);
    first [by apply same_client|by apply same_just|apply same_stream|apply same_read_file|apply same_wait|apply same_dropped|apply same_join
          |apply same_worker_dropped|apply same_spawn|apply same_worker_open
          |apply keeps_and_then; [apply _|by apply same_client|intros ?; first [apply same_stream|apply same_process]]].
Qed.

(** The registry lists open files of the agent, and if it is [exact] all of
    them. *)
Record tracked (exact : bool) g : Prop := {
  tr_workers : no_worker_files g;
  tr_listed : Vm.open_files (g_reg g) ⊆ agent_files (g_agent g);
  tr_exact : exact = true -> Vm.open_files (g_reg g) = agent_files (g_agent g);
}.

Lemma tracked_same exact e g g' : same_files g g' -> tracked exact g -> tracked (exact && e) g'.
Proof.
  intros Hs [Hw Hl He]. destruct (Hs Hw) as (Hw' & E1 & E2). split; [done|by rewrite E1, E2|].
  intros [-> _]%andb_true_iff. rewrite E1, E2. by apply He.
Qed.

(** Not exact any more, and still listed. *)
Lemma tracked_lost exact g : no_worker_files g -> Vm.open_files (g_reg g) ⊆ agent_files (g_agent g) -> tracked (exact && false) g.
Proof. intros Hw Hl. split; [done..|]. by rewrite andb_false_r. Qed.

Lemma tracked_still exact g :
  no_worker_files g -> (exact = true -> Vm.open_files (g_reg g) = agent_files (g_agent g)) -> Vm.open_files (g_reg g) ⊆ agent_files (g_agent g) ->
  tracked (exact && true) g.
Proof. intros Hw He Hl. split; [done..|]. by rewrite andb_true_r. Qed.

Lemma open_tracked a exact g g' o : tracked exact g -> perform name (QOpen a) g = Some (g', o) -> tracked (exact && answered o) g'.
Proof.
  intros [Hw Hl He] H. cbn [perform] in H. unfold void, open_file_with_perm, and_then, done in H.
  destruct (with_client _ _ _ _ g) as [[g1 o1]|] eqn:E; [|done].
  apply with_client_inv in E as [(i & s & r & Ha & -> & ->)|[[i ->] Hno]].
  - apply open_law in Ha. destruct r as [[h|e]|e]; simplify_eq/=.
    + apply tracked_still; [done| |]; cbn; rewrite Ha; [intros E; by rewrite He|set_solver].
    + apply tracked_still; [done| |]; cbn; by rewrite Ha.
    + apply tracked_lost; [done|]. cbn. set_solver.
  - destruct o1 as [[h|e]|msg]; [done|..]; simplify_eq/=; [destruct e; try done|]; by apply tracked_lost.
Qed.

Lemma close_tracked h exact g g' o : tracked exact g -> perform name (QClose h) g = Some (g', o) -> tracked (exact && answered o) g'.
Proof.
  intros [Hw Hl He] H. cbn [perform] in H. unfold close in H.
  destruct (with_client _ _ _ _ g) as [[g1 o1]|] eqn:E; [|done].
  apply with_client_inv in E as [(i & s & r & Ha & -> & ->)|[[i ->] Hno]].
  - apply close_law in Ha. destruct r as [[]|e]; simplify_eq/=.
    + apply tracked_still; [done| |]; cbn; rewrite Ha; [intros E; by rewrite He|set_solver].
    + apply tracked_still; [done| |]; cbn; rewrite Ha; [intros E; by rewrite He|set_solver].
    + apply tracked_lost; [done|]. cbn. set_solver.
  - destruct o1 as [[[]|e]|msg]; [done|..]; simplify_eq/=; [destruct e; try done|]; (apply tracked_lost; [done|cbn; set_solver]).
Qed.

Definition no_file_batch (q : request) : Prop := match q with QBatchOp items => touches_files (MBatchOp items) = false | _ => True end.
Definition file_requests_answered (qs : list request) (os : list (outcome ())) : Prop :=
  Forall2 (fun q o => file_request q = true -> answered o = true) qs os.

Lemma step_tracked q exact g g' o :
  no_file_batch q -> tracked exact g -> perform name q g = Some (g', o) ->
  exists e, tracked e g' /\ ((file_request q = true -> answered o = true) -> exact = true -> e = true).
Proof.
  intros Hb Ht Hp. destruct (file_request q) eqn:Hq.
  - exists (exact && answered o). split; [|by intros -> ->].
    destruct q; try done; [by eapply open_tracked|by eapply close_tracked|]. cbn [file_request] in Hq. congruence.
  - exists (exact && true). split; [|by intros _ ->]. eapply tracked_same; [|exact Ht]. by eapply same_request.
Qed.

Lemma run_tracked qs exact g g' os :
  Forall no_file_batch qs -> tracked exact g -> perform_all name qs g = Some (g', os) ->
  exists e, tracked e g' /\ (file_requests_answered qs os -> exact = true -> e = true).
Proof.
  intros Hq. revert exact g os. induction Hq as [|q qs Hb _ IH]; intros exact g os Ht; cbn [perform_all].
  - intros [= <- <-]. by exists exact.
  - destruct (perform name q g) as [[g1 o]|] eqn:Eo; [|done]. destruct (perform_all name qs g1) as [[g2 os']|] eqn:Er; [|done]. intros [= <- <-].
    destruct (step_tracked _ _ _ _ _ Hb Ht Eo) as (e1 & H1 & H2). destruct (IH _ _ _ H1 Er) as (e & He & H3). exists e. split; [done|].
    intros [Ha Hr]%Forall2_cons H0. auto.
Qed.

(** The files a machine handle lists are files its guest has open. In every
    run of requests, on files, processes, workers and streams, whatever fails
    and whatever is dropped, the registry a snapshot looks at lists only handles
    the agent has open; and as long as every open and close was answered it
    lists all of them, so that a quiescent machine has no file open. *)
Lemma open_files_tracked qs g g' os :
  tracked true g -> perform_all name qs g = Some (g', os) ->
  Forall no_file_batch qs ->
  Vm.open_files (g_reg g') ⊆ agent_files (g_agent g') /\
  (file_requests_answered qs os ->
   Vm.open_files (g_reg g') = agent_files (g_agent g') /\ (is_quiescent (g_reg g') = true -> agent_files (g_agent g') = ∅)).
Proof.
  intros Ht Hrun Hq. destruct (run_tracked _ _ _ _ _ Hq Ht Hrun) as (e & [Hw Hl He] & Hall).
  split; [done|]. intros Ha. specialize (He (Hall Ha eq_refl)). split; [done|]. unfold is_quiescent. intros [H _]%andb_true_iff.
  apply bool_decide_eq_true in H. by rewrite <- He.
Qed.
End files.

(** * Processes *)

Section processes.
Context {G : Type} `{!Agent G} (name : string).
Implicit Types g : guest G.

(** A process that was waited for stays so. *)
Definition consumed_kept g g' : Prop := forall n, nth n (g_consumed g) false = true -> nth n (g_consumed g') false = true.

#[local] Instance consumed_kept_preorder : PreOrder consumed_kept.
Proof. split; [by intros g n|]. intros g1 g2 g3 H1 H2 n Hn. by apply H2, H1. Qed.

Lemma kept_same g g' : g_consumed g' = g_consumed g -> consumed_kept g g'.
Proof. intros E n. by rewrite E. Qed.

Lemma kept_client {A B} action (c : call A) (f : A -> result B vm_error) : keeps consumed_kept (with_client name action c f).
Proof. apply op_keeps_client; intros; by apply kept_same. Qed.

Lemma kept_step {A} (f : guest G -> guest G) (o : outcome A) : (forall g, g_consumed (f g) = g_consumed g) -> keeps consumed_kept (fun g => Some (f g, o)).
Proof. intros Hf g g' o' [= <- <-]. by apply kept_same. Qed.

Lemma kept_drain w g : g_consumed (drain_files w g) = g_consumed g.
Proof. unfold drain_files. by destruct (decide _). Qed.

Lemma kept_stream m : keeps consumed_kept (wrap_tail_session_with_meta (G := G) m).
Proof. intros g g' o [= <- <-]. by apply kept_same. Qed.

Lemma kept_process h : keeps consumed_kept (new_process (G := G) h).
Proof.
  intros g g' o [= <- <-] n Hn. cbn [g_consumed]. rewrite app_nth1; [done|].
  destruct (Nat.lt_ge_cases n (length (g_consumed g))); [done|]. by rewrite nth_overflow in Hn.
Qed.

Lemma nth_consume (l : list bool) i : (i < length l)%nat -> nth i (<[i := true]> l) false = true.
Proof. intros H. rewrite nth_lookup, list_lookup_insert_eq by done. done. Qed.

Lemma kept_consume p g : consumed_kept g (consume p g).
Proof.
  intros n Hn. cbn [consume g_consumed]. destruct (decide (pr_guard p = n)) as [->|Hne].
  - apply nth_consume. destruct (Nat.lt_ge_cases n (length (g_consumed g))); [done|]. by rewrite nth_overflow in Hn.
  - rewrite nth_lookup in *. by rewrite list_lookup_insert_ne.
Qed.

Lemma kept_read_file path : keeps consumed_kept (read_file name path).
Proof.
  intros g g' o. unfold read_file, fetch_file. destruct (stat name path g) as [[g1 [[m|e]|msg]]|] eqn:E; [| | |done]; apply kept_client in E.
  - destruct (_ <? _); [by intros [= <- <-]|]. intros H%kept_client. by etrans.
  - intros H%kept_client. by etrans.
  - by intros [= <- <-].
Qed.

Lemma kept_wait t p : keeps consumed_kept (wait_with_timeout name t p).
Proof.
  intros g g' o. unfold wait_with_timeout. destruct (consumed p g); [by intros [= <- <-]|].
  apply keeps_and_then; [apply _|apply kept_client|]. intros r g1 g2 o1 [= <- <-]. apply kept_consume.
Qed.

Lemma kept_close h : keeps consumed_kept (close name h).
Proof.
  intros g g' o. unfold close. destruct (with_client _ _ _ _ g) as [[g1 [r|msg]]|] eqn:E; [| |done]; apply kept_client in E; by intros [= <- <-].
Qed.

Lemma kept_dropped p : keeps consumed_kept (process_dropped name p).
Proof.
  intros g g' o. unfold process_dropped. destruct (consumed p g); [by intros [= <- <-]|].
  apply op_keeps_attempt; [apply _|apply kept_client|]. apply op_keeps_attempt; [apply _|apply kept_client|]. apply keeps_done, _.
Qed.

Lemma kept_worker_dropped w : keeps consumed_kept (worker_dropped name w).
Proof.
  intros g g' o. unfold worker_dropped. destruct (decide _); [by intros [= <- <-]|].
  apply op_keeps_attempt; [apply _|apply kept_client|]. apply kept_step. apply kept_drain.
Qed.

Lemma kept_request q : keeps consumed_kept (perform name q).
Proof.
  destruct q; cbn [perform]; try (apply keeps_void; [apply _|]);
    first [apply kept_client|apply kept_stream|apply kept_read_file|apply kept_close|apply kept_dropped|apply kept_wait|apply kept_worker_dropped|by apply kept_step
          |apply keeps_and_then; [apply _|apply kept_client|]; intros ?;
           first [by apply kept_step|apply kept_process|apply kept_step; intros ?; apply kept_drain|intros g g' o [= <- <-]; by apply kept_same]].
Qed.

Lemma run_kept qs g g' os : perform_all name qs g = Some (g', os) -> consumed_kept g g'.
Proof.
  revert g os. induction qs as [|q qs IH]; intros g os; cbn [perform_all]; [by intros [= <- <-]|].
  destruct (perform name q g) as [[g1 o]|] eqn:Eo; [|done]. destruct (perform_all name qs g1) as [[g2 os']|] eqn:Er; [|done]. intros [= <- <-].
  apply kept_request in Eo. etrans; [exact Eo|]. by eapply IH.
Qed.

(** A process is collected once. After a wait for it that the agent answered,
    with the output of the process or with an error, whatever is asked then, a
    further wait for it is refused without asking the agent, and dropping the
    last clone of its handle asks for nothing: the number its handle has may
    belong to nobody by then. *)
Lemma process_waited_once t p qs g g1 g2 o os :
  (pr_guard p < length (g_consumed g))%nat -> wait_with_timeout name t p g = Some (g1, o) -> answered o = true ->
  perform_all name qs g1 = Some (g2, os) ->
  (forall t', wait_with_timeout name t' p g2 = Some (g2, Ret (Err (already_waited p)))) /\ process_dropped name p g2 = Some (g2, Ret (Ok ())).
Proof.
  intros Hp Hw Ho Hrun. assert (H1 : consumed p g1 = true).
  { unfold wait_with_timeout in Hw. destruct (consumed p g) eqn:Ec; [unfold done in Hw; by simplify_eq|]. unfold and_then, done in Hw.
    destruct (with_client _ _ _ _ g) as [[g3 o3]|] eqn:E; [|done].
    apply with_client_inv in E as [(i & s & r & _ & -> & ->)|[_ Hno]].
    - destruct r as [r|e]; simplify_eq/=. unfold consumed. cbn. by apply nth_consume.
    - destruct o3 as [[r|e]|msg]; [done|..]; simplify_eq/=; congruence. }
  assert (H2 : consumed p g2 = true) by (by eapply run_kept).
  split; [intros t'|]; unfold wait_with_timeout, process_dropped; by rewrite H2.
Qed.

(** A worker has no files of its own, so the guard of its handle never does
    anything, and a worker that is not joined stays. *)
Lemma worker_guard_idle w g : files_of w g = ∅ -> worker_dropped name w g = Some (g, Ret (Ok ())).
Proof. intros H. unfold worker_dropped. by rewrite decide_True. Qed.

(** A file that is too big is not asked for. *)
Lemma big_file_refused path g g1 m :
  stat name path g = Some (g1, Ret (Ok m)) -> READ_FILE_MAX_BYTES < sm_size m -> read_file name path g = Some (g1, Ret (Err (too_big path (sm_size m)))).
Proof. intros H Hm. unfold read_file. rewrite H, (proj2 (Z.ltb_lt _ _)) by done. done. Qed.
End processes.

(** * Examples *)

(** An agent with a counter, its open files, and what it was asked. *)
Record demo_agent := DemoAgent { d_next : Z; d_files : gset Z; d_asked : list host_message }.

Definition demo_reply (m : host_message) (s : demo_agent) : demo_agent * agent_message :=
  let asked := d_asked s ++ [m] in
  let drawn := DemoAgent (d_next s + 1) (d_files s) asked in
  let same := DemoAgent (d_next s) (d_files s) asked in
  match m with
  | MOpenFile _ => (DemoAgent (d_next s + 1) ({[d_next s]} ∪ d_files s) asked, ROpenFile (Ok (FileHandle (d_next s))))
  | MClose h =>
      if decide (file_id h ∈ d_files s) then (DemoAgent (d_next s) (d_files s ∖ {[file_id h]}) asked, RClose (Ok ()))
      else (same, RAgentError (AgentError UnknownHandle "close"))
  | MRunAsync _ => (drawn, RRunAsync (Ok (ProcessHandle (d_next s))))
  | MWait _ => (same, RWait (Ok (ExecOk (Exited 0) (bytes_of "out") [])))
  | MKill _ => (same, RKill (Ok ()))
  | MSpawnWorker => (drawn, RSpawnWorker (Ok (WorkerHandle (d_next s))))
  | MStat _ => (same, RStat (Ok (FileMetadata (READ_FILE_MAX_BYTES + 1) 0 TFile 420)))
  | _ => (same, RAgentError (AgentError BadRequest "refused"))
  end.

#[export] Instance demo_is_agent : Agent demo_agent := { ask A c s := let (s', m) := demo_reply (c_op c) s in Some (s', answer c m) }.
#[export] Instance demo_agent_files : AgentFiles demo_agent := { agent_files := d_files }.

#[export] Instance demo_agent_laws : AgentFilesLaws demo_agent.
Proof.
  split.
  - intros a s s' r [= <- <-]. done.
  - intros h s s' r. unfold ask, demo_is_agent. cbn [c_op AgentClient.close demo_reply]. destruct (decide _) as [Hin|Hin]; intros [= <- <-]; [done|].
    split; [|done]. cbn. set_solver.
  - intros a s s' h. unfold ask, demo_is_agent. cbn. congruence.
  - intros A c s s' r Hc. unfold ask, demo_is_agent. destruct (c_op c); try done; cbn; by intros [= <- _].
Qed.

Definition booted_guest : guest demo_agent := Guest (from_running 3 1) registry_new (DemoAgent 1 ∅ []) 0 [] [].
Definition demo_mode : open_mode := OpenMode true false false false false false.

Definition demo_requests : list request := [QOpen (OpenFileArgs "/a" demo_mode None); QOpen (OpenFileArgs "/b" demo_mode None); QStat "/a"; QClose (FileHandle 1)].

Lemma booted_tracked : tracked true booted_guest.
Proof. by split; [constructor|cbn|]. Qed.

Lemma open_files_tracked_witness :
  exists g' os, perform_all "vm" demo_requests booted_guest = Some (g', os) /\ Vm.open_files (g_reg g') = agent_files (g_agent g') /\ file_id (FileHandle 2) ∈ agent_files (g_agent g').
Proof.
  destruct (perform_all "vm" demo_requests booted_guest) as [[g' os]|] eqn:E; [|vm_compute in E; discriminate E].
  assert (Hb : Forall no_file_batch demo_requests) by (repeat constructor).
  destruct (open_files_tracked "vm" demo_requests booted_guest g' os booted_tracked E Hb) as [Hl He].
  exists g', os. split; [reflexivity|].
  assert (Hos : os = [Ret (Ok ()); Ret (Ok ()); Ret (Ok ()); Ret (Ok ())] /\ file_id (FileHandle 2) ∈ agent_files (g_agent g')).
  { vm_compute in E. injection E as <- <-. split; [done|]. apply (bool_decide_unpack _). vm_compute. exact I. }
  destruct Hos as [-> Hin]. destruct He as [He _]; [by repeat constructor|]. by split.
Defined.

(** Closing a file of a paused machine is refused, and the file is taken off the
    registry all the same: a snapshot of the machine is let through with the file
    open in the guest. *)
Definition paused_guest : guest demo_agent :=
  Guest (set_vm_state Paused (from_running 3 1)) (Registry {[1]} ∅) (DemoAgent 2 {[1]} []) 0 [] [].

Lemma paused_close_forgets :
  exists g', perform "vm" (QClose (FileHandle 1)) paused_guest = Some (g', Ret (Err (WrongState "vm" Paused "close"))) /\
    snapshot_check "vm" (g_reg g') = Ok () /\ 1 ∈ agent_files (g_agent g').
Proof. eexists. split; [reflexivity|]. split; [vm_compute; reflexivity|apply (bool_decide_unpack _); vm_compute; exact I]. Qed.

Definition demo_async : run_async_args := RunAsyncArgs "sleep" ["9"] [] false None.

(** The last clone of a process nobody waited for. *)
Example dropped_process_asks :
  match run_async "vm" demo_async booted_guest with
  | Some (g, Ret (Ok p)) =>
      match process_dropped "vm" p g with
      | Some (g', Ret (Ok _)) => d_asked (g_agent g') = [MRunAsync demo_async; MKill (KillArgs (ProcessHandle 1) 15); MWait (WaitArgs (ProcessHandle 1) (Some 2000))]
      | _ => False
      end
  | _ => False
  end.
Proof. reflexivity. Qed.

Definition started : guest demo_agent := Guest (from_running 3 1) registry_new (DemoAgent 2 ∅ []) 0 [false] [].
Definition demo_process : process := Process (ProcessHandle 1) 0.

Lemma process_waited_once_witness :
  exists g, wait "vm" demo_process started = Some (g, Ret (Ok (RunResult (bytes_of "out") [] (Exited 0)))) /\
    process_dropped "vm" demo_process g = Some (g, Ret (Ok ())).
Proof.
  eexists. split; [reflexivity|].
  eapply (process_waited_once "vm" None demo_process [] started _ _ (Ret (Ok (RunResult (bytes_of "out") [] (Exited 0)))) []);
    [cbn; lia|reflexivity|reflexivity|reflexivity].
Defined.

(** A worker is started, and its handle goes: the agent is not told. *)
Lemma worker_left_behind :
  match spawn_worker "vm" booted_guest with
  | Some (g, Ret (Ok w)) => worker_dropped "vm" w g = Some (g, Ret (Ok ())) /\ d_asked (g_agent g) = [MSpawnWorker]
  | _ => False
  end.
Proof. split; reflexivity. Qed.

Example worker_args : pad_args [1; 2] = [1; 2; 0; 0; 0; 0] /\ pad_args [1; 2; 3; 4; 5; 6; 7] = [1; 2; 3; 4; 5; 6].
Proof. split; reflexivity. Qed.
