(* ===== verification/VmAgentLink.v ===== *)
(** The agent of [src/provium-agent] is one a machine handle may rely on: its
    handlers, behind the calls of the client, obey the laws of
    [AgentFilesLaws], so that what [VmAgent] shows of the registry of a handle
    holds of the table of the agent. *)
From S2P Require Import Prelude Wire AgentState AgentOs AgentOps Vm.
From S2P Require AgentClient VmAgent.

Open Scope list_scope.

(** * What a handler does to the tables *)

Section keeps.
Context {os : Type} `{!Os os} (R : agent_state -> agent_state -> Prop) `{!PreOrder R}.

Definition tables_keep {A} (x : m os A) : Prop := forall w w' r, x w = Some (w', r) -> R w.1 w'.1.

Lemma tk_ret {A} (x : A) : tables_keep (mret x).
Proof. by intros w w' r [= <- _]. Qed.
Lemma tk_bind {A B} (x : m os A) (f : A -> m os B) : tables_keep x -> (forall a, tables_keep (f a)) -> tables_keep (x ≫= f).
Proof.
  intros Hx Hf w w' r. unfold mbind, m_bind. destruct (x w) as [[w1 a]|] eqn:E; [|done].
  intros E2. etrans; [by eapply Hx|by eapply Hf].
Qed.
Lemma tk_os {A} (f : os -> os * A) : tables_keep (on_os f).
Proof. intros w w' r. unfold on_os. destruct (f w.2). by intros [= <- _]. Qed.
Lemma tk_of_os {A} (f : os -> A) : tables_keep (of_os f).
Proof. by intros w w' r [= <- _]. Qed.
Lemma tk_do_os f : tables_keep (do_os (os := os) f).
Proof. by intros w w' r [= <- _]. Qed.
Lemma tk_of_state {A} (f : agent_state -> A) : tables_keep (of_state (os := os) f).
Proof. by intros w w' r [= <- _]. Qed.
Lemma tk_block {A} (f : os -> option (os * A)) : tables_keep (block_os f).
Proof. intros w w' r. unfold block_os. destruct (f w.2) as [[]|]; [|done]. by intros [= <- _]. Qed.
Lemma tk_state {A} (f : agent_state -> agent_state * A) : (forall a, R a (f a).1) -> tables_keep (on_state (os := os) f).
Proof. intros Hf w w' r. unfold on_state. specialize (Hf w.1). destruct (f w.1) as [a v]. by intros [= <- _]. Qed.
End keeps.

(** ** Files *)

Definition files_kept (a a' : agent_state) : Prop := files a' = files a.

#[export] Instance files_kept_preorder : PreOrder files_kept.
Proof. split; [by intros a|]. intros a b c H1 H2. unfold files_kept in *. congruence. Qed.

Create HintDb file_table.
#[export] Hint Resolve tk_ret tk_os tk_of_os tk_do_os tk_of_state tk_block : file_table.
#[export] Hint Extern 1 (PreOrder _) => typeclasses eauto : file_table.

Lemma fk_with_process {os R} `{!Os os} h (f : process_slot -> process_slot * R) : tables_keep files_kept (on_state (os := os) (with_process_mut h f)).
Proof. apply tk_state. intros a. unfold with_process_mut. destruct (processes a !! h) as [slot|]; [|done]. by destruct (f slot). Qed.

Ltac file_table :=
  lazymatch goal with
  | |- tables_keep _ (_ ≫= _) => apply tk_bind; [apply _|file_table|intros; file_table]
  | |- tables_keep _ (match ?x with _ => _ end) => destruct x; file_table
  | |- tables_keep _ (on_state (with_process_mut _ _)) => apply fk_with_process
  | |- tables_keep _ (on_state _) => by apply tk_state
  | |- _ => first [apply tk_ret; apply _|apply tk_os; apply _|apply tk_of_os; apply _|apply tk_do_os; apply _|apply tk_of_state; apply _|apply tk_block; apply _|auto with file_table]
  end.

Section handlers.
Context {os : Type} `{!Os os}.

Lemma fk_exec_run a : tables_keep files_kept (exec_run (os := os) a).
Proof. unfold exec_run, wait_with_capture, kill_process_group. file_table. Qed.
Hint Resolve fk_exec_run : file_table.

Lemma fk_exec_all l : tables_keep files_kept (exec_all (os := os) l).
Proof. induction l; cbn [exec_all]; file_table. Qed.
Hint Resolve fk_exec_all : file_table.

Lemma fk_poll_child fuel pid d : tables_keep files_kept (poll_child (os := os) fuel pid d).
Proof. induction fuel as [|fuel IH]; cbn [poll_child]; unfold kill_process_group; [done|]. file_table. Qed.
Hint Resolve fk_poll_child : file_table.

Lemma fk_poll_worker fuel c i d : tables_keep files_kept (poll_worker (os := os) fuel c i d).
Proof. induction fuel as [|fuel IH]; cbn [poll_worker]; [done|]. file_table. Qed.
Hint Resolve fk_poll_worker : file_table.

Definition opens_or_closes (op : host_message) : bool := match op with MOpenFile _ | MClose _ => true | _ => false end.

Lemma fk_dispatch_short fuel op : opens_or_closes op = false -> tables_keep files_kept (dispatch_short (os := os) fuel op).
Proof.
  intros Hop. destruct op; try done; cbn [dispatch_short]; try (solve [file_table]);
    unfold read, write, read_file, write_file, stat, run_async, get_time, set_time,
      sleep_clock, advance_clock, syscall, run_syscall, read_mem, spawn, worker_exe, worker_exec,
      worker_join, reap_worker, worker_run_async, worker_open_file, worker_syscall,
      worker_syscall_begin, worker_syscall_await, worker_kill, listdir, mkdir, unlink, rename, seek,
      ioctl, wait, worker_wait, join_drain, kill, get_pid, proc_stdin_write, proc_stdin_close,
      proc_status, relay_process_op, relay_to, with_file; file_table.
Qed.
End handlers.

(** * The agent as the handle meets it *)

Section link.
Context {os : Type} `{!Os os} (fuel : nat).
(** What a stream is opened with; its handler changes no table. *)
Context (acknowledge : host_message -> agent_state * os -> agent_message).

(** An agent and the system under it. *)
Record linked := Linked { l_tables : agent_state; l_os : os }.

(** One connection for every call: the operation is dispatched, and the client
    makes what it makes of the reply. *)
Definition linked_ask {A} (c : AgentClient.call A) (s : linked) : option (linked * result A AgentClient.client_error) :=
  match dispatch fuel (AgentClient.c_op c) (l_tables s, l_os s) with
  | None => None
  | Some ((a, o), d) =>
      Some (Linked a o,
            match d with
            | Reply r => AgentClient.answer c r
            | Stream op => AgentClient.answer c (acknowledge op (a, o))
            | Violation _ => Err (AgentClient.ClientFrame Frame.Eof)
            end)
  end.

#[local] Instance linked_agent : VmAgent.Agent linked := { ask A := linked_ask }.

Definition file_ids (a : agent_state) : gset Z := set_map file_id (dom (files a)).
#[local] Instance linked_files : VmAgent.AgentFiles linked := { agent_files s := file_ids (l_tables s) }.

Lemma file_ids_insert h fd a : file_ids (put_file h fd a) = {[file_id h]} ∪ file_ids a.
Proof. unfold file_ids, put_file. cbn. rewrite dom_insert_L. set_solver. Qed.

Lemma file_ids_delete h a : file_ids (take_file h a).1 = file_ids a ∖ {[file_id h]}.
Proof.
  unfold file_ids. cbn. rewrite dom_delete_L. apply set_eq. intros x. rewrite elem_of_difference, !elem_of_map, elem_of_singleton.
  setoid_rewrite elem_of_difference. setoid_rewrite elem_of_singleton. split.
  - intros (h' & -> & Hin & Hne). split; [by exists h'|]. intros E. apply Hne. by destruct h, h'; cbn in E; subst.
  - intros [(h' & -> & Hin) Hne]. exists h'. split_and!; [done..|]. by intros ->.
Qed.

Lemma linked_kept {A} (c : AgentClient.call A) s s' r :
  VmAgent.touches_files (AgentClient.c_op c) = false -> linked_ask c s = Some (s', r) -> file_ids (l_tables s') = file_ids (l_tables s).
Proof.
  intros Hc. unfold linked_ask. destruct (dispatch _ _ _) as [[[a o] d]|] eqn:E; [|done]. intros [= <- _]. cbn [l_tables].
  assert (Hk : files_kept (l_tables s) a); [|unfold file_ids; by rewrite Hk].
  assert (Hd : tables_keep files_kept (dispatch (os := os) fuel (AgentClient.c_op c))); [|by apply Hd in E].
  clear E. destruct (AgentClient.c_op c); cbn [dispatch]; try done;
    try (apply tk_bind; [apply _|by apply fk_dispatch_short|intros; apply tk_ret, _]); try apply tk_ret, _.
  apply tk_bind; [apply _| |intros; apply tk_ret, _]. revert Hc. cbn [VmAgent.touches_files].
  induction items as [|i items IH]; cbn [dispatch_all existsb]; intros Hc; [apply tk_ret, _|]. apply orb_false_iff in Hc as [Hi Hc].
  apply tk_bind; [apply _|by apply fk_dispatch_short|intros]. apply tk_bind; [apply _|by apply IH|intros; apply tk_ret, _].
Qed.

#[local] Instance linked_laws : VmAgent.AgentFilesLaws linked.
Proof.
  split.
  - intros a s s' r. unfold VmAgent.ask, linked_agent, linked_ask. cbn [AgentClient.open_file AgentClient.c_op dispatch dispatch_short].
    unfold open_file, mbind, m_bind, on_os. cbn [fst snd]. destruct (os_open _ _ _) as [o1 [fd|e]].
    + unfold on_state, insert_file, alloc_id. cbn. intros [= <- <-]. cbn. etransitivity; [apply file_ids_insert|done].
    + cbn. by intros [= <- <-].
  - intros h s s' r. unfold VmAgent.ask, linked_agent, linked_ask. cbn [AgentClient.close AgentClient.c_op dispatch dispatch_short].
    unfold close, mbind, m_bind, on_state. cbn [fst snd take_file]. pose proof (file_ids_delete h (l_tables s)) as Hd. cbn [fst take_file] in Hd.
    destruct (files (l_tables s) !! h) as [fd|] eqn:Ef.
    + cbn. by intros [= <- <-].
    + cbn. intros [= <- <-]. cbn [VmAgent.agent_files linked_files l_tables]. rewrite Hd. set_solver.
  - intros a s s' h. unfold VmAgent.ask, linked_agent, linked_ask. cbn [AgentClient.worker_open_file AgentClient.c_op dispatch dispatch_short].
    unfold worker_open_file, mbind, m_bind, of_state. cbn. destruct (has_worker _ _); cbn; congruence.
  - intros A c s s' r Hc H. cbn. by eapply linked_kept.
Qed.

(** C18: the registry of a machine is the file table of its agent. A machine is
    booted, with an agent that has no file open; then whatever the handle is
    asked, about files, processes, workers and streams, whatever the system
    under the agent answers and whatever fails or is dropped, the files the
    handle lists are open in the agent's table; and if no open or close was
    refused or lost it lists them all, so that a machine a snapshot takes for
    quiescent has no file open in its agent. *)
Theorem handle_tracks_agent name cid inst a o qs g os' :
  files a = ∅ -> Forall VmAgent.no_file_batch qs ->
  VmAgent.perform_all name qs (VmAgent.Guest (from_running cid inst) registry_new (Linked a o) 0 [] []) = Some (g, os') ->
  Vm.open_files (VmAgent.g_reg g) ⊆ file_ids (l_tables (VmAgent.g_agent g)) /\
  (VmAgent.file_requests_answered qs os' ->
   Vm.open_files (VmAgent.g_reg g) = file_ids (l_tables (VmAgent.g_agent g)) /\
   (is_quiescent (VmAgent.g_reg g) = true -> file_ids (l_tables (VmAgent.g_agent g)) = ∅)).
Proof.
  intros Ha Hq Hrun. refine (VmAgent.open_files_tracked (G := linked) (AgentFiles0 := linked_files) name qs _ g os' _ Hrun Hq).
  split; [by constructor|cbn; set_solver|]. intros _. cbn. unfold file_ids. by rewrite Ha.
Qed.
End link.

(** Two files are opened in a guest, one of them is closed, and a command runs. *)
Definition toy_requests : list VmAgent.request :=
  [VmAgent.QOpen (OpenFileArgs "/etc/hosts" (OpenMode true false false false false false) None);
   VmAgent.QOpen (OpenFileArgs "/etc/fstab" (OpenMode true false false false false false) None);
   VmAgent.QRun (ExecArgs "sleep" [] [] false [] None (Some 5));
   VmAgent.QClose (FileHandle 1)].

Definition toy_guest : VmAgent.guest (linked (os := toy)) :=
  VmAgent.Guest (from_running 3 1) registry_new (Linked agent_new toy_start) 0 [] [].
Definition no_stream (op : host_message) (w : agent_state * toy) : agent_message := agent_err BadRequest "no stream".

Lemma handle_tracks_agent_witness :
  exists g os', VmAgent.perform_all (Agent0 := linked_agent 3 no_stream) "vm" toy_requests toy_guest = Some (g, os') /\
    Vm.open_files (VmAgent.g_reg g) = file_ids (l_tables (VmAgent.g_agent g)) /\ 2 ∈ file_ids (l_tables (VmAgent.g_agent g)).
Proof.
  destruct (VmAgent.perform_all (Agent0 := linked_agent 3 no_stream) "vm" toy_requests toy_guest) as [[g os']|] eqn:E; [|vm_compute in E; discriminate E].
  assert (Hb : Forall VmAgent.no_file_batch toy_requests) by (repeat constructor).
  destruct (handle_tracks_agent 3 no_stream "vm" 3 1 agent_new toy_start toy_requests g os' eq_refl Hb E) as [_ He].
  exists g, os'. split; [reflexivity|].
  assert (Hos : VmAgent.file_requests_answered toy_requests os' /\ 2 ∈ file_ids (l_tables (VmAgent.g_agent g))).
  { vm_compute in E. injection E as <- <-. split; [by repeat constructor|]. apply (bool_decide_unpack _). vm_compute. exact I. }
  destruct Hos as [Hos Hin]. destruct (He Hos) as [Heq _]. by split.
Defined.
