(* ===== verification/Lua.v ===== *)
(** What a Lua script hands to the bindings, and how its arguments are read:
    durations, timeouts and signals ([src/provium-host/src/lua/result_ud.rs]).
    The conversions of [mlua] that the bindings ask for are the class
    [FromLua]. *)
From Stdlib Require Import SpecFloat.
From S2P Require Import Prelude Text Numbers TestFilter.

Open Scope string_scope.
Open Scope list_scope.
Open Scope Z_scope.

(** * Values *)

(** [mlua::Value]. A table is what walking its pairs yields: no key and no
    value of them is [LNil]. *)
#[warnings="-register-all"]
Inductive value :=
| LNil
| LBool (b : bool)
| LInt (i : Z)
| LNum (f : spec_float)
| LStr (bs : bytes)
| LTable (pairs : list (value * value))
| LOther (type : string).

(** [Value::type_name]. *)
Definition type_name (v : value) : string :=
  match v with
  | LNil => "nil" | LBool _ => "boolean" | LInt _ => "integer" | LNum _ => "number"
  | LStr _ => "string" | LTable _ => "table" | LOther type => type
  end.

Definition i32_wrap (x : Z) : Z := (x + 2 ^ 31) mod 2 ^ 32 - 2 ^ 31.

Definition is_finite (f : spec_float) : bool :=
  match f with S754_zero _ | S754_finite _ _ _ => true | S754_infinity _ | S754_nan => false end.

(** * How a call ends *)

(** The errors the bindings raise; [Host] carries the text of one that comes
    from below. *)
Inductive lua_error :=
| BadDuration (raw : bytes)
| NotADuration (type : string)
| BadSeconds (secs : spec_float)
| NotText
| UnknownSignal (name : bytes)
| NotASignal (type : string)
| KillsAtOnce
| Poisoned
| StreamClosed
| StreamEof
| TimedOut (call : string) (pattern : bytes)
| Host (e : string)
| Usage (e : string).

(** A call returns, raises an error the script can catch, panics, waits for
    ever, or did not end with the fuel it was given. *)
Inductive ends (A : Type) := Gives (a : A) | Raises (e : lua_error) | Panics (message : string) | Hangs | Starved.
Arguments Gives {A} a.
Arguments Raises {A} e.
Arguments Panics {A} message.
Arguments Hangs {A}.
Arguments Starved {A}.

(** * Durations *)

(** [parse_duration]: seconds, from a number or from a text with a unit. *)
Definition checked_seconds (secs : spec_float) : result spec_float lua_error :=
  if negb (is_finite secs) || f64_lt secs (f64_of_Z 0) then Err (BadSeconds secs) else Ok secs.

Definition parse_duration (v : option value) (default : spec_float) : result spec_float lua_error :=
  match v with
  | None | Some LNil => Ok default
  | Some (LInt n) => checked_seconds (f64_of_Z n)
  | Some (LNum n) => checked_seconds n
  | Some (LStr raw) =>
      if utf8_valid raw then
        match parse_duration_str raw with Some secs => checked_seconds secs | None => Err (BadDuration raw) end
      else Err NotText
  | Some other => Err (NotADuration (type_name other))
  end.

Lemma parse_duration_ok v default secs :
  is_finite default = true -> f64_lt default (f64_of_Z 0) = false -> parse_duration v default = Ok secs ->
  is_finite secs = true /\ f64_lt secs (f64_of_Z 0) = false.
Proof.
  intros Hf Hl. assert (Hc : forall x, checked_seconds x = Ok secs -> is_finite secs = true /\ f64_lt secs (f64_of_Z 0) = false).
  { intros x. unfold checked_seconds. destruct (negb (is_finite x) || _) eqn:E; [done|]. intros [= <-].
    apply orb_false_iff in E as [E1 E2]. by apply negb_false_iff in E1. }
  unfold parse_duration. destruct v as [[]|]; try (by intros [= <-]); try done; try apply Hc.
  destruct (utf8_valid bs); [|done]. destruct (parse_duration_str bs); [apply Hc|done].
Qed.

(** [Instant + Duration], in nanoseconds since the clock's own start: the
    seconds are 64 bits wide and signed. *)
Definition instant_add (now d : Z) : result Z string :=
  if (now + d) / 1000000000 <=? 2 ^ 63 - 1 then Ok (now + d) else Err "overflow when adding duration to instant".

(** The deadline of an operation that starts [now]; the errors are panics. *)
Definition deadline_in (secs : spec_float) (now : Z) : result Z string :=
  match from_secs_f64 secs with Ok d => instant_add now d | Err e => Err e end.

(** * Signals *)

Definition signal_names : list (list string * Z) :=
  [(["term"; "sigterm"; "15"], 15); (["kill"; "sigkill"; "9"], 9); (["int"; "sigint"; "2"], 2);
   (["hup"; "sighup"; "1"], 1); (["quit"; "sigquit"; "3"], 3); (["stop"; "sigstop"], 19);
   (["cont"; "sigcont"], 18); (["usr1"; "sigusr1"; "10"], 10); (["usr2"; "sigusr2"; "12"], 12);
   (["alrm"; "sigalrm"; "14"], 14); (["pipe"; "sigpipe"; "13"], 13); (["chld"; "sigchld"; "17"], 17);
   (["winch"; "sigwinch"], 28)].

Definition signal_name_to_num (name : bytes) : option Z :=
  snd <$> find (fun row => existsb (fun n => bool_decide (bytes_of n = lower <$> name)) row.1) signal_names.

(** The signal of [proc:kill], [proc:signal] and [worker:kill]; [None] is a
    call without one, which [proc:signal] does not allow. *)
Definition signal_arg (sig : option value) : result Z lua_error :=
  match sig with
  | None => Ok 15
  | Some (LInt n) => Ok (i32_wrap n)
  | Some (LStr raw) =>
      if utf8_valid raw then match signal_name_to_num raw with Some n => Ok n | None => Err (UnknownSignal raw) end
      else Err NotText
  | Some other => Err (NotASignal (type_name other))
  end.

(** * [proc:wait] *)

Definition is_zero (f : spec_float) : bool := match f with S754_zero _ => true | _ => false end.

(** The milliseconds [proc:wait] asks the agent for. *)
Definition wait_timeout (timeout : option value) : result (option Z) lua_error :=
  match timeout with
  | None | Some LNil => Ok None
  | Some other =>
      match parse_duration (Some other) (f64_of_Z 0) with
      | Err e => Err e
      | Ok secs => if is_zero secs then Err KillsAtOnce else Ok (Some (f64_as_u64 (f64_mul secs (f64_of_Z 1000))))
      end
  end.

Example waits :
  wait_timeout (Some (LStr (bytes_of "1.5s"))) = Ok (Some 1500) /\ wait_timeout (Some (LStr (bytes_of "0ms"))) = Err KillsAtOnce /\
  wait_timeout (Some (LStr (bytes_of "0.9ms"))) = Ok (Some 0) /\ wait_timeout None = Ok None /\
  wait_timeout (Some (LStr (bytes_of "-1s"))) = Err (BadSeconds (f64_of_Z (-1))).
Proof. vm_compute. done. Qed.

Example signals :
  signal_arg (Some (LStr (bytes_of "SIGUSR1"))) = Ok 10 /\ signal_arg (Some (LInt (2 ^ 32 + 9))) = Ok 9 /\
  signal_arg (Some (LStr (bytes_of "18"))) = Err (UnknownSignal (bytes_of "18")) /\ signal_arg None = Ok 15.
Proof. vm_compute. done. Qed.

(** * Floats as integers *)

Definition i64_max : Z := 9223372036854775807.
Definition i64_min : Z := -9223372036854775808.

(** The fraction of a float is zero; and [as i64]. *)
Definition whole (f : spec_float) : bool :=
  match f with
  | S754_zero _ => true
  | S754_finite _ m e => (0 <=? e) || (Z.pos m mod 2 ^ (- e) =? 0)
  | _ => false
  end.
Definition f64_as_i64 (f : spec_float) : Z :=
  match truncated f with
  | Some n => Z.max i64_min (Z.min i64_max n)
  | None => match f with S754_infinity true => i64_min | S754_infinity false => i64_max | _ => 0 end
  end.

(** * Tables *)

(** Keys that Lua takes for the same. *)
Definition same_key (a b : value) : bool :=
  match a, b with
  | LInt i, LInt j => i =? j
  | LStr s, LStr t => bool_decide (s = t)
  | LBool b, LBool c => bool_decide (b = c)
  | LNum f, LNum g => SFeqb f g
  | _, _ => false
  end.

Definition table : Type := list (value * value).

(** What a key holds: nil if nothing. *)
Definition lookup (k : value) (t : table) : value := default LNil (snd <$> find (fun p => same_key k p.1) t).
Definition field (key : string) (t : table) : value := lookup (LStr (bytes_of key)) t.
Definition is_nil (v : value) : bool := match v with LNil => true | _ => false end.
Definition contains_key (key : string) (t : table) : bool := negb (is_nil (field key t)).

(** [sequence_values]: what 1, 2, … hold, up to the first nil. *)
Fixpoint sequence_from (fuel : nat) (i : Z) (t : table) : list value :=
  match fuel with
  | O => []
  | S fuel => match lookup (LInt i) t with LNil => [] | v => v :: sequence_from fuel (i + 1) t end
  end.
Definition sequence (t : table) : list value := sequence_from (length t) 1 t.

(** * What [mlua] converts *)

(** The typed reads of the bindings. A value of the type itself is taken as it
    is; what else is taken, such as a number for a text, is the library's. *)
Class FromLua := {
  to_bool : value -> option bool;
  to_i64 : value -> option Z;
  to_unsigned : Z -> value -> option Z;
  to_text : value -> option bytes;
  to_bytes : value -> option bytes;
  to_f64 : value -> option spec_float;
}.

Class FromLuaLaws `{FromLua} := {
  bool_taken b : to_bool (LBool b) = Some b;
  int_taken i : to_i64 (LInt i) = Some i;
  unsigned_taken max i : 0 <= i <= max -> to_unsigned max (LInt i) = Some i;
  unsigned_width max v i : to_unsigned max v = Some i -> 0 <= i <= max;
  nil_no_number max : to_unsigned max LNil = None /\ to_f64 LNil = None;
  text_taken bs : utf8_valid bs = true -> to_text (LStr bs) = Some bs;
  nil_no_text : to_text LNil = None;
  bytes_taken bs : to_bytes (LStr bs) = Some bs;
  number_taken f : to_f64 (LNum f) = Some f;
}.

(** Conversions that take nothing but the type itself. *)
Definition strict : FromLua := {|
  to_bool v := match v with LBool b => Some b | _ => None end;
  to_i64 v := match v with LInt i => Some i | _ => None end;
  to_unsigned max v := match v with LInt i => if (0 <=? i) && (i <=? max) then Some i else None | _ => None end;
  to_text v := match v with LStr bs => if utf8_valid bs then Some bs else None | _ => None end;
  to_bytes v := match v with LStr bs => Some bs | _ => None end;
  to_f64 v := match v with LNum f => Some f | _ => None end;
|}.

Lemma strict_laws : @FromLuaLaws strict.
Proof.
  split; try done.
  - intros max i [H1 H2]. simpl. by rewrite (proj2 (Z.leb_le 0 i)), (proj2 (Z.leb_le i max)).
  - intros max v n. destruct v as [| |k| | | |]; simpl; try done. destruct (_ && _) eqn:E; [|done]. intros [= <-].
    apply andb_true_iff in E as [?%Z.leb_le ?%Z.leb_le]. done.
  - intros bs H. simpl. by rewrite H.
Qed.
