(* ===== verification/LuaStream.v ===== *)
(** The three streams a test reads from Lua: a tailed file or the output of a
    process ([TailUd], [src/provium-host/src/lua/result_ud.rs]), the console
    ([ConsoleStreamUd], [lua/console_stream_ud.rs]) and a packet capture
    ([CaptureUd], [lua/capture_ud.rs]). *)
From Stdlib Require Import SpecFloat.
From S2P Require Import Prelude Text Numbers Lua.

Open Scope string_scope.
Open Scope list_scope.
Open Scope Z_scope.

(** * The world a stream reads from *)

(** What ends a read; nothing within the timeout is [None]. *)
Inductive event := Data (bs : bytes) | AtEnd | Reset (e : string) | Broken (e : string).

Inductive ready := Ready | Idle | PollFailed (e : string).

(** The clock of the host and the other end of one stream. [read] with a
    timeout in nanoseconds, or without one; it is [None] when it never
    returns. [poll] takes milliseconds. *)
Class Source (σ : Type) := {
  now : σ -> σ * Z;
  read : option Z -> σ -> option (σ * option event);
  poll : Z -> σ -> σ * ready;
  is_eof : σ -> bool;
}.

Definition arrived (e : option event) : bytes := match e with Some (Data bs) => bs | _ => [] end.

(** What every source keeps to: [at_least] bounds the clock from below, [due]
    is what will still arrive and [pieces] in how many parts. *)
Class SourceLaws (σ : Type) `{Source σ} := {
  at_least : σ -> Z;
  due : σ -> bytes;
  pieces : σ -> nat;
  now_law s s' t : now s = (s', t) ->
    at_least s <= t <= at_least s' /\ due s' = due s /\ pieces s' = pieces s;
  read_law tmo s s' e : read tmo s = Some (s', e) ->
    at_least s <= at_least s' /\ due s = arrived e ++ due s' /\
    match e with
    | Some _ => (pieces s' < pieces s)%nat
    | None => pieces s' = pieces s /\ exists d, tmo = Some d /\ at_least s + d <= at_least s'
    end;
  read_returns d s : 0 < d -> read (Some d) s <> None;
  poll_law ms s s' r : poll ms s = (s', r) ->
    at_least s <= at_least s' /\ due s' = due s /\ pieces s' = pieces s;
  poll_ready ms s s' : poll ms s = (s', Ready) -> read None s' <> None;
}.

(** ** Pieces that arrive on a schedule *)

(** Each piece with the time until it comes; after the last one, silence. *)
Record arrivals := Arrivals { clock : Z; coming : list (N * event) }.

Definition wait (d : Z) (a : arrivals) : arrivals :=
  Arrivals (clock a + d) match coming a with (w, e) :: rest => (Z.to_N (Z.of_N w - d), e) :: rest | [] => [] end.

Definition arrive (a : arrivals) : option (arrivals * option event) :=
  match coming a with
  | (w, e) :: rest => Some (Arrivals (clock a + Z.of_N w) rest, Some e)
  | [] => None
  end.

Definition within (d : Z) (a : arrivals) : bool :=
  match coming a with (w, _) :: _ => Z.of_N w <=? d | [] => false end.

#[export] Instance arrivals_source : Source arrivals := {
  now a := (a, clock a);
  read tmo a :=
    match tmo with
    | None => arrive a
    | Some d => if within (Z.max 0 d) a then arrive a else Some (wait (Z.max 0 d) a, None)
    end;
  poll ms a :=
    let d := Z.max 0 ms * 1000000 in
    if within d a then
      (match coming a with (w, e) :: rest => Arrivals (clock a + Z.of_N w) ((0%N, e) :: rest) | [] => a end, Ready)
    else (wait d a, Idle);
  is_eof a := match coming a with [] => true | _ => false end;
}.

Definition coming_bytes (l : list (N * event)) : bytes := mjoin ((fun p => arrived (Some p.2)) <$> l).

Lemma arrive_law a a' e : arrive a = Some (a', e) ->
  clock a <= clock a' /\ coming_bytes (coming a) = arrived e ++ coming_bytes (coming a') /\ (length (coming a') < length (coming a))%nat /\ e <> None.
Proof. unfold arrive. destruct a as [c [|[w x] rest]]; [done|]. intros [= <- <-]. simpl. split_and!; [lia|done|lia|done]. Qed.

Lemma wait_law d a : coming_bytes (coming (wait d a)) = coming_bytes (coming a) /\ length (coming (wait d a)) = length (coming a).
Proof. by destruct a as [c [|[w x] rest]]. Qed.

#[export] Instance arrivals_laws : SourceLaws arrivals.
Proof.
  refine {| at_least := clock; due a := coming_bytes (coming a); pieces a := length (coming a) |}.
  - by intros s s' t [= <- <-].
  - intros tmo s s' e. simpl. destruct tmo as [d|].
    + destruct (within _ s).
      * intros (Hc & Hd & Hl & He)%arrive_law. destruct e; [done|]. done.
      * intros [= <- <-]. destruct (wait_law (Z.max 0 d) s) as [-> ->]. split_and!; [destruct s; simpl; lia|done|done|].
        exists d. split; [done|]. destruct s; simpl; lia.
    + intros (Hc & Hd & Hl & He)%arrive_law. by destruct e.
  - intros d s Hd. simpl. unfold within, arrive. destruct (coming s) as [|[w e] rest]; [done|]. by destruct (_ <=? _).
  - intros ms s s' r. simpl. unfold within. destruct s as [c [|[w e] rest]]; simpl.
    + intros [= <- <-]. simpl. split_and!; [lia|done|done].
    + destruct (_ <=? _); intros [= <- <-]; simpl; split_and!; (lia || done).
  - intros ms s s'. simpl. unfold within. destruct s as [c [|[w e] rest]]; simpl; [done|].
    destruct (_ <=? _); [|done]. by intros [= <-].
Defined.

(** * Calls *)

(** A call works on the stream's own record, behind its mutex, and on the
    world. *)
Definition act (R A : Type) : Type := R -> R * ends A.

Section act.
Context {R : Type}.
#[export] Instance act_ret : MRet (act R) := fun A a s => (s, Gives a).
#[export] Instance act_bind : MBind (act R) := fun A B f m s =>
  match m s with
  | (s', Gives a) => f a s'
  | (s', Raises e) => (s', Raises e)
  | (s', Panics p) => (s', Panics p)
  | (s', Hangs) => (s', Hangs)
  | (s', Starved) => (s', Starved)
  end.

Definition raise {A} (e : lua_error) : act R A := fun s => (s, Raises e).
Definition panic {A} (p : string) : act R A := fun s => (s, Panics p).
Definition starve {A} : act R A := fun s => (s, Starved).
Definition gets {A} (f : R -> A) : act R A := fun s => (s, Gives (f s)).
Definition modify (f : R -> R) : act R () := fun s => (f s, Gives ()).
Definition checked {A} (r : result A lua_error) : act R A := match r with Ok a => mret a | Err e => raise e end.
Definition unwrapped {A} (r : result A string) : act R A := match r with Ok a => mret a | Err p => panic p end.
Definition tried {A} (m : act R A) : act R (result A lua_error) := fun s =>
  match m s with
  | (s', Gives a) => (s', Gives (Ok a))
  | (s', Raises e) => (s', Gives (Err e))
  | (s', Panics p) => (s', Panics p)
  | (s', Hangs) => (s', Hangs)
  | (s', Starved) => (s', Starved)
  end.
End act.

(** The clock, for a record with a world. *)
Definition tick {I σ} `{Source σ} : act (I * σ) Z := fun s => let (w, t) := now s.2 in ((s.1, w), Gives t).

Definition inner {I σ} : act (I * σ) I := gets fst.
Definition update {I σ} (f : I -> I) : act (I * σ) () := modify (fun s => (f s.1, s.2)).

(** [Instant::now() + Duration::from_secs_f64(parse_duration(timeout, default)?)] *)
Definition deadline_of {I σ} `{Source σ} (timeout : option value) (default : spec_float) : act (I * σ) Z :=
  secs ← checked (parse_duration timeout default);
  d ← unwrapped (from_secs_f64 secs);
  t ← tick;
  unwrapped (instant_add t d).

(** ** Searching *)

Definition slice_at (i : nat) (needle hay : bytes) : bytes := take (length needle) (drop i hay).

(** [haystack_find]. *)
Definition haystack_find (hay needle : bytes) : option nat :=
  match needle with
  | [] => Some O
  | _ =>
      if bool_decide (length hay < length needle)%nat then None
      else snd <$> list_find (fun i => slice_at i needle hay = needle) (seq 0 (length hay - length needle + 1))
  end.

(** [hay.windows(needle.len()).position(|w| w == needle)]: no window is empty. *)
Definition empty_window : string := "window size must be non-zero".
Definition windows_position (hay needle : bytes) : result (option nat) string :=
  match needle with
  | [] => Err empty_window
  | _ => Ok (snd <$> list_find (fun i => slice_at i needle hay = needle) (seq 0 (length hay + 1 - length needle)))
  end.

Lemma slice_prefixed i needle hay : slice_at i needle hay = needle <-> prefixed needle (drop i hay) = true.
Proof.
  unfold slice_at. rewrite prefixed_spec. split.
  - intros H. exists (drop (length needle) (drop i hay)). rewrite <- H at 1. by rewrite take_drop.
  - intros [rest ->]. by rewrite take_app_length.
Qed.

(** The first place of a list of numbered places is the first that matches. *)
Lemma first_of_seq (P : nat -> Prop) `{!forall i, Decision (P i)} a n i :
  snd <$> list_find P (seq a n) = Some i <-> (a <= i < a + n)%nat /\ P i /\ forall j, (a <= j < i)%nat -> ~ P j.
Proof.
  rewrite fmap_Some. split.
  - intros ([k x] & Hf & ->). apply list_find_Some in Hf as (Hk & HP & Hno). apply lookup_seq in Hk as [-> Hk]. simpl.
    split_and!; [lia|lia|done|]. intros j Hj. apply (Hno (j - a)%nat j); [apply lookup_seq; lia|lia].
  - intros (Hi & HP & Hno). exists ((i - a)%nat, i). split; [|done]. apply list_find_Some. split_and!; [apply lookup_seq; lia|done|].
    intros j x Hj Hlt. apply lookup_seq in Hj as [-> Hj]. apply Hno. lia.
Qed.

Lemma place_in_bounds needle hay i : prefixed needle (drop i hay) = true -> needle <> [] -> (i + length needle <= length hay)%nat.
Proof.
  rewrite prefixed_spec. intros [rest H] Hne. apply (f_equal length) in H. rewrite length_drop, length_app in H.
  destruct needle; [done|]. simpl in *. lia.
Qed.

Lemma first_place needle hay n : needle <> [] -> (forall i, prefixed needle (drop i hay) = true -> (i < n)%nat) ->
  snd <$> list_find (fun i => slice_at i needle hay = needle) (seq 0 n) = find_bytes needle hay.
Proof.
  intros Hne Hn. destruct (find_bytes needle hay) as [i|] eqn:E.
  - apply find_bytes_Some in E as (Hp & _ & Hno). apply first_of_seq. split_and!; [lia|by apply Hn|by apply slice_prefixed|].
    intros j Hj Hs. apply slice_prefixed in Hs. rewrite Hno in Hs; [done|lia].
  - destruct (snd <$> _) as [i|] eqn:F; [|done]. apply first_of_seq in F as (_ & Hs & _).
    apply slice_prefixed in Hs. by rewrite (find_bytes_None _ _ i E) in Hs.
Qed.

(** The two searches of the code find the first occurrence. *)
Lemma haystack_find_spec hay needle : haystack_find hay needle = find_bytes needle hay.
Proof.
  unfold haystack_find. destruct needle as [|b needle]; [by destruct hay|]. set (p := b :: needle).
  case_bool_decide as Hl.
  - destruct (find_bytes p hay) as [i|] eqn:E; [|done]. apply find_bytes_Some in E as (Hp & _ & _).
    apply place_in_bounds in Hp; [lia|done].
  - apply first_place; [done|]. intros i Hp%place_in_bounds; [lia|done].
Qed.

Lemma windows_position_spec hay needle : needle <> [] -> windows_position hay needle = Ok (find_bytes needle hay).
Proof.
  unfold windows_position. intros Hne. destruct needle as [|b needle]; [done|]. f_equal.
  apply first_place; [done|]. intros i Hp%place_in_bounds; [lia|done].
Qed.

(** * A tailed stream ([TailUd]) *)

Section tail.
Context {σ : Type} `{Source σ}.

(** [TailInner] with the read timeout the session's socket has now; [poisoned]
    is the mark a panic leaves on the mutex. *)
Record tail := Tail { t_session : bool; t_timeout : option Z; t_pending : bytes; t_poisoned : bool }.

Definition tail_new (timeout : option Z) : tail := Tail true timeout [] false.

Definition t_set_pending (bs : bytes) (i : tail) : tail := Tail (t_session i) (t_timeout i) bs (t_poisoned i).
Definition t_set_timeout (t : option Z) (i : tail) : tail := Tail (t_session i) t (t_pending i) (t_poisoned i).
Definition t_poison (i : tail) : tail := Tail (t_session i) (t_timeout i) (t_pending i) true.

Definition tail_st : Type := tail * σ.

Definition tail_lock : act tail_st () := i ← inner; if t_poisoned i then raise Poisoned else mret ().

(** [session.set_read_timeout]: a zero timeout is refused, and the refusal is
    dropped. *)
Definition set_read_timeout (t : option Z) : act tail_st () :=
  match t with Some 0 => mret () | _ => update (t_set_timeout t) end.

(** [session.next_frame]. *)
Definition next_frame : act tail_st (option event) := fun s =>
  match read (t_timeout s.1) s.2 with
  | Some (w, e) => ((s.1, w), Gives e)
  | None => (s, Hangs)
  end.

(** The bytes held back by an earlier match. *)
Definition tail_take : act tail_st bytes :=
  tail_lock;; i ← inner; update (t_set_pending []);; mret (t_pending i).

Definition tail_keep (bs : bytes) : act tail_st () :=
  match bs with [] => mret () | _ => update (t_set_pending bs) end.

Definition tail_next (timeout : option value) : act tail_st (option bytes) :=
  tail_lock;;
  i ← inner;
  if decide (t_pending i = []) then
    if t_session i then
      match timeout with
      | Some v =>
          secs ← checked (parse_duration (Some v) (f64_of_Z 10));
          match from_secs_f64 secs with
          | Ok d => set_read_timeout (Some d)
          | Err p => update t_poison;; panic p
          end
      | None => mret ()
      end;;
      e ← next_frame;
      (if timeout is Some _ then set_read_timeout None else mret ());;
      match e with
      | Some (Data bs) => mret (Some bs)
      | Some AtEnd | None => mret None
      | Some (Reset e) | Some (Broken e) => raise (Host e)
      end
    else mret None
  else update (t_set_pending []);; mret (Some (t_pending i)).

Definition tail_close : act tail_st () :=
  tail_lock;; update (fun i => Tail false (t_timeout i) [] (t_poisoned i)).

Definition tail_eof : act tail_st bool :=
  tail_lock;; i ← inner;
  if decide (t_pending i = []) then if t_session i then gets (fun s => is_eof s.2) else mret true
  else mret false.

(** The loop of [read_until] and [expect], with what it has read so far. *)
Fixpoint tail_seek (fuel : nat) (call : string) (pattern : bytes) (deadline : Z) (acc : bytes) : act tail_st bytes :=
  match fuel with
  | O => starve
  | S fuel =>
      tail_lock;;
      i ← inner;
      if negb (t_session i) then raise StreamClosed else
      t ← tick;
      let remaining := Z.max 0 (deadline - t) in
      if remaining =? 0 then raise (TimedOut call pattern) else
      set_read_timeout (Some remaining);;
      e ← next_frame;
      match e with
      | Some AtEnd => raise StreamEof
      | Some (Reset e) | Some (Broken e) => raise (Host e)
      | _ =>
          let acc := acc ++ arrived e in
          match haystack_find acc pattern with
          | Some idx =>
              let consume := (idx + length pattern)%nat in
              tail_keep (drop consume acc);;
              set_read_timeout None;;
              mret (take consume acc)
          | None =>
              t ← tick;
              if deadline <=? t then set_read_timeout None;; raise (TimedOut call pattern)
              else tail_seek fuel call pattern deadline acc
          end
      end
  end.

Definition tail_find (fuel : nat) (call : string) (pattern : bytes) (timeout : option value) : act tail_st bytes :=
  deadline ← deadline_of timeout (f64_of_Z 10);
  acc ← tail_take;
  match haystack_find acc pattern with
  | Some idx =>
      let consume := (idx + length pattern)%nat in
      tail_keep (drop consume acc);;
      mret (take consume acc)
  | None => tail_seek fuel call pattern deadline acc
  end.

Definition tail_read_until (fuel : nat) (pattern : bytes) (timeout : option value) : act tail_st bytes :=
  tail_find fuel "read_until" pattern timeout.

Definition tail_expect (fuel : nat) (pattern : bytes) (timeout : option value) : act tail_st () :=
  tail_find fuel "expect" pattern timeout;; mret ().

Fixpoint tail_drain_loop (fuel : nat) (deadline : Z) (table : list bytes) : act tail_st (list bytes) :=
  match fuel with
  | O => starve
  | S fuel =>
      t ← tick;
      if deadline <? t then mret table else
      tail_lock;;
      i ← inner;
      if negb (t_session i) then mret table else
      set_read_timeout (Some (deadline - t));;
      e ← next_frame;
      set_read_timeout None;;
      match e with
      | Some (Data bs) => tail_drain_loop fuel deadline (table ++ [bs])
      | Some AtEnd | None => mret table
      | Some (Reset e) | Some (Broken e) => raise (Host e)
      end
  end.

Definition tail_drain (fuel : nat) (timeout : option value) : act tail_st (list bytes) :=
  deadline ← deadline_of timeout (f64_of_ratio false 1 2);
  bs ← tail_take;
  tail_drain_loop fuel deadline (match bs with [] => [] | _ => [bs] end).
End tail.

Arguments tail_st σ : clear implicits.

(** * The console ([ConsoleStreamUd]) *)

(** [lock().unwrap()]. *)
Definition poison_error : string := "called `Result::unwrap()` on an `Err` value: PoisonError { .. }".

Definition f64_max (a b : spec_float) : spec_float := if f64_lt a b then b else a.
Definition one_ms : spec_float := f64_of_ratio false 1 1000.
Definition fifty_ms : Z := 50000000.

Section console.
Context {σ : Type} `{Source σ}.

Record console := Console { c_sock : bool; c_timeout : Z; c_eof : bool; c_pending : bytes; c_poisoned : bool }.

Definition console_new : console := Console true fifty_ms false [] false.

Definition c_set_pending (bs : bytes) (i : console) : console := Console (c_sock i) (c_timeout i) (c_eof i) bs (c_poisoned i).
Definition c_set_timeout (t : Z) (i : console) : console := Console (c_sock i) t (c_eof i) (c_pending i) (c_poisoned i).
Definition c_set_eof (i : console) : console := Console (c_sock i) (c_timeout i) true (c_pending i) (c_poisoned i).
Definition c_poison (i : console) : console := Console (c_sock i) (c_timeout i) (c_eof i) (c_pending i) true.

Definition console_st : Type := console * σ.

Definition console_lock : act console_st () := i ← inner; if c_poisoned i then panic poison_error else mret ().

Definition console_timeout (t : Z) : act console_st () := if t =? 0 then mret () else update (c_set_timeout t).

Definition sock_read : act console_st (option event) := fun s =>
  match read (Some (c_timeout s.1)) s.2 with
  | Some (w, e) => ((s.1, w), Gives e)
  | None => (s, Hangs)
  end.

Definition console_next (timeout : option value) : act console_st (option bytes) :=
  console_lock;;
  i ← inner;
  if decide (c_pending i = []) then
    if c_eof i then mret None else
    if negb (c_sock i) then update c_set_eof;; mret None else
    match timeout with
    | Some v =>
        secs ← checked (parse_duration (Some v) (f64_of_Z 10));
        match from_secs_f64 (f64_max secs one_ms) with
        | Ok d => console_timeout d
        | Err p => update c_poison;; panic p
        end
    | None => mret ()
    end;;
    e ← sock_read;
    console_timeout fifty_ms;;
    match e with
    | Some (Data bs) => mret (Some bs)
    | Some AtEnd => update c_set_eof;; mret None
    | None => mret None
    | Some (Reset e) | Some (Broken e) => raise (Host e)
    end
  else update (c_set_pending []);; mret (Some (c_pending i)).

Definition console_eof : act console_st bool :=
  console_lock;; i ← inner; if decide (c_pending i = []) then mret (c_eof i) else mret false.

Definition console_close : act console_st () :=
  console_lock;; update (fun i => Console false (c_timeout i) true [] (c_poisoned i)).

(** [read_until_inner] and [expect_inner]: the search runs over the buffer
    itself, and a panic in it leaves the mutex poisoned. *)
Fixpoint console_seek (fuel : nat) (call : string) (needle : bytes) (deadline : Z) : act console_st bytes :=
  match fuel with
  | O => starve
  | S fuel =>
      console_lock;;
      i ← inner;
      match windows_position (c_pending i) needle with
      | Err p => update c_poison;; panic p
      | Ok (Some idx) =>
          let split_at := (idx + length needle)%nat in
          update (c_set_pending (drop split_at (c_pending i)));;
          mret (take split_at (c_pending i))
      | Ok None =>
          t ← tick;
          if deadline <=? t then raise (TimedOut call needle) else
          if negb (c_sock i) then raise StreamClosed else
          e ← sock_read;
          match e with
          | Some AtEnd | Some (Reset _) => update c_set_eof;; raise StreamEof
          | Some (Data bs) => update (c_set_pending (c_pending i ++ bs));; console_seek fuel call needle deadline
          | None => console_seek fuel call needle deadline
          | Some (Broken e) => raise (Host e)
          end
      end
  end.

Definition console_read_until (fuel : nat) (needle : bytes) (timeout : option value) : act console_st bytes :=
  deadline ← deadline_of timeout (f64_of_Z 10);
  console_seek fuel "console:read_until" needle deadline.

Definition console_expect (fuel : nat) (needle : bytes) (timeout : option value) : act console_st () :=
  deadline ← deadline_of timeout (f64_of_Z 10);
  console_seek fuel "console:expect" needle deadline;; mret ().

(** The loop of [drain]; the flag is [hit_eof]. *)
Fixpoint console_drain_loop (fuel : nat) (deadline : Z) (table : list bytes) : act console_st (list bytes * bool) :=
  match fuel with
  | O => starve
  | S fuel =>
      t ← tick;
      if deadline <? t then mret (table, false) else
      console_timeout (deadline - t);;
      e ← sock_read;
      match e with
      | Some (Data bs) => console_drain_loop fuel deadline (table ++ [bs])
      | Some AtEnd => mret (table, true)
      | None | Some (Reset _) | Some (Broken _) => mret (table, false)
      end
  end.

Definition console_drain (fuel : nat) (timeout : option value) : act console_st (list bytes) :=
  secs ← checked (parse_duration timeout (f64_of_ratio false 1 2));
  d ← unwrapped (from_secs_f64 (f64_max secs one_ms));
  t ← tick;
  deadline ← unwrapped (instant_add t d);
  console_lock;;
  i ← inner;
  update (c_set_pending []);;
  let table := match c_pending i with [] => [] | bs => [bs] end in
  if c_sock i then
    r ← console_drain_loop fuel deadline table;
    console_timeout fifty_ms;;
    (if (r.2 : bool) then update c_set_eof else mret ());;
    mret r.1
  else mret table.
End console.

Arguments console_st σ : clear implicits.

(** * A packet capture ([CaptureUd]) *)

(** Milliseconds for [poll]: rounded up from seconds, or down from nanoseconds,
    and kept in the width of the system call. *)
Definition i32_max : Z := 2147483647.
Definition poll_seconds (secs : spec_float) : Z := Z.min i32_max (f64_ceil_as_u64 (f64_mul secs (f64_of_Z 1000))).
Definition poll_remaining (ns : Z) : Z := Z.min i32_max (ns / 1000000).

Section capture.
Context {σ : Type} `{Source σ}.

(** [CaptureInner]; [k_child] is that [tcpdump] was not yet killed and waited
    for. *)
Record capture := Capture { k_child : bool; k_stdout : bool; k_eof : bool; k_pending : bytes; k_poisoned : bool }.

Definition capture_new : capture := Capture true true false [] false.

Definition k_set_pending (bs : bytes) (i : capture) : capture := Capture (k_child i) (k_stdout i) (k_eof i) bs (k_poisoned i).
Definition k_set_eof (i : capture) : capture := Capture (k_child i) (k_stdout i) true (k_pending i) (k_poisoned i).

Definition capture_st : Type := capture * σ.

Definition capture_lock : act capture_st () := i ← inner; if k_poisoned i then panic poison_error else mret ().

Definition poll_for (ms : Z) : act capture_st ready := fun s => let (w, r) := poll ms s.2 in ((s.1, w), Gives r).

(** A read of the pipe; it blocks, and has no timeout to run into. *)
Definition pipe_read : act capture_st event := fun s =>
  match read None s.2 with
  | Some (w, Some e) => ((s.1, w), Gives e)
  | Some (w, None) => ((s.1, w), Raises (Host "would block"))
  | None => (s, Hangs)
  end.

Definition capture_next (timeout : option value) : act capture_st (option bytes) :=
  secs ← checked (parse_duration timeout (f64_of_Z 10));
  capture_lock;;
  i ← inner;
  if decide (k_pending i = []) then
    if k_eof i then mret None else
    if negb (k_stdout i) then update k_set_eof;; mret None else
    r ← poll_for (poll_seconds secs);
    match r with
    | Idle => mret None
    | PollFailed e => raise (Host e)
    | Ready =>
        e ← pipe_read;
        match e with
        | AtEnd => update k_set_eof;; mret None
        | Data bs => mret (Some bs)
        | Reset e | Broken e => raise (Host e)
        end
    end
  else update (k_set_pending []);; mret (Some (k_pending i)).

Definition capture_eof : act capture_st bool :=
  capture_lock;; i ← inner; if decide (k_pending i = []) then mret (k_eof i) else mret false.

Definition capture_close : act capture_st () :=
  capture_lock;; update (fun i => Capture false false true [] (k_poisoned i)).

Definition capture_keep (bs : bytes) : act capture_st () :=
  match bs with [] => mret () | _ => capture_lock;; update (k_set_pending bs) end.

Definition capture_take : act capture_st bytes :=
  capture_lock;; i ← inner; update (k_set_pending []);; mret (k_pending i).

(** The loop of [read_until] and, with [again], of [expect], which looks at the
    clock once more at the end of a round. *)
Fixpoint capture_seek (fuel : nat) (again : bool) (call : string) (needle : bytes) (deadline : Z) (acc : bytes)
    : act capture_st bytes :=
  match fuel with
  | O => starve
  | S fuel =>
      t ← tick;
      if deadline <? t then raise (TimedOut call needle) else
      r ← poll_for (poll_remaining (deadline - t));
      match r with
      | Idle | PollFailed _ => raise (TimedOut call needle)
      | Ready =>
          capture_lock;;
          i ← inner;
          if negb (k_stdout i) then raise StreamClosed else
          e ← pipe_read;
          match e with
          | AtEnd => update k_set_eof;; raise StreamEof
          | Reset e | Broken e => raise (Host e)
          | Data bs =>
              let acc := acc ++ bs in
              found ← unwrapped (windows_position acc needle);
              match found with
              | Some idx =>
                  let consume := (idx + length needle)%nat in
                  capture_keep (drop consume acc);;
                  mret (take consume acc)
              | None =>
                  if again then
                    t ← tick;
                    if deadline <=? t then raise (TimedOut call needle)
                    else capture_seek fuel again call needle deadline acc
                  else capture_seek fuel again call needle deadline acc
              end
          end
      end
  end.

Definition capture_find (fuel : nat) (again : bool) (call : string) (needle : bytes) (timeout : option value) : act capture_st bytes :=
  deadline ← deadline_of timeout (f64_of_Z 10);
  acc ← capture_take;
  found ← unwrapped (windows_position acc needle);
  match found with
  | Some idx =>
      let consume := (idx + length needle)%nat in
      capture_keep (drop consume acc);;
      mret (take consume acc)
  | None =>
      capture_lock;;
      i ← inner;
      if k_stdout i then capture_seek fuel again call needle deadline acc else raise StreamClosed
  end.

Definition capture_read_until (fuel : nat) (needle : bytes) (timeout : option value) : act capture_st bytes :=
  capture_find fuel false "capture:read_until" needle timeout.

Definition capture_expect (fuel : nat) (needle : bytes) (timeout : option value) : act capture_st () :=
  capture_find fuel true "capture:expect" needle timeout;; mret ().

Fixpoint capture_drain_loop (fuel : nat) (deadline : Z) (acc : list bytes) : act capture_st (list bytes) :=
  match fuel with
  | O => starve
  | S fuel =>
      t ← tick;
      if deadline <? t then mret acc else
      r ← poll_for (poll_remaining (deadline - t));
      match r with
      | Idle | PollFailed _ => mret acc
      | Ready =>
          e ← tried pipe_read;
          match e with
          | Ok (Data bs) => capture_drain_loop fuel deadline (acc ++ [bs])
          | Ok AtEnd => update k_set_eof;; mret acc
          | Ok (Reset _) | Ok (Broken _) | Err _ => mret acc
          end
      end
  end.

Definition capture_drain (fuel : nat) (timeout : option value) : act capture_st (list bytes) :=
  secs ← checked (parse_duration timeout (f64_of_ratio false 1 2));
  d ← unwrapped (from_secs_f64 (f64_max secs one_ms));
  t ← tick;
  deadline ← unwrapped (instant_add t d);
  capture_lock;;
  i ← inner;
  update (k_set_pending []);;
  let acc := match k_pending i with [] => [] | bs => [bs] end in
  if k_eof i then mret acc
  else if k_stdout i then capture_drain_loop fuel deadline acc else mret acc.
End capture.

Arguments capture_st σ : clear implicits.

(** * The console's log ([ConsoleUd::expect]) *)

Definition contains (pattern view : bytes) : bool := if find_bytes pattern view is Some _ then true else false.

(** Each turn reads the whole log, searches what is new in it and looks at the
    clock: [turns] is what the reads give and the instants after them. The
    result is [None] when the turns run out. *)
Fixpoint log_expect (pattern : bytes) (deadline : Z) (last_len : nat) (turns : list (result bytes string * Z)) : option (ends bytes) :=
  match turns with
  | [] => None
  | (Err e, _) :: _ => Some (Raises (Host e))
  | (Ok bs, t) :: turns =>
      let fresh := if bool_decide (last_len <= length bs)%nat then Some (from_utf8_lossy (drop last_len bs)) else None in
      if (if fresh is Some view then contains pattern view else false) then Some (Gives pattern)
      else if deadline <=? t then Some (Raises (TimedOut "console:expect" pattern))
      else log_expect pattern deadline (if fresh is Some _ then length bs else last_len) turns
  end.

(** A log that grows by one piece before each turn. *)
Fixpoint growing (log : bytes) (pieces : list (bytes * Z)) : list (result bytes string * Z) :=
  match pieces with [] => [] | (p, t) :: pieces => (Ok (log ++ p), t) :: growing (log ++ p) pieces end.

(** The search of each piece by itself. *)
Fixpoint piecewise (pattern : bytes) (deadline : Z) (pieces : list (bytes * Z)) : option (ends bytes) :=
  match pieces with
  | [] => None
  | (p, t) :: pieces =>
      if contains pattern (from_utf8_lossy p) then Some (Gives pattern)
      else if deadline <=? t then Some (Raises (TimedOut "console:expect" pattern))
      else piecewise pattern deadline pieces
  end.

Lemma log_expect_grows pattern deadline pieces log :
  log_expect pattern deadline (length log) (growing log pieces) = piecewise pattern deadline pieces.
Proof.
  revert log. induction pieces as [|[p t] pieces IH]; intros log; [done|]. cbn [growing log_expect piecewise].
  rewrite bool_decide_true by (rewrite length_app; lia). rewrite drop_app_length.
  destruct (contains _ _); [done|]. destruct (_ <=? _); [done|]. apply IH.
Qed.

(** [vm:console():expect] searches a log that only grows piece by piece:
    its answer is that of looking at what each turn adds, and at nothing else,
    so a pattern whose bytes come in two turns is never found. *)
Lemma log_searched_in_pieces pattern deadline pieces :
  log_expect pattern deadline 0 (growing [] pieces) = piecewise pattern deadline pieces.
Proof. apply (log_expect_grows pattern deadline pieces []). Qed.

Example log_misses_across :
  let turns := growing [] [(bytes_of "login re", 1); (bytes_of "ady", 2); ([], 99)] in
  log_expect (bytes_of "ready") 50 0 turns = Some (Raises (TimedOut "console:expect" (bytes_of "ready"))) /\
  contains (bytes_of "ready") (bytes_of "login ready") = true.
Proof. vm_compute. done. Qed.
