(* ===== verification/LuaReader.v ===== *)
(** The three streams of [LuaStream] keep one contract: what a call gives is
    cut from the front of the bytes that were not delivered yet. *)
From Stdlib Require Import SpecFloat.
From S2P Require Import Prelude Text Numbers Lua LuaStream.

Open Scope string_scope.
Open Scope list_scope.
Open Scope Z_scope.

(** * Reasoning about calls *)

(** What holds of the end of a call and of the state it leaves. *)
Definition wp {R A} (m : act R A) (Q : ends A -> R -> Prop) (s : R) : Prop := Q (m s).2 (m s).1.

(** What a call that ends so owes to [Q], when [f] is what follows. *)
Definition after {R A B} (f : A -> act R B) (Q : ends B -> R -> Prop) (e : ends A) (s : R) : Prop :=
  match e with
  | Gives a => wp (f a) Q s
  | Raises x => Q (Raises x) s
  | Panics p => Q (Panics p) s
  | Hangs => Q Hangs s
  | Starved => Q Starved s
  end.

Section wp.
Context {R : Type}.

Lemma wp_ret {A} (a : A) Q (s : R) : Q (Gives a) s -> wp (mret a) Q s.
Proof. done. Qed.

Lemma wp_bind {A B} (m : act R A) (f : A -> act R B) Q s : wp m (after f Q) s -> wp (m ≫= f) Q s.
Proof. unfold wp, after, mbind, act_bind. destruct (m s) as [s' []]; simpl; done. Qed.

Lemma wp_raise {A} x (Q : ends A -> R -> Prop) s : Q (Raises x) s -> wp (raise x) Q s.
Proof. done. Qed.

Lemma wp_panic {A} p (Q : ends A -> R -> Prop) s : Q (Panics p) s -> wp (panic p) Q s.
Proof. done. Qed.

Lemma wp_gets {A} (f : R -> A) Q s : Q (Gives (f s)) s -> wp (gets f) Q s.
Proof. done. Qed.

Lemma wp_modify (f : R -> R) Q s : Q (Gives ()) (f s) -> wp (modify f) Q s.
Proof. done. Qed.

Lemma wp_checked {A} (r : result A lua_error) Q (s : R) :
  (forall a, r = Ok a -> Q (Gives a) s) -> (forall x, r = Err x -> Q (Raises x) s) -> wp (checked r) Q s.
Proof. intros H1 H2. destruct r; [by apply H1|by apply H2]. Qed.

Lemma wp_unwrapped {A} (r : result A string) Q (s : R) :
  (forall a, r = Ok a -> Q (Gives a) s) -> (forall p, r = Err p -> Q (Panics p) s) -> wp (unwrapped r) Q s.
Proof. intros H1 H2. destruct r; [by apply H1|by apply H2]. Qed.

Lemma wp_mono {A} (m : act R A) (P Q : ends A -> R -> Prop) s : wp m P s -> (forall e s', P e s' -> Q e s') -> wp m Q s.
Proof. unfold wp. auto. Qed.

Lemma wp_gives {A} (m : act R A) Q s s' e : wp m Q s -> m s = (s', e) -> Q e s'.
Proof. unfold wp. intros H E. by rewrite E in H. Qed.
End wp.

(** Only about a call that returns. *)
Definition given {R A} (Q : A -> R -> Prop) (e : ends A) (s : R) : Prop := match e with Gives a => Q a s | _ => True end.

Lemma given_out {R A} (Q : A -> R -> Prop) (m : act R A) s s' a : wp m (given Q) s -> m s = (s', Gives a) -> Q a s'.
Proof. intros H E. exact (wp_gives _ _ _ _ _ H E). Qed.

Section world.
Context {I σ : Type} `{SourceLaws σ}.

Lemma wp_tick (Q : ends Z -> I * σ -> Prop) i w :
  (forall w' t, at_least w <= t <= at_least w' -> due w' = due w -> pieces w' = pieces w -> Q (Gives t) (i, w')) ->
  wp tick Q (i, w).
Proof. intros HQ. unfold wp, tick; simpl. destruct (now w) as [w' t] eqn:E. apply now_law in E as (? & ? & ?). by apply HQ. Qed.

(** The start of a timed call: the clock is read, nothing else happens. *)
Lemma wp_deadline timeout default (Q : ends Z -> I * σ -> Prop) i w :
  (forall w' d, due w' = due w -> pieces w' = pieces w -> Q (Gives d) (i, w')) ->
  (forall x, Q (Raises x) (i, w)) ->
  (forall p w', due w' = due w -> pieces w' = pieces w -> Q (Panics p) (i, w')) ->
  wp (deadline_of timeout default) Q (i, w).
Proof.
  intros HG HR HP. unfold deadline_of. apply wp_bind, wp_checked; [|intros x _; apply HR]. intros secs _; cbn [after].
  apply wp_bind, wp_unwrapped; [|intros p _; by apply HP]. intros d _; cbn [after]. apply wp_bind, wp_tick. intros w' t _ Hd Hl; cbn [after].
  apply wp_unwrapped; auto.
Qed.
End world.

(** * Cutting *)

(** The shortest front of [u] that ends in [p], and the rest. *)
Definition cut (p u : bytes) : option (bytes * bytes) :=
  i ← find_bytes p u; Some (take (i + length p) u, drop (i + length p) u).

Lemma cut_app p u m r : cut p u = Some (m, r) -> u = m ++ r.
Proof. unfold cut. destruct (find_bytes p u); [|done]. intros [= <- <-]. by rewrite take_drop. Qed.

(** An occurrence inside a front is one of the whole. *)
Lemma prefixed_drop_app p acc rest j : (j + length p <= length acc)%nat ->
  prefixed p (drop j (acc ++ rest)) = prefixed p (drop j acc).
Proof.
  intros Hj. rewrite drop_app_le by lia. apply eq_true_iff_eq. rewrite !prefixed_spec. split.
  - intros [r Hr]. exists (drop (length p) (drop j acc)). apply (f_equal (take (length p))) in Hr.
    rewrite take_app_length, take_app_le in Hr by (rewrite length_drop; lia). rewrite <- Hr at 1. by rewrite take_drop.
  - intros [r ->]. exists (r ++ rest). by rewrite (assoc_L (++)).
Qed.

(** More bytes do not change where the first occurrence is. *)
Lemma find_bytes_grows p acc rest i : find_bytes p acc = Some i -> find_bytes p (acc ++ rest) = Some i.
Proof.
  intros E. destruct p as [|b p]; [destruct acc; [by destruct rest|done]|]. set (q := b :: p) in *.
  apply find_bytes_Some in E as (Hp & _ & Hno).
  assert (Hb : (i + length q <= length acc)%nat) by by apply place_in_bounds.
  assert (Hi : prefixed q (drop i (acc ++ rest)) = true) by by rewrite prefixed_drop_app.
  destruct (find_bytes q (acc ++ rest)) as [k|] eqn:E; [|by rewrite (find_bytes_None _ _ i E) in Hi].
  apply find_bytes_Some in E as (Hk & _ & Hnk). f_equal. destruct (lt_eq_lt_dec k i) as [[Hlt|]|Hgt]; [|done|].
  - rewrite prefixed_drop_app in Hk by lia. by rewrite Hno in Hk.
  - by rewrite Hnk in Hi.
Qed.

Lemma cut_grows p acc rest i : find_bytes p acc = Some i ->
  cut p (acc ++ rest) = Some (take (i + length p) acc, drop (i + length p) acc ++ rest).
Proof.
  intros E. unfold cut. rewrite (find_bytes_grows _ _ _ _ E). simpl.
  assert (Hb : (i + length p <= length acc)%nat).
  { pose proof (find_bytes_Some _ _ _ E) as (Hp & Hi & _). destruct p; [simpl; lia|]. by apply place_in_bounds. }
  by rewrite take_app_le, drop_app_le by done.
Qed.

(** * The contract *)

Class Reader (R : Type) := {
  rd_next : option value -> act R (option bytes);
  rd_read_until : nat -> bytes -> option value -> act R bytes;
  rd_expect : nat -> bytes -> option value -> act R ();
  rd_drain : nat -> option value -> act R (list bytes);
}.

Class ReaderLaws (R : Type) `{Reader R} := {
  undelivered : R -> bytes;
  next_law t s s' o : rd_next t s = (s', Gives o) -> undelivered s = default [] o ++ undelivered s';
  read_until_law n p t s s' m : rd_read_until n p t s = (s', Gives m) -> cut p (undelivered s) = Some (m, undelivered s');
  expect_law n p t s s' : rd_expect n p t s = (s', Gives ()) -> exists m, cut p (undelivered s) = Some (m, undelivered s');
  drain_law n t s s' cs : rd_drain n t s = (s', Gives cs) -> undelivered s = mjoin cs ++ undelivered s';
}.

(** Runs a call one step at a time; the cases of the world are left open. *)
Ltac wp_step :=
  lazymatch goal with
  | |- wp (_ ≫= _) _ _ => apply wp_bind
  | |- wp (mret _) _ _ => apply wp_ret
  | |- wp (raise _) _ _ => apply wp_raise
  | |- wp (panic _) _ _ => apply wp_panic
  | |- wp (gets _) _ _ => apply wp_gets
  | |- wp (modify _) _ _ => apply wp_modify
  | |- wp inner _ _ => unfold inner
  | |- wp (update _) _ _ => unfold update
  | |- wp tick _ _ => apply wp_tick; intros
  | |- wp (checked _) _ _ => apply wp_checked; intros
  | |- wp (unwrapped _) _ _ => apply wp_unwrapped; intros
  | |- wp (if ?b then _ else _) _ _ => let E := fresh "E" in destruct b eqn:E
  | |- after _ _ _ _ => cbn [after]
  end; cbn [after fst snd].
Ltac wp_run := repeat wp_step.

(** * The tailed stream *)

Section tail.
Context {σ : Type} `{SourceLaws σ}.
Implicit Types (i : tail) (w : σ).

Definition tail_undelivered (s : tail_st σ) : bytes := t_pending s.1 ++ due s.2.

Lemma wp_tail_lock (Q : ends () -> tail_st σ -> Prop) i w :
  Q (Gives ()) (i, w) -> Q (Raises Poisoned) (i, w) -> wp tail_lock Q (i, w).
Proof. intros HG HR. unfold tail_lock. by wp_run. Qed.

Lemma wp_set_timeout t (Q : ends () -> tail_st σ -> Prop) i w :
  (forall t', Q (Gives ()) (t_set_timeout t' i, w)) -> wp (set_read_timeout t) Q (i, w).
Proof.
  intros HQ. unfold set_read_timeout. destruct t as [[]|]; wp_run; [|apply HQ..].
  specialize (HQ (t_timeout i)). by destruct i.
Qed.

Lemma wp_next_frame (Q : ends (option event) -> tail_st σ -> Prop) i w :
  (forall w' e, at_least w <= at_least w' -> due w = arrived e ++ due w' ->
     match e with Some _ => (pieces w' < pieces w)%nat
     | None => pieces w' = pieces w /\ exists d, t_timeout i = Some d /\ at_least w + d <= at_least w' end ->
     Q (Gives e) (i, w')) ->
  (read (t_timeout i) w = None -> Q Hangs (i, w)) -> wp next_frame Q (i, w).
Proof.
  intros HG HH. unfold wp, next_frame; simpl. destruct (read (t_timeout i) w) as [[w' e]|] eqn:E; [|by apply HH].
  apply read_law in E as (? & ? & ?). by apply HG.
Qed.

(** How a search over [u] ends: with the first match cut off; or else what it
    had read is gone, and held no match. *)
Definition sought (p u : bytes) (e : ends bytes) (s : tail_st σ) : Prop :=
  match e with
  | Gives m => cut p u = Some (m, tail_undelivered s)
  | _ => exists lost, u = lost ++ tail_undelivered s /\ (lost = [] \/ find_bytes p lost = None /\ t_pending s.1 = [])
  end.

Lemma wp_tail_keep p acc k (Q : ends () -> tail_st σ -> Prop) i w : find_bytes p acc = Some k -> t_pending i = [] ->
  (forall i', cut p (acc ++ due w) = Some (take (k + length p) acc, tail_undelivered (i', w)) ->
     (forall t, tail_undelivered (t_set_timeout t i', w) = tail_undelivered (i', w)) -> Q (Gives ()) (i', w)) ->
  wp (tail_keep (drop (k + length p) acc)) Q (i, w).
Proof.
  intros E Hp HQ. pose proof (cut_grows _ _ (due w) _ E) as Hc. unfold tail_keep.
  destruct (drop (k + length p) acc) as [|b l] eqn:Ed; wp_run.
  all: apply HQ; [|by intros]; rewrite Hc, ?Ed; unfold tail_undelivered; simpl; by rewrite ?Hp.
Qed.

Lemma tail_seek_sought fuel call p deadline acc i w : t_pending i = [] -> find_bytes p acc = None ->
  wp (tail_seek fuel call p deadline acc) (sought p (acc ++ due w)) (i, w).
Proof.
  assert (Hmiss : forall acc i w, t_pending i = [] -> find_bytes p acc = None ->
    exists lost, acc ++ due w = lost ++ tail_undelivered (i, w) /\ (lost = [] \/ find_bytes p lost = None /\ t_pending (i, w).1 = [])).
  { intros acc' i' w' Hi Hn. exists acc'. unfold tail_undelivered; simpl. rewrite Hi. auto. }
  revert acc i w. induction fuel as [|fuel IH]; intros acc i w Hi Hn; cbn [tail_seek]; [by apply Hmiss|].
  wp_run. apply wp_tail_lock; [|by apply Hmiss]. wp_run; [by apply Hmiss| |].
  { match goal with H : due _ = due w |- _ => rewrite <- H end. by apply Hmiss. }
  apply wp_set_timeout. intros t'. wp_run. rename H2 into Hd. rewrite <- Hd.
  apply wp_next_frame; [|intros _; by apply (Hmiss acc (t_set_timeout t' i))].
  intros w2 e _ He _. cbn [after]. assert (Hend : forall x, arrived e = [] -> sought p (acc ++ due w') (Raises x) (t_set_timeout t' i, w2)).
  { intros x Ha. rewrite He, Ha. by apply Hmiss. }
  destruct e as [[bs| |x|x]|]; try (apply wp_raise, Hend; reflexivity).
  all: cbv zeta; rewrite haystack_find_spec; cbn [arrived] in *; rewrite He, (assoc_L (++)).
  all: set (acc2 := acc ++ _); destruct (find_bytes p acc2) as [k|] eqn:Ef; cbn [after].
  all: wp_run.
  all: try (apply (wp_tail_keep p acc2 k); [done..|]; intros i' Hc Hu; cbn [after]; wp_run; apply wp_set_timeout; intros t2; wp_run; simpl; by rewrite Hu).
  all: match goal with H : due ?a = due ?b |- context [due ?b] => rewrite <- H end.
  all: try (by apply IH).
  all: apply wp_set_timeout; intros t2; wp_run; by apply (Hmiss acc2).
Qed.

Lemma tail_find_sought fuel call p timeout i w :
  wp (tail_find fuel call p timeout) (sought p (tail_undelivered (i, w))) (i, w).
Proof.
  assert (Hno : forall w', due w' = due w -> exists lost, tail_undelivered (i, w) = lost ++ tail_undelivered (i, w') /\
    (lost = [] \/ find_bytes p lost = None /\ t_pending (i, w').1 = [])).
  { intros w' Hd. exists []. unfold tail_undelivered; simpl. rewrite Hd. auto. }
  unfold tail_find. apply wp_bind, wp_deadline; cbn [after]; [|intros x; by apply Hno|intros q w' Hd _; by apply Hno].
  intros w' d Hd _. apply wp_bind. unfold tail_take. wp_run. apply wp_tail_lock; [|by apply Hno]. wp_run.
  rewrite haystack_find_spec. unfold tail_undelivered; simpl. rewrite <- Hd.
  destruct (find_bytes p (t_pending i)) as [k|] eqn:E; [|by apply tail_seek_sought].
  apply wp_bind, (wp_tail_keep p (t_pending i) k); [done..|]. intros i' Hc _. by wp_run.
Qed.

Lemma tail_read_until_spec fuel p timeout s s' m :
  tail_read_until fuel p timeout s = (s', Gives m) -> cut p (tail_undelivered s) = Some (m, tail_undelivered s').
Proof. destruct s as [i w]. intros E. exact (wp_gives _ _ _ _ _ (tail_find_sought fuel "read_until" p timeout i w) E). Qed.

Lemma tail_expect_spec fuel p timeout s s' :
  tail_expect fuel p timeout s = (s', Gives ()) -> exists m, cut p (tail_undelivered s) = Some (m, tail_undelivered s').
Proof.
  destruct s as [i w]. apply (given_out (fun _ s' => exists m, cut p _ = Some (m, tail_undelivered s'))).
  unfold tail_expect. apply wp_bind. apply (wp_mono _ _ _ _ (tail_find_sought fuel "expect" p timeout i w)).
  intros [m| | | |] s2 Hc; wp_run; try done. by exists m.
Qed.

Lemma tail_next_spec timeout s s' o :
  tail_next timeout s = (s', Gives o) -> tail_undelivered s = default [] o ++ tail_undelivered s'.
Proof.
  destruct s as [i w]. apply (given_out (fun o s' => _ = default [] o ++ tail_undelivered s')).
  unfold tail_next. wp_run. apply wp_tail_lock; [|done]. wp_run; [|by unfold tail_undelivered; simpl; try congruence..].
  assert (Hread : forall i', t_pending i' = [] -> wp (e ← next_frame;
      (if timeout is Some _ then set_read_timeout None else mret ());;
      match e with
      | Some (Data bs) => mret (Some bs)
      | Some AtEnd | None => mret None
      | Some (Reset e) | Some (Broken e) => raise (Host e)
      end) (given (fun o s' => tail_undelivered (i, w) = default [] o ++ tail_undelivered s')) (i', w)).
  { intros i' Hi'. apply wp_bind, wp_next_frame; [|done]. intros w2 e0 _ He _; cbn [after]. apply wp_bind.
    assert (Hout : forall i2, t_pending i2 = [] ->
      wp (match e0 with Some (Data bs) => mret (Some bs) | Some AtEnd | None => mret None
          | Some (Reset e) | Some (Broken e) => raise (Host e) end)
        (given (fun o s' => tail_undelivered (i, w) = default [] o ++ tail_undelivered s')) (i2, w2)).
    { intros i2 H2. unfold tail_undelivered. simpl. rewrite e, He. destruct e0 as [[bs| |x|x]|]; wp_run; simpl; rewrite ?H2; done. }
    destruct timeout; [|by wp_run; apply Hout]. apply wp_set_timeout. intros t'. cbn [after]. by apply Hout. }
  destruct timeout as [v|]; [|by apply wp_ret, Hread].
  wp_run; [|done]. destruct (from_secs_f64 a); wp_run; [|done]. apply wp_set_timeout. intros t'. cbn [after]. by apply Hread.
Qed.

Lemma tail_drain_loop_spec fuel deadline table i w : t_pending i = [] ->
  wp (tail_drain_loop fuel deadline table) (given (fun cs s' => mjoin table ++ due w = mjoin cs ++ tail_undelivered s')) (i, w).
Proof.
  assert (Hdone : forall table i w w', t_pending i = [] -> due w' = due w -> mjoin table ++ due w = mjoin table ++ tail_undelivered (i, w')).
  { intros t i' w1 w2 Hi Hd. unfold tail_undelivered; simpl. by rewrite Hi, Hd. }
  revert table i w. induction fuel as [|fuel IH]; intros table i w Hi; cbn [tail_drain_loop]; [done|].
  wp_run; [by apply Hdone|]. apply wp_tail_lock; [|done]. wp_run; [by apply Hdone|].
  apply wp_set_timeout. intros t'. wp_run. apply wp_next_frame; [|done]. intros w2 e _ He _; cbn [after].
  apply wp_bind, wp_set_timeout. intros t2; cbn [after].
  match goal with H : due _ = due w |- _ => rewrite <- H end. rewrite He.
  destruct e as [[bs| |x|x]|]; wp_run; try done; [|by apply Hdone..].
  eapply wp_mono; [by apply IH|]. intros [cs| | | |] s'; simpl; try done. intros <-.
  by rewrite join_app, <- (assoc_L (++)); simpl; rewrite app_nil_r.
Qed.

Lemma tail_drain_spec fuel timeout s s' cs :
  tail_drain fuel timeout s = (s', Gives cs) -> tail_undelivered s = mjoin cs ++ tail_undelivered s'.
Proof.
  destruct s as [i w]. apply (given_out (fun cs s' => _ = mjoin cs ++ tail_undelivered s')).
  unfold tail_drain. apply wp_bind, wp_deadline; cbn [after]; [|done..]. intros w' d Hd _.
  unfold tail_take. wp_run. apply wp_tail_lock; [|done]. wp_run.
  eapply wp_mono; [by apply tail_drain_loop_spec|]. intros [cs'| | | |] s2; simpl; try done. intros <-.
  unfold tail_undelivered; simpl. rewrite Hd. destruct (t_pending i); [done|]. simpl. by rewrite app_nil_r.
Qed.

#[export] Instance tail_reader : Reader (tail_st σ) := {
  rd_next := tail_next; rd_read_until := tail_read_until; rd_expect := tail_expect; rd_drain := tail_drain;
}.
#[export] Instance tail_reader_laws : ReaderLaws (tail_st σ) := {
  undelivered := tail_undelivered; next_law := tail_next_spec; read_until_law := tail_read_until_spec;
  expect_law := tail_expect_spec; drain_law := tail_drain_spec;
}.
End tail.

(** * The console *)

Section console.
Context {σ : Type} `{SourceLaws σ}.
Implicit Types (i : console) (w : σ).

Definition console_undelivered (s : console_st σ) : bytes := c_pending s.1 ++ due s.2.

Lemma wp_console_lock (Q : ends () -> console_st σ -> Prop) i w :
  Q (Gives ()) (i, w) -> Q (Panics poison_error) (i, w) -> wp console_lock Q (i, w).
Proof. intros HG HR. unfold console_lock. by wp_run. Qed.

Lemma wp_console_timeout t (Q : ends () -> console_st σ -> Prop) i w :
  (forall t', Q (Gives ()) (c_set_timeout t' i, w)) -> wp (console_timeout t) Q (i, w).
Proof.
  intros HQ. unfold console_timeout. wp_run; [|apply HQ]. specialize (HQ (c_timeout i)). by destruct i.
Qed.

Lemma wp_sock_read (Q : ends (option event) -> console_st σ -> Prop) i w :
  (forall w' e, at_least w <= at_least w' -> due w = arrived e ++ due w' ->
     match e with Some _ => (pieces w' < pieces w)%nat
     | None => pieces w' = pieces w /\ at_least w + c_timeout i <= at_least w' end ->
     Q (Gives e) (i, w')) ->
  (read (Some (c_timeout i)) w = None -> Q Hangs (i, w)) -> wp sock_read Q (i, w).
Proof.
  intros HG HH. unfold wp, sock_read; simpl. destruct (read (Some (c_timeout i)) w) as [[w' e]|] eqn:E; [|by apply HH].
  apply read_law in E as (? & ? & Hx). apply HG; [done..|]. destruct e; [done|]. by destruct Hx as (? & d & [= <-] & ?).
Qed.

(** How a search of the console ends: with the first match cut off, or with
    nothing lost. *)
Definition looked (p u : bytes) (e : ends bytes) (s : console_st σ) : Prop :=
  match e with
  | Gives m => cut p u = Some (m, console_undelivered s)
  | _ => console_undelivered s = u
  end.

Lemma console_seek_looked fuel call p deadline i w :
  wp (console_seek fuel call p deadline) (looked p (console_undelivered (i, w))) (i, w).
Proof.
  revert i w. induction fuel as [|fuel IH]; intros i w; cbn [console_seek]; [done|].
  wp_run. apply wp_console_lock; [|done]. wp_run.
  destruct p as [|b p]; [by wp_run|]. rewrite windows_position_spec by done.
  destruct (find_bytes (b :: p) (c_pending i)) as [k|] eqn:Ek.
  { wp_run. unfold looked, console_undelivered; simpl. by rewrite (cut_grows _ _ _ _ Ek). }
  wp_run.
  1, 2: unfold looked, console_undelivered; simpl; congruence.
  rename H2 into Hd.
  replace (console_undelivered (i, w)) with (console_undelivered (i, w')) by (unfold console_undelivered; simpl; congruence).
  apply wp_sock_read; [|done]. intros w2 e _ He _; cbn [after].
  assert (Hsame : arrived e = [] -> console_undelivered (i, w2) = console_undelivered (i, w')).
  { intros Ha. unfold console_undelivered; simpl. by rewrite He, Ha. }
  destruct e as [[bs| |x|x]|]; wp_run; try by apply Hsame.
  - replace (console_undelivered (i, w')) with (console_undelivered (c_set_pending (c_pending i ++ bs) i, w2)); [apply IH|].
    unfold console_undelivered; simpl. by rewrite He, (assoc_L (++)).
  - rewrite <- Hsame by done. apply IH.
Qed.

Lemma console_find_looked fuel call p timeout i w :
  wp (deadline ← deadline_of timeout (f64_of_Z 10); console_seek fuel call p deadline) (looked p (console_undelivered (i, w))) (i, w).
Proof.
  assert (Hs : forall w', due w' = due w -> console_undelivered (i, w') = console_undelivered (i, w)).
  { intros w' Hd. unfold console_undelivered; simpl. by rewrite Hd. }
  apply wp_bind, wp_deadline; cbn [after]; [|done|by intros; apply Hs].
  intros w' d Hd _. rewrite <- (Hs w') by done. apply console_seek_looked.
Qed.

Lemma console_read_until_spec fuel p timeout s s' m :
  console_read_until fuel p timeout s = (s', Gives m) -> cut p (console_undelivered s) = Some (m, console_undelivered s').
Proof. destruct s as [i w]. intros E. exact (wp_gives _ _ _ _ _ (console_find_looked fuel _ p timeout i w) E). Qed.

Lemma console_expect_looked fuel p timeout i w :
  wp (console_expect fuel p timeout) (fun e s' => match e with
    | Gives _ => exists m, cut p (console_undelivered (i, w)) = Some (m, console_undelivered s')
    | _ => console_undelivered s' = console_undelivered (i, w) end) (i, w).
Proof.
  pose proof (console_find_looked fuel "console:expect" p timeout i w) as Hw.
  unfold console_expect. unfold wp in *. revert Hw. unfold mbind, act_bind.
  destruct (deadline_of _ _ (i, w)) as [[i1 w1] []]; simpl; try done.
  destruct (console_seek _ _ _ _ (i1, w1)) as [s2 []]; simpl; try done. intros Hc. by eexists.
Qed.

Lemma console_expect_spec fuel p timeout s s' :
  console_expect fuel p timeout s = (s', Gives ()) -> exists m, cut p (console_undelivered s) = Some (m, console_undelivered s').
Proof. destruct s as [i w]. intros E. exact (wp_gives _ _ _ _ _ (console_expect_looked fuel p timeout i w) E). Qed.

Lemma console_next_spec timeout s s' o :
  console_next timeout s = (s', Gives o) -> console_undelivered s = default [] o ++ console_undelivered s'.
Proof.
  destruct s as [i w]. apply (given_out (fun o s' => _ = default [] o ++ console_undelivered s')).
  unfold console_next. wp_run. apply wp_console_lock; [|done]. wp_run; [done..| |by unfold console_undelivered; simpl].
  assert (Hread : forall i', c_pending i' = [] -> wp (e ← sock_read; console_timeout fifty_ms;;
      match e with
      | Some (Data bs) => mret (Some bs)
      | Some AtEnd => update c_set_eof;; mret None
      | None => mret None
      | Some (Reset e) | Some (Broken e) => raise (Host e)
      end) (given (fun o s' => console_undelivered (i, w) = default [] o ++ console_undelivered s')) (i', w)).
  { intros i' Hi'. apply wp_bind, wp_sock_read; [|done]. intros w2 e0 _ He _; cbn [after].
    apply wp_bind, wp_console_timeout. intros t; cbn [after]. unfold console_undelivered; simpl. rewrite e, He.
    destruct e0 as [[bs| |x|x]|]; wp_run; simpl; rewrite ?Hi'; done. }
  destruct timeout as [v|]; [|by apply wp_ret, Hread].
  wp_run; [|done]. destruct (from_secs_f64 _); wp_run; [|done]. apply wp_console_timeout. intros t'. cbn [after]. by apply Hread.
Qed.

Lemma console_drain_loop_spec fuel deadline table i w : c_pending i = [] ->
  wp (console_drain_loop fuel deadline table)
    (given (fun r s' => c_pending s'.1 = [] /\ mjoin table ++ due w = mjoin r.1 ++ due s'.2)) (i, w).
Proof.
  revert table i w. induction fuel as [|fuel IH]; intros table i w Hi; cbn [console_drain_loop]; [done|].
  wp_run; [by simpl; split; [|congruence]|]. apply wp_console_timeout. intros t'. cbn [after].
  apply wp_bind, wp_sock_read; [|done]. intros w2 e _ He _; cbn [after].
  match goal with H : due _ = due w |- _ => rewrite <- H end. rewrite He.
  destruct e as [[bs| |x|x]|]; wp_run; try done.
  eapply wp_mono; [by apply IH|]. intros [cs| | | |] s'; simpl; try done. intros [Hp Hc]. split; [done|]. rewrite <- Hc.
  by rewrite join_app, <- (assoc_L (++)); simpl; rewrite app_nil_r.
Qed.

Lemma console_drain_spec fuel timeout s s' cs :
  console_drain fuel timeout s = (s', Gives cs) -> console_undelivered s = mjoin cs ++ console_undelivered s'.
Proof.
  destruct s as [i w]. apply (given_out (fun cs s' => _ = mjoin cs ++ console_undelivered s')).
  unfold console_drain. wp_run; try done. apply wp_console_lock; [|done].
  unfold console_undelivered; simpl. match goal with H : due _ = due w |- _ => rewrite <- H end. wp_run.
  - eapply wp_mono; [by apply console_drain_loop_spec|]. intros [[cs' hit]| | | |] [i2 w2]; simpl; try done. intros [Hp Hc]. wp_run.
    apply wp_console_timeout. intros t'. cbn [after]. destruct hit; wp_run; simpl; rewrite Hp; simpl; rewrite <- Hc;
      destruct (c_pending i); simpl; by rewrite ?app_nil_r.
  - simpl. destruct (c_pending i); simpl; by rewrite ?app_nil_r.
Qed.

#[export] Instance console_reader : Reader (console_st σ) := {
  rd_next := console_next; rd_read_until := console_read_until; rd_expect := console_expect; rd_drain := console_drain;
}.
#[export] Instance console_reader_laws : ReaderLaws (console_st σ) := {
  undelivered := console_undelivered; next_law := console_next_spec; read_until_law := console_read_until_spec;
  expect_law := console_expect_spec; drain_law := console_drain_spec;
}.
End console.

(** * A capture *)

Section capture.
Context {σ : Type} `{SourceLaws σ}.
Implicit Types (i : capture) (w : σ).

Definition capture_undelivered (s : capture_st σ) : bytes := k_pending s.1 ++ due s.2.

Lemma wp_capture_lock (Q : ends () -> capture_st σ -> Prop) i w :
  (k_poisoned i = false -> Q (Gives ()) (i, w)) -> (k_poisoned i = true -> Q (Panics poison_error) (i, w)) -> wp capture_lock Q (i, w).
Proof. intros HG HR. unfold capture_lock. wp_run; auto. Qed.

Lemma wp_poll_for ms (Q : ends ready -> capture_st σ -> Prop) i w :
  (forall w' r, at_least w <= at_least w' -> due w' = due w -> pieces w' = pieces w ->
     (r = Ready -> read None w' <> None) -> Q (Gives r) (i, w')) -> wp (poll_for ms) Q (i, w).
Proof.
  intros HQ. unfold wp, poll_for; simpl. destruct (poll ms w) as [w' r] eqn:E.
  pose proof (poll_law _ _ _ _ E) as (? & ? & ?). apply HQ; [done..|]. intros ->. by apply (poll_ready ms w).
Qed.

Lemma wp_pipe_read (Q : ends event -> capture_st σ -> Prop) i w :
  (forall w' e, due w = arrived (Some e) ++ due w' -> (pieces w' < pieces w)%nat -> Q (Gives e) (i, w')) ->
  (read None w = None -> Q Hangs (i, w)) -> wp pipe_read Q (i, w).
Proof.
  intros HG HH. unfold wp, pipe_read; simpl. destruct (read None w) as [[w' [e|]]|] eqn:E; [| |by apply HH].
  - apply read_law in E as (_ & ? & ?). by apply HG.
  - apply read_law in E as (_ & _ & _ & d & ? & _). done.
Qed.

(** A capture that misses loses what it had read, as a tailed stream does. *)
Definition hunted (p u : bytes) (e : ends bytes) (s : capture_st σ) : Prop :=
  match e with
  | Gives m => cut p u = Some (m, capture_undelivered s)
  | _ => exists lost, u = lost ++ capture_undelivered s /\ (lost = [] \/ p = [] \/ find_bytes p lost = None)
  end.

Lemma wp_capture_keep p acc k (Q : ends () -> capture_st σ -> Prop) i w : find_bytes p acc = Some k -> k_pending i = [] -> k_poisoned i = false ->
  (forall i', cut p (acc ++ due w) = Some (take (k + length p) acc, capture_undelivered (i', w)) -> Q (Gives ()) (i', w)) ->
  wp (capture_keep (drop (k + length p) acc)) Q (i, w).
Proof.
  intros E Hp Hl HQ. pose proof (cut_grows _ _ (due w) _ E) as Hc. unfold capture_keep.
  destruct (drop (k + length p) acc) as [|b l] eqn:Ed; wp_run; [|apply wp_capture_lock; [|congruence]; intros _; wp_run].
  all: apply HQ; rewrite Hc, ?Ed; unfold capture_undelivered; simpl; by rewrite ?Hp.
Qed.

Lemma capture_seek_hunted fuel again call p deadline acc i w :
  k_pending i = [] -> k_poisoned i = false -> p = [] \/ find_bytes p acc = None ->
  wp (capture_seek fuel again call p deadline acc) (hunted p (acc ++ due w)) (i, w).
Proof.
  assert (Hmiss : forall acc i w, k_pending i = [] -> p = [] \/ find_bytes p acc = None ->
    exists lost, acc ++ due w = lost ++ capture_undelivered (i, w) /\ (lost = [] \/ p = [] \/ find_bytes p lost = None)).
  { intros acc' i' w' Hi Hn. exists acc'. unfold capture_undelivered; simpl. rewrite Hi. naive_solver. }
  revert acc i w. induction fuel as [|fuel IH]; intros acc i w Hi Hk Hn; cbn [capture_seek]; [by apply Hmiss|].
  wp_run.
  { match goal with H : due _ = due w |- _ => rewrite <- H end. by apply Hmiss. }
  match goal with H : due _ = due w |- _ => rewrite <- H end.
  apply wp_poll_for. intros w2 r _ <- _ _; cbn [after].
  destruct r as [| |x]; wp_run; [|by apply Hmiss..].
  apply wp_capture_lock; [intros _|congruence]; wp_run; [by apply Hmiss|].
  apply wp_pipe_read; [|intros _; by apply Hmiss]. intros w3 e He _; cbn [after].
  assert (Hend : forall x i', k_pending i' = [] -> arrived (Some e) = [] -> hunted p (acc ++ due w2) (Raises x) (i', w3)).
  { intros x i' Hi' Ha. rewrite He, Ha. by apply Hmiss. }
  destruct e as [bs| |x|x]; wp_run; try by apply Hend.
  all: cbn [arrived] in *; rewrite He, (assoc_L (++)); set (acc2 := acc ++ bs) in *.
  2: { destruct p; [|by rewrite windows_position_spec in *]. apply Hmiss; [done|by left]. }
  destruct p as [|b p]; [done|]. rewrite windows_position_spec in * by done. simplify_eq.
  destruct (find_bytes (b :: p) acc2) as [k|] eqn:Ef.
  - wp_run. apply (wp_capture_keep (b :: p) acc2 k); [done..|]. intros i' Hc. by wp_run.
  - wp_run; [|match goal with H : due ?a = due ?b |- context [due ?b] => rewrite <- H end; by apply IH; auto|by apply IH; auto].
    match goal with H : due ?a = due ?b |- context [due ?b] => rewrite <- H end. by apply Hmiss; auto.
Qed.

Lemma capture_find_hunted fuel again call p timeout i w :
  wp (capture_find fuel again call p timeout) (hunted p (capture_undelivered (i, w))) (i, w).
Proof.
  assert (Hno : forall w', due w' = due w -> exists lost, capture_undelivered (i, w) = lost ++ capture_undelivered (i, w') /\
    (lost = [] \/ p = [] \/ find_bytes p lost = None)).
  { intros w' Hd. exists []. unfold capture_undelivered; simpl. rewrite Hd. auto. }
  unfold capture_find. apply wp_bind, wp_deadline; cbn [after]; [|intros x; by apply Hno|intros q w' Hd _; by apply Hno].
  intros w' d Hd _. unfold capture_take. wp_run. apply wp_capture_lock; [intros Hk|intros _; by apply Hno]. wp_run.
  all: unfold capture_undelivered; simpl; rewrite <- Hd.
  2: { exists (k_pending i). simpl. split; [done|]. destruct p; [by right; left|by rewrite windows_position_spec in *]. }
  destruct p as [|b p]; [done|]. rewrite windows_position_spec in * by done. simplify_eq.
  destruct (find_bytes (b :: p) (k_pending i)) as [k|] eqn:E.
  - wp_run. apply (wp_capture_keep (b :: p) (k_pending i) k); [done..|]. intros i' Hc. by wp_run.
  - wp_run. apply wp_capture_lock; [intros _|simpl; congruence]. wp_run; [by apply capture_seek_hunted; auto|].
    exists (k_pending i). unfold capture_undelivered; simpl. auto.
Qed.

Lemma capture_read_until_spec fuel p timeout s s' m :
  capture_read_until fuel p timeout s = (s', Gives m) -> cut p (capture_undelivered s) = Some (m, capture_undelivered s').
Proof. destruct s as [i w]. intros E. exact (wp_gives _ _ _ _ _ (capture_find_hunted fuel false _ p timeout i w) E). Qed.

Lemma capture_expect_spec fuel p timeout s s' :
  capture_expect fuel p timeout s = (s', Gives ()) -> exists m, cut p (capture_undelivered s) = Some (m, capture_undelivered s').
Proof.
  destruct s as [i w]. apply (given_out (fun _ s' => exists m, cut p _ = Some (m, capture_undelivered s'))).
  unfold capture_expect. apply wp_bind. apply (wp_mono _ _ _ _ (capture_find_hunted fuel true "capture:expect" p timeout i w)).
  intros [m| | | |] s2 Hc; wp_run; try done. by exists m.
Qed.

Lemma capture_next_spec timeout s s' o :
  capture_next timeout s = (s', Gives o) -> capture_undelivered s = default [] o ++ capture_undelivered s'.
Proof.
  destruct s as [i w]. apply (given_out (fun o s' => _ = default [] o ++ capture_undelivered s')).
  unfold capture_next. wp_run; [|done]. apply wp_capture_lock; [intros _|done]. wp_run; [done..| |by unfold capture_undelivered; simpl].
  apply wp_poll_for. intros w2 r _ Hd _ _; cbn [after]. unfold capture_undelivered; simpl. rewrite e, <- Hd.
  destruct r as [| |x]; wp_run; [|by simpl; rewrite e|done]. apply wp_pipe_read; [|done]. intros w3 ev He _; cbn [after].
  rewrite He. destruct ev as [bs| |x|x]; wp_run; simpl; rewrite ?e; done.
Qed.

Lemma capture_drain_loop_spec fuel deadline table i w : k_pending i = [] ->
  wp (capture_drain_loop fuel deadline table) (given (fun cs s' => mjoin table ++ due w = mjoin cs ++ capture_undelivered s')) (i, w).
Proof.
  assert (Hdone : forall table i w, k_pending i = [] -> mjoin table ++ due w = mjoin table ++ capture_undelivered (i, w)).
  { intros t i' w' Hi. unfold capture_undelivered; simpl. by rewrite Hi. }
  revert table i w. induction fuel as [|fuel IH]; intros table i w Hi; cbn [capture_drain_loop]; [done|].
  wp_run; match goal with H : due _ = due w |- _ => rewrite <- H end; [by apply Hdone|].
  apply wp_poll_for. intros w2 r _ <- _ _; cbn [after]. destruct r as [| |x]; wp_run; [|by apply Hdone..].
  unfold wp, tried, pipe_read; simpl. destruct (read None w2) as [[w3 [e|]]|] eqn:Er; [| |done].
  - apply read_law in Er as (_ & He & _). rewrite He. destruct e as [bs| |x|x]; simpl; [|by apply Hdone..].
    eapply wp_mono; [by apply IH|]. intros [cs| | | |] s'; simpl; try done. intros <-.
    by rewrite join_app, <- (assoc_L (++)); simpl; rewrite app_nil_r.
  - apply read_law in Er as (_ & _ & _ & d & ? & _). done.
Qed.

Lemma capture_drain_spec fuel timeout s s' cs :
  capture_drain fuel timeout s = (s', Gives cs) -> capture_undelivered s = mjoin cs ++ capture_undelivered s'.
Proof.
  destruct s as [i w]. apply (given_out (fun cs s' => _ = mjoin cs ++ capture_undelivered s')).
  unfold capture_drain. wp_run; try done. apply wp_capture_lock; [intros _|done].
  assert (Hm : mjoin match k_pending i with [] => [] | bs => [bs] end = k_pending i).
  { destruct (k_pending i); simpl; by rewrite ?app_nil_r. }
  unfold capture_undelivered; simpl. match goal with H : due _ = due w |- _ => rewrite <- H end.
  wp_run; [by simpl; rewrite Hm| |by simpl; rewrite Hm].
  eapply wp_mono; [by apply capture_drain_loop_spec|]. intros [cs'| | | |] s2; simpl; try done. rewrite Hm. by intros ->.
Qed.

#[export] Instance capture_reader : Reader (capture_st σ) := {
  rd_next := capture_next; rd_read_until := capture_read_until; rd_expect := capture_expect; rd_drain := capture_drain;
}.
#[export] Instance capture_reader_laws : ReaderLaws (capture_st σ) := {
  undelivered := capture_undelivered; next_law := capture_next_spec; read_until_law := capture_read_until_spec;
  expect_law := capture_expect_spec; drain_law := capture_drain_spec;
}.
End capture.

(** * Conversations *)

(** What a test asks of a stream, and what it is told. *)
Inductive request :=
| AskNext (timeout : option value)
| AskUntil (pattern : bytes) (timeout : option value)
| AskExpect (pattern : bytes) (timeout : option value)
| AskDrain (timeout : option value).

Inductive reply := Chunk (bs : option bytes) | Match (m : bytes) | Passed | Chunks (cs : list bytes).

(** What a request may be told when [u] was not delivered yet, and what is left
    after it. *)
Inductive serves (u : bytes) : request -> reply -> bytes -> Prop :=
| Serves_next t o u' : u = default [] o ++ u' -> serves u (AskNext t) (Chunk o) u'
| Serves_until p t m u' : cut p u = Some (m, u') -> serves u (AskUntil p t) (Match m) u'
| Serves_expect p t m u' : cut p u = Some (m, u') -> serves u (AskExpect p t) Passed u'
| Serves_drain t cs u' : u = mjoin cs ++ u' -> serves u (AskDrain t) (Chunks cs) u'.

Inductive served (u : bytes) : list request -> list reply -> bytes -> Prop :=
| Served_none : served u [] [] u
| Served_more r rs a l u1 u2 : serves u r a u1 -> served u1 rs l u2 -> served u (r :: rs) (a :: l) u2.

Section conversation.
Context {R : Type} `{ReaderLaws R}.

Definition ask (fuel : nat) (r : request) : act R reply :=
  match r with
  | AskNext t => o ← rd_next t; mret (Chunk o)
  | AskUntil p t => m ← rd_read_until fuel p t; mret (Match m)
  | AskExpect p t => rd_expect fuel p t;; mret Passed
  | AskDrain t => cs ← rd_drain fuel t; mret (Chunks cs)
  end.

Fixpoint converse (fuel : nat) (rs : list request) : act R (list reply) :=
  match rs with
  | [] => mret []
  | r :: rs => a ← ask fuel r; l ← converse fuel rs; mret (a :: l)
  end.

Lemma bind_gives {A B} (m : act R A) (f : A -> act R B) s s' b :
  (m ≫= f) s = (s', Gives b) -> exists s1 a, m s = (s1, Gives a) /\ f a s1 = (s', Gives b).
Proof. unfold mbind, act_bind. destruct (m s) as [s1 []]; try done. eauto. Qed.

Lemma ask_serves fuel r s s' a : ask fuel r s = (s', Gives a) -> serves (undelivered s) r a (undelivered s').
Proof.
  destruct r; cbn [ask]; intros (s1 & x & Hx & [= <- <-])%bind_gives.
  - constructor. by apply (next_law timeout).
  - constructor. by apply (read_until_law fuel pattern timeout).
  - destruct x. apply expect_law in Hx as [m Hm]. by eapply Serves_expect.
  - constructor. by apply (drain_law fuel timeout).
Qed.

Lemma converse_served fuel rs s s' l : converse fuel rs s = (s', Gives l) -> served (undelivered s) rs l (undelivered s').
Proof.
  revert s l. induction rs as [|r rs IH]; intros s l; cbn [converse]; [intros [= <- <-]; constructor|].
  intros (s1 & a & Ha & (s2 & l' & Hl & [= <- <-])%bind_gives)%bind_gives.
  econstructor; [by eapply ask_serves|by apply IH].
Qed.

(** C13: whatever a test asks of a stream, in whatever order, it is told the
    bytes the stream carries, each once and in their order: a conversation that
    goes through is one with the bytes not delivered before it, where
    [read_until] and [expect] cut just after the first place their pattern
    occurs and [next] and [drain] take from the front. *)
Theorem conversation_is_cut fuel rs s s' l :
  converse fuel rs s = (s', Gives l) -> served (undelivered s) rs l (undelivered s').
Proof. apply converse_served. Qed.
End conversation.

(** A conversation of [read_until] and [expect] alone. *)
Definition searching (r : request) : bool := match r with AskUntil _ _ | AskExpect _ _ => true | _ => false end.

Lemma searches_determined rs u l1 u1 l2 u2 : forallb searching rs = true ->
  served u rs l1 u1 -> served u rs l2 u2 -> l1 = l2 /\ u1 = u2.
Proof.
  intros Hs H1. revert l2 u2 Hs. induction H1 as [|u r rs a l v1 v2 Ha _ IH]; intros l2 u2 Hs H2; inversion H2; subst; [done|].
  apply andb_true_iff in Hs as [Hr Hs]. destruct Ha; try done;
    match goal with H : serves _ _ _ _ |- _ => inversion H; subst end; simplify_eq/=;
    match goal with H : served _ rs _ _ |- _ => destruct (IH _ _ Hs H) as [-> ->] end; done.
Qed.

(** C14: how the bytes were cut into frames or reads, and on which kind of
    stream they came, does not show: two conversations of the same searches
    over the same bytes that both go through have the same replies and leave
    the same bytes. *)
Theorem framing_is_invisible {R1 R2 : Type} `{ReaderLaws R1} `{ReaderLaws R2} fuel1 fuel2 rs (s1 s1' : R1) (s2 s2' : R2) l1 l2 :
  forallb searching rs = true -> undelivered s1 = undelivered s2 ->
  converse fuel1 rs s1 = (s1', Gives l1) -> converse fuel2 rs s2 = (s2', Gives l2) ->
  l1 = l2 /\ undelivered s1' = undelivered s2'.
Proof.
  intros Hs Hu C1%converse_served C2%converse_served. rewrite Hu in C1. by apply (searches_determined rs (undelivered s2)).
Qed.

(** * What a miss costs *)

Section costs.
Context {σ : Type} `{SourceLaws σ}.

(** A search of the console that finds nothing costs nothing: whatever
    ends it, the bytes it read stay for the next call. *)
Lemma console_miss_keeps fuel p timeout (s s' : console_st σ) e :
  console_read_until fuel p timeout s = (s', e) -> (forall m, e <> Gives m) -> console_undelivered s' = console_undelivered s.
Proof.
  destruct s as [i w]. intros E Hno. pose proof (wp_gives _ _ _ _ _ (console_find_looked fuel "console:read_until" p timeout i w) E) as Hl.
  destruct e; [by destruct (Hno a)|done..].
Qed.

Lemma wp_set_timeout_some r (Q : ends () -> tail_st σ -> Prop) i w :
  0 < r -> Q (Gives ()) (t_set_timeout (Some r) i, w) -> wp (set_read_timeout (Some r)) Q (i, w).
Proof. intros Hr HQ. unfold set_read_timeout. destruct r; (lia || by wp_run). Qed.

(** How a search that comes to an end ends. *)
Definition over {A} (e : ends A) (_ : tail_st σ) : Prop := e <> Starved /\ e <> Hangs.

Lemma wp_tail_lock_over {A} (f : () -> act (tail_st σ) A) i w : wp (f ()) over (i, w) -> wp tail_lock (after f over) (i, w).
Proof. intros Hf. apply wp_tail_lock; [done|by split]. Qed.

Lemma wp_quiet_tail {A} bs t (a : A) i w : wp (tail_keep bs;; set_read_timeout t;; mret a) over (i, w).
Proof. unfold tail_keep, set_read_timeout. destruct bs, t as [[]|]; wp_run; by split. Qed.

Lemma tail_seek_ends fuel call p deadline acc i w : (pieces w < fuel)%nat -> wp (tail_seek fuel call p deadline acc) over (i, w).
Proof.
  revert acc i w. induction fuel as [|fuel IH]; intros acc i w Hf; [lia|]. cbn [tail_seek].
  apply wp_bind, wp_tail_lock_over. wp_run; [by split..|]. rename E0 into Hr. apply Z.eqb_neq in Hr.
  apply wp_set_timeout_some; [lia|]. cbn [after]. apply wp_bind, wp_next_frame.
  2: { intros Hn. exfalso. apply (read_returns (Z.max 0 (deadline - t)) w'); [lia|done]. }
  intros w2 e _ _ He; cbn [after].
  assert (Hnext : forall acc', wp (t ← tick; if deadline <=? t then set_read_timeout None;; raise (TimedOut call p)
    else tail_seek fuel call p deadline acc') over (t_set_timeout (Some (Z.max 0 (deadline - t))) i, w2)).
  { intros acc'. wp_run; [by split|]. apply Z.leb_gt in E0. apply IH. destruct e as [x|]; [lia|].
    destruct He as (_ & d & [= <-] & Hd). lia. }
  destruct e as [[bs| |x|x]|]; try (wp_run; by split).
  all: cbv zeta; destruct (haystack_find _ _); [apply wp_quiet_tail|apply Hnext].
Qed.

(** [read_until] of a tailed stream comes back: with a socket that keeps
    to its read timeout, a number of turns bounded by the pieces that still
    come is enough, and no turn waits past the deadline. *)
Lemma tail_search_ends fuel p timeout (s : tail_st σ) :
  (pieces s.2 < fuel)%nat -> (tail_read_until fuel p timeout s).2 <> Starved /\ (tail_read_until fuel p timeout s).2 <> Hangs.
Proof.
  destruct s as [i w]. intros Hf. change (wp (tail_read_until fuel p timeout) over (i, w)).
  unfold tail_read_until, tail_find. apply wp_bind, wp_deadline; cbn [after]; [|by split..].
  intros w' d _ Hp. unfold tail_take. apply wp_bind, wp_bind, wp_tail_lock; cbn [after]; [|by split]. wp_run.
  destruct (haystack_find _ _); [|apply tail_seek_ends; simpl in *; lia].
  unfold tail_keep. destruct (drop _ _); wp_run; by split.
Qed.
End costs.

(** * Examples *)

Definition demo_timeout : option value := Some (LStr (bytes_of "2s")).
Definition ms : N := 1000000.

(** The same text in two framings. *)
Definition demo_a : arrivals := Arrivals 5 [((10 * ms)%N, Data (bytes_of "boot re")); ((5 * ms)%N, Data (bytes_of "ady; ack; idle"))].
Definition demo_b : arrivals := Arrivals 0 [((1 * ms)%N, Data (bytes_of "boot ready; a")); (ms, Data (bytes_of "ck;")); (ms, Data (bytes_of " idle"))].
Definition demo_asks : list request := [AskExpect (bytes_of "ready") demo_timeout; AskUntil (bytes_of "ack") demo_timeout].
Definition demo_replies : list reply := [Passed; Match (bytes_of "; ack")].

Definition demo_tail : tail_st arrivals := (tail_new None, demo_a).
Definition demo_capture : capture_st arrivals := (capture_new, demo_b).

Lemma conversation_is_cut_witness :
  served (undelivered demo_tail) demo_asks demo_replies (undelivered (converse 9 demo_asks demo_tail).1) /\
  undelivered demo_tail = bytes_of "boot ready; ack; idle" /\ undelivered (converse 9 demo_asks demo_tail).1 = bytes_of "; idle".
Proof. split; [|vm_compute; done]. apply (conversation_is_cut 9). vm_compute. reflexivity. Defined.

Lemma framing_is_invisible_witness :
  demo_replies = demo_replies /\ undelivered (converse 9 demo_asks demo_tail).1 = undelivered (converse 9 demo_asks demo_capture).1.
Proof. apply (framing_is_invisible 9 9 demo_asks demo_tail _ demo_capture _ demo_replies demo_replies); vm_compute; reflexivity. Defined.

(** A console that says too little in time: the call misses, and [next] still
    gives what came. *)
Definition demo_console : console_st arrivals := (console_new, Arrivals 0 [(ms, Data (bytes_of "boot"))]).
Definition demo_miss : console_st arrivals * ends bytes := console_read_until 9 (bytes_of "ready") (Some (LStr (bytes_of "100ms"))) demo_console.

Lemma console_miss_keeps_witness : demo_miss.2 = Raises (TimedOut "console:read_until" (bytes_of "ready")) /\ console_undelivered demo_miss.1 = bytes_of "boot".
Proof.
  split; [vm_compute; reflexivity|].
  change (console_undelivered demo_miss.1 = console_undelivered demo_console).
  apply (console_miss_keeps 9 (bytes_of "ready") (Some (LStr (bytes_of "100ms"))) demo_console demo_miss.1 demo_miss.2); [vm_compute; reflexivity|].
  intros m. vm_compute. discriminate.
Defined.

Lemma tail_search_ends_witness :
  (tail_read_until 3 (bytes_of "x") demo_timeout (tail_new None, demo_a)).2 <> Starved /\
  (tail_read_until 3 (bytes_of "x") demo_timeout (tail_new None, demo_a)).2 <> Hangs.
Proof. apply (tail_search_ends 3 (bytes_of "x") demo_timeout (tail_new None, demo_a)). vm_compute. lia. Defined.

(** The same miss on a tailed stream: the bytes it read are gone. *)
Lemma tail_miss_loses :
  let s := (tail_new None, Arrivals 0 [(ms, Data (bytes_of "boot"))]) in
  let r := tail_read_until 9 (bytes_of "ready") (Some (LStr (bytes_of "100ms"))) s in
  r.2 = Raises (TimedOut "read_until" (bytes_of "ready")) /\ tail_undelivered s = bytes_of "boot" /\ tail_undelivered r.1 = [].
Proof. vm_compute. done. Qed.

(** What a drain collected is lost when the stream breaks. *)
Lemma tail_drain_loses :
  let s := (tail_new None, Arrivals 0 [(ms, Data (bytes_of "boot")); (ms, Broken "closed")]) in
  (tail_drain 9 None s).2 = Raises (Host "closed") /\ tail_undelivered (tail_drain 9 None s).1 = [].
Proof. vm_compute. done. Qed.

(** A zero timeout is refused by the socket, and the read waits for ever. *)
Lemma zero_timeout_hangs t : (tail_next (Some t) (tail_new None, Arrivals 0 [])).2 = Hangs <->
  exists secs, parse_duration (Some t) (f64_of_Z 10) = Ok secs /\ from_secs_f64 secs = Ok 0.
Proof.
  unfold tail_next, checked, tail_lock, inner, gets, mbind, act_bind, mret, act_ret.
  generalize (parse_duration (Some t) (f64_of_Z 10)). intros [secs|e]; [|split; [done|intros (? & [=] & _)]]. simpl.
  destruct (from_secs_f64 secs) as [[|d|d]|p] eqn:Ed; simpl; [by split; [exists secs|]|..].
  all: split; [done|intros (? & [= <-] & ?); congruence].
Qed.

(** No pattern: the console and a capture panic, and the console's mutex stays
    poisoned. *)
Lemma empty_pattern_panics :
  (tail_read_until 9 [] demo_timeout (tail_new None, demo_a)).2 = Gives [] /\
  (capture_read_until 9 [] demo_timeout (capture_new, demo_a)).2 = Panics empty_window /\
  let r := console_read_until 9 [] demo_timeout (console_new, demo_a) in
  r.2 = Panics empty_window /\ (console_next None r.1).2 = Panics poison_error.
Proof. vm_compute. done. Qed.

(** Timeouts that are finite and too big. *)
Lemma big_timeout_panics :
  (tail_read_until 9 (bytes_of "x") (Some (LNum (f64_of_Z (2 ^ 64)))) (tail_new None, demo_a)).2 = Panics too_big_or_nan /\
  (tail_read_until 9 (bytes_of "x") (Some (LInt (2 ^ 63 - 1))) (tail_new None, demo_a)).2 = Panics "overflow when adding duration to instant" /\
  let r := tail_next (Some (LNum (f64_of_Z (2 ^ 64)))) (tail_new None, demo_a) in
  r.2 = Panics too_big_or_nan /\ (tail_eof r.1).2 = Raises Poisoned.
Proof. vm_compute. done. Qed.
