(* ===== verification/LuaJson.v ===== *)
(** [json.encode] and [json.decode]: the translation between values of Lua and
    JSON values ([src/provium-host/src/lua/json_ud.rs]). The text of JSON is
    [serde_json]'s. *)
From Stdlib Require Import SpecFloat.
From stdpp Require Import pretty sorting.
From S2P Require Import Prelude Text Numbers Cpio Lua.

Open Scope string_scope.
Open Scope list_scope.
Open Scope Z_scope.

(** * JSON *)

(** [serde_json::Value]: an integer of 64 bits with or without sign, or a
    finite float; the fields of an object in the order of their keys, each key
    once. *)
Inductive number := NInt (z : Z) | NFloat (f : spec_float).

#[warnings="-register-all"]
Inductive json :=
| JNull
| JBool (b : bool)
| JNumber (n : number)
| JString (s : bytes)
| JArray (l : list json)
| JObject (fields : list (bytes * json)).

(** [Map::insert]. *)
Fixpoint field_insert {A} (k : bytes) (v : A) (fields : list (bytes * A)) : list (bytes * A) :=
  match fields with
  | [] => [(k, v)]
  | (k', v') :: rest =>
      match bytes_cmp k k' with
      | Lt => (k, v) :: fields
      | Eq => (k, v) :: rest
      | Gt => (k', v') :: field_insert k v rest
      end
  end.

Definition is_null (j : json) : bool := match j with JNull => true | _ => false end.

Definition i64_of_bits (x : Z) : Z := (x + 2 ^ 63) mod 2 ^ 64 - 2 ^ 63.

(** * Decoding *)

(** [Table::raw_set]: nil takes the key out. *)
Definition raw_set (k v : value) (t : list (value * value)) : list (value * value) :=
  let others := filter (fun p => same_key k p.1 = false) t in
  match v with LNil => others | _ => others ++ [(k, v)] end.

(** Numbered from [i]. *)
Fixpoint set_items (i : Z) (vs : list value) (t : list (value * value)) : list (value * value) :=
  match vs with [] => t | v :: vs => set_items (i + 1) vs (raw_set (LInt i) v t) end.

Definition number_to_lua (n : number) : value :=
  match n with NInt z => LInt (i64_of_bits z) | NFloat f => LNum f end.

Fixpoint json_to_lua (j : json) : value :=
  match j with
  | JNull => LNil
  | JBool b => LBool b
  | JNumber n => number_to_lua n
  | JString s => LStr s
  | JArray l => LTable (set_items 1 (json_to_lua <$> l) [])
  | JObject fields =>
      LTable (foldl (fun t p => if is_null p.1.2 then t else raw_set (LStr p.1.1) p.2 t) []
        ((fun p => (p, match p with (_, v) => json_to_lua v end)) <$> fields))
  end.

(** * Encoding *)

Inductive encode_error := UnsupportedType (type : string) | KeyNotUtf8 | StringNotUtf8 | BadKey (type : string) | CapacityOverflow.

Section encode.
(** The most elements a vector of JSON values can be asked for, and how a float
    that is not whole is printed. *)
Context (capacity : Z) (show_f64 : spec_float -> bytes).

(** The array index a key stands for. *)
Definition array_key (k : value) : option Z :=
  match k with
  | LInt i => if 1 <=? i then Some i else None
  | LNum n => if whole n && negb (f64_lt n (f64_of_Z 1)) then Some (f64_as_i64 n) else None
  | _ => None
  end.

Definition max_int_key {A} (t : list (value * A)) : Z := foldl (fun m p => default m (Z.max m <$> array_key p.1)) 0 t.
Definition has_non_array_key {A} (t : list (value * A)) : bool :=
  existsb (fun p => if array_key p.1 is None then true else false) t.

Definition key_text (k : value) : result bytes encode_error :=
  match k with
  | LStr s => if utf8_valid s then Ok s else Err KeyNotUtf8
  | LInt i => Ok (bytes_of (pretty i))
  | LNum n => Ok (if whole n then bytes_of (pretty (f64_as_i64 n)) else show_f64 n)
  | LBool b => Ok (bytes_of (if b then "true" else "false"))
  | other => Err (BadKey (type_name other))
  end.

(** [Table::raw_get] of an index, in a table whose values were converted. *)
Definition raw_get (t : list (value * result json encode_error)) (i : Z) : result json encode_error :=
  default (Ok JNull) (snd <$> find (fun p => same_key (LInt i) p.1) t).

Fixpoint collect {A E} (l : list (result A E)) : result (list A) E :=
  match l with
  | [] => Ok []
  | Err e :: _ => Err e
  | Ok a :: l => match collect l with Ok l => Ok (a :: l) | Err e => Err e end
  end.

Fixpoint fields_of (t : list (value * result json encode_error)) (obj : list (bytes * json)) : result (list (bytes * json)) encode_error :=
  match t with
  | [] => Ok obj
  | (k, v) :: t =>
      match key_text k with
      | Err e => Err e
      | Ok s => match v with Err e => Err e | Ok j => fields_of t (field_insert s j obj) end
      end
  end.

Definition table_to_json (t : list (value * result json encode_error)) : result json encode_error :=
  let max := max_int_key t in
  if negb (has_non_array_key t) && (0 <? max) then
    if capacity <? max then Err CapacityOverflow
    else match collect (raw_get t <$> seqZ 1 max) with Ok l => Ok (JArray l) | Err e => Err e end
  else match t with
       | [] => Ok (JObject [])
       | _ => match fields_of t [] with Ok fields => Ok (JObject fields) | Err e => Err e end
       end.

Fixpoint lua_to_json (v : value) : result json encode_error :=
  match v with
  | LNil => Ok JNull
  | LBool b => Ok (JBool b)
  | LInt i => Ok (JNumber (NInt i))
  | LNum n => Ok (if is_finite n then JNumber (NFloat n) else JNull)
  | LStr s => if utf8_valid s then Ok (JString s) else Err StringNotUtf8
  | LTable pairs => table_to_json ((fun p => match p with (k, v) => (k, lua_to_json v) end) <$> pairs)
  | LOther type => Err (UnsupportedType type)
  end.

(** * What survives decoding and encoding again *)

(** The elements up to the last one that is not null. *)
Fixpoint drop_nulls (l : list json) : list json := match l with JNull :: l => drop_nulls l | _ => l end.
Definition trimmed (l : list json) : list json := reverse (drop_nulls (reverse l)).

(** Integers that fit keep their value and the others their bits; fields that
    are null go, and so do nulls at the end of an array; an array with nothing
    left is an object. *)
Fixpoint normal (j : json) : json :=
  match j with
  | JNumber (NInt z) => JNumber (NInt (i64_of_bits z))
  | JArray l => match trimmed (normal <$> l) with [] => JObject [] | l' => JArray l' end
  | JObject fields =>
      JObject (filter (fun p => is_null p.2 = false) ((fun p => match p with (k, v) => (k, normal v) end) <$> fields))
  | _ => j
  end.

(** What [serde_json] parses: texts are UTF-8, floats are finite, keys come in
    order; and no array is longer than a vector can be. *)
Fixpoint json_ok (j : json) : Prop :=
  match j with
  | JNumber (NFloat f) => is_finite f = true
  | JString s => utf8_valid s = true
  | JArray l => zlen l <= capacity /\ foldr (fun j P => json_ok j /\ P) True l
  | JObject fields =>
      StronglySorted bytes_lt (fst <$> fields) /\
      foldr (fun p P => match p with (k, v) => utf8_valid k = true /\ json_ok v end /\ P) True fields
  | _ => True
  end.

(** ** Arrays *)

(** The converted values of an array, numbered, without the nulls. *)
Fixpoint num (i : Z) (js : list json) : list (value * result json encode_error) :=
  match js with
  | [] => []
  | j :: js => if is_null j then num (i + 1) js else (LInt i, Ok j) :: num (i + 1) js
  end.

Lemma num_app i a b : num i (a ++ b) = num i a ++ num (i + zlen a) b.
Proof.
  revert i. induction a as [|j a IH]; intros i; simpl; [by rewrite zlen_nil, Z.add_0_r|].
  rewrite IH, zlen_cons. replace (i + 1 + zlen a) with (i + (1 + zlen a)) by lia. by destruct (is_null j).
Qed.

Lemma drop_nulls_split l : exists n, l = replicate n JNull ++ drop_nulls l.
Proof.
  induction l as [|j l [n IH]]; [by exists O|].
  destruct j; try (by exists O). exists (S n). simpl. by f_equal.
Qed.

Lemma trimmed_split l : exists n, l = trimmed l ++ replicate n JNull.
Proof.
  destruct (drop_nulls_split (reverse l)) as [n Hn]. exists n. unfold trimmed.
  apply (f_equal reverse) in Hn. rewrite reverse_involutive, reverse_app, reverse_replicate in Hn. done.
Qed.

Lemma trimmed_last l : trimmed l = [] \/ exists a x, trimmed l = a ++ [x] /\ is_null x = false.
Proof.
  unfold trimmed. assert (Hd : drop_nulls (reverse l) = [] \/ exists x t, drop_nulls (reverse l) = x :: t /\ is_null x = false).
  { generalize (reverse l). induction l0 as [|j l0 IH]; [by left|]. destruct j; try (right; eexists _, _; by split). exact IH. }
  destruct Hd as [->|(x & t & -> & Hx)]; [by left|]. right. exists (reverse t), x. by rewrite reverse_cons.
Qed.

Lemma num_nulls i n : num i (replicate n JNull) = [].
Proof. revert i. induction n as [|n IH]; intros i; [done|]. apply IH. Qed.

Lemma num_trimmed i js : num i js = num i (trimmed js).
Proof. destruct (trimmed_split js) as [n Hn]. transitivity (num i (trimmed js ++ replicate n JNull)); [by f_equal|]. by rewrite num_app, num_nulls, app_nil_r. Qed.

Lemma max_num_le m i js : 1 <= i -> foldl (fun m p => default m (Z.max m <$> array_key p.1)) m (num i js) <= Z.max m (i + zlen js - 1).
Proof.
  revert m i. induction js as [|j js IH]; intros m i Hi; cbn [num]; [cbn; lia|]. rewrite zlen_cons. pose proof (zlen_nonneg js).
  destruct (is_null j); cbn [foldl fst array_key]; [specialize (IH m (i + 1) ltac:(lia)); lia|].
  rewrite (proj2 (Z.leb_le 1 i)) by lia. simpl. specialize (IH (Z.max m i) (i + 1) ltac:(lia)). lia.
Qed.

Lemma num_has_no_other i js : 1 <= i -> has_non_array_key (num i js) = false.
Proof.
  revert i. induction js as [|j js IH]; intros i Hi; cbn [num]; [done|]. destruct (is_null j); [by apply IH; lia|].
  simpl. rewrite (proj2 (Z.leb_le 1 i)) by lia. apply IH. lia.
Qed.

Lemma raw_get_before i js k : k < i -> raw_get (num i js) k = Ok JNull.
Proof.
  unfold raw_get. revert i. induction js as [|j js IH]; intros i Hk; cbn [num]; [done|]. destruct (is_null j); [by apply IH; lia|].
  simpl. rewrite (proj2 (Z.eqb_neq k i)) by lia. apply IH. lia.
Qed.

Lemma raw_get_num i js n j : js !! n = Some j -> raw_get (num i js) (i + Z.of_nat n) = Ok j.
Proof.
  revert i n. induction js as [|x js IH]; intros i n Hn; [done|]. cbn [num]. destruct n as [|n]; simpl in Hn.
  - simplify_eq. rewrite Z.add_0_r. destruct (is_null j) eqn:E; [rewrite raw_get_before by lia; by destruct j|].
    unfold raw_get. simpl. by rewrite Z.eqb_refl.
  - apply (IH (i + 1)) in Hn. replace (i + 1 + Z.of_nat n) with (i + Z.of_nat (S n)) in Hn by lia.
    destruct (is_null x); [done|]. revert Hn. unfold raw_get. cbn [find same_key fst].
    by rewrite (proj2 (Z.eqb_neq (i + Z.of_nat (S n)) i)) by lia.
Qed.

Lemma collect_ok {A E} (l : list A) : collect (E := E) (Ok <$> l) = Ok l.
Proof. induction l as [|a l IH]; [done|]. rewrite fmap_cons. cbn [collect]. by rewrite IH. Qed.

Lemma gather_num js : raw_get (num 1 js) <$> seqZ 1 (zlen js) = Ok <$> js.
Proof.
  apply list_eq. intros n. rewrite !list_lookup_fmap. destruct (decide (n < length js)%nat) as [Hn|Hn].
  - rewrite lookup_seqZ_lt by (unfold zlen; lia). simpl. destruct (lookup_lt_is_Some_2 js n Hn) as [j Hj]. rewrite Hj. simpl.
    f_equal. by apply raw_get_num.
  - rewrite lookup_seqZ_ge by (unfold zlen; lia). by rewrite lookup_ge_None_2 by lia.
Qed.

Lemma zlen_trimmed js : zlen (trimmed js) <= zlen js.
Proof. destruct (trimmed_split js) as [n Hn]. apply (f_equal zlen) in Hn. rewrite zlen_app in Hn. pose proof (zlen_nonneg (replicate n JNull)). lia. Qed.

Lemma zlen_snoc {A} (l : list A) x : zlen (l ++ [x]) = zlen l + 1.
Proof. by rewrite zlen_app. Qed.

Lemma encode_num js : zlen js <= capacity ->
  table_to_json (num 1 js) = Ok (match trimmed js with [] => JObject [] | l => JArray l end).
Proof.
  intros Hc. rewrite (num_trimmed 1 js). pose proof (zlen_trimmed js) as Hle. destruct (trimmed_last js) as [->|(a & x & Ht & Hx)]; [done|].
  assert (Hm : max_int_key (num 1 (trimmed js)) = zlen (trimmed js)).
  { rewrite Ht, num_app. unfold max_int_key. rewrite foldl_app. cbn [num]. rewrite Hx. cbn [foldl fst array_key].
    pose proof (max_num_le 0 1 a ltac:(lia)) as Hb. pose proof (zlen_nonneg a).
    rewrite (proj2 (Z.leb_le 1 (1 + zlen a))) by lia. simpl. rewrite zlen_snoc. lia. }
  unfold table_to_json. rewrite Hm, num_has_no_other by lia. cbn [negb andb].
  rewrite (proj2 (Z.ltb_lt 0 _)) by (rewrite Ht, zlen_snoc; pose proof (zlen_nonneg a); lia).
  rewrite (proj2 (Z.ltb_ge capacity _)) by lia. rewrite gather_num, collect_ok. rewrite Ht. by destruct a.
Qed.

(** ** Objects *)

Lemma field_insert_last {A} k (v : A) fields :
  Forall (fun p => bytes_lt p.1 k) fields -> field_insert k v fields = fields ++ [(k, v)].
Proof.
  induction 1 as [|[k' v'] fields Hk _ IH]; [done|]. cbn [field_insert app]. unfold bytes_lt in Hk. simpl in Hk.
  rewrite bytes_cmp_antisym, Hk. simpl. by rewrite IH.
Qed.

(** Fields that come in order end up as they came. *)
Lemma fields_of_sorted fs obj :
  StronglySorted bytes_lt (fst <$> obj ++ fs) -> Forall (fun p => utf8_valid p.1 = true) fs ->
  fields_of ((fun p => (LStr p.1, Ok p.2)) <$> fs) obj = Ok (obj ++ fs).
Proof.
  revert obj. induction fs as [|[k j] fs IH]; intros obj Hs Hu; [by rewrite app_nil_r|].
  inversion Hu as [|? ? Hk Hu']; subst. cbn [fmap list_fmap fields_of key_text fst snd]. simpl in Hk. rewrite Hk.
  rewrite field_insert_last; [rewrite (IH (obj ++ [(k, j)])); rewrite <- ?(assoc_L (++)); done|].
  apply Forall_forall. intros [k' j'] Hin. simpl. rewrite fmap_app in Hs. apply (StronglySorted_app_1_elem_of _ _ _ k' k Hs); [|by left].
  apply list_elem_of_fmap. by exists (k', j').
Qed.

Lemma raw_set_new k v t : v <> LNil -> Forall (fun p => same_key k p.1 = false) t -> raw_set k v t = t ++ [(k, v)].
Proof.
  intros Hv Ht. unfold raw_set.
  assert (E : filter (fun p => same_key k p.1 = false) t = t).
  { induction Ht as [|p t Hp _ IH]; [done|]. rewrite filter_cons_True by done. by rewrite IH. }
  rewrite E. by destruct v.
Qed.

Lemma raw_set_nil k t : Forall (fun p => same_key k p.1 = false) t -> raw_set k LNil t = t.
Proof. intros Ht. unfold raw_set. induction Ht as [|p t Hp _ IH]; [done|]. rewrite filter_cons_True by done. by rewrite IH. Qed.

Lemma to_lua_nil j : is_null j = false -> json_to_lua j <> LNil.
Proof. by destruct j as [| |[]| | |]. Qed.

Lemma normal_null j : is_null (normal j) = is_null j.
Proof. destruct j as [| |[]| | |]; try done. simpl. by destruct (trimmed _). Qed.

(** The table an array becomes. *)
Lemma set_items_num js i t :
  Forall (fun p => exists k, p.1 = LInt k /\ k < i) t ->
  Forall (fun j => lua_to_json (json_to_lua j) = Ok (normal j)) js ->
  (fun p : value * value => match p with (k, v) => (k, lua_to_json v) end) <$> set_items i (json_to_lua <$> js) t =
    ((fun p : value * value => match p with (k, v) => (k, lua_to_json v) end) <$> t) ++ num i (normal <$> js).
Proof.
  revert i t. induction js as [|j js IH]; intros i t Ht Hj; [by rewrite app_nil_r|].
  inversion Hj as [|? ? Hj1 Hjs]; subst. rewrite !fmap_cons. cbn [set_items num]. rewrite normal_null.
  assert (Hnew : Forall (fun p => same_key (LInt i) p.1 = false) t).
  { eapply Forall_impl; [exact Ht|]. intros p (k & -> & Hk). simpl. apply Z.eqb_neq. lia. }
  assert (Hlater : Forall (fun p => exists k, p.1 = LInt k /\ k < i + 1) t).
  { eapply Forall_impl; [exact Ht|]. intros p (k & -> & Hk). exists k. split; [done|lia]. }
  destruct (is_null j) eqn:En.
  - destruct j; try done. cbn [json_to_lua]. rewrite raw_set_nil by done. by apply IH.
  - rewrite raw_set_new by (done || by apply to_lua_nil). rewrite IH; [|apply Forall_app; split; [done|]|done].
    + rewrite fmap_app, <- (assoc_L (++)). cbn [fmap list_fmap app]. by rewrite Hj1.
    + constructor; [|done]. exists i. simpl. split; [done|lia].
Qed.

(** The table an object becomes. *)
Lemma set_fields_fields fields t :
  NoDup (fst <$> fields) -> Forall (fun p => Forall (fun q => same_key (LStr p.1) q.1 = false) t) fields ->
  Forall (fun p => lua_to_json (json_to_lua p.2) = Ok (normal p.2)) fields ->
  (fun p : value * value => match p with (k, v) => (k, lua_to_json v) end) <$>
    foldl (fun t p => if is_null p.1.2 then t else raw_set (LStr p.1.1) p.2 t) t
      ((fun p : bytes * json => (p, match p with (_, v) => json_to_lua v end)) <$> fields) =
  ((fun p : value * value => match p with (k, v) => (k, lua_to_json v) end) <$> t) ++
  ((fun p => (LStr p.1, Ok p.2)) <$>
    filter (fun p => is_null p.2 = false) ((fun p : bytes * json => match p with (k, v) => (k, normal v) end) <$> fields)).
Proof.
  revert t. induction fields as [|[k j] fields IH]; intros t Hd Ht Hj; [by rewrite app_nil_r|].
  inversion Hd as [|? ? Hk Hd']; inversion Ht as [|? ? Ht1 Ht']; inversion Hj as [|? ? Hj1 Hj']; subst. simpl in Hk, Ht1, Hj1.
  rewrite !fmap_cons. cbn [foldl fst snd]. destruct (is_null j) eqn:En.
  - rewrite filter_cons_False by (simpl; rewrite normal_null, En; done). by apply IH.
  - rewrite filter_cons_True by (simpl; by rewrite normal_null). rewrite raw_set_new by (done || by apply to_lua_nil).
    rewrite IH; [|done| |done].
    + rewrite fmap_app, <- (assoc_L (++)), fmap_cons. cbn [fmap list_fmap app fst snd]. by rewrite Hj1.
    + apply Forall_forall. intros [k' j'] Hin. apply Forall_app. split; [by eapply Forall_forall in Ht'|].
      constructor; [|done]. simpl. apply bool_decide_eq_false. intros ->. apply Hk, list_elem_of_fmap. by exists (k, j').
Qed.

(** ** Induction over the two kinds of values *)

Lemma json_nested (P : json -> Prop) :
  P JNull -> (forall b, P (JBool b)) -> (forall n, P (JNumber n)) -> (forall s, P (JString s)) ->
  (forall l, Forall P l -> P (JArray l)) -> (forall fields, Forall (fun p => P p.2) fields -> P (JObject fields)) -> forall j, P j.
Proof.
  intros H1 H2 H3 H4 H5 H6. fix IH 1. intros [|b|n|s|l|fields]; [done|apply H2|apply H3|apply H4| |].
  - apply H5. induction l as [|j l IHl]; constructor; [apply IH|exact IHl].
  - apply H6. induction fields as [|[k j] fields IHl]; constructor; [apply IH|exact IHl].
Qed.

Lemma ok_items l : foldr (fun j P => json_ok j /\ P) True l -> Forall json_ok l.
Proof. induction l as [|j l IH]; simpl; [done|]. intros [??]. constructor; auto. Qed.

Lemma ok_fields fields : foldr (fun p P => match p with (k, v) => utf8_valid k = true /\ json_ok v end /\ P) True fields ->
  Forall (fun p => utf8_valid p.1 = true /\ json_ok p.2) fields.
Proof. induction fields as [|[k j] l IH]; simpl; [done|]. intros [??]. constructor; auto. Qed.

Lemma sorted_filtered fields : StronglySorted bytes_lt (fst <$> fields) ->
  StronglySorted bytes_lt (fst <$> filter (fun p => is_null p.2 = false) ((fun p : bytes * json => match p with (k, v) => (k, normal v) end) <$> fields)).
Proof.
  induction fields as [|[k j] fields IH]; [done|]. intros Hs. inversion Hs as [|? ? Hs' Hk]; subst. rewrite fmap_cons.
  destruct (decide (is_null (normal j) = false)); [rewrite filter_cons_True by done|rewrite filter_cons_False by done; by apply IH].
  rewrite fmap_cons. constructor; [by apply IH|]. apply Forall_forall. intros k' ([k2 j2] & -> & Hin)%list_elem_of_fmap.
  apply list_elem_of_filter in Hin as [_ ([k3 j3] & [= -> ->] & Hin)%list_elem_of_fmap]. eapply Forall_forall in Hk; [exact Hk|].
  apply list_elem_of_fmap. by exists (k3, j3).
Qed.

Lemma sorted_nodup (l : list bytes) : StronglySorted bytes_lt l -> NoDup l.
Proof.
  induction 1 as [|k l _ IH Hk]; constructor; [|done]. intros Hin. eapply Forall_forall in Hk; [|exact Hin].
  unfold bytes_lt in Hk. by rewrite bytes_cmp_refl in Hk.
Qed.

Lemma encode_fields fs : StronglySorted bytes_lt (fst <$> fs) -> Forall (fun p => utf8_valid p.1 = true) fs ->
  table_to_json ((fun p => (LStr p.1, Ok p.2)) <$> fs) = Ok (JObject fs).
Proof.
  intros Hs Hu. destruct fs as [|p fs]; [done|]. unfold table_to_json.
  assert (Ho : has_non_array_key ((fun p : bytes * json => (LStr p.1, Ok (E := encode_error) p.2)) <$> p :: fs) = true) by done.
  rewrite Ho. cbn [negb andb]. rewrite (fields_of_sorted (p :: fs) []) by done. by rewrite fmap_cons.
Qed.

(** C15: what is decoded and encoded again is the same JSON value, up to the
    losses the module announces: fields that are null, nulls at the end of
    arrays, empty arrays, and the sign of integers from 2^63 up. *)
Theorem decode_encode j : json_ok j -> lua_to_json (json_to_lua j) = Ok (normal j).
Proof.
  induction j as [|b|[z|f]|s|l IH|fields IH] using json_nested; cbn [json_ok]; try done.
  - intros Hf. cbn [json_to_lua number_to_lua lua_to_json]. by rewrite Hf.
  - intros Hs. cbn [json_to_lua lua_to_json]. by rewrite Hs.
  - intros [Hc Hl%ok_items]. cbn [json_to_lua lua_to_json normal]. rewrite set_items_num; [|done|].
    + apply encode_num. unfold zlen in *. by rewrite length_fmap.
    + apply Forall_forall. intros j Hj. eapply Forall_forall in IH; [|exact Hj]. eapply Forall_forall in Hl; [|exact Hj]. auto.
  - intros [Hs Hf%ok_fields]. cbn [json_to_lua lua_to_json normal]. rewrite set_fields_fields.
    + apply encode_fields; [by apply sorted_filtered|]. apply Forall_forall. intros [k j] Hin.
      apply list_elem_of_filter in Hin as [_ ([k3 j3] & [= -> ->] & Hin)%list_elem_of_fmap].
      eapply Forall_forall in Hf; [|exact Hin]. by destruct Hf.
    + by apply sorted_nodup.
    + by apply Forall_forall.
    + apply Forall_forall. intros p Hp. eapply Forall_forall in IH; [|exact Hp]. eapply Forall_forall in Hf; [|exact Hp]. apply IH, Hf.
Qed.

(** * The order in which a table is walked *)

Definition array_keys_max (m : Z) (k : value) : Z := default m (Z.max m <$> array_key k).

Lemma max_int_key_perm {A} (t t' : list (value * A)) : t ≡ₚ t' -> max_int_key t = max_int_key t'.
Proof.
  unfold max_int_key. generalize 0. intros m H. revert m.
  induction H as [|p t t' _ IH|p q t|t1 t2 t3 _ IH1 _ IH2]; intros m; cbn [foldl]; [done|apply IH| |by rewrite IH1].
  f_equal. destruct (array_key p.1), (array_key q.1); simpl; lia.
Qed.

Lemma existsb_perm {A} (f : A -> bool) l l' : l ≡ₚ l' -> existsb f l = existsb f l'.
Proof. induction 1 as [|x l l' _ IH|x y l|l1 l2 l3 _ IH1 _ IH2]; simpl; [done|by rewrite IH|by destruct (f x), (f y)|congruence]. Qed.

Lemma find_perm {A} (f : A -> bool) l l' :
  l ≡ₚ l' -> (forall x y, x ∈ l -> y ∈ l -> f x = true -> f y = true -> x = y) -> find f l = find f l'.
Proof.
  intros Hp Hu. destruct (find f l) as [x|] eqn:E, (find f l') as [y|] eqn:E'; [| | |done].
  - apply find_some in E as [Hx Fx]. apply find_some in E' as [Hy Fy]. f_equal. apply Hu; [by apply list_elem_of_In| |done..].
    rewrite Hp. by apply list_elem_of_In.
  - apply find_some in E as [Hx Fx]. eapply find_none in E'; [by rewrite Fx in E'|]. apply list_elem_of_In. rewrite <- Hp. by apply list_elem_of_In.
  - apply find_some in E' as [Hy Fy]. eapply find_none in E; [by rewrite Fy in E|]. apply list_elem_of_In. rewrite Hp. by apply list_elem_of_In.
Qed.

Lemma same_int i k : same_key (LInt i) k = true -> k = LInt i.
Proof. destruct k; simpl; try done. intros ->%Z.eqb_eq. done. Qed.

Lemma nodup_key {A} (t : list (value * A)) p q : NoDup (key_text <$> (fst <$> t)) -> p ∈ t -> q ∈ t -> key_text p.1 = key_text q.1 -> p = q.
Proof.
  intros Hd [i Hi]%list_elem_of_lookup [j Hj]%list_elem_of_lookup E.
  assert (i = j); [|by simplify_eq]. eapply NoDup_lookup; [exact Hd| |]; rewrite !list_lookup_fmap; [by rewrite Hi|by rewrite Hj, E].
Qed.

Lemma raw_get_perm t t' i : t ≡ₚ t' -> NoDup (key_text <$> (fst <$> t)) -> raw_get t i = raw_get t' i.
Proof.
  intros Hp Hd. unfold raw_get. f_equal. f_equal. apply find_perm; [done|]. intros x y Hx Hy Fx%same_int Fy%same_int.
  eapply nodup_key; [exact Hd|done..|]. by rewrite Fx, Fy.
Qed.

Lemma field_insert_comm {A} k1 k2 (v1 v2 : A) fields :
  k1 <> k2 -> field_insert k1 v1 (field_insert k2 v2 fields) = field_insert k2 v2 (field_insert k1 v1 fields).
Proof.
  intros Hne. assert (Hcmp : bytes_cmp k1 k2 <> Eq) by (intros E%bytes_cmp_eq; done).
  pose proof (bytes_cmp_antisym k1 k2) as Ha.
  induction fields as [|[k v] fields IH]; cbn [field_insert].
  { rewrite Ha. by destruct (bytes_cmp k1 k2). }
  pose proof (bytes_cmp_antisym k1 k) as A1. pose proof (bytes_cmp_antisym k2 k) as A2.
  assert (T1 : bytes_cmp k1 k = Lt -> bytes_cmp k k2 = Lt -> bytes_cmp k1 k2 = Lt) by apply bytes_cmp_trans.
  assert (T2 : bytes_cmp k2 k = Lt -> bytes_cmp k k1 = Lt -> bytes_cmp k2 k1 = Lt) by apply bytes_cmp_trans.
  destruct (bytes_cmp k1 k) eqn:E1, (bytes_cmp k2 k) eqn:E2; simpl in A1, A2.
  all: try (apply bytes_cmp_eq in E1; subst k1). all: try (apply bytes_cmp_eq in E2; subst k2); try done.
  all: cbn [field_insert]; rewrite ?Ha, ?A1, ?A2, ?E1, ?E2, ?bytes_cmp_refl; cbn [field_insert]; rewrite ?Ha, ?A1, ?A2, ?E1, ?E2, ?bytes_cmp_refl; try done.
  - by destruct (bytes_cmp k1 k2).
  - by rewrite T1 by (done || by rewrite A2).
  - rewrite Ha in T2. specialize (T2 eq_refl A1). by destruct (bytes_cmp k1 k2).
  - by rewrite IH.
Qed.

Lemma fields_of_perm t t' obj fs : t ≡ₚ t' -> NoDup (key_text <$> (fst <$> t)) -> fields_of t obj = Ok fs -> fields_of t' obj = Ok fs.
Proof.
  intros H. revert obj. induction H as [|[k v] t t' _ IH|[k v] [k' v'] t|t1 t2 t3 H1 IH1 _ IH2]; intros obj Hd; [done| | |].
  - inversion Hd; subst. cbn [fields_of]. destruct (key_text k); [|done]. destruct v; [|done]. by apply IH.
  - assert (Hne : key_text k <> key_text k') by (intros E; inversion Hd as [|? ? Hn _]; subst; apply Hn; simpl; rewrite E; by left).
    cbn [fields_of]. destruct (key_text k) as [s|] eqn:Es, (key_text k') as [s'|] eqn:Es'; try done; destruct v, v'; try done.
    rewrite field_insert_comm by congruence. done.
  - intros E%IH1; [|done]. apply IH2; [|done]. by rewrite <- H1.
Qed.

Lemma table_to_json_perm t t' j :
  t ≡ₚ t' -> NoDup (key_text <$> (fst <$> t)) -> table_to_json t = Ok j -> table_to_json t' = Ok j.
Proof.
  intros Hp Hd. unfold table_to_json, has_non_array_key. rewrite <- (max_int_key_perm _ _ Hp), <- (existsb_perm _ _ _ Hp).
  destruct (_ && _).
  - destruct (_ <? _); [done|].
    assert (E : raw_get t <$> seqZ 1 (max_int_key t) = raw_get t' <$> seqZ 1 (max_int_key t)); [|by rewrite E].
    apply list_fmap_ext. intros n i _. by apply raw_get_perm.
  - destruct t as [|p t]; [apply Permutation_nil in Hp; by subst|].
    destruct t' as [|p' t']; [symmetry in Hp; by apply Permutation_nil in Hp|].
    destruct (fields_of (p :: t) []) as [fs|] eqn:E; [|done]. intros [= <-]. by rewrite (fields_of_perm _ _ _ _ Hp Hd E).
Qed.

(** The same value, with its tables walked in another order. *)
#[warnings="-register-all"]
Inductive reordered : value -> value -> Prop :=
| Reordered_same v : reordered v v
| Reordered_table ps qs rs :
    Forall2 (fun p q => p.1 = q.1 /\ reordered p.2 q.2) ps qs -> qs ≡ₚ rs -> reordered (LTable ps) (LTable rs).

(** Everything in a value can be encoded, and no two keys of a table are
    written alike. *)
Fixpoint encodes (v : value) : Prop :=
  match v with
  | LTable ps =>
      NoDup (key_text <$> (fst <$> ps)) /\
      foldr (fun p P => match p with (_, v) => encodes v /\ is_ok (lua_to_json v) = true end /\ P) True ps
  | _ => True
  end.

Lemma encodes_pairs ps : foldr (fun p P => match p with (_, v) => encodes v /\ is_ok (lua_to_json v) = true end /\ P) True ps ->
  Forall (fun p : value * value => encodes p.2 /\ is_ok (lua_to_json p.2) = true) ps.
Proof. induction ps as [|[k v] ps IH]; simpl; [done|]. intros [??]. constructor; auto. Qed.

Lemma value_nested (P : value -> Prop) :
  P LNil -> (forall b, P (LBool b)) -> (forall i, P (LInt i)) -> (forall f, P (LNum f)) -> (forall s, P (LStr s)) ->
  (forall ps, Forall (fun p => P p.2) ps -> P (LTable ps)) -> (forall t, P (LOther t)) -> forall v, P v.
Proof.
  intros H1 H2 H3 H4 H5 H6 H7. fix IH 1. intros [|b|i|f|s|ps|t]; [done|apply H2|apply H3|apply H4|apply H5| |apply H7].
  apply H6. induction ps as [|[k v] ps IHl]; constructor; [apply IH|exact IHl].
Qed.

(** C30: the order in which Lua walks a table, which the language leaves open,
    does not show in what is encoded: at any depth, unless two keys of a table
    are written alike. *)
Theorem encode_order_irrelevant v w j :
  encodes v -> reordered v w -> lua_to_json v = Ok j -> lua_to_json w = Ok j.
Proof.
  revert w j. induction v as [|b|i|f|s|ps IH|t] using value_nested; intros w j; cbn [encodes]; try by inversion 2.
  intros [Hd Hs%encodes_pairs] Hr. inversion Hr as [|? qs rs HF Hp]; subst; [done|]. cbn [lua_to_json].
  set (conv := fun p : value * value => match p with (k, v) => (k, lua_to_json v) end).
  assert (E : conv <$> ps = conv <$> qs).
  { clear Hd Hr Hp. induction HF as [|[k v] [k' v'] ps qs [Hk Hv] _ IHF]; [done|]. simpl in Hk, Hv. subst k'.
    inversion IH as [|? ? IHv IHps]; inversion Hs as [|? ? [Hv1 Hv2] Hs']; subst. simpl in IHv, Hv1, Hv2.
    rewrite !fmap_cons, IHF by done. f_equal. simpl. f_equal. destruct (lua_to_json v) as [jv|] eqn:Ev; [|done].
    symmetry. by apply IHv. }
  rewrite E. apply table_to_json_perm; [by apply fmap_Permutation|].
  replace (fst <$> (conv <$> qs)) with (fst <$> ps); [done|]. rewrite <- E, <- list_fmap_compose. by apply list_fmap_ext; intros n [].
Qed.
End encode.

(** * Examples *)

Definition demo_json : json :=
  JObject [(bytes_of "a", JArray [JNumber (NInt 1); JNull; JNumber (NInt 3); JNull]); (bytes_of "b", JNull);
           (bytes_of "c", JArray []); (bytes_of "d", JNumber (NInt (2 ^ 64 - 1)))].

Lemma decode_encode_witness :
  lua_to_json 100 (fun _ => []) (json_to_lua demo_json) =
    Ok (JObject [(bytes_of "a", JArray [JNumber (NInt 1); JNull; JNumber (NInt 3)]); (bytes_of "c", JObject []);
                 (bytes_of "d", JNumber (NInt (-1)))]).
Proof.
  apply (decode_encode 100 (fun _ => []) demo_json). cbn [json_ok demo_json foldr fmap list_fmap fst].
  split_and!; try done; repeat (constructor; [|repeat constructor]); constructor.
Defined.

Definition demo_table : value := LTable [(LStr (bytes_of "x"), LInt 1); (LStr (bytes_of "y"), LTable [(LInt 1, LInt 7); (LInt 2, LInt 8)])].
Definition demo_other : value := LTable [(LStr (bytes_of "y"), LTable [(LInt 2, LInt 8); (LInt 1, LInt 7)]); (LStr (bytes_of "x"), LInt 1)].

Lemma encode_order_irrelevant_witness :
  lua_to_json 100 (fun _ => []) demo_other =
    Ok (JObject [(bytes_of "x", JNumber (NInt 1)); (bytes_of "y", JArray [JNumber (NInt 7); JNumber (NInt 8)])]).
Proof.
  apply (encode_order_irrelevant 100 (fun _ => []) demo_table demo_other).
  - assert (Hn : forall a b : result bytes encode_error, a <> b -> NoDup [a; b]).
    { intros a b Hab. repeat constructor; [by intros ->%list_elem_of_singleton|by intros ?%elem_of_nil]. }
    cbn [encodes demo_table foldr fmap list_fmap fst]. split_and!; try done; apply Hn; vm_compute; discriminate.
  - eapply Reordered_table; [|apply Permutation_swap]. repeat constructor. simpl.
    eapply Reordered_table; [|apply Permutation_swap]. repeat constructor.
  - vm_compute. reflexivity.
Defined.

(** Two keys that are written alike: one of the entries is lost, and which one
    depends on the walk. *)
Lemma alike_keys_lose :
  lua_to_json 100 (fun _ => []) (LTable [(LInt 1, LInt 7); (LStr (bytes_of "1"), LInt 8)]) = Ok (JObject [(bytes_of "1", JNumber (NInt 8))]) /\
  lua_to_json 100 (fun _ => []) (LTable [(LStr (bytes_of "1"), LInt 8); (LInt 1, LInt 7)]) = Ok (JObject [(bytes_of "1", JNumber (NInt 7))]).
Proof. vm_compute. done. Qed.

(** One entry at a big index asks for a vector of that length. *)
Lemma sparse_index_overflows capacity show i v :
  capacity < i -> 1 <= i -> lua_to_json capacity show (LTable [(LInt i, v)]) = Err CapacityOverflow.
Proof.
  intros Hc Hi. cbn [lua_to_json fmap list_fmap]. unfold table_to_json, max_int_key, has_non_array_key. cbn [foldl existsb fst array_key].
  rewrite (proj2 (Z.leb_le 1 i)) by lia. simpl. rewrite (proj2 (Z.ltb_lt 0 _)) by lia. by rewrite (proj2 (Z.ltb_lt capacity _)) by lia.
Qed.
