(* ===== verification/LuaArgs.v ===== *)
(** The arguments of the machine bindings: commands, modes, raw system calls,
    where a tail starts, guest interfaces and the options of a boot, with the
    images a boot creates ([src/provium-host/src/lua/vm_ud.rs] and
    [Vm::create_disk_image] of [vm.rs]). *)
From Stdlib Require Import SpecFloat.
From stdpp Require Import pretty.
From S2P Require Import Prelude Text Names Numbers Cpio CliArgs TestFilter Wire VmOpts Fixture Lua LuaJson.

Open Scope string_scope.
Open Scope list_scope.
Open Scope Z_scope.

(** Why arguments are refused; the last one is a panic. *)
Inductive arg_error :=
| BadConversion (what : string)
| WrongType (what type : string)
| NotFinite (what : string)
| BadTimeout (secs : spec_float)
| MissingArg (what : string)
| NoMode
| BadStart (start : bytes)
| BadFiles (e : path_error)
| Sources (id : bytes) (named : list string)
| EmptyPath
| BadDiskSize (id : bytes) (e : CliArgs.arg_error)
| NotPositive
| ImageFailed (id : bytes) (e : string)
| StatFailed (e : string)
| ArgPanics (p : string).

Definition required {A} (what : string) (o : option A) : result A arg_error :=
  match o with Some a => Ok a | None => Err (BadConversion what) end.

(** [?] in a loop: the first error ends it. *)
Fixpoint each {A B} (f : A -> result B arg_error) (l : list A) : result (list B) arg_error :=
  match l with
  | [] => Ok []
  | a :: l => let? b := f a in let? bs := each f l in Ok (b :: bs)
  end.

Section args.
Context `{FromLua}.

Definition as_table (v : value) : option table := match v with LTable t => Some t | _ => None end.

(** * Commands *)

Definition pair_text (p : value * value) : result string arg_error :=
  let? _ := required "index" (to_i64 p.1) in
  let? bs := required "argument" (to_bytes p.2) in
  if utf8_valid bs then Ok (text bs) else Err (BadConversion "argument").

(** The arguments in a table, in the order in which it is walked. *)
Definition texts (t : table) : result (list string) arg_error := each pair_text t.

Definition pair_env (p : value * value) : result (bytes * string) arg_error :=
  let? k := required "env" (to_text p.1) in
  let? v := required "env" (to_text p.2) in Ok (k, text v).

Definition read_env (t : table) : result (list (string * string)) arg_error :=
  let? kvs := each pair_env t in
  Ok ((fun kv => (text kv.1, kv.2)) <$> foldl (fun m kv => field_insert kv.1 kv.2 m) [] kvs).

Definition option_keys : list string := ["env"; "env_clear"; "cwd"; "stdin"; "timeout_ms"; "timeout"; "args"].

(** A timeout in seconds, as milliseconds. *)
Definition timeout_millis (secs : spec_float) : result (option Z) arg_error :=
  if negb (is_finite secs) || f64_lt secs (f64_of_Z 0) then Err (BadTimeout secs)
  else Ok (Some (f64_as_u64 (f64_mul secs (f64_of_Z 1000)))).

(** The [timeout_ms] and [timeout] options: the first that converts; a text
    that is no duration is passed over. *)
Definition read_timeout (t : table) : result (option Z) arg_error :=
  match to_unsigned u64_max (field "timeout_ms" t) with
  | Some n => Ok (Some n)
  | None =>
      match to_text (field "timeout" t) with
      | Some s => match parse_duration_str s with Some secs => timeout_millis secs | None => Ok None end
      | None => match to_f64 (field "timeout" t) with Some n => timeout_millis n | None => Ok None end
      end
  end.

(** What the second argument of [vm:run] asks for; without arguments of its own
    the command is for the shell. *)
Record run_options := RunOptions {
  ro_args : option (list string); ro_env : list (string * string); ro_env_clear : bool;
  ro_cwd : option string; ro_stdin : bytes; ro_timeout : option Z }.

Definition read_options (t : table) : result run_options arg_error :=
  if existsb (fun k => contains_key k t) option_keys then
    let? args := match as_table (field "args" t) with
                 | Some a => let? l := texts a in Ok (Some l)
                 | None => Ok None
                 end in
    let? env := match as_table (field "env" t) with Some e => read_env e | None => Ok [] end in
    let? timeout := read_timeout t in
    Ok (RunOptions args env (default false (to_bool (field "env_clear" t))) (text <$> to_text (field "cwd" t))
          (default [] (to_bytes (field "stdin" t))) timeout)
  else
    let? args := texts t in
    Ok (RunOptions (Some args) [] false None [] None).

Definition build_exec_args (args : list value) : result exec_args arg_error :=
  match args with
  | [] => Err (MissingArg "vm:run expects at least a command string")
  | LStr cmd :: rest =>
      if negb (utf8_valid cmd) then Err (BadConversion "command") else
      let? o := match rest with
                | [] | LNil :: _ => Ok (RunOptions None [] false None [] None)
                | LTable t :: _ => read_options t
                | other :: _ => Err (WrongType "vm:run: second argument" (type_name other))
                end in
      let (c, l) := match ro_args o with None => ("sh", ["-c"; text cmd]) | Some direct => (text cmd, direct) end in
      Ok (ExecArgs c l (ro_env o) (ro_env_clear o) (ro_stdin o) (ro_cwd o) (ro_timeout o))
  | other :: _ => Err (WrongType "vm:run: first argument" (type_name other))
  end.

(** [vm:run_async]: a timeout is refused, since nothing would honour it. *)
Definition build_async_args (args : list value) : result run_async_args arg_error :=
  let? x := build_exec_args args in
  match x_timeout_ms x with
  | Some _ => Err (MissingArg "vm:run_async: `timeout` is not honoured here")
  | None => Ok (RunAsyncArgs (x_cmd x) (x_args x) (x_env x) (x_env_clear x) (x_cwd x))
  end.

(** * Files *)

(** [t.get::<Option<bool>>(key)?.unwrap_or(false)] *)
Definition flag (key : string) (t : table) : result bool arg_error :=
  match field key t with LNil => Ok false | v => required key (to_bool v) end.

Definition open_mode_from_table (t : table) : result open_mode arg_error :=
  let? r := flag "read" t in
  let? w := flag "write" t in
  let? c := flag "create" t in
  let? tr := flag "truncate" t in
  let? a := flag "append" t in
  let? x := flag "exclusive" t in
  if negb r && negb w && negb a then Err NoMode else Ok (OpenMode r w c tr a x).

(** [t.get::<Option<u32>>(key)?] *)
Definition optional_u32 (key : string) (t : table) : result (option Z) arg_error :=
  match field key t with LNil => Ok None | v => let? n := required key (to_unsigned u32_max v) in Ok (Some n) end.

(** [batch:mkdir] takes a flag or a table. *)
Definition mkdir_options (opts : option value) : result (bool * option Z) arg_error :=
  match opts with
  | None => Ok (false, None)
  | Some (LBool b) => Ok (b, None)
  | Some (LTable t) => let? p := flag "parents" t in let? m := optional_u32 "perm" t in Ok (p, m)
  | Some other => Err (WrongType "batch:mkdir: opts" (type_name other))
  end.

(** Where [vm:tail_file] starts; a number below zero counts from the end of the
    file, whose size is asked for. *)
Definition from_end (size : result Z string) (back : Z) : result tail_start arg_error :=
  match size with Ok n => Ok (TailOffset (sat_sub n back)) | Err e => Err (StatFailed e) end.

Definition tail_start_of (size : result Z string) (opts : option value) : result tail_start arg_error :=
  match opts with
  | None | Some LNil => Ok TailEnd
  | Some (LTable t) =>
      match field "start" t with
      | LNil => Ok TailEnd
      | LStr raw =>
          if negb (utf8_valid raw) then Err (BadConversion "start")
          else if decide (raw = bytes_of "beginning" \/ raw = bytes_of "start") then Ok TailBeginning
          else if decide (raw = bytes_of "end") then Ok TailEnd
          else Err (BadStart raw)
      | LInt n => if 0 <=? n then Ok (TailOffset n) else from_end size (- n)
      | LNum f =>
          match truncated f with
          | Some n => if 0 <=? n then Ok (TailOffset (Z.min u64_max n)) else from_end size (Z.min u64_max (- n))
          | None => Err (WrongType "vm:tail_file: opts.start" (type_name (LNum f)))
          end
      | other => Err (WrongType "vm:tail_file: opts.start" (type_name other))
      end
  | Some other => Err (WrongType "vm:tail_file: second arg" (type_name other))
  end.

(** * Raw system calls *)

Definition syscall_slot (v : value) : Z := match v with LInt n => n | LNum n => f64_as_i64 n | _ => 0 end.

(** The six slots: one at a time from a table, or the arguments in order. *)
Definition slots : list Z := [1; 2; 3; 4; 5; 6].
Definition slots_of_table (t : table) : list Z := (fun i => default 0 (to_i64 (lookup (LInt i) t))) <$> slots.
Definition slots_of_args (vs : list value) : list Z := take 6 ((syscall_slot <$> vs) ++ replicate 6 0).

(** An index counted from 1, as the wire counts it: from 0, in a byte. *)
Definition buf_index (i : Z) : result Z arg_error :=
  if i =? i64_min then Err (ArgPanics "attempt to subtract with overflow") else Ok (Z.max 0 (i - 1) mod 256).

Definition nested_entry (v : value) : result nested_ptr arg_error :=
  let? e := required "nested" (as_table v) in
  let? p := required "parent" (to_i64 (field "parent" e)) in
  let? c := required "child" (to_i64 (field "child" e)) in
  let? o := required "offset" (to_unsigned u32_max (field "offset" e)) in
  let? p := buf_index p in
  let? c := buf_index c in
  Ok (NestedPtr p c o).

Definition sequence_of (key : string) (t : table) : list value := default [] (sequence <$> as_table (field key t)).

Definition parse_syscall_args (args : list value) : result syscall_args arg_error :=
  match args with
  | [] => Err (MissingArg "syscall(nr, ...): missing nr")
  | nr_v :: rest =>
      let? nr := match nr_v with LInt n => Ok n | LNum n => Ok (f64_as_i64 n) | _ => Err (MissingArg "syscall: nr must be integer") end in
      match rest with
      | LTable t :: _ =>
          let filled := match as_table (field "args" t) with Some a => slots_of_table a | None => replicate 6 0 end in
          let? bufs := each (fun v => required "bufs" (to_bytes v)) (sequence_of "bufs" t) in
          let? ptrs := each (fun v => required "ptrs" (to_unsigned u8_max v)) (sequence_of "ptrs" t) in
          let? nested := each nested_entry (sequence_of "nested" t) in
          Ok (SyscallArgs nr filled bufs ptrs nested)
      | _ => Ok (SyscallArgs nr (slots_of_args rest) [] [] [])
      end
  end.
End args.

(** * Guest interfaces *)

Definition parse_guest_iface_index (name : bytes) : option Z :=
  match strip_prefix (bytes_of "eth") name with
  | Some rest => parse_u64 rest
  | None =>
      match strip_prefix (bytes_of "ens") name with
      | Some rest => parse_u64 rest
      | None => rest ← strip_prefix (bytes_of "enp0s") name; parse_u64 rest
      end
  end.

(** [vm:nic]: the bridge of that name, or the one a guest interface stands for. *)
Definition nic (name : string) (attached : gset string) : option string :=
  if decide (name ∈ attached) then Some name
  else idx ← parse_guest_iface_index (bytes_of name); in_order attached !! Z.to_nat idx.

(** * The images a boot creates *)

Inductive content := Zeros (size : Z) | Copied (bs : bytes).
#[export] Instance content_eq_dec : EqDecision content.
Proof. solve_decision. Defined.
Inductive created_disk := Blank (size : Z) | FromTemplate (from : bytes).

(** The files of the host, and the directory of the machine's own images. *)
Record images := Images { disk_dir : option bytes; files : gmap bytes content }.

Section images.
(** What making a directory gives, why a file cannot be created, and why it
    cannot be given its size, if so. *)
Context (tempdir : result bytes string) (creates : bytes -> option string) (sizes : Z -> option string).

Definition image_dir (s : images) : images * result bytes string :=
  match disk_dir s with
  | Some d => (s, Ok d)
  | None => match tempdir with
            | Ok d => (Images (Some d) (files s), Ok d)
            | Err e => (s, Err ("creating the image directory: " +:+ e))
            end
  end.

Definition create_disk_image (id : bytes) (source : created_disk) (s : images) : images * result bytes arg_error :=
  let (s, d) := image_dir s in
  match d with
  | Err e => (s, Err (ImageFailed id e))
  | Ok dir =>
      let path := join dir id in
      let put c := Images (disk_dir s) (<[path := c]> (files s)) in
      match source with
      | Blank size =>
          match creates path with
          | Some e => (s, Err (ImageFailed id ("creating the image: " +:+ e)))
          | None =>
              match sizes size with
              | Some e => (put (Zeros 0), Err (ImageFailed id ("sizing the image: " +:+ e)))
              | None => (put (Zeros size), Ok path)
              end
          end
      | FromTemplate from =>
          match files s !! from, creates path with
          | Some c, None => (put c, Ok path)
          | None, _ => (s, Err (ImageFailed id "copying the template: not found"))
          | _, Some e => (s, Err (ImageFailed id ("copying the template: " +:+ e)))
          end
      end
  end.

(** * The options of a boot *)

Context `{FromLua}.

Definition optional_flag (key : string) (id : bytes) (t : table) : result bool arg_error :=
  match field key t with
  | LNil => Ok false
  | LBool b => Ok b
  | other => Err (WrongType ("boot_opts.disks: " +:+ key) (type_name other))
  end.

Definition disk_id (i : nat) (t : table) : result bytes arg_error :=
  match field "id" t with
  | LNil => Ok (bytes_of ("boot" +:+ pretty (N.of_nat i)))
  | LStr s => if utf8_valid s then Ok s else Err (BadConversion "id")
  | other => Err (WrongType "boot_opts.disks: `id`" (type_name other))
  end.

Definition source_keys : list string := ["path"; "scratch"; "template"].

(** The bytes of a disk: a file the caller owns, a copy of a template, or a
    blank image. *)
Definition disk_path (id : bytes) (t : table) (s : images) : images * result bytes arg_error :=
  match field "path" t, field "scratch" t, field "template" t with
  | LStr p, _, _ =>
      (s, if negb (utf8_valid p) then Err (BadConversion "path") else if decide (p = []) then Err EmptyPath else Ok p)
  | _, LNil, LStr from => if utf8_valid from then create_disk_image id (FromTemplate from) s else (s, Err (BadConversion "template"))
  | _, LStr raw, _ =>
      if negb (utf8_valid raw) then (s, Err (BadConversion "scratch")) else
      match parse_size raw with
      | Ok size => create_disk_image id (Blank size) s
      | Err e => (s, Err (BadDiskSize id e))
      end
  | _, LInt n, _ => if 0 <? n then create_disk_image id (Blank n) s else (s, Err (WrongType "boot_opts.disks: `scratch`" "integer"))
  | _, other, _ => (s, Err (WrongType "boot_opts.disks: `scratch`" (type_name other)))
  end.

Definition boot_disk (i : nat) (entry : value) (s : images) : images * result attached_disk arg_error :=
  match as_table entry with
  | None => (s, Err (BadConversion "disks"))
  | Some t =>
      match disk_id i t with
      | Err e => (s, Err e)
      | Ok id =>
          match filter (fun k => contains_key k t = true) source_keys with
          | [_] =>
              let (s, p) := disk_path id t s in
              (s, let? path := p in
                  let? ro := optional_flag "readonly" id t in
                  let? med := optional_flag "mediated" id t in
                  Ok (AttachedDisk (text id) (text path) ro med))
          | named => (s, Err (Sources id named))
          end
      end
  end.

Fixpoint boot_disks (i : nat) (entries : list value) (s : images) : images * result (list attached_disk) arg_error :=
  match entries with
  | [] => (s, Ok [])
  | entry :: entries =>
      match boot_disk i entry s with
      | (s, Err e) => (s, Err e)
      | (s, Ok d) => let (s, r) := boot_disks (S i) entries s in (s, let? ds := r in Ok (d :: ds))
      end
  end.

Definition boot_file (entry : value) : result injected_file arg_error :=
  let? t := required "files" (as_table entry) in
  let? path := required "path" (to_text (field "path" t)) in
  let? data := required "content" (to_bytes (field "content" t)) in
  match field "mode" t with
  | LNil => Ok (InjectedFile path data DEFAULT_FILE_MODE)
  | LInt m => if (0 <=? m) && (m <=? 4095) then Ok (InjectedFile path data m) else Err (WrongType "boot_opts.files: `mode`" "integer")
  | other => Err (WrongType "boot_opts.files: `mode`" (type_name other))
  end.

Definition boot_files (t : table) : result (list injected_file) arg_error :=
  match as_table (field "files" t) with
  | None => Ok []
  | Some l =>
      let? fs := each boot_file (sequence l) in
      match validate fs with Ok _ => Ok fs | Err e => Err (BadFiles e) end
  end.

Definition initial_time (t : table) : result (option Z) arg_error :=
  match field "initial_time" t with
  | LNil => Ok None
  | LInt secs => Ok (Some (Z.max i64_min (Z.min i64_max (secs * 1000000000))))
  | LNum secs => if is_finite secs then Ok (Some (f64_as_i64 (f64_mul secs (f64_of_Z 1000000000)))) else Err (NotFinite "boot_opts.initial_time")
  | other => Err (WrongType "boot_opts.initial_time" (type_name other))
  end.

(** In nanoseconds. *)
Definition agent_timeout_of (t : table) : result (option Z) arg_error :=
  match field "agent_timeout" t with
  | LNil => Ok None
  | LInt secs => if 0 <? secs then Ok (Some (secs * 1000000000)) else Err NotPositive
  | LNum secs =>
      if is_finite secs && f64_lt (f64_of_Z 0) secs then
        match from_secs_f64 secs with Ok d => Ok (Some d) | Err p => Err (ArgPanics p) end
      else Err NotPositive
  | other => Err (WrongType "boot_opts.agent_timeout" (type_name other))
  end.

Definition parse_boot_overrides (t : table) (s : images) : images * result boot_opts arg_error :=
  match (let? time := initial_time t in let? fs := boot_files t in Ok (time, fs)) with
  | Err e => (s, Err e)
  | Ok (time, fs) =>
      let entries := default [] (sequence <$> as_table (field "disks" t)) in
      let (s, r) := boot_disks 0 entries s in
      (s, let? disks := r in
          let? timeout := agent_timeout_of t in
          Ok (BootOpts None None (text <$> to_text (field "kernel_cmdline" t)) (text <$> to_text (field "kernel_cmdline_append" t))
                fs timeout (to_unsigned u64_max (field "rng_seed" t)) time [] disks))
  end.
End images.

(** * Batches *)

Section batch.
Context `{FromLua}.

(** The calls a batch records, in their order. *)
Inductive batch_call :=
| BRun (args : list value) | BReadFile (path : string) | BWriteFile (path : string) (data : bytes) | BStat (path : string)
| BListdir (path : string) | BMkdir (path : string) (opts : option value) | BUnlink (path : string)
| BRename (from to : string) | BSyscall (nr : Z) (args : list value).

Definition batch_item (c : batch_call) : result host_message arg_error :=
  match c with
  | BRun args => let? x := build_exec_args args in Ok (MExec x)
  | BReadFile path => Ok (MReadFile path)
  | BWriteFile path data => Ok (MWriteFile (WriteFileArgs path data Replace None))
  | BStat path => Ok (MStat (StatArgs path true))
  | BListdir path => Ok (MListdir path)
  | BMkdir path opts => let? o := mkdir_options opts in Ok (MMkdir (MkdirArgs path o.1 o.2))
  | BUnlink path => Ok (MUnlink path)
  | BRename from to => Ok (MRename (RenameArgs from to))
  | BSyscall nr [LTable _] => Err (MissingArg "batch:syscall does not support the table form")
  | BSyscall nr args => Ok (MSyscall (SyscallArgs nr (slots_of_args args) [] [] []))
  end.

Definition batch_items (cs : list batch_call) : result (list host_message) arg_error := each batch_item cs.

Definition entry_type_name (t : entry_type) : string :=
  match t with
  | TFile => "file" | TDirectory => "directory" | TSymlink => "symlink" | TFifo => "fifo" | TSocket => "socket"
  | TBlockDevice => "block_device" | TCharDevice => "char_device" | TOther => "other"
  end.

(** A table with the fields that are not nil. *)
Definition table_of (fields : list (string * value)) : table :=
  (fun p => (LStr (bytes_of p.1), p.2)) <$> filter (fun p => is_nil p.2 = false) fields.

Definition list_of (vs : list value) : value := LTable (imap (fun i v => (LInt (Z.of_nat i + 1), v)) vs).

Definition text_value (s : string) : value := LStr (bytes_of s).

Definition stat_table (meta : file_metadata) : value :=
  LTable (table_of [("size", LInt (m_size meta)); ("mtime", LNum (f64_div (f64_of_Z (mtime_ns meta)) (f64_of_Z 1000000000)));
    ("mtime_ns", LInt (mtime_ns meta)); ("perm", LInt (perm meta)); ("entry_type", text_value (entry_type_name (m_type meta)))]).

Definition listdir_table (es : list dir_entry) : value :=
  list_of ((fun e => LTable (table_of [("name", text_value (d_name e)); ("entry_type", text_value (entry_type_name (d_type e)))])) <$> es).

Definition syscall_table (r : syscall_result) : value :=
  LTable (table_of [("ret", LInt (ret r)); ("errno", LInt (s_errno r)); ("out_bufs", list_of (LStr <$> out_bufs r))]).

(** [Display] of the two kinds of errors. *)
Definition show_os_error (e : os_error) : string := os_message e +:+ " (errno " +:+ pretty (errno e) +:+ ")".
Definition show_error_kind (k : agent_error_kind) : string :=
  match k with BadRequest => "BadRequest" | Unsupported => "Unsupported" | UnknownHandle => "UnknownHandle" | Internal => "Internal" end.
Definition show_agent_error (e : agent_error) : string :=
  "agent error (" +:+ show_error_kind (error_kind e) +:+ "): " +:+ message e.

Definition set_ok (v : value) : table := table_of [("ok", v)].
Definition set_err (e : string) : table := table_of [("err", text_value e)].
Definition op_entry {A} (f : A -> value) (r : op_result A) : table :=
  match r with Ok a => set_ok (f a) | Err e => set_err (show_os_error e) end.

(** What stands in the place of one call in the result of a batch; [wrap] is
    the userdata of a finished command. *)
Definition batch_response_to_lua (wrap : exec_ok -> value) (m : agent_message) : table :=
  match m with
  | RExec r => op_entry wrap r
  | RReadFile r => op_entry LStr r
  | RStat r => op_entry stat_table r
  | RListdir r => op_entry listdir_table r
  | RWriteFile r | RMkdir r | RUnlink r | RRename r => op_entry (fun _ => LNil) r
  | RSyscall r => set_ok (syscall_table r)
  | RAgentError e => set_err (show_agent_error e)
  | other => set_err ("unexpected batch response: " +:+ agent_kind other)
  end.
End batch.

(** * Raw system calls fit the wire *)

Section fits.
Context `{FromLuaLaws}.

Lemma each_Forall {A B} (f : A -> result B arg_error) (P : B -> Prop) l bs :
  (forall a b, f a = Ok b -> P b) -> each f l = Ok bs -> Forall P bs.
Proof.
  intros Hf. revert bs. induction l as [|a l IH]; intros bs; cbn [each]; [by intros [= <-]|].
  destruct (f a) as [b|] eqn:E; [|done]. destruct (each f l) as [bs'|]; [|done]. intros [= <-]. constructor; [by eapply Hf|by apply IH].
Qed.

Lemma buf_index_byte i n : buf_index i = Ok n -> in_width u8_max n /\ (1 <= i <= 256 -> n = i - 1).
Proof.
  unfold buf_index, in_width, u8_max. destruct (_ =? _); [done|]. intros [= <-].
  pose proof (Z.mod_pos_bound (Z.max 0 (i - 1)) 256 ltac:(lia)). split; [lia|]. intros Hi. rewrite Z.mod_small; lia.
Qed.

Definition nested_fits (n : nested_ptr) : Prop := in_width u8_max (Wire.parent n) /\ in_width u8_max (child_ix n) /\ in_width u32_max (n_offset n).

Lemma nested_entry_fits v n : nested_entry v = Ok n -> nested_fits n.
Proof.
  unfold nested_entry. destruct (as_table v) as [e|]; [|done]. simpl.
  destruct (to_i64 (field "parent" e)) as [p|]; [|done]. simpl. destruct (to_i64 (field "child" e)) as [c|]; [|done]. simpl.
  destruct (to_unsigned _ _) as [o|] eqn:Eo; [|done]. simpl. apply unsigned_width in Eo.
  destruct (buf_index p) as [p'|] eqn:Ep; [|done]. destruct (buf_index c) as [c'|] eqn:Ec; [|done].
  apply buf_index_byte in Ep as [Hp _], Ec as [Hc _]. by intros [= <-].
Qed.

(** The arguments of a raw system call fit the message that carries them:
    six slots, buffer indices of a byte and offsets of 32 bits, whatever the
    script passed. *)
Lemma syscall_args_fit args a :
  parse_syscall_args args = Ok a ->
  length (s_args a) = 6%nat /\ Forall (in_width u8_max) (ptrs a) /\ Forall nested_fits (nested a).
Proof.
  unfold parse_syscall_args. destruct args as [|v rest]; [done|].
  destruct (match v with LInt n => Ok n | _ => _ end) as [nr|]; [|done].
  assert (Hplain : forall bufs, Ok (SyscallArgs nr (slots_of_args rest) bufs [] []) = Ok (E := arg_error) a ->
    length (s_args a) = 6%nat /\ Forall (in_width u8_max) (ptrs a) /\ Forall nested_fits (nested a)).
  { intros bufs [= <-]. simpl. split_and!; [|constructor..]. unfold slots_of_args.
    rewrite length_take, length_app, length_replicate. lia. }
  destruct rest as [|[] rest]; try apply Hplain.
  destruct (each _ (sequence_of "bufs" _)) as [bufs|]; [|done].
  destruct (each _ (sequence_of "ptrs" _)) as [ps|] eqn:Ep; [|done].
  destruct (each nested_entry _) as [ns|] eqn:En; [|done]. intros [= <-]. simpl. split_and!.
  - by destruct (as_table _).
  - eapply each_Forall; [|exact Ep]. intros x n. simpl. destruct (to_unsigned _ _) as [m|] eqn:Em; [|done]. intros [= <-].
    by apply unsigned_width in Em.
  - eapply each_Forall; [|exact En]. apply nested_entry_fits.
Qed.
End fits.

(** * Boot images *)

Section images_kept.
Context (tempdir : result bytes string) (creates : bytes -> option string) (sizes : Z -> option string).
Context `{FromLua}.

(** The file an image is written to, if one is written. *)
Definition only_image (id : bytes) (s s' : images) : Prop :=
  (forall d, disk_dir s = Some d -> disk_dir s' = Some d) /\
  forall p, files s' !! p <> files s !! p -> exists dir, disk_dir s' = Some dir /\ p = join dir id.

Lemma only_image_same id s : only_image id s s.
Proof. split; [done|]. intros p Hp. done. Qed.

Lemma create_disk_image_only id source s : only_image id s (create_disk_image tempdir creates sizes id source s).1.
Proof.
  unfold create_disk_image. destruct (image_dir tempdir s) as [s1 d] eqn:Ed.
  assert (Hs : files s1 = files s /\ (forall d, disk_dir s = Some d -> disk_dir s1 = Some d) /\ (forall dir, d = Ok dir -> disk_dir s1 = Some dir)).
  { revert Ed. unfold image_dir. destruct (disk_dir s) as [d0|] eqn:E; [intros [= <- <-]; split_and!; [done|by rewrite E|by intros dir [= <-]]|].
    destruct tempdir; intros [= <- <-]; split_and!; try done. by intros dir [= <-]. }
  destruct Hs as (Hf & Hk & Hd). destruct d as [dir|e]; [|simpl; split; [done|by rewrite Hf]].
  assert (Hput : forall c, only_image id s (Images (disk_dir s1) (<[join dir id := c]> (files s1)))).
  { intros c. split; [done|]. intros p Hp. exists dir. split; [by apply Hd|]. simpl in Hp. rewrite Hf in Hp.
    destruct (decide (p = join dir id)); [done|]. by rewrite lookup_insert_ne in Hp. }
  assert (Hno : only_image id s s1) by (split; [done|]; by rewrite Hf).
  destruct source; repeat case_match; first [exact Hno | apply Hput].
Qed.

(** An entry whose disk is provium's to make, with its id. *)
Definition makes (entry : value) (id : bytes) : Prop :=
  exists i t, as_table entry = Some t /\ disk_id i t = Ok id /\ contains_key "path" t = false.

Lemma disk_path_cases id t s :
  (disk_path tempdir creates sizes id t s).1 = s \/
  exists source, disk_path tempdir creates sizes id t s = create_disk_image tempdir creates sizes id source s.
Proof. unfold disk_path. repeat case_match; (by left) || (right; by eexists). Qed.

Lemma boot_disk_only i entry s : let s' := (boot_disk tempdir creates sizes i entry s).1 in
  s' = s \/ exists id, makes entry id /\ only_image id s s'.
Proof.
  unfold boot_disk. destruct (as_table entry) as [t|] eqn:Et; [|by left]. destruct (disk_id i t) as [id|] eqn:Eid; [|by left].
  destruct (filter _ _) as [|k [|k2 l]] eqn:Ef; [by left| |by left].
  assert (Hs : let s' := (disk_path tempdir creates sizes id t s).1 in s' = s \/ exists id, makes entry id /\ only_image id s s').
  { destruct (contains_key "path" t) eqn:Ec.
    - left. unfold source_keys in Ef. rewrite filter_cons_True in Ef by done. injection Ef as _ Ef.
      assert (Hno : forall k, k ∈ ["scratch"; "template"] -> field k t = LNil).
      { intros k' Hk. destruct (contains_key k' t) eqn:Ek; [exfalso; apply (not_elem_of_nil k'); rewrite <- Ef; by apply list_elem_of_filter|].
        unfold contains_key in Ek. destruct (field k' t); done. }
      pose proof (Hno "scratch" ltac:(by left)) as Hs. pose proof (Hno "template" ltac:(right; by left)) as Ht.
      unfold disk_path. rewrite Hs, Ht. by destruct (field "path" t).
    - destruct (disk_path_cases id t s) as [E|[source E]]; simpl; rewrite E; [by left|]. right. exists id. split; [by exists i, t|].
      apply create_disk_image_only. }
  destruct (disk_path tempdir creates sizes id t s) as [s' r]. simpl in *. exact Hs.
Qed.

Lemma boot_disks_only entries i s : let s' := (boot_disks tempdir creates sizes i entries s).1 in
  (forall d, disk_dir s = Some d -> disk_dir s' = Some d) /\
  forall p, files s' !! p <> files s !! p -> exists entry id dir, entry ∈ entries /\ makes entry id /\ disk_dir s' = Some dir /\ p = join dir id.
Proof.
  revert i s. induction entries as [|entry entries IH]; intros i s; cbn [boot_disks]; [by split|].
  pose proof (boot_disk_only i entry s) as Hb. destruct (boot_disk tempdir creates sizes i entry s) as [s1 [d|e]]; simpl in Hb.
  - specialize (IH (S i) s1). destruct (boot_disks tempdir creates sizes (S i) entries s1) as [s2 r]. simpl in IH |- *. destruct IH as [IHd IHf].
    assert (Hlater : forall p, files s2 !! p <> files s1 !! p -> exists entry' id dir, entry' ∈ entry :: entries /\ makes entry' id /\ disk_dir s2 = Some dir /\ p = join dir id).
    { intros p (entry' & id & dir & Hin & Hm & Hd & Hp)%IHf. exists entry', id, dir. split_and!; [by right|done..]. }
    destruct Hb as [->|(id & Hm & Hd1 & Hf1)]; [by split|]. split; [auto|]. intros p Hp.
    destruct (decide (files s2 !! p = files s1 !! p)) as [E|E]; [|by apply Hlater]. rewrite E in Hp.
    apply Hf1 in Hp as (dir & Hdir & ->). exists entry, id, dir. split_and!; [by left|done|by apply IHd|done].
  - destruct Hb as [->|(id & Hm & Hd1 & Hf1)]; [by split|]. split; [done|]. intros p (dir & Hdir & ->)%Hf1.
    exists entry, id, dir. split_and!; [by left|done..].
Qed.

(** An id without a slash names an entry of the directory. *)
Lemma join_plain dir id : dir <> [] -> x2f ∉ id ->
  join dir id = (if decide (last dir = Some x2f) then dir else dir ++ [x2f]) ++ id.
Proof.
  intros Hd Hi. destruct (last dir) as [b|] eqn:El; [|by apply last_None in El].
  assert (Hj : join dir id = match b with x2f => dir ++ id | _ => dir ++ x2f :: id end).
  { unfold join. rewrite El. destruct id as [|[] id]; try done. destruct Hi. apply list_elem_of_here. }
  rewrite Hj. destruct (decide _) as [[= ->]|Hne]; [done|]. rewrite <- app_assoc. by destruct b.
Qed.

(** C28: reading the options of a boot writes no file but the images it makes
    itself: a path that changed, whether the options were accepted or not, is
    the image directory of the machine joined with the id of an entry that names
    no [path]. With an id that holds no slash that is a file of that directory;
    an id that is absolute or climbs with dots leads out of it. *)
Theorem boot_writes_only_images t s s' r p :
  parse_boot_overrides tempdir creates sizes t s = (s', r) -> files s' !! p <> files s !! p ->
  exists entry id dir, entry ∈ sequence_of "disks" t /\ makes entry id /\ disk_dir s' = Some dir /\ p = join dir id /\
    (dir <> [] -> x2f ∉ id -> p = (if decide (last dir = Some x2f) then dir else dir ++ [x2f]) ++ id).
Proof.
  unfold parse_boot_overrides. destruct (let? time := initial_time t in _) as [[time fs]|e]; [|by intros [= <- _]].
  fold (sequence_of "disks" t). pose proof (boot_disks_only (sequence_of "disks" t) 0 s) as [_ Hf].
  destruct (boot_disks _ _ _ 0 _ s) as [s1 r1]. intros [= <- _] (entry & id & dir & H1 & H2 & H3 & H4)%Hf.
  exists entry, id, dir. split_and!; [done..|]. intros Hd Hi. by rewrite H4, join_plain.
Qed.
End images_kept.

(** * Examples *)

Definition str := bytes_of.
Definition demo_run : list value := [LStr (str "ls"); LTable [(LStr (str "args"), LTable [(LInt 1, LStr (str "-l")); (LInt 2, LStr (str "/"))]); (LStr (str "timeout"), LStr (str "2s"))]].

Example runs :
  build_exec_args (H := strict) demo_run = Ok (ExecArgs "ls" ["-l"; "/"] [] false [] None (Some 2000)) /\
  build_exec_args (H := strict) [LStr (str "ls -l")] = Ok (ExecArgs "sh" ["-c"; "ls -l"] [] false [] None None) /\
  build_exec_args (H := strict) [LStr (str "ls"); LTable []] = Ok (ExecArgs "ls" [] [] false [] None None).
Proof. vm_compute. done. Qed.

(** A timeout that is no duration leaves the command without one. *)
Lemma bad_timeout_dropped :
  build_exec_args (H := strict) [LStr (str "ls"); LTable [(LStr (str "timeout"), LStr (str "2 sec"))]] =
    Ok (ExecArgs "sh" ["-c"; "ls"] [] false [] None None).
Proof. vm_compute. done. Qed.

(** The arguments come in the order of the walk, not of their indices. *)
Lemma arguments_walked :
  build_exec_args (H := strict) [LStr (str "ls"); LTable [(LInt 2, LStr (str "b")); (LInt 1, LStr (str "a"))]] =
    Ok (ExecArgs "ls" ["b"; "a"] [] false [] None None).
Proof. vm_compute. done. Qed.

Definition demo_call (parent child : Z) : list value :=
  [LInt 16; LTable [(LStr (str "args"), LTable [(LInt 1, LInt 3)]); (LStr (str "ptrs"), LTable [(LInt 1, LInt 2)]);
    (LStr (str "nested"), LTable [(LInt 1, LTable [(LStr (str "parent"), LInt parent); (LStr (str "child"), LInt child); (LStr (str "offset"), LInt 8)])])]].

Lemma syscall_args_fit_witness :
  parse_syscall_args (H := strict) (demo_call 1 2) = Ok (SyscallArgs 16 [3; 0; 0; 0; 0; 0] [] [2] [NestedPtr 0 1 8]) /\
  length [3; 0; 0; 0; 0; 0] = 6%nat /\ Forall (in_width u8_max) [2] /\ Forall nested_fits [NestedPtr 0 1 8].
Proof.
  split; [vm_compute; reflexivity|].
  apply (@syscall_args_fit strict strict_laws (demo_call 1 2) (SyscallArgs 16 [3; 0; 0; 0; 0; 0] [] [2] [NestedPtr 0 1 8])). vm_compute. reflexivity.
Defined.

(** Indices out of range name another buffer: 0 the first, and 257 too. *)
Lemma nested_wraps :
  (parse_syscall_args (H := strict) (demo_call 0 257)) = Ok (SyscallArgs 16 [3; 0; 0; 0; 0; 0] [] [2] [NestedPtr 0 0 8]).
Proof. vm_compute. done. Qed.

Definition demo_host : images := Images None ∅.
Definition demo_disks (id : string) : table :=
  [(LStr (str "disks"), LTable [(LInt 1, LTable [(LStr (str "path"), LStr (str "/a.img"))]);
                                (LInt 2, LTable [(LStr (str "id"), LStr (str id)); (LStr (str "scratch"), LStr (str "1M"))])])].
Definition demo_boot (id : string) : images * result boot_opts arg_error :=
  parse_boot_overrides (H := strict) (Ok (str "/tmp/d")) (fun _ => None) (fun _ => None) (demo_disks id) demo_host.

Lemma boot_writes_only_images_witness :
  bo_disks <$> (match (demo_boot "x").2 with Ok o => Some o | Err _ => None end) =
    Some [AttachedDisk "boot0" "/a.img" false false; AttachedDisk "x" "/tmp/d/x" false false] /\
  exists entry id dir, entry ∈ sequence_of "disks" (demo_disks "x") /\ makes entry id /\
    disk_dir (demo_boot "x").1 = Some dir /\ str "/tmp/d/x" = join dir id /\
    (dir <> [] -> x2f ∉ id -> str "/tmp/d/x" = (if decide (last dir = Some x2f) then dir else dir ++ [x2f]) ++ id).
Proof.
  split; [vm_compute; reflexivity|].
  apply (boot_writes_only_images (H := strict) (Ok (str "/tmp/d")) (fun _ => None) (fun _ => None) (demo_disks "x") demo_host (demo_boot "x").1 (demo_boot "x").2).
  - vm_compute. reflexivity.
  - vm_compute. discriminate.
Defined.

(** An absolute id is a path of its own: the file it names is replaced. *)
Lemma id_escapes : files (demo_boot "/etc/passwd").1 !! str "/etc/passwd" = Some (Zeros 1048576).
Proof. vm_compute. done. Qed.

(** A text may ask for an image of no bytes, which a number may not; and a
    timeout too big for the clock's type panics. *)
Lemma scratch_and_timeout :
  (disk_path (Ok (str "/tmp/d")) (fun _ => None) (fun _ => None) (str "x") [(LStr (str "scratch"), LStr (str "0"))] demo_host).2 = Ok (str "/tmp/d/x") /\
  (disk_path (Ok (str "/tmp/d")) (fun _ => None) (fun _ => None) (str "x") [(LStr (str "scratch"), LInt 0)] demo_host).2 = Err (WrongType "boot_opts.disks: `scratch`" "integer") /\
  agent_timeout_of [(LStr (str "agent_timeout"), LNum (f64_of_Z (2 ^ 64)))] = Err (ArgPanics too_big_or_nan).
Proof. vm_compute. done. Qed.

(** What a batch tells of a call that gives nothing: neither [ok] nor [err]. *)
Lemma batch_success_silent wrap :
  batch_response_to_lua wrap (RWriteFile (Ok ())) = [] /\ batch_response_to_lua wrap (RMkdir (Ok ())) = [] /\
  batch_response_to_lua wrap (RUnlink (Ok ())) = [] /\ batch_response_to_lua wrap (RRename (Ok ())) = [].
Proof. done. Qed.

Example interfaces :
  nic "eth1" {["lan"; "dmz"]} = Some "lan" /\ nic "enp0s0" {["lan"; "dmz"]} = Some "dmz" /\ nic "lan" {["lan"; "dmz"]} = Some "lan" /\
  nic "eth2" {["lan"; "dmz"]} = None.
Proof. vm_compute. done. Qed.
