(* ===== verification/Coverage.v ===== *)
(** The coverage report, [src/provium-coverage/src/main.rs]: the event log read
    back, its test results counted by a key of their metadata, and the report
    as text and as JSON. *)
From Stdlib Require Import Ascii.
From stdpp Require Import pretty.
From S2P Require Import Prelude Names Text Numbers Frame Pool Dispatch Events.

Open Scope string_scope.
Open Scope list_scope.
Open Scope Z_scope.

(** * Buckets *)

Record bucket_stats := BucketStats { bs_passed : Z; bs_failed : Z; bs_skipped : Z }.
Definition no_tests : bucket_stats := BucketStats 0 0 0.

Inductive outcome := Passed | Failed | Skipped.

Definition record (s : bucket_stats) (o : outcome) : bucket_stats :=
  match o with
  | Passed => BucketStats (bs_passed s + 1) (bs_failed s) (bs_skipped s)
  | Failed => BucketStats (bs_passed s) (bs_failed s + 1) (bs_skipped s)
  | Skipped => BucketStats (bs_passed s) (bs_failed s) (bs_skipped s + 1)
  end.

Definition total (s : bucket_stats) : Z := bs_passed s + bs_failed s + bs_skipped s.

Record coverage_report := CoverageReport { uncategorised : bucket_stats; buckets : gmap string bucket_stats }.
Definition report_default : coverage_report := CoverageReport no_tests ∅.

Definition string_of (v : meta_value) : option string := match v with MStr s => Some s | _ => None end.

Definition bucket_names (meta : meta_map) (key : string) : list string :=
  match meta !! key with
  | Some (MStr s) => [s]
  | Some (MArray items) => omap string_of items
  | _ => []
  end.

Definition record_in (o : outcome) (m : gmap string bucket_stats) (name : string) : gmap string bucket_stats :=
  <[name := record (default no_tests (m !! name)) o]> m.

Definition bump (key : string) (meta : meta_map) (o : outcome) (r : coverage_report) : coverage_report :=
  match bucket_names meta key with
  | [] => CoverageReport (record (uncategorised r) o) (buckets r)
  | names => CoverageReport (uncategorised r) (foldl (record_in o) (buckets r) names)
  end.

(** What an event says of a test, if anything. *)
Definition verdict (e : event) : option (meta_map * outcome) :=
  match e with
  | TestPassed t => Some (tr_meta t, Passed)
  | TestFailed t _ _ => Some (tr_meta t, Failed)
  | TestSkipped _ _ _ meta => Some (meta, Skipped)
  | _ => None
  end.

Definition count_event (key : string) (r : coverage_report) (e : event) : coverage_report :=
  match verdict e with Some (meta, o) => bump key meta o r | None => r end.

(** * Reading the log *)

Section aggregate.
Context (decode : bytes -> option event_frame).

(** [aggregate], one frame for each unit of fuel. *)
Fixpoint aggregate_from (fuel : nat) (key : string) (r : reader) (report : coverage_report) : option (result coverage_report frame_error) :=
  match fuel with
  | O => None
  | S fuel =>
      match read_frame decode r DEFAULT_MAX_FRAME_BYTES with
      | (r', Ok frame) => aggregate_from fuel key r' (count_event key report (ef_event frame))
      | (_, Err Eof) => Some (Ok report)
      | (_, Err e) => Some (Err e)
      end
  end.

(** A frame takes four bytes at least, so the bytes of the reader, and one
    turn for its end, are enough. *)
Definition aggregate (key : string) (r : reader) : option (result coverage_report frame_error) :=
  aggregate_from (S (length (stream r))) key r report_default.
End aggregate.

(** * The report *)

Definition render_counts (s : bucket_stats) : string :=
  pretty (total s) +:+ " tests (" +:+ pretty (bs_passed s) +:+ " passed, " +:+ pretty (bs_failed s) +:+ " failed, "
  +:+ pretty (bs_skipped s) +:+ " skipped)".

Definition add_stats (t s : bucket_stats) : bucket_stats :=
  BucketStats (bs_passed t + bs_passed s) (bs_failed t + bs_failed s) (bs_skipped t + bs_skipped s).

Definition totals (r : coverage_report) : bucket_stats := foldl add_stats (uncategorised r) (values (buckets r)).

Definition LF : string := String "010"%char "".

(** The buckets' lines are in the order of their names. *)
Definition render_plain (key_name : string) (r : coverage_report) : string :=
  let t := totals r in
  "coverage by `" +:+ key_name +:+ "`:" +:+ LF +:+
  String.concat "" ((fun b => "  " +:+ b.1 +:+ ": " +:+ render_counts b.2 +:+ LF) <$> map_walk (buckets r)) +:+
  (if 0 <? total (uncategorised r) then "  <unset>: " +:+ render_counts (uncategorised r) +:+ LF else "") +:+
  "  ---" +:+ LF +:+ "  buckets: " +:+ pretty (Z.of_nat (size (buckets r))) +:+ "; " +:+ pretty (bs_passed t) +:+ " passed, "
  +:+ pretty (bs_failed t) +:+ " failed, " +:+ pretty (bs_skipped t) +:+ " skipped".

Definition QUOTE_MARK : byte := x22.
Definition BACKSLASH : byte := x5c.

Definition hex_digit (n : Z) : byte := byte_of_Z (if n <? 10 then 48 + n else 87 + n).

(** One character of [json_string]; those beyond ASCII pass byte by byte. *)
Definition escape (b : byte) : bytes :=
  if decide (b = QUOTE_MARK) then [BACKSLASH; QUOTE_MARK]
  else if decide (b = BACKSLASH) then [BACKSLASH; BACKSLASH]
  else if decide (b = x0a) then [BACKSLASH; "n"%byte]
  else if decide (b = x09) then [BACKSLASH; "t"%byte]
  else if byte_to_Z b <? 0x20 then
    [BACKSLASH; "u"%byte; "0"%byte; "0"%byte; hex_digit (byte_to_Z b / 16); hex_digit (byte_to_Z b mod 16)]
  else [b].

Definition json_string (s : bytes) : bytes := QUOTE_MARK :: (s ≫= escape) ++ [QUOTE_MARK].

Definition bucket_json (s : bucket_stats) : bytes :=
  bytes_of "{" ++ json_string (bytes_of "passed") ++ bytes_of (":" +:+ pretty (bs_passed s) +:+ ",") ++
  json_string (bytes_of "failed") ++ bytes_of (":" +:+ pretty (bs_failed s) +:+ ",") ++
  json_string (bytes_of "skipped") ++ bytes_of (":" +:+ pretty (bs_skipped s) +:+ "}").

Fixpoint commas (xs : list bytes) : bytes :=
  match xs with [] => [] | [x] => x | x :: xs => x ++ bytes_of "," ++ commas xs end.

Definition to_json (r : coverage_report) : bytes :=
  bytes_of "{" ++ json_string (bytes_of "buckets") ++ bytes_of ":{" ++
  commas ((fun b => json_string (bytes_of b.1) ++ bytes_of ":" ++ bucket_json b.2) <$> map_walk (buckets r)) ++
  bytes_of "}," ++ json_string (bytes_of "uncategorised") ++ bytes_of ":" ++ bucket_json (uncategorised r) ++ bytes_of "}".

(** * What is counted *)

Definition outcome_eqb (a b : outcome) : bool :=
  match a, b with Passed, Passed | Failed, Failed | Skipped, Skipped => true | _, _ => false end.
Definition tally_of (o : outcome) (s : bucket_stats) : Z :=
  match o with Passed => bs_passed s | Failed => bs_failed s | Skipped => bs_skipped s end.

(** How often a name occurs in a list. *)
Definition occurrences (name : string) (names : list string) : Z := zlen (filter (fun n => n = name) names).

(** What one event adds to a name's bucket, and to the tests without one. *)
Definition adds (key name : string) (o : outcome) (e : event) : Z :=
  match verdict e with
  | Some (meta, o') => if outcome_eqb o o' then occurrences name (bucket_names meta key) else 0
  | None => 0
  end.
Definition unset (key : string) (o : outcome) (e : event) : Z :=
  match verdict e with
  | Some (meta, o') => if outcome_eqb o o' && bool_decide (bucket_names meta key = []) then 1 else 0
  | None => 0
  end.

Definition bucket_of (r : coverage_report) (name : string) : bucket_stats := default no_tests (buckets r !! name).

Lemma tally_record o o' s : tally_of o (record s o') = tally_of o s + (if outcome_eqb o o' then 1 else 0).
Proof. destruct o, o'; simpl; lia. Qed.

Lemma record_in_names o names m name :
  default no_tests (foldl (record_in o) m names !! name) = Nat.iter (Z.to_nat (occurrences name names)) (fun s => record s o) (default no_tests (m !! name)).
Proof.
  unfold occurrences, zlen. rewrite Nat2Z.id. revert m. induction names as [|n names IH]; intros m; [done|]. simpl foldl. rewrite IH.
  rewrite filter_cons. unfold record_in. destruct (decide (n = name)) as [->|Hne].
  - rewrite lookup_insert_eq. simpl length. simpl default. by rewrite Nat.iter_succ_r.
  - by rewrite lookup_insert_ne.
Qed.

Lemma tally_iter o o' n s : tally_of o (Nat.iter n (fun s => record s o') s) = tally_of o s + (if outcome_eqb o o' then Z.of_nat n else 0).
Proof. induction n as [|n IH]; simpl; [destruct (outcome_eqb o o'); lia|]. rewrite tally_record, IH. destruct (outcome_eqb o o'); lia. Qed.

Lemma occurrences_nonneg name names : 0 <= occurrences name names.
Proof. apply zlen_nonneg. Qed.

Lemma count_event_bucket key r e name o :
  tally_of o (bucket_of (count_event key r e) name) = tally_of o (bucket_of r name) + adds key name o e.
Proof.
  unfold count_event, adds, bucket_of. destruct (verdict e) as [[meta o']|]; [|lia]. unfold bump.
  pose proof (occurrences_nonneg name (bucket_names meta key)) as Hnn.
  destruct (bucket_names meta key) as [|n ns] eqn:En; cbn [buckets].
  - change (occurrences name []) with 0. destruct (outcome_eqb o o'); lia.
  - rewrite record_in_names, tally_iter, Z2Nat.id by apply occurrences_nonneg. done.
Qed.

Lemma count_event_unset key r e o :
  tally_of o (uncategorised (count_event key r e)) = tally_of o (uncategorised r) + unset key o e.
Proof.
  unfold count_event, unset. destruct (verdict e) as [[meta o']|]; [|lia]. unfold bump.
  destruct (bucket_names meta key) as [|n ns]; simpl.
  - rewrite tally_record. destruct (outcome_eqb o o'); simpl; lia.
  - rewrite andb_false_r. lia.
Qed.

Lemma count_events_spec key es r name o :
  let r' := foldl (count_event key) r es in
  tally_of o (bucket_of r' name) = tally_of o (bucket_of r name) + lsum (adds key name o) es /\
  tally_of o (uncategorised r') = tally_of o (uncategorised r) + lsum (unset key o) es.
Proof.
  revert r. induction es as [|e es IH]; intros r; simpl; [lia|].
  destruct (IH (count_event key r e)) as [-> ->]. rewrite count_event_bucket, count_event_unset. lia.
Qed.

(** * The log read back *)

Section log.
Context (encode : event_frame -> option bytes) (decode : bytes -> option event_frame).

(** A file's reader: short reads and interrupts, and nothing worse. *)
Definition file_reader (r : reader) : Prop := live r /\ forall k, Fault k ∈ r -> k = Interrupted.

Lemma read_frame_due r m p rest : codec_round_trips encode decode -> file_reader r ->
  encode m = Some p -> zlen p <= DEFAULT_MAX_FRAME_BYTES -> stream r = frame_of p ++ rest ->
  exists r', read_frame decode r DEFAULT_MAX_FRAME_BYTES = (r', Ok m) /\ file_reader r' /\ stream r' = rest.
Proof.
  intros Hrt [Hlive Hf] He Hp Hs. unfold read_frame.
  destruct (frame_reader_read decode (frame_reader_new DEFAULT_MAX_FRAME_BYTES) r) as [[st' r'] res] eqn:Hrun.
  assert (Hok : fr_ok (frame_reader_new DEFAULT_MAX_FRAME_BYTES)) by (apply fr_ok_new; unfold DEFAULT_MAX_FRAME_BYTES; lia).
  pose proof (frame_reader_read_step _ _ _ _ _ _ Hok Hrun) as (_ & _ & Hlive' & _ & Hf' & _).
  destruct (read_due encode decode _ r st' r' res m p rest Hrt Hok Hlive He) as [(-> & _ & Hs')|(k & _ & Hk & Hin & _)].
  - simpl. unfold DEFAULT_MAX_FRAME_BYTES, u32_max in *. lia.
  - exact Hs.
  - exact Hrun.
  - exists r'. split_and!; [done| |done]. split; [by apply Hlive'|]. intros k Hk. apply Hf. apply Hf'; [done|by exists k].
  - by apply Hf in Hin.
Qed.

Lemma read_frame_end r : file_reader r -> stream r = [] ->
  exists r', read_frame decode r DEFAULT_MAX_FRAME_BYTES = (r', Err Eof).
Proof.
  intros [Hlive Hf] Hs. unfold read_frame.
  destruct (frame_reader_read decode (frame_reader_new DEFAULT_MAX_FRAME_BYTES) r) as [[st' r'] res] eqn:Hrun.
  exists r'. f_equal.
  assert (Hok : fr_ok (frame_reader_new DEFAULT_MAX_FRAME_BYTES)) by (apply fr_ok_new; unfold DEFAULT_MAX_FRAME_BYTES; lia).
  pose proof (frame_reader_read_step _ _ _ _ _ _ Hok Hrun) as (_ & _ & _ & _ & _ & Hpost).
  destruct res as [m|[k| |got exp|len mx| |]]; unfold read_post in Hpost; rewrite ?Hs in Hpost;
    change (pending (frame_reader_new DEFAULT_MAX_FRAME_BYTES)) with (@nil byte) in Hpost; cbn [app] in Hpost.
  - destruct Hpost as (p & _ & _ & Hp & _). by apply frame_of_ne in Hp.
  - destruct Hpost as (_ & Hk & Hin & _). by apply Hf in Hin.
  - done.
  - destruct (Hpost Hlive) as [(_ & -> & ?)|(h & part & Hh & Hlen & _)]; [unfold zlen in *; simpl in *; lia|].
    symmetry in Hh. apply app_nil in Hh as [-> _]. done.
  - destruct Hpost as (_ & _ & h & rest & Hh & Hlen & _). symmetry in Hh. apply app_nil in Hh as [-> _]. done.
  - destruct Hpost as (p & _ & _ & Hp). by apply frame_of_ne in Hp.
  - done.
Qed.

(** A frame of the log stands for an event. *)
Definition stands_for (frame : bytes) (m : event_frame) : Prop :=
  exists p, encode m = Some p /\ zlen p <= DEFAULT_MAX_FRAME_BYTES /\ frame = frame_of p.

Lemma length_frame_of p : (4 <= length (frame_of p))%nat.
Proof. unfold frame_of. rewrite length_app, length_be_bytes. lia. Qed.

Lemma aggregate_frames fuel key r rep fs ms : codec_round_trips encode decode -> file_reader r ->
  Forall2 stands_for fs ms -> stream r = concat fs -> (length (stream r) < fuel)%nat ->
  aggregate_from decode fuel key r rep = Some (Ok (foldl (count_event key) rep (ef_event <$> ms))).
Proof.
  intros Hrt Hr HF. revert fuel r rep Hr. induction HF as [|f m fs ms (p & He & Hp & ->) HF IH]; intros fuel r rep Hr Hs Hfuel;
    (destruct fuel as [|fuel]; [lia|]); cbn [aggregate_from].
  - destruct (read_frame_end r Hr Hs) as [r' ->]. done.
  - cbn [concat] in Hs. destruct (read_frame_due r m p (concat fs) Hrt Hr He Hp Hs) as (r' & -> & Hr' & Hs').
    cbn [fmap list_fmap foldl]. apply IH; [done..|]. rewrite Hs in Hfuel. rewrite length_app in Hfuel.
    pose proof (length_frame_of p). rewrite Hs'. lia.
Qed.

(** C19: the coverage report counts what happened. Whatever processes append
    their events to one log, in whatever order they get its lock, if no write
    failed then the report made of the log, however its reading is cut up,
    counts for every value of the key exactly the tests that passed, failed and
    were skipped under it, an array once for each of its elements, and the
    tests without a value apart. *)
Theorem coverage_counts_tests ls f r ms key :
  codec_round_trips encode decode ->
  run_labels log_step ls log_empty = Some f -> lf_holder f = None ->
  Forall (fun w => whole w = true) (lf_history f) -> Forall2 stands_for (wn_frame <$> lf_history f) ms ->
  stream r = lf_content f -> file_reader r ->
  exists rep, aggregate decode key r = Some (Ok rep) /\
    forall o name, tally_of o (bucket_of rep name) = lsum (adds key name o) (ef_event <$> ms) /\
      tally_of o (uncategorised rep) = lsum (unset key o) (ef_event <$> ms).
Proof.
  intros Hrt Hrun Hfree Hwhole HF Hs Hr.
  pose proof (log_never_interleaves ls f Hrun Hfree Hwhole) as Hc.
  eexists. split; [unfold aggregate; apply (aggregate_frames _ _ _ _ (wn_frame <$> lf_history f) ms); [done..|by rewrite Hs, Hc|lia]|].
  intros o name. destruct (count_events_spec key (ef_event <$> ms) report_default name o) as [-> ->].
  unfold bucket_of, report_default. simpl. rewrite lookup_empty. by destruct o.
Qed.
End log.

(** * Examples *)

Definition demo_pass (s : string) : event_frame := EventFrame 0 (TestPassed (TestResult "" "" 0 {["spec" := MStr s]})).

(** A stand-in for the encoding that knows the events of [demo_pass]. *)
Definition demo_encode (m : event_frame) : option bytes :=
  match m with
  | EventFrame 0 (TestPassed (TestResult "" "" 0 meta)) =>
      match meta !! "spec" with
      | Some (MStr s) => if decide (size (delete "spec" meta) = 0%nat) then Some (bytes_of s) else None
      | _ => None
      end
  | _ => None
  end.
Definition demo_decode (p : bytes) : option event_frame := Some (demo_pass (text p)).

Lemma demo_codec : codec_round_trips demo_encode demo_decode.
Proof.
  intros m p. destruct m as [t e]. unfold demo_encode. destruct t; try done. destruct e as [| | | | | |[pa na d meta]| | | | | | | | | |]; try done.
  destruct pa; [|done]. destruct na; [|done]. destruct d; try done. destruct (meta !! "spec") as [[| | | |s| | |]|] eqn:Es; try done.
  destruct (decide _) as [Hz|]; [|done]. intros [= <-]. unfold demo_decode, demo_pass. rewrite text_bytes_of. do 4 f_equal.
  apply map_size_empty_inv in Hz. assert (E : meta = <["spec" := MStr s]> (delete "spec" meta)) by exact (eq_sym (insert_delete_id (M:=gmap string) meta "spec" _ Es)).
  rewrite E, Hz. done.
Qed.

Definition demo_log : list log_label :=
  [Lock 1 (frame_of (bytes_of "A")); Write (WroteSome 2); LockFails 0; Write WriteInterrupted; Write (WroteSome 3); Unlock;
   Lock 0 (frame_of (bytes_of "B")); Write (WroteSome 5); Unlock].

Definition demo_log_file : log_file := default log_empty (run_labels log_step demo_log log_empty).

Lemma coverage_counts_tests_witness :
  exists rep, aggregate demo_decode "spec" [Chunk (lf_content demo_log_file)] = Some (Ok rep) /\
    bucket_of rep "B" = BucketStats 1 0 0 /\ uncategorised rep = no_tests.
Proof.
  destruct (coverage_counts_tests demo_encode demo_decode demo_log demo_log_file [Chunk (lf_content demo_log_file)] [demo_pass "A"; demo_pass "B"] "spec")
    as (rep & Hagg & Hrep).
  - apply demo_codec.
  - vm_compute. reflexivity.
  - vm_compute. reflexivity.
  - repeat constructor.
  - repeat constructor; eexists; (split; [vm_compute; reflexivity|split; [vm_compute; discriminate|reflexivity]]).
  - vm_compute. reflexivity.
  - split; [repeat constructor; discriminate|]. intros k Hk. apply list_elem_of_singleton in Hk. discriminate Hk.
  - exists rep. split; [exact Hagg|].
    assert (HB : forall o, tally_of o (bucket_of rep "B") = tally_of o (BucketStats 1 0 0)).
    { intros o. etransitivity; [apply (Hrep o "B")|destruct o; vm_compute; reflexivity]. }
    assert (HU : forall o, tally_of o (uncategorised rep) = 0).
    { intros o. etransitivity; [apply (Hrep o "B")|destruct o; vm_compute; reflexivity]. }
    pose proof (HB Passed). pose proof (HB Failed). pose proof (HB Skipped).
    pose proof (HU Passed). pose proof (HU Failed). pose proof (HU Skipped).
    destruct (bucket_of rep "B"), (uncategorised rep). simpl in *. subst. done.
Defined.

(** * JSON strings *)

(** A reader of JSON strings, up to the closing quote. *)
Definition unhex (b : byte) : option Z := digit 16 b.
Fixpoint read_json (s : bytes) : option (bytes * bytes) :=
  match s with
  | [] => None
  | b :: rest =>
      if decide (b = QUOTE_MARK) then Some ([], rest)
      else if decide (b = BACKSLASH) then
        match rest with
        | c :: rest =>
            if decide (c = "u"%byte) then
              match rest with
              | z1 :: z2 :: h :: l :: rest =>
                  if decide (z1 = "0"%byte /\ z2 = "0"%byte) then
                    a ← unhex h; b ← unhex l; t ← read_json rest; Some (byte_of_Z (a * 16 + b) :: t.1, t.2)
                  else None
              | _ => None
              end
            else
              t ← read_json rest;
              if decide (c = "n"%byte) then Some (x0a :: t.1, t.2)
              else if decide (c = "t"%byte) then Some (x09 :: t.1, t.2)
              else if decide (c = QUOTE_MARK \/ c = BACKSLASH) then Some (c :: t.1, t.2)
              else None
        | [] => None
        end
      else if byte_to_Z b <? 0x20 then None
      else t ← read_json rest; Some (b :: t.1, t.2)
  end.
Definition read_json_string (s : bytes) : option (bytes * bytes) :=
  match s with b :: rest => if decide (b = QUOTE_MARK) then read_json rest else None | [] => None end.

Lemma read_escape b rest : read_json (escape b ++ rest) = t ← read_json rest; Some (b :: t.1, t.2).
Proof. by destruct b. Qed.

(** A name is printed as a JSON string that reads back as the name, whatever
    bytes it holds, and ends where it ends. *)
Lemma json_string_reads_back s rest : read_json_string (json_string s ++ rest) = Some (s, rest).
Proof.
  unfold json_string, read_json_string. cbn [app]. rewrite decide_True by done. rewrite <- (assoc_L (++)). cbn [app].
  induction s as [|b s IH]; [done|]. rewrite bind_cons, <- (assoc_L (++)), read_escape, IH. done.
Qed.

Example report_text :
  render_plain "spec" (count_event "spec" (count_event "spec" report_default (ef_event (demo_pass "A"))) (TestSkipped "" "" "" ∅)) =
  "coverage by `spec`:" +:+ LF +:+ "  A: 1 tests (1 passed, 0 failed, 0 skipped)" +:+ LF +:+
  "  <unset>: 1 tests (0 passed, 0 failed, 1 skipped)" +:+ LF +:+ "  ---" +:+ LF +:+ "  buckets: 1; 1 passed, 0 failed, 1 skipped".
Proof. vm_compute. reflexivity. Qed.
